(* ===== verification/_CoqProject ===== *)
-Q . S2P
Prelude.v
Context.v
Log.v
NrLog.v
RwLock.v
Flush.v
Replica.v
ReplicaSpec.v
ReplicaOps.v
NodeReplicated.v
NodeReplicatedSpec.v
NrTheorems.v
Topology.v
Gcd.v
GcdSpec.v
GcdFfi.v
GcdFfiSpec.v
Bench.v
BenchRun.v
BenchBuild.v
Workload.v
LogProtocol.v
LogProtocolSpec.v
LogProtocolTheorems.v
NrConc.v
NrConcSpec.v
NrConcLog.v
NrConcFrame.v
NrConcStep.v
NrConcCtx.v
NrConcCollect.v
NrConcRun.v
NrConcCombine.v
NrConcRespond.v
NrConcRead.v
NrConcInv.v
Linear.v
NrConcTheorems.v
GcdConc.v
Client.v
Examples.v
CnrLog.v
CnrReplica.v
CnrLogSpec.v
CnrCommute.v
CnrSpec.v
CnrRefine.v
CnrTheorems.v
CnrBench.v
CnrSync.v
VSpace.v
VSpaceSpec.v
VSpaceMap.v
VSpaceRefine.v
VSpaceTheorems.v
