(* ===== verification/Prelude.v ===== *)
(** * Verification of Megalon's replicated global cache directory

    Megalon caches file blocks in memory shared by several hosts.  Where the
    copies of a block are is recorded in a directory, which every host consults
    all the time; it is therefore replicated on every NUMA node and kept
    consistent by node replication: operations are appended to a shared log and
    every replica replays the log.  This development models the Rust code that
    implements the directory, third-party/nr_rust, from the log up to the
    functions exported to C, and proves that the replicated directory behaves
    like one hash map.  It also covers cnr, the variant of the library with several
    logs, the address space that the library is measured with, three examples of its
    use, and the harnesses that measure it.

    ** The program and its parts

    - node-replication/src/log.rs, replica.rs, nr/log.rs: the circular log with
      its head, tail, completed tail and one local tail per replica.
    - node-replication/src/context.rs: the ring of pending operations and
      responses of one thread.
    - node-replication/src/nr/rwlock.rs: the distributed reader-writer lock around
      the data of a replica, and a simple one.
    - node-replication/src/nr/replica.rs: flat combining.  A thread enqueues its
      operation in its context; one thread at a time, the combiner, appends the
      operations of all threads to the log, replays the log on the data and hands
      out the responses.  Reads wait until the replica has caught up.  On memory
      without cache coherence (feature scr) the combiner also writes back or
      flushes the data slots that the responses name and notifies the threads.
    - node-replication/src/nr/mod.rs: the replicated object.  A call that finds
      the log full, because a replica lags behind, works on behalf of that
      replica under its affinity and then retries.
    - node-replication/src/cnr/: concurrent node replication.  The application maps
      every operation to one of several logs, so that conflicting operations share
      a log; replicas combine on each log separately.  Scans, which conflict with
      everything, are appended to all logs.
    - ffi/types.rs, constants.rs, ffi_nr_hashmap.rs: the directory, the C
      functions, the affinity function.  ffi/topology.rs: the CPUs of the machine.
    - node-replication/examples/nr_hashmap.rs, nr_btreeset.rs, nr_stack.rs: threads that
      use a replicated object and assert what they find.
    - bench_utils/src/: the harness of the benchmarks.  It divides the CPUs among
      replicas, starts threads that execute operations until the time is over, and
      reports what they measured; cnr_mkbench.rs is the one for cnr.
    - custom_bench/: the operations of another benchmark, read from a file or generated.
    - node-replication/benches/vspace.rs: an address space made of four-level page
      tables with pages of three sizes, a data structure to be replicated.

    ** Files

    - Prelude: outcomes of Rust code ([res]: return, panic, spin), indexing and
      checked arithmetic, loops, transition systems ([reachable]), counting.
    - Context: [Context] with [enqueue], [enqueue_resps], [ctx_res], the iterator.
    - Log: [Log], its constructors and sizes, [log_register], [find_min_tail],
      [log_reset], [is_replica_synced_for_reads].
    - NrLog: [append], [publish], [exec], [advance_head]; [log_inv] relates a log
      to the history of operations appended to it.
    - LogProtocol: the log of the scr build as a transition system of any number of
      replicas, each with its own cache, whose steps are the single accesses of
      [append], [exec] and [advance_head] to shared memory; LogProtocolSpec: its
      inductive invariant; LogProtocolTheorems: the theorems.
    - NrConc: the threads of all replicas as a transition system on top of LogProtocol,
      whose steps are the single accesses of [execute_mut], [execute] and [sync] and of
      the functions they call to contexts, locks, data and log; NrConcSpec: its inductive
      invariant [ninv]; NrConcLog: what a step of the log does for the combiner;
      NrConcFrame, NrConcStep: what a step leaves alone, and the shapes that steps have;
      NrConcCtx, NrConcCollect, NrConcRun, NrConcCombine, NrConcRespond, NrConcRead:
      [ninv] for the steps of one part of the code each; NrConcInv: for all steps;
      Linear: [linearizable] and the order in which calls take effect; NrConcTheorems:
      the theorems; GcdConc: the directory under concurrency.
    - Client: threads that choose their calls by what they have done before, on top of
      NrConc, and what linearizability says about their responses; Examples: the three
      examples.
    - RwLock: the locks, sequentially and as transition systems whose steps are
      the single atomic accesses of the code.
    - Flush: the cache-line flushes and the loads and stores around them.
    - Replica: all operations of a replica; ReplicaSpec: the invariant [rep_inv]
      and combining; ReplicaOps: writes, reads, synchronisation, registration.
    - NodeReplicated: the replicated object; NodeReplicatedSpec: its invariant
      [nr_inv] and the simulation [sim] of one copy of the data; NrTheorems: the
      theorems about replicas and the object.
    - Topology: what hwloc knows of the machine, the queries on it and the placement of
      threads.
    - Gcd: the directory's data and operations; GcdSpec: its invariants.
    - GcdFfi: the C functions and the affinity function; GcdFfiSpec: their
      theorems.
    - Bench: which replica gets which CPUs; BenchRun: the threads of a benchmark, their
      loops and the reports, over any structure with the interface [DsInterface];
      BenchBuild: the builder and [configure]; Workload: the custom benchmark.
    - CnrLog, CnrReplica: the log and the replicas of cnr, all operations, scans
      included; CnrLogSpec: the invariant [clog_inv] of a log and what [append],
      [exec] and [advance_head] do to it; CnrCommute: histories partitioned into
      logs, [LogMapperLaws]; CnrSpec: the invariant [cw_inv] of all logs and replicas
      and one round of combining; CnrRefine: the sequential specification [CSeq], the
      progress of the replicas [CLag] and the simulation [csim]; CnrTheorems: the
      theorems; CnrBench: the harness for cnr; CnrSync: its threads as a transition
      system of commands, barrier, calls on the replicas, and the phase in which finished
      replicas keep their logs moving.
    - VSpace: address spaces, [map_generic] and [resolve_addr], the operations of
      the benchmark.  The entry format of the crate x86 and the memory allocator are
      parameters, the classes [X86] and [PageAlloc] with their laws.  VSpaceSpec:
      the tree of tables, its invariant [vs_wf] and the translation [maps];
      VSpaceMap: what [map_generic] does to it; VSpaceRefine: the abstract address
      space; VSpaceTheorems: ownership of the tables, an instance of the parameters
      ([amd64], [first_fit]) and the theorems.

    Definitions carry the names of the functions they translate, with a prefix
    where two Rust types have a method of the same name ([nr_register],
    [replica_register], [log_register]).  A method takes the value of its object
    and returns the new one.  Atomics, [RefCell] and [UnsafeCell] fields are plain
    fields, except in the transition systems.  The class [Dispatch] is the trait
    of the same name: the theorems about node replication hold for any instance,
    and [GcdDispatch] is the one for the directory.  [CDispatch] is the trait of cnr
    together with [LogMapper].  The two builds of the code,
    with and without the feature scr, are the values of [feature].

    ** What is proved

    - [directory_refines]: any program of C calls, by any threads, returns what it
      would return on one hash map; the proof composes [nr_refines]'s simulation,
      for any data structure, with the C functions and the affinity function.
    - [nr_linearizable], [nr_copies_agree], [nr_concurrent_panics]: in every
      interleaving of the threads of all replicas, for any data structure, the calls of
      [execute_mut] and [execute] are linearizable, the copies agree with the log, and
      the only assertion that can fail is the one on the replica that a failed append
      names ([nr_reader_stuck]); [directory_concurrent]: what lookups return while other
      hosts change the directory.
    - [nr_refines], [execute_mut_correct], [execute_loose_prefix],
      [nr_build_correct]: the replicated object is a copy of the sequential one,
      whatever the lag of the replicas; its retry loops terminate.
    - [combine_correct], [combine_write_back], [notification_correct]: every
      operation enters the log once, in the order of its thread, and every
      response reaches its thread.
    - [append_correct], [exec_replays]: the log grows by exactly the operations
      appended, a replica replays exactly those it has not seen; [ctx_roundtrip]:
      contexts neither lose nor reorder operations and responses.
    - [log_replicas_agree], [log_no_stale_read], [log_completed_visible],
      [log_no_panic]: in every interleaving of appending, replaying and collecting
      replicas, over caches that are not coherent, all replicas apply prefixes of
      one history, no stale entry is read and reads see completed writes;
      [log_publish_progress], [log_exec_completes]: publishing cannot deadlock and
      replaying terminates.
    - [cnr_refines]: programs of calls other than scans on cnr replicas behave as on
      one copy of the data, if operations of different logs commute and no call has to
      wait for another replica ([lags_ok]); [cnr_one_log_is_nr]: under that condition,
      with one log cnr and node replication give the same outputs;
      [cnr_append_correct]: when cnr's append returns and when it waits forever.
    - [rwlock_exclusive], [simple_rwlock_exclusive] and others: mutual exclusion in
      every interleaving of any number of threads.
    - [gcd_modify_safe], [gcd_write_shared_exclusive], [gcd_modify_local],
      [check_put_array_codes], [delete_if_array_codes]: the directory's entries
      stay well-formed, blocks shared for writing have no valid local copies if writers
      enter blocks only without valid copies, the return codes are exact.
    - [vspace_refines]: programs of operations on an address space behave as on a
      partial function from virtual to physical addresses; [vspace_map_correct],
      [vspace_map_overlap]: what mapping a region does when it is free and when it is
      not; [vspace_drop_frees]: page tables are neither leaked nor freed twice.
    - [hashmap_assertions], [btreeset_assertions], [stack_never_empty]: the assertions of
      the examples hold in every interleaving.
    - [benchmark_starts], [cnr_benchmark_starts]: when the threads of a benchmark start
      and get slots of their replicas; [baseline_agrees], [cnr_baseline_agrees]: the log
      does not change the responses; [worker_measures]: the measuring loop ends and
      counts every operation once; [configure_runs_all], [thread_defaults_correct]: the
      builder; [sync_keeps_replicas], [sync_can_finish]: how the threads of cnr finish, and
      when they hang;
      [workload_roundtrip], [prepopulate_fills]: the custom benchmark.
    - Some theorems show behaviour that is surely not meant:
      [late_registration_applied_twice], [rwlock_stale_count_race],
      [sync_without_write_back], [with_flush_misses_atomic],
      [flush_mem_region_covers], [reset_append_spins], [coherence_always_true],
      [check_swap_array_exchanges], [removal_reports], [affinity_revert_pins],
      [log_head_regresses], [cnr_scan_diverges], [cnr_scan_root_deadlock],
      [cnr_late_replica_panics], [vspace_clone_dangles],
      [vspace_empty_map_blocks], [nr_reader_stuck], [replica_without_node],
      [short_benchmark_panics], [stuck_log_is_first], [cnr_batches_repeat],
      [write_admit_keeps_copies].

    ** Bounds and fuel

    Loops of the code that retry are [rloop]s with a number of passes, and end in
    [Spin] when the passes are used up.  The theorems show that a value is
    returned, so the bounds are enough: 64 passes of [execute_mut], which needs at
    most two per lagging replica, and [WARN_THRESHOLD] rounds plus one of
    [advance_head], after which the code itself gives up.  The loops of cnr have no
    bound in the code; [cnr_passes] is 64, and the theorems show that they end after
    at most four passes or come back to the same state forever.  Nested combining in
    cnr is as deep as there are logs, plus one ([nest_of]), because every level holds
    the lock of another log.  [map_generic] calls itself at most once per
    page of the region, which is its fuel; its loops end with the table.  Loops over
    a range of the log run over that range.  The measuring loops have as many passes as
    the clock leaves them; the clock is an argument, and the theorems ask that it reads
    the end of the experiment at some time.  [prepopulate_keys] has one pass per random
    number.  Log positions are natural numbers: they only
    grow, and a usize does not wrap within the lifetime of a machine; so is the counter
    [iter] of the loop of a cnr benchmark.  [Vec::with_capacity] is taken to reserve
    exactly what it is asked for.  Where
    subtraction could wrap, [usub] panics, and the invariants exclude it.

    ** What is not modelled

    Interleavings are covered for the locks, for the log of the scr build and for writes,
    reads and [sync] of node replication on top of it.  There, threads register before
    they start and the lock around the data is taken in one step, as RwLock shows it can
    be; the replica that a failing [append] names is any one; notifications, write-back
    of data slots, affinity, anchored and loose reads are in the sequential model only,
    and a thread that panics keeps its locks, as unwinding is not modelled.  The theorems
    about cnr are about calls that run one after the other.  Not covered are
    interleavings of the default build, where entries are published by the alive flag
    instead of the commit tail.  Weak memory orderings are not modelled, nor are the
    borrow checks of [RefCell]; spurious failures of weak compare-exchanges are part of
    the transition systems but not of the sequential loops that retry.  In the log with
    caches that are not coherent, an entry is one cache line.  The [debug_assert_eq] of
    cnr's [append_scan] is modelled as compiled in, the [debug_assert_ne] before
    [try_sync] as not.
    In the harnesses, the loop of a thread is run on its own; in CnrSync, where the
    threads of cnr interleave, a call on a replica returns at some step or never, and
    what it does to the logs is not part of the state.  Printing, pinning of threads and the registration with urcu have no
    counterpart.  The async wrappers (futures around the same calls), the other benchmarks
    and examples, and the C++ program around the directory are left out. *)

From stdpp Require Export base list numbers strings option decidable.
From Stdlib Require Export Lia.

(** ** Outcomes of Rust code *)

(** What a call can do: return a value, panic with a message, or never return
    because the calling thread spins on a condition that only another thread
    can change. *)
Inductive res (A : Type) : Type :=
| Ret (a : A)
| Panic (msg : string)
| Spin.
Arguments Ret {A} _.
Arguments Panic {A} _.
Arguments Spin {A}.

(** Rust's [Result]. *)
Inductive result (A E : Type) : Type :=
| Ok (a : A)
| Err (e : E).
Arguments Ok {A E} _.
Arguments Err {A E} _.

#[global] Instance res_ret : MRet res := fun A a => Ret a.
#[global] Instance res_bind : MBind res := fun A B f m =>
  match m with
  | Ret a => f a
  | Panic msg => Panic msg
  | Spin => Spin
  end.
#[global] Instance res_fmap : FMap res := fun A B f m =>
  match m with
  | Ret a => Ret (f a)
  | Panic msg => Panic msg
  | Spin => Spin
  end.

(** [is_ret m] decides whether [m] returned. *)
Definition is_ret {A} (m : res A) : bool :=
  match m with Ret _ => true | _ => false end.

(** Slice indexing [v[i]] of Rust: out of range panics. *)
Definition vget {A} (v : list A) (i : nat) : res A :=
  match v !! i with
  | Some x => Ret x
  | None => Panic "index out of bounds"
  end.

(** Slice assignment [v[i] = x]. *)
Definition vset {A} (v : list A) (i : nat) (x : A) : res (list A) :=
  if decide (i < length v) then Ret (<[i := x]> v) else Panic "index out of bounds".

(** [Option::unwrap]. *)
Definition unwrap {A} (o : option A) : res A :=
  match o with
  | Some x => Ret x
  | None => Panic "called `Option::unwrap()` on a `None` value"
  end.

(** [assert!]. *)
Definition rassert (b : bool) (msg : string) : res unit :=
  if b then Ret tt else Panic msg.

(** Fold of a fallible step, left to right: a Rust [for] loop with early exit
    by panic. *)
Fixpoint foldM {S A} (f : S -> A -> res S) (s : S) (xs : list A) : res S :=
  match xs with
  | [] => Ret s
  | x :: xs' => s' ← f s x; foldM f s' xs'
  end.

(** A Rust [loop] given by its body, which either goes on with a new state or
    leaves with a value; at most [n] passes. *)
Fixpoint loop_nat {S A} (n : nat) (body : S -> res (S + A)) (s : S) : res (S + A) :=
  match n with
  | 0 => Ret (inl s)
  | Datatypes.S n' =>
      r ← body s;
      match r with inl s' => loop_nat n' body s' | inr a => Ret (inr a) end
  end.

(** The same by binary recursion, so that a large bound can be evaluated. *)
Fixpoint loop_pos {S A} (n : positive) (body : S -> res (S + A)) (s : S) : res (S + A) :=
  match n with
  | xH => body s
  | xO n' =>
      r ← loop_pos n' body s;
      match r with inl s' => loop_pos n' body s' | inr a => Ret (inr a) end
  | xI n' =>
      r ← body s;
      match r with
      | inl s1 =>
          r ← loop_pos n' body s1;
          match r with inl s2 => loop_pos n' body s2 | inr a => Ret (inr a) end
      | inr a => Ret (inr a)
      end
  end.

(** A loop that does not end within [n] passes is taken to spin; the users of
    [rloop] say why their bound is enough. *)
Definition rloop {S A} (n : positive) (body : S -> res (S + A)) (s : S) : res A :=
  r ← loop_pos n body s;
  match r with inr a => Ret a | inl _ => Spin end.

(** Slicing [v[s..e]]. *)
Definition vslice {A} (v : list A) (s e : nat) : res (list A) :=
  if decide (s <= e <= length v) then Ret (take (e - s) (drop s v))
  else Panic "slice index out of range".

(** ** usize arithmetic *)

(** [a - b] on [usize]: underflow panics (a debug build; a release build
    wraps).  The invariants of the components show that it never happens. *)
Definition usub (a b : nat) : res nat :=
  if decide (b <= a) then Ret (a - b) else Panic "attempt to subtract with overflow".

#[global] Arguments Nat.modulo : simpl never.
#[global] Arguments Nat.div : simpl never.
#[global] Arguments Nat.land : simpl never.
#[global] Arguments Nat.ltb : simpl nomatch.

(** ** Tactics *)

(** Decide the boolean comparisons and [decide]s of the goal and the context. *)
Ltac bool_to_prop :=
  repeat match goal with
  | H : (_ =? _)%nat = true |- _ => apply Nat.eqb_eq in H
  | H : (_ =? _)%nat = false |- _ => apply Nat.eqb_neq in H
  | H : (_ <? _)%nat = true |- _ => apply Nat.ltb_lt in H
  | H : (_ <? _)%nat = false |- _ => apply Nat.ltb_ge in H
  | H : (_ <=? _)%nat = true |- _ => apply Nat.leb_le in H
  | H : (_ <=? _)%nat = false |- _ => apply Nat.leb_gt in H
  end.

(** Peel the bind of a hypothesis [m ≫= k = Ret x]. *)
Ltac res_inv H :=
  match type of H with
  | mbind _ ?m = Ret _ =>
      let x := fresh "v" in let E := fresh "E" in
      destruct m as [x|?|] eqn:E; cbn [mbind res_bind] in H; try discriminate H
  end.

(** Follow the branches of a computation that returned: [H : m = Ret x]. *)
Ltac ret_inv H :=
  repeat (cbn beta iota zeta in H;
    match type of H with
    | Ret _ = Ret _ => injection H; clear H; intros; subst
    | Panic _ = Ret _ => discriminate H
    | mbind _ _ = Ret _ => res_inv H
    | (if ?b then _ else _) = Ret _ => destruct b eqn:?
    | match ?x with _ => _ end = Ret _ => destruct x eqn:?
    end).

(** Run the binds whose first computation has become a value. *)
Ltac mon := cbn [mbind res_bind mret res_ret fmap res_fmap].

(** ** Lemmas on outcomes *)

Lemma bind_ret {A B} (a : A) (f : A -> res B) : (Ret a ≫= f) = f a.
Proof. reflexivity. Qed.

Lemma bind_assoc {A B C} (m : res A) (f : A -> res B) (g : B -> res C) :
  (m ≫= f) ≫= g = m ≫= (fun x => f x ≫= g).
Proof. by destruct m. Qed.

Lemma vget_lookup {A} (v : list A) i x : v !! i = Some x -> vget v i = Ret x.
Proof. intros H. unfold vget. by rewrite H. Qed.

Lemma vget_ret {A} (v : list A) i x : vget v i = Ret x -> v !! i = Some x.
Proof. unfold vget. destruct (v !! i); naive_solver. Qed.

Lemma vset_lt {A} (v : list A) i x : i < length v -> vset v i x = Ret (<[i := x]> v).
Proof. intros H. unfold vset. by rewrite decide_True. Qed.

Lemma vset_ret {A} (v v' : list A) i x :
  vset v i x = Ret v' -> i < length v /\ v' = <[i := x]> v.
Proof. unfold vset. case_decide; naive_solver. Qed.

Lemma usub_le a b : b <= a -> usub a b = Ret (a - b).
Proof. intros H. unfold usub. by rewrite decide_True. Qed.

Lemma foldM_app {S A} (f : S -> A -> res S) s xs ys :
  foldM f s (xs ++ ys) = s' ← foldM f s xs; foldM f s' ys.
Proof.
  revert s; induction xs as [|x xs IH]; intros s; [done|].
  cbn. destruct (f s x); cbn; [apply IH | done | done].
Qed.

Lemma foldM_ext {S A} (f g : S -> A -> res S) s xs :
  (forall s x, f s x = g s x) -> foldM f s xs = foldM g s xs.
Proof.
  intros H. revert s; induction xs as [|x xs IH]; intros s; [done|].
  cbn. rewrite H. destruct (g s x); cbn; auto.
Qed.

(** A property preserved by every step of a loop holds at its end. *)
Lemma foldM_inv {S A} (P : S -> Prop) (f : S -> A -> res S) s xs s' :
  (forall s x s', P s -> f s x = Ret s' -> P s') ->
  P s -> foldM f s xs = Ret s' -> P s'.
Proof.
  intros Hstep. revert s; induction xs as [|x xs IH]; intros s Hs; cbn.
  - by intros [= <-].
  - destruct (f s x) eqn:E; cbn; [|done|done]. eauto.
Qed.

Lemma loop_nat_add {S A} m n (body : S -> res (S + A)) s :
  loop_nat (m + n) body s
  = r ← loop_nat m body s;
    match r with inl s' => loop_nat n body s' | inr a => Ret (inr a) end.
Proof.
  revert s; induction m as [|m IH]; intros s; [done|]. cbn.
  destruct (body s) as [[s'|a]|msg|]; cbn; [apply IH|done..].
Qed.

Lemma loop_pos_nat {S A} n (body : S -> res (S + A)) s :
  loop_pos n body s = loop_nat (Pos.to_nat n) body s.
Proof.
  revert s; induction n as [n IH|n IH|]; intros s.
  - rewrite Pos2Nat.inj_xI. cbn [loop_pos]. rewrite Nat.mul_comm. cbn [loop_nat].
    destruct (body s) as [[s1|a]|msg|]; cbn [mbind res_bind]; [|done..].
    replace (Pos.to_nat n * 2) with (Pos.to_nat n + Pos.to_nat n) by lia.
    rewrite loop_nat_add, IH. destruct (loop_nat _ _ s1) as [[s2|a]|msg|]; cbn; [apply IH|done..].
  - rewrite Pos2Nat.inj_xO. cbn [loop_pos].
    replace (2 * Pos.to_nat n) with (Pos.to_nat n + Pos.to_nat n) by lia.
    rewrite loop_nat_add, IH. destruct (loop_nat _ _ s) as [[s2|a]|msg|]; cbn; [apply IH|done..].
  - change (Pos.to_nat 1) with 1. cbn. by destruct (body s) as [[s1|a]|msg|].
Qed.

(** The passes of a loop one by one. *)
Definition loopN {S A} (k : nat) (body : S -> res (S + A)) (s : S) : res A :=
  r ← loop_nat k body s;
  match r with inr a => Ret a | inl _ => Spin end.

Lemma rloop_loopN {S A} n (body : S -> res (S + A)) s : rloop n body s = loopN (Pos.to_nat n) body s.
Proof. unfold rloop, loopN. by rewrite loop_pos_nat. Qed.

Lemma loopN_S {S A} k (body : S -> res (S + A)) s :
  loopN (Datatypes.S k) body s
  = r ← body s; match r with inr a => Ret a | inl s' => loopN k body s' end.
Proof. unfold loopN. cbn. by destruct (body s) as [[s'|a]|m|]. Qed.

Lemma loopN_stuck {S A} k (body : S -> res (S + A)) s : body s = Ret (inl s) -> loopN k body s = Spin.
Proof. intros H. induction k as [|k IH]; [done|]. by rewrite loopN_S, H. Qed.

(** A loop that leaves in its first pass. *)
Lemma rloop_first {S A} n (body : S -> res (S + A)) s a :
  body s = Ret (inr a) -> rloop n body s = Ret a.
Proof.
  intros H. unfold rloop. rewrite loop_pos_nat.
  destruct (Pos.to_nat n) eqn:E; [lia|]. cbn. by rewrite H.
Qed.

Lemma rloop_second {S A} n (body : S -> res (S + A)) s s1 a :
  (1 < n)%positive -> body s = Ret (inl s1) -> body s1 = Ret (inr a) -> rloop n body s = Ret a.
Proof.
  intros Hn E E1. rewrite rloop_loopN. destruct (Pos.to_nat n) as [|[|k]] eqn:En; [lia|lia|].
  cbn. rewrite E. cbn. by rewrite E1.
Qed.

(** A property every pass preserves holds of the result. *)
Lemma rloop_inv {S A} (P : S -> Prop) (Q : A -> Prop) n (body : S -> res (S + A)) s a :
  (forall s s', P s -> body s = Ret (inl s') -> P s') ->
  (forall s a, P s -> body s = Ret (inr a) -> Q a) ->
  P s -> rloop n body s = Ret a -> Q a.
Proof.
  intros Hstep Hend. unfold rloop. rewrite loop_pos_nat.
  revert s. induction (Pos.to_nat n) as [|k IH]; intros s Hs; cbn; [done|].
  destruct (body s) as [[s'|a']|m|] eqn:E; cbn; [|by intros [= <-]; eauto|done|done].
  apply IH. eauto.
Qed.

(** A loop whose body gets stuck at [s]. *)
Lemma rloop_stuck {S A} n (body : S -> res (S + A)) s :
  body s = Ret (inl s) -> rloop n body s = Spin.
Proof.
  intros H. unfold rloop. rewrite loop_pos_nat.
  assert (forall k, loop_nat k body s = Ret (inl s)) as ->; [|done].
  induction k as [|k IH]; [done|]. cbn. by rewrite H.
Qed.

Lemma vslice_ok {A} (v : list A) s e :
  s <= e -> e <= length v -> vslice v s e = Ret (take (e - s) (drop s v)).
Proof. intros. unfold vslice. by rewrite decide_True. Qed.

(** ** Ring indices *)

Definition is_pow2 (n : nat) : Prop := exists k, n = 2 ^ k.

Lemma land_pow2 x n : is_pow2 n -> Nat.land x (n - 1) = x mod n.
Proof.
  intros [k ->]. replace (2 ^ k - 1) with (Nat.ones k).
  - apply Nat.land_ones.
  - rewrite Nat.ones_equiv. lia.
Qed.

Lemma pow2_pos n : is_pow2 n -> 0 < n.
Proof. intros [k ->]. induction k; cbn; lia. Qed.

(** Two indices less than one lap apart fall on the same slot only if they are
    equal. *)
Lemma mod_window_inj n i j :
  i <= j -> j < i + n -> i mod n = j mod n -> i = j.
Proof.
  intros Hij Hjn Hm.
  destruct (decide (n = 0)) as [->|Hn]; [lia|].
  pose proof (Nat.div_mod_eq i n). pose proof (Nat.div_mod_eq j n).
  pose proof (Nat.mod_upper_bound i n Hn). pose proof (Nat.mod_upper_bound j n Hn).
  assert (i / n = j / n) by nia. nia.
Qed.

Lemma mod_window_ne n i j :
  i < j -> j < i + n -> i mod n <> j mod n.
Proof. intros H1 H2 H3. pose proof (mod_window_inj n i j). lia. Qed.

Lemma mod_near_ne n i j : i <> j -> i < j + n -> j < i + n -> i mod n <> j mod n.
Proof.
  intros Hne H1 H2. destruct (decide (i < j)); [by apply mod_window_ne|].
  intros E. symmetry in E. revert E. apply mod_window_ne; lia.
Qed.

(** ** Index ranges [a..b) *)

Lemma seq_snoc a n : seq a (S n) = seq a n ++ [a + n].
Proof. apply seq_S. Qed.

Lemma seq_lookup_Some a n i x : seq a n !! i = Some x -> x = a + i /\ i < n.
Proof. intros H. apply lookup_seq in H. lia. Qed.

(** Element-wise access after appending. *)
Lemma lookup_snoc_Some {A} (l : list A) x i y :
  (l ++ [x]) !! i = Some y <-> l !! i = Some y \/ (i = length l /\ x = y).
Proof.
  rewrite lookup_app. destruct (l !! i) eqn:E.
  - apply lookup_lt_Some in E. naive_solver lia.
  - apply lookup_ge_None in E. rewrite list_lookup_singleton_Some.
    naive_solver lia.
Qed.

(** ** Programs of calls *)

(** Calls one after the other, with their outputs. *)
Fixpoint run_prog {S C O} (step : S -> C -> res (S * O)) (s : S) (cs : list C) : res (S * list O) :=
  match cs with
  | [] => Ret (s, [])
  | c :: cs' => '(s1, x) ← step s c; '(s2, xs) ← run_prog step s1 cs'; Ret (s2, x :: xs)
  end.

(** A simulation of every call simulates programs. *)
Lemma run_prog_sim {S S' C O} (sim : S -> S' -> Prop) (step : S -> C -> res (S * O))
    (step' : S' -> C -> res (S' * O)) :
  (forall s s' c s1' x, sim s s' -> step' s' c = Ret (s1', x) ->
     exists s1, step s c = Ret (s1, x) /\ sim s1 s1') ->
  forall cs s s' s1' xs, sim s s' -> run_prog step' s' cs = Ret (s1', xs) ->
    exists s1, run_prog step s cs = Ret (s1, xs) /\ sim s1 s1'.
Proof.
  intros Hstep. induction cs as [|c cs IH]; intros s s' s1' xs Hsim; cbn.
  - intros [= <- <-]. eauto.
  - destruct (step' s' c) as [[s2' x]| |] eqn:E; cbn; [|done|done].
    destruct (run_prog step' s2' cs) as [[s3' ys]| |] eqn:E2; cbn; [|done|done].
    intros [= <- <-]. destruct (Hstep s s' c s2' x Hsim E) as (s2 & -> & Hsim2).
    destruct (IH s2 s2' s3' ys Hsim2 E2) as (s3 & E3 & Hsim3). cbn. rewrite E3. cbn. eauto.
Qed.

(** ** Transition systems *)

(** The states a system reaches from its initial states. *)
Inductive reachable {A} (init : A -> Prop) (step : A -> A -> Prop) : A -> Prop :=
| reach_init s : init s -> reachable init step s
| reach_step s s' : reachable init step s -> step s s' -> reachable init step s'.

(** An inductive invariant holds in every reachable state. *)
Lemma reachable_inv {A} (init I : A -> Prop) (step : A -> A -> Prop) :
  (forall s, init s -> I s) -> (forall s s', I s -> step s s' -> I s') ->
  forall s, reachable init step s -> I s.
Proof. intros Hi Hs s. induction 1; eauto. Qed.

(** Runs given as lists of labels: [run_labels next s ls] executes the labels in
    order, when every one of them is enabled. *)
Fixpoint run_labels {A L} (next : A -> L -> option A) (s : A) (ls : list L) : option A :=
  match ls with
  | [] => Some s
  | x :: ls' => match next s x with Some s' => run_labels next s' ls' | None => None end
  end.

Lemma run_labels_reachable {A L} (next : A -> L -> option A) (init : A -> Prop) s ls s' :
  reachable init (fun a b => exists x, next a x = Some b) s ->
  run_labels next s ls = Some s' ->
  reachable init (fun a b => exists x, next a x = Some b) s'.
Proof.
  revert s; induction ls as [|x ls IH]; intros s Hs; cbn.
  - by intros [= <-].
  - destruct (next s x) as [s1|] eqn:E; [|done]. apply IH.
    eapply reach_step; eauto.
Qed.

(** ** Counting over a list of threads *)

(** Number of elements of [l] that satisfy [f]. *)
Definition count {A} (f : A -> bool) (l : list A) : nat :=
  sum_list_with (fun x => if f x then 1 else 0) l.

#[global] Arguments count : simpl never.

Lemma count_cons {A} (f : A -> bool) x l :
  count f (x :: l) = (if f x then 1 else 0) + count f l.
Proof. done. Qed.

Lemma count_insert {A} (f : A -> bool) l i x y :
  l !! i = Some x ->
  count f (<[i := y]> l) + (if f x then 1 else 0)
  = count f l + (if f y then 1 else 0).
Proof.
  revert i; induction l as [|z l IH]; intros [|i] H; simplify_eq/=;
    rewrite ?count_cons; [lia|]. specialize (IH _ H). lia.
Qed.

Lemma count_pos {A} (f : A -> bool) l i x : l !! i = Some x -> f x = true -> 0 < count f l.
Proof.
  revert i; induction l as [|z l IH]; intros [|i] H Hf; cbn in *; simplify_eq;
    rewrite count_cons; [rewrite Hf; lia|]. specialize (IH _ H Hf). lia.
Qed.

Lemma count_zero {A} (f : A -> bool) l :
  (forall i x, l !! i = Some x -> f x = false) -> count f l = 0.
Proof.
  induction l as [|z l IH]; intros H; [done|].
  rewrite count_cons, (H 0 z eq_refl), IH; [done|]. intros i x Hi. exact (H (S i) x Hi).
Qed.

Lemma count_all {A} (f : A -> bool) l :
  (forall i x, l !! i = Some x -> f x = true) -> count f l = length l.
Proof.
  induction l as [|z l IH]; intros H; [done|].
  rewrite count_cons, (H 0 z eq_refl), IH; [done|]. intros i x Hi. exact (H (S i) x Hi).
Qed.

Lemma count_two {A} (f : A -> bool) l i j x y :
  i <> j -> l !! i = Some x -> l !! j = Some y -> f x = true -> f y = true ->
  2 <= count f l.
Proof.
  revert i j; induction l as [|z l IH]; intros [|i] [|j] Hne Hi Hj Hx Hy;
    cbn in *; simplify_eq; rewrite count_cons.
  - rewrite Hx. pose proof (count_pos f l j y Hj Hy). lia.
  - rewrite Hy. pose proof (count_pos f l i x Hi Hx). lia.
  - specialize (IH i j (fun E => Hne (f_equal S E)) Hi Hj Hx Hy). lia.
Qed.

Lemma count_le {A} (f : A -> bool) l : count f l <= length l.
Proof. induction l as [|z l IH]; [done|]. rewrite count_cons. cbn. case_match; lia. Qed.

(** ** Automation *)

Create HintDb nrdb.
#[export] Hint Resolve vget_lookup vset_lt usub_le pow2_pos : nrdb.
Create Rewrite HintDb nrlen.
#[export] Hint Rewrite @length_insert @length_app @length_replicate : nrlen.
