(* ===== verification/Context.v ===== *)
(** * Per-thread operation contexts (node-replication/src/context.rs)

    A thread of a replica buffers its pending write operations in a ring of
    [MAX_PENDING_OPS] slots.  Three logical (ever growing) indices partition
    it: [head <= comb <= tail]; the window [comb..tail) holds operations that
    no combiner has executed yet, the window [head..comb) responses the thread
    has not picked up yet.

    [ctx_rep] relates a context to the pair of queues it stands for, and the
    theorems show that each operation acts on these queues: a context is a
    bounded FIFO of operations and of their responses. *)

From S2P Require Import Prelude.

(** context.rs: [MAX_PENDING_OPS] (not under loom). *)
Definition MAX_PENDING_OPS : nat := 32.
#[global] Arguments MAX_PENDING_OPS : simpl never.

(** context.rs: [PendingOperation]. *)
Record PendingOperation (T R M : Type) := mkPending {
  op : option T;
  resp : option R;
  pmeta : M;
}.
Arguments mkPending {T R M} _ _ _.
Arguments op {T R M} _.
Arguments resp {T R M} _.
Arguments pmeta {T R M} _.

(** context.rs: [Context].  [ctx_idx] is the field [_idx]. *)
Record Context (T R M : Type) := mkContext {
  batch : list (PendingOperation T R M);
  ctx_tail : nat;
  ctx_head : nat;
  ctx_comb : nat;
  ctx_idx : nat;
}.
Arguments mkContext {T R M} _ _ _ _ _.
Arguments batch {T R M} _.
Arguments ctx_tail {T R M} _.
Arguments ctx_head {T R M} _.
Arguments ctx_comb {T R M} _.
Arguments ctx_idx {T R M} _.

(** context.rs: [ContextIterator]; the context it borrows is passed along. *)
Record ContextIterator := mkIter { it_cur : nat; it_h : nat; it_t : nat }.

Section ContextOps.
Context {T R M : Type} (dm : M).

(** [PendingOperation::default]; [dm] is [M::default()]. *)
Definition pending_default : PendingOperation T R M := mkPending None None dm.

(** [Context::default]. *)
Definition context_default : Context T R M :=
  mkContext (replicate MAX_PENDING_OPS pending_default) 0 0 0 0.

(** [Context::new]. *)
Definition context_new (idx : nat) : Context T R M :=
  mkContext (batch context_default) 0 0 0 idx.

(** [Context::batch_size]. *)
Definition batch_size : nat := MAX_PENDING_OPS.

(** [Context::index]. *)
Definition ctx_index (logical : nat) : nat := Nat.land logical (MAX_PENDING_OPS - 1).

(** [Context::enqueue]. *)
Definition enqueue (c : Context T R M) (o : T) (meta : M) : res (bool * Context T R M) :=
  let t := ctx_tail c in
  let h := ctx_head c in
  d ← usub t h;
  if d =? MAX_PENDING_OPS then Ret (false, c)
  else
    e ← vget (batch c) (ctx_index t);
    b ← vset (batch c) (ctx_index t) (mkPending (Some o) (resp e) meta);
    Ret (true, mkContext b (t + 1) (ctx_head c) (ctx_comb c) (ctx_idx c)).

(** [Context::enqueue_resp]. *)
Definition enqueue_resp (c : Context T R M) (r : R) : res (Context T R M) :=
  let h := ctx_comb c in
  e ← vget (batch c) (ctx_index h);
  b ← vset (batch c) (ctx_index h) (mkPending (op e) (Some r) (pmeta e));
  Ret (mkContext b (ctx_tail c) (ctx_head c) (h + 1) (ctx_idx c)).

(** [Context::enqueue_resps]. *)
Definition enqueue_resps (c : Context T R M) (responses : list R) : res (Context T R M) :=
  let n := length responses in
  if n =? 0 then Ret c
  else foldM enqueue_resp c (take n responses).

(** [Context::res]. *)
Definition ctx_res (c : Context T R M) : res (option R * Context T R M) :=
  let s := ctx_head c in
  let f := ctx_comb c in
  if s =? f then Ret (None, c)
  else if f <? s then
    Panic "Head of thread-local batch has advanced beyond combiner of.store!"
  else
    e ← vget (batch c) (ctx_index s);
    b ← vset (batch c) (ctx_index s) (mkPending (op e) None (pmeta e));
    Ret (resp e, mkContext b (ctx_tail c) (s + 1) f (ctx_idx c)).

(** [Context::iter]. *)
Definition ctx_iter (c : Context T R M) : res ContextIterator :=
  let h := ctx_comb c in
  let t := ctx_tail c in
  if t <? h then
    Panic "Combiner Head of thread-local batch has advanced beyond tail!"
  else Ret (mkIter h h t).

(** [ContextIterator::len]. *)
Definition iter_len (it : ContextIterator) : res nat := usub (it_t it) (it_h it).

(** [ContextIterator::next]. *)
Definition iter_next (c : Context T R M) (it : ContextIterator)
  : res (option (T * M) * ContextIterator) :=
  n ← iter_len it;
  if n =? 0 then Ret (None, it)
  else if it_cur it =? it_t it then Ret (None, it)
  else
    e ← vget (batch c) (ctx_index (it_cur it));
    o ← unwrap (op e);
    Ret (Some (o, pmeta e), mkIter (it_cur it + 1) (it_h it) (it_t it)).

(** Draining the iterator ([extend], [for ... in]): [next] until [None].
    The fuel counts the items still expected; it never runs out, since the
    window of the iterator is fixed ([ctx_collect_pending]). *)
Fixpoint iter_drain (fuel : nat) (c : Context T R M) (it : ContextIterator)
  : res (list (T * M)) :=
  match fuel with
  | 0 => Spin
  | S fuel' =>
      '(o, it') ← iter_next c it;
      match o with
      | None => Ret []
      | Some x => xs ← iter_drain fuel' c it'; Ret (x :: xs)
      end
  end.

(** [iter()] followed by a full traversal: the number of operations reported
    by [len] and the operations themselves. *)
Definition ctx_collect (c : Context T R M) : res (nat * list (T * M)) :=
  it ← ctx_iter c;
  n ← iter_len it;
  xs ← iter_drain (S n) c it;
  Ret (n, xs).
End ContextOps.

Arguments pending_default {T R M} dm.
Arguments context_default {T R M} dm.
Arguments context_new {T R M} dm idx.

(** ** Representation: a context stands for a queue of pending operations and
    a queue of responses. *)

Section ContextRep.
Context {T R M : Type}.
Implicit Types (c : Context T R M) (p : list (T * M)) (r : list R).

Record ctx_rep c p r : Prop := {
  rep_len : length (batch c) = MAX_PENDING_OPS;
  rep_comb : ctx_comb c = ctx_head c + length r;
  rep_tail : ctx_tail c = ctx_comb c + length p;
  rep_cap : length r + length p <= MAX_PENDING_OPS;
  rep_ops : forall i x, p !! i = Some x ->
    exists e, batch c !! ((ctx_comb c + i) mod MAX_PENDING_OPS) = Some e
              /\ op e = Some x.1 /\ pmeta e = x.2;
  rep_resps : forall i y, r !! i = Some y ->
    exists e, batch c !! ((ctx_head c + i) mod MAX_PENDING_OPS) = Some e
              /\ resp e = Some y;
}.

Lemma max_pending_pow2 : is_pow2 MAX_PENDING_OPS.
Proof. by exists 5. Qed.

Lemma ctx_index_mod i : ctx_index i = i mod MAX_PENDING_OPS.
Proof. apply land_pow2, max_pending_pow2. Qed.

Lemma ctx_index_lt c i :
  length (batch c) = MAX_PENDING_OPS -> ctx_index i < length (batch c).
Proof.
  intros ->. rewrite ctx_index_mod. by apply Nat.mod_upper_bound.
Qed.

Lemma ctx_slot c i :
  length (batch c) = MAX_PENDING_OPS ->
  exists e, batch c !! ctx_index i = Some e.
Proof. intros H. apply lookup_lt_is_Some. by apply ctx_index_lt. Qed.

(** Writing the slot of one logical index leaves the slots of the other
    indices of the same window alone. *)
Lemma slot_insert_ne (b : list (PendingOperation T R M)) i j e :
  i <> j -> i < j + MAX_PENDING_OPS -> j < i + MAX_PENDING_OPS ->
  <[i mod MAX_PENDING_OPS := e]> b !! (j mod MAX_PENDING_OPS)
  = b !! (j mod MAX_PENDING_OPS).
Proof.
  intros Hne H1 H2. apply list_lookup_insert_ne. intros Heq.
  destruct (decide (i < j)).
  - by apply (mod_window_ne MAX_PENDING_OPS i j).
  - by apply (mod_window_ne MAX_PENDING_OPS j i); [lia|lia|].
Qed.

Lemma context_new_rep (dm : M) idx : ctx_rep (context_new dm idx) [] [].
Proof.
  split; cbn; try lia; try done.
Qed.

Lemma enqueue_rep c p r o m :
  ctx_rep c p r -> length r + length p < MAX_PENDING_OPS ->
  exists c', enqueue c o m = Ret (true, c') /\ ctx_rep c' (p ++ [(o, m)]) r.
Proof.
  intros [Hlen Hcomb Htail Hcap Hops Hresps] Hroom.
  destruct (ctx_slot c (ctx_tail c) Hlen) as [e He].
  unfold enqueue. rewrite usub_le by lia. mon.
  destruct (Nat.eqb_spec (ctx_tail c - ctx_head c) MAX_PENDING_OPS); [lia|].
  rewrite (vget_lookup _ _ _ He). mon.
  rewrite vset_lt by (by apply ctx_index_lt).
  eexists; split; [done|]. rewrite ctx_index_mod in *.
  split; cbn; rewrite ?length_insert, ?length_app; cbn; try lia.
  - intros i x [Hi | [-> <-]]%lookup_snoc_Some.
    + pose proof (lookup_lt_Some _ _ _ Hi).
      rewrite slot_insert_ne by lia. eauto.
    + rewrite <- Htail, list_lookup_insert_eq.
      * eexists; split; [done|]. by cbn.
      * rewrite Hlen. by apply Nat.mod_upper_bound.
  - intros i y Hi. pose proof (lookup_lt_Some _ _ _ Hi).
    rewrite slot_insert_ne by lia. eauto.
Qed.

Lemma enqueue_resp_rep c x p r y :
  ctx_rep c (x :: p) r ->
  exists c', enqueue_resp c y = Ret c' /\ ctx_rep c' p (r ++ [y]).
Proof.
  intros [Hlen Hcomb Htail Hcap Hops Hresps]; cbn in *.
  destruct (ctx_slot c (ctx_comb c) Hlen) as [e He].
  unfold enqueue_resp. cbn zeta.
  rewrite (vget_lookup _ _ _ He). mon.
  rewrite vset_lt by (by apply ctx_index_lt).
  eexists; split; [done|]. rewrite ctx_index_mod in *.
  split; cbn; rewrite ?length_insert, ?length_app; cbn; try lia.
  - intros i z Hi. pose proof (lookup_lt_Some _ _ _ Hi).
    rewrite slot_insert_ne by lia.
    destruct (Hops (S i) z) as (e' & He' & ?); [done|].
    exists e'. split; [|done]. rewrite <- He'. do 2 f_equal. lia.
  - intros i z [Hi | [-> <-]]%lookup_snoc_Some.
    + pose proof (lookup_lt_Some _ _ _ Hi).
      rewrite slot_insert_ne by lia. eauto.
    + rewrite <- Hcomb, list_lookup_insert_eq.
      * eexists; split; [done|]. by cbn.
      * rewrite Hlen. by apply Nat.mod_upper_bound.
Qed.

Lemma enqueue_resps_fold_rep c xs p r ys :
  length xs = length ys -> ctx_rep c (xs ++ p) r ->
  exists c', foldM enqueue_resp c ys = Ret c' /\ ctx_rep c' p (r ++ ys).
Proof.
  revert c xs r; induction ys as [|y ys IH]; intros c [|x xs] r; cbn; try done.
  - intros _ H. rewrite app_nil_r. eauto.
  - intros [= Hlen] H.
    destruct (enqueue_resp_rep c x (xs ++ p) r y H) as (c' & -> & H'). cbn.
    destruct (IH c' xs (r ++ [y]) Hlen H') as (c'' & -> & H'').
    exists c''. split; [done|]. by rewrite <- app_assoc in H''.
Qed.

Lemma ctx_res_some_rep c p y r :
  ctx_rep c p (y :: r) ->
  exists c', ctx_res c = Ret (Some y, c') /\ ctx_rep c' p r.
Proof.
  intros [Hlen Hcomb Htail Hcap Hops Hresps]; cbn in *.
  destruct (Hresps 0 y) as (e & He & Hy); [done|]. rewrite Nat.add_0_r in He.
  unfold ctx_res. cbn zeta.
  destruct (Nat.eqb_spec (ctx_head c) (ctx_comb c)); [lia|].
  destruct (Nat.ltb_spec (ctx_comb c) (ctx_head c)); [lia|].
  rewrite <- ctx_index_mod in He.
  rewrite (vget_lookup _ _ _ He). mon.
  rewrite vset_lt by (by apply ctx_index_lt). rewrite Hy.
  eexists; split; [done|]. rewrite ctx_index_mod in *.
  split; cbn; rewrite ?length_insert; cbn; try lia.
  - intros i x Hi. pose proof (lookup_lt_Some _ _ _ Hi).
    rewrite slot_insert_ne by lia. eauto.
  - intros i z Hi. pose proof (lookup_lt_Some _ _ _ Hi).
    rewrite slot_insert_ne by lia.
    destruct (Hresps (S i) z) as (e' & He' & ?); [done|].
    exists e'. split; [|done]. rewrite <- He'. do 2 f_equal. lia.
Qed.

Lemma iter_drain_rep c p r i fuel :
  ctx_rep c p r -> length p - i < fuel -> i <= length p ->
  iter_drain fuel c (mkIter (ctx_comb c + i) (ctx_comb c) (ctx_tail c))
  = Ret (drop i p).
Proof.
  intros Hrep. pose proof Hrep as [Hlen Hcomb Htail Hcap Hops Hresps].
  revert i; induction fuel as [|fuel IH]; intros i Hf Hi; [lia|].
  cbn. unfold iter_next, iter_len; cbn. rewrite usub_le by lia.
  mon.
  destruct (Nat.eqb_spec (ctx_tail c - ctx_comb c) 0).
  { cbn. rewrite drop_ge by lia. done. }
  destruct (Nat.eqb_spec (ctx_comb c + i) (ctx_tail c)).
  { cbn. rewrite drop_ge by lia. done. }
  destruct (lookup_lt_is_Some_2 p i) as [x Hx]; [lia|].
  destruct (Hops i x Hx) as (e & He & Ho & Hm).
  rewrite <- ctx_index_mod in He.
  rewrite (vget_lookup _ _ _ He). mon.
  rewrite Ho. cbn. replace (ctx_comb c + i + 1) with (ctx_comb c + S i) by lia.
  rewrite IH by lia. cbn. rewrite (drop_S p x i Hx), Hm. by destruct x.
Qed.
End ContextRep.

(** [enqueue] on a context with room appends the operation to the pending
    queue and returns [true]; on a full one it returns [false] and changes
    nothing. *)
Theorem enqueue_spec {T R M} (c : Context T R M) p r o m :
  ctx_rep c p r ->
  (length r + length p < MAX_PENDING_OPS /\
     exists c', enqueue c o m = Ret (true, c') /\ ctx_rep c' (p ++ [(o, m)]) r)
  \/ (length r + length p = MAX_PENDING_OPS /\ enqueue c o m = Ret (false, c)).
Proof.
  intros H. pose proof (rep_cap _ _ _ H).
  destruct (decide (length r + length p < MAX_PENDING_OPS)).
  - left. split; [done|]. by apply enqueue_rep.
  - right. split; [lia|]. destruct H. unfold enqueue.
    rewrite usub_le by lia. mon.
    destruct (Nat.eqb_spec (ctx_tail c - ctx_head c) MAX_PENDING_OPS); [done|lia].
Qed.

Lemma enqueue_spec_witness :
  (exists c', enqueue (context_new (T := nat) (R := nat) tt 1) 7 tt = Ret (true, c')
              /\ ctx_rep c' [(7, tt)] [])
  \/ enqueue (context_new (T := nat) (R := nat) tt 1) 7 tt
     = Ret (false, context_new tt 1).
Proof.
  destruct (enqueue_spec (context_new (T := nat) (R := nat) tt 1) [] [] 7 tt)
    as [(_ & H) | (_ & H)].
  - apply context_new_rep.
  - left. exact H.
  - right. exact H.
Defined.

(** A combiner that iterates over a context sees exactly the pending
    operations, oldest first, and [len] is their number; neither panics. *)
Theorem ctx_collect_pending {T R M} (c : Context T R M) p r :
  ctx_rep c p r -> ctx_collect c = Ret (length p, p).
Proof.
  intros H. pose proof H as [Hlen Hcomb Htail Hcap Hops Hresps].
  unfold ctx_collect, ctx_iter. cbn zeta.
  destruct (Nat.ltb_spec (ctx_tail c) (ctx_comb c)); [lia|]. mon.
  unfold iter_len. cbn [it_t it_h]. rewrite usub_le by lia. mon.
  pose proof (iter_drain_rep c p r 0 (S (ctx_tail c - ctx_comb c)) H) as Hd.
  rewrite Nat.add_0_r in Hd. rewrite Hd by lia. cbn. do 2 f_equal. lia.
Qed.

Lemma ctx_collect_pending_witness :
  ctx_collect (context_new (T := nat) (R := nat) tt 1) = Ret (0, []).
Proof. apply (ctx_collect_pending _ [] []). apply context_new_rep. Defined.

(** Handing [n] responses to a context whose oldest [n] pending operations
    were collected retires these operations and queues the responses in order. *)
Theorem enqueue_resps_spec {T R M} (c : Context T R M) xs p r ys :
  length xs = length ys -> ctx_rep c (xs ++ p) r ->
  exists c', enqueue_resps c ys = Ret c' /\ ctx_rep c' p (r ++ ys).
Proof.
  intros Hlen H. unfold enqueue_resps. rewrite firstn_all.
  destruct ys as [|y ys].
  - destruct xs; [|done]. rewrite app_nil_r. eauto.
  - cbn [length Nat.eqb]. by eapply enqueue_resps_fold_rep.
Qed.

Lemma enqueue_resps_spec_witness :
  exists c0 c', enqueue (context_new (R := nat) tt 1) 7 tt = Ret (true, c0)
    /\ enqueue_resps c0 [9] = Ret c' /\ ctx_rep c' [] [9].
Proof.
  destruct (enqueue_rep (context_new (R := nat) tt 1) [] [] 7 tt) as (c0 & E & H).
  - apply context_new_rep.
  - cbn. unfold MAX_PENDING_OPS. lia.
  - destruct (enqueue_resps_spec c0 [(7, tt)] [] [] [9]) as (c' & E' & H').
    + reflexivity.
    + exact H.
    + exists c0, c'. exact (conj E (conj E' H')).
Defined.

(** [res] hands out the responses first in, first out, and [None] when
    there is none; it never panics on a well-formed context. *)
Theorem ctx_res_spec {T R M} (c : Context T R M) p r :
  ctx_rep c p r ->
  match r with
  | [] => ctx_res c = Ret (None, c)
  | y :: r' => exists c', ctx_res c = Ret (Some y, c') /\ ctx_rep c' p r'
  end.
Proof.
  destruct r as [|y r']; [|apply ctx_res_some_rep].
  intros [Hlen Hcomb Htail Hcap Hops Hresps]; cbn in *.
  unfold ctx_res. cbn zeta.
  destruct (Nat.eqb_spec (ctx_head c) (ctx_comb c)); [done|lia].
Qed.

Lemma ctx_res_spec_witness :
  ctx_res (context_new (T := nat) (R := nat) tt 1) = Ret (None, context_new tt 1).
Proof.
  apply (ctx_res_spec (context_new (T := nat) (R := nat) tt 1) [] []).
  apply context_new_rep.
Defined.

(** ** Round trip *)

Section Rounds.
Context {T R M : Type}.

(** A thread enqueues operations. *)
Definition ctx_put (c : Context T R M) (xs : list (T * M)) : res (Context T R M) :=
  foldM (fun c x =>
    '(ok, c') ← enqueue c x.1 x.2;
    if (ok : bool) then Ret c' else Panic "context is full") c xs.

(** A thread takes [k] responses. *)
Fixpoint ctx_take (k : nat) (c : Context T R M) : res (Context T R M * list R) :=
  match k with
  | 0 => Ret (c, [])
  | S k' =>
      '(y, c1) ← ctx_res c;
      y ← unwrap y;
      '(c2, ys) ← ctx_take k' c1;
      Ret (c2, y :: ys)
  end.

(** A thread and a combiner: operations in, operations out, responses in, responses
    out. *)
Definition ctx_round (c : Context T R M) (b : list (T * M) * list R)
  : res (Context T R M * (list (T * M) * list R)) :=
  c1 ← ctx_put c b.1;
  '(_, xs) ← ctx_collect c1;
  c2 ← enqueue_resps c1 b.2;
  '(c3, ys) ← ctx_take (length b.2) c2;
  Ret (c3, (xs, ys)).

Lemma ctx_put_rep c p xs : ctx_rep c p [] -> length p + length xs <= MAX_PENDING_OPS ->
  exists c', ctx_put c xs = Ret c' /\ ctx_rep c' (p ++ xs) [].
Proof.
  unfold ctx_put. revert c p. induction xs as [|[o m] xs IH]; intros c p H Hlen; cbn [length] in Hlen.
  - exists c. by rewrite app_nil_r.
  - destruct (enqueue_rep c p [] o m H) as (c1 & E & H1); [cbn; lia|]. cbn [foldM fst snd]. rewrite E. mon.
    destruct (IH c1 (p ++ [(o, m)]) H1) as (c' & E' & H'); [rewrite length_app; cbn; lia|].
    exists c'. by rewrite E', <- app_assoc in *.
Qed.

Lemma ctx_take_rep c p ys : ctx_rep c p ys ->
  exists c', ctx_take (length ys) c = Ret (c', ys) /\ ctx_rep c' p [].
Proof.
  revert c. induction ys as [|y ys IH]; intros c H; [by exists c|]. cbn [length ctx_take].
  destruct (ctx_res_some_rep c p y ys H) as (c1 & E & H1). rewrite E. mon. cbn [unwrap]. mon.
  destruct (IH c1 H1) as (c' & E' & H'). exists c'. by rewrite E'.
Qed.

Lemma ctx_round_rep c b : ctx_rep c [] [] -> length b.1 = length b.2 -> length b.1 <= MAX_PENDING_OPS ->
  exists c', ctx_round c b = Ret (c', b) /\ ctx_rep c' [] [].
Proof.
  destruct b as [xs ys]. cbn [fst snd]. intros H Hlen Hmax. unfold ctx_round. cbn [fst snd].
  destruct (ctx_put_rep c [] xs H) as (c1 & E1 & H1); [done|]. rewrite E1. mon.
  rewrite (ctx_collect_pending c1 xs [] H1). mon.
  destruct (enqueue_resps_spec c1 xs [] [] ys) as (c2 & E2 & H2); [done|by rewrite app_nil_r|]. rewrite E2. mon.
  destruct (ctx_take_rep c2 [] ys H2) as (c3 & E3 & H3). rewrite E3. mon. by exists c3.
Qed.
End Rounds.

(** C39: a context is a lossless pair of queues, however often its ring wraps
    around: in every sequence of rounds with at most [MAX_PENDING_OPS] operations
    each, the combiner collects exactly the operations the thread enqueued and the
    thread takes exactly the responses the combiner enqueued, in order. *)
Theorem ctx_roundtrip {T R M} (dm : M) idx (bs : list (list (T * M) * list R)) :
  Forall (fun b => length b.1 = length b.2 /\ length b.1 <= MAX_PENDING_OPS) bs ->
  exists c, run_prog ctx_round (context_new dm idx) bs = Ret (c, bs).
Proof.
  intros Hbs. generalize (context_new_rep (T := T) (R := R) dm idx).
  generalize (context_new (T := T) (R := R) dm idx).
  induction Hbs as [|b bs [Hlen Hmax] _ IH]; intros c Hc; [by exists c|]. cbn [run_prog].
  destruct (ctx_round_rep c b Hc Hlen Hmax) as (c1 & E & Hc1). rewrite E. mon.
  destruct (IH c1 Hc1) as (c2 & E2). exists c2. by rewrite E2.
Qed.

Lemma ctx_roundtrip_witness :
  exists c, run_prog ctx_round (context_new 0 1)
    [([(7, 0); (8, 0)], [true; false]); ([(9, 1)], [true])]
    = Ret (c, [([(7, 0); (8, 0)], [true; false]); ([(9, 1)], [true])]).
Proof.
  apply ctx_roundtrip. unfold MAX_PENDING_OPS. constructor; [cbn; lia|]. constructor; [cbn; lia|]. constructor.
Defined.
