(* ===== verification/Log.v ===== *)
(** * The shared operation log (node-replication/src/log.rs)

    The log is a circular buffer of entries addressed by logical indices that
    only grow; the physical slot of index [i] is [i mod slog.len()].  This file
    models the state and the operations common to NR and CNR: the size
    computations of the constructors (on 64-bit [usize], in [N]), registration
    of replicas, the scan for the slowest replica, the synchronisation test for
    reads, and [reset]. *)

From S2P Require Import Prelude Context.

(** ** Constants *)

(** replica.rs: [MAX_THREADS_PER_REPLICA] (not under loom). *)
Definition MAX_THREADS_PER_REPLICA : nat := 32.
#[global] Arguments MAX_THREADS_PER_REPLICA : simpl never.

(** log.rs: [DEFAULT_LOG_BYTES]. *)
Definition DEFAULT_LOG_BYTES : N := (64 * 1024 * 1024)%N.

(** log.rs: [MAX_REPLICAS_PER_LOG] (not under loom). *)
Definition MAX_REPLICAS_PER_LOG : nat := 16.

(** log.rs: [GC_FROM_HEAD]. *)
Definition GC_FROM_HEAD : nat := MAX_PENDING_OPS * MAX_THREADS_PER_REPLICA.
#[global] Arguments GC_FROM_HEAD : simpl never.

(** log.rs: [WARN_THRESHOLD]. *)
Definition WARN_THRESHOLD : nat := 2 ^ 7.
#[global] Arguments WARN_THRESHOLD : simpl never.

(** [usize::MAX + 1]. *)
Definition usize_size : N := (2 ^ 64)%N.

(** ** State *)

(** log.rs: [LogToken]; the number inside it. *)
Abbreviation LogToken := nat (only parsing).

(** log.rs: [Entry]. *)
Record Entry (T M : Type) := mkEntry {
  operation : option T;
  replica : nat;
  alivef : bool;
  emeta : M;
}.
Arguments mkEntry {T M} _ _ _ _.
Arguments operation {T M} _.
Arguments replica {T M} _.
Arguments alivef {T M} _.
Arguments emeta {T M} _.

(** log.rs: [Log]. *)
Record Log (T LM M : Type) := mkLog {
  slog : list (Entry T M);
  log_head : nat;
  log_tail : nat;
  log_ctail : nat;
  log_commit_tail : nat;
  log_ltails : list nat;
  log_next : nat;
  log_lmasks : list bool;
  log_meta : LM;
}.
Arguments mkLog {T LM M} _ _ _ _ _ _ _ _ _.
Arguments slog {T LM M} _.
Arguments log_head {T LM M} _.
Arguments log_tail {T LM M} _.
Arguments log_ctail {T LM M} _.
Arguments log_commit_tail {T LM M} _.
Arguments log_ltails {T LM M} _.
Arguments log_next {T LM M} _.
Arguments log_lmasks {T LM M} _.
Arguments log_meta {T LM M} _.

(** ** Size of the log *)

(** [usize::is_power_of_two]. *)
Definition is_power_of_two (n : N) : bool :=
  (0 <? n)%N && (2 ^ N.log2 n =? n)%N.

(** [usize::checked_next_power_of_two]. *)
Definition checked_next_power_of_two (n : N) : option N :=
  let p := if (n <=? 1)%N then 1%N else (2 ^ N.log2_up n)%N in
  if (p <? usize_size)%N then Some p else None.

Definition min_log_entries : N := (2 * N.of_nat GC_FROM_HEAD)%N.

(** [Log::entries_to_log_entries]. *)
Definition entries_to_log_entries (entries : N) : N :=
  match checked_next_power_of_two (N.max min_log_entries entries) with
  | Some n => n
  | None => min_log_entries
  end.

(** [Log::bytes_to_log_entries]; [esize] is [Log::entry_size()], the size of a
    [Cell<Entry<T, M>>]. *)
Definition bytes_to_log_entries (esize bytes : N) : N :=
  let num := N.max min_log_entries (bytes / esize) in
  if is_power_of_two num then num
  else match checked_next_power_of_two num with
       | Some n => n
       | None => min_log_entries
       end.

Section LogOps.
Context {T LM M : Type} (dm : M).
Implicit Type l : Log T LM M.

(** [Entry::default]. *)
Definition entry_default : Entry T M := mkEntry None 0 false dm.

(** [Log::new_with_entries]. *)
Definition new_with_entries (num : N) (metadata : LM) : Log T LM M :=
  mkLog (replicate (N.to_nat (entries_to_log_entries num)) entry_default)
    0 0 0 0 (replicate MAX_REPLICAS_PER_LOG 0) 1
    (replicate MAX_REPLICAS_PER_LOG true) metadata.

(** [Log::new_with_bytes]. *)
Definition new_with_bytes (esize bytes : N) (metadata : LM) : Log T LM M :=
  new_with_entries (bytes_to_log_entries esize bytes) metadata.

(** [Log::new_with_metadata]. *)
Definition new_with_metadata (esize : N) (metadata : LM) : Log T LM M :=
  new_with_entries (bytes_to_log_entries esize DEFAULT_LOG_BYTES) metadata.

(** [Log::default]. *)
Definition log_default (esize : N) (metadata : LM) : Log T LM M :=
  new_with_bytes esize DEFAULT_LOG_BYTES metadata.

(** [Log::index]. *)
Definition log_index l (logical : nat) : nat := Nat.land logical (length (slog l) - 1).

(** Field updates. *)
Definition set_slog l (v : list (Entry T M)) : Log T LM M :=
  mkLog v (log_head l) (log_tail l) (log_ctail l)
  (log_commit_tail l) (log_ltails l) (log_next l) (log_lmasks l) (log_meta l).
Definition set_head l (v : nat) : Log T LM M :=
  mkLog (slog l) v (log_tail l) (log_ctail l)
  (log_commit_tail l) (log_ltails l) (log_next l) (log_lmasks l) (log_meta l).
Definition set_tail l (v : nat) : Log T LM M :=
  mkLog (slog l) (log_head l) v (log_ctail l)
  (log_commit_tail l) (log_ltails l) (log_next l) (log_lmasks l) (log_meta l).
Definition set_ctail l (v : nat) : Log T LM M :=
  mkLog (slog l) (log_head l) (log_tail l) v
  (log_commit_tail l) (log_ltails l) (log_next l) (log_lmasks l) (log_meta l).
Definition set_commit_tail l (v : nat) : Log T LM M :=
  mkLog (slog l) (log_head l) (log_tail l)
  (log_ctail l) v (log_ltails l) (log_next l) (log_lmasks l) (log_meta l).
Definition set_ltails l (v : list nat) : Log T LM M :=
  mkLog (slog l) (log_head l) (log_tail l)
  (log_ctail l) (log_commit_tail l) v (log_next l) (log_lmasks l) (log_meta l).
Definition set_next l (v : nat) : Log T LM M :=
  mkLog (slog l) (log_head l) (log_tail l)
  (log_ctail l) (log_commit_tail l) (log_ltails l) v (log_lmasks l) (log_meta l).
Definition set_lmasks l (v : list bool) : Log T LM M :=
  mkLog (slog l) (log_head l) (log_tail l)
  (log_ctail l) (log_commit_tail l) (log_ltails l) (log_next l) v (log_meta l).
Definition set_meta l (v : LM) : Log T LM M :=
  mkLog (slog l) (log_head l) (log_tail l)
  (log_ctail l) (log_commit_tail l) (log_ltails l) (log_next l) (log_lmasks l) v.

(** [Log::register], run without interference: the compare-exchange succeeds. *)
Definition log_register l : option LogToken * Log T LM M :=
  let n := log_next l in
  if MAX_REPLICAS_PER_LOG <? n then (None, l)
  else (Some n, set_next l (n + 1)).

(** [Log::find_min_tail]: the loop body for index [idx] in [1..r]. *)
Definition find_min_step l (acc : nat * nat) (idx : nat) : res (nat * nat) :=
  let '(min_replica_idx, min_local_tail) := acc in
  cur_local_tail ← vget (log_ltails l) (idx - 1);
  if cur_local_tail <? min_local_tail then Ret (idx - 1, cur_local_tail)
  else Ret (min_replica_idx, min_local_tail).

(** [Log::find_min_tail]. *)
Definition find_min_tail l : res (nat * nat) :=
  let r := log_next l in
  t0 ← vget (log_ltails l) 0;
  foldM (find_min_step l) (0, t0) (seq 1 (r - 1)).

(** [Log::reset]. *)
Definition log_reset l : Log T LM M :=
  mkLog
    ((fun e => mkEntry (operation e) (replica e) false (emeta e)) <$> slog l)
    0 0 (log_ctail l) (log_commit_tail l)
    (replicate MAX_REPLICAS_PER_LOG 0) 1
    (replicate MAX_REPLICAS_PER_LOG true) (log_meta l).

(** [Log::is_replica_synced_for_reads]. *)
Definition is_replica_synced_for_reads l (idx : LogToken) (ctail : nat) : res bool :=
  i ← usub idx 1;
  lt ← vget (log_ltails l) i;
  Ret (ctail <=? lt).

(** [Log::get_ctail]. *)
Definition get_ctail l : nat := log_ctail l.

(** The fields [Debug::fmt] prints. *)
Definition log_debug_fields l : list (string * nat) :=
  [("head", log_tail l); ("tail", log_head l); ("log_entries", length (slog l))].
End LogOps.

Arguments entry_default {T M} dm.
Arguments new_with_entries {T LM M} dm num metadata.
Arguments new_with_bytes {T LM M} dm esize bytes metadata.
Arguments new_with_metadata {T LM M} dm esize metadata.
Arguments log_default {T LM M} dm esize metadata.

(** ** Sizes *)

Lemma gc_from_head_val : GC_FROM_HEAD = 1024.
Proof. reflexivity. Qed.

Lemma min_log_entries_val : min_log_entries = 2048%N.
Proof. reflexivity. Qed.

Lemma is_power_of_two_spec n : is_power_of_two n = true <-> exists k, n = (2 ^ k)%N.
Proof.
  unfold is_power_of_two. rewrite andb_true_iff, N.ltb_lt, N.eqb_eq. split.
  - intros [_ <-]. eauto.
  - intros [k ->]. rewrite N.log2_pow2 by lia. split; [|done].
    apply N.neq_0_lt_0, N.pow_nonzero. lia.
Qed.

(** The smallest power of two that is at least [n], when it is representable. *)
Lemma checked_next_power_of_two_spec n p :
  checked_next_power_of_two n = Some p ->
  is_power_of_two p = true /\ (n <= p)%N /\ (p < usize_size)%N
  /\ (1 < n -> p < 2 * n)%N.
Proof.
  unfold checked_next_power_of_two. cbn zeta.
  destruct (N.leb_spec n 1) as [Hn|Hn].
  - destruct (N.ltb_spec 1 usize_size) as [Hu|Hu]; [|done].
    intros [= <-]. split; [by apply is_power_of_two_spec; exists 0%N|]. lia.
  - destruct (N.ltb_spec (2 ^ N.log2_up n) usize_size) as [Hu|Hu]; [|done].
    intros [= <-]. split; [by apply is_power_of_two_spec; eauto|].
    destruct (N.log2_up_spec n Hn) as [Hlo Hhi]. split_and!; [done|done|].
    intros _.
    assert (0 < N.log2_up n)%N by (by apply N.log2_up_pos).
    replace (N.log2_up n) with (N.succ (N.pred (N.log2_up n))) by lia.
    rewrite N.pow_succ_r'. lia.
Qed.

(** Rounding up fails only beyond 2^63. *)
Lemma checked_next_power_of_two_None n :
  checked_next_power_of_two n = None <-> (2 ^ 63 < n)%N.
Proof.
  unfold checked_next_power_of_two. cbn zeta.
  assert (Hp : (usize_size = 2 ^ 64)%N) by done.
  destruct (N.leb_spec n 1) as [Hn|Hn].
  - destruct (N.ltb_spec 1 usize_size) as [Hu|Hu]; [|done].
    split; [done|]. intros ?. assert (2 ^ 63 = 9223372036854775808)%N by done. lia.
  - destruct (N.ltb_spec (2 ^ N.log2_up n) usize_size) as [Hu|Hu].
    + split; [done|]. intros H. rewrite Hp in Hu.
      apply N.pow_lt_mono_r_iff in Hu; [|lia].
      destruct (N.log2_up_spec n Hn) as [_ Hhi].
      assert (2 ^ N.log2_up n <= 2 ^ 63)%N by (apply N.pow_le_mono_r; lia). lia.
    + split; [|done]. intros _. rewrite Hp in Hu.
      apply N.pow_le_mono_r_iff in Hu; [|lia].
      destruct (N.log2_up_spec n Hn) as [Hlo _].
      assert (2 ^ 63 <= 2 ^ N.pred (N.log2_up n))%N by (apply N.pow_le_mono_r; lia).
      lia.
Qed.

Lemma checked_next_power_of_two_pow2 n :
  is_power_of_two n = true -> (n < usize_size)%N -> checked_next_power_of_two n = Some n.
Proof.
  intros [k ->]%is_power_of_two_spec Hu. unfold checked_next_power_of_two. cbn zeta.
  destruct (N.leb_spec (2 ^ k) 1) as [H|H].
  - assert (0 < 2 ^ k)%N by (apply N.neq_0_lt_0, N.pow_nonzero; lia).
    replace (2 ^ k)%N with 1%N by lia. done.
  - rewrite N.log2_up_pow2 by lia. by apply N.ltb_lt in Hu as ->.
Qed.

Lemma min_log_entries_pow2 : is_power_of_two min_log_entries = true.
Proof. reflexivity. Qed.

Lemma entries_to_log_entries_bounds n :
  is_power_of_two (entries_to_log_entries n) = true
  /\ (min_log_entries <= entries_to_log_entries n < usize_size)%N.
Proof.
  unfold entries_to_log_entries.
  destruct (checked_next_power_of_two _) as [p|] eqn:E.
  - apply checked_next_power_of_two_spec in E as (?&?&?&?). split; [done|]. lia.
  - split; [apply min_log_entries_pow2|]. split; [done|]. by vm_compute.
Qed.

Lemma N_pow2_nat n : is_power_of_two n = true -> is_pow2 (N.to_nat n).
Proof.
  intros [k ->]%is_power_of_two_spec. exists (N.to_nat k).
  by rewrite N2Nat.inj_pow.
Qed.

Lemma new_with_entries_len {T LM M} (dm : M) num (lm : LM) :
  let l := new_with_entries (T := T) dm num lm in
  is_pow2 (length (slog l)) /\ 2 * GC_FROM_HEAD <= length (slog l)
  /\ forall i, log_index l i = i mod length (slog l).
Proof.
  cbn zeta. destruct (entries_to_log_entries_bounds num) as [Hp [Hlo _]].
  assert (Hpow : is_pow2 (length (slog (new_with_entries (T := T) dm num lm)))).
  { cbn. rewrite length_replicate. by apply N_pow2_nat. }
  split_and!; [done| |].
  - cbn [slog new_with_entries]. rewrite length_replicate.
    rewrite min_log_entries_val in Hlo. rewrite gc_from_head_val. lia.
  - intros i. by apply land_pow2.
Qed.

(** C40: every log that [new_with_entries] builds has a number of entries that
    is a power of two (so [index] is a reduction modulo the size) and at least
    [2 * GC_FROM_HEAD] (so that garbage collection can work). *)
Theorem new_with_entries_size {T LM M} (dm : M) num (lm : LM) :
  let l := new_with_entries (T := T) dm num lm in
  is_pow2 (length (slog l)) /\ 2 * GC_FROM_HEAD <= length (slog l)
  /\ forall i, log_index l i = i mod length (slog l).
Proof. apply new_with_entries_len. Qed.

(** The requested number of entries is rounded up to the next power of two
    (less than doubled) as long as that fits in 64 bits; beyond 2^63 the log
    silently falls back to the minimal size. *)
Theorem entries_to_log_entries_rounding n :
  (n <= 2 ^ 63 -> N.max min_log_entries n <= entries_to_log_entries n
                 < 2 * N.max min_log_entries n)%N
  /\ (2 ^ 63 < n -> entries_to_log_entries n = min_log_entries)%N.
Proof.
  rewrite min_log_entries_val. unfold entries_to_log_entries.
  rewrite min_log_entries_val.
  assert (2048 < 2 ^ 63)%N by done. split; intros H1.
  - destruct (checked_next_power_of_two _) as [p|] eqn:E.
    + apply checked_next_power_of_two_spec in E as (?&?&?&?). lia.
    + apply checked_next_power_of_two_None in E. lia.
  - assert (checked_next_power_of_two (N.max 2048 n) = None) as ->; [|done].
    apply checked_next_power_of_two_None. lia.
Qed.

(** Sizing by bytes and by entries agree: [bytes_to_log_entries] already
    returns a legal log size, which [entries_to_log_entries] leaves alone. *)
Theorem bytes_to_log_entries_stable esize bytes :
  (0 < esize)%N -> (bytes < usize_size)%N ->
  entries_to_log_entries (bytes_to_log_entries esize bytes)
  = bytes_to_log_entries esize bytes.
Proof.
  intros He Hb. set (n := bytes_to_log_entries esize bytes).
  assert (Hn : is_power_of_two n = true /\ (min_log_entries <= n < usize_size)%N).
  { subst n. unfold bytes_to_log_entries. cbn zeta.
    assert (bytes / esize <= bytes)%N by (apply N.Div0.div_le_upper_bound; nia).
    assert (min_log_entries < usize_size)%N by done.
    destruct (is_power_of_two (N.max _ _)) eqn:E; [split; [done|lia]|].
    destruct (checked_next_power_of_two _) as [p|] eqn:E'.
    - apply checked_next_power_of_two_spec in E' as (?&?&?&?). split; [done|]. lia.
    - split; [apply min_log_entries_pow2|lia]. }
  destruct Hn as [Hp Hr]. unfold entries_to_log_entries.
  rewrite N.max_r by lia. rewrite checked_next_power_of_two_pow2; [done|done|lia].
Qed.

Lemma bytes_to_log_entries_stable_witness :
  entries_to_log_entries (bytes_to_log_entries 192 DEFAULT_LOG_BYTES)
  = bytes_to_log_entries 192 DEFAULT_LOG_BYTES
  /\ bytes_to_log_entries 192 DEFAULT_LOG_BYTES = (2 ^ 19)%N.
Proof.
  split; [|reflexivity].
  apply (bytes_to_log_entries_stable 192 DEFAULT_LOG_BYTES); reflexivity.
Defined.

(** ** Registration *)

(** Registering [k] replicas, one after the other. *)
Fixpoint register_n {T LM M} (k : nat) (l : Log T LM M) : list (option LogToken) * Log T LM M :=
  match k with
  | 0 => ([], l)
  | S k' =>
      let '(t, l1) := log_register l in
      let '(ts, l2) := register_n k' l1 in
      (t :: ts, l2)
  end.

Lemma register_n_spec {T LM M} k (l : Log T LM M) :
  (register_n k l).1
  = (Some <$> seq (log_next l) (Nat.min k (S MAX_REPLICAS_PER_LOG - log_next l)))
    ++ replicate (k - (S MAX_REPLICAS_PER_LOG - log_next l)) None.
Proof.
  revert l; induction k as [|k IH]; intros l; [done|]. cbn [register_n].
  unfold log_register.
  destruct (Nat.ltb_spec MAX_REPLICAS_PER_LOG (log_next l)) as [Hlt|Hle].
  - specialize (IH l). destruct (register_n k l) as [ts l2]. cbn [fst] in IH |- *.
    rewrite IH. replace (S MAX_REPLICAS_PER_LOG - log_next l) with 0 by lia.
    rewrite !Nat.min_0_r, !Nat.sub_0_r. done.
  - specialize (IH (set_next l (log_next l + 1))).
    destruct (register_n k _) as [ts l2]. cbn [fst] in IH |- *. rewrite IH.
    cbn [log_next set_next].
    replace (S MAX_REPLICAS_PER_LOG - (log_next l + 1))
      with (MAX_REPLICAS_PER_LOG - log_next l) by lia.
    replace (Nat.min (S k) (S MAX_REPLICAS_PER_LOG - log_next l))
      with (S (Nat.min k (MAX_REPLICAS_PER_LOG - log_next l))) by lia.
    replace (S k - (S MAX_REPLICAS_PER_LOG - log_next l))
      with (k - (MAX_REPLICAS_PER_LOG - log_next l)) by lia.
    cbn [seq]. rewrite fmap_cons. cbn [app].
    by replace (S (log_next l)) with (log_next l + 1) by lia.
Qed.

(** A fresh log hands out the tokens 1 to [MAX_REPLICAS_PER_LOG], each once,
    and [None] from then on. *)
Theorem register_tokens {T LM M} (dm : M) num (lm : LM) k :
  (register_n k (new_with_entries (T := T) dm num lm)).1
  = (Some <$> seq 1 (Nat.min k MAX_REPLICAS_PER_LOG))
    ++ replicate (k - MAX_REPLICAS_PER_LOG) None.
Proof. apply register_n_spec. Qed.

(** ** The slowest replica *)

(** The local tails of the registered replicas, tokens 1 to [next - 1]. *)
Definition registered_ltails {T LM M} (l : Log T LM M) : list nat :=
  take (log_next l - 1) (log_ltails l).

(** The replica with token [idx] is registered and has replayed [t] operations. *)
Definition at_tail {T LM M} (l : Log T LM M) (idx : LogToken) (t : nat) : Prop :=
  1 <= idx /\ registered_ltails l !! (idx - 1) = Some t.

Lemma registered_lookup {T LM M} (l : Log T LM M) k t :
  registered_ltails l !! k = Some t <-> k < log_next l - 1 /\ log_ltails l !! k = Some t.
Proof. unfold registered_ltails. rewrite lookup_take_Some. naive_solver. Qed.

Lemma at_tail_ltails {T LM M} (l : Log T LM M) idx t : at_tail l idx t -> log_ltails l !! (idx - 1) = Some t.
Proof. intros [_ H]. by apply registered_lookup in H as [_ ?]. Qed.

Lemma registered_insert {T LM M} (l : Log T LM M) k t j :
  k < log_next l - 1 -> k < length (log_ltails l) ->
  registered_ltails (set_ltails l (<[k := t]> (log_ltails l))) !! j
  = if decide (j = k) then Some t else registered_ltails l !! j.
Proof.
  intros Hk Hlen. unfold registered_ltails. cbn.
  rewrite take_insert_lt by done. case_decide as Hj.
  - subst. apply list_lookup_insert_eq. rewrite length_take. lia.
  - by apply list_lookup_insert_ne.
Qed.

(** [i] is the first position of a minimal element [m] of [ts]. *)
Definition first_min (ts : list nat) (i m : nat) : Prop :=
  ts !! i = Some m /\ (forall j t, ts !! j = Some t -> m <= t)
  /\ (forall j t, j < i -> ts !! j = Some t -> m < t).

Lemma find_min_fold {T LM M} (l : Log T LM M) n i m :
  n <= length (log_ltails l) -> 0 < n -> first_min (take 1 (log_ltails l)) i m ->
  exists i' m', foldM (find_min_step l) (i, m) (seq 1 n) = Ret (i', m')
    /\ first_min (take n (log_ltails l)) i' m'.
Proof.
  intros Hn Hpos Hinit. induction n as [|n IH]; [lia|].
  destruct n as [|n].
  - destruct (lookup_lt_is_Some_2 (log_ltails l) 0) as [t Ht]; [lia|].
    destruct Hinit as (H0 & H1 & H2).
    exists i, m. split; [|by split_and!]. cbn [seq foldM].
    unfold find_min_step. cbn [Nat.sub]. rewrite (vget_lookup _ _ _ Ht). mon.
    specialize (H1 0 t). rewrite lookup_take_lt in H1 by lia.
    destruct (Nat.ltb_spec t m); [|done]. specialize (H1 Ht). lia.
  - destruct IH as (i1 & m1 & Hf & Hm1 & Hle1 & Hlt1); [lia|lia|].
    rewrite seq_snoc, foldM_app, Hf. mon. cbn [foldM].
    destruct (lookup_lt_is_Some_2 (log_ltails l) (S n)) as [t Ht]; [lia|].
    unfold find_min_step.
    replace (1 + S n - 1) with (S n) by lia. rewrite (vget_lookup _ _ _ Ht). mon.
    rewrite (take_S_r _ _ _ Ht).
    assert (Hl : length (take (S n) (log_ltails l)) = S n) by (rewrite length_take; lia).
    destruct (Nat.ltb_spec t m1) as [Hlt|Hge]; mon; eexists _, _; split; try done.
    + split_and!.
      * by rewrite lookup_app_r, Hl, Nat.sub_diag by lia.
      * intros j u [Hj | [_ <-]]%lookup_snoc_Some; [|lia].
        specialize (Hle1 _ _ Hj). lia.
      * intros j u Hj [Hj' | [-> _]]%lookup_snoc_Some; [|lia].
        specialize (Hle1 _ _ Hj'). lia.
    + split_and!.
      * rewrite lookup_app_l; [done|]. by eapply lookup_lt_Some.
      * intros j u [Hj | [_ <-]]%lookup_snoc_Some; eauto.
      * intros j u Hj [Hj' | [-> _]]%lookup_snoc_Some; [eauto|].
        apply lookup_lt_Some in Hm1. lia.
Qed.

Lemma find_min_tail_first {T LM M} (l : Log T LM M) :
  length (log_ltails l) = MAX_REPLICAS_PER_LOG ->
  2 <= log_next l <= S MAX_REPLICAS_PER_LOG ->
  exists i m, find_min_tail l = Ret (i, m) /\ first_min (registered_ltails l) i m.
Proof.
  intros Hlen Hnext. unfold find_min_tail, registered_ltails. cbn zeta.
  destruct (lookup_lt_is_Some_2 (log_ltails l) 0) as [t Ht].
  { rewrite Hlen. unfold MAX_REPLICAS_PER_LOG. lia. }
  rewrite (vget_lookup _ _ _ Ht). mon. apply find_min_fold; [lia|lia|].
  assert (Ht' : take 1 (log_ltails l) = [t]) by (by rewrite (take_S_r _ _ _ Ht)).
  rewrite Ht'. split_and!; [done| |intros; lia].
  intros [|j] u Hj; cbn in Hj; [by simplify_eq|done].
Qed.

(** [find_min_tail] returns the smallest local tail over the registered
    replicas together with the position (token minus one) of the first replica
    that has it; it does not panic once a replica is registered. *)
Theorem find_min_tail_spec {T LM M} (l : Log T LM M) i m :
  length (log_ltails l) = MAX_REPLICAS_PER_LOG ->
  2 <= log_next l <= S MAX_REPLICAS_PER_LOG ->
  find_min_tail l = Ret (i, m) <-> first_min (registered_ltails l) i m.
Proof.
  intros Hlen Hnext.
  destruct (find_min_tail_first l Hlen Hnext) as (i' & m' & -> & H1 & H2 & H3).
  split; [intros [= <- <-]; by split_and!|].
  intros (H1' & H2' & H3').
  assert (m = m') by (apply Nat.le_antisymm; eauto). subst m'.
  assert (i = i') as ->; [|done].
  destruct (Nat.lt_trichotomy i i') as [Hi|[Hi|Hi]]; [|done|].
  - specialize (H3 _ _ Hi H1'). lia.
  - specialize (H3' _ _ Hi H1). lia.
Qed.

(** The log of the unit test [test_log_advance_head]. *)
Definition min_tail_example : Log nat unit unit :=
  set_ltails (set_next (new_with_entries tt 0 tt) 5)
    ([1023; 224; 4096; 799] ++ replicate 12 0).

Lemma find_min_tail_spec_witness :
  find_min_tail min_tail_example = Ret (1, 224)
  /\ first_min (registered_ltails min_tail_example) 1 224.
Proof.
  assert (H : find_min_tail min_tail_example = Ret (1, 224)) by (vm_compute; reflexivity).
  split; [exact H|]. apply (find_min_tail_spec min_tail_example 1 224).
  - reflexivity.
  - unfold MAX_REPLICAS_PER_LOG. cbn. lia.
  - exact H.
Defined.
