(* ===== verification/NrLog.v ===== *)
(** * Appending to, replaying and garbage collecting the NR log
    (node-replication/src/nr/log.rs)

    [append], [exec], [publish] and [advance_head] as executable functions on
    the log and the state of the closure that consumes operations.  The
    closure of the code ([FnMut(T, bool)]) is a state transformer
    [d : S -> T -> bool -> res S].  Two builds are modelled, selected by
    [feature]: the default one, where entries become visible through their
    alive bit, and [scr], where an appender writes its entries back and then
    publishes them by advancing the commit tail.

    A thread runs these functions here without interference from others (the
    compare-exchange succeeds, the counters do not move under its feet); the
    interleaved behaviour of the same steps is the subject of LogProtocol.v.

    [log_inv l hist] says that [l] represents the sequence [hist] of all
    operations ever appended.  The theorems show that every function preserves
    it and that [exec] replays exactly the operations of [hist] that the
    replica has not seen yet, in order. *)

From S2P Require Import Prelude Context Log.

(** The builds of the crate: Cargo features "default" and "scr". *)
Inductive feature := Coherent | Scr.

Section NrLog.
Context {T : Type}.

(** nr/log.rs: [Log<T>] = [crate::log::Log<T, (), ()>]. *)
Definition NrLog := Log T unit unit.
Implicit Types (l : Log T unit unit) (f : feature).

Section Ops.
Context {S : Type}.

(** [exec]: the body of the loop over [ltail..gtail]. *)
Definition exec_entry f (idx : LogToken) (d : S -> T -> bool -> res S)
    (acc : Log T unit unit * S) (i : nat) : res (Log T unit unit * S) :=
  let '(l, s) := acc in
  e ← vget (slog l) (log_index l i);
  k ← usub idx 1;
  m ← vget (log_lmasks l) k;
  _ ← match f with
      | Coherent => if Bool.eqb (alivef e) m then Ret tt else Spin
      | Scr => Ret tt
      end;
  o ← unwrap (operation e);
  s' ← d s o (replica e =? idx);
  if log_index l i =? length (slog l) - 1 then
    ms ← vset (log_lmasks l) k (negb m);
    Ret (set_lmasks l ms, s')
  else Ret (l, s').

(** [Log::exec]. *)
Definition exec f l (idx : LogToken) (d : S -> T -> bool -> res S) (s : S)
  : res (Log T unit unit * S) :=
  k ← usub idx 1;
  ltail ← vget (log_ltails l) k;
  let gtail := match f with Scr => log_commit_tail l | Coherent => log_tail l end in
  if ltail =? gtail then Ret (l, s)
  else
    let h := log_head l in
    if (gtail <? ltail) || (ltail <? h) then
      Panic "Local tail not within the shared log!"
    else
      '(l1, s1) ← foldM (exec_entry f idx d) (l, s) (seq ltail (gtail - ltail));
      let l2 := set_ctail l1 (Nat.max (log_ctail l1) gtail) in
      lt ← vset (log_ltails l2) k gtail;
      Ret (set_ltails l2 lt, s1).

(** [Log::advance_head]: the loop. *)
Fixpoint advance_head_loop (fuel : nat) f (iteration : nat) l (rid : LogToken)
    (d : S -> T -> bool -> res S) (s : S)
  : res (result unit nat * Log T unit unit * S) :=
  match fuel with
  | 0 => Spin
  | Datatypes.S fuel' =>
      let global_head := log_head l in
      let ft := log_tail l in
      '(min_replica_idx, min_local_tail) ← find_min_tail l;
      if min_local_tail =? global_head then
        if iteration mod WARN_THRESHOLD =? 0 then Ret (Err min_replica_idx, l, s)
        else
          '(l1, s1) ← exec f l rid d s;
          advance_head_loop fuel' f (iteration + 1) l1 rid d s1
      else
        let l1 := set_head l min_local_tail in
        if ft <? min_local_tail + length (slog l) - GC_FROM_HEAD then
          Ret (Ok tt, l1, s)
        else
          '(l2, s2) ← exec f l1 rid d s;
          advance_head_loop fuel' f iteration l2 rid d s2
  end.

(** Each pass either counts [iteration] up or moves the head forward
    ([advance_head_loop_spec] shows that this much fuel is enough). *)
Definition advance_head_fuel l : nat :=
  WARN_THRESHOLD + (log_tail l - log_head l) + 1.

(** [Log::advance_head]. *)
Definition advance_head f l (rid : LogToken) (d : S -> T -> bool -> res S) (s : S)
  : res (result unit nat * Log T unit unit * S) :=
  advance_head_loop (advance_head_fuel l) f 1 l rid d s.

(** [Log::publish]. *)
Definition publish l (start n : nat) : res (Log T unit unit) :=
  if n =? 0 then Ret l
  else if log_commit_tail l =? start then Ret (set_commit_tail l (start + n))
  else Spin.

(** [append]: filling one reserved entry. *)
Definition write_entry f (idx : LogToken) (start : nat) l (iop : nat * T)
  : res (Log T unit unit) :=
  let '(i, o) := iop in
  let j := log_index l (start + i) in
  e ← vget (slog l) j;
  a ← match f with
      | Scr => Ret (alivef e)
      | Coherent =>
          k ← usub idx 1;
          m ← vget (log_lmasks l) k;
          Ret (if Bool.eqb (alivef e) m then negb m else m)
      end;
  es ← vset (slog l) j (mkEntry (Some o) idx a (emeta e));
  Ret (set_slog l es).

(** [append]: filling all reserved entries. *)
Definition write_entries f (idx : LogToken) (start : nat) l (ops : list T)
  : res (Log T unit unit) :=
  foldM (write_entry f idx start) l (zip (seq 0 (length ops)) ops).

(** [Log::append]: the loop. *)
Fixpoint append_loop (fuel : nat) f (iteration waitgc : nat) l (ops : list T)
    (idx : LogToken) (d : S -> T -> bool -> res S) (s : S)
  : res (result (option nat) nat * Log T unit unit * S) :=
  match fuel with
  | 0 => Spin
  | Datatypes.S fuel' =>
      let nops := length ops in
      if iteration mod WARN_THRESHOLD =? 0 then
        '(min_replica_idx, _) ← find_min_tail l;
        Ret (Err min_replica_idx, l, s)
      else
        let tail := log_tail l in
        let head := log_head l in
        if head + length (slog l) - GC_FROM_HEAD <? tail then
          if waitgc mod WARN_THRESHOLD =? 0 then
            '(min_replica_idx, _) ← find_min_tail l;
            Ret (Err min_replica_idx, l, s)
          else
            '(l1, s1) ← exec f l idx d s;
            '(r, l2, s2) ← advance_head f l1 idx d s1;
            match r with
            | Err e => Ret (Err e, l2, s2)
            | Ok _ => append_loop fuel' f (iteration + 1) (waitgc + 1) l2 ops idx d s2
            end
        else
          let advance := head + length (slog l) - GC_FROM_HEAD <? tail + nops in
          let l1 := set_tail l (tail + nops) in
          l2 ← write_entries f idx tail l1 ops;
          l3 ← match f with Scr => publish l2 tail nops | Coherent => Ret l2 end;
          if advance then
            '(r, l4, s4) ← advance_head f l3 idx d s;
            match r with
            | Ok _ => Ret (Ok None, l4, s4)
            | Err min_replica_idx => Ret (Ok (Some min_replica_idx), l4, s4)
            end
          else Ret (Ok None, l3, s)
  end.

(** [Log::append].  [iteration] starts at 1 and the loop returns when it
    reaches [WARN_THRESHOLD], so the fuel cannot run out. *)
Definition append f l (ops : list T) (idx : LogToken)
    (d : S -> T -> bool -> res S) (s : S)
  : res (result (option nat) nat * Log T unit unit * S) :=
  append_loop WARN_THRESHOLD f 1 1 l ops idx d s.
End Ops.
End NrLog.

(** ** Representation invariant *)

Section Inv.
Context {T : Type}.
Implicit Types (l : Log T unit unit) (f : feature) (hist : list (T * LogToken)).

(** Times slot [j] of a ring of [len] slots was written by the first [n]
    appends. *)
Definition laps (len n j : nat) : nat := (n + len - 1 - j) / len.

(** The slots of the ring hold the last operations of [hist]: every entry
    not yet garbage collected is in its slot, and (default build) the alive
    bit of a slot is the parity of the number of times it was written. *)
Definition slots_ok f (head : nat) (es : list (Entry T unit)) hist : Prop :=
  (forall i o r, head <= i -> hist !! i = Some (o, r) ->
     exists e, es !! (i mod length es) = Some e /\ operation e = Some o /\ replica e = r)
  /\ (f = Coherent -> forall j e, es !! j = Some e ->
       alivef e = Nat.odd (laps (length es) (length hist) j)).

Record log_inv f l hist : Prop := {
  inv_pow2 : is_pow2 (length (slog l));
  inv_size : 2 * GC_FROM_HEAD <= length (slog l);
  inv_nltails : length (log_ltails l) = MAX_REPLICAS_PER_LOG;
  inv_nlmasks : length (log_lmasks l) = MAX_REPLICAS_PER_LOG;
  inv_next : 1 <= log_next l <= Datatypes.S MAX_REPLICAS_PER_LOG;
  inv_tail : log_tail l = length hist;
  inv_room : log_tail l <= log_head l + length (slog l);
  inv_head : log_head l <= log_tail l;
  inv_ctail : log_ctail l <= log_tail l;
  inv_commit : f = Scr -> log_commit_tail l = log_tail l;
  inv_ltails : forall k t, registered_ltails l !! k = Some t ->
    log_head l <= t <= log_ctail l;
  inv_masks : forall k t m, registered_ltails l !! k = Some t ->
    log_lmasks l !! k = Some m -> m = Nat.even (t / length (slog l));
  inv_slots : slots_ok f (log_head l) (slog l) hist;
}.

Lemma log_index_mod f l hist i :
  log_inv f l hist -> log_index l i = i mod length (slog l).
Proof. intros H. apply land_pow2, (inv_pow2 _ _ _ H). Qed.

Lemma slot_lt f l hist i :
  log_inv f l hist -> i mod length (slog l) < length (slog l).
Proof.
  intros H. apply Nat.mod_upper_bound.
  pose proof (inv_size _ _ _ H). rewrite gc_from_head_val in *. lia.
Qed.

(** A new log is empty, and registering a replica keeps it so. *)
Lemma new_log_inv f num : log_inv f (new_with_entries tt num tt) [].
Proof.
  destruct (new_with_entries_len (T := T) tt num tt) as (Hp & Hs & _).
  split; try done; try (cbn; lia).
  split; [intros i o r _ H; done|]. intros _ j e He. cbn [slog new_with_entries] in *.
  apply lookup_replicate in He as [-> Hj]. cbn [alivef entry_default].
  rewrite length_replicate. unfold laps. cbn [length].
  rewrite Nat.div_small by lia. done.
Qed.

Lemma register_inv f l t l' :
  log_inv f l [] -> log_ltails l = replicate MAX_REPLICAS_PER_LOG 0 ->
  log_lmasks l = replicate MAX_REPLICAS_PER_LOG true ->
  log_register l = (Some t, l') ->
  log_inv f l' [] /\ t = log_next l /\ at_tail l' t 0
  /\ log_next l' = log_next l + 1
  /\ log_ltails l' = log_ltails l /\ log_lmasks l' = log_lmasks l
  /\ slog l' = slog l /\ log_tail l' = log_tail l.
Proof.
  intros Hinv Hlt Hlm. unfold log_register.
  destruct (Nat.ltb_spec MAX_REPLICAS_PER_LOG (log_next l)) as [?|Hle]; [done|].
  intros [= <- <-]. destruct Hinv.
  assert (Hh : log_head l = 0) by (cbn in *; lia).
  assert (Hreg : forall k u, registered_ltails (set_next l (log_next l + 1)) !! k = Some u -> u = 0).
  { intros k u [_ Hu]%registered_lookup. cbn in Hu. rewrite Hlt in Hu.
    by apply lookup_replicate in Hu as [-> _]. }
  split_and!; try done; [|split].
  - split; cbn; try done; try lia.
    + intros k u ->%Hreg. lia.
    + intros k u m ->%Hreg Hm. rewrite Hlm in Hm.
      apply lookup_replicate in Hm as [-> _]. by rewrite Nat.Div0.div_0_l.
  - lia.
  - apply registered_lookup. cbn. split; [lia|]. rewrite Hlt.
    apply lookup_replicate. split; [done|lia].
Qed.
End Inv.

(** ** Replaying the log *)

Lemma laps_current len i n :
  0 < len -> i < n -> n <= i + len -> laps len n (i mod len) = i / len + 1.
Proof.
  intros Hlen H1 H2. unfold laps.
  pose proof (Nat.div_mod_eq i len). pose proof (Nat.mod_upper_bound i len).
  symmetry. apply (Nat.div_unique _ _ _ (n - i - 1)); lia.
Qed.

Lemma div_succ_wrap len i :
  0 < len -> i mod len = len - 1 -> (i + 1) / len = i / len + 1.
Proof.
  intros Hlen H. pose proof (Nat.div_mod_eq i len).
  symmetry. apply (Nat.div_unique _ _ _ 0); lia.
Qed.

Lemma div_succ_no_wrap len i :
  0 < len -> i mod len <> len - 1 -> (i + 1) / len = i / len.
Proof.
  intros Hlen H. pose proof (Nat.div_mod_eq i len).
  pose proof (Nat.mod_upper_bound i len).
  symmetry. apply (Nat.div_unique _ _ _ (i mod len + 1)); lia.
Qed.

Section Exec.
Context {T S : Type} (d : S -> T -> bool -> res S).
Implicit Types (l : Log T unit unit) (f : feature) (hist : list (T * LogToken)).

(** Applying a sequence of logged operations to the closure's state; the
    flag tells whether replica [idx] issued the operation. *)
Definition replay (idx : LogToken) (s : S) (xs : list (T * LogToken)) : res S :=
  foldM (fun s x => d s x.1 (x.2 =? idx)) s xs.

(** The log once replica [k + 1] has replayed everything. *)
Definition synced l (k : nat) : Log T unit unit :=
  set_ltails (set_ctail (set_lmasks l
      (<[k := Nat.even (log_tail l / length (slog l))]> (log_lmasks l)))
    (Nat.max (log_ctail l) (log_tail l)))
    (<[k := log_tail l]> (log_ltails l)).

Lemma exec_entry_spec f l hist idx ms i o r s :
  log_inv f l hist -> log_head l <= i -> hist !! i = Some (o, r) -> 1 <= idx ->
  ms !! (idx - 1) = Some (Nat.even (i / length (slog l))) ->
  exec_entry f idx d (set_lmasks l ms, s) i
  = (fun s' => (set_lmasks l (<[idx - 1 := Nat.even ((i + 1) / length (slog l))]> ms), s'))
    <$> d s o (r =? idx).
Proof.
  intros Hinv Hi Hh Hidx Hm. pose proof Hinv as [].
  pose proof (lookup_lt_Some _ _ _ Hh).
  assert (Hlen : 0 < length (slog l)) by (rewrite gc_from_head_val in *; lia).
  destruct inv_slots0 as [Hslots Halive].
  destruct (Hslots i o r Hi Hh) as (e & He & Ho & Hr).
  unfold exec_entry. change (log_index (set_lmasks l ms)) with (log_index l).
  rewrite (log_index_mod f l hist i Hinv).
  change (slog (set_lmasks l ms)) with (slog l).
  rewrite (vget_lookup _ _ _ He). mon. rewrite usub_le by lia. mon.
  change (log_lmasks (set_lmasks l ms)) with ms.
  rewrite (vget_lookup _ _ _ Hm). mon.
  assert (Hal : match f with
        | Coherent => if Bool.eqb (alivef e) (Nat.even (i / length (slog l)))
                      then Ret tt else Spin
        | Scr => Ret tt end = Ret tt).
  { destruct f; [|done]. rewrite (Halive eq_refl _ _ He).
    rewrite laps_current by lia.
    by rewrite Nat.add_1_r, Nat.odd_succ, Bool.eqb_reflx. }
  rewrite Hal. mon. rewrite Ho, Hr. mon. cbn [unwrap]. mon.
  destruct (d s o (r =? idx)) as [s'| |]; mon; try done.
  destruct (Nat.eqb_spec (i mod length (slog l)) (length (slog l) - 1)) as [Hw|Hw].
  - rewrite vset_lt by (by eapply lookup_lt_Some). mon.
    rewrite (div_succ_wrap _ _ Hlen Hw), Nat.add_1_r, Nat.even_succ.
    by rewrite <- Nat.negb_even.
  - rewrite (div_succ_no_wrap _ _ Hlen Hw), list_insert_id by done. done.
Qed.

Lemma exec_loop_spec f l hist idx t n s :
  log_inv f l hist -> at_tail l idx t -> t + n <= length hist ->
  foldM (exec_entry f idx d) (l, s) (seq t n)
  = (fun s' => (set_lmasks l
        (<[idx - 1 := Nat.even ((t + n) / length (slog l))]> (log_lmasks l)), s'))
    <$> replay idx s (take n (drop t hist)).
Proof.
  intros Hinv [Hidx Ht] Hn. pose proof Hinv as [].
  pose proof (inv_ltails0 _ _ Ht) as [Hlo _].
  pose proof (proj1 (registered_lookup _ _ _) Ht) as [Hk Hlt].
  assert (Hkm : idx - 1 < length (log_lmasks l)).
  { apply lookup_lt_Some in Hlt. lia. }
  destruct (lookup_lt_is_Some_2 _ _ Hkm) as [m Hm].
  pose proof (inv_masks0 _ _ _ Ht Hm) as ->.
  induction n as [|n IH].
  - cbn. rewrite Nat.add_0_r, list_insert_id by done. by destruct l.
  - rewrite seq_snoc, foldM_app, IH by lia.
    destruct (lookup_lt_is_Some_2 hist (t + n)) as [[o r] Hor]; [lia|].
    rewrite (take_S_r _ n (o, r)) by (by rewrite lookup_drop).
    unfold replay. rewrite foldM_app.
    destruct (foldM _ s (take n (drop t hist))) as [s1| |]; mon; try done.
    cbn [foldM]. cbn [fst snd].
    rewrite (exec_entry_spec f l hist idx _ (t + n) o r s1); try done; try lia.
    + destruct (d s1 o (r =? idx)) as [s2| |]; mon; try done.
      rewrite list_insert_insert_eq. do 5 f_equal. f_equal. lia.
    + by rewrite list_lookup_insert_eq.
Qed.

(** Exactly the operations not yet seen are replayed, in log order. *)
Lemma exec_run f l hist idx t s :
  log_inv f l hist -> at_tail l idx t ->
  exec f l idx d s = (fun s' => (synced l (idx - 1), s')) <$> replay idx s (drop t hist).
Proof.
  intros Hinv Hat. pose proof Hinv as []. pose proof Hat as [Hidx Ht].
  pose proof (inv_ltails0 _ _ Ht) as [Hlo Hhi].
  pose proof (at_tail_ltails _ _ _ Hat) as Hlt.
  unfold exec. rewrite usub_le by lia. mon. rewrite (vget_lookup _ _ _ Hlt). mon.
  replace (match f with Coherent => log_tail l | Scr => log_commit_tail l end)
    with (log_tail l) by (destruct f; [done|by rewrite inv_commit0]).
  destruct (Nat.eqb_spec t (log_tail l)) as [->|Hne].
  - rewrite drop_ge by lia. cbn. mon.
    assert (Hs : synced l (idx - 1) = l); [|by rewrite Hs].
    unfold synced. rewrite (list_insert_id (log_ltails l)) by done.
    rewrite Nat.max_l by lia.
    assert (Hkm : idx - 1 < length (log_lmasks l)) by (apply lookup_lt_Some in Hlt; lia).
    destruct (lookup_lt_is_Some_2 _ _ Hkm) as [m Hm].
    rewrite <- (inv_masks0 _ _ _ Ht Hm), list_insert_id by done. by destruct l.
  - destruct (Nat.ltb_spec (log_tail l) t); [lia|].
    destruct (Nat.ltb_spec t (log_head l)); [lia|]. cbn [orb].
    rewrite (exec_loop_spec f l hist) by (done || lia).
    rewrite take_ge by (rewrite length_drop; lia).
    destruct (replay idx s (drop t hist)) as [s'| |]; mon; try done.
    cbn [log_ltails set_ctail set_lmasks].
    rewrite vset_lt by (by eapply lookup_lt_Some). mon.
    by replace (t + (log_tail l - t)) with (log_tail l) by lia.
Qed.

Lemma synced_registered l idx t j :
  length (log_ltails l) = MAX_REPLICAS_PER_LOG -> at_tail l idx t ->
  registered_ltails (synced l (idx - 1)) !! j
  = if decide (j = idx - 1) then Some (log_tail l) else registered_ltails l !! j.
Proof.
  intros Hlen [Hidx Ht]. pose proof (proj1 (registered_lookup _ _ _) Ht) as [Hk Hlt].
  unfold synced.
  apply (registered_insert (set_ctail (set_lmasks l _) _)); [done|].
  by apply lookup_lt_Some in Hlt.
Qed.

Lemma synced_inv f l hist idx t :
  log_inv f l hist -> at_tail l idx t -> log_inv f (synced l (idx - 1)) hist.
Proof.
  intros Hinv Hat. pose proof Hinv as [].
  pose proof (synced_registered l idx t) as Hreg.
  split; cbn; rewrite ?length_insert; try done; try lia.
  - intros k u. rewrite Hreg by done. case_decide; [intros [= <-]; lia|].
    intros Hu%inv_ltails0. lia.
  - intros k u m. rewrite Hreg by done. case_decide as Hk.
    + intros [= <-] Hm. subst k. rewrite list_lookup_insert_eq in Hm; [by simplify_eq|].
      apply at_tail_ltails, lookup_lt_Some in Hat. lia.
    + rewrite list_lookup_insert_ne by done. apply inv_masks0.
Qed.
End Exec.

(** ** Filling reserved entries *)

Section Append.
Context {T : Type}.
Implicit Types (l : Log T unit unit) (f : feature) (hist : list (T * LogToken)).

(** The alive bit an appender writes is the negation of the one it finds,
    whatever the local mask of its replica. *)
Lemma alive_flip (a m : bool) : (if Bool.eqb a m then negb m else m) = negb a.
Proof. by destruct a, m. Qed.

Lemma laps_snoc len n j :
  0 < len -> j < len ->
  laps len (n + 1) j = laps len n j + (if decide (j = n mod len) then 1 else 0).
Proof.
  intros Hlen Hj. unfold laps.
  pose proof (Nat.div_mod_eq n len). pose proof (Nat.mod_upper_bound n len).
  case_decide as Hjn.
  - subst j. transitivity (n / len + 1).
    + symmetry. apply (Nat.div_unique _ _ _ 0); lia.
    + f_equal. apply (Nat.div_unique _ _ _ (len - 1)); lia.
  - destruct (decide (j < n mod len)).
    + transitivity (n / len + 1).
      * symmetry. apply (Nat.div_unique _ _ _ (n mod len - j)); lia.
      * rewrite Nat.add_0_r. apply (Nat.div_unique _ _ _ (n mod len - j - 1)); lia.
    + transitivity (n / len).
      * symmetry. apply (Nat.div_unique _ _ _ (n mod len + len - j)); lia.
      * rewrite Nat.add_0_r. apply (Nat.div_unique _ _ _ (n mod len + len - j - 1)); lia.
Qed.

Lemma slots_ok_snoc f head (es : list (Entry T unit)) hist e o idx :
  0 < length es -> head <= length hist -> length hist < head + length es ->
  slots_ok f head es hist ->
  es !! (length hist mod length es) = Some e ->
  forall a, (f = Coherent -> a = negb (alivef e)) ->
  slots_ok f head
    (<[length hist mod length es := mkEntry (Some o) idx a (emeta e)]> es)
    (hist ++ [(o, idx)]).
Proof.
  intros Hlen Hh Hroom [Hs Ha] He a Hflip. split; rewrite length_insert.
  - intros i o' r Hi [Hold | [-> [= <- <-]]]%lookup_snoc_Some.
    + pose proof (lookup_lt_Some _ _ _ Hold).
      rewrite list_lookup_insert_ne; [by apply Hs|].
      intros Heq. symmetry in Heq. revert Heq. apply mod_window_ne; lia.
    + rewrite list_lookup_insert_eq by (by eapply lookup_lt_Some).
      eexists; split_and!; by cbn.
  - intros Hf j e' He'. rewrite length_app. cbn [length].
    assert (j < length es).
    { apply lookup_lt_Some in He'. by rewrite length_insert in He'. }
    rewrite laps_snoc by done. case_decide as Hj.
    + subst j. rewrite list_lookup_insert_eq in He' by (by eapply lookup_lt_Some).
      simplify_eq. cbn. rewrite Hflip by done. rewrite (Ha eq_refl _ _ He).
      by rewrite Nat.add_1_r, Nat.odd_succ, Nat.negb_odd.
    + rewrite list_lookup_insert_ne in He' by done. rewrite Nat.add_0_r. by apply Ha.
Qed.

Lemma write_entry_spec f l hist idx start k o :
  is_pow2 (length (slog l)) -> 1 <= idx <= length (log_lmasks l) ->
  start + k = length hist -> log_head l <= length hist ->
  length hist < log_head l + length (slog l) ->
  slots_ok f (log_head l) (slog l) hist ->
  exists es, write_entry f idx start l (k, o) = Ret (set_slog l es)
    /\ length es = length (slog l)
    /\ slots_ok f (log_head l) es (hist ++ [(o, idx)]).
Proof.
  intros Hp Hidx Hk Hh Hroom Hok. pose proof (pow2_pos _ Hp) as Hlen.
  unfold write_entry, log_index. rewrite land_pow2, Hk by done.
  destruct (lookup_lt_is_Some_2 (slog l) (length hist mod length (slog l))) as [e He].
  { apply Nat.mod_upper_bound. lia. }
  rewrite (vget_lookup _ _ _ He). mon.
  assert (Hal : exists a, (match f with
      | Coherent => k0 ← usub idx 1; m ← vget (log_lmasks l) k0;
                    Ret (if Bool.eqb (alivef e) m then negb m else m)
      | Scr => Ret (alivef e) end = Ret a) /\ (f = Coherent -> a = negb (alivef e))).
  { destruct f; [|by eexists].
    destruct (lookup_lt_is_Some_2 (log_lmasks l) (idx - 1)) as [m Hm]; [lia|].
    rewrite usub_le by lia. mon. rewrite (vget_lookup _ _ _ Hm). mon.
    eexists; split; [done|]. intros _. apply alive_flip. }
  destruct Hal as (a & -> & Hflip). mon.
  rewrite vset_lt by (by eapply lookup_lt_Some). mon.
  eexists; split_and!; [done|apply length_insert|].
  by apply slots_ok_snoc.
Qed.

Lemma write_entries_spec f l hist idx start k ops :
  is_pow2 (length (slog l)) -> 1 <= idx <= length (log_lmasks l) ->
  start + k = length hist -> log_head l <= length hist ->
  length hist + length ops <= log_head l + length (slog l) ->
  slots_ok f (log_head l) (slog l) hist ->
  exists es, foldM (write_entry f idx start) l (zip (seq k (length ops)) ops)
             = Ret (set_slog l es)
    /\ length es = length (slog l)
    /\ slots_ok f (log_head l) es (hist ++ ((fun o => (o, idx)) <$> ops)).
Proof.
  revert l hist k; induction ops as [|o ops IH]; intros l hist k Hp Hidx Hk Hh Hroom Hok.
  - exists (slog l). cbn. rewrite app_nil_r. split_and!; [by destruct l|done|done].
  - cbn [length] in Hroom.
    destruct (write_entry_spec f l hist idx start k o) as (es1 & E1 & Hl1 & Hs1);
      try done; [lia|].
    cbn [length seq zip zip_with foldM]. rewrite E1. mon.
    destruct (IH (set_slog l es1) (hist ++ [(o, idx)]) (S k)) as (es & Hf & Hl & Hs);
      cbn [slog set_slog log_lmasks log_head]; rewrite ?length_app, ?Hl1;
      cbn [length]; try done; try lia.
    exists es. rewrite Hf.
    split_and!; [done|rewrite Hl; exact Hl1|].
    cbn [fmap list_fmap]. by rewrite <- app_assoc in Hs.
Qed.
End Append.

(** ** Garbage collection and append *)

Section Gc.
Context {T S : Type} (d : S -> T -> bool -> res S).
Implicit Types (l : Log T unit unit) (f : feature) (hist : list (T * LogToken)).

(** Replica [idx] replayed the operations [t..t') of [hist], taking the
    closure's state from [s] to [s']. *)
Definition replayed (idx : LogToken) hist (t : nat) (s : S) (t' : nat) (s' : S) : Prop :=
  t <= t' /\ replay d idx s (take (t' - t) (drop t hist)) = Ret s'.

(** What a call on behalf of replica [idx] leaves alone. *)
Record log_frame (idx : LogToken) l l' : Prop := {
  frame_len : length (slog l') = length (slog l);
  frame_next : log_next l' = log_next l;
  frame_ltails : forall k, k <> idx - 1 -> log_ltails l' !! k = log_ltails l !! k;
}.

(** Replica [k + 1], another one than [idx], has not seen the whole log. *)
Definition behind l (idx : LogToken) (k : nat) : Prop :=
  k <> idx - 1 /\ exists u, registered_ltails l !! k = Some u /\ u < log_tail l.

Lemma replayed_refl idx hist t s : replayed idx hist t s t s.
Proof. split; [lia|]. by rewrite Nat.sub_diag, take_0. Qed.

Lemma replayed_trans idx hist t s t1 s1 t2 s2 :
  replayed idx hist t s t1 s1 -> replayed idx hist t1 s1 t2 s2 ->
  replayed idx hist t s t2 s2.
Proof.
  intros [H1 E1] [H2 E2]. split; [lia|].
  replace (t2 - t) with ((t1 - t) + (t2 - t1)) by lia.
  unfold replay in *. rewrite <- (take_drop (t1 - t) (take _ (drop t hist))).
  rewrite take_take, Nat.min_l by lia. rewrite foldM_app, E1. mon.
  rewrite <- E2. f_equal.
  rewrite skipn_firstn_comm, drop_drop. f_equal; [lia|f_equal; lia].
Qed.

Lemma replayed_all idx hist t s s' :
  t <= length hist -> replay d idx s (drop t hist) = Ret s' <->
  replayed idx hist t s (length hist) s'.
Proof.
  intros Ht. unfold replayed. rewrite take_ge by (rewrite length_drop; lia).
  naive_solver.
Qed.

Lemma replayed_app idx hist xs t s t' s' :
  t' <= length hist -> replayed idx hist t s t' s' ->
  replayed idx (hist ++ xs) t s t' s'.
Proof.
  intros Ht [H E]. split; [done|]. rewrite <- E. f_equal.
  rewrite drop_app_le by lia. apply take_app_le. rewrite length_drop. lia.
Qed.

(** The rest of a replay that succeeds as a whole succeeds. *)
Lemma replayed_rest idx hist t s t1 s1 sf :
  t1 <= length hist -> replayed idx hist t s t1 s1 ->
  replay d idx s (drop t hist) = Ret sf -> replay d idx s1 (drop t1 hist) = Ret sf.
Proof.
  intros Ht [H E] Hf. rewrite <- (take_drop (t1 - t) (drop t hist)) in Hf.
  unfold replay in *. rewrite foldM_app, E in Hf. mon.
  rewrite drop_drop in Hf. by replace (t + (t1 - t)) with t1 in Hf by lia.
Qed.

Lemma log_frame_refl idx l : log_frame idx l l.
Proof. by split. Qed.

Lemma log_frame_trans idx l l1 l2 :
  log_frame idx l l1 -> log_frame idx l1 l2 -> log_frame idx l l2.
Proof.
  intros [?? H1] [?? H2]. split; [congruence|congruence|].
  intros k Hk. by rewrite H2, H1.
Qed.

Lemma synced_frame idx l : log_frame idx l (synced l (idx - 1)).
Proof. split; try done. intros k Hk. cbn. by apply list_lookup_insert_ne. Qed.

Lemma set_head_inv f l hist m :
  log_inv f l hist -> log_head l <= m -> m <= log_tail l ->
  (forall k t, registered_ltails l !! k = Some t -> m <= t) ->
  log_inv f (set_head l m) hist.
Proof.
  intros [] Hm Hmt Hmin. split; cbn; try done; try lia.
  - intros k t Hk. pose proof (Hmin k t Hk). pose proof (inv_ltails0 k t Hk). lia.
  - destruct inv_slots0 as [Hs Ha]. split; [|done]. intros i o r Hi. apply Hs. lia.
Qed.

Lemma exec_to_end f l hist idx t s sf :
  log_inv f l hist -> at_tail l idx t -> replay d idx s (drop t hist) = Ret sf ->
  exec f l idx d s = Ret (synced l (idx - 1), sf)
  /\ log_inv f (synced l (idx - 1)) hist
  /\ at_tail (synced l (idx - 1)) idx (log_tail l)
  /\ replay d idx sf (drop (log_tail l) hist) = Ret sf
  /\ replayed idx hist t s (log_tail l) sf.
Proof.
  intros Hinv Hat Hr. rewrite (exec_run d f l hist idx t s Hinv Hat), Hr.
  pose proof Hinv as []. pose proof Hat as [Hidx Ht].
  pose proof (inv_ltails0 _ _ Ht). split_and!; [done| | | |].
  - by eapply synced_inv.
  - split; [done|]. rewrite (synced_registered l idx t) by done. by rewrite decide_True.
  - by rewrite inv_tail0, drop_all.
  - rewrite inv_tail0. apply replayed_all; [lia|done].
Qed.

(** Enough fuel: each pass counts [iteration] or moves the head. *)
Lemma advance_head_loop_spec f hist idx fuel iteration l t s sf :
  log_inv f l hist -> at_tail l idx t -> replay d idx s (drop t hist) = Ret sf ->
  log_head l < log_tail l ->
  1 <= iteration <= WARN_THRESHOLD -> (iteration = 1 \/ t = log_tail l) ->
  (WARN_THRESHOLD - iteration) + (log_tail l - log_head l) + 1 <= fuel ->
  exists r l' t' s', advance_head_loop fuel f iteration l idx d s = Ret (r, l', s')
    /\ log_inv f l' hist /\ at_tail l' idx t' /\ replayed idx hist t s t' s'
    /\ log_frame idx l l' /\ log_tail l' = log_tail l
    /\ match r with
       | Ok _ => log_tail l < log_head l' + length (slog l) - GC_FROM_HEAD
       | Err k => behind l' idx k /\ t' = log_tail l
       end.
Proof.
  revert iteration l t s; induction fuel as [|fuel IH];
    intros iteration l t s Hinv Hat Hr Hne Hit Hfirst Hfuel; [lia|].
  pose proof Hinv as []. pose proof Hat as [Hidx Ht].
  pose proof (inv_ltails0 _ _ Ht) as Htr.
  pose proof (proj1 (registered_lookup _ _ _) Ht) as [Hnext _].
  destruct (find_min_tail_first l) as (mi & m & Hfind & Hmi & Hmin & _);
    [done|lia|].
  pose proof (inv_ltails0 _ _ Hmi) as Hmr.
  destruct (exec_to_end f l hist idx t s sf Hinv Hat Hr)
    as (Hex & Hinv1 & Hat1 & Hr1 & Hrep1).
  cbn [advance_head_loop]. rewrite Hfind. mon.
  destruct (Nat.eqb_spec m (log_head l)) as [->|Hmh].
  - destruct (Nat.eqb_spec (iteration mod WARN_THRESHOLD) 0) as [Hw|Hw].
    + (* report the replica we wait for *)
      assert (iteration = WARN_THRESHOLD) as ->.
      { destruct (decide (iteration < WARN_THRESHOLD)); [|lia].
        rewrite Nat.mod_small in Hw by done. lia. }
      assert (WARN_THRESHOLD <> 1) by done.
      destruct Hfirst as [? | ->]; [done|].
      exists (Err mi), l, (log_tail l), s. split_and!; try done.
      * apply replayed_refl.
      * split; [|by exists (log_head l)]. intros ->. simplify_eq. lia.
    + rewrite Hex. mon.
      destruct (decide (iteration = WARN_THRESHOLD)) as [->|Hnw].
      { rewrite Nat.Div0.mod_same in Hw. done. }
      destruct (IH (iteration + 1) (synced l (idx - 1)) (log_tail l) sf)
        as (r & l' & t' & s' & E & H1 & H2 & H3 & H4 & H5 & H6);
        try done; cbn; try lia.
      exists r, l', t', s'. split_and!; try done.
      * by eapply replayed_trans.
      * eapply log_frame_trans; [apply synced_frame|done].
  - assert (Hinv' : log_inv f (set_head l m) hist).
    { apply set_head_inv; try done; lia. }
    destruct (Nat.ltb_spec (log_tail l) (m + length (slog l) - GC_FROM_HEAD)) as [Hok|Hok].
    + exists (Ok tt), (set_head l m), t, s. split_and!; try done. apply replayed_refl.
    + destruct (exec_to_end f (set_head l m) hist idx t s sf Hinv' Hat Hr)
        as (Hex' & Hinv1' & Hat1' & _ & _).
      rewrite Hex'. mon.
      assert (GC_FROM_HEAD = 1024) by done.
      destruct (IH iteration (synced (set_head l m) (idx - 1)) (log_tail l) sf)
        as (r & l' & t' & s' & E & H1 & H2 & H3 & H4 & H5 & H6);
        try done; cbn; try lia.
      exists r, l', t', s'. split_and!; try done.
      * by eapply replayed_trans.
      * eapply log_frame_trans; [|done].
        destruct (synced_frame idx (set_head l m)). by split.
Qed.

Lemma advance_head_run f hist idx l t s sf :
  log_inv f l hist -> at_tail l idx t -> replay d idx s (drop t hist) = Ret sf ->
  log_head l < log_tail l ->
  exists r l' t' s', advance_head f l idx d s = Ret (r, l', s')
    /\ log_inv f l' hist /\ at_tail l' idx t' /\ replayed idx hist t s t' s'
    /\ log_frame idx l l' /\ log_tail l' = log_tail l
    /\ match r with
       | Ok _ => log_tail l < log_head l' + length (slog l) - GC_FROM_HEAD
       | Err k => behind l' idx k /\ t' = log_tail l
       end.
Proof.
  intros ????. eapply advance_head_loop_spec; eauto.
  - unfold WARN_THRESHOLD. cbn. lia.
  - unfold advance_head_fuel. lia.
Qed.

(** The operations of one append, tagged with the replica that issues them. *)
Definition tagged (idx : LogToken) (ops : list T) : list (T * LogToken) :=
  (fun o => (o, idx)) <$> ops.

Lemma length_tagged idx ops : length (tagged idx ops) = length ops.
Proof. apply length_fmap. Qed.

(** The log after reserving, filling and publishing [ops]. *)
Lemma filled_inv f l hist idx ops es t :
  log_inv f l hist -> at_tail l idx t ->
  log_tail l + length ops <= log_head l + length (slog l) ->
  length es = length (slog l) ->
  slots_ok f (log_head l) es (hist ++ tagged idx ops) ->
  forall c, (f = Scr -> c = log_tail l + length ops) ->
  log_inv f (set_commit_tail (set_slog (set_tail l (log_tail l + length ops)) es) c)
    (hist ++ tagged idx ops).
Proof.
  intros [] Hat Hroom Hes Hs c Hc.
  split; cbn; rewrite ?Hes, ?length_app, ?length_tagged; try done; lia.
Qed.

(** One pass that finds room: it reserves, fills and publishes, and runs
    garbage collection when less than [GC_FROM_HEAD] entries are left. *)
Lemma append_pass f l hist idx ops t s sf fuel iteration waitgc :
  log_inv f l hist -> at_tail l idx t -> length ops <= GC_FROM_HEAD ->
  replay d idx s (drop t (hist ++ tagged idx ops)) = Ret sf ->
  iteration mod WARN_THRESHOLD <> 0 ->
  log_tail l <= log_head l + length (slog l) - GC_FROM_HEAD ->
  exists g l' t' s',
    append_loop (Datatypes.S fuel) f iteration waitgc l ops idx d s = Ret (Ok g, l', s')
    /\ log_inv f l' (hist ++ tagged idx ops) /\ at_tail l' idx t'
    /\ replayed idx (hist ++ tagged idx ops) t s t' s' /\ log_frame idx l l'
    /\ (forall k, g = Some k -> behind l' idx k).
Proof.
  intros Hinv Hat Hops Hr Hit Hroom. pose proof Hinv as [].
  pose proof Hat as [Hidx Ht]. pose proof (at_tail_ltails _ _ _ Hat) as Hlt.
  assert (HGC : GC_FROM_HEAD = 1024) by done.
  cbn [append_loop].
  destruct (Nat.eqb_spec (iteration mod WARN_THRESHOLD) 0); [done|].
  destruct (Nat.ltb_spec (log_head l + length (slog l) - GC_FROM_HEAD) (log_tail l)); [lia|].
  set (l1 := set_tail l (log_tail l + length ops)).
  destruct (write_entries_spec f l1 hist idx (log_tail l) 0 ops)
    as (es & Hw & Hes & Hslots); try done; try (cbn; lia).
  { apply lookup_lt_Some in Hlt. cbn. lia. }
  unfold write_entries. rewrite Hw. mon.
  set (c := match f with Scr => log_tail l + length ops | Coherent => log_commit_tail l end).
  assert (Hpub : match f with
                 | Coherent => Ret (set_slog l1 es)
                 | Scr => publish (set_slog l1 es) (log_tail l) (length ops) end
                 = Ret (set_commit_tail (set_slog l1 es) c)).
  { subst c. destruct f; [done|]. unfold publish.
    destruct (Nat.eqb_spec (length ops) 0) as [H0|H0].
    - rewrite H0, Nat.add_0_r. rewrite <- inv_commit0 by done. done.
    - cbn. rewrite inv_commit0 by done. by rewrite Nat.eqb_refl. }
  rewrite Hpub. mon.
  set (l3 := set_commit_tail (set_slog l1 es) c).
  assert (Hinv3 : log_inv f l3 (hist ++ tagged idx ops)).
  { eapply filled_inv; try done; [lia|]. subst c. by intros ->. }
  assert (Hat3 : at_tail l3 idx t) by done.
  assert (Hfr3 : log_frame idx l l3) by (split; cbn; by rewrite ?Hes).
  destruct (Nat.ltb_spec (log_head l + length (slog l) - GC_FROM_HEAD)
              (log_tail l + length ops)) as [Hadv|Hadv].
  - destruct (advance_head_run f _ idx l3 t s sf Hinv3 Hat3 Hr)
      as (r & l4 & t4 & s4 & E & H1 & H2 & H3 & H4 & H5 & H6); [cbn; lia|].
    rewrite E. mon. destruct r as [[]|k].
    + exists None, l4, t4, s4. split_and!; try done. by eapply log_frame_trans.
    + exists (Some k), l4, t4, s4. split_and!; try done.
      * by eapply log_frame_trans.
      * intros ? [= <-]. apply H6.
  - exists None, l3, t, s. split_and!; try done. apply replayed_refl.
Qed.

(** [append] always returns; either everything was appended in order (and
    possibly a replica is reported that keeps garbage collection from making
    room), or nothing was and a replica that is behind is reported. *)
Lemma append_run f l hist idx ops t s sf :
  log_inv f l hist -> at_tail l idx t -> length ops <= GC_FROM_HEAD ->
  replay d idx s (drop t (hist ++ tagged idx ops)) = Ret sf ->
  exists r l' t' s', append f l ops idx d s = Ret (r, l', s')
    /\ at_tail l' idx t' /\ log_frame idx l l'
    /\ match r with
       | Ok g => log_inv f l' (hist ++ tagged idx ops)
                 /\ replayed idx (hist ++ tagged idx ops) t s t' s'
                 /\ (forall k, g = Some k -> behind l' idx k)
       | Err k => log_inv f l' hist /\ replayed idx hist t s t' s'
                  /\ behind l' idx k /\ t' = length hist
       end.
Proof.
  intros Hinv Hat Hops Hr. pose proof Hinv as []. pose proof Hat as [Hidx Ht].
  pose proof (inv_ltails0 _ _ Ht) as Htr.
  assert (HGC : GC_FROM_HEAD = 1024) by done.
  unfold append. change WARN_THRESHOLD with (Datatypes.S (Datatypes.S 126)) at 1.
  destruct (decide (log_tail l <= log_head l + length (slog l) - GC_FROM_HEAD)) as [Hfree|Hfull].
  { destruct (append_pass f l hist idx ops t s sf (Datatypes.S 126) 1 1)
      as (g & l' & t' & s' & E & ?&?&?&?&?); try done.
    exists (Ok g), l', t', s'. by split_and!. }
  (* the log is full: replay, collect, and try again *)
  assert (Hr0 : exists s0, replay d idx s (drop t hist) = Ret s0).
  { rewrite drop_app_le in Hr by lia. unfold replay in Hr. rewrite foldM_app in Hr.
    unfold replay. destruct (foldM _ s (drop t hist)); mon; [by eexists|done|done]. }
  destruct Hr0 as [s0 Hr0].
  destruct (exec_to_end f l hist idx t s s0 Hinv Hat Hr0)
    as (Hex & Hinv1 & Hat1 & Hr1 & Hrep1).
  destruct (advance_head_run f hist idx (synced l (idx - 1)) (log_tail l) s0 s0)
    as (r & l2 & t2 & s2 & E & H1 & H2 & H3 & H4 & H5 & H6); try done; [cbn; lia|].
  pose proof (log_frame_trans _ _ _ _ (synced_frame idx l) H4) as Hfr2.
  pose proof (inv_tail _ _ _ H1) as Ht2.
  assert (Hle2 : t2 <= length hist).
  { destruct H2 as [_ H2]. pose proof (inv_ltails _ _ _ H1 _ _ H2).
    pose proof (inv_ctail _ _ _ H1). lia. }
  assert (Hrep2 : replayed idx hist t s t2 s2) by (by eapply replayed_trans).
  cbn [append_loop]. cbn [Nat.modulo Nat.divmod].
  destruct (Nat.eqb_spec (1 mod WARN_THRESHOLD) 0); [done|].
  destruct (Nat.ltb_spec (log_head l + length (slog l) - GC_FROM_HEAD) (log_tail l)); [|lia].
  rewrite Hex. mon. rewrite E. mon. destruct r as [[]|k].
  - destruct (append_pass f l2 hist idx ops t2 s2 sf 126 2 2)
      as (g & l' & t' & s' & E' & ?&?&?&?&?); try done.
    + eapply (replayed_rest idx (hist ++ tagged idx ops) t s); [|by apply replayed_app|done].
      rewrite length_app. lia.
    + pose proof (frame_len _ _ _ Hfr2). cbn in *. lia.
    + change (1 + 1) with 2. exists (Ok g), l', t', s'. split_and!; try done.
      * by eapply log_frame_trans.
      * eapply replayed_trans; [by apply replayed_app|done].
  - exists (Err k), l2, t2, s2. destruct H6 as [? ->]. split_and!; try done.
Qed.
End Gc.

(** ** A concrete log *)

(** A log of minimal size with one replica (token 1), and a closure that
    collects the operations it is given. *)
Definition one_replica : Log nat unit unit := (log_register (new_with_entries tt 0 tt)).2.
Definition collect (s : list nat) (o : nat) (_ : bool) : res (list nat) := Ret (s ++ [o]).

Lemma one_replica_inv f : log_inv f one_replica [] /\ at_tail one_replica 1 0.
Proof.
  destruct (register_inv f (new_with_entries (T := nat) tt 0 tt) 1 one_replica)
    as (H1 & _ & H2 & _); [apply new_log_inv| | | |done]; reflexivity.
Qed.

(** ** Properties *)

(** [exec] on behalf of a registered replica applies to its closure exactly
    the operations it has not replayed yet, oldest first, each flagged with
    whether this replica issued it; then its local tail is the tail of the log
    and the log still represents the same history. *)
Theorem exec_replays {T S} (d : S -> T -> bool -> res S) f l hist idx t s :
  log_inv f l hist -> at_tail l idx t ->
  exec f l idx d s = (fun s' => (synced l (idx - 1), s')) <$> replay d idx s (drop t hist)
  /\ log_inv f (synced l (idx - 1)) hist
  /\ at_tail (synced l (idx - 1)) idx (length hist).
Proof.
  intros Hinv Hat. split_and!.
  - by apply exec_run.
  - by eapply synced_inv.
  - split; [apply Hat|]. rewrite (synced_registered l idx t) by (apply Hinv || done).
    rewrite decide_True by done. by rewrite (inv_tail _ _ _ Hinv).
Qed.

Lemma exec_replays_witness :
  exec Scr one_replica 1 collect [] = Ret (synced one_replica 0, []).
Proof.
  destruct (exec_replays collect Scr one_replica [] 1 0 []) as (E & _).
  - apply (one_replica_inv Scr).
  - apply (one_replica_inv Scr).
  - exact E.
Defined.

(** [append] of at most [GC_FROM_HEAD] operations returns (it neither spins
    nor panics): with [Ok] the history has grown by exactly these operations,
    in order, tagged with the replica; with [Err] it is unchanged and the
    replica reported is another one that lags behind.  In both cases the
    replica has replayed a consecutive part of the history and no other
    replica's local tail moved. *)
Theorem append_correct {T S} (d : S -> T -> bool -> res S) f l hist idx ops t s sf :
  log_inv f l hist -> at_tail l idx t -> length ops <= GC_FROM_HEAD ->
  replay d idx s (drop t (hist ++ tagged idx ops)) = Ret sf ->
  exists r l' t' s', append f l ops idx d s = Ret (r, l', s')
    /\ at_tail l' idx t' /\ log_frame idx l l'
    /\ match r with
       | Ok g => log_inv f l' (hist ++ tagged idx ops)
                 /\ replayed d idx (hist ++ tagged idx ops) t s t' s'
                 /\ (forall k, g = Some k -> behind l' idx k)
       | Err k => log_inv f l' hist /\ replayed d idx hist t s t' s'
                  /\ behind l' idx k /\ t' = length hist
       end.
Proof. apply append_run. Qed.

Lemma append_correct_witness :
  exists r l' t' s', append Scr one_replica [5; 6] 1 collect [] = Ret (r, l', s')
    /\ at_tail l' 1 t'.
Proof.
  destruct (append_correct collect Scr one_replica [] 1 [5; 6] 0 [] [5; 6])
    as (r & l' & t' & s' & E & H & _).
  - apply (one_replica_inv Scr).
  - apply (one_replica_inv Scr).
  - rewrite gc_from_head_val. cbn. lia.
  - reflexivity.
  - exists r, l', t', s'. exact (conj E H).
Defined.

(** [advance_head] terminates: it either frees entries until more than
    [GC_FROM_HEAD] are available, or, after [WARN_THRESHOLD] rounds without
    progress, reports a replica other than the caller's that is behind, by
    then having replayed the whole log itself. *)
Theorem advance_head_correct {T S} (d : S -> T -> bool -> res S) f hist idx l t s sf :
  log_inv f l hist -> at_tail l idx t -> replay d idx s (drop t hist) = Ret sf ->
  log_head l < log_tail l ->
  exists r l' t' s', advance_head f l idx d s = Ret (r, l', s')
    /\ log_inv f l' hist /\ at_tail l' idx t' /\ replayed d idx hist t s t' s'
    /\ log_frame idx l l' /\ log_tail l' = log_tail l
    /\ match r with
       | Ok _ => log_tail l < log_head l' + length (slog l) - GC_FROM_HEAD
       | Err k => behind l' idx k /\ t' = log_tail l
       end.
Proof. apply advance_head_run. Qed.

Lemma advance_head_correct_witness :
  exists l, log_inv Coherent l [(5, 1)] /\ is_ret (advance_head Coherent l 1 collect []) = true.
Proof.
  destruct (append_run collect Coherent one_replica [] 1 [5] 0 [] [5])
    as (r & l & t & s & E & H & _ & Hr).
  - apply (one_replica_inv Coherent).
  - apply (one_replica_inv Coherent).
  - rewrite gc_from_head_val. cbn. lia.
  - reflexivity.
  - vm_compute in E. injection E as <- <- <-. destruct Hr as (Hinv & _).
    eexists. split; [exact Hinv|].
    destruct (advance_head_correct collect Coherent [(5, 1)] 1 _ 0 [] [5] Hinv)
      as (r & l' & t' & s' & E' & _).
    + split; [lia|reflexivity].
    + reflexivity.
    + cbn. lia.
    + unfold is_ret. rewrite E'. reflexivity.
Defined.

(** A replica whose local tail is outside [head..gtail] of the log makes
    [exec] panic before any operation is applied. *)
Theorem exec_panics_outside {T S} (d : S -> T -> bool -> res S) f l idx t s :
  1 <= idx -> log_ltails l !! (idx - 1) = Some t ->
  let gtail := match f with Scr => log_commit_tail l | Coherent => log_tail l end in
  t <> gtail -> gtail < t \/ t < log_head l ->
  exec f l idx d s = Panic "Local tail not within the shared log!".
Proof.
  intros Hidx Ht gtail Hne Hout. unfold exec. rewrite usub_le by done. mon.
  rewrite (vget_lookup _ _ _ Ht). mon. fold gtail.
  destruct (Nat.eqb_spec t gtail); [done|].
  destruct (Nat.ltb_spec gtail t); [done|].
  destruct (Nat.ltb_spec t (log_head l)); [done|lia].
Qed.

Lemma exec_panics_outside_witness :
  exec Coherent (set_head (set_tail one_replica 1024) 8192) 1 collect []
  = Panic "Local tail not within the shared log!".
Proof.
  apply (exec_panics_outside collect Coherent _ 1 0 []).
  - lia.
  - reflexivity.
  - cbn. lia.
  - right. cbn. lia.
Defined.

(** [reset] restarts the indices but not the commit tail.  In the [scr]
    build every non-empty append to a log that was used before the reset then
    waits for a commit tail that no one will move. *)
Theorem reset_append_spins {T S} (d : S -> T -> bool -> res S) (l : Log T unit unit) ops idx s :
  is_pow2 (length (slog l)) -> 2 * GC_FROM_HEAD <= length (slog l) ->
  0 < log_commit_tail l -> 0 < length ops <= GC_FROM_HEAD ->
  1 <= idx <= MAX_REPLICAS_PER_LOG ->
  append Scr (log_reset l) ops idx d s = Spin.
Proof.
  intros Hp Hsize Hc Hops Hidx. assert (GC_FROM_HEAD = 1024) by done.
  unfold append. change WARN_THRESHOLD with (Datatypes.S 127) at 1.
  cbn [append_loop].
  destruct (Nat.eqb_spec (1 mod WARN_THRESHOLD) 0); [done|].
  cbn [log_head log_tail log_reset slog]. rewrite length_fmap.
  destruct (Nat.ltb_spec (0 + length (slog l) - GC_FROM_HEAD) 0); [lia|].
  destruct (write_entries_spec Scr (set_tail (log_reset l) (0 + length ops)) [] idx 0 0 ops)
    as (es & Hw & Hes & _); cbn; rewrite ?length_fmap; try done; try lia.
  unfold write_entries. change (set_tail (log_reset l) (length ops))
    with (set_tail (log_reset l) (0 + length ops)). rewrite Hw. mon.
  unfold publish. destruct (Nat.eqb_spec (length ops) 0); [lia|].
  cbn [log_commit_tail set_slog set_tail log_reset].
  destruct (Nat.eqb_spec (log_commit_tail l) 0); [lia|]. done.
Qed.

Lemma reset_append_spins_witness :
  append Scr (log_reset (set_commit_tail one_replica 3)) [7] 1 collect [] = Spin.
Proof.
  apply (reset_append_spins collect (set_commit_tail one_replica 3) [7] 1 []).
  - exists 11. reflexivity.
  - cbn. rewrite length_replicate. vm_compute. lia.
  - cbn. lia.
  - rewrite gc_from_head_val. cbn. lia.
  - unfold MAX_REPLICAS_PER_LOG. lia.
Defined.
