(* ===== verification/RwLock.v ===== *)
(** * The distributed readers-writer lock (node-replication/src/nr/rwlock.rs)

    [RwLock] has one writer flag and one counter per reader thread.  Its
    operations are given twice: as functions that run to completion without
    interference (used by the replica), and as a transition system in which the
    atomic accesses of any number of threads interleave.  Accesses are
    sequentially consistent (on x86 every read-modify-write is a full fence; the
    code asks for less).

    The transition system carries the mutual-exclusion theorems; a thread that
    runs alone is shown to do what the sequential functions say.  [SimpleRwLock],
    the single-counter lock of the same file, follows. *)

From S2P Require Import Prelude Context Log.

(** [MAX_READER_THREADS]. *)
Definition MAX_READER_THREADS : nat := MAX_THREADS_PER_REPLICA.
#[global] Arguments MAX_READER_THREADS : simpl never.

(** [RwLock<T>]. *)
Record RwLock (T : Type) := mkRwLock {
  wlock : bool;
  rlock : list nat;
  rw_data : T;
}.
Arguments mkRwLock {T} _ _ _.
Arguments wlock {T} _.
Arguments rlock {T} _.
Arguments rw_data {T} _.

Section Ops.
Context {T : Type}.
Implicit Type l : RwLock T.

(** [RwLock::new]. *)
Definition rw_new (t : T) : RwLock T :=
  mkRwLock false (replicate MAX_READER_THREADS 0) t.

(** [RwLock::default]; [dt] is [T::default()]. *)
Definition rw_default (dt : T) : RwLock T :=
  mkRwLock false (replicate MAX_READER_THREADS 0) dt.

Definition set_wlock l (b : bool) : RwLock T := mkRwLock b (rlock l) (rw_data l).
Definition set_rlock l (v : list nat) : RwLock T := mkRwLock (wlock l) v (rw_data l).
Definition set_data l (t : T) : RwLock T := mkRwLock (wlock l) (rlock l) t.

(** [RwLock::write], run alone. *)
Definition rw_write l (n : nat) : res (RwLock T) :=
  if wlock l then Spin
  else if forallb (fun c => c =? 0) (take n (rlock l)) then Ret (set_wlock l true)
  else Spin.

(** [RwLock::read], run alone. *)
Definition rw_read l (tid : nat) : res (RwLock T) :=
  if wlock l then Spin
  else
    c ← vget (rlock l) tid;
    r ← vset (rlock l) tid (c + 1);
    Ret (set_rlock l r).

(** [RwLock::write_unlock]; [spurious] says that the weak compare-exchange
    fails although the flag has the expected value. *)
Definition write_unlock (spurious : bool) l : res (RwLock T) :=
  if wlock l && negb spurious then Ret (set_wlock l false)
  else Panic "write_unlock() called without acquiring the write lock".

(** [RwLock::read_unlock]. *)
Definition read_unlock l (tid : nat) : res (RwLock T) :=
  c ← vget (rlock l) tid;
  if c =? 0 then Panic "read_unlock() called without acquiring the read lock"
  else r ← vset (rlock l) tid (c - 1); Ret (set_rlock l r).
End Ops.

(** [ReadGuard] and [WriteGuard]: what a guard remembers, [Deref], [DerefMut]
    and [Drop]. *)
Record ReadGuard := mkReadGuard { guard_tid : nat }.
Record WriteGuard := mkWriteGuard { }.

Definition read_deref {T} (l : RwLock T) (g : ReadGuard) : T := rw_data l.
Definition write_deref {T} (l : RwLock T) (g : WriteGuard) : T := rw_data l.
Definition write_deref_mut {T} (l : RwLock T) (g : WriteGuard) (t : T) : RwLock T := set_data l t.
Definition read_drop {T} (l : RwLock T) (g : ReadGuard) : res (RwLock T) :=
  read_unlock l (guard_tid g).
Definition write_drop {T} (spurious : bool) (l : RwLock T) (g : WriteGuard) : res (RwLock T) :=
  write_unlock spurious l.

(** ** Interleavings *)

(** Where a thread is inside [read] or [write]: [WCas] in the compare-exchange
    loop, [WScan n k] having seen the first [k] reader locks free, [RWait] in the
    loop on the naked read, [RAdd] before the [fetch_add], [RCheck] before the
    second look at the writer flag, [RUndo] before the [fetch_sub]; [WHeld] and
    [RHeld] own a guard.  [Poisoned] panicked in [write_unlock] with the flag
    still set, [Panicked] panicked elsewhere. *)
Inductive pc :=
| Idle
| WCas (n : nat) | WScan (n k : nat) | WHeld (n : nat) | Poisoned
| RWait (tid : nat) | RAdd (tid : nat) | RCheck (tid : nat) | RUndo (tid : nat)
| RHeld (tid : nat)
| Panicked.

(** One atomic access of a thread inside [read] or [write]. *)
Definition thread_step {T} (lp : RwLock T * pc) : RwLock T * pc :=
  let '(l, p) := lp in
  match p with
  | WCas n => if wlock l then (l, WCas n) else (set_wlock l true, WScan n 0)
  | WScan n k =>
      match take n (rlock l) !! k with
      | Some c => if c =? 0 then (l, WScan n (k + 1)) else (l, WScan n 0)
      | None => (l, WHeld n)
      end
  | RWait tid => if wlock l then (l, RWait tid) else (l, RAdd tid)
  | RAdd tid =>
      match rlock l !! tid with
      | Some c => (set_rlock l (<[tid := c + 1]> (rlock l)), RCheck tid)
      | None => (l, Panicked)
      end
  | RCheck tid => if wlock l then (l, RUndo tid) else (l, RHeld tid)
  | RUndo tid =>
      match rlock l !! tid with
      | Some c => (set_rlock l (<[tid := c - 1]> (rlock l)), RWait tid)
      | None => (l, Panicked)
      end
  | _ => (l, p)
  end.

(** The lock and its threads. *)
Record rwsys (T : Type) := mkSys { rws_lock : RwLock T; rws_pcs : list pc }.
Arguments mkSys {T} _ _.
Arguments rws_lock {T} _.
Arguments rws_pcs {T} _.

Inductive rwlabel (T : Type) :=
| LWrite (i n : nat)        (** thread [i] calls [write(n)] *)
| LRead (i tid : nat)       (** thread [i] calls [read(tid)] *)
| LRun (i : nat)            (** thread [i] makes one atomic access *)
| LPut (i : nat) (t : T)    (** thread [i] stores through its write guard *)
| LDrop (i : nat)           (** thread [i] drops its guard *)
| LDropWeak (i : nat).      (** the same, with a spurious failure *)
Arguments LWrite {T} _ _.
Arguments LRead {T} _ _.
Arguments LRun {T} _.
Arguments LPut {T} _ _.
Arguments LDrop {T} _.
Arguments LDropWeak {T} _.

(** Dropping the guard of a thread at [p]. *)
Definition drop_guard {T} (spurious : bool) (l : RwLock T) (p : pc) : option (RwLock T * pc) :=
  match p with
  | WHeld _ => match write_unlock spurious l with
               | Ret l' => Some (l', Idle)
               | _ => Some (l, Poisoned)
               end
  | RHeld tid => match read_unlock l tid with
                 | Ret l' => Some (l', Idle)
                 | _ => Some (l, Panicked)
                 end
  | _ => None
  end.

(** What a step does to the lock and the program counter of its thread. *)
Definition label_thread {T} (x : rwlabel T) : nat :=
  match x with
  | LWrite i _ | LRead i _ | LRun i | LPut i _ | LDrop i | LDropWeak i => i
  end.
Definition label_effect {T} (weak : bool) (x : rwlabel T) (l : RwLock T) (p : pc)
  : option (RwLock T * pc) :=
  match x, p with
  | LWrite _ n, Idle => Some (l, WCas n)
  | LRead _ tid, Idle => Some (l, RWait tid)
  | LRun _, _ => Some (thread_step (l, p))
  | LPut _ t, WHeld n => Some (set_data l t, p)
  | LDrop _, _ => drop_guard false l p
  | LDropWeak _, _ => if weak then drop_guard true l p else None
  | _, _ => None
  end.
Definition rw_next {T} (weak : bool) (s : rwsys T) (x : rwlabel T) : option (rwsys T) :=
  p ← rws_pcs s !! label_thread x;
  '(l', p') ← label_effect weak x (rws_lock s) p;
  Some (mkSys l' (<[label_thread x := p']> (rws_pcs s))).

Definition rw_init {T} (s : rwsys T) : Prop :=
  exists t n, s = mkSys (rw_new t) (replicate n Idle).
Definition rw_reachable {T} (weak : bool) : rwsys T -> Prop :=
  reachable rw_init (fun a b => exists x, rw_next weak a x = Some b).

(** ** Invariant *)

(** The thread is counted in the reader lock [tid]. *)
Definition counted (tid : nat) (p : pc) : bool :=
  match p with RCheck t | RUndo t | RHeld t => t =? tid | _ => false end.

(** The thread has set the writer flag. *)
Definition owns (p : pc) : bool :=
  match p with WScan _ _ | WHeld _ | Poisoned => true | _ => false end.

(** How many reader locks a writer has seen free. *)
Definition scanned (p : pc) : nat :=
  match p with WScan _ k => k | WHeld n => n | _ => 0 end.

(** [true] as 1. *)
Definition b2n (b : bool) : nat := if b then 1 else 0.

Record rw_inv {T} (s : rwsys T) : Prop := {
  rwi_len : length (rlock (rws_lock s)) = MAX_READER_THREADS;
  rwi_cnt : forall tid c, rlock (rws_lock s) !! tid = Some c ->
    c = count (counted tid) (rws_pcs s);
  rwi_own : count owns (rws_pcs s) = b2n (wlock (rws_lock s));
  rwi_scan : forall i j p tid, rws_pcs s !! i = Some p ->
    rws_pcs s !! j = Some (RHeld tid) -> scanned p <= tid;
  rwi_tid : forall j p tid, rws_pcs s !! j = Some p -> counted tid p = true ->
    tid < MAX_READER_THREADS;
}.

Lemma rw_init_inv {T} (s : rwsys T) : rw_init s -> rw_inv s.
Proof.
  intros (t & n & ->). split; cbn.
  - apply length_replicate.
  - intros tid c [-> _]%lookup_replicate. symmetry. apply count_zero.
    intros i x [-> _]%lookup_replicate. done.
  - apply count_zero. intros i x [-> _]%lookup_replicate. done.
  - intros i j p tid _ [? _]%lookup_replicate. done.
  - intros j p tid [-> _]%lookup_replicate. done.
Qed.

(** A thread moves from [p] to [p'], the lock to [l']. *)
Lemma rw_inv_update {T} (s : rwsys T) i p (l' : RwLock T) p' :
  rw_inv s -> rws_pcs s !! i = Some p ->
  length (rlock l') = MAX_READER_THREADS ->
  (forall tid c', rlock l' !! tid = Some c' ->
     exists c, rlock (rws_lock s) !! tid = Some c
       /\ c' + b2n (counted tid p) = c + b2n (counted tid p')) ->
  b2n (wlock l') + b2n (owns p) = b2n (wlock (rws_lock s)) + b2n (owns p') ->
  (forall j tid, rws_pcs s !! j = Some (RHeld tid) -> scanned p' <= tid) ->
  (forall tid, p' = RHeld tid -> p = RHeld tid \/
     forall j q, rws_pcs s !! j = Some q -> scanned q <= tid) ->
  (forall tid, counted tid p' = true -> tid < MAX_READER_THREADS) ->
  rw_inv (mkSys l' (<[i := p']> (rws_pcs s))).
Proof.
  intros [] Hp Hlen Hcnt Hown Hscan Hheld Htid. split; cbn; try done.
  - intros tid c' Hc'. destruct (Hcnt _ _ Hc') as (c & Hc & Heq).
    apply rwi_cnt0 in Hc as ->.
    pose proof (count_insert (counted tid) _ _ _ p' Hp). unfold b2n in *. lia.
  - pose proof (count_insert owns _ _ _ p' Hp). unfold b2n in *. lia.
  - intros k j q tid Hk Hj.
    destruct (decide (j = i)) as [->|Hji].
    + rewrite list_lookup_insert_eq in Hj by (by eapply lookup_lt_Some).
      injection Hj as ->. destruct (decide (k = i)) as [->|Hki].
      * rewrite list_lookup_insert_eq in Hk by (by eapply lookup_lt_Some).
        injection Hk as <-. cbn. lia.
      * rewrite list_lookup_insert_ne in Hk by done.
        destruct (Hheld tid eq_refl) as [->|Hq]; eauto.
    + rewrite list_lookup_insert_ne in Hj by done.
      destruct (decide (k = i)) as [->|Hki].
      * rewrite list_lookup_insert_eq in Hk by (by eapply lookup_lt_Some).
        injection Hk as <-. eauto.
      * rewrite list_lookup_insert_ne in Hk by done. eauto.
  - intros j q tid. destruct (decide (j = i)) as [->|Hji].
    + rewrite list_lookup_insert_eq by (by eapply lookup_lt_Some).
      intros [= <-]. apply Htid.
    + rewrite list_lookup_insert_ne by done. apply rwi_tid0.
Qed.

(** No writer has set the flag: nobody is scanning. *)
Lemma rw_free_scanned {T} (s : rwsys T) j q :
  rw_inv s -> wlock (rws_lock s) = false -> rws_pcs s !! j = Some q -> scanned q = 0.
Proof.
  intros [] Hw Hq. rewrite Hw in rwi_own0. destruct (owns q) eqn:E.
  - pose proof (count_pos owns _ _ _ Hq E). cbn in *. lia.
  - by destruct q.
Qed.

(** Changing the counter of reader lock [tid]. *)
Lemma rlock_change (rs : list nat) tid c d p p' :
  rs !! tid = Some c ->
  (forall t, t <> tid -> counted t p = counted t p') ->
  d + b2n (counted tid p) = c + b2n (counted tid p') ->
  forall t c', <[tid := d]> rs !! t = Some c' ->
  exists c0, rs !! t = Some c0 /\ c' + b2n (counted t p) = c0 + b2n (counted t p').
Proof.
  intros Hc Hne Hd t c' Ht. destruct (decide (t = tid)) as [->|Hn].
  - rewrite list_lookup_insert_eq in Ht by (by eapply lookup_lt_Some).
    injection Ht as <-. eauto.
  - rewrite list_lookup_insert_ne in Ht by done. rewrite Hne by done. eauto.
Qed.

Lemma counted_ne tid t : t <> tid ->
  counted t (RCheck tid) = false /\ counted t (RUndo tid) = false /\ counted t (RHeld tid) = false.
Proof. intros H. cbn. destruct (Nat.eqb_spec tid t); [congruence|done]. Qed.

(** The counter is unchanged and so is what the thread counts for. *)
Lemma rlock_same (rs : list nat) p p' :
  (forall t, counted t p = counted t p') ->
  forall t c', rs !! t = Some c' ->
  exists c0, rs !! t = Some c0 /\ c' + b2n (counted t p) = c0 + b2n (counted t p').
Proof. intros H t c' Ht. rewrite H. eauto. Qed.

Lemma thread_step_inv {T} (s : rwsys T) i p :
  rw_inv s -> rws_pcs s !! i = Some p ->
  let '(l', p') := thread_step (rws_lock s, p) in
  rw_inv (mkSys l' (<[i := p']> (rws_pcs s))).
Proof.
  intros Hs Hp. pose proof Hs as [].
  assert (Hsame : rw_inv (mkSys (rws_lock s) (<[i := p]> (rws_pcs s)))).
  { rewrite list_insert_id by done. by destruct s. }
  destruct p as [|n|n k|n| |tid|tid|tid|tid|tid|]; cbn; try done.
  - destruct (wlock (rws_lock s)) eqn:Ew; [done|].
    eapply rw_inv_update; eauto; cbn; rewrite ?Ew; try done; try lia; try (by apply rlock_same).
  - destruct (take n (rlock (rws_lock s)) !! k) as [c|] eqn:Ek.
    + apply lookup_take_Some in Ek as [Ek Hk].
      destruct (Nat.eqb_spec c 0) as [->|_].
      * eapply rw_inv_update; eauto; cbn; try done; try (by apply rlock_same).
        intros j tid Hj. specialize (rwi_scan0 i j _ _ Hp Hj). cbn in *.
        destruct (decide (tid = k)) as [->|]; [|lia]. apply rwi_cnt0 in Ek.
        pose proof (count_pos (counted k) _ _ _ Hj). cbn in *.
        rewrite Nat.eqb_refl in *. lia.
      * eapply rw_inv_update; eauto; cbn; try done; try lia; try (by apply rlock_same).
    + apply lookup_take_None in Ek. eapply rw_inv_update; eauto; cbn; try done; try (by apply rlock_same).
      intros j tid Hj. specialize (rwi_scan0 i j _ _ Hp Hj). cbn in *.
        assert (tid < MAX_READER_THREADS) by (apply (rwi_tid0 _ _ _ Hj), Nat.eqb_refl).
        destruct Ek as [Ek%lookup_ge_None|]; lia.
  - destruct (wlock (rws_lock s)) eqn:Ew; [done|].
    eapply rw_inv_update; eauto; cbn; rewrite ?Ew; try done; try lia; try (by apply rlock_same).
  - destruct (rlock (rws_lock s) !! tid) as [c|] eqn:Ec; eapply rw_inv_update; eauto; cbn;
      rewrite ?length_insert; try done; try lia; try (by apply rlock_same).
    + refine (rlock_change _ tid c _ (RAdd tid) (RCheck tid) Ec _ _);
        [intros t Ht; by destruct (counted_ne tid t Ht) as (-> & _)|].
      cbn. rewrite Nat.eqb_refl. cbn. lia.
    + intros t ->%Nat.eqb_eq. rewrite <- rwi_len0. by eapply lookup_lt_Some.
  - destruct (wlock (rws_lock s)) eqn:Ew; eapply rw_inv_update; eauto; cbn; rewrite ?Ew;
      try done; try lia; try (by apply rlock_same); try (by eapply rwi_tid0).
    intros t [= ->]. right. intros j q Hq. rewrite (rw_free_scanned s j q Hs Ew Hq). lia.
  - assert (Htid : tid < MAX_READER_THREADS) by (apply (rwi_tid0 _ _ _ Hp), Nat.eqb_refl).
    destruct (lookup_lt_is_Some_2 (rlock (rws_lock s)) tid) as [c Ec]; [by rewrite rwi_len0|].
    rewrite Ec. pose proof (rwi_cnt0 _ _ Ec) as Hc.
    pose proof (count_pos (counted tid) _ _ _ Hp (Nat.eqb_refl tid)).
    eapply rw_inv_update; eauto; cbn; rewrite ?length_insert; try done; try lia.
    refine (rlock_change _ tid c _ (RUndo tid) (RWait tid) Ec _ _);
      [intros t Ht; by destruct (counted_ne tid t Ht) as (_ & -> & _)|].
    cbn. rewrite Nat.eqb_refl. cbn. lia.
Qed.

Lemma drop_guard_inv {T} (s : rwsys T) i p sp l' p' :
  rw_inv s -> rws_pcs s !! i = Some p -> drop_guard sp (rws_lock s) p = Some (l', p') ->
  rw_inv (mkSys l' (<[i := p']> (rws_pcs s))).
Proof.
  intros Hs Hp. pose proof Hs as []. destruct p; cbn; try done.
  - assert (wlock (rws_lock s) = true) as Ew.
    { pose proof (count_pos owns _ _ _ Hp eq_refl).
      destruct (wlock (rws_lock s)); [done|cbn in *; lia]. }
    unfold write_unlock. rewrite Ew. destruct sp; cbn; intros [= <- <-];
      eapply rw_inv_update; eauto; cbn; rewrite ?Ew; try done; lia.
  - assert (Htid : tid < MAX_READER_THREADS) by (apply (rwi_tid0 _ _ _ Hp), Nat.eqb_refl).
    destruct (lookup_lt_is_Some_2 (rlock (rws_lock s)) tid) as [c Ec]; [by rewrite rwi_len0|].
    pose proof (rwi_cnt0 _ _ Ec).
    pose proof (count_pos (counted tid) _ _ _ Hp (Nat.eqb_refl tid)).
    unfold read_unlock. rewrite (vget_lookup _ _ _ Ec). mon.
    destruct (Nat.eqb_spec c 0); [lia|]. rewrite vset_lt by (by rewrite rwi_len0). mon.
    intros [= <- <-]. eapply rw_inv_update; eauto; cbn; rewrite ?length_insert; try done; try lia.
    refine (rlock_change _ tid c _ (RHeld tid) Idle Ec _ _);
      [intros t Ht; by destruct (counted_ne tid t Ht) as (_ & _ & ->)|].
    cbn. rewrite Nat.eqb_refl. cbn. lia.
Qed.

Lemma rw_next_inv {T} weak (s s' : rwsys T) x : rw_inv s -> rw_next weak s x = Some s' -> rw_inv s'.
Proof.
  intros Hs. unfold rw_next.
  destruct (rws_pcs s !! label_thread x) as [p|] eqn:Hp; cbn; [|done].
  destruct (label_effect weak x (rws_lock s) p) as [[l' p']|] eqn:E; cbn; [|done].
  intros [= <-]. pose proof Hs as [].
  destruct x; cbn in *.
  1-2: destruct p; try done; injection E as <- <-;
    eapply rw_inv_update; eauto; cbn; try done; lia.
  - pose proof (thread_step_inv s i p Hs Hp) as H.
    assert (thread_step (rws_lock s, p) = (l', p')) as E' by (injection E; done).
    by rewrite E' in H.
  - destruct p; try done. injection E as <- <-.
    eapply rw_inv_update; eauto; cbn; done.
  - by eapply drop_guard_inv.
  - destruct weak; [|done]. by eapply drop_guard_inv.
Qed.

Lemma rw_reachable_inv {T} weak (s : rwsys T) : rw_reachable weak s -> rw_inv s.
Proof.
  apply reachable_inv; [apply rw_init_inv|]. intros a b Ha [x Hx]. by eapply rw_next_inv.
Qed.

(** ** Mutual exclusion *)

(** C18: whatever the interleaving, at most one thread owns a write guard, and a
    writer that called [write(n)] owns its guard only while none of the readers
    with [tid < n] owns one.  This holds also if the compare-exchange of
    [write_unlock] may fail spuriously. *)
Theorem rwlock_exclusive {T} weak (s : rwsys T) i j n :
  rw_reachable weak s -> rws_pcs s !! i = Some (WHeld n) ->
  (forall m, rws_pcs s !! j = Some (WHeld m) -> i = j)
  /\ (forall tid, rws_pcs s !! j = Some (RHeld tid) -> n <= tid).
Proof.
  intros []%rw_reachable_inv Hi. split.
  - intros m Hj. destruct (decide (i = j)) as [|Hne]; [done|].
    pose proof (count_two owns _ _ _ _ _ Hne Hi Hj eq_refl eq_refl).
    destruct (wlock (rws_lock s)); cbn in *; lia.
  - intros tid Hj. exact (rwi_scan0 _ _ _ _ Hi Hj).
Qed.

(** A run of the lock with two threads: a writer and a reader that finish. *)
Definition rw_two : rwsys nat := mkSys (rw_new 0) [Idle; Idle].
Lemma rw_two_reachable weak ls s :
  run_labels (rw_next weak) rw_two ls = Some s -> rw_reachable weak s.
Proof. apply run_labels_reachable, reach_init. exists 0, 2. reflexivity. Qed.

Definition rw_write_held : list (rwlabel nat) :=
  [LRead 1 0; LRun 1; LWrite 0 1; LRun 0; LRun 1; LRun 0; LRun 1; LRun 1; LRun 0; LRun 0; LRun 0].

Lemma rwlock_exclusive_witness :
  exists s, run_labels (rw_next false) rw_two rw_write_held = Some s
    /\ rws_pcs s = [WHeld 1; RWait 0]
    /\ (forall tid, rws_pcs s !! 1 = Some (RHeld tid) -> 1 <= tid).
Proof.
  eexists. split; [vm_compute; reflexivity|]. split; [reflexivity|].
  apply (rwlock_exclusive false _ 0 1 1).
  - apply (rw_two_reachable _ rw_write_held). vm_compute; reflexivity.
  - reflexivity.
Defined.

(** While a thread owns a read guard and all writers count its reader lock
    among those they wait for ([tid < n]), no step of any thread changes the
    data. *)
Theorem rwlock_reader_stable {T} weak (s s' : rwsys T) x j tid :
  rw_reachable weak s -> rws_pcs s !! j = Some (RHeld tid) ->
  (forall i n, rws_pcs s !! i = Some (WHeld n) -> tid < n) ->
  rw_next weak s x = Some s' -> rw_data (rws_lock s') = rw_data (rws_lock s).
Proof.
  intros [_ _ _ Hscan _]%rw_reachable_inv Hj Hall. unfold rw_next.
  destruct (rws_pcs s !! label_thread x) as [p|] eqn:Hp; cbn; [|done].
  destruct (label_effect weak x (rws_lock s) p) as [[l' p']|] eqn:E; cbn; [|done].
  intros [= <-]. cbn. destruct x; cbn in *.
  1-2: destruct p; by simplify_eq.
  - unfold thread_step in E. repeat case_match; by simplify_eq.
  - destruct p; try done. pose proof (Hscan _ _ _ _ Hp Hj).
    specialize (Hall _ _ Hp). cbn in *. lia.
  - unfold drop_guard, write_unlock, read_unlock, vget, vset in E. mon.
    repeat (case_match; simplify_eq/=; try done).
  - unfold drop_guard, write_unlock, read_unlock, vget, vset in E. mon.
    repeat (case_match; simplify_eq/=; try done).
Qed.

Lemma rwlock_reader_stable_witness :
  exists s s', run_labels (rw_next false) rw_two [LRead 1 0; LRun 1; LRun 1; LRun 1] = Some s
    /\ rw_next false s (LWrite 0 1) = Some s' /\ rw_data (rws_lock s') = rw_data (rws_lock s).
Proof.
  eexists _, _. split; [vm_compute; reflexivity|]. split; [vm_compute; reflexivity|].
  apply (rwlock_reader_stable false _ _ (LWrite 0 1) 1 0).
  - apply (rw_two_reachable _ [LRead 1 0; LRun 1; LRun 1; LRun 1]). vm_compute; reflexivity.
  - reflexivity.
  - intros [|[|i]] n; cbn; discriminate.
  - vm_compute; reflexivity.
Defined.

(** The [n] passed to [write] matters: with a count that does not cover a
    reader thread, that reader and the writer own their guards at the same
    time, and the data changes under the reader. *)
Theorem rwlock_stale_count_race :
  exists (s s' : rwsys nat),
    run_labels (rw_next false) rw_two
      [LRead 1 1; LRun 1; LRun 1; LRun 1; LWrite 0 1; LRun 0; LRun 0; LRun 0] = Some s
    /\ rws_pcs s = [WHeld 1; RHeld 1]
    /\ rw_next false s (LPut 0 7) = Some s' /\ rw_data (rws_lock s') <> rw_data (rws_lock s).
Proof.
  eexists _, _. split_and!; [vm_compute; reflexivity..|]. vm_compute. discriminate.
Qed.

(** ** Panics *)

Definition pc_ok (p : pc) : Prop :=
  match p with
  | RWait tid | RAdd tid => tid < MAX_READER_THREADS
  | Poisoned | Panicked => False
  | _ => True
  end.
Definition label_ok {T} (x : rwlabel T) : Prop :=
  match x with LRead _ tid => tid < MAX_READER_THREADS | _ => True end.

Lemma label_effect_ok {T} (s : rwsys T) x p l' p' :
  rw_inv s -> rws_pcs s !! label_thread x = Some p -> pc_ok p -> label_ok x ->
  label_effect false x (rws_lock s) p = Some (l', p') -> pc_ok p'.
Proof.
  intros [] Hp Hok Hx E.
  assert (Hslot : forall tid, tid < MAX_READER_THREADS ->
            exists c, rlock (rws_lock s) !! tid = Some c).
  { intros tid Ht. apply lookup_lt_is_Some_2. by rewrite rwi_len0. }
  assert (Htid : forall tid, counted tid p = true ->
            exists c, rlock (rws_lock s) !! tid = Some c /\ 0 < c).
  { intros tid Ht. destruct (Hslot tid) as [c Hc]; [by eapply rwi_tid0|].
    exists c. split; [done|]. rewrite (rwi_cnt0 _ _ Hc). by eapply count_pos. }
  destruct x; cbn in *; [destruct p; by simplify_eq|destruct p; by simplify_eq| | | |done].
  - destruct p; cbn in *; try (repeat case_match; by simplify_eq).
    + destruct (Hslot tid Hok) as [c Hc]. rewrite Hc in E. by simplify_eq.
    + destruct (Htid tid) as (c & Hc & _); [apply Nat.eqb_refl|].
      rewrite Hc in E. simplify_eq/=. apply (rwi_tid0 _ _ _ Hp), Nat.eqb_refl.
  - destruct p; by simplify_eq.
  - destruct p; cbn in E; try done.
    + pose proof (count_pos owns _ _ _ Hp eq_refl).
      unfold write_unlock in E. destruct (wlock (rws_lock s)); cbn in *; [|lia].
      by simplify_eq.
    + destruct (Htid tid) as (c & Hc & Hpos); [apply Nat.eqb_refl|].
      unfold read_unlock in E. rewrite (vget_lookup _ _ _ Hc) in E. cbn in E.
      destruct (Nat.eqb_spec c 0); [lia|].
      rewrite vset_lt in E by (by eapply lookup_lt_Some). cbn in E. by simplify_eq.
Qed.

Lemma rw_run_ok {T} (s s' : rwsys T) ls :
  rw_inv s -> (forall i p, rws_pcs s !! i = Some p -> pc_ok p) -> Forall label_ok ls ->
  run_labels (rw_next false) s ls = Some s' ->
  forall i p, rws_pcs s' !! i = Some p -> pc_ok p.
Proof.
  revert s. induction ls as [|x ls IH]; intros s Hs Hok Hls; cbn [run_labels].
  - by intros [= <-].
  - destruct (rw_next false s x) as [s1|] eqn:E; [|done].
    inversion_clear Hls. apply IH; [by eapply rw_next_inv| |done].
    revert E. unfold rw_next.
    destruct (rws_pcs s !! label_thread x) as [p|] eqn:Hp; cbn; [|done].
    destruct (label_effect _ _ _ _) as [[l' p']|] eqn:E; cbn; [|done].
    intros [= <-] i q. cbn. intros Hq.
    apply list_lookup_insert_Some in Hq as [(<- & <- & _) | (_ & Hq)]; [|by eauto].
    eapply label_effect_ok; eauto.
Qed.

(** As long as threads use reader indices below [MAX_READER_THREADS] and the
    compare-exchange of [write_unlock] does not fail spuriously, no interleaving
    makes [read], [write] or the drop of a guard panic. *)
Theorem rwlock_no_panic {T} (t : T) k ls s i p :
  Forall label_ok ls ->
  run_labels (rw_next false) (mkSys (rw_new t) (replicate k Idle)) ls = Some s ->
  rws_pcs s !! i = Some p -> p <> Panicked /\ p <> Poisoned.
Proof.
  intros Hls Hrun Hp.
  assert (pc_ok p) by (eapply (rw_run_ok _ s ls); [| |done|done|done];
    [apply rw_init_inv; by eexists _, _|];
    intros j q [-> _]%lookup_replicate; done).
  by destruct p.
Qed.

Lemma rwlock_no_panic_witness :
  exists s, run_labels (rw_next false) (mkSys (rw_new 0) (replicate 2 Idle))
      (rw_write_held ++ [LPut 0 3; LDrop 0]) = Some s
    /\ rws_pcs s !! 0 = Some Idle /\ (Idle <> Panicked /\ Idle <> Poisoned).
Proof.
  eexists. split; [vm_compute; reflexivity|]. split; [reflexivity|].
  apply (rwlock_no_panic 0 2 (rw_write_held ++ [LPut 0 3; LDrop 0])
    (mkSys (mkRwLock false (replicate 32 0) 3) [Idle; RWait 0]) 0).
  - repeat constructor; unfold label_ok, MAX_READER_THREADS, MAX_THREADS_PER_REPLICA; lia.
  - vm_compute; reflexivity.
  - reflexivity.
Defined.

(** Where a weak compare-exchange may fail spuriously, dropping a write guard
    that is held can panic, and the writer flag then stays set. *)
Theorem rwlock_weak_unlock_panics :
  exists s : rwsys nat,
    run_labels (rw_next true) rw_two [LWrite 0 1; LRun 0; LRun 0; LRun 0; LDropWeak 0] = Some s
    /\ rws_pcs s = [Poisoned; Idle] /\ wlock (rws_lock s) = true.
Proof. eexists. split_and!; vm_compute; reflexivity. Qed.

(** ** A thread that runs alone *)

Definition solo {T} (k : nat) (lp : RwLock T * pc) : RwLock T * pc := Nat.iter k thread_step lp.

Lemma solo_succ {T} k (lp : RwLock T * pc) : solo (S k) lp = solo k (thread_step lp).
Proof. unfold solo. by rewrite Nat.iter_succ_r. Qed.

Lemma solo_fix {T} k (lp : RwLock T * pc) : thread_step lp = lp -> solo k lp = lp.
Proof. intros H. induction k as [|k IH]; [done|]. by rewrite solo_succ, H. Qed.

(** The sequential [rw_read] is what a thread alone does: it takes the read
    lock in three accesses exactly when [rw_read] returns, and stays in the
    first loop for ever exactly when [rw_read] spins. *)
Theorem rw_read_solo {T} (l : RwLock T) tid :
  tid < length (rlock l) ->
  match rw_read l tid with
  | Ret l' => solo 3 (l, RWait tid) = (l', RHeld tid)
  | Spin => forall k, solo k (l, RWait tid) = (l, RWait tid)
  | Panic _ => False
  end.
Proof.
  intros Ht. destruct (lookup_lt_is_Some_2 _ _ Ht) as [c Hc].
  unfold rw_read. destruct (wlock l) eqn:Ew.
  - intros k. apply solo_fix. cbn. by rewrite Ew.
  - rewrite (vget_lookup _ _ _ Hc). mon. rewrite vset_lt by done. mon.
    rewrite solo_succ. cbn [thread_step]. rewrite Ew.
    rewrite solo_succ. cbn [thread_step]. rewrite Hc. cbn. by rewrite Ew.
Qed.

Lemma rw_read_solo_witness :
  solo 3 (rw_new 9, RWait 4) = (set_rlock (rw_new 9) (<[4 := 1]> (replicate 32 0)), RHeld 4).
Proof.
  apply (rw_read_solo (rw_new 9) 4). cbn. rewrite length_replicate.
  unfold MAX_READER_THREADS, MAX_THREADS_PER_REPLICA. lia.
Defined.

Lemma solo_scan {T} (l : RwLock T) n k :
  (forall j c, take n (rlock l) !! j = Some c -> c = 0) -> k <= length (take n (rlock l)) ->
  solo (1 + (length (take n (rlock l)) - k)) (l, WScan n k) = (l, WHeld n).
Proof.
  intros Hz. remember (length (take n (rlock l)) - k) as m eqn:Hm.
  revert k Hm. induction m as [|m IH]; intros k Hm Hk.
  - change (1 + 0) with 1. rewrite solo_succ. cbn.
    rewrite (proj2 (lookup_ge_None (take n (rlock l)) k)) by lia. done.
  - change (1 + S m) with (S (S m)). rewrite solo_succ. cbn [thread_step].
    destruct (lookup_lt_is_Some_2 (take n (rlock l)) k) as [c Hc]; [lia|].
    rewrite Hc, (Hz _ _ Hc). cbn [Nat.eqb]. apply (IH (k + 1)); lia.
Qed.

Lemma solo_scan_blocked {T} (l : RwLock T) n z c k j :
  take n (rlock l) !! z = Some (S c) -> j <= z ->
  exists j', solo k (l, WScan n j) = (l, WScan n j').
Proof.
  intros Hz. revert j. induction k as [|k IH]; intros j Hj; [by exists j|].
  rewrite solo_succ. cbn [thread_step].
  destruct (lookup_lt_is_Some_2 (take n (rlock l)) j) as [d Hd].
  { apply lookup_lt_Some in Hz. lia. }
  rewrite Hd. destruct (Nat.eqb_spec d 0) as [->|]; [|apply IH; lia].
  apply IH. destruct (decide (j = z)) as [->|]; [congruence|lia].
Qed.

(** Likewise for [rw_write]: alone, a writer owns its guard after one access
    for the flag and one per reader lock it waits for, plus the end of the scan,
    exactly when [rw_write] returns; when [rw_write] spins it never owns it. *)
Theorem rw_write_solo {T} (l : RwLock T) n :
  match rw_write l n with
  | Ret l' => solo (2 + length (take n (rlock l))) (l, WCas n) = (l', WHeld n)
  | Spin => forall k m, (solo k (l, WCas n)).2 <> WHeld m
  | Panic _ => False
  end.
Proof.
  unfold rw_write. destruct (wlock l) eqn:Ew.
  { intros k m. rewrite solo_fix; [done|]. cbn. by rewrite Ew. }
  destruct (forallb _ _) eqn:Ea.
  - change (2 + ?x) with (S (1 + x)). rewrite solo_succ. cbn [thread_step]. rewrite Ew.
    rewrite <- (Nat.sub_0_r (length (take n (rlock l)))).
    apply (solo_scan (set_wlock l true)); [|lia].
    intros j c Hc%list_elem_of_lookup_2. rewrite forallb_forall in Ea.
    apply Nat.eqb_eq, Ea. by apply list_elem_of_In.
  - intros [|k] m; [done|]. rewrite solo_succ. cbn [thread_step]. rewrite Ew.
    apply not_true_iff_false in Ea. rewrite forallb_forall in Ea.
    destruct (decide (Exists (fun c => c <> 0) (take n (rlock l)))) as [Hex|Hno].
    + apply Exists_exists in Hex as (c & Hin & Hc).
      apply list_elem_of_In, list_elem_of_lookup_1 in Hin as [z Hz].
      destruct c as [|c]; [done|].
      destruct (solo_scan_blocked (set_wlock l true) n z c k 0 Hz) as [j' ->]; [lia|done].
    + exfalso. apply Ea. intros x Hx. apply Nat.eqb_eq.
      destruct (decide (x = 0)) as [|Hx0]; [done|]. exfalso. apply Hno, Exists_exists.
      by exists x.
Qed.

(** ** SimpleRwLock *)

(** [SimpleRwLock<T>]: -1 is a writer, 0 free, otherwise the number of readers. *)
Record SimpleRwLock (T : Type) := mkSimple { sstate : Z; sdata : T }.
Arguments mkSimple {T} _ _.
Arguments sstate {T} _.
Arguments sdata {T} _.

(** [SimpleRwLock::new]. *)
Definition simple_new {T} (t : T) : SimpleRwLock T := mkSimple 0 t.

(** [SimpleRwLock::read], run alone. *)
Definition simple_read {T} (l : SimpleRwLock T) : res (SimpleRwLock T) :=
  if (0 <=? sstate l)%Z then Ret (mkSimple (sstate l + 1) (sdata l)) else Spin.

(** [SimpleRwLock::write], run alone. *)
Definition simple_write {T} (l : SimpleRwLock T) : res (SimpleRwLock T) :=
  if (sstate l =? 0)%Z then Ret (mkSimple (-1) (sdata l)) else Spin.

(** [SimpleRwLock::read_unlock]. *)
Definition simple_read_unlock {T} (l : SimpleRwLock T) : SimpleRwLock T :=
  mkSimple (sstate l - 1) (sdata l).

(** [SimpleRwLock::write_unlock]. *)
Definition simple_write_unlock {T} (l : SimpleRwLock T) : SimpleRwLock T :=
  mkSimple 0 (sdata l).

(** Guards: [Deref], [DerefMut]; [Drop] is the unlock. *)
Definition simple_deref {T} (l : SimpleRwLock T) : T := sdata l.
Definition simple_deref_mut {T} (l : SimpleRwLock T) (t : T) : SimpleRwLock T :=
  mkSimple (sstate l) t.

(** [SLoad]: about to load the state; [SCas v]: about to exchange [v] for
    [v + 1]; [SWait]: in the loop of [write]. *)
Inductive spc := SIdle | SLoad | SCas (v : Z) | SRead | SWait | SWrite.

Definition sthread_step {T} (l : SimpleRwLock T) (p : spc) : SimpleRwLock T * spc :=
  match p with
  | SLoad => (l, if (0 <=? sstate l)%Z then SCas (sstate l) else SLoad)
  | SCas v => if (sstate l =? v)%Z then (mkSimple (v + 1) (sdata l), SRead) else (l, SLoad)
  | SWait => if (sstate l =? 0)%Z then (mkSimple (-1) (sdata l), SWrite) else (l, SWait)
  | _ => (l, p)
  end.

Inductive slabel (T : Type) :=
| SCallRead (i : nat) | SCallWrite (i : nat) | SRun (i : nat)
| SPut (i : nat) (t : T) | SDrop (i : nat).
Arguments SCallRead {T} _.
Arguments SCallWrite {T} _.
Arguments SRun {T} _.
Arguments SPut {T} _ _.
Arguments SDrop {T} _.

Definition slabel_thread {T} (x : slabel T) : nat :=
  match x with SCallRead i | SCallWrite i | SRun i | SPut i _ | SDrop i => i end.
Definition slabel_effect {T} (x : slabel T) (l : SimpleRwLock T) (p : spc)
  : option (SimpleRwLock T * spc) :=
  match x, p with
  | SCallRead _, SIdle => Some (l, SLoad)
  | SCallWrite _, SIdle => Some (l, SWait)
  | SRun _, _ => Some (sthread_step l p)
  | SPut _ t, SWrite => Some (simple_deref_mut l t, SWrite)
  | SDrop _, SRead => Some (simple_read_unlock l, SIdle)
  | SDrop _, SWrite => Some (simple_write_unlock l, SIdle)
  | _, _ => None
  end.
Definition simple_next {T} (s : SimpleRwLock T * list spc) (x : slabel T)
  : option (SimpleRwLock T * list spc) :=
  p ← s.2 !! slabel_thread x;
  '(l', p') ← slabel_effect x s.1 p;
  Some (l', <[slabel_thread x := p']> s.2).
Definition simple_reachable {T} : SimpleRwLock T * list spc -> Prop :=
  reachable (fun s => exists t n, s = (simple_new t, replicate n SIdle))
    (fun a b => exists x, simple_next a x = Some b).

Definition s_reads (p : spc) : bool := match p with SRead => true | _ => false end.
Definition s_writes (p : spc) : bool := match p with SWrite => true | _ => false end.
Definition s_casok (p : spc) : Prop := match p with SCas v => (0 <= v)%Z | _ => True end.

(** The state word is determined by the guards that exist. *)
Definition simple_inv {T} (s : SimpleRwLock T * list spc) : Prop :=
  (forall i p, s.2 !! i = Some p -> s_casok p)
  /\ ((sstate s.1 = Z.of_nat (count s_reads s.2) /\ count s_writes s.2 = 0)
      \/ (sstate s.1 = (-1)%Z /\ count s_writes s.2 = 1 /\ count s_reads s.2 = 0)).

Lemma simple_next_inv {T} (s s' : SimpleRwLock T * list spc) x :
  simple_inv s -> simple_next s x = Some s' -> simple_inv s'.
Proof.
  destruct s as [l ps]. intros [Hcas Hst]. unfold simple_next. cbn in *.
  destruct (ps !! slabel_thread x) as [p|] eqn:Hp; cbn; [|done].
  destruct (slabel_effect x l p) as [[l' p']|] eqn:E; cbn; [|done].
  intros [= <-].
  pose proof (count_insert s_reads _ _ _ p' Hp). pose proof (count_insert s_writes _ _ _ p' Hp).
  pose proof (Hcas _ _ Hp) as Hv.
  pose proof (count_pos s_reads _ _ _ Hp). pose proof (count_pos s_writes _ _ _ Hp).
  assert (Hgoal : s_casok p'
    /\ ((sstate l' = Z.of_nat (count s_reads (<[slabel_thread x := p']> ps))
         /\ count s_writes (<[slabel_thread x := p']> ps) = 0)
        \/ (sstate l' = (-1)%Z /\ count s_writes (<[slabel_thread x := p']> ps) = 1
            /\ count s_reads (<[slabel_thread x := p']> ps) = 0))).
  { destruct x, p; cbn in E; try done; repeat case_match; simplify_eq/=; bool_to_prop;
      (split; [done || lia|lia]). }
  destruct Hgoal as [Hp' Hg]. split; [|done]. cbn. intros i q Hq.
  apply list_lookup_insert_Some in Hq as [(<- & <- & _) | (_ & Hq)]; eauto.
Qed.

Lemma simple_reachable_inv {T} (s : SimpleRwLock T * list spc) :
  simple_reachable s -> simple_inv s.
Proof.
  apply reachable_inv.
  - intros ? (t & n & ->). split; cbn.
    + by intros i p [-> _]%lookup_replicate.
    + left. rewrite !count_zero; [done|..]; by intros i p [-> _]%lookup_replicate.
  - intros a b Ha [x Hx]. by eapply simple_next_inv.
Qed.

(** [SimpleRwLock] excludes: while a thread owns a write guard no other
    thread owns a guard of either kind; and the state word stays between -1 and
    the number of threads, so it cannot overflow. *)
Theorem simple_rwlock_exclusive {T} (l : SimpleRwLock T) ps :
  simple_reachable (l, ps) ->
  (-1 <= sstate l <= Z.of_nat (length ps))%Z
  /\ forall i j p, ps !! i = Some SWrite -> ps !! j = Some p -> p = SRead \/ p = SWrite -> i = j.
Proof.
  intros [_ Hst]%simple_reachable_inv. cbn in *.
  pose proof (count_le s_reads ps). split; [lia|].
  intros i j p Hi Hj Hp. destruct (decide (i = j)) as [|Hne]; [done|].
  pose proof (count_pos s_writes _ _ _ Hi eq_refl). destruct Hp as [-> | ->].
  - pose proof (count_pos s_reads _ _ _ Hj eq_refl). lia.
  - pose proof (count_two s_writes _ _ _ _ _ Hne Hi Hj eq_refl eq_refl). lia.
Qed.

Lemma simple_rwlock_exclusive_witness :
  exists l ps, run_labels simple_next (simple_new 0, [SIdle; SIdle])
      [SCallRead 1; SRun 1; SCallWrite 0; SRun 0; SRun 1] = Some (l, ps)
    /\ ps = [SWrite; SLoad] /\ (-1 <= sstate l <= Z.of_nat (length ps))%Z.
Proof.
  eexists _, _. split; [vm_compute; reflexivity|]. split; [reflexivity|].
  apply (simple_rwlock_exclusive (mkSimple (-1) 0) [SWrite; SLoad]).
  eapply (run_labels_reachable simple_next _ (simple_new 0, [SIdle; SIdle])
    [SCallRead 1; SRun 1; SCallWrite 0; SRun 0; SRun 1]).
  - apply reach_init. exists 0, 2. reflexivity.
  - vm_compute; reflexivity.
Defined.
