(* ===== verification/Flush.v ===== *)
(** * Cache-line write-back (node-replication/src/log.rs, nr/replica.rs)

    The entries of the log and the slots of the replicated structure live in
    memory that is not cache coherent between nodes; the code writes lines back
    and drops them with [clflushopt].  This file models which lines the flush
    loops touch, and the accessors of the no-coherence build on a cache in front
    of a memory.

    Addresses are integers; a cache line is 64 bytes and named by [addr / 64]. *)

From S2P Require Import Prelude.
From stdpp Require Import gmap.

Definition CACHE_LINE_SIZE : Z := 64.

(** [flush_cache_line]: the address handed to [clflushopt]. *)
Definition flush_cache_line (ptr : Z) : list Z := [ptr].

(** [flush_object]: the loop over the offsets. *)
Fixpoint flush_object_loop (fuel : nat) (base size off : Z) : list Z :=
  match fuel with
  | O => []
  | S fuel' =>
      if (off <? size)%Z then
        flush_cache_line (base + off) ++ flush_object_loop fuel' base size (off + 64)
      else []
  end.

(** [flush_object]; [size] is [size_of::<T>()].  The loop advances by a line per
    pass. *)
Definition flush_object (base size : Z) : list Z :=
  flush_object_loop (Z.to_nat (size / 64) + 2) base size 0.

(** [flush_mem_region]: the loop from [p] to [end_]. *)
Fixpoint flush_mem_loop (fuel : nat) (p end_ : Z) : list Z :=
  match fuel with
  | O => []
  | S fuel' =>
      if (p <? end_)%Z then
        flush_cache_line p ++ flush_mem_loop fuel' (p + CACHE_LINE_SIZE) end_
      else []
  end.

(** [flush_mem_region]: the addresses it flushes, in order. *)
Definition flush_mem_region (ptr size : Z) : list Z :=
  flush_mem_loop (Z.to_nat (size / 64) + 2) ptr (ptr + size).

(** The line that holds address [a]. *)
Definition line_of (a : Z) : Z := a / CACHE_LINE_SIZE.

(** Every byte of [ptr .. ptr + size) is in a line that was flushed. *)
Definition covers (flushed : list Z) (ptr size : Z) : Prop :=
  forall a, (ptr <= a < ptr + size)%Z -> exists q, q ∈ flushed /\ line_of q = line_of a.

(** ** The flush loops *)

(** The addresses [p, p + 64, ...] below [e]. *)
Definition strides (p e : Z) (xs : list Z) : Prop :=
  forall q, q ∈ xs <-> exists k, (0 <= k)%Z /\ q = (p + 64 * k)%Z /\ (q < e)%Z.

Lemma flush_mem_loop_strides fuel p e :
  (e - p < 64 * Z.of_nat fuel)%Z -> strides p e (flush_mem_loop fuel p e).
Proof.
  revert p; induction fuel as [|fuel IH]; intros p Hf q; cbn [flush_mem_loop].
  - rewrite elem_of_nil. split; [done|]. intros (k & ? & -> & ?). lia.
  - destruct (Z.ltb_spec p e) as [Hp|Hp].
    + unfold flush_cache_line. rewrite elem_of_app, list_elem_of_singleton.
      unfold CACHE_LINE_SIZE.
      pose proof (IH (p + 64)%Z ltac:(lia) q) as Hq. rewrite Hq. split.
      * intros [-> | (k & ? & -> & ?)]; [exists 0%Z; lia|exists (k + 1)%Z; lia].
      * intros (k & Hk & -> & Hlt). destruct (decide (k = 0%Z)) as [->|Hk0]; [left; lia|].
        right. exists (k - 1)%Z. lia.
    + rewrite elem_of_nil. split; [done|]. intros (k & ? & -> & ?). lia.
Qed.

Lemma flush_mem_region_strides ptr size :
  strides ptr (ptr + size) (flush_mem_region ptr size).
Proof.
  apply flush_mem_loop_strides.
  pose proof (Z.div_mod size 64). pose proof (Z.mod_pos_bound size 64).
  destruct (decide (0 <= size)%Z); lia.
Qed.

Lemma flush_object_loop_region fuel base size off :
  flush_object_loop fuel base size off = flush_mem_loop fuel (base + off) (base + size).
Proof.
  revert off; induction fuel as [|fuel IH]; intros off; [done|]. cbn.
  replace (base + off <? base + size)%Z with (off <? size)%Z
    by (destruct (Z.ltb_spec off size), (Z.ltb_spec (base + off) (base + size)); lia || done).
  rewrite IH. unfold CACHE_LINE_SIZE. by rewrite Z.add_assoc.
Qed.

Lemma flush_object_region base size : flush_object base size = flush_mem_region base size.
Proof. unfold flush_object. by rewrite flush_object_loop_region, Z.add_0_r. Qed.

(** The strides from [p] hit the lines of all bytes exactly when the last stride
    and the last byte share a line. *)
Lemma strides_cover p size xs :
  (0 < size)%Z -> strides p (p + size) xs ->
  covers xs p size <-> (p mod 64 + (size - 1) mod 64 < 64)%Z.
Proof.
  intros Hs Hxs. unfold covers, line_of, CACHE_LINE_SIZE.
  assert (Hm : (size - 1 = 64 * ((size - 1) / 64) + (size - 1) mod 64)%Z) by (apply Z.div_mod; lia).
  assert (Hp : (p = 64 * (p / 64) + p mod 64)%Z) by (apply Z.div_mod; lia).
  pose proof (Z.mod_pos_bound (size - 1) 64). pose proof (Z.mod_pos_bound p 64).
  split.
  - intros Hcov. destruct (Hcov (p + size - 1)%Z) as (q & Hq & E); [lia|].
    apply Hxs in Hq as (k & Hk & -> & Hlt).
    assert (k <= (size - 1) / 64)%Z by (apply Z.div_le_lower_bound; lia).
    replace (p + 64 * k)%Z with (p + k * 64)%Z in E by lia.
    rewrite Z.div_add in E by lia.
    assert (Hlast : ((p + size - 1) / 64 <= p / 64 + (size - 1) / 64)%Z) by lia.
    assert ((p + size - 1) < 64 * ((p + size - 1) / 64) + 64)%Z.
    { pose proof (Z.mod_pos_bound (p + size - 1) 64).
      pose proof (Z.div_mod (p + size - 1) 64). lia. }
    lia.
  - intros H1 a Ha. set (k := (a / 64 - p / 64)%Z).
    assert (Hka : (p / 64 <= a / 64)%Z) by (apply Z.div_le_mono; lia).
    assert (Hkl : (a / 64 <= p / 64 + (size - 1) / 64)%Z).
    { transitivity ((p + (size - 1)) / 64)%Z; [apply Z.div_le_mono; lia|].
      replace (p + (size - 1))%Z
        with ((p mod 64 + (size - 1) mod 64) + (p / 64 + (size - 1) / 64) * 64)%Z by lia.
      rewrite Z.div_add by lia. rewrite (Z.div_small (_ + _)) by lia. lia. }
    exists (p + 64 * k)%Z. split.
    + apply Hxs. exists k. split_and!; [lia|done|]. subst k.
      assert (64 * (a / 64 - p / 64) <= size - 1)%Z by lia. lia.
    + replace (p + 64 * k)%Z with (p + k * 64)%Z by lia. rewrite Z.div_add by lia. lia.
Qed.

(** For a cache-line aligned object [flush_object] flushes every line the
    object spans. *)
Theorem flush_object_covers base size :
  (0 < size)%Z -> (base mod 64 = 0)%Z -> covers (flush_object base size) base size.
Proof.
  intros Hs Hb. rewrite flush_object_region.
  apply (strides_cover _ _ _ Hs (flush_mem_region_strides base size)).
  rewrite Hb. pose proof (Z.mod_pos_bound (size - 1) 64). lia.
Qed.

Lemma flush_object_covers_witness :
  covers (flush_object 128 192) 128 192 /\ flush_object 128 192 = [128; 192; 256]%Z.
Proof.
  split; [|vm_compute; reflexivity].
  apply (flush_object_covers 128 192); [lia|reflexivity].
Defined.

(** [flush_mem_region] flushes every line of its region if and only if the
    region does not run over a line boundary more often than its size alone
    would: [ptr mod 64 + (size - 1) mod 64 < 64].  An unaligned region can keep
    its last line in the cache. *)
Theorem flush_mem_region_covers ptr size :
  (0 < size)%Z ->
  covers (flush_mem_region ptr size) ptr size <-> (ptr mod 64 + (size - 1) mod 64 < 64)%Z.
Proof. intros Hs. apply strides_cover; [done|apply flush_mem_region_strides]. Qed.

Lemma flush_mem_region_covers_witness :
  covers (flush_mem_region 64 128) 64 128 /\ ~ covers (flush_mem_region 32 64) 32 64.
Proof.
  split.
  - apply (flush_mem_region_covers 64 128); [lia|reflexivity].
  - intros H. apply (flush_mem_region_covers 32 64) in H; [|lia].
    vm_compute in H. discriminate H.
Defined.

(** ** The accessors of the no-coherence build *)

(** A node's cache in front of the shared memory: one word per line (the atomics
    are [CachePadded]), [cache] holding the lines the node has a copy of, with a
    dirty flag. *)
Record memsys := mkMem { mem : gmap Z nat; cache : gmap Z (nat * bool) }.

(** [clflushopt]: write the line back if dirty and drop it. *)
Definition clflush (m : memsys) (a : Z) : memsys :=
  let k := line_of a in
  match cache m !! k with
  | Some (v, true) => mkMem (<[k := v]> (mem m)) (delete k (cache m))
  | _ => mkMem (mem m) (delete k (cache m))
  end.

(** A load through the cache. *)
Definition cached_load (m : memsys) (a : Z) : nat * memsys :=
  let k := line_of a in
  match cache m !! k with
  | Some (v, _) => (v, m)
  | None => let v := default 0 (mem m !! k) in
            (v, mkMem (mem m) (<[k := (v, false)]> (cache m)))
  end.

(** A store: it stays in the cache. *)
Definition cached_store (m : memsys) (a : Z) (v : nat) : memsys :=
  mkMem (mem m) (<[line_of a := (v, true)]> (cache m)).

(** [load_with_flush]: [input] is the address of the atomic, [var] the address
    of the parameter [input] itself, the reference on the stack of the callee;
    [&input] in the code is the latter. *)
Definition load_with_flush (m : memsys) (var input : Z) : nat * memsys :=
  cached_load (clflush m var) input.

(** [store_with_flush]. *)
Definition store_with_flush (m : memsys) (var input : Z) (update : nat) : memsys :=
  clflush (cached_store m input update) var.

(** [fetch_max_with_flush]. *)
Definition fetch_max_with_flush (m : memsys) (var input : Z) (update : nat) : memsys :=
  let '(v, m1) := cached_load (clflush m var) input in
  clflush (cached_store m1 input (Nat.max v update)) var.

(** [load_with_flush_bool]; [true] is the word 1. *)
Definition load_with_flush_bool (m : memsys) (var input : Z) : bool * memsys :=
  let '(v, m1) := cached_load (clflush m var) input in (negb (v =? 0), m1).

Lemma clflush_other m a b :
  line_of a <> line_of b -> cache (clflush m a) !! line_of b = cache m !! line_of b
  /\ mem (clflush m a) !! line_of b = mem m !! line_of b.
Proof.
  intros H. unfold clflush. destruct (cache m !! line_of a) as [[v [|]]|]; cbn;
    rewrite ?lookup_delete_ne, ?lookup_insert_ne by done; done.
Qed.

Lemma cached_load_hit m a v b : cache m !! line_of a = Some (v, b) -> (cached_load m a).1 = v.
Proof. intros H. unfold cached_load. by rewrite H. Qed.

(** The flush of [load_with_flush] and [store_with_flush] is applied to the
    line of the local reference and not to that of the atomic.  As long as the
    two are different lines, a load returns the copy the node already has,
    whatever the memory holds, and a store does not reach the memory. *)
Theorem with_flush_misses_atomic m var input v b :
  line_of var <> line_of input -> cache m !! line_of input = Some (v, b) ->
  (load_with_flush m var input).1 = v
  /\ forall u, mem (store_with_flush m var input u) !! line_of input = mem m !! line_of input.
Proof.
  intros Hne Hc. split.
  - unfold load_with_flush. apply (cached_load_hit _ _ _ b).
    by rewrite (proj1 (clflush_other m var input Hne)).
  - intros u. unfold store_with_flush. by rewrite (proj2 (clflush_other _ var input Hne)).
Qed.

Lemma with_flush_misses_atomic_witness :
  let m := mkMem {[ 2%Z := 8 ]} {[ 2%Z := (5, false) ]} in
  (load_with_flush m 4096 128).1 = 5
  /\ forall u, mem (store_with_flush m 4096 128 u) !! line_of 128 = Some 8.
Proof.
  intros m.
  destruct (with_flush_misses_atomic m 4096 128 5 false) as [H1 H2].
  - vm_compute. discriminate.
  - vm_compute. reflexivity.
  - split; [exact H1|]. intros u. rewrite H2. vm_compute. reflexivity.
Defined.

(** What the accessors are meant to do: flushing the line of the atomic itself. *)
Lemma flush_input_fresh m input :
  (forall v, cache m !! line_of input <> Some (v, true)) ->
  (load_with_flush m input input).1 = default 0 (mem m !! line_of input)
  /\ forall u, mem (store_with_flush m input input u) !! line_of input = Some u.
Proof.
  intros Hclean. unfold load_with_flush, store_with_flush, cached_load, cached_store, clflush.
  split.
  - destruct (cache m !! line_of input) as [[v [|]]|] eqn:E; cbn.
    + by destruct (Hclean v).
    + by rewrite lookup_delete_eq.
    + by rewrite lookup_delete_eq.
  - intros u. cbn. rewrite lookup_insert_eq. cbn. by rewrite lookup_insert_eq.
Qed.
