(* ===== verification/Replica.v ===== *)
(** * Replicas and flat combining (node-replication/src/nr/replica.rs)

    A replica owns one copy of the data structure behind a readers-writer lock,
    one context per registered thread, and the token under which it appears in
    the log.  A thread enqueues its operation and tries to become the combiner,
    who collects the operations of all threads, appends them to the log, replays
    the log on the local copy and hands the responses back.

    The functions are those of one thread running without interference; the
    replica and the log are passed along.  [flushed] records, in order, the
    addresses handed to [clflushopt] on behalf of operations of other nodes. *)

From S2P Require Import Prelude Context Log NrLog RwLock Flush.

(** nr/mod.rs: the traits [Dispatch] and [IdxGetter]; [resp_eqb] is the
    [PartialEq] of the responses. *)
Class Dispatch (D RO WO R : Type) := {
  dispatch : D -> RO -> res R;
  dispatch_mut : D -> WO -> res (D * R);
  cn_idx : R -> Z;
  resp_eqb : R -> R -> bool;
}.

(** [ReplicaError]; the combiner lock that [NoLogSpace] carries is the fact that
    [combiner] stays set. *)
Inductive ReplicaError :=
| NoLogSpace (rid : nat)
| GcFailed (rid : nat).

(** [Debug::fmt] of [ReplicaError]: the variant it prints and the replica. *)
Definition replica_error_fmt (e : ReplicaError) : string * nat :=
  match e with
  | NoLogSpace rid => ("ReplicaError::NoLogSpace", rid)
  | GcFailed rid => ("ReplicaError::GcFailed", rid)
  end.

(** [Spinlock]. *)
Record Spinlock := mkSpinlock { spin_word : nat }.
Definition spinlock_new : Spinlock := mkSpinlock 0.
Definition spinlock_lock (l : Spinlock) : res Spinlock :=
  if spin_word l =? 0 then Ret (mkSpinlock 1) else Spin.
Definition spinlock_unlock (l : Spinlock) : Spinlock := mkSpinlock 0.

(** [LockedHashSet<T>]: the set as a list without order. *)
Definition LockedHashSet (T : Type) := RwLock (list T).
Definition locked_set_new {T} : LockedHashSet T := rw_new [].
Definition locked_set_read {T} (s : LockedHashSet T) (tid : nat) : res (LockedHashSet T) :=
  rw_read s tid.
Definition locked_set_write {T} (s : LockedHashSet T) (n : nat) : res (LockedHashSet T) :=
  rw_write s n.

(** [HashSet::contains] and [HashSet::remove]. *)
Definition set_contains {T} (eqb : T -> T -> bool) (s : list T) (x : T) : bool :=
  existsb (eqb x) s.
Definition set_remove {T} (eqb : T -> T -> bool) (s : list T) (x : T) : bool * list T :=
  (set_contains eqb s x, List.filter (fun y => negb (eqb x y)) s).

(** [Replica<D>]. *)
Record Replica (D WO R : Type) := mkReplica {
  log_tkn : nat;
  combiner : nat;
  r_next : nat;
  change_notif : list Z;
  contexts : list (Context WO R unit);
  buffer : list WO;
  inflight : list nat;
  r_result : list R;
  response_set : LockedHashSet R;
  r_data : RwLock D;
  base_addr : Z;
  slot_size : Z;
  flushed : list Z;
}.
Arguments mkReplica {D WO R} _ _ _ _ _ _ _ _ _ _ _ _ _.
Arguments log_tkn {D WO R} _.
Arguments combiner {D WO R} _.
Arguments r_next {D WO R} _.
Arguments change_notif {D WO R} _.
Arguments contexts {D WO R} _.
Arguments buffer {D WO R} _.
Arguments inflight {D WO R} _.
Arguments r_result {D WO R} _.
Arguments response_set {D WO R} _.
Arguments r_data {D WO R} _.
Arguments base_addr {D WO R} _.
Arguments slot_size {D WO R} _.
Arguments flushed {D WO R} _.

Section Fields.
Context {D WO R : Type}.
Implicit Type p : Replica D WO R.

Definition set_combiner p (v : nat) : Replica D WO R :=
  mkReplica (log_tkn p) v (r_next p) (change_notif p) (contexts p) (buffer p) (inflight p)
    (r_result p) (response_set p) (r_data p) (base_addr p) (slot_size p) (flushed p).
Definition set_r_next p (v : nat) : Replica D WO R :=
  mkReplica (log_tkn p) (combiner p) v (change_notif p) (contexts p) (buffer p) (inflight p)
    (r_result p) (response_set p) (r_data p) (base_addr p) (slot_size p) (flushed p).
Definition set_notif p (v : list Z) : Replica D WO R :=
  mkReplica (log_tkn p) (combiner p) (r_next p) v (contexts p) (buffer p) (inflight p)
    (r_result p) (response_set p) (r_data p) (base_addr p) (slot_size p) (flushed p).
Definition set_contexts p (v : list (Context WO R unit)) : Replica D WO R :=
  mkReplica (log_tkn p) (combiner p) (r_next p) (change_notif p) v (buffer p) (inflight p)
    (r_result p) (response_set p) (r_data p) (base_addr p) (slot_size p) (flushed p).
Definition set_scratch p (b : list WO) (i : list nat) (r : list R) : Replica D WO R :=
  mkReplica (log_tkn p) (combiner p) (r_next p) (change_notif p) (contexts p) b i
    r (response_set p) (r_data p) (base_addr p) (slot_size p) (flushed p).
Definition set_response_set p (v : LockedHashSet R) : Replica D WO R :=
  mkReplica (log_tkn p) (combiner p) (r_next p) (change_notif p) (contexts p) (buffer p)
    (inflight p) (r_result p) v (r_data p) (base_addr p) (slot_size p) (flushed p).
Definition set_r_data p (v : RwLock D) : Replica D WO R :=
  mkReplica (log_tkn p) (combiner p) (r_next p) (change_notif p) (contexts p) (buffer p)
    (inflight p) (r_result p) (response_set p) v (base_addr p) (slot_size p) (flushed p).
Definition set_flushed p (v : list Z) : Replica D WO R :=
  mkReplica (log_tkn p) (combiner p) (r_next p) (change_notif p) (contexts p) (buffer p)
    (inflight p) (r_result p) (response_set p) (r_data p) (base_addr p) (slot_size p) v.

(** [Replica::with_data_base_addr]. *)
Definition with_data_base_addr (tkn : LogToken) (d : D) (addr s_size : Z) : Replica D WO R :=
  mkReplica tkn 0 1 (replicate MAX_THREADS_PER_REPLICA (-1)%Z)
    (replicate MAX_THREADS_PER_REPLICA (context_default tt)) []
    (replicate MAX_THREADS_PER_REPLICA 0) [] locked_set_new (rw_new d) addr s_size [].

(** [Replica::with_data]. *)
Definition replica_with_data (tkn : LogToken) (d : D) : Replica D WO R :=
  mkReplica tkn 0 1 (replicate MAX_THREADS_PER_REPLICA (-1)%Z)
    (replicate MAX_THREADS_PER_REPLICA (context_default tt)) []
    (replicate MAX_THREADS_PER_REPLICA 0) [] locked_set_new (rw_new d) 0 0 [].

(** [Replica::new] ([dflt] is [D::default()]), [Replica::new_with_data],
    [Replica::new_with_data_base_addr]. *)
Definition replica_new (tkn : LogToken) (dflt : D) : Replica D WO R := replica_with_data tkn dflt.
Definition replica_new_with_data (tkn : LogToken) (d : D) : Replica D WO R :=
  replica_with_data tkn d.
Definition replica_new_with_data_base_addr (tkn : LogToken) (d : D) (addr s : Z) : Replica D WO R :=
  with_data_base_addr tkn d addr s.

(** [Replica::register], run alone: the compare-exchange succeeds. *)
Definition replica_register p : option nat * Replica D WO R :=
  let idx := r_next p in
  if MAX_THREADS_PER_REPLICA <? idx then (None, p)
  else (Some idx, set_r_next p (idx + 1)).

(** [CombinerLock::drop]. *)
Definition combiner_unlock p : Replica D WO R := set_combiner p 0.

(** [acquire_combiner_lock]: four looks at the word, then the exchange. *)
Definition acquire_combiner_lock p : option (Replica D WO R) :=
  if existsb (fun _ => negb (combiner p =? 0)) (seq 0 4) then None
  else if combiner p =? 0 then Some (set_combiner p 1) else None.

(** [make_pending]. *)
Definition make_pending p (o : WO) (idx : nat) : res (bool * Replica D WO R) :=
  i ← usub idx 1;
  c ← vget (contexts p) i;
  '(b, c') ← enqueue c o tt;
  cs ← vset (contexts p) i c';
  Ret (b, set_contexts p cs).

(** [check_notification_reset]. *)
Definition check_notification_reset p (idx : nat) : res (bool * Replica D WO R) :=
  i ← usub idx 1;
  current ← vget (change_notif p) i;
  ns ← vset (change_notif p) i (-1)%Z;
  Ret (negb (current =? -1)%Z, set_notif p ns).
End Fields.

Section Ops.
Context {D RO WO R : Type} `{!Dispatch D RO WO R}.
Abbreviation rep := (Replica D WO R).
Abbreviation log := (Log WO unit unit).
Implicit Types (p : rep) (l : log) (f : feature).

(** The state the closures of [combine] work on: the data behind the write
    guard, the notification words, the collected responses and the trace. *)
Record cstate := mkC {
  cs_data : D;
  cs_notif : list Z;
  cs_results : list R;
  cs_flushed : list Z;
}.

(** [combine]: the loop over [change_notif.iter().take(n)]. *)
Definition notify (n : nat) (idx : Z) (notif : list Z) : list Z :=
  ((fun e => if (e =? idx)%Z && negb (idx =? -1)%Z then (-1)%Z else e) <$> take n notif)
  ++ drop n notif.

(** [combine]: the address of a slot, [base_addr.add(idx as usize * slot_size)],
    in 64-bit arithmetic. *)
Definition region_ptr p (idx : Z) : Z := (base_addr p + idx * slot_size p) mod 2 ^ 64.

(** [combine]: the closure passed to [append] and to [exec]; [n] is the number
    of registered threads read at the start. *)
Definition combine_closure f p (n : nat) (s : cstate) (o : WO) (mine : bool) : res cstate :=
  '(d', resp) ← dispatch_mut (cs_data s) o;
  let idx := cn_idx resp in
  let notif' := notify n idx (cs_notif s) in
  if mine then Ret (mkC d' notif' (cs_results s ++ [resp]) (cs_flushed s))
  else
    let fl := match f with
              | Scr => if (idx =? -1)%Z then [] else flush_mem_region (region_ptr p idx) (slot_size p)
              | Coherent => []
              end in
    Ret (mkC d' notif' (cs_results s) (cs_flushed s ++ fl)).

(** [collect_thread_ops]: one thread. *)
Definition collect_step p (acc : list WO * list nat) (i : nat) : res (list WO * list nat) :=
  let '(buf, ops) := acc in
  c ← vget (contexts p) (i - 1);
  '(len, xs) ← ctx_collect c;
  ops' ← vset ops (i - 1) len;
  Ret (buf ++ xs.*1, ops').

(** [collect_thread_ops]. *)
Definition collect_thread_ops p (buf : list WO) (ops : list nat) : res (list WO * list nat) :=
  foldM (collect_step p) (buf, ops) (seq 1 (r_next p - 1)).

(** [combine]: handing the responses [s..f] to thread [i]. *)
Definition deliver_step (results : list R)
    (acc : (nat * nat) * list (Context WO R unit) * list nat) (i : nat)
  : res ((nat * nat) * list (Context WO R unit) * list nat) :=
  let '((s, e), cs, ops) := acc in
  k ← vget ops (i - 1);
  if k =? 0 then Ret acc
  else
    let e' := e + k in
    rs ← vslice results s e';
    c ← vget cs (i - 1);
    c' ← enqueue_resps c rs;
    cs' ← vset cs (i - 1) c';
    ops' ← vset ops (i - 1) 0;
    Ret ((s + k, e'), cs', ops').

(** Taking the write guard of [data] for a computation on the closure state and
    dropping it. *)
Definition with_write {A} p (n : nat) (s : list R)
    (k : cstate -> res (A * cstate)) : res (A * rep) :=
  d ← rw_write (r_data p) n;
  '(a, s') ← k (mkC (rw_data d) (change_notif p) s (flushed p));
  d' ← write_unlock false (set_data d (cs_data s'));
  let p' := set_flushed (set_notif (set_r_data p d') (cs_notif s')) (cs_flushed s') in
  Ret (a, set_scratch p' (buffer p') (inflight p') (cs_results s')).

(** [combine]; the caller holds the combiner lock, which is released unless the
    result is [NoLogSpace].  [n] is [num_registered_threads], read first;
    [collect_thread_ops] reads the number of threads again. *)
Definition combine_at f p l (n : nat) : res (result unit ReplicaError * rep * log) :=
  '(buf, ops) ← collect_thread_ops p [] (inflight p);
  let p0 := set_scratch p buf ops [] in
  '(rl, p1) ← with_write p0 n [] (fun s =>
      '(r, l', s') ← append f l buf (log_tkn p) (combine_closure f p n) s;
      Ret ((r, l'), s'));
  let '(r, l1) := rl in
  match r with
  | Err rid => Ret (Err (NoLogSpace rid), p1, l1)
  | Ok g =>
      let res := match g with None => Ok tt | Some rid => Err (GcFailed rid) end in
      '(l2, p2) ← with_write p1 n (r_result p1) (fun s =>
          exec f l1 (log_tkn p) (combine_closure f p n) s);
      '(_, cs, ops') ← foldM (deliver_step (r_result p2)) ((0, 0), contexts p2, inflight p2)
                          (seq 1 (n - 1));
      let p3 := set_scratch (set_contexts p2 cs) (buffer p2) ops' (r_result p2) in
      Ret (res, combiner_unlock p3, l2)
  end.

(** The usual case: no thread registers between the two reads. *)
Definition combine f p l : res (result unit ReplicaError * rep * log) :=
  combine_at f p l (r_next p).

(** [try_combine]. *)
Definition try_combine f p l : res (result unit ReplicaError * rep * log) :=
  match acquire_combiner_lock p with
  | Some p' => combine f p' l
  | None => Ret (Ok tt, p, l)
  end.

(** [get_response]: the loop body.  [interval] is [1 << 29]. *)
Definition interval : N := 2 ^ 29.
Definition get_response_body f (idx : nat) (st : N * rep * log)
  : res ((N * rep * log) + (result R ReplicaError * rep * log)) :=
  let '(iter, p, l) := st in
  i ← usub idx 1;
  c ← vget (contexts p) i;
  '(o, c') ← ctx_res c;
  cs ← vset (contexts p) i c';
  let p1 := set_contexts p cs in
  match o with
  | Some resp => Ret (inr (Ok resp, p1, l))
  | None =>
      let iter' := (iter + 1)%N in
      if (iter' =? interval)%N then
        '(r, p2, l2) ← try_combine f p1 l;
        match r with
        | Err e => Ret (inr (Err e, p2, l2))
        | Ok _ => Ret (inl (0%N, p2, l2))
        end
      else Ret (inl (iter', p1, l))
  end.

(** [get_response].  Alone, a thread gets its response at the latest right after
    its own round of combining; if that leaves it without one, nothing changes
    any more. *)
Definition get_response f p l (idx : nat) : res (result R ReplicaError * rep * log) :=
  rloop (2 ^ 30) (get_response_body f idx) (0%N, p, l).

(** [execute_mut].  [while !make_pending(..) {}] spins when the context is full. *)
Definition replica_execute_mut f p l (o : WO) (idx : nat)
  : res (result R ReplicaError * rep * log) :=
  '(b, p1) ← make_pending p o idx;
  if (b : bool) then
    '(r, p2, l2) ← try_combine f p1 l;
    match r with
    | Err e => Ret (Err e, p2, l2)
    | Ok _ => get_response f p2 l2 idx
    end
  else Spin.

(** [execute_mut_locked]. *)
Definition replica_execute_mut_locked f p l (o : WO) (idx : nat)
  : res (result R ReplicaError * rep * log) :=
  '(r, p2, l2) ← combine f p l;
  match r with
  | Err e => Ret (Err e, p2, l2)
  | Ok _ => get_response f p2 l2 idx
  end.

(** The loop [while !is_replica_synced_for_reads { try_combine? }].  One round of
    combining synchronises the replica; if the combiner lock is taken nothing
    changes, so more than two looks make no difference to a thread alone. *)
Fixpoint read_sync_loop (fuel : nat) f p l (ctail : nat)
  : res (result unit ReplicaError * rep * log) :=
  b ← is_replica_synced_for_reads l (log_tkn p) ctail;
  if (b : bool) then Ret (Ok tt, p, l)
  else match fuel with
       | 0 => Spin
       | Datatypes.S fuel' =>
           '(r, p2, l2) ← try_combine f p l;
           match r with
           | Err e => Ret (Err e, p2, l2)
           | Ok _ => read_sync_loop fuel' f p2 l2 ctail
           end
       end.
Definition read_sync f p l (ctail : nat) : res (result unit ReplicaError * rep * log) :=
  read_sync_loop 2 f p l ctail.

(** [self.data.read(idx.tid() - 1).dispatch(op)]: take the guard, dispatch, drop. *)
Definition read_dispatch p (o : RO) (idx : nat) : res (R * rep) :=
  i ← usub idx 1;
  d ← rw_read (r_data p) i;
  resp ← dispatch (rw_data d) o;
  d' ← read_unlock d i;
  Ret (resp, set_r_data p d').

(** [execute]. *)
Definition replica_execute f p l (o : RO) (idx : nat) : res (result R ReplicaError * rep * log) :=
  let ctail := get_ctail l in
  '(r, p1, l1) ← read_sync f p l ctail;
  match r with
  | Err e => Ret (Err e, p1, l1)
  | Ok _ => '(resp, p2) ← read_dispatch p1 o idx; Ret (Ok resp, p2, l1)
  end.

(** [change_notif[idx - 1].store(response.cn_idx())]. *)
Definition anchor p (resp : R) (idx : nat) : res rep :=
  i ← usub idx 1;
  ns ← vset (change_notif p) i (cn_idx resp);
  Ret (set_notif p ns).

(** [execute_anchor]. *)
Definition replica_execute_anchor f p l (o : RO) (idx : nat)
  : res (result R ReplicaError * rep * log) :=
  let ctail := get_ctail l in
  '(r, p1, l1) ← read_sync f p l ctail;
  match r with
  | Err e => Ret (Err e, p1, l1)
  | Ok _ =>
      '(resp, p2) ← read_dispatch p1 o idx;
      p3 ← anchor p2 resp idx;
      Ret (Ok resp, p3, l1)
  end.

(** [execute_loose]. *)
Definition replica_execute_loose p (o : RO) (idx : nat) : res (result R ReplicaError * rep) :=
  '(resp, p') ← read_dispatch p o idx; Ret (Ok resp, p').

(** [sync_for_read]; dropping a [NoLogSpace] error releases the lock in it. *)
Definition sync_for_read f p l : res (rep * log) :=
  '(r, p', l') ← read_sync f p l (get_ctail l);
  Ret (match r with Err (NoLogSpace _) => combiner_unlock p' | _ => p' end, l').

(** [execute_locked], up to the read: the replica is brought up to date under the
    combiner lock handed in, which is released either way unless combining
    fails for lack of space. *)
Definition locked_sync f p l : res (result unit ReplicaError * rep * log) :=
  let ctail := get_ctail l in
  b ← is_replica_synced_for_reads l (log_tkn p) ctail;
  '(r, p1, l1) ← (if (b : bool) then Ret (Ok tt, p, l) else combine f p l);
  match r with
  | Err e => Ret (Err e, p1, l1)
  | Ok _ =>
      b' ← is_replica_synced_for_reads l1 (log_tkn p1) ctail;
      _ ← rassert b' "assertion failed: slog.is_replica_synced_for_reads(&self.log_tkn, ctail)";
      (* the lock that was not handed to [combine] lives until the end *)
      read_sync f p1 l1 ctail
  end.

(** [execute_locked]. *)
Definition replica_execute_locked f p l (o : RO) (idx : nat)
  : res (result R ReplicaError * rep * log) :=
  '(r, p1, l1) ← locked_sync f p l;
  match r with
  | Err e => Ret (Err e, p1, l1)
  | Ok _ => '(resp, p2) ← read_dispatch p1 o idx; Ret (Ok resp, combiner_unlock p2, l1)
  end.

(** [execute_locked_anchor]. *)
Definition replica_execute_locked_anchor f p l (o : RO) (idx : nat)
  : res (result R ReplicaError * rep * log) :=
  '(r, p1, l1) ← locked_sync f p l;
  match r with
  | Err e => Ret (Err e, p1, l1)
  | Ok _ =>
      '(resp, p2) ← read_dispatch p1 o idx;
      p3 ← anchor p2 resp idx;
      Ret (Ok resp, combiner_unlock p3, l1)
  end.

(** [check_coherence]. *)
Definition check_coherence p (resp : R) (idx : nat) : res (bool * rep) :=
  i ← usub idx 1;
  s ← locked_set_read (response_set p) i;
  let b := negb (set_contains resp_eqb (rw_data s) resp) in
  s' ← read_unlock s i;
  Ret (b, set_response_set p s').

(** [check_coherence_reset]. *)
Definition check_coherence_reset p (resp : R) : res (bool * rep) :=
  s ← locked_set_write (response_set p) (r_next p);
  let '(removed, rs) := set_remove resp_eqb (rw_data s) resp in
  s' ← write_unlock false (set_data s rs);
  Ret (negb removed, set_response_set p s').

(** [reset_coherence]. *)
Definition reset_coherence p (resp : R) : res rep :=
  s ← locked_set_write (response_set p) (r_next p);
  s' ← write_unlock false (set_data s (set_remove resp_eqb (rw_data s) resp).2);
  Ret (set_response_set p s').

(** [exec]: the closure. *)
Definition sync_closure (d : D) (o : WO) (mine : bool) : res D :=
  '(d', _resp) ← dispatch_mut d o;
  if mine then Panic "Ups -- we just lost a result?" else Ret d'.

(** [exec]. *)
Definition replica_exec f p l : res (rep * log) :=
  let next := r_next p in
  d ← rw_write (r_data p) next;
  '(l', v) ← exec f l (log_tkn p) sync_closure (rw_data d);
  d' ← write_unlock false (set_data d v);
  Ret (set_r_data p d', l').

(** [try_sync]. *)
Definition try_sync f p l : res (rep * log) :=
  match acquire_combiner_lock p with
  | Some p' => '(p1, l1) ← replica_exec f p' l; Ret (combiner_unlock p1, l1)
  | None => Ret (p, l)
  end.

(** [sync]; as in [read_sync_loop], two rounds are as good as any number. *)
Fixpoint sync_loop (fuel : nat) f p l (ctail : nat) : res (rep * log) :=
  b ← is_replica_synced_for_reads l (log_tkn p) ctail;
  if (b : bool) then Ret (p, l)
  else match fuel with
       | 0 => Spin
       | Datatypes.S fuel' => '(p', l') ← try_sync f p l; sync_loop fuel' f p' l' ctail
       end.
Definition replica_sync f p l : res (rep * log) := sync_loop 2 f p l (get_ctail l).

(** [verify]: the value [v] computes from the data. *)
Definition verify_closure (d : D) (o : WO) (mine : bool) : res D :=
  '(d', _resp) ← dispatch_mut d o; Ret d'.
Definition replica_verify {A} f p l (v : D -> A) : res (A * rep * log) :=
  if combiner p =? 0 then
    let p1 := set_combiner p (MAX_THREADS_PER_REPLICA + 2) in
    d ← rw_write (r_data p1) (r_next p1);
    '(l', x) ← exec f l (log_tkn p1) verify_closure (rw_data d);
    let a := v x in
    let p2 := set_combiner p1 0 in
    d' ← write_unlock false (set_data d x);
    Ret (a, set_r_data p2 d', l')
  else Spin.
End Ops.

Arguments cstate : clear implicits.
