(* ===== verification/ReplicaSpec.v ===== *)
(** * Flat combining computes the responses of the sequential object

    The specification of a replica is the data structure itself, run
    sequentially over the operations of the log ([seq_run]).  [combine_at_run]
    describes one round of combining exactly; the theorems below read off it
    that every thread gets the responses of its own operations, in its order,
    at their positions in the log, that a failed round changes nothing but the
    replica's progress, and which cache lines are written back. *)

From S2P Require Import Prelude Context Log NrLog RwLock Flush Replica.

Section Seq.
Context {D RO WO R : Type} `{!Dispatch D RO WO R}.

(** ** The sequential object *)

Definition seq_step (acc : D * list R) (o : WO) : res (D * list R) :=
  '(d', r) ← dispatch_mut acc.1 o; Ret (d', acc.2 ++ [r]).

(** The state and the responses after a sequence of operations. *)
Definition seq_run (d : D) (os : list WO) : res (D * list R) := foldM seq_step (d, []) os.

Lemma seq_step_eq d rs o :
  seq_step (d, rs) o = '(d', r) ← dispatch_mut d o; Ret (d', rs ++ [r]).
Proof. done. Qed.

Lemma seq_fold_acc os d rs :
  foldM seq_step (d, rs) os = '(d', rs') ← seq_run d os; Ret (d', rs ++ rs').
Proof.
  unfold seq_run. revert d rs. induction os as [|o os IH]; intros d rs; cbn.
  - by rewrite app_nil_r.
  - rewrite !seq_step_eq. destruct (dispatch_mut d o) as [[d1 r1]| |]; cbn; [|done|done].
    rewrite (IH d1 (rs ++ [r1])), (IH d1 [r1]).
    destruct (foldM seq_step (d1, []) os) as [[d2 rs2]| |]; cbn; [|done|done].
    by rewrite <- app_assoc.
Qed.

Lemma seq_run_app d xs ys :
  seq_run d (xs ++ ys)
  = '(d1, r1) ← seq_run d xs; '(d2, r2) ← seq_run d1 ys; Ret (d2, r1 ++ r2).
Proof.
  unfold seq_run at 1. rewrite foldM_app. fold (seq_run d xs).
  destruct (seq_run d xs) as [[d1 r1]| |]; cbn; [|done|done].
  by rewrite seq_fold_acc.
Qed.

Lemma seq_run_cons d o os :
  seq_run d (o :: os)
  = '(d1, r1) ← dispatch_mut d o; '(d2, r2) ← seq_run d1 os; Ret (d2, r1 :: r2).
Proof.
  unfold seq_run at 1. cbn. rewrite seq_step_eq.
  destruct (dispatch_mut d o) as [[d1 r1]| |]; cbn; [|done|done].
  by rewrite seq_fold_acc.
Qed.

Lemma seq_run_length d os d' rs : seq_run d os = Ret (d', rs) -> length rs = length os.
Proof.
  revert d d' rs. induction os as [|o os IH]; intros d d' rs.
  - by intros [= _ <-].
  - rewrite seq_run_cons. destruct (dispatch_mut d o) as [[d1 r1]| |]; cbn; [|done|done].
    destruct (seq_run d1 os) as [[d2 r2]| |] eqn:E; cbn; [|done|done].
    intros [= <- <-]. cbn. by rewrite (IH _ _ _ E).
Qed.

(** A run that returns can be cut anywhere. *)
Lemma seq_run_split d xs ys d' rs :
  seq_run d (xs ++ ys) = Ret (d', rs) ->
  exists d1 r1 r2, seq_run d xs = Ret (d1, r1) /\ seq_run d1 ys = Ret (d', r2)
    /\ rs = r1 ++ r2 /\ length r1 = length xs.
Proof.
  rewrite seq_run_app. destruct (seq_run d xs) as [[d1 r1]| |] eqn:E1; cbn; [|done|done].
  destruct (seq_run d1 ys) as [[d2 r2]| |] eqn:E2; cbn; [|done|done].
  intros [= <- <-]. exists d1, r1, r2. split_and!; try done. by eapply seq_run_length.
Qed.

(** ** Replaying with the closure of [combine] *)

(** The responses of the operations of [xs] tagged [idx]. *)
Fixpoint own_resps (idx : LogToken) (xs : list (WO * LogToken)) (rs : list R) : list R :=
  match xs, rs with
  | (_, k) :: xs', r :: rs' => if k =? idx then r :: own_resps idx xs' rs' else own_resps idx xs' rs'
  | _, _ => []
  end.

(** The cache lines written back for a response to a remote operation. *)
Definition slot_flush (f : feature) (p : Replica D WO R) (r : R) : list Z :=
  match f with
  | Scr => if (cn_idx r =? -1)%Z then []
           else flush_mem_region (region_ptr p (cn_idx r)) (slot_size p)
  | Coherent => []
  end.

(** The same for all operations of [xs] not tagged [idx]. *)
Fixpoint remote_flush f p (idx : LogToken) (xs : list (WO * LogToken)) (rs : list R) : list Z :=
  match xs, rs with
  | (_, k) :: xs', r :: rs' =>
      (if k =? idx then [] else slot_flush f p r) ++ remote_flush f p idx xs' rs'
  | _, _ => []
  end.

(** The notification words after the responses [rs]. *)
Definition notify_all (n : nat) (rs : list R) (notif : list Z) : list Z :=
  foldl (fun ns r => notify n (cn_idx r) ns) notif rs.

Lemma length_notify_all n rs notif : length (notify_all n rs notif) = length notif.
Proof.
  revert notif. induction rs as [|r rs IH]; intros notif; [done|].
  unfold notify_all in *. cbn. rewrite IH. unfold notify. rewrite length_app, length_fmap, length_take, length_drop. lia.
Qed.

Lemma combine_closure_step f p n s o mine d1 r1 :
  dispatch_mut (cs_data s) o = Ret (d1, r1) ->
  combine_closure f p n s o mine
  = Ret (mkC d1 (notify n (cn_idx r1) (cs_notif s))
           (cs_results s ++ if mine then [r1] else [])
           (cs_flushed s ++ if mine then [] else slot_flush f p r1)).
Proof.
  intros E. unfold combine_closure. rewrite E. cbn.
  destruct mine; by rewrite ?app_nil_r.
Qed.

Lemma replay_combine f p n idx xs s d' rs :
  seq_run (cs_data s) xs.*1 = Ret (d', rs) ->
  replay (combine_closure f p n) idx s xs
  = Ret (mkC d' (notify_all n rs (cs_notif s)) (cs_results s ++ own_resps idx xs rs)
           (cs_flushed s ++ remote_flush f p idx xs rs)).
Proof.
  revert s d' rs. induction xs as [|[o k] xs IH]; intros s d' rs.
  - intros [= <- <-]. cbn. rewrite !app_nil_r. by destruct s.
  - cbn [fmap list_fmap fst]. rewrite seq_run_cons.
    destruct (dispatch_mut (cs_data s) o) as [[d1 r1]| |] eqn:E1; cbn; [|done|done].
    destruct (seq_run d1 (fst <$> xs)) as [[d2 r2]| |] eqn:E2; cbn; [|done|done].
    intros [= <- <-]. unfold replay. cbn [foldM fst snd].
    rewrite (combine_closure_step _ _ _ _ _ _ _ _ E1). mon.
    etransitivity; [by apply IH|]. cbn. rewrite <- !app_assoc. by destruct (k =? idx).
Qed.

(** Operations of other replicas only. *)
Lemma own_resps_remote idx xs rs :
  (forall i o, xs !! i <> Some (o, idx)) -> own_resps idx xs rs = [].
Proof.
  revert rs. induction xs as [|[o k] xs IH]; intros [|r rs] H; cbn; try done.
  destruct (Nat.eqb_spec k idx) as [->|]; [by destruct (H 0 o)|].
  apply IH. intros i o'. apply (H (S i)).
Qed.

Lemma own_resps_app idx xs ys rs1 rs2 :
  length rs1 = length xs ->
  own_resps idx (xs ++ ys) (rs1 ++ rs2) = own_resps idx xs rs1 ++ own_resps idx ys rs2.
Proof.
  revert rs1. induction xs as [|[o k] xs IH]; intros [|r rs1] H; cbn in *; try done.
  rewrite IH by lia. by destruct (k =? idx).
Qed.

Lemma own_resps_tagged idx os rs :
  length rs = length os -> own_resps idx (tagged idx os) rs = rs.
Proof.
  revert rs. induction os as [|o os IH]; intros [|r rs] H; cbn in *; try done.
  rewrite Nat.eqb_refl. f_equal. apply IH. lia.
Qed.

Lemma remote_flush_app f p idx xs ys rs1 rs2 :
  length rs1 = length xs ->
  remote_flush f p idx (xs ++ ys) (rs1 ++ rs2)
  = remote_flush f p idx xs rs1 ++ remote_flush f p idx ys rs2.
Proof.
  revert rs1. induction xs as [|[o k] xs IH]; intros [|r rs1] H; cbn in *; try done.
  rewrite IH by lia. by rewrite app_assoc.
Qed.

Lemma remote_flush_tagged f p idx os rs : remote_flush f p idx (tagged idx os) rs = [].
Proof.
  revert rs. induction os as [|o os IH]; intros [|r rs]; cbn; try done.
  by rewrite Nat.eqb_refl, IH.
Qed.

Lemma tagged_fst idx (os : list WO) : (tagged idx os).*1 = os.
Proof. induction os as [|o os IH]; cbn; [done|]. by f_equal. Qed.
End Seq.

(** ** Collecting operations and delivering responses *)

Section Contexts.
Context {D RO WO R : Type} `{!Dispatch D RO WO R}.
Implicit Types (cs : list (Context WO R unit)).
Implicit Types (pq : nat -> list (WO * unit)) (rq : nat -> list R).

(** Thread [i] (counting from 0) has the pending operations [pq i] and the
    responses [rq i] it has not picked up. *)
Definition ctxs_rep cs pq rq : Prop :=
  length cs = MAX_THREADS_PER_REPLICA
  /\ forall i c, cs !! i = Some c -> ctx_rep c (pq i) (rq i).

(** The operations of the first [k] threads, thread by thread. *)
Definition all_ops pq (k : nat) : list WO := concat ((fun i => (pq i).*1) <$> seq 0 k).

(** The responses of thread [i] in the responses [rs] to all operations. *)
Definition chunk pq (rs : list R) (i : nat) : list R :=
  take (length (pq i)) (drop (length (all_ops pq i)) rs).

(** Delivered: the pending operations of the first [k] threads are answered. *)
Definition pq_done pq (k : nat) : nat -> list (WO * unit) :=
  fun i => if i <? k then [] else pq i.
Definition rq_done pq rq (rs : list R) (k : nat) : nat -> list R :=
  fun i => if i <? k then rq i ++ chunk pq rs i else rq i.

Lemma all_ops_S pq k : all_ops pq (S k) = all_ops pq k ++ (pq k).*1.
Proof.
  unfold all_ops. rewrite seq_snoc, fmap_app, concat_app. cbn. by rewrite app_nil_r.
Qed.

Lemma ctx_collect_run (c : Context WO R unit) p r :
  ctx_rep c p r -> ctx_collect c = Ret (length p, p).
Proof.
  intros Hrep. pose proof Hrep as []. unfold ctx_collect, ctx_iter. cbn zeta.
  destruct (Nat.ltb_spec (ctx_tail c) (ctx_comb c)); [lia|]. mon.
  unfold iter_len. cbn [it_h it_t]. rewrite usub_le by lia. mon.
  replace (ctx_tail c - ctx_comb c) with (length p) by lia.
  pose proof (iter_drain_rep c p r 0 (S (length p)) Hrep) as Hd.
  rewrite Nat.add_0_r in Hd. rewrite Hd by lia. mon. by rewrite drop_0.
Qed.

Lemma collect_run (p : Replica D WO R) pq rq k buf ops :
  ctxs_rep (contexts p) pq rq -> k <= MAX_THREADS_PER_REPLICA ->
  length ops = MAX_THREADS_PER_REPLICA ->
  foldM (collect_step p) (buf, ops) (seq 1 k)
  = Ret (buf ++ all_ops pq k, ((fun i => length (pq i)) <$> seq 0 k) ++ drop k ops).
Proof.
  intros [Hlen Hctx] Hk Hops. induction k as [|k IH].
  - cbn. by rewrite app_nil_r, drop_0.
  - rewrite seq_snoc, foldM_app, IH by lia. mon. cbn [foldM]. unfold collect_step.
    replace (1 + k - 1) with k by lia.
    destruct (lookup_lt_is_Some_2 (contexts p) k) as [c Hc]; [lia|].
    rewrite (vget_lookup _ _ _ Hc). mon. rewrite (ctx_collect_run _ _ _ (Hctx _ _ Hc)). mon.
    rewrite vset_lt by (rewrite length_app, length_fmap, length_seq, length_drop; lia). mon.
    do 2 f_equal; [by rewrite all_ops_S, app_assoc|].
    rewrite seq_snoc, fmap_app. cbn [fmap list_fmap].
    destruct (lookup_lt_is_Some_2 ops k) as [x Hx]; [lia|].
    rewrite (drop_S ops x k Hx), insert_app_r_alt by (rewrite length_fmap, length_seq; lia).
    rewrite length_fmap, length_seq, Nat.sub_diag. cbn. by rewrite <- app_assoc.
Qed.

Lemma ctxs_rep_update cs pq rq i c' p' r' :
  ctxs_rep cs pq rq -> ctx_rep c' p' r' ->
  ctxs_rep (<[i := c']> cs) (fun j => if j =? i then p' else pq j)
    (fun j => if j =? i then r' else rq j).
Proof.
  intros [Hlen Hctx] Hc'. split; [by rewrite length_insert|].
  intros j c Hj. apply list_lookup_insert_Some in Hj as [(<- & <- & _) | (Hne & Hj)].
  - by rewrite Nat.eqb_refl.
  - destruct (Nat.eqb_spec j i); [congruence|]. by apply Hctx.
Qed.

Lemma ctxs_rep_ext cs pq rq pq' rq' :
  ctxs_rep cs pq rq -> (forall i, i < MAX_THREADS_PER_REPLICA -> pq i = pq' i /\ rq i = rq' i) ->
  ctxs_rep cs pq' rq'.
Proof.
  intros [Hlen Hctx] Heq. split; [done|]. intros i c Hc.
  destruct (Heq i) as [<- <-]; [|by apply Hctx].
  rewrite <- Hlen. by eapply lookup_lt_Some.
Qed.

Lemma length_all_ops_le pq j k : j <= k -> length (all_ops pq j) <= length (all_ops pq k).
Proof.
  induction 1 as [|k _ IH]; [done|]. rewrite all_ops_S, length_app. lia.
Qed.

(** Thread by thread, [deliver_step] hands out the chunks. *)
Lemma deliver_run (rs : list R) pq rq cs ops k n :
  ctxs_rep cs pq rq -> k <= n -> n <= MAX_THREADS_PER_REPLICA ->
  length ops = MAX_THREADS_PER_REPLICA ->
  (forall i, i < n -> ops !! i = Some (length (pq i))) ->
  length rs = length (all_ops pq n) ->
  exists cs' ops', foldM (deliver_step rs) ((0, 0), cs, ops) (seq 1 k)
    = Ret ((length (all_ops pq k), length (all_ops pq k)), cs', ops')
    /\ ctxs_rep cs' (pq_done pq k) (rq_done pq rq rs k)
    /\ length ops' = MAX_THREADS_PER_REPLICA
    /\ (forall i, k <= i -> i < n -> ops' !! i = Some (length (pq i))).
Proof.
  intros Hctx Hkn Hn Hlo Hops Hrs. induction k as [|k IH].
  - exists cs, ops. split_and!; [done| |done|auto].
    by eapply ctxs_rep_ext.
  - destruct IH as (cs1 & ops1 & Hf & Hctx1 & Hlo1 & Hops1); [lia|].
    rewrite seq_snoc, foldM_app, Hf. mon. cbn [foldM]. unfold deliver_step.
    replace (1 + k - 1) with k by lia.
    rewrite (vget_lookup _ _ _ (Hops1 k ltac:(lia) ltac:(lia))). mon.
    pose proof (length_all_ops_le pq (S k) n Hkn) as Hle.
    rewrite all_ops_S, length_app, length_fmap in Hle |- *.
    destruct (Nat.eqb_spec (length (pq k)) 0) as [H0|H0].
    + mon. rewrite H0, Nat.add_0_r. eexists _, _. split_and!; [done| |done|].
      * eapply ctxs_rep_ext; [done|]. intros i Hi. unfold pq_done, rq_done, chunk.
        destruct (Nat.ltb_spec i k), (Nat.ltb_spec i (S k)); try done; try lia.
        assert (i = k) as -> by lia. rewrite H0. cbn. rewrite app_nil_r.
        split; [|done]. by destruct (pq k).
      * intros i ??. apply Hops1; lia.
    + rewrite vslice_ok by lia. mon.
      destruct Hctx1 as [Hlen1 Hc1].
      destruct (lookup_lt_is_Some_2 cs1 k) as [c Hc]; [lia|].
      rewrite (vget_lookup _ _ _ Hc). mon.
      replace (length (all_ops pq k) + length (pq k) - length (all_ops pq k))
        with (length (pq k)) by lia. fold (chunk pq rs k).
      assert (Hch : length (chunk pq rs k) = length (pq k)).
      { unfold chunk. rewrite length_take, length_drop. lia. }
      pose proof (Hc1 _ _ Hc) as Hrep. unfold pq_done, rq_done in Hrep.
      rewrite Nat.ltb_irrefl in Hrep.
      destruct (enqueue_resps_fold_rep c (pq k) [] (rq k) (chunk pq rs k))
        as (c' & He & Hrep'); [done|by rewrite app_nil_r|].
      unfold enqueue_resps. rewrite Hch. destruct (Nat.eqb_spec (length (pq k)) 0); [lia|].
      rewrite take_ge by lia. rewrite He. mon.
      rewrite vset_lt by lia. mon. rewrite vset_lt by lia. mon.
      eexists _, _. split_and!; [done| |by rewrite length_insert|].
      * eapply ctxs_rep_ext; [apply (ctxs_rep_update _ _ _ k _ _ _ (conj Hlen1 Hc1) Hrep')|].
        intros i Hi. unfold pq_done, rq_done. cbn beta.
        destruct (Nat.eqb_spec i k) as [->|].
        { destruct (Nat.ltb_spec k (S k)); [done|lia]. }
        destruct (Nat.ltb_spec i k), (Nat.ltb_spec i (S k)); try done; lia.
      * intros i ??. rewrite list_lookup_insert_ne by lia. apply Hops1; lia.
Qed.
End Contexts.

(** ** The invariant of a replica *)

Section RepInv.
Context {D RO WO R : Type} `{!Dispatch D RO WO R}.
Abbreviation rep := (Replica D WO R).
Abbreviation log := (Log WO unit unit).
Implicit Types (p : rep) (l : log) (f : feature) (hist : list (WO * LogToken)).
Implicit Types (pq : nat -> list (WO * unit)) (rq : nat -> list R).

(** Replica [p] of a log with history [hist] that started from [d0]: it has
    replayed the first [t] operations, all of its own among them; its data is
    what the sequential object makes of these; no guard is out; its threads have
    the pending operations [pq] and the unclaimed responses [rq]. *)
Record rep_inv (d0 : D) p l hist (t : nat) pq rq : Prop := {
  ri_tail : at_tail l (log_tkn p) t;
  ri_data : exists d rs, seq_run d0 (take t hist).*1 = Ret (d, rs) /\ r_data p = rw_new d;
  ri_own : forall i o, hist !! i = Some (o, log_tkn p) -> i < t;
  ri_next : 1 <= r_next p <= S MAX_THREADS_PER_REPLICA;
  ri_ctxs : ctxs_rep (contexts p) pq rq;
  ri_inflight : length (inflight p) = MAX_THREADS_PER_REPLICA;
  ri_notif : length (change_notif p) = MAX_THREADS_PER_REPLICA;
  ri_set : response_set p = locked_set_new;
}.

(** What an operation on a replica never changes. *)
Record rep_frame p p' : Prop := {
  rf_tkn : log_tkn p' = log_tkn p;
  rf_next : r_next p' = r_next p;
  rf_set : response_set p' = response_set p;
  rf_base : base_addr p' = base_addr p;
  rf_slot : slot_size p' = slot_size p;
}.

Lemma rw_new_write n (d : D) : n <= S MAX_THREADS_PER_REPLICA ->
  rw_write (rw_new d) n = Ret (set_wlock (rw_new d) true).
Proof.
  intros _. unfold rw_write. cbn [wlock rw_new].
  assert (forallb (fun c => c =? 0) (take n (rlock (rw_new d))) = true) as ->; [|done].
  apply forallb_forall. intros x Hx%list_elem_of_In. cbn [rlock rw_new] in Hx.
  rewrite take_replicate in Hx. apply elem_of_replicate in Hx as [-> _]. done.
Qed.

(** A computation under the write guard of a quiescent replica. *)
Lemma with_write_run {A} p d n s (k : cstate D R -> res (A * cstate D R)) a s' :
  r_data p = rw_new d -> n <= S MAX_THREADS_PER_REPLICA ->
  k (mkC d (change_notif p) s (flushed p)) = Ret (a, s') ->
  with_write p n s k = Ret (a,
    mkReplica (log_tkn p) (combiner p) (r_next p) (cs_notif s') (contexts p) (buffer p)
      (inflight p) (cs_results s') (response_set p) (rw_new (cs_data s')) (base_addr p)
      (slot_size p) (cs_flushed s')).
Proof.
  intros Hd Hn Hk. unfold with_write. rewrite Hd, rw_new_write by done. mon.
  cbn [rw_data set_wlock rw_new]. rewrite Hk. mon. unfold write_unlock. cbn. done.
Qed.

Lemma all_ops_bound cs pq rq k :
  ctxs_rep cs pq rq -> k <= MAX_THREADS_PER_REPLICA -> length (all_ops pq k) <= GC_FROM_HEAD.
Proof.
  intros [Hlen Hctx] Hk.
  assert (length (all_ops pq k) <= k * MAX_PENDING_OPS).
  { induction k as [|k IH]; [done|]. rewrite all_ops_S, length_app, length_fmap.
    destruct (lookup_lt_is_Some_2 cs k) as [c Hc]; [lia|].
    pose proof (rep_cap _ _ _ (Hctx _ _ Hc)). specialize (IH ltac:(lia)). lia. }
  unfold GC_FROM_HEAD. nia.
Qed.

(** The state of the closure when combining starts. *)
Definition cs_init p (d : D) : cstate D R := mkC d (change_notif p) [] (flushed p).

(** The replica once a round has left the closure in state [s]. *)
Definition combined p (b : list WO) (i : list nat) (cs : list (Context WO R unit))
    (cb : nat) (s : cstate D R) : rep :=
  mkReplica (log_tkn p) cb (r_next p) (cs_notif s) cs b i (cs_results s)
    (response_set p) (rw_new (cs_data s)) (base_addr p) (slot_size p) (cs_flushed s).

Lemma behind_synced f l hist idx t k :
  log_inv f l hist -> at_tail l idx t -> behind l idx k -> behind (synced l (idx - 1)) idx k.
Proof.
  intros Hinv Hat (Hne & u & Hu & Hlt). split; [done|]. exists u. split; [|done].
  rewrite (synced_registered l idx t) by (apply Hinv || done). by rewrite decide_False.
Qed.

(** One round of combining: [ops] are the pending operations of all threads; [n - 1] of
    the threads were registered when the round began. *)
Lemma combine_at_run f p l n hist t pq rq d sf :
  let ops := all_ops pq (r_next p - 1) in
  log_inv f l hist -> at_tail l (log_tkn p) t -> r_data p = rw_new d ->
  1 <= r_next p <= S MAX_THREADS_PER_REPLICA -> 1 <= n <= r_next p ->
  ctxs_rep (contexts p) pq rq -> length (inflight p) = MAX_THREADS_PER_REPLICA ->
  replay (combine_closure f p n) (log_tkn p) (cs_init p d)
    (drop t (hist ++ tagged (log_tkn p) ops)) = Ret sf ->
  length (cs_results sf) = length ops ->
  exists r b i l', log_frame (log_tkn p) l l' /\ length i = MAX_THREADS_PER_REPLICA /\
    ((exists k t' s', r = Err (NoLogSpace k)
       /\ combine_at f p l n = Ret (r, combined p b i (contexts p) (combiner p) s', l')
       /\ log_inv f l' hist /\ at_tail l' (log_tkn p) t' /\ t' = length hist
       /\ replayed (combine_closure f p n) (log_tkn p) hist t (cs_init p d) t' s'
       /\ behind l' (log_tkn p) k)
     \/ (exists cs, (r = Ok tt \/ exists k, r = Err (GcFailed k) /\ behind l' (log_tkn p) k)
       /\ combine_at f p l n = Ret (r, combined p b i cs 0 sf, l')
       /\ log_inv f l' (hist ++ tagged (log_tkn p) ops)
       /\ at_tail l' (log_tkn p) (length hist + length ops)
       /\ ctxs_rep cs (pq_done pq (n - 1)) (rq_done pq rq (cs_results sf) (n - 1)))).
Proof.
  intros ops Hinv Hat Hd Hnext Hn Hctx Hinf Hrep Hres. unfold combine_at. cbn zeta.
  unfold collect_thread_ops. rewrite (collect_run p pq rq) by (done || lia). mon.
  cbn [app]. fold ops. set (inf := _ ++ drop _ _).
  assert (Hinf' : length inf = MAX_THREADS_PER_REPLICA).
  { subst inf. rewrite length_app, length_fmap, length_seq, length_drop. lia. }
  destruct (append_run (combine_closure f p n) f l hist (log_tkn p) ops t
              (cs_init p d) sf Hinv Hat) as (r & l1 & t1 & s1 & Eapp & Hat1 & Hfr1 & Hr).
  { eapply all_ops_bound; [done|lia]. }
  { done. }
  rewrite (with_write_run (set_scratch p ops inf []) d n [] _ (r, l1) s1);
    [|done|lia|cbn beta; unfold cs_init in Eapp; cbn [change_notif flushed set_scratch]; by rewrite Eapp].
  mon. destruct r as [g|k].
  - destruct Hr as (Hinv1 & Hrep1 & Hg).
    assert (Ht1 : t1 <= length (hist ++ tagged (log_tkn p) ops)).
    { destruct Hat1 as [_ Ht1]. pose proof (inv_ltails _ _ _ Hinv1 _ _ Ht1).
      pose proof (inv_ctail _ _ _ Hinv1). pose proof (inv_tail _ _ _ Hinv1). lia. }
    pose proof (replayed_rest _ _ _ _ _ _ _ _ Ht1 Hrep1 Hrep) as Hrest.
    destruct (exec_to_end (combine_closure f p n) f l1 _ _ _ _ _ Hinv1 Hat1 Hrest)
      as (Hex & Hinv2 & Hat2 & _ & _).
    match goal with |- context [with_write ?q _ _ _] => set (p1 := q) end.
    rewrite (with_write_run p1 (cs_data s1) n _ _ (synced l1 (log_tkn p - 1)) sf);
      [|done|lia|by destruct s1].
    mon. cbn [contexts inflight r_result].
    destruct (deliver_run (cs_results sf) pq rq (contexts p) inf (n - 1) (r_next p - 1))
      as (cs & ops' & Hdel & Hctx' & Hlo' & _); try done; try lia.
    { intros i Hi. subst inf. rewrite lookup_app_l by (rewrite length_fmap, length_seq; lia).
      rewrite list_lookup_fmap, lookup_seq_lt by lia. done. }
    subst p1. cbn [set_scratch contexts inflight r_next]. rewrite Hdel. mon.
    eexists _, ops, ops', _. split; [|split; [done|right; exists cs]].
    { eapply log_frame_trans; [done|apply synced_frame]. }
    split_and!; [|done|done| |done].
    + destruct g as [k|]; [right|by left]. exists k. split; [done|].
      eapply behind_synced; eauto.
    + rewrite (inv_tail _ _ _ Hinv1), length_app, length_tagged in Hat2. done.
  - destruct Hr as (Hinv1 & Hrep1 & Hb & Ht1).
    eexists _, ops, inf, l1. split; [done|]. split; [done|]. left.
    exists k, t1, s1. by split_and!.
Qed.

(** ** One round of combining, against the sequential object *)

(** [r] says that the pending operations were appended. *)
Definition appended (r : result unit ReplicaError) : bool :=
  match r with Err (NoLogSpace _) => false | _ => true end.

(** The closure over the rest of the log, in terms of the sequential object. *)
Lemma replay_rest f p n d0 hist t d rs0 d' rs' :
  t <= length hist -> seq_run d0 (take t hist).*1 = Ret (d, rs0) ->
  seq_run d0 hist.*1 = Ret (d', rs') ->
  (forall i o, hist !! i = Some (o, log_tkn p) -> i < t) ->
  replay (combine_closure f p n) (log_tkn p) (cs_init p d) (drop t hist)
  = Ret (mkC d' (notify_all n (drop t rs') (change_notif p)) []
           (flushed p ++ remote_flush f p (log_tkn p) (drop t hist) (drop t rs'))).
Proof.
  intros Ht Hd Hrun Hown. rewrite <- (take_drop t hist), fmap_app in Hrun.
  destruct (seq_run_split _ _ _ _ _ Hrun) as (d1 & r1 & r2 & E1 & E2 & -> & Hl).
  rewrite Hd in E1. injection E1 as <- <-.
  assert (Hdrop : drop t (rs0 ++ r2) = r2).
  { rewrite length_fmap, length_take in Hl. rewrite drop_app_ge by lia.
    replace (t - length rs0) with 0 by lia. apply drop_0. }
  rewrite Hdrop. rewrite (replay_combine f p n _ _ _ d' r2) by done. cbn. f_equal. f_equal.
  apply own_resps_remote. intros i o Hi. rewrite lookup_drop in Hi.
  apply Hown in Hi. lia.
Qed.

Lemma combine_at_inv f d0 p l n hist t pq rq d' rs' :
  let ops := all_ops pq (r_next p - 1) in
  log_inv f l hist -> rep_inv d0 p l hist t pq rq -> 1 <= n <= r_next p ->
  seq_run d0 (hist.*1 ++ ops) = Ret (d', rs') ->
  exists r p' l', combine_at f p l n = Ret (r, p', l')
    /\ log_frame (log_tkn p) l l' /\ rep_frame p p'
    /\ let hist' := if appended r then hist ++ tagged (log_tkn p) ops else hist in
       log_inv f l' hist'
       /\ rep_inv d0 p' l' hist' (length hist')
            (if appended r then pq_done pq (n - 1) else pq)
            (if appended r then rq_done pq rq (drop (length hist) rs') (n - 1) else rq)
       /\ combiner p' = (if appended r then 0 else combiner p)
       /\ (forall k, r = Err (NoLogSpace k) \/ r = Err (GcFailed k) -> behind l' (log_tkn p) k)
       /\ change_notif p' = notify_all n (drop t (take (length hist') rs')) (change_notif p)
       /\ flushed p' = flushed p ++ remote_flush f p (log_tkn p) (drop t hist') (drop t rs').
Proof.
  intros ops Hinv Hrep Hn Hrun. pose proof Hrep as [Hat (d & rs0 & Hd0 & Hd) Hown Hnext Hctx Hinf Hnot Hset].
  assert (Ht : t <= length hist).
  { destruct Hat as [_ Ht]. pose proof (inv_ltails _ _ _ Hinv _ _ Ht).
    pose proof (inv_ctail _ _ _ Hinv). pose proof (inv_tail _ _ _ Hinv). lia. }
  destruct (seq_run_split _ _ _ _ _ Hrun) as (dh & rh & ro & Eh & Eo & Hrs & Hlh).
  rewrite length_fmap in Hlh. pose proof (seq_run_length _ _ _ _ Eo) as Hlo.
  pose proof (replay_rest f p n _ _ _ _ _ _ _ Ht Hd0 Eh Hown) as Hrh.
  set (sh := mkC _ _ _ _) in Hrh.
  assert (Hro : replay (combine_closure f p n) (log_tkn p) (cs_init p d)
      (drop t (hist ++ tagged (log_tkn p) ops))
    = Ret (mkC d' (notify_all n (drop t rs') (change_notif p)) ro (cs_flushed sh))).
  { rewrite drop_app_le by done. unfold replay in *. rewrite foldM_app, Hrh. mon.
    pose proof (replay_combine f p n (log_tkn p) (tagged (log_tkn p) ops) sh d' ro) as E.
    rewrite tagged_fst in E. specialize (E Eo). unfold replay in E. rewrite E.
    rewrite own_resps_tagged, remote_flush_tagged, app_nil_r by done. cbn.
    do 2 f_equal. rewrite Hrs, drop_app_le by lia. unfold notify_all. by rewrite foldl_app. }
  destruct (combine_at_run f p l n hist t pq rq d _ Hinv Hat Hd Hnext Hn Hctx Hinf Hro)
    as (r & b & i & l' & Hfr & Hi & Hcase); [by cbn|].
  destruct Hcase as [(k & t' & s' & -> & E & H1 & H2 & -> & H4 & H5)
                    |(cs & Hr & E & H1 & H2 & H3)].
  - assert (s' = sh) as ->.
    { destruct H4 as [_ H4]. rewrite take_ge, Hrh in H4 by (rewrite length_drop; lia). congruence. }
    eexists _, _, l'. split; [exact E|]. split; [done|]. split; [by split|].
    cbn [appended]. cbn zeta. split_and!; try done.
    + split; cbn; try done.
      * rewrite take_ge by done. by exists dh, rh.
      * intros j o Hj. by eapply lookup_lt_Some.
      * by rewrite length_notify_all.
    + intros k' [[= ->] | [=]]. done.
    + cbn. rewrite Hrs, take_app_le, take_ge by lia. done.
    + cbn. rewrite Hrs, drop_app_le by lia. f_equal.
      rewrite <- (app_nil_r (drop t hist)) at 2. rewrite remote_flush_app; [cbn|rewrite !length_drop; lia].
      by rewrite app_nil_r.
  - eexists _, _, l'. split; [exact E|]. split; [done|]. split; [by split|].
    assert (Ha : appended r = true) by (destruct Hr as [-> | (k & -> & _)]; done).
    rewrite Ha. cbn zeta.
    assert (Hlen : length (hist ++ tagged (log_tkn p) ops) = length hist + length ops)
      by (by rewrite length_app, length_tagged).
    split_and!; try done.
    + split; cbn; try done.
      * by rewrite Hlen.
      * rewrite take_ge by done. exists d', rs'. split; [|done].
        by rewrite fmap_app, tagged_fst.
      * intros j o Hj. by eapply lookup_lt_Some.
      * rewrite Hrs, drop_app_ge, Hlh, Nat.sub_diag, drop_0 by lia. done.
      * by rewrite length_notify_all.
    + intros k [-> | ->]; destruct Hr as [? | (k' & ? & ?)]; simplify_eq; done.
    + cbn. rewrite take_ge; [done|]. rewrite Hrs, Hlen, length_app. lia.
    + cbn. rewrite Hrs, !drop_app_le by lia. f_equal.
      rewrite remote_flush_app by (rewrite !length_drop; lia).
      by rewrite remote_flush_tagged, app_nil_r.
Qed.

(** The usual case: no thread registers during the round. *)
Lemma combine_inv f d0 p l hist t pq rq d' rs' :
  let ops := all_ops pq (r_next p - 1) in
  log_inv f l hist -> rep_inv d0 p l hist t pq rq ->
  seq_run d0 (hist.*1 ++ ops) = Ret (d', rs') ->
  exists r p' l', combine f p l = Ret (r, p', l')
    /\ log_frame (log_tkn p) l l' /\ rep_frame p p'
    /\ let hist' := if appended r then hist ++ tagged (log_tkn p) ops else hist in
       log_inv f l' hist'
       /\ rep_inv d0 p' l' hist' (length hist')
            (if appended r then pq_done pq (r_next p - 1) else pq)
            (if appended r then rq_done pq rq (drop (length hist) rs') (r_next p - 1) else rq)
       /\ combiner p' = (if appended r then 0 else combiner p)
       /\ (forall k, r = Err (NoLogSpace k) \/ r = Err (GcFailed k) -> behind l' (log_tkn p) k)
       /\ change_notif p' = notify_all (r_next p) (drop t (take (length hist') rs')) (change_notif p)
       /\ flushed p' = flushed p ++ remote_flush f p (log_tkn p) (drop t hist') (drop t rs').
Proof. intros ops Hinv Hrep. apply combine_at_inv; [done|done|]. destruct Hrep. lia. Qed.
End RepInv.
