(* ===== verification/ReplicaOps.v ===== *)
(** * The operations of a replica

    Each operation of nr/replica.rs on a replica that satisfies [rep_inv]:
    [register], [execute_mut] and [execute_mut_locked], the reads, [sync] and
    [verify].  The lemmas state the outcome on every branch, the two errors
    included, and are what NodeReplicated.v is proved from. *)

From S2P Require Import Prelude Context Log NrLog RwLock Flush Replica ReplicaSpec.

Section Ops.
Context {D RO WO R : Type} `{!Dispatch D RO WO R}.
Abbreviation rep := (Replica D WO R).
Abbreviation log := (Log WO unit unit).
Implicit Types (p : rep) (l : log) (f : feature) (hist : list (WO * LogToken)).
Implicit Types (pq : nat -> list (WO * unit)) (rq : nat -> list R).

(** Queues that are empty, and empty except for thread [i]. *)
Definition none {A} : nat -> list A := fun _ => [].
Definition only {A} (i : nat) (x : A) : nat -> list A := fun j => if j =? i then [x] else [].

Lemma rep_inv_len f d0 p l hist t pq rq :
  log_inv f l hist -> rep_inv d0 p l hist t pq rq -> t <= log_ctail l <= length hist.
Proof.
  intros Hinv [[_ Ht] _ _ _ _ _ _ _]. pose proof (inv_ltails _ _ _ Hinv _ _ Ht).
  pose proof (inv_ctail _ _ _ Hinv). pose proof (inv_tail _ _ _ Hinv). lia.
Qed.

Lemma rep_inv_ext d0 p l hist t pq rq pq' rq' :
  rep_inv d0 p l hist t pq rq ->
  (forall i, i < MAX_THREADS_PER_REPLICA -> pq i = pq' i /\ rq i = rq' i) ->
  rep_inv d0 p l hist t pq' rq'.
Proof. intros [] Heq. split; try done. by eapply ctxs_rep_ext. Qed.

(** What another replica does leaves this one's invariant alone. *)
Lemma rep_inv_other f d0 p l l' hist t pq rq idx ops :
  log_inv f l hist -> rep_inv d0 p l hist t pq rq -> log_frame idx l l' ->
  1 <= idx -> idx <> log_tkn p ->
  rep_inv d0 p l' (hist ++ tagged idx ops) t pq rq.
Proof.
  intros Hinv Hrep Hfr Hidx Hne. pose proof (rep_inv_len _ _ _ _ _ _ _ _ Hinv Hrep).
  destruct Hrep as [Hat Hdata Hown ? ? ? ? ?]. destruct Hfr as [_ Hnext Hlt].
  split; try done.
  - destruct Hat as [H1 H2]. split; [done|]. apply registered_lookup.
    apply registered_lookup in H2 as [H2 H3]. rewrite Hnext, Hlt by lia. done.
  - by rewrite take_app_le by lia.
  - intros i o Hi. apply lookup_app_Some in Hi as [Hi | [_ Hi]]; [by eapply Hown|].
    apply list_lookup_fmap_Some in Hi as (o' & [= _ <-] & _). done.
Qed.

(** ** Picking up responses and enqueueing operations *)

Lemma thread_ctx d0 p l hist t pq rq idx :
  rep_inv d0 p l hist t pq rq -> 1 <= idx <= MAX_THREADS_PER_REPLICA ->
  exists c, contexts p !! (idx - 1) = Some c /\ ctx_rep c (pq (idx - 1)) (rq (idx - 1)).
Proof.
  intros [_ _ _ _ [Hlen Hctx] _ _ _] Hidx.
  destruct (lookup_lt_is_Some_2 (contexts p) (idx - 1)) as [c Hc]; [lia|]. eauto.
Qed.

Lemma set_contexts_inv d0 p l hist t pq rq i c' ps rs :
  rep_inv d0 p l hist t pq rq -> ctx_rep c' ps rs ->
  rep_inv d0 (set_contexts p (<[i := c']> (contexts p))) l hist t
    (fun j => if j =? i then ps else pq j) (fun j => if j =? i then rs else rq j).
Proof. intros [] Hc. split; try done. by apply ctxs_rep_update. Qed.

Lemma get_response_run f d0 p l hist t pq rq idx y r :
  rep_inv d0 p l hist t pq rq -> 1 <= idx <= MAX_THREADS_PER_REPLICA ->
  rq (idx - 1) = y :: r ->
  exists cs, get_response f p l idx = Ret (Ok y, set_contexts p cs, l)
    /\ rep_inv d0 (set_contexts p cs) l hist t pq (fun j => if j =? idx - 1 then r else rq j).
Proof.
  intros Hrep Hidx Hy. destruct (thread_ctx _ _ _ _ _ _ _ _ Hrep Hidx) as (c & Hc & Hcr).
  rewrite Hy in Hcr. destruct (ctx_res_some_rep c _ _ _ Hcr) as (c' & Hres & Hcr').
  exists (<[idx - 1 := c']> (contexts p)). split.
  - apply rloop_first. unfold get_response_body. rewrite usub_le by lia. mon.
    rewrite (vget_lookup _ _ _ Hc). mon. rewrite Hres. mon.
    rewrite vset_lt by (by eapply lookup_lt_Some). done.
  - eapply rep_inv_ext; [by eapply set_contexts_inv|]. intros j _. cbn.
    split; [|done]. by destruct (Nat.eqb_spec j (idx - 1)) as [->|].
Qed.

Lemma make_pending_run d0 p l hist t pq rq idx o :
  rep_inv d0 p l hist t pq rq -> 1 <= idx <= MAX_THREADS_PER_REPLICA ->
  length (rq (idx - 1)) + length (pq (idx - 1)) < MAX_PENDING_OPS ->
  exists cs, make_pending p o idx = Ret (true, set_contexts p cs)
    /\ rep_inv d0 (set_contexts p cs) l hist t
         (fun j => if j =? idx - 1 then pq j ++ [(o, tt)] else pq j) rq.
Proof.
  intros Hrep Hidx Hroom. destruct (thread_ctx _ _ _ _ _ _ _ _ Hrep Hidx) as (c & Hc & Hcr).
  destruct (enqueue_rep c _ _ o tt Hcr Hroom) as (c' & He & Hcr').
  exists (<[idx - 1 := c']> (contexts p)). split.
  - unfold make_pending. rewrite usub_le by lia. mon. rewrite (vget_lookup _ _ _ Hc). mon.
    rewrite He. mon. rewrite vset_lt by (by eapply lookup_lt_Some). done.
  - eapply rep_inv_ext; [by eapply set_contexts_inv|]. intros j _. cbn.
    destruct (Nat.eqb_spec j (idx - 1)) as [->|]; done.
Qed.

(** ** One pending operation *)

Lemma all_ops_none n : all_ops (WO := WO) none n = [].
Proof. induction n as [|n IH]; [done|]. by rewrite all_ops_S, IH. Qed.

Lemma all_ops_only i (o : WO) n :
  all_ops (only i (o, tt)) n = if i <? n then [o] else [].
Proof.
  induction n as [|n IH]; [done|]. rewrite all_ops_S, IH. unfold only.
  destruct (Nat.ltb_spec i n), (Nat.ltb_spec i (S n)), (Nat.eqb_spec n i); cbn; try done; lia.
Qed.

(** A round of combining when thread [idx] alone has an operation pending. *)
Lemma combine_only f d0 p l hist t idx o d' rs y :
  log_inv f l hist -> rep_inv d0 p l hist t (only (idx - 1) (o, tt)) none ->
  1 <= idx < r_next p ->
  seq_run d0 (hist.*1 ++ [o]) = Ret (d', rs ++ [y]) ->
  exists r p' l', combine f p l = Ret (r, p', l')
    /\ log_frame (log_tkn p) l l' /\ rep_frame p p'
    /\ (forall k, r = Err (NoLogSpace k) \/ r = Err (GcFailed k) -> behind l' (log_tkn p) k)
    /\ if appended r then
         log_inv f l' (hist ++ [(o, log_tkn p)]) /\ combiner p' = 0
         /\ rep_inv d0 p' l' (hist ++ [(o, log_tkn p)]) (length hist + 1) none (only (idx - 1) y)
       else
         log_inv f l' hist /\ combiner p' = combiner p
         /\ rep_inv d0 p' l' hist (length hist) (only (idx - 1) (o, tt)) none.
Proof.
  intros Hinv Hrep Hidx Hrun.
  destruct (combine_inv f d0 p l hist t (only (idx - 1) (o, tt)) none d' (rs ++ [y]) Hinv Hrep)
    as (r & p' & l' & E & Hfr & Hpf & Hl & Hr & Hc & Hb & _).
  { rewrite all_ops_only. destruct (Nat.ltb_spec (idx - 1) (r_next p - 1)); [done|lia]. }
  rewrite all_ops_only in Hl, Hr.
  destruct (Nat.ltb_spec (idx - 1) (r_next p - 1)); [|lia].
  exists r, p', l'. do 4 (split; [done|]). destruct (appended r); [|by split_and!].
  split_and!; [done|done|]. rewrite length_app in Hr. cbn in Hr.
  pose proof (seq_run_length _ _ _ _ Hrun) as Hlen.
  rewrite !length_app, length_fmap in Hlen. cbn in Hlen.
  eapply rep_inv_ext; [exact Hr|]. intros i Hi. unfold pq_done, rq_done, only, none.
  split.
  - destruct (Nat.ltb_spec i (r_next p - 1)); [done|].
    destruct (Nat.eqb_spec i (idx - 1)); [lia|done].
  - unfold chunk. destruct (Nat.eqb_spec i (idx - 1)) as [->|Hne].
    + destruct (Nat.ltb_spec (idx - 1) (r_next p - 1)); [|lia].
      fold (only (idx - 1) (o, tt)). rewrite all_ops_only, Nat.ltb_irrefl. cbn.
      rewrite drop_app_ge by lia. by replace (length hist - length rs) with 0 by lia.
    + by destruct (Nat.ltb_spec i (r_next p - 1)).
Qed.

Lemma acquire_free p : combiner p = 0 -> acquire_combiner_lock p = Some (set_combiner p 1).
Proof. intros H. unfold acquire_combiner_lock. by rewrite H. Qed.

Lemma acquire_held p : combiner p <> 0 -> acquire_combiner_lock p = None.
Proof.
  intros H. unfold acquire_combiner_lock. cbn. by destruct (Nat.eqb_spec (combiner p) 0).
Qed.

Lemma set_combiner_inv d0 p l hist t pq rq c :
  rep_inv d0 p l hist t pq rq -> rep_inv d0 (set_combiner p c) l hist t pq rq.
Proof. intros []. by split. Qed.

(** What a write leaves behind, in each of its three outcomes. *)
Definition write_post f (d0 : D) p l hist (idx : nat) (o : WO) (y : R)
    (r : result R ReplicaError) (p' : rep) l' : Prop :=
  log_frame (log_tkn p) l l' /\ rep_frame p p' /\
  match r with
  | Ok z => z = y /\ log_inv f l' (hist ++ [(o, log_tkn p)]) /\ combiner p' = 0
      /\ rep_inv d0 p' l' (hist ++ [(o, log_tkn p)]) (length hist + 1) none none
  | Err (GcFailed k) => log_inv f l' (hist ++ [(o, log_tkn p)]) /\ combiner p' = 0
      /\ rep_inv d0 p' l' (hist ++ [(o, log_tkn p)]) (length hist + 1) none (only (idx - 1) y)
      /\ behind l' (log_tkn p) k
  | Err (NoLogSpace k) => log_inv f l' hist /\ combiner p' = 1
      /\ rep_inv d0 p' l' hist (length hist) (only (idx - 1) (o, tt)) none
      /\ behind l' (log_tkn p) k
  end.

Lemma execute_mut_locked_run f d0 p l hist t idx o d' rs y :
  log_inv f l hist -> rep_inv d0 p l hist t (only (idx - 1) (o, tt)) none ->
  1 <= idx < r_next p -> combiner p = 1 ->
  seq_run d0 (hist.*1 ++ [o]) = Ret (d', rs ++ [y]) ->
  exists r p' l', replica_execute_mut_locked f p l o idx = Ret (r, p', l')
    /\ write_post f d0 p l hist idx o y r p' l'.
Proof.
  intros Hinv Hrep Hidx Hcomb Hrun.
  destruct (combine_only f d0 p l hist t idx o d' rs y Hinv Hrep Hidx Hrun)
    as (r & p1 & l1 & E & Hfr & Hpf & Hb & Hcase).
  unfold replica_execute_mut_locked. rewrite E. mon.
  assert (Hmax : 1 <= idx <= MAX_THREADS_PER_REPLICA) by (destruct Hrep; lia).
  destruct r as [[]|[k|k]]; cbn in Hcase.
  - destruct Hcase as (Hl & Hc & Hr).
    destruct (get_response_run f _ _ _ _ _ _ _ idx y [] Hr Hmax) as (cs & Eg & Hr').
    { unfold only. by rewrite Nat.eqb_refl. }
    rewrite Eg. eexists _, _, _. split; [done|]. split; [done|]. split; [|split_and!; try done].
    + destruct Hpf. by split.
    + eapply rep_inv_ext; [done|]. intros j _. split; [done|]. cbn. unfold only.
      by destruct (j =? idx - 1).
  - destruct Hcase as (Hl & Hc & Hr). eexists _, _, _. split; [done|].
    split_and!; try done; [congruence|]. apply Hb. by left.
  - destruct Hcase as (Hl & Hc & Hr). eexists _, _, _. split; [done|].
    split_and!; try done. apply Hb. by right.
Qed.

Lemma execute_mut_run f d0 p l hist t idx o d' rs y :
  log_inv f l hist -> rep_inv d0 p l hist t none none ->
  1 <= idx < r_next p -> combiner p = 0 ->
  seq_run d0 (hist.*1 ++ [o]) = Ret (d', rs ++ [y]) ->
  exists r p' l', replica_execute_mut f p l o idx = Ret (r, p', l')
    /\ write_post f d0 p l hist idx o y r p' l'.
Proof.
  intros Hinv Hrep Hidx Hcomb Hrun.
  assert (Hmax : 1 <= idx <= MAX_THREADS_PER_REPLICA) by (destruct Hrep; lia).
  destruct (make_pending_run _ _ _ _ _ _ _ idx o Hrep Hmax) as (cs & E & Hr).
  { cbn. unfold MAX_PENDING_OPS. lia. }
  unfold replica_execute_mut. rewrite E. mon. unfold try_combine.
  rewrite (acquire_free (set_contexts p cs)) by done.
  destruct (execute_mut_locked_run f d0 (set_combiner (set_contexts p cs) 1) l hist t idx o d' rs y)
    as (r & p' & l' & E' & Hw); try done.
  - apply set_combiner_inv. eapply rep_inv_ext; [done|]. intros j _. split; [|done].
    cbn. unfold only. by destruct (j =? idx - 1).
  - exists r, p', l'. split; [exact E'|]. destruct Hw as (? & [] & ?). by split_and!; [|split|].
Qed.

(** ** Reads *)

Lemma read_dispatch_run p d (o : RO) idx :
  r_data p = rw_new d -> 1 <= idx <= MAX_THREADS_PER_REPLICA ->
  read_dispatch p o idx = (fun z => (z, p)) <$> dispatch d o.
Proof.
  intros Hd Hidx. unfold read_dispatch. rewrite usub_le by lia. mon. rewrite Hd.
  unfold rw_read. cbn [wlock rw_new].
  assert (Hz : rlock (rw_new d) !! (idx - 1) = Some 0).
  { apply lookup_replicate. split; [done|]. unfold MAX_READER_THREADS. lia. }
  assert (Hlt : idx - 1 < length (rlock (rw_new d))) by (by eapply lookup_lt_Some).
  rewrite (vget_lookup _ _ _ Hz). mon. rewrite vset_lt by done. mon.
  cbn [rw_data set_rlock]. change (rw_data (rw_new d)) with d.
  destruct (dispatch d o) as [z| |]; mon; [|done|done].
  unfold read_unlock. cbn [rlock set_rlock]. unfold vget.
  rewrite list_lookup_insert_eq by done. mon. cbn [Nat.add Nat.eqb].
  rewrite vset_lt by (by rewrite length_insert). mon.
  do 2 f_equal. rewrite list_insert_insert_eq. cbn [Nat.sub].
  rewrite (list_insert_id _ _ _ Hz). unfold set_rlock. cbn.
  destruct p. cbn in *. by subst.
Qed.

(** What bringing a replica up to date for a read leaves behind. *)
Definition sync_post f (d0 : D) p l hist (r : result unit ReplicaError) (p' : rep) l'
    (t' : nat) : Prop :=
  log_frame (log_tkn p) l l' /\ rep_frame p p' /\ log_inv f l' hist
  /\ rep_inv d0 p' l' hist t' none none
  /\ match r with
     | Ok _ => log_ctail l <= t'
     | Err (GcFailed k) => combiner p' = 0 /\ behind l' (log_tkn p) k /\ t' = length hist
     | Err (NoLogSpace k) =>
         combiner p' = 1 /\ behind l' (log_tkn p) k /\ t' = length hist
     end.

Lemma synced_check d0 p l hist t pq rq ctail :
  rep_inv d0 p l hist t pq rq ->
  is_replica_synced_for_reads l (log_tkn p) ctail = Ret (ctail <=? t).
Proof.
  intros [Hat _ _ _ _ _ _ _]. unfold is_replica_synced_for_reads.
  rewrite usub_le by apply Hat. mon. by rewrite (vget_lookup _ _ _ (at_tail_ltails _ _ _ Hat)).
Qed.

Lemma combine_none f d0 p l hist t dh rh :
  log_inv f l hist -> rep_inv d0 p l hist t none none -> combiner p = 1 ->
  seq_run d0 hist.*1 = Ret (dh, rh) ->
  exists r p' l', combine f p l = Ret (r, p', l')
    /\ sync_post f d0 p l hist r p' l' (length hist) /\ (appended r = true -> combiner p' = 0).
Proof.
  intros Hinv Hrep Hc Hrun.
  destruct (combine_inv f d0 p l hist t none none dh rh Hinv Hrep)
    as (r & p' & l' & E & Hfr & Hpf & Hl & Hr & Hcb & Hb & _).
  { by rewrite all_ops_none, app_nil_r. }
  rewrite all_ops_none in Hl, Hr. cbn [tagged fmap list_fmap] in Hl, Hr. rewrite app_nil_r in Hl, Hr.
  exists r, p', l'. split; [done|]. split.
  - pose proof (rep_inv_len _ _ _ _ _ _ _ _ Hinv Hrep).
    split_and!; [done|done|by destruct (appended r)| |].
    + destruct (appended r); (eapply rep_inv_ext; [exact Hr|]); [|done].
      intros i _. unfold pq_done, rq_done, none, chunk.
      by destruct (i <? r_next p - 1).
    + destruct r as [[]|[k|k]]; cbn in *; [lia| |].
      * split_and!; [congruence|by apply Hb; left|done].
      * split_and!; [done|by apply Hb; right|done].
  - intros Ha. by rewrite Ha in Hcb.
Qed.

Lemma read_sync_synced f d0 p l hist t pq rq ctail :
  rep_inv d0 p l hist t pq rq -> ctail <= t -> read_sync f p l ctail = Ret (Ok tt, p, l).
Proof.
  intros Hrep Ht. unfold read_sync. cbn [read_sync_loop].
  rewrite (synced_check _ _ _ _ _ _ _ _ Hrep). mon. by destruct (Nat.leb_spec ctail t); [|lia].
Qed.

Lemma read_sync_run f d0 p l hist t dh rh :
  log_inv f l hist -> rep_inv d0 p l hist t none none -> combiner p = 0 ->
  seq_run d0 hist.*1 = Ret (dh, rh) ->
  exists r p' l' t', read_sync f p l (get_ctail l) = Ret (r, p', l')
    /\ sync_post f d0 p l hist r p' l' t' /\ (r = Ok tt -> combiner p' = 0).
Proof.
  intros Hinv Hrep Hc Hrun. unfold get_ctail.
  destruct (decide (log_ctail l <= t)) as [Ht|Ht].
  { rewrite (read_sync_synced _ _ _ _ _ _ _ _ _ Hrep Ht). exists (Ok tt), p, l, t.
    split; [done|]. split; [|done]. split_and!; [apply log_frame_refl|by split|done..]. }
  unfold read_sync. cbn [read_sync_loop]. rewrite (synced_check _ _ _ _ _ _ _ _ Hrep). mon.
  destruct (Nat.leb_spec (log_ctail l) t); [lia|]. unfold try_combine.
  rewrite acquire_free by done.
  destruct (combine_none f d0 (set_combiner p 1) l hist t dh rh Hinv) as (r & p' & l' & E & Hs & Hcb);
    [by apply set_combiner_inv|done|done|].
  rewrite E. mon. destruct Hs as (H1 & [] & H3 & H4 & H5).
  exists r, p', l', (length hist). destruct r as [[]|e].
  - rewrite (synced_check _ _ _ _ _ _ _ _ H4). mon.
    destruct (Nat.leb_spec (log_ctail l) (length hist)); [|cbn in H5; lia].
    split; [done|]. split; [|by intros _; apply Hcb]. by split_and!; [|split|..].
  - split; [done|]. split; [|done]. by split_and!; [|split|..].
Qed.

(** [execute] is: bring the replica up to date, then read its copy. *)
Lemma execute_run f d0 p l hist t dh rh (o : RO) idx :
  log_inv f l hist -> rep_inv d0 p l hist t none none -> combiner p = 0 ->
  1 <= idx <= MAX_THREADS_PER_REPLICA -> seq_run d0 hist.*1 = Ret (dh, rh) ->
  exists r p' l' t', sync_post f d0 p l hist r p' l' t' /\ (r = Ok tt -> combiner p' = 0)
    /\ match r with
       | Ok _ => exists d rs, seq_run d0 (take t' hist).*1 = Ret (d, rs)
           /\ replica_execute f p l o idx = (fun z => (Ok z, p', l')) <$> dispatch d o
       | Err e => replica_execute f p l o idx = Ret (Err e, p', l')
       end.
Proof.
  intros Hinv Hrep Hc Hidx Hrun.
  destruct (read_sync_run f d0 p l hist t dh rh Hinv Hrep Hc Hrun)
    as (r & p' & l' & t' & E & Hs & Hcb).
  exists r, p', l', t'. split; [done|]. split; [done|].
  unfold replica_execute. rewrite E. mon. destruct r as [[]|e]; [|done].
  destruct Hs as (_ & _ & _ & [_ (d & rs & Hd & Hdata) _ _ _ _ _ _] & _).
  exists d, rs. split; [done|]. rewrite (read_dispatch_run _ d) by done.
  by destruct (dispatch d o).
Qed.

Lemma locked_sync_run f d0 p l hist t dh rh :
  log_inv f l hist -> rep_inv d0 p l hist t none none -> combiner p = 1 ->
  seq_run d0 hist.*1 = Ret (dh, rh) ->
  exists r p' l' t', locked_sync f p l = Ret (r, p', l') /\ sync_post f d0 p l hist r p' l' t'.
Proof.
  intros Hinv Hrep Hc Hrun. unfold locked_sync, get_ctail.
  rewrite (synced_check _ _ _ _ _ _ _ _ Hrep). mon.
  destruct (Nat.leb_spec (log_ctail l) t) as [Ht|Ht]; mon.
  - rewrite (synced_check _ _ _ _ _ _ _ _ Hrep). mon.
    destruct (Nat.leb_spec (log_ctail l) t); [|lia]. mon. cbn [rassert]. mon.
    rewrite (read_sync_synced _ _ _ _ _ _ _ _ _ Hrep) by done.
    exists (Ok tt), p, l, t. split; [done|].
    split_and!; [apply log_frame_refl|by split|done..].
  - destruct (combine_none f d0 p l hist t dh rh Hinv Hrep Hc Hrun) as (r & p' & l' & E & Hs & Hcb).
    rewrite E. mon. exists r, p', l', (length hist). pose proof Hs as (_ & [] & _ & H4 & H5).
    destruct r as [[]|e]; [|done].
    rewrite (synced_check _ _ _ _ _ _ _ _ H4). mon.
    destruct (Nat.leb_spec (log_ctail l) (length hist)); [|cbn in H5; lia]. cbn [rassert]. mon.
    rewrite (read_sync_synced _ _ _ _ _ _ _ _ _ H4) by done. done.
Qed.

(** [execute_locked] releases the combiner lock it was given unless there is no
    room in the log. *)
Lemma execute_locked_run f d0 p l hist t dh rh (o : RO) idx :
  log_inv f l hist -> rep_inv d0 p l hist t none none -> combiner p = 1 ->
  1 <= idx <= MAX_THREADS_PER_REPLICA -> seq_run d0 hist.*1 = Ret (dh, rh) ->
  exists r p' l' t', sync_post f d0 p l hist r p' l' t'
    /\ match r with
       | Ok _ => exists d rs, seq_run d0 (take t' hist).*1 = Ret (d, rs)
           /\ replica_execute_locked f p l o idx
              = (fun z => (Ok z, combiner_unlock p', l')) <$> dispatch d o
       | Err e => replica_execute_locked f p l o idx = Ret (Err e, p', l')
       end.
Proof.
  intros Hinv Hrep Hc Hidx Hrun.
  destruct (locked_sync_run f d0 p l hist t dh rh Hinv Hrep Hc Hrun)
    as (r & p' & l' & t' & E & Hs).
  exists r, p', l', t'. split; [done|].
  unfold replica_execute_locked. rewrite E. mon. destruct r as [[]|e]; [|done].
  destruct Hs as (_ & _ & _ & [_ (d & rs & Hd & Hdata) _ _ _ _ _ _] & _).
  exists d, rs. split; [done|]. rewrite (read_dispatch_run _ d) by done.
  by destruct (dispatch d o).
Qed.

(** ** Synchronising a replica without an operation of its own *)

Lemma replay_cons {S} (c : S -> WO -> bool -> res S) idx s o k xs :
  replay c idx s ((o, k) :: xs) = s' ← c s o (k =? idx); replay c idx s' xs.
Proof. done. Qed.

Lemma sync_closure_step d o mine d1 r1 :
  dispatch_mut d o = Ret (d1, r1) ->
  sync_closure d o mine = if mine then Panic "Ups -- we just lost a result?" else Ret d1.
Proof. intros E. unfold sync_closure. by rewrite E. Qed.

Lemma verify_closure_step d o mine d1 r1 :
  dispatch_mut d o = Ret (d1, r1) -> verify_closure d o mine = Ret d1.
Proof. intros E. unfold verify_closure. by rewrite E. Qed.

Lemma replay_sync idx xs (d d' : D) rs :
  (forall i o, xs !! i <> Some (o, idx)) -> seq_run d xs.*1 = Ret (d', rs) ->
  replay sync_closure idx d xs = Ret d'.
Proof.
  revert d rs. induction xs as [|[o k] xs IH]; intros d rs Hrem; [by intros [= <- _]|].
  cbn [fmap list_fmap fst]. rewrite seq_run_cons, replay_cons.
  destruct (dispatch_mut d o) as [[d1 r1]| |] eqn:Ed; mon; [|done|done].
  destruct (seq_run d1 (fst <$> xs)) as [[d2 r2]| |] eqn:E; mon; [|done|done].
  intros [= <- _]. rewrite (sync_closure_step _ _ _ _ _ Ed). destruct (Nat.eqb_spec k idx) as [->|]; [by destruct (Hrem 0 o)|].
  eapply (IH d1 r2); [|done]. intros i o'. apply (Hrem (S i)).
Qed.

(** The rest of the history, from the replica's own point of view. *)
Lemma rest_run d0 p hist t d rs0 dh rh :
  t <= length hist -> (forall i o, hist !! i = Some (o, log_tkn p) -> i < t) ->
  seq_run d0 (take t hist).*1 = Ret (d, rs0) -> seq_run d0 hist.*1 = Ret (dh, rh) ->
  (forall i o, drop t hist !! i <> Some (o, log_tkn p))
  /\ exists rs, seq_run d (drop t hist).*1 = Ret (dh, rs).
Proof.
  intros Ht Hown Hd Hrun. split.
  - intros i o Hi. rewrite lookup_drop in Hi. apply Hown in Hi. lia.
  - rewrite <- (take_drop t hist), fmap_app in Hrun.
    destruct (seq_run_split _ _ _ _ _ Hrun) as (d1 & r1 & r2 & E1 & E2 & _ & _).
    rewrite Hd in E1. injection E1 as <- <-. eauto.
Qed.

Lemma replica_exec_run f d0 p l hist t pq rq dh rh :
  log_inv f l hist -> rep_inv d0 p l hist t pq rq -> seq_run d0 hist.*1 = Ret (dh, rh) ->
  let l' := synced l (log_tkn p - 1) in
  replica_exec f p l = Ret (set_r_data p (rw_new dh), l')
  /\ log_inv f l' hist /\ rep_inv d0 (set_r_data p (rw_new dh)) l' hist (length hist) pq rq.
Proof.
  intros Hinv Hrep Hrun l'. pose proof (rep_inv_len _ _ _ _ _ _ _ _ Hinv Hrep) as Ht.
  pose proof Hrep as [Hat (d & rs0 & Hd0 & Hd) Hown Hnext Hctx Hinf Hnot Hset].
  destruct (rest_run d0 p hist t d rs0 dh rh) as [Hrem [rs Hrs]]; try done; [lia|].
  destruct (exec_to_end sync_closure f l hist (log_tkn p) t d dh Hinv Hat
    (replay_sync _ _ _ _ _ Hrem Hrs)) as (Hex & Hinv' & Hat' & _ & _).
  unfold replica_exec. cbn zeta. rewrite Hd, rw_new_write by lia. mon.
  cbn [rw_data set_wlock rw_new]. rewrite Hex. mon. unfold write_unlock. cbn [wlock set_data set_wlock].
  cbn [andb negb]. mon. split; [done|]. split; [done|].
  rewrite (inv_tail _ _ _ Hinv) in Hat'. split; try done.
  - rewrite take_ge by done. by exists dh, rh.
  - intros i o Hi. by eapply lookup_lt_Some.
Qed.

Lemma try_sync_run f d0 p l hist t pq rq dh rh :
  log_inv f l hist -> rep_inv d0 p l hist t pq rq -> combiner p = 0 ->
  seq_run d0 hist.*1 = Ret (dh, rh) ->
  let l' := synced l (log_tkn p - 1) in
  try_sync f p l = Ret (set_r_data p (rw_new dh), l')
  /\ log_inv f l' hist /\ rep_inv d0 (set_r_data p (rw_new dh)) l' hist (length hist) pq rq.
Proof.
  intros Hinv Hrep Hc Hrun l'. unfold try_sync. rewrite acquire_free by done.
  destruct (replica_exec_run f d0 (set_combiner p 1) l hist t pq rq dh rh Hinv)
    as (E & H1 & H2); [by apply set_combiner_inv|done|].
  rewrite E. mon. split_and!; [|done|].
  - unfold combiner_unlock, set_combiner, set_r_data. cbn. by rewrite Hc.
  - destruct H2. by split.
Qed.

Lemma replica_sync_run f d0 p l hist t pq rq dh rh :
  log_inv f l hist -> rep_inv d0 p l hist t pq rq -> combiner p = 0 ->
  seq_run d0 hist.*1 = Ret (dh, rh) ->
  exists d l' t', replica_sync f p l = Ret (set_r_data p d, l') /\ log_frame (log_tkn p) l l'
    /\ log_inv f l' hist /\ rep_inv d0 (set_r_data p d) l' hist t' pq rq /\ log_ctail l <= t'.
Proof.
  intros Hinv Hrep Hc Hrun. unfold replica_sync, get_ctail. cbn [sync_loop].
  rewrite (synced_check _ _ _ _ _ _ _ _ Hrep). mon.
  destruct (Nat.leb_spec (log_ctail l) t) as [Ht|Ht].
  - exists (r_data p), l, t. assert (set_r_data p (r_data p) = p) as -> by (by destruct p).
    by split_and!; [|apply log_frame_refl|..].
  - destruct (try_sync_run f d0 p l hist t pq rq dh rh Hinv Hrep Hc Hrun) as (E & H1 & H2).
    pose proof (rep_inv_len _ _ _ _ _ _ _ _ Hinv Hrep).
    rewrite E. mon. rewrite (synced_check _ _ _ _ _ _ _ _ H2). mon.
    destruct (Nat.leb_spec (log_ctail l) (length hist)); [|lia].
    eexists _, _, _. split_and!; [done|apply synced_frame|done|done|lia].
Qed.

(** [verify] shows its callback the state of the whole log. *)
Lemma verify_run {A} f d0 p l hist t pq rq dh rh (v : D -> A) :
  log_inv f l hist -> rep_inv d0 p l hist t pq rq -> combiner p = 0 ->
  seq_run d0 hist.*1 = Ret (dh, rh) ->
  let l' := synced l (log_tkn p - 1) in
  replica_verify f p l v = Ret (v dh, set_r_data p (rw_new dh), l')
  /\ log_inv f l' hist /\ rep_inv d0 (set_r_data p (rw_new dh)) l' hist (length hist) pq rq.
Proof.
  intros Hinv Hrep Hc Hrun l'. pose proof (rep_inv_len _ _ _ _ _ _ _ _ Hinv Hrep) as Ht.
  destruct (replica_exec_run f d0 p l hist t pq rq dh rh Hinv Hrep Hrun) as (_ & H1 & H2).
  split; [|done]. pose proof Hrep as [Hat (d & rs0 & Hd0 & Hd) Hown Hnext _ _ _ _].
  destruct (rest_run d0 p hist t d rs0 dh rh) as [_ [rs Hrs]]; try done; [lia|].
  assert (Hrv : replay verify_closure (log_tkn p) d (drop t hist) = Ret dh).
  { revert Hrs. clear. generalize (drop t hist). intros xs. revert d rs.
    induction xs as [|[o k] xs IH]; intros d rs; [by intros [= <- _]|].
    cbn [fmap list_fmap fst]. rewrite seq_run_cons, replay_cons.
    destruct (dispatch_mut d o) as [[d1 r1]| |] eqn:Ed; mon; [|done|done].
    destruct (seq_run d1 (fst <$> xs)) as [[d2 r2]| |] eqn:E; mon; [|done|done].
    intros [= <- _]. rewrite (verify_closure_step _ _ _ _ _ Ed). mon. by eapply IH. }
  destruct (exec_to_end verify_closure f l hist (log_tkn p) t d dh Hinv Hat Hrv) as (Hex & _).
  unfold replica_verify. rewrite Hc. cbn [Nat.eqb set_combiner r_data r_next log_tkn].
  rewrite Hd, rw_new_write by lia. mon. cbn [rw_data set_wlock rw_new]. rewrite Hex. mon.
  unfold write_unlock. cbn [wlock set_data set_wlock andb negb]. mon.
  do 3 f_equal. unfold set_combiner, set_r_data. cbn. by rewrite Hc.
Qed.

(** ** Registration *)

Lemma replica_new_inv f d0 l tkn addr s :
  log_inv f l [] -> at_tail l tkn 0 ->
  rep_inv d0 (with_data_base_addr tkn d0 addr s) l [] 0 none none.
Proof.
  intros Hinv Hat. split; cbn; try done; try lia.
  - by exists d0, [].
  - split; [apply length_replicate|]. intros i c Hc.
    apply lookup_replicate in Hc as [-> _]. apply (context_new_rep tt 0).
Qed.

Lemma replica_register_inv d0 p l hist t pq rq idx p' :
  rep_inv d0 p l hist t pq rq -> replica_register p = (Some idx, p') ->
  idx = r_next p /\ 1 <= idx <= MAX_THREADS_PER_REPLICA /\ r_next p' = idx + 1
  /\ combiner p' = combiner p /\ log_tkn p' = log_tkn p /\ rep_inv d0 p' l hist t pq rq.
Proof.
  intros [] E. unfold replica_register in E.
  destruct (Nat.ltb_spec MAX_THREADS_PER_REPLICA (r_next p)); [done|].
  injection E as <- <-. split_and!; try done; try lia. split; try done. cbn. lia.
Qed.
End Ops.
