(* ===== verification/NodeReplicated.v ===== *)
(** * The replicated object (node-replication/src/nr/mod.rs)

    [NodeReplicated] puts one log and several replicas together.  A call runs on
    the replica of the calling thread; when the log has no room, or cannot be
    garbage collected, because another replica lags behind, the call switches to
    that replica's memory affinity, replays the log there, and resumes.

    [af] is the affinity function the client passes in ([chg_mem_affinity]): it
    acts on the affinity of the calling thread, [A].  The size of a log entry
    ([esize]) and how many allocations succeed ([mem]) are parameters. *)

From S2P Require Import Prelude Context Log NrLog RwLock Flush Replica ReplicaSpec.
From S2P Require Import ReplicaOps.

(** [AffinityChange]. *)
Inductive AffinityChange :=
| AReplica (rid : N)
| ARevert (old : N).

(** [NodeReplicatedError]. *)
Inductive NodeReplicatedError := OutOfMemory.

(** [ThreadToken]. *)
Record ThreadToken := mkToken { rid : nat; rtkn : nat }.

(** [AffinityManager] and [AffinityToken]. *)
Record AffinityManager (A : Type) := mkAff {
  af_change_fn : A -> AffinityChange -> res (A * N)
}.
Arguments mkAff {A} _.
Arguments af_change_fn {A} _ _ _.

Record AffinityToken := mkAffTkn { aff_old : N }.

(** [AffinityManager::switch], i.e. [AffinityToken::new]. *)
Definition aff_switch {A} (m : AffinityManager A) (a : A) (rid : N)
  : res (A * AffinityToken) :=
  '(a', old) ← af_change_fn m a (AReplica rid); Ret (a', mkAffTkn old).

(** [AffinityToken::drop]. *)
Definition aff_drop {A} (m : AffinityManager A) (a : A) (t : AffinityToken) : res A :=
  '(a', _ret) ← af_change_fn m a (ARevert (aff_old t)); Ret a'.

(** [NodeReplicated<D>]; [nr_aff] is the affinity of the calling thread. *)
Record NodeReplicated (D WO R A : Type) := mkNR {
  nr_log : Log WO unit unit;
  nr_replicas : list (Replica D WO R);
  affinity_mngr : AffinityManager A;
  nr_aff : A;
}.
Arguments mkNR {D WO R A} _ _ _ _.
Arguments nr_log {D WO R A} _.
Arguments nr_replicas {D WO R A} _.
Arguments affinity_mngr {D WO R A} _.
Arguments nr_aff {D WO R A} _.

(** [ResolveOp]: what [execute_mut] and [execute] still have to do; [cl] says that
    the combiner lock is held, [x] is the operation of a read. *)
Inductive ResolveOp (X : Type) :=
| RExec (cl : bool) (x : X)
| RSync (ridx : nat).
Arguments RExec {X} _ _.
Arguments RSync {X} _.

(** [ArrayVec::push] on a queue of capacity [MAX_REPLICAS_PER_LOG]; the head of
    the list is the end that [pop] takes from. *)
Definition qpush {X} (q : list (ResolveOp X)) (x : ResolveOp X) : res (list (ResolveOp X)) :=
  if length q <? MAX_REPLICAS_PER_LOG then Ret (x :: q)
  else Panic "ArrayVec: capacity exceeded".

Section Ops.
Context {D RO WO R A : Type} `{!Dispatch D RO WO R}.
Abbreviation rep := (Replica D WO R).
Abbreviation log := (Log WO unit unit).
Abbreviation nrep := (NodeReplicated D WO R A).
Implicit Types (nr : nrep) (f : feature).

(** ** Construction *)

(** A fallible allocation. *)
Definition try_new (mem : nat) : option nat :=
  match mem with 0 => None | S m => Some m end.

(** The loop over the replicas; [mk] builds the replica for a log token.  The
    affinity token is dropped on every way out of its block. *)
Fixpoint build_replicas (am : AffinityManager A) (mk : LogToken -> rep) (mem : nat) (l : log)
    (a : A) (acc : list rep) (ids : list nat)
  : res (result (nat * log * list rep) NodeReplicatedError * A) :=
  match ids with
  | [] => Ret (Ok (mem, l, acc), a)
  | replica_id :: ids' =>
      let '(t, l1) := log_register l in
      match t with
      | None => Panic "Succeeds (num_replicas < MAX_REPLICAS_PER_LOG)"
      | Some log_token =>
          '(a1, tkn) ← aff_switch am a (N.of_nat replica_id);
          let m := try_new mem in
          a2 ← aff_drop am a1 tkn;
          match m with
          | None => Ret (Err OutOfMemory, a2)
          | Some mem' => build_replicas am mk mem' l1 a2 (acc ++ [mk log_token]) ids'
          end
      end
  end.

(** [usize::MAX], the affinity of the NUMA constructors' log. *)
Definition usize_max : N := (usize_size - 1)%N.

(** The body shared by the constructors: [numa] says that the log is allocated
    under the affinity [usize::MAX]. *)
Definition build (numa : bool) (num_replicas : nat) (af : A -> AffinityChange -> res (A * N))
    (esize log_size : N) (mk : LogToken -> rep) (mem : nat) (a : A)
  : res (result nrep NodeReplicatedError * A) :=
  _ ← rassert (num_replicas <? MAX_REPLICAS_PER_LOG)
        "assertion failed: num_replicas.get() < MAX_REPLICAS_PER_LOG";
  match try_new mem with
  | None => Ret (Err OutOfMemory, a)
  | Some m1 =>
      let am := mkAff af in
      '(a1, r) ← (if (numa : bool) then
                    '(a', tkn) ← aff_switch am a usize_max;
                    let r := try_new m1 in
                    a1 ← aff_drop am a' tkn;
                    Ret (a1, r)
                  else Ret (a, try_new m1));
      match r with
      | None => Ret (Err OutOfMemory, a1)
      | Some m2 =>
          let l := new_with_bytes tt esize log_size tt in
          match try_new m2 with
          | None => Ret (Err OutOfMemory, a1)
          | Some m3 =>
              '(b, a2) ← build_replicas am mk m3 l a1 [] (seq 0 num_replicas);
              match b with
              | Err e => Ret (Err e, a2)
              | Ok (_, l', rs) => Ret (Ok (mkNR l' rs am a2), a2)
              end
          end
      end
  end.

(** [with_log_size]; [dflt] is [D::default()]. *)
Definition with_log_size num af esize log_size (dflt : D) mem a :=
  build false num af esize log_size (fun t => replica_new t dflt) mem a.

(** [with_log_size_and_struct]. *)
Definition with_log_size_and_struct num af esize log_size (data : D) mem a :=
  build false num af esize log_size (fun t => replica_new_with_data t data) mem a.

(** [with_log_size_and_struct_and_base_addr_numa]. *)
Definition with_log_size_and_struct_and_base_addr_numa num af esize log_size (data : D)
    (addr slot : Z) mem a :=
  build true num af esize log_size
    (fun t => replica_new_with_data_base_addr t data addr slot) mem a.

(** [with_log_size_and_struct_numa]. *)
Definition with_log_size_and_struct_numa num af esize log_size (data : D) mem a :=
  build true num af esize log_size (fun t => replica_new_with_data t data) mem a.

(** [with_log_size_numa]. *)
Definition with_log_size_numa num af esize log_size (dflt : D) mem a :=
  build true num af esize log_size (fun t => replica_new t dflt) mem a.

(** [new], [new_with_data], [new_with_data_numa],
    [new_with_data_and_base_addr_numa], [new_numa]. *)
Definition nr_new num af esize (dflt : D) mem a :=
  with_log_size num af esize DEFAULT_LOG_BYTES dflt mem a.
Definition nr_new_with_data num af esize (data : D) mem a :=
  with_log_size_and_struct num af esize DEFAULT_LOG_BYTES data mem a.
Definition nr_new_with_data_numa num af esize (data : D) mem a :=
  with_log_size_and_struct_numa num af esize DEFAULT_LOG_BYTES data mem a.
Definition nr_new_with_data_and_base_addr_numa num af esize (data : D) addr slot mem a :=
  with_log_size_and_struct_and_base_addr_numa num af esize DEFAULT_LOG_BYTES data addr slot mem a.
Definition nr_new_numa num af esize (dflt : D) mem a :=
  with_log_size_numa num af esize DEFAULT_LOG_BYTES dflt mem a.

(** ** Calls *)

Definition set_replicas nr (l : log) (ps : list rep) : nrep :=
  mkNR l ps (affinity_mngr nr) (nr_aff nr).
Definition set_aff nr (a : A) : nrep := mkNR (nr_log nr) (nr_replicas nr) (affinity_mngr nr) a.

(** Running an operation of replica [k] against the log. *)
Definition on_replica {X} nr (k : nat) (op : rep -> log -> res (X * rep * log)) : res (X * nrep) :=
  p ← vget (nr_replicas nr) k;
  '(x, p', l') ← op p (nr_log nr);
  ps ← vset (nr_replicas nr) k p';
  Ret (x, set_replicas nr l' ps).

(** The same under the affinity of replica [k], reverted at the end. *)
Definition on_stuck nr (k : nat) (op : rep -> log -> res (rep * log)) : res nrep :=
  '(a', tkn) ← aff_switch (affinity_mngr nr) (nr_aff nr) (N.of_nat k);
  '(_u, nr1) ← on_replica (set_aff nr a') k (fun p l => '(p', l') ← op p l; Ret (tt, p', l'));
  a2 ← aff_drop (affinity_mngr nr1) (nr_aff nr1) tkn;
  Ret (set_aff nr1 a2).

(** [register]. *)
Definition nr_register nr (replica_id : nat) : res (option ThreadToken * nrep) :=
  if replica_id <? length (nr_replicas nr) then
    '(t, nr') ← on_replica nr replica_id (fun p l =>
                  let '(t, p') := replica_register p in Ret (t, p', l));
    Ret (option_map (mkToken replica_id) t, nr')
  else Ret (None, nr).

(** [try_execute_mut]. *)
Definition try_execute_mut f nr (op : WO) (tkn : ThreadToken) (cl : bool)
  : res (result R ReplicaError * nrep) :=
  on_replica nr (rid tkn) (fun p l =>
    if cl then replica_execute_mut_locked f p l op (rtkn tkn)
    else replica_execute_mut f p l op (rtkn tkn)).

(** [execute_mut]: what follows an attempt. *)
Definition execute_mut_resolve f (tkn : ThreadToken) (q' : list (ResolveOp unit))
    (r : result R ReplicaError) nr1
  : res ((list (ResolveOp unit) * nrep) + (R * nrep)) :=
  match r with
  | Ok resp =>
      _ ← rassert (length q' =? 0) "assertion failed: q.is_empty()";
      Ret (inr (resp, nr1))
  | Err (NoLogSpace stuck) =>
      q1 ← qpush q' (RExec true tt);
      q2 ← qpush q1 (RSync stuck);
      Ret (inl (q2, nr1))
  | Err (GcFailed stuck) =>
      _ ← rassert (negb (stuck =? rid tkn)) "assertion failed: stuck_ridx != tkn.rid";
      nr2 ← on_stuck nr1 stuck (replica_sync f);
      '(r2, nr3) ← on_replica nr2 (rid tkn) (fun p l => get_response f p l (rtkn tkn));
      match r2 with
      | Ok resp => Ret (inr (resp, nr3))
      | Err _ => Panic "GcFailed has to produced a response"
      end
  end.

(** [execute_mut]: the loop body. *)
Definition execute_mut_body f (op : WO) (tkn : ThreadToken) (st : list (ResolveOp unit) * nrep)
  : res ((list (ResolveOp unit) * nrep) + (R * nrep)) :=
  let '(q, nr) := st in
  let '(top, q') := match q with [] => (RExec false tt, []) | x :: q' => (x, q') end in
  match top with
  | RExec cl _ =>
      '(r, nr1) ← try_execute_mut f nr op tkn cl;
      execute_mut_resolve f tkn q' r nr1
  | RSync ridx =>
      _ ← rassert (negb (ridx =? rid tkn)) "assertion failed: ridx != tkn.rid";
      nr1 ← on_stuck nr ridx (try_sync f);
      Ret (inl (q', nr1))
  end.

(** [execute_mut].  Every two passes advance a lagging replica to the end of the
    log, and there are fewer than [MAX_REPLICAS_PER_LOG] replicas: 64 passes are
    more than a thread alone ever takes. *)
Definition execute_mut f nr (op : WO) (tkn : ThreadToken) : res (R * nrep) :=
  rloop 64 (execute_mut_body f op tkn) ([], nr).

(** [try_execute], [try_execute_anchor], [try_execute_loose]. *)
Definition try_execute f nr (op : RO) (tkn : ThreadToken) (cl : bool)
  : res (result R ReplicaError * nrep) :=
  on_replica nr (rid tkn) (fun p l =>
    if cl then replica_execute_locked f p l op (rtkn tkn)
    else replica_execute f p l op (rtkn tkn)).
Definition try_execute_anchor f nr (op : RO) (tkn : ThreadToken) (cl : bool)
  : res (result R ReplicaError * nrep) :=
  on_replica nr (rid tkn) (fun p l =>
    if cl then replica_execute_locked_anchor f p l op (rtkn tkn)
    else replica_execute_anchor f p l op (rtkn tkn)).
Definition try_execute_loose f nr (op : RO) (tkn : ThreadToken) (cl : bool)
  : res (result R ReplicaError * nrep) :=
  on_replica nr (rid tkn) (fun p l =>
    if cl then replica_execute_locked f p l op (rtkn tkn)
    else '(r, p') ← replica_execute_loose p op (rtkn tkn); Ret (r, p', l)).

(** The loop body of [execute], [execute_anchor] and [execute_loose], which differ
    in the attempt [try_exec] they make. *)
Definition execute_body f (try_exec : nrep -> RO -> ThreadToken -> bool -> res (result R ReplicaError * nrep))
    (tkn : ThreadToken) (st : list (ResolveOp RO) * nrep)
  : res ((list (ResolveOp RO) * nrep) + (R * nrep)) :=
  let '(q, nr) := st in
  match q with
  | [] => Panic "called `Option::unwrap()` on a `None` value"
  | RExec cl op :: q' =>
      '(r, nr1) ← try_exec nr op tkn cl;
      match r with
      | Ok resp =>
          _ ← rassert (length q' =? 0) "assertion failed: q.is_empty()";
          Ret (inr (resp, nr1))
      | Err (NoLogSpace stuck) =>
          _ ← rassert (negb (stuck =? rid tkn)) "assertion failed: stuck_ridx != tkn.rid";
          q1 ← qpush q' (RExec true op);
          q2 ← qpush q1 (RSync stuck);
          Ret (inl (q2, nr1))
      | Err (GcFailed stuck) =>
          _ ← rassert (negb (stuck =? rid tkn)) "assertion failed: stuck_ridx != tkn.rid";
          q1 ← qpush q' (RExec false op);
          q2 ← qpush q1 (RSync stuck);
          Ret (inl (q2, nr1))
      end
  | RSync ridx :: q' =>
      _ ← rassert (negb (ridx =? rid tkn)) "assertion failed: ridx != tkn.rid";
      nr1 ← on_stuck nr ridx (try_sync f);
      Ret (inl (q', nr1))
  end.

(** [execute].  After a failed attempt the replica has replayed the whole log, so
    the second attempt succeeds: three passes. *)
Definition execute f nr (op : RO) (tkn : ThreadToken) : res (R * nrep) :=
  q ← qpush [] (RExec false op);
  rloop 64 (execute_body f (try_execute f) tkn) (q, nr).

(** [execute_anchor]. *)
Definition execute_anchor f nr (op : RO) (tkn : ThreadToken) : res (R * nrep) :=
  q ← qpush [] (RExec false op);
  rloop 64 (execute_body f (try_execute_anchor f) tkn) (q, nr).

(** [execute_loose]. *)
Definition execute_loose f nr (op : RO) (tkn : ThreadToken) : res (R * nrep) :=
  q ← qpush [] (RExec false op);
  rloop 64 (execute_body f (try_execute_loose f) tkn) (q, nr).

(** [check_coherence], [reset_coherence], [check_coherence_reset],
    [check_notification_reset]. *)
Definition nr_check_coherence nr (resp : R) (tkn : ThreadToken) : res (bool * nrep) :=
  on_replica nr (rid tkn) (fun p l =>
    '(b, p') ← check_coherence p resp (rtkn tkn); Ret (b, p', l)).
Definition nr_reset_coherence nr (resp : R) (tkn : ThreadToken) : res (unit * nrep) :=
  on_replica nr (rid tkn) (fun p l => p' ← reset_coherence p resp; Ret (tt, p', l)).
Definition nr_check_coherence_reset nr (resp : R) (tkn : ThreadToken) : res (bool * nrep) :=
  on_replica nr (rid tkn) (fun p l => '(b, p') ← check_coherence_reset p resp; Ret (b, p', l)).
Definition nr_check_notification_reset nr (tkn : ThreadToken) : res (bool * nrep) :=
  on_replica nr (rid tkn) (fun p l =>
    '(b, p') ← check_notification_reset p (rtkn tkn); Ret (b, p', l)).

(** [sync]. *)
Definition nr_sync f nr (tkn : ThreadToken) : res (unit * nrep) :=
  on_replica nr (rid tkn) (fun p l => '(p', l') ← replica_sync f p l; Ret (tt, p', l')).

(** [log_sync_numa]. *)
Definition log_sync_numa f nr : res nrep :=
  foldM (fun nr k => '(_u, nr') ← on_replica nr k (fun p l =>
           '(p', l') ← sync_for_read f p l; Ret (tt, p', l')); Ret nr')
    nr (seq 0 (length (nr_replicas nr))).
End Ops.
