(* ===== verification/NodeReplicatedSpec.v ===== *)
(** * The replicated object refines the sequential one

    [nr_inv nr hist] says that [nr] has executed the operations of [hist], in
    this order, since it was created.  A call of [execute_mut] or [execute] by
    any registered thread returns, and its response is the one the sequential
    object gives after [hist]; a program of calls therefore cannot tell the
    replicated object from the sequential one ([nr_refines]). *)

From S2P Require Import Prelude Context Log NrLog RwLock Flush Replica ReplicaSpec.
From S2P Require Import ReplicaOps NodeReplicated.

Section Spec.
Context {D RO WO R A : Type} `{!Dispatch D RO WO R}.
Abbreviation rep := (Replica D WO R).
Abbreviation log := (Log WO unit unit).
Abbreviation nrep := (NodeReplicated D WO R A).
Implicit Types (nr : nrep) (f : feature) (p : rep) (l : log) (hist : list (WO * LogToken)).

(** ** Invariant *)

(** Replica [k], with nothing pending. *)
Definition rep_ok (d0 : D) l hist (k : nat) p : Prop :=
  log_tkn p = S k /\ combiner p = 0 /\ exists t, rep_inv d0 p l hist t none none.

(** Switching to the affinity of one of [n] replicas, or of the log if [numa] says so,
    and back does not panic, from [a] and from every affinity this leads to. *)
Definition aff_safe (numa : bool) (am : AffinityManager A) (n : nat) (a : A) : Prop :=
  exists P : A -> Prop, P a /\ forall a rid, P a -> (rid < N.of_nat n)%N \/ numa = true /\ rid = usize_max ->
    exists a' tkn a'', aff_switch am a rid = Ret (a', tkn) /\ aff_drop am a' tkn = Ret a'' /\ P a''.

Lemma aff_safe_round numa am n a rid :
  aff_safe numa am n a -> (rid < N.of_nat n)%N \/ numa = true /\ rid = usize_max ->
  exists a' tkn a'', aff_switch am a rid = Ret (a', tkn) /\ aff_drop am a' tkn = Ret a''
    /\ aff_safe numa am n a''.
Proof.
  intros (P & HP & Hs) Hr. destruct (Hs a rid HP Hr) as (a' & tkn & a'' & E1 & E2 & HP').
  exists a', tkn, a''. split_and!; [done|done|]. by exists P.
Qed.

Lemma aff_safe_weaken numa am n a : aff_safe numa am n a -> aff_safe false am n a.
Proof. intros (P & HP & Hs). exists P. split; [done|]. intros b rid Hb [Hr|[? _]]; [|done]. apply Hs; [done|by left]. Qed.

Definition aff_ok nr : Prop :=
  aff_safe false (affinity_mngr nr) (length (nr_replicas nr)) (nr_aff nr).

Lemma aff_ok_set nr l k p : aff_ok nr -> aff_ok (set_replicas nr l (<[k := p]> (nr_replicas nr))).
Proof. unfold aff_ok. cbn. by rewrite length_insert. Qed.

Record nr_inv f (d0 : D) nr hist : Prop := {
  ni_log : log_inv f (nr_log nr) hist;
  ni_next : log_next (nr_log nr) = S (length (nr_replicas nr));
  ni_ctail : log_ctail (nr_log nr) = length hist;
  ni_run : exists dh rh, seq_run d0 hist.*1 = Ret (dh, rh);
  ni_reps : forall k p, nr_replicas nr !! k = Some p -> rep_ok d0 (nr_log nr) hist k p;
  ni_aff : aff_ok nr;
}.

(** The token names a thread registered with one of the replicas. *)
Definition tkn_ok nr (tkn : ThreadToken) : Prop :=
  exists p, nr_replicas nr !! rid tkn = Some p /\ 1 <= rtkn tkn < r_next p.

(** How many threads each replica has registered (plus one). *)
Definition regs nr : list nat := r_next <$> nr_replicas nr.

Lemma regs_insert (ps : list rep) k p p' :
  ps !! k = Some p -> r_next p' = r_next p -> r_next <$> <[k := p']> ps = r_next <$> ps.
Proof.
  intros Hk Hn. rewrite list_fmap_insert, Hn. apply list_insert_id.
  by rewrite list_lookup_fmap, Hk.
Qed.

Lemma tkn_ok_regs nr nr' tkn : regs nr' = regs nr -> tkn_ok nr tkn -> tkn_ok nr' tkn.
Proof.
  intros Hr (p & Hp & Hi). unfold regs in Hr.
  assert (H : (r_next <$> nr_replicas nr') !! rid tkn = Some (r_next p))
    by (by rewrite Hr, list_lookup_fmap, Hp).
  apply list_lookup_fmap_Some in H as (p' & Hn & Hp'). exists p'. split; [done|]. lia.
Qed.

(** In the middle of a call on replica [k], whose state satisfies [Q]. *)
Record nr_mid f (d0 : D) nr hist (k : nat) (Q : rep -> log -> Prop) : Prop := {
  nm_log : log_inv f (nr_log nr) hist;
  nm_next : log_next (nr_log nr) = S (length (nr_replicas nr));
  nm_run : exists dh rh, seq_run d0 hist.*1 = Ret (dh, rh);
  nm_others : forall j p, j <> k -> nr_replicas nr !! j = Some p -> rep_ok d0 (nr_log nr) hist j p;
  nm_own : exists p, nr_replicas nr !! k = Some p /\ log_tkn p = S k /\ Q p (nr_log nr);
  nm_aff : aff_ok nr;
}.

(** Thread [idx] of the replica has operation [o] pending and holds the combiner
    lock. *)
Definition pending (d0 : D) hist (idx : nat) (o : WO) p l : Prop :=
  combiner p = 1 /\ 1 <= idx < r_next p
  /\ exists t, rep_inv d0 p l hist t (only (idx - 1) (o, tt)) none.

(** ** Running on one replica *)

Lemma on_replica_run {X} nr k p (op : rep -> log -> res (X * rep * log)) x p' l' :
  nr_replicas nr !! k = Some p -> op p (nr_log nr) = Ret (x, p', l') ->
  on_replica nr k op = Ret (x, set_replicas nr l' (<[k := p']> (nr_replicas nr))).
Proof.
  intros Hk Hop. unfold on_replica. rewrite (vget_lookup _ _ _ Hk). mon. rewrite Hop. mon.
  by rewrite vset_lt by (by eapply lookup_lt_Some).
Qed.

Lemma on_stuck_run nr k p (op : rep -> log -> res (rep * log)) p' l' :
  nr_replicas nr !! k = Some p -> op p (nr_log nr) = Ret (p', l') ->
  aff_ok nr ->
  exists a', let nr' := set_aff (set_replicas nr l' (<[k := p']> (nr_replicas nr))) a' in
    on_stuck nr k op = Ret nr' /\ aff_ok nr'.
Proof.
  intros Hk Hop Hs. pose proof (lookup_lt_Some _ _ _ Hk).
  destruct (aff_safe_round _ _ _ _ (N.of_nat k) Hs) as (a' & tkn & a'' & E1 & E2 & Hs'); [lia|].
  exists a''. split; [|by unfold aff_ok; cbn; rewrite length_insert]. unfold on_stuck. rewrite E1. mon.
  rewrite (on_replica_run (set_aff nr a') k p _ tt p' l') by (done || by cbn; rewrite Hop).
  mon. cbn. by rewrite E2.
Qed.

(** A step of replica [k] and the invariant of another one. *)
Lemma rep_ok_step f d0 l l' hist ops k j p :
  log_inv f l hist -> log_frame (S k) l l' -> j <> k ->
  rep_ok d0 l hist j p -> rep_ok d0 l' (hist ++ tagged (S k) ops) j p.
Proof.
  intros Hinv Hfr Hj (Htk & Hc & t & Hr). split; [done|]. split; [done|].
  exists t. eapply rep_inv_other; try done; lia.
Qed.

Lemma rep_ok_step_same f d0 l l' hist k j p :
  log_inv f l hist -> log_frame (S k) l l' -> j <> k ->
  rep_ok d0 l hist j p -> rep_ok d0 l' hist j p.
Proof.
  intros. rewrite <- (app_nil_r hist). change (@nil (WO * nat)) with (tagged (S k) (@nil WO)).
  by eapply rep_ok_step.
Qed.

(** The replica with everything replayed puts the completed tail at the end. *)
Lemma ctail_end f d0 p l hist pq rq :
  log_inv f l hist -> rep_inv d0 p l hist (length hist) pq rq -> log_ctail l = length hist.
Proof. intros Hinv Hrep. pose proof (rep_inv_len _ _ _ _ _ _ _ _ Hinv Hrep). lia. Qed.

(** ** How many replicas lag behind *)

Definition lagging l : nat := count (fun t => t <? log_tail l) (registered_ltails l).

Lemma frame_registered idx l l' t t' :
  log_frame idx l l' -> at_tail l idx t -> at_tail l' idx t' ->
  registered_ltails l' = <[idx - 1 := t']> (registered_ltails l).
Proof.
  intros [_ Hn Hl] [_ Ht0] [Hidx Ht]. apply list_eq. intros i.
  destruct (decide (i = idx - 1)) as [->|Hi].
  - rewrite Ht. symmetry. apply list_lookup_insert_eq. by eapply lookup_lt_Some.
  - rewrite list_lookup_insert_ne by done. unfold registered_ltails. rewrite Hn.
    destruct (decide (i < log_next l - 1)).
    + rewrite !lookup_take_lt by done. by apply Hl.
    + rewrite !lookup_take_ge by lia. done.
Qed.

(** A replica that replays everything is no longer counted. *)
Lemma lagging_step f l l' hist idx t :
  log_inv f l hist -> log_inv f l' hist -> log_frame idx l l' ->
  at_tail l idx t -> at_tail l' idx (length hist) ->
  lagging l' + b2n (t <? length hist) = lagging l.
Proof.
  intros Hinv Hinv' Hfr Hat Hat'. unfold lagging.
  rewrite (frame_registered _ _ _ _ _ Hfr Hat Hat').
  rewrite (inv_tail _ _ _ Hinv), (inv_tail _ _ _ Hinv').
  pose proof (count_insert (fun t => t <? length hist) _ _ _ (length hist) (proj2 Hat)) as H.
  cbn beta in H. rewrite Nat.ltb_irrefl in H. unfold b2n. lia.
Qed.

Lemma behind_lagging l idx k : behind l idx k -> 0 < lagging l.
Proof.
  intros (_ & u & Hu & Hlt). eapply count_pos; [exact Hu|]. by apply Nat.ltb_lt.
Qed.

Lemma lagging_bound f l hist : log_inv f l hist -> lagging l <= MAX_REPLICAS_PER_LOG.
Proof.
  intros Hinv. etransitivity; [apply count_le|]. unfold registered_ltails.
  rewrite length_take, (inv_nltails _ _ _ Hinv). lia.
Qed.

(** A replica that is behind exists, is not the caller's, and can be synced. *)
Lemma behind_replica f d0 nr hist k Q j :
  nr_mid f d0 nr hist k Q -> behind (nr_log nr) (S k) j ->
  j <> k /\ exists p t, nr_replicas nr !! j = Some p /\ log_tkn p = S j /\ combiner p = 0
    /\ rep_inv d0 p (nr_log nr) hist t none none /\ t < length hist.
Proof.
  intros [Hinv Hnext _ Ho _] (Hne & u & Hu & Hlt). cbn in Hne. rewrite Nat.sub_0_r in Hne.
  split; [done|].
  destruct (lookup_lt_is_Some_2 (nr_replicas nr) j) as [p Hp].
  { apply registered_lookup in Hu as [Hu _]. lia. }
  destruct (Ho j p Hne Hp) as (Htk & Hc & t & Hr). exists p, t. split_and!; try done.
  destruct Hr as [[_ Ht] _ _ _ _ _ _ _]. rewrite Htk in Ht. cbn in Ht.
  rewrite Nat.sub_0_r in Ht. rewrite Ht in Hu. injection Hu as ->.
  by rewrite <- (inv_tail _ _ _ Hinv).
Qed.

(** [try_sync] on the replica that is behind, in the middle of a call. *)
Lemma sync_stuck f d0 nr hist k Q j :
  nr_mid f d0 nr hist k Q -> behind (nr_log nr) (S k) j ->
  (forall p l l', Q p l -> log_inv f l hist -> log_frame (S j) l l' -> Q p l') ->
  exists nr', on_stuck nr j (try_sync f) = Ret nr' /\ nr_mid f d0 nr' hist k Q
    /\ regs nr' = regs nr
    /\ lagging (nr_log nr') < lagging (nr_log nr).
Proof.
  intros Hmid Hb HQ. destruct (behind_replica _ _ _ _ _ _ _ Hmid Hb)
    as (Hjk & p & t & Hp & Htk & Hc & Hr & Ht).
  destruct Hmid as [Hinv Hnext (dh & rh & Hrun) Ho (q & Hq & Hqt & HQq) Haff].
  destruct (try_sync_run f d0 p (nr_log nr) hist t none none dh rh Hinv Hr Hc Hrun)
    as (E & Hinv' & Hr').
  rewrite Htk in E, Hinv', Hr'. pose proof (synced_frame (S j) (nr_log nr)) as Hfr.
  destruct (on_stuck_run nr j p _ _ _ Hp E Haff) as (a' & Es & Haff').
  eexists. split; [exact Es|]. split_and!.
  - split; cbn [nr_log nr_replicas set_aff set_replicas]; [done| |by eexists _, _| | |done].
    + by rewrite length_insert.
    + intros i p' Hi Hp'. destruct (decide (i = j)) as [->|Hij].
      * rewrite list_lookup_insert_eq in Hp' by (by eapply lookup_lt_Some).
        injection Hp' as <-. split_and!; [done|done|]. by eexists.
      * rewrite list_lookup_insert_ne in Hp' by done.
        apply (rep_ok_step_same f d0 (nr_log nr) _ hist j i p'); try done. by apply Ho.
    + exists q. rewrite list_lookup_insert_ne by done. split_and!; try done. by eapply HQ.
  - cbn. by apply (regs_insert _ _ p).
  - cbn [nr_log set_aff set_replicas].
    pose proof (lagging_step f (nr_log nr) _ hist (S j) t Hinv Hinv' Hfr) as Hlag.
    destruct Hr as [Hat _ _ _ _ _ _ _], Hr' as [Hat' _ _ _ _ _ _ _].
    rewrite Htk in Hat. specialize (Hlag Hat). cbn [log_tkn set_r_data] in Hat'.
    rewrite Htk in Hat'. specialize (Hlag Hat').
    destruct (Nat.ltb_spec t (length hist)); unfold b2n in Hlag; lia.
Qed.

(** ** Writes *)

Lemma pending_frame f d0 hist idx o k p l l' j :
  j <> k -> log_tkn p = S k -> pending d0 hist idx o p l -> log_inv f l hist ->
  log_frame (S j) l l' -> pending d0 hist idx o p l'.
Proof.
  intros Hj Htk (Hc & Hi & t & Hr) Hinv Hfr. split_and!; try done; try lia. exists t.
  rewrite <- (app_nil_r hist). change (@nil (WO * nat)) with (tagged (S j) (@nil WO)).
  eapply rep_inv_other; try done; lia.
Qed.

(** What is left of a call once an attempt ended with [write_post]: either the call
    returns [y], or another replica has to be synced first. *)
Definition write_resolved f (d0 : D) hist (tkn : ThreadToken) (o : WO) (y : R) (m : nat) (rg : list nat)
    (r : res ((list (ResolveOp unit) * nrep) + (R * nrep))) : Prop :=
  (exists nr', r = Ret (inr (y, nr'))
     /\ nr_inv f d0 nr' (hist ++ [(o, S (rid tkn))]) /\ regs nr' = rg)
  \/ (exists j nr', r = Ret (inl ([RSync j; RExec true tt], nr'))
     /\ nr_mid f d0 nr' hist (rid tkn) (fun p l => log_tkn p = S (rid tkn)
          /\ pending d0 hist (rtkn tkn) o p l)
     /\ behind (nr_log nr') (S (rid tkn)) j /\ lagging (nr_log nr') <= m
     /\ regs nr' = rg).

(** The state of all replicas after an appended write. *)
Lemma after_append f d0 nr hist tkn o d' rs y p p' l' (rq : nat -> list R) :
  log_inv f (nr_log nr) hist -> log_next (nr_log nr) = S (length (nr_replicas nr)) ->
  (forall j q, j <> rid tkn -> nr_replicas nr !! j = Some q -> rep_ok d0 (nr_log nr) hist j q) ->
  nr_replicas nr !! rid tkn = Some p -> log_tkn p = S (rid tkn) ->
  seq_run d0 (hist.*1 ++ [o]) = Ret (d', rs ++ [y]) ->
  log_frame (S (rid tkn)) (nr_log nr) l' -> log_inv f l' (hist ++ [(o, S (rid tkn))]) ->
  log_tkn p' = S (rid tkn) -> combiner p' = 0 ->
  rep_inv d0 p' l' (hist ++ [(o, S (rid tkn))]) (length hist + 1) none rq -> aff_ok nr ->
  let nr1 := set_replicas nr l' (<[rid tkn := p']> (nr_replicas nr)) in
  nr_mid f d0 nr1 (hist ++ [(o, S (rid tkn))]) (rid tkn) (fun q l =>
    combiner q = 0 /\ rep_inv d0 q l (hist ++ [(o, S (rid tkn))]) (length hist + 1) none rq)
  /\ log_ctail l' = length (hist ++ [(o, S (rid tkn))]).
Proof.
  intros Hinv Hnext Ho Hp Htk Hrun Hfr Hinv' Htk' Hc' Hr' Haff nr1. split.
  - split; cbn [nr1 nr_log nr_replicas set_replicas]; [done| | | | |by apply aff_ok_set].
    + rewrite length_insert, <- Hnext. apply Hfr.
    + rewrite fmap_app. eexists _, _. exact Hrun.
    + intros j q Hj Hq. rewrite list_lookup_insert_ne in Hq by done.
      change [(o, S (rid tkn))] with (tagged (S (rid tkn)) [o]).
      eapply rep_ok_step; eauto.
    + exists p'. rewrite list_lookup_insert_eq by (by eapply lookup_lt_Some). done.
  - eapply ctail_end; [exact Hinv'|]. rewrite length_app. cbn. exact Hr'.
Qed.

Lemma mid_inv f d0 nr hist k :
  nr_mid f d0 nr hist k (fun p l => combiner p = 0 /\ rep_inv d0 p l hist (length hist) none none) ->
  nr_inv f d0 nr hist.
Proof.
  intros [Hinv Hnext Hrun Ho (p & Hp & Htk & Hc & Hr) Haff]. split; try done.
  - by eapply ctail_end.
  - intros j q Hq. destruct (decide (j = k)) as [->|]; [|by apply Ho].
    rewrite Hp in Hq. injection Hq as <-. split_and!; try done. by eexists.
Qed.

Lemma write_resolve f d0 nr hist tkn o d' rs y p r p' l' m :
  log_inv f (nr_log nr) hist -> log_next (nr_log nr) = S (length (nr_replicas nr)) ->
  (exists dh rh, seq_run d0 hist.*1 = Ret (dh, rh)) ->
  (forall j q, j <> rid tkn -> nr_replicas nr !! j = Some q -> rep_ok d0 (nr_log nr) hist j q) ->
  nr_replicas nr !! rid tkn = Some p -> log_tkn p = S (rid tkn) ->
  1 <= rtkn tkn < r_next p ->
  (exists t pq rq, rep_inv d0 p (nr_log nr) hist t pq rq) ->
  seq_run d0 (hist.*1 ++ [o]) = Ret (d', rs ++ [y]) ->
  write_post f d0 p (nr_log nr) hist (rtkn tkn) o y r p' l' -> lagging (nr_log nr) <= m ->
  aff_ok nr ->
  write_resolved f d0 hist tkn o y m (regs nr)
    (execute_mut_resolve f tkn [] r (set_replicas nr l' (<[rid tkn := p']> (nr_replicas nr)))).
Proof.
  intros Hinv Hnext Hh Ho Hp Htk Hidx (t & pq & rq & Hrep) Hrun (Hfr & Hpf & Hpost) Hm Haff.
  rewrite Htk in *. destruct Hpf as [Ht1 Hn1 _ _ _]. rewrite Htk in Ht1.
  assert (Hlen : length (hist ++ [(o, S (rid tkn))]) = length hist + 1) by (by rewrite length_app).
  destruct r as [z|[k|k]]; cbn [execute_mut_resolve].
  - destruct Hpost as (-> & Hinv' & Hc' & Hr'). left.
    destruct (after_append f d0 nr hist tkn o d' rs y p p' l' none) as [Hmid _]; try done.
    eexists. split; [done|]. split; [|by apply (regs_insert _ _ p)].
    rewrite <- Hlen in Hmid. by eapply mid_inv.
  - destruct Hpost as (Hinv' & Hc' & Hr' & Hb). right. exists k.
    unfold qpush. cbn. eexists. split; [done|]. split_and!; cbn; [|done| |by apply (regs_insert _ _ p)].
    + split; cbn; [done|by rewrite length_insert, <- Hnext; apply Hfr|done| | |by apply aff_ok_set].
      * intros j q Hj Hq. rewrite list_lookup_insert_ne in Hq by done.
        apply (rep_ok_step_same f d0 (nr_log nr) _ hist (rid tkn) j q); try done. by apply Ho.
      * exists p'. rewrite list_lookup_insert_eq by (by eapply lookup_lt_Some).
        split_and!; try done. split_and!; [done|lia..|by eexists].
    + destruct Hrep as [Hat _ _ _ _ _ _ _], Hr' as [Hat' _ _ _ _ _ _ _].
      rewrite Htk in Hat. rewrite Ht1 in Hat'.
      pose proof (lagging_step f _ _ _ _ _ Hinv Hinv' Hfr Hat Hat'). lia.
  - destruct Hpost as (Hinv' & Hc' & Hr' & Hb). left.
    destruct (after_append f d0 nr hist tkn o d' rs y p p' l' (only (rtkn tkn - 1) y))
      as [Hmid Hct]; try done.
    set (nr1 := set_replicas _ _ _) in *.
    destruct (behind_replica _ _ _ _ _ _ _ Hmid Hb) as (Hjk & q & u & Hq & Hqt & Hqc & Hqr & Hu).
    destruct (Nat.eqb_spec k (rid tkn)); [done|]. cbn [rassert negb]. mon.
    destruct (replica_sync_run f d0 q (nr_log nr1) _ u none none d' (rs ++ [y]) Hinv' Hqr Hqc)
      as (dq & l2 & u' & Es & Hfr2 & Hinv2 & Hqr2 & _).
    { by rewrite fmap_app. }
    destruct (on_stuck_run nr1 k q _ _ _ Hq Es) as (a2 & Es2 & Haff2); [by apply aff_ok_set|].
    rewrite Es2. mon. rewrite Hqt in Hfr2.
    assert (Hown : nr_replicas nr1 !! rid tkn = Some p').
    { cbn. by rewrite list_lookup_insert_eq by (by eapply lookup_lt_Some). }
    assert (Hr2 : rep_inv d0 p' l2 (hist ++ [(o, S (rid tkn))]) (length hist + 1) none
                    (only (rtkn tkn - 1) y)).
    { rewrite <- (app_nil_r (hist ++ _)).
      change (@nil (WO * nat)) with (tagged (S k) (@nil WO)).
      apply (rep_inv_other f d0 p' l' l2); try done; lia. }
    destruct (get_response_run f d0 p' l2 _ _ _ _ (rtkn tkn) y [] Hr2) as (cs & Eg & Hr3).
    { destruct Hrep. lia. }
    { unfold only. by rewrite Nat.eqb_refl. }
    rewrite (on_replica_run _ (rid tkn) p' _ (Ok y) (set_contexts p' cs) l2); [mon| |done].
    2: { cbn [nr_replicas set_aff set_replicas]. by rewrite list_lookup_insert_ne by done. }
    eexists. split; [done|]. split.
    2: { unfold regs. cbn. rewrite (regs_insert _ _ p'), (regs_insert _ _ q), (regs_insert _ _ p);
         try done. by rewrite list_lookup_insert_ne by done. }
    destruct Hmid as [_ Hnext1 Hrun1 Ho1 _ _].
    apply (mid_inv _ _ _ _ (rid tkn)). split; cbn [nr_log nr_replicas set_aff set_replicas].
    + done.
    + rewrite !length_insert. rewrite (frame_next _ _ _ Hfr2), Hnext1. cbn.
      by rewrite length_insert.
    + done.
    + intros j q' Hj Hq'. rewrite list_lookup_insert_ne in Hq' by done.
      destruct (decide (j = k)) as [->|Hjk'].
      * rewrite list_lookup_insert_eq in Hq' by (by eapply lookup_lt_Some).
        injection Hq' as <-. split_and!; try done. by eexists.
      * rewrite list_lookup_insert_ne in Hq' by done.
        apply (rep_ok_step_same f d0 (nr_log nr1) _ _ k j q'); try done. by apply Ho1.
    + eexists. rewrite list_lookup_insert_eq.
      2: { rewrite length_insert. by eapply lookup_lt_Some. }
      split_and!; try done. rewrite Hlen. eapply rep_inv_ext; [exact Hr3|].
      intros i _. split; [done|]. cbn. unfold only, none. by destruct (i =? rtkn tkn - 1).
    + by apply aff_ok_set.
Qed.

Lemma execute_mut_body_sync f o tkn q nr j :
  j <> rid tkn ->
  execute_mut_body f o tkn (RSync j :: q, nr)
  = nr1 ← on_stuck nr j (try_sync f); Ret (inl (q, nr1)).
Proof.
  intros Hj. cbn [execute_mut_body]. by destruct (Nat.eqb_spec j (rid tkn)).
Qed.

(** From a pending write with the lock held, the loop returns. *)
Lemma write_loop f d0 hist tkn o d' rs y m : forall fuel nr,
  nr_mid f d0 nr hist (rid tkn) (fun p l => log_tkn p = S (rid tkn)
    /\ pending d0 hist (rtkn tkn) o p l) ->
  seq_run d0 (hist.*1 ++ [o]) = Ret (d', rs ++ [y]) ->
  lagging (nr_log nr) <= m -> 2 * m + 1 <= fuel ->
  exists nr', loop_nat fuel (execute_mut_body f o tkn) ([RExec true tt], nr) = Ret (inr (y, nr'))
    /\ nr_inv f d0 nr' (hist ++ [(o, S (rid tkn))])
    /\ regs nr' = regs nr.
Proof.
  induction m as [m IH] using lt_wf_ind. intros fuel nr Hmid Hrun Hm Hfuel.
  destruct fuel as [|fuel]; [lia|]. cbn [loop_nat].
  pose proof Hmid as [Hinv Hnext Hh Ho (p & Hp & Htk & _ & Hc & Hidx & t & Hr) Haff].
  destruct (execute_mut_locked_run f d0 p (nr_log nr) hist t (rtkn tkn) o d' rs y
              Hinv Hr Hidx Hc Hrun) as (r & p' & l' & E & Hpost).
  assert (Ebody : execute_mut_body f o tkn ([RExec true tt], nr)
    = execute_mut_resolve f tkn [] r (set_replicas nr l' (<[rid tkn := p']> (nr_replicas nr)))).
  { cbn [execute_mut_body]. unfold try_execute_mut.
    by rewrite (on_replica_run nr (rid tkn) p _ r p' l' Hp E). }
  rewrite Ebody.
  destruct (write_resolve f d0 nr hist tkn o d' rs y p r p' l' m Hinv Hnext Hh Ho Hp Htk Hidx)
    as [(nr' & -> & H1 & H2)|(j & nr1 & -> & Hmid1 & Hb & Hlag & Hlen1)]; try done; [by eexists _, _, _| |].
  - mon. eauto.
  - mon. pose proof (behind_lagging _ _ _ Hb) as Hpos.
    destruct fuel as [|fuel]; [lia|]. cbn [loop_nat].
    destruct (behind_replica _ _ _ _ _ _ _ Hmid1 Hb) as (Hjk & _).
    rewrite execute_mut_body_sync by done.
    destruct (sync_stuck f d0 nr1 hist (rid tkn) _ j Hmid1 Hb) as (nr2 & -> & Hmid2 & Hlen2 & Hlag2).
    { intros q l l'' [Hq1 Hq2] Hli Hfr. split; [done|]. by eapply pending_frame. }
    mon. destruct (IH (lagging (nr_log nr2)) ltac:(lia) fuel nr2 Hmid2 Hrun)
      as (nr' & E' & H1 & H2); [lia|lia|].
    exists nr'. split_and!; [exact E'|done|congruence].
Qed.

Lemma execute_mut_runs f d0 nr hist tkn o d' rs y :
  nr_inv f d0 nr hist -> tkn_ok nr tkn ->
  seq_run d0 (hist.*1 ++ [o]) = Ret (d', rs ++ [y]) ->
  exists nr', execute_mut f nr o tkn = Ret (y, nr')
    /\ nr_inv f d0 nr' (hist ++ [(o, S (rid tkn))])
    /\ regs nr' = regs nr.
Proof.
  intros [Hinv Hnext Hct Hh Hreps Haff] (p & Hp & Hidx) Hrun.
  destruct (Hreps _ _ Hp) as (Htk & Hc & t & Hr).
  destruct (execute_mut_run f d0 p (nr_log nr) hist t (rtkn tkn) o d' rs y
              Hinv Hr Hidx Hc Hrun) as (r & p' & l' & E & Hpost).
  unfold execute_mut, rloop. rewrite loop_pos_nat.
  assert (exists n, Pos.to_nat 64 = S (S n) /\ 33 <= n) as (n & -> & Hn)
    by (exists 62; split; [reflexivity|lia]).
  cbn [loop_nat].
  assert (Ebody : execute_mut_body f o tkn ([], nr)
    = execute_mut_resolve f tkn [] r (set_replicas nr l' (<[rid tkn := p']> (nr_replicas nr)))).
  { cbn [execute_mut_body]. unfold try_execute_mut.
    by rewrite (on_replica_run nr (rid tkn) p _ r p' l' Hp E). }
  rewrite Ebody.
  pose proof (lagging_bound _ _ _ Hinv) as Hlb.
  destruct (write_resolve f d0 nr hist tkn o d' rs y p r p' l' MAX_REPLICAS_PER_LOG
              Hinv Hnext Hh (fun j q _ => Hreps j q) Hp Htk Hidx)
    as [(nr' & -> & H1 & H2)|(j & nr1 & -> & Hmid1 & Hb & Hlag & Hlen1)]; try done;
    [by eexists _, _, _| |].
  - mon. eauto.
  - mon.
    destruct (behind_replica _ _ _ _ _ _ _ Hmid1 Hb) as (Hjk & _).
    rewrite execute_mut_body_sync by done.
    destruct (sync_stuck f d0 nr1 hist (rid tkn) _ j Hmid1 Hb) as (nr2 & -> & Hmid2 & Hlen2 & Hlag2).
    { intros q l l'' [Hq1 Hq2] Hli Hfr. split; [done|]. by eapply pending_frame. }
    mon. assert (HM : MAX_REPLICAS_PER_LOG = 16) by done.
    destruct (write_loop f d0 hist tkn o d' rs y (lagging (nr_log nr2)) n nr2 Hmid2 Hrun)
      as (nr' & E' & H1 & H2); [lia|lia|].
    rewrite E'. mon. exists nr'. split_and!; [done|done|congruence].
Qed.

(** ** Reads *)

(** One attempt of a read: bring the replica up to date (under the lock if [cl]),
    read, and let [post] record the response. *)
Definition read_attempt f (post : R -> rep -> res rep) (o : RO) (idx : nat) (cl : bool) p l
  : res (result R ReplicaError * rep * log) :=
  '(r, p1, l1) ← (if cl then locked_sync f p l else read_sync f p l (get_ctail l));
  match r with
  | Err e => Ret (Err e, p1, l1)
  | Ok _ =>
      '(resp, p2) ← read_dispatch p1 o idx;
      p3 ← post resp p2;
      Ret (Ok resp, if cl then combiner_unlock p3 else p3, l1)
  end.

Lemma try_execute_attempt f nr (o : RO) tkn cl :
  try_execute f nr o tkn cl
  = on_replica nr (rid tkn) (read_attempt f (fun _ p => Ret p) o (rtkn tkn) cl).
Proof. by destruct cl. Qed.

Lemma try_execute_anchor_attempt f nr (o : RO) tkn cl :
  try_execute_anchor f nr o tkn cl
  = on_replica nr (rid tkn) (read_attempt f (fun resp p => anchor p resp (rtkn tkn)) o (rtkn tkn) cl).
Proof. by destruct cl. Qed.

(** [post] returns and leaves alone what the invariant is about. *)
Definition post_ok (post : R -> rep -> res rep) : Prop :=
  forall d0 p l hist t resp, rep_inv d0 p l hist t none none ->
  exists p', post resp p = Ret p' /\ rep_inv d0 p' l hist t none none
    /\ log_tkn p' = log_tkn p /\ combiner p' = combiner p /\ r_next p' = r_next p.

Lemma anchor_ok idx : 1 <= idx <= MAX_THREADS_PER_REPLICA ->
  post_ok (fun resp p => anchor p resp idx).
Proof.
  intros Hidx d0 p l hist t resp []. unfold anchor. rewrite usub_le by lia. mon.
  rewrite vset_lt by lia. mon. eexists. split; [done|]. split_and!; try done.
  split; cbn; try done. by rewrite length_insert.
Qed.

(** An attempt on a replica that is up to date succeeds. *)
Lemma read_attempt_synced f post d0 p l hist dh rh (o : RO) idx (cl : bool) z :
  post_ok post -> rep_inv d0 p l hist (length hist) none none -> log_ctail l <= length hist ->
  1 <= idx <= MAX_THREADS_PER_REPLICA -> combiner p = (if cl then 1 else 0) ->
  seq_run d0 hist.*1 = Ret (dh, rh) -> dispatch dh o = Ret z ->
  exists p', read_attempt f post o idx cl p l = Ret (Ok z, p', l)
    /\ log_tkn p' = log_tkn p /\ r_next p' = r_next p /\ combiner p' = 0
    /\ rep_inv d0 p' l hist (length hist) none none.
Proof.
  intros Hpost Hr Hct Hidx Hc Hrun Hz. unfold read_attempt, get_ctail.
  assert (Hsync : (if cl then locked_sync f p l else read_sync f p l (log_ctail l))
                  = Ret (Ok tt, p, l)).
  { destruct cl; [|by eapply read_sync_synced]. unfold locked_sync, get_ctail.
    rewrite (synced_check _ _ _ _ _ _ _ _ Hr). mon.
    destruct (Nat.leb_spec (log_ctail l) (length hist)); [|lia]. mon.
    rewrite (synced_check _ _ _ _ _ _ _ _ Hr). mon.
    destruct (Nat.leb_spec (log_ctail l) (length hist)); [|lia]. cbn [rassert]. mon.
    by eapply read_sync_synced. }
  rewrite Hsync. mon. pose proof Hr as [_ (d & rs & Hd & Hdata) _ _ _ _ _ _].
  rewrite take_ge in Hd by done. rewrite Hrun in Hd. injection Hd as <- <-.
  rewrite (read_dispatch_run _ dh) by done. rewrite Hz. mon.
  destruct (Hpost _ _ _ _ _ z Hr) as (p' & -> & Hr' & ? & ? & ?). mon.
  eexists. split; [done|]. destruct cl; split_and!; try done; try congruence.
  by apply set_combiner_inv.
Qed.

Lemma read_attempt_run f post d0 p l hist t dh rh (o : RO) idx z :
  post_ok post -> log_inv f l hist -> rep_inv d0 p l hist t none none ->
  log_ctail l = length hist -> 1 <= idx <= MAX_THREADS_PER_REPLICA -> combiner p = 0 ->
  seq_run d0 hist.*1 = Ret (dh, rh) -> dispatch dh o = Ret z ->
  exists r p' l', read_attempt f post o idx false p l = Ret (r, p', l')
    /\ log_frame (log_tkn p) l l' /\ log_inv f l' hist
    /\ log_tkn p' = log_tkn p /\ r_next p' = r_next p
    /\ rep_inv d0 p' l' hist (length hist) none none
    /\ match r with
       | Ok z' => z' = z /\ combiner p' = 0
       | Err (GcFailed k) => combiner p' = 0 /\ behind l' (log_tkn p) k
       | Err (NoLogSpace k) => combiner p' = 1 /\ behind l' (log_tkn p) k
       end.
Proof.
  intros Hpost Hinv Hr Hct Hidx Hc Hrun Hz. unfold read_attempt.
  destruct (read_sync_run f d0 p l hist t dh rh Hinv Hr Hc Hrun)
    as (r & p1 & l1 & t1 & E & (Hfr & [] & Hinv1 & Hr1 & Hcase) & Hc1).
  rewrite E. mon. destruct r as [[]|[k|k]].
  - pose proof (rep_inv_len _ _ _ _ _ _ _ _ Hinv1 Hr1).
    assert (t1 = length hist) as -> by lia.
    pose proof Hr1 as [_ (d & rs & Hd & Hdata) _ _ _ _ _ _].
    rewrite take_ge in Hd by done. rewrite Hrun in Hd. injection Hd as <- <-.
    rewrite (read_dispatch_run _ dh) by done. rewrite Hz. mon.
    destruct (Hpost _ _ _ _ _ z Hr1) as (p' & -> & Hr' & ? & ? & ?). mon.
    exists (Ok z), p', l1. specialize (Hc1 eq_refl). split_and!; try done; congruence.
  - destruct Hcase as (? & ? & ->). exists (Err (NoLogSpace k)), p1, l1. by split_and!.
  - destruct Hcase as (? & ? & ->). exists (Err (GcFailed k)), p1, l1. by split_and!.
Qed.

(** The middle of a read, after a failed attempt. *)
Definition read_again (d0 : D) hist (k : nat) (cl : bool) p l : Prop :=
  log_tkn p = S k /\ combiner p = (if cl then 1 else 0)
  /\ rep_inv d0 p l hist (length hist) none none.

Lemma read_again_frame f d0 hist k cl p l l' j :
  j <> k -> read_again d0 hist k cl p l -> log_inv f l hist -> log_frame (S j) l l' ->
  read_again d0 hist k cl p l'.
Proof.
  intros Hj (Htk & Hc & Hr) Hinv Hfr. split_and!; try done.
  assert (H : rep_inv d0 p l' (hist ++ tagged (S j) []) (length hist) none none)
    by (eapply rep_inv_other; try done; lia).
  by rewrite app_nil_r in H.
Qed.

(** Putting the replica's new state back. *)
Lemma mid_set f d0 nr hist k Q p p' l' (Q' : rep -> log -> Prop) :
  nr_mid f d0 nr hist k Q -> nr_replicas nr !! k = Some p -> log_frame (S k) (nr_log nr) l' ->
  log_inv f l' hist -> log_tkn p' = S k -> Q' p' l' ->
  nr_mid f d0 (set_replicas nr l' (<[k := p']> (nr_replicas nr))) hist k Q'.
Proof.
  intros [Hinv Hnext Hrun Ho _ Haff] Hp Hfr Hinv' Htk HQ. split; cbn; try done.
  - by rewrite length_insert, (frame_next _ _ _ Hfr).
  - intros j q Hj Hq. rewrite list_lookup_insert_ne in Hq by done.
    apply (rep_ok_step_same f d0 (nr_log nr) _ hist k j q); try done. by apply Ho.
  - exists p'. by rewrite list_lookup_insert_eq by (by eapply lookup_lt_Some).
  - by apply aff_ok_set.
Qed.

Lemma read_runs f post (try_exec : nrep -> RO -> ThreadToken -> bool -> res (result R ReplicaError * nrep))
    d0 nr hist tkn (o : RO) dh rh z :
  post_ok post ->
  (forall nr cl, try_exec nr o tkn cl = on_replica nr (rid tkn) (read_attempt f post o (rtkn tkn) cl)) ->
  nr_inv f d0 nr hist -> tkn_ok nr tkn ->
  seq_run d0 hist.*1 = Ret (dh, rh) -> dispatch dh o = Ret z ->
  exists nr', rloop 64 (execute_body f try_exec tkn) ([RExec false o], nr) = Ret (z, nr')
    /\ nr_inv f d0 nr' hist /\ regs nr' = regs nr.
Proof.
  intros Hpost Htry [Hinv Hnext Hct Hh Hreps Haff] (p & Hp & Hidx) Hrun Hz.
  destruct (Hreps _ _ Hp) as (Htk & Hc & t & Hr).
  assert (Hmid : nr_mid f d0 nr hist (rid tkn) (fun _ _ => True)).
  { split; try done; [by intros j q _; apply Hreps|by eauto]. }
  assert (Hmax : 1 <= rtkn tkn <= MAX_THREADS_PER_REPLICA) by (destruct Hr; lia).
  destruct (read_attempt_run f post d0 p (nr_log nr) hist t dh rh o (rtkn tkn) z)
    as (r & p1 & l1 & E & Hfr & Hinv1 & Htk1 & Hn1 & Hr1 & Hcase); try done.
  rewrite Htk in Hfr, Htk1, Hcase. unfold rloop. rewrite loop_pos_nat.
  assert (exists n, Pos.to_nat 64 = S (S (S n))) as (n & ->) by (exists 61; reflexivity).
  cbn [loop_nat]. set (nr1 := set_replicas nr l1 (<[rid tkn := p1]> (nr_replicas nr))).
  assert (Hregs1 : regs nr1 = regs nr) by (by apply (regs_insert _ _ p)).
  assert (E1 : try_exec nr o tkn false = Ret (r, nr1))
    by (rewrite Htry; by apply (on_replica_run nr (rid tkn) p)).
  destruct r as [z'|e].
  { destruct Hcase as [-> Hc1]. exists nr1. cbn [execute_body]. rewrite E1. mon.
    cbn [length Nat.eqb rassert]. mon. split; [done|]. split; [|done].
    eapply mid_inv, mid_set; eauto. }
  set (cl := match e with NoLogSpace _ => true | GcFailed _ => false end).
  set (k := match e with NoLogSpace k => k | GcFailed k => k end).
  assert (Hb : behind (nr_log nr1) (S (rid tkn)) k) by (destruct e; apply Hcase).
  assert (Hmid1 : nr_mid f d0 nr1 hist (rid tkn) (read_again d0 hist (rid tkn) cl)).
  { eapply mid_set; eauto. split_and!; try done. destruct e; apply Hcase. }
  destruct (behind_replica _ _ _ _ _ _ _ Hmid1 Hb) as (Hjk & _).
  assert (E2 : execute_body f try_exec tkn ([RExec false o], nr)
               = Ret (inl ([RSync k; RExec cl o], nr1))).
  { cbn [execute_body]. rewrite E1. mon. subst k cl.
    destruct e as [k|k]; destruct (Nat.eqb_spec k (rid tkn)); done. }
  rewrite E2. mon.
  destruct (sync_stuck f d0 nr1 hist (rid tkn) _ k Hmid1 Hb) as (nr2 & Es & Hmid2 & Hregs2 & _).
  { intros q l l'. intros. by eapply read_again_frame. }
  assert (E3 : execute_body f try_exec tkn ([RSync k; RExec cl o], nr1)
               = Ret (inl ([RExec cl o], nr2))).
  { cbn [execute_body]. destruct (Nat.eqb_spec k (rid tkn)); [done|]. cbn [negb rassert]. mon.
    by rewrite Es. }
  rewrite E3. mon.
  pose proof Hmid2 as [Hinv2 _ _ _ (p2 & Hp2 & Htk2 & _ & Hc2 & Hr2) _].
  pose proof (rep_inv_len _ _ _ _ _ _ _ _ Hinv2 Hr2) as Hct2.
  destruct (read_attempt_synced f post d0 p2 (nr_log nr2) hist dh rh o (rtkn tkn) cl z)
    as (p3 & E4 & Htk3 & Hn3 & Hc3 & Hr3); try done; [lia|].
  set (nr3 := set_replicas nr2 (nr_log nr2) (<[rid tkn := p3]> (nr_replicas nr2))).
  assert (E5 : execute_body f try_exec tkn ([RExec cl o], nr2) = Ret (inr (z, nr3))).
  { cbn [execute_body]. rewrite Htry, (on_replica_run nr2 (rid tkn) p2 _ (Ok z) p3 (nr_log nr2) Hp2 E4).
    mon. cbn [length Nat.eqb rassert]. done. }
  rewrite E5. mon. exists nr3. split; [done|]. split.
  - eapply mid_inv, mid_set; eauto; [apply log_frame_refl|congruence].
  - transitivity (regs nr2); [by apply (regs_insert _ _ p2)|congruence].
Qed.

(** ** Construction *)

(** [af] undoes itself: [Revert] of what it returned restores the affinity. *)
Definition restores (am : AffinityManager A) : Prop :=
  forall a rid a' tkn a'', aff_switch am a rid = Ret (a', tkn) -> aff_drop am a' tkn = Ret a'' ->
    a'' = a.

(** A log and the replicas registered with it so far. *)
Record fresh f (d0 : D) l (ps : list rep) : Prop := {
  fr_log : log_inv f l [];
  fr_ltails : log_ltails l = replicate MAX_REPLICAS_PER_LOG 0;
  fr_lmasks : log_lmasks l = replicate MAX_REPLICAS_PER_LOG true;
  fr_next : log_next l = S (length ps);
  fr_reps : forall k p, ps !! k = Some p -> rep_ok d0 l [] k p /\ r_next p = 1;
}.

(** [mk] builds replicas of the initial state [d0]. *)
Definition makes (mk : LogToken -> rep) (d0 : D) : Prop :=
  exists addr s, forall t, mk t = with_data_base_addr t d0 addr s.

Lemma fresh_step f d0 l ps mk t l' :
  fresh f d0 l ps -> makes mk d0 -> log_register l = (Some t, l') ->
  fresh f d0 l' (ps ++ [mk t]).
Proof.
  intros [] (addr & s & Hmk) E.
  destruct (register_inv f l t l') as (Hinv & -> & Hat & Hn & Hlt & Hlm & _); try done.
  assert (Hct : log_head l' = 0) by (pose proof (inv_head _ _ _ Hinv);
    pose proof (inv_tail _ _ _ Hinv) as Ht; cbn in Ht; lia).
  split; try congruence.
  - rewrite Hn, fr_next0, length_app. cbn. lia.
  - intros k p [Hk | [-> <-]]%lookup_snoc_Some.
    + destruct (fr_reps0 k p Hk) as [(Htk & Hc & u & Hr) Hone]. split; [|done].
      split_and!; try done. exists u. destruct Hr as [[Hi Hu] ? ? ? ? ? ? ?]. split; try done.
      split; [done|]. apply registered_lookup in Hu as [Hu1 Hu2]. apply registered_lookup.
      rewrite Hlt. split; [lia|done].
    + rewrite Hmk. split; [|done]. split_and!; [done|done|]. exists 0.
      apply (replica_new_inv f); [done|]. by rewrite fr_next0 in Hat |- *.
Qed.

Lemma build_replicas_run f d0 numa am mk num n : forall mem l a ps k,
  fresh f d0 l ps -> makes mk d0 -> length ps + n < MAX_REPLICAS_PER_LOG ->
  aff_safe numa am num a -> k + n <= num ->
  exists r a', build_replicas am mk mem l a ps (seq k n) = Ret (r, a')
    /\ (restores am -> a' = a) /\ aff_safe numa am num a'
    /\ if decide (n <= mem) then
         exists l' ps', r = Ok (mem - n, l', ps') /\ fresh f d0 l' ps'
           /\ length ps' = length ps + n
       else r = Err OutOfMemory.
Proof.
  induction n as [|n IH]; intros mem l a ps k Hf Hmk Hlen Haff Hk.
  - eexists _, a. split; [done|]. split; [done|]. split; [done|]. cbn. rewrite decide_True by lia.
    exists l, ps. rewrite Nat.sub_0_r, Nat.add_0_r. done.
  - cbn [seq build_replicas]. pose proof Hf as [Hinv _ _ Hnext _].
    unfold log_register at 1. rewrite Hnext.
    destruct (Nat.ltb_spec MAX_REPLICAS_PER_LOG (S (length ps))); [lia|].
    destruct (aff_safe_round numa am num a (N.of_nat k) Haff) as (a1 & tkn & a2 & E1 & E2 & Haff2); [lia|].
    assert (Hra : restores am -> a2 = a) by (intros Hre; by eapply Hre).
    rewrite E1. mon. rewrite E2. mon. destruct mem as [|mem]; cbn [try_new].
    + eexists _, _. split; [done|]. split; [done|]. split; [done|]. by rewrite decide_False by lia.
    + destruct (IH mem (set_next l (S (length ps) + 1)) a2
                  (ps ++ [mk (S (length ps))]) (S k)) as (r & a' & E & Ha & Haff' & Hr).
      * eapply fresh_step; try done. unfold log_register. rewrite Hnext.
        by destruct (Nat.ltb_spec MAX_REPLICAS_PER_LOG (S (length ps))); [lia|].
      * done.
      * rewrite length_app. cbn. lia.
      * done.
      * lia.
      * exists r, a'. split; [exact E|]. split; [intros Hre; by rewrite Ha, Hra|]. split; [done|].
        destruct (decide (n <= mem)); [rewrite decide_True by lia|by rewrite decide_False by lia].
        destruct Hr as (l' & ps' & -> & Hf' & Hl'). exists l', ps'.
        rewrite length_app in Hl'. cbn in *. split_and!; [done|done|lia].
Qed.

Lemma new_log_fresh f d0 esize size :
  fresh f d0 (new_with_bytes tt esize size tt) [].
Proof. split; try done. apply new_log_inv. Qed.

(** The constructors: with enough memory they produce an object that has executed
    nothing; otherwise they report it.  The affinity of the caller is restored in
    both cases. *)
Lemma build_run f d0 numa num af esize size mk mem a :
  makes mk d0 -> num < MAX_REPLICAS_PER_LOG -> aff_safe numa (mkAff af) num a ->
  exists r a', build (D := D) numa num af esize size mk mem a = Ret (r, a')
    /\ (restores (mkAff af) -> a' = a)
    /\ if decide (num + 3 <= mem) then
         exists nr, r = Ok nr /\ nr_inv f d0 nr [] /\ regs nr = replicate num 1
       else r = Err OutOfMemory.
Proof.
  intros Hmk Hnum Haff. unfold build.
  destruct (Nat.ltb_spec num MAX_REPLICAS_PER_LOG); [|lia]. cbn [rassert]. mon.
  destruct mem as [|mem]; cbn [try_new].
  { eexists _, a. split; [done|]. split; [done|]. by rewrite decide_False by lia. }
  set (a1r := if numa then _ else _).
  assert (Ha1 : exists a1, a1r = Ret (a1, try_new mem) /\ (restores (mkAff af) -> a1 = a)
                  /\ aff_safe numa (mkAff af) num a1).
  { subst a1r. destruct numa; [|by exists a].
    destruct (aff_safe_round true _ num a usize_max Haff) as (a' & tkn & a'' & E1 & E2 & Haff2);
      [by right|]. rewrite E1. mon. rewrite E2. exists a''. split_and!; [done| |done].
    intros Hre. by eapply Hre. }
  destruct Ha1 as (a1 & -> & Ha1 & Haff1). mon.
  destruct mem as [|[|mem]]; cbn [try_new].
  { eexists _, a1. split; [done|]. split; [done|]. by rewrite decide_False by lia. }
  { eexists _, a1. split; [done|]. split; [done|]. by rewrite decide_False by lia. }
  destruct (build_replicas_run f d0 numa (mkAff af) mk num num mem _ a1 [] 0
              (new_log_fresh f d0 esize size) Hmk Hnum Haff1 (le_n num)) as (r & a' & E & Ha & Haff' & Hr).
  rewrite E. mon. destruct (decide (num <= mem)).
  - destruct Hr as (l' & ps' & -> & [Hinv Hlt Hlm Hnext Hreps] & Hlen). eexists _, a'.
    split; [done|]. split; [intros Hre; by rewrite Ha, Ha1|].
    rewrite decide_True by lia. eexists. split; [done|]. split.
    + split; cbn; try done.
      * pose proof (inv_ctail _ _ _ Hinv). pose proof (inv_tail _ _ _ Hinv) as Ht. cbn in Ht. lia.
      * by eexists _, _.
      * intros k p Hp. by apply Hreps.
      * unfold aff_ok. cbn. rewrite Hlen. by eapply aff_safe_weaken.
    + unfold regs. cbn. apply list_eq. intros i. rewrite list_lookup_fmap.
      cbn in Hlen. destruct (decide (i < num)) as [Hi|Hi].
      * destruct (lookup_lt_is_Some_2 ps' i) as [p Hp]; [lia|]. rewrite Hp. cbn.
        rewrite (proj2 (Hreps i p Hp)). symmetry. by apply lookup_replicate.
      * rewrite (proj2 (lookup_ge_None ps' i)) by lia. cbn. symmetry.
        apply lookup_ge_None. rewrite length_replicate. lia.
  - subst r. eexists _, a'. split; [done|]. split; [intros Hre; by rewrite Ha, Ha1|].
    by rewrite decide_False by lia.
Qed.

(** ** The other calls *)

Lemma nr_register_run f d0 nr hist k n :
  nr_inv f d0 nr hist -> regs nr !! k = Some n ->
  exists nr', nr_register nr k
      = Ret (if MAX_THREADS_PER_REPLICA <? n then None else Some (mkToken k n), nr')
    /\ nr_inv f d0 nr' hist
    /\ regs nr' = if MAX_THREADS_PER_REPLICA <? n then regs nr else <[k := n + 1]> (regs nr).
Proof.
  intros [Hinv Hnext Hct Hrun Hreps Haff] Hk. apply list_lookup_fmap_Some in Hk as (p & -> & Hp).
  unfold nr_register. destruct (Nat.ltb_spec k (length (nr_replicas nr))).
  2: { apply lookup_lt_Some in Hp. lia. }
  destruct (Hreps _ _ Hp) as (Htk & Hc & t & Hr).
  set (t' := if MAX_THREADS_PER_REPLICA <? r_next p then None else Some (r_next p)).
  set (p' := if MAX_THREADS_PER_REPLICA <? r_next p then p else set_r_next p (r_next p + 1)).
  assert (Ep : replica_register p = (t', p')).
  { unfold replica_register, t', p'. by destruct (MAX_THREADS_PER_REPLICA <? r_next p). }
  erewrite (on_replica_run nr k p _ t' p' (nr_log nr)) by (done || by rewrite Ep).
  mon. eexists. split; [subst t'; by destruct (MAX_THREADS_PER_REPLICA <? r_next p)|].
  assert (Hp' : rep_ok d0 (nr_log nr) hist k p').
  { subst p'. destruct (Nat.ltb_spec MAX_THREADS_PER_REPLICA (r_next p)); [by split_and!; eauto|].
    split_and!; try done. exists t. destruct Hr. split; try done. cbn. lia. }
  split.
  - split; cbn; try done; [by rewrite length_insert| |by apply aff_ok_set]. intros j q Hq.
    apply list_lookup_insert_Some in Hq as [(<- & <- & _) | (_ & Hq)]; [done|by apply Hreps].
  - unfold regs. cbn [nr_replicas set_replicas]. subst p'. destruct (MAX_THREADS_PER_REPLICA <? r_next p).
    + by apply (regs_insert _ _ p).
    + by rewrite list_fmap_insert.
Qed.

Lemma nr_register_out nr k :
  regs nr !! k = None -> nr_register nr k = Ret (None, nr).
Proof.
  intros Hk. apply lookup_ge_None in Hk. unfold regs in Hk. rewrite length_fmap in Hk.
  unfold nr_register. by destruct (Nat.ltb_spec k (length (nr_replicas nr))); [lia|].
Qed.

Lemma nr_sync_run f d0 nr hist tkn :
  nr_inv f d0 nr hist -> tkn_ok nr tkn ->
  exists nr', nr_sync f nr tkn = Ret (tt, nr') /\ nr_inv f d0 nr' hist /\ regs nr' = regs nr.
Proof.
  intros [Hinv Hnext Hct (dh & rh & Hrun) Hreps Haff] (p & Hp & _).
  destruct (Hreps _ _ Hp) as (Htk & Hc & t & Hr).
  destruct (replica_sync_run f d0 p (nr_log nr) hist t none none dh rh Hinv Hr Hc Hrun)
    as (d & l' & t' & E & Hfr & Hinv' & Hr' & Ht').
  pose proof (rep_inv_len _ _ _ _ _ _ _ _ Hinv' Hr'). rewrite Htk in Hfr.
  eexists. split; [apply (on_replica_run nr (rid tkn) p _ tt (set_r_data p d) l' Hp); by rewrite E|].
  split; [|by apply (regs_insert _ _ p)].
  assert (Hmid : nr_mid f d0 nr hist (rid tkn) (fun _ _ => True)).
  { split; try done; [by eauto|by intros j q _; apply Hreps|by eauto]. }
  eapply mid_inv, mid_set; try done. cbn. assert (t' = length hist) as <- by lia. by split.
Qed.

(** ** The specification and the simulation *)

Inductive call :=
| CRegister (k : nat)
| CWrite (tkn : ThreadToken) (o : WO)
| CRead (tkn : ThreadToken) (o : RO)
| CReadAnchor (tkn : ThreadToken) (o : RO)
| CSync (tkn : ThreadToken).

Inductive output :=
| OTkn (t : option ThreadToken)
| OResp (r : R)
| OUnit.

(** The specification: one copy of the data, and the threads registered with each
    replica. *)
Record spec := mkSpec { sp_data : D; sp_regs : list nat }.

Definition sp_registered (s : spec) (tkn : ThreadToken) : bool :=
  match sp_regs s !! rid tkn with
  | Some n => (1 <=? rtkn tkn) && (rtkn tkn <? n)
  | None => false
  end.

Definition spec_call (s : spec) (c : call) : res (spec * output) :=
  match c with
  | CRegister k =>
      match sp_regs s !! k with
      | None => Ret (s, OTkn None)
      | Some n =>
          if MAX_THREADS_PER_REPLICA <? n then Ret (s, OTkn None)
          else Ret (mkSpec (sp_data s) (<[k := n + 1]> (sp_regs s)), OTkn (Some (mkToken k n)))
      end
  | CWrite tkn o =>
      _ ← rassert (sp_registered s tkn) "thread not registered";
      '(d', r) ← dispatch_mut (sp_data s) o;
      Ret (mkSpec d' (sp_regs s), OResp r)
  | CRead tkn o | CReadAnchor tkn o =>
      _ ← rassert (sp_registered s tkn) "thread not registered";
      r ← dispatch (sp_data s) o;
      Ret (s, OResp r)
  | CSync tkn => _ ← rassert (sp_registered s tkn) "thread not registered"; Ret (s, OUnit)
  end.

Definition nr_call f nr (c : call) : res (nrep * output) :=
  match c with
  | CRegister k => '(t, nr') ← nr_register nr k; Ret (nr', OTkn t)
  | CWrite tkn o => '(r, nr') ← execute_mut f nr o tkn; Ret (nr', OResp r)
  | CRead tkn o => '(r, nr') ← execute f nr o tkn; Ret (nr', OResp r)
  | CReadAnchor tkn o => '(r, nr') ← execute_anchor f nr o tkn; Ret (nr', OResp r)
  | CSync tkn => '(_u, nr') ← nr_sync f nr tkn; Ret (nr', OUnit)
  end.

(** The replicated object [nr] stands for the specification state [s]. *)
Definition sim f (d0 : D) nr (s : spec) : Prop :=
  exists hist rs, nr_inv f d0 nr hist /\ seq_run d0 hist.*1 = Ret (sp_data s, rs)
    /\ regs nr = sp_regs s.

Lemma sim_tkn f d0 nr s tkn : sim f d0 nr s -> sp_registered s tkn = true -> tkn_ok nr tkn.
Proof.
  intros (hist & rs & _ & _ & Hr). unfold sp_registered. rewrite <- Hr. unfold regs.
  rewrite list_lookup_fmap. destruct (nr_replicas nr !! rid tkn) as [p|] eqn:Hp;
    cbn [fmap option_fmap option_map]; [|done].
  rewrite andb_true_iff, Nat.leb_le, Nat.ltb_lt. intros. by exists p.
Qed.

Lemma qpush_nil {X} (x : ResolveOp X) : qpush [] x = Ret [x].
Proof. reflexivity. Qed.

Lemma sim_call f d0 nr s c s' x :
  sim f d0 nr s -> spec_call s c = Ret (s', x) ->
  exists nr', nr_call f nr c = Ret (nr', x) /\ sim f d0 nr' s'.
Proof.
  intros Hsim E. pose proof Hsim as (hist & rs & Hinv & Hrun & Hregs).
  pose proof (fun t => sim_tkn f d0 nr s t Hsim) as Htkn.
  destruct c as [k|tkn o|tkn o|tkn o|tkn]; cbn in E.
  - cbn [nr_call]. rewrite <- Hregs in E. destruct (regs nr !! k) as [n|] eqn:Hk.
    + destruct (nr_register_run f d0 nr hist k n Hinv Hk) as (nr' & -> & Hinv' & Hr'). mon.
      exists nr'. destruct (MAX_THREADS_PER_REPLICA <? n); injection E as <- <-;
        (split; [done|]); exists hist, rs; (split_and!; [done|done|]); cbn; congruence.
    + rewrite nr_register_out by done. mon. injection E as <- <-. eauto.
  - destruct (sp_registered s tkn) eqn:Ht; cbn in E; [|done].
    destruct (dispatch_mut (sp_data s) o) as [[d' r]| |] eqn:Ed; cbn in E; [|done|done].
    injection E as <- <-.
    destruct (execute_mut_runs f d0 nr hist tkn o d' rs r Hinv (Htkn _ Ht)) as (nr' & E' & H1 & H2).
    { rewrite seq_run_app, Hrun. mon. by rewrite seq_run_cons, Ed. }
    exists nr'. cbn [nr_call]. rewrite E'. split; [done|]. exists (hist ++ [(o, S (rid tkn))]), (rs ++ [r]).
    split_and!; [done| |cbn; congruence].
    rewrite fmap_app, seq_run_app, Hrun. mon. cbn [fmap list_fmap fst]. by rewrite seq_run_cons, Ed.
  - destruct (sp_registered s tkn) eqn:Ht; cbn in E; [|done].
    destruct (dispatch (sp_data s) o) as [r| |] eqn:Ed; cbn in E; [|done|done]. injection E as <- <-.
    destruct (read_runs f _ (try_execute f) d0 nr hist tkn o (sp_data s) rs r
                (fun _ p l _ _ _ Hr => ex_intro _ p (conj eq_refl (conj Hr
                   (conj eq_refl (conj eq_refl eq_refl)))))
                (fun nr cl => try_execute_attempt f nr o tkn cl) Hinv (Htkn _ Ht) Hrun Ed)
      as (nr' & E' & H1 & H2).
    exists nr'. cbn [nr_call]. unfold execute. rewrite qpush_nil. mon. rewrite E'.
    split; [done|]. exists hist, rs. split_and!; [done|done|congruence].
  - destruct (sp_registered s tkn) eqn:Ht; cbn in E; [|done].
    destruct (dispatch (sp_data s) o) as [r| |] eqn:Ed; cbn in E; [|done|done]. injection E as <- <-.
    assert (Hmax : 1 <= rtkn tkn <= MAX_THREADS_PER_REPLICA).
    { destruct (Htkn _ Ht) as (p & Hp & ?). destruct (ni_reps _ _ _ _ Hinv _ _ Hp) as (_ & _ & t & []).
      lia. }
    destruct (read_runs f _ (try_execute_anchor f) d0 nr hist tkn o (sp_data s) rs r
                (anchor_ok (rtkn tkn) Hmax)
                (fun nr cl => try_execute_anchor_attempt f nr o tkn cl) Hinv (Htkn _ Ht) Hrun Ed)
      as (nr' & E' & H1 & H2).
    exists nr'. cbn [nr_call]. unfold execute_anchor. rewrite qpush_nil. mon. rewrite E'.
    split; [done|]. exists hist, rs. split_and!; [done|done|congruence].
  - destruct (sp_registered s tkn) eqn:Ht; cbn in E; [|done]. injection E as <- <-.
    destruct (nr_sync_run f d0 nr hist tkn Hinv (Htkn _ Ht)) as (nr' & E' & H1 & H2).
    exists nr'. cbn [nr_call]. rewrite E'. split; [done|]. exists hist, rs. split_and!; [done|done|congruence].
Qed.

Lemma sim_calls f d0 cs nr s s' xs :
  sim f d0 nr s -> run_prog spec_call s cs = Ret (s', xs) ->
  exists nr', run_prog (nr_call f) nr cs = Ret (nr', xs) /\ sim f d0 nr' s'.
Proof. apply (run_prog_sim (sim f d0)). intros. by eapply sim_call. Qed.
End Spec.
Arguments call : clear implicits.
Arguments output : clear implicits.
Arguments spec : clear implicits.

(** ** What every call keeps *)

Section Keep.
Context {D RO WO R A : Type} `{!Dispatch D RO WO R}.
Implicit Types nr : NodeReplicated D WO R A.
(** A predicate that running on one replica, also on behalf of another, keeps. *)
Variable J : NodeReplicated D WO R A -> Prop.
Hypothesis J_rep : forall (X : Type) nr k op (x : X) nr',
  J nr -> on_replica nr k op = Ret (x, nr') -> J nr'.
Hypothesis J_stuck : forall nr k op nr', J nr -> on_stuck nr k op = Ret nr' -> J nr'.

Lemma rassert_ne i j msg v : rassert (negb (i =? j)) msg = Ret v -> i <> j.
Proof. by destruct (Nat.eqb_spec i j). Qed.

(** A write runs on behalf of other replicas only. *)
Lemma execute_mut_keeps_other f nr o tkn y nr' :
  (forall nr k op nr', k <> rid tkn -> J nr -> on_stuck nr k op = Ret nr' -> J nr') ->
  J nr -> execute_mut f nr o tkn = Ret (y, nr') -> J nr'.
Proof.
  intros Hst Hj.
  assert (Hbody : forall st x, J st.2 -> execute_mut_body f o tkn st = Ret x ->
            match x with inl st' => J st'.2 | inr z => J z.2 end).
  { intros [q nr1] x H1 E. cbn [execute_mut_body] in E. cbn in H1.
    destruct (match q with [] => _ | _ => _ end) as [[cl []|j] q'].
    - destruct (try_execute_mut f nr1 o tkn cl) as [[r nr2]| |] eqn:E1; mon; [|done|done].
      apply J_rep in E1; [|done]. unfold execute_mut_resolve in E. cbn [mbind res_bind] in E.
      ret_inv E; try done.
      match goal with E2 : on_stuck _ _ _ = Ret _ |- _ => apply Hst in E2; [|by eapply rassert_ne|done] end.
      by eapply J_rep.
    - ret_inv E. cbn. eapply Hst; [by eapply rassert_ne|done..]. }
  unfold execute_mut. apply (rloop_inv (fun st => J st.2) (fun z => J z.2)); [| |done].
  - intros s s' Hs Eb. exact (Hbody s (inl s') Hs Eb).
  - intros s z Hs Eb. exact (Hbody s (inr z) Hs Eb).
Qed.

Lemma execute_mut_keeps f nr o tkn y nr' :
  J nr -> execute_mut f nr o tkn = Ret (y, nr') -> J nr'.
Proof. apply execute_mut_keeps_other. intros nr1 k op nr2 _. apply J_stuck. Qed.

Lemma read_keeps f try_exec (o : RO) tkn nr y nr' :
  (forall nr o cl r nr', J nr -> try_exec nr o tkn cl = Ret (r, nr') -> J nr') -> J nr ->
  rloop 64 (execute_body f try_exec tkn) ([RExec false o], nr) = Ret (y, nr') -> J nr'.
Proof.
  intros Htry Hj.
  assert (Hbody : forall st x, J st.2 -> execute_body f try_exec tkn st = Ret x ->
            match x with inl st' => J st'.2 | inr z => J z.2 end).
  { intros [q nr1] x H1 E. cbn [execute_body] in E. cbn in H1. ret_inv E; cbn;
      first [by eapply Htry|by eapply J_stuck]. }
  apply (rloop_inv (fun st => J st.2) (fun z => J z.2)); [| |done].
  - intros s s' Hs Eb. exact (Hbody s (inl s') Hs Eb).
  - intros s z Hs Eb. exact (Hbody s (inr z) Hs Eb).
Qed.

Lemma nr_call_keeps f nr c nr' x : J nr -> nr_call f nr c = Ret (nr', x) -> J nr'.
Proof.
  intros Hj. destruct c; cbn [nr_call]; unfold nr_register, execute, execute_anchor, nr_sync;
    rewrite ?qpush_nil; mon; intros E; ret_inv E; try done.
  - ret_inv E0; [by eapply J_rep|done].
  - by eapply execute_mut_keeps.
  - eapply read_keeps; [|exact Hj|exact E0]. intros * ? ?. by eapply J_rep.
  - eapply read_keeps; [|exact Hj|exact E0]. intros * ? ?. by eapply J_rep.
  - by eapply J_rep.
Qed.
End Keep.
