(* ===== verification/NrTheorems.v ===== *)
(** * Properties of node replication

    The theorems about replicas and the replicated object, from the lemmas of
    ReplicaSpec.v, ReplicaOps.v and NodeReplicatedSpec.v, each with an instance:
    [Counter], a running total whose response is the new total, taken also as
    the slot the operation touched. *)

From S2P Require Import Prelude Context Log NrLog RwLock Flush Replica ReplicaSpec.
From S2P Require Import ReplicaOps NodeReplicated NodeReplicatedSpec.

(** ** An instance *)

#[export] Instance Counter : Dispatch nat unit nat nat := {|
  dispatch d _ := Ret d;
  dispatch_mut d o := Ret (d + o, d + o);
  cn_idx r := Z.of_nat r;
  resp_eqb := Nat.eqb;
|}.

(** The affinity function of the example: the affinity is a number, [Replica]
    returns the old one. *)
Definition example_af (a : N) (c : AffinityChange) : res (N * N) :=
  match c with AReplica r => Ret (r, a) | ARevert old => Ret (old, a) end.

Lemma example_af_restores : restores (mkAff example_af).
Proof. intros a r a' tkn a''. cbn. by intros [= <- <-] [= <-]. Qed.

Lemma example_af_safe numa n a : aff_safe numa (mkAff example_af) n a.
Proof. exists (fun _ => True). split; [done|]. intros b r _ _. by eexists _, _, _. Qed.

(** ** Refinement *)

(** C2: a program of calls (registrations, writes, reads, anchored reads and
    synchronisations, by any registered threads on any replicas, each running to
    completion) on a freshly constructed replicated object returns, provided the
    affinity function does not panic, and its
    outputs are those of one copy of the sequential object: every response is
    the one the sequential object gives after all earlier writes.  In particular
    the retry loops terminate, whatever the lag of the other replicas. *)
Theorem nr_refines {D RO WO R A} `{!Dispatch D RO WO R} f (d0 : D) numa num
    (af : A -> AffinityChange -> res (A * N)) esize size mk mem a cs s' xs :
  makes mk d0 -> num < MAX_REPLICAS_PER_LOG -> num + 3 <= mem -> aff_safe numa (mkAff af) num a ->
  run_prog (spec_call (R := R)) (mkSpec d0 (replicate num 1)) cs = Ret (s', xs) ->
  exists nr a' nr', build numa num af esize size mk mem a = Ret (Ok nr, a')
    /\ run_prog (nr_call f) nr cs = Ret (nr', xs) /\ sim f d0 nr' s'.
Proof.
  intros Hmk Hnum Hmem Haff Hrun.
  destruct (build_run f d0 numa num af esize size mk mem a Hmk Hnum Haff) as (r & a' & E & _ & Hr).
  rewrite decide_True in Hr by done. destruct Hr as (nr & -> & Hinv & Hregs).
  destruct (sim_calls f d0 cs nr (mkSpec d0 (replicate num 1)) s' xs) as (nr' & E' & Hsim); [|done|].
  - exists [], []. by split_and!.
  - exists nr, a', nr'. by split_and!.
Qed.

Definition example_calls : list (call unit nat) :=
  [CRegister 0; CRegister 1; CWrite (mkToken 0 1) 5; CRead (mkToken 1 1) tt;
   CWrite (mkToken 1 1) 3; CReadAnchor (mkToken 0 1) tt; CSync (mkToken 0 1)].

Lemma nr_refines_witness :
  exists nr a' nr',
    build false 2 example_af 192 0 (fun t => replica_new t 0) 5 7%N = Ret (Ok nr, a')
    /\ run_prog (nr_call Scr) nr example_calls
       = Ret (nr', [OTkn (Some (mkToken 0 1)); OTkn (Some (mkToken 1 1)); OResp 5; OResp 5;
                    OResp 8; OResp 8; OUnit])
    /\ sim Scr 0 nr' (mkSpec 8 [2; 2]).
Proof.
  apply (nr_refines Scr 0 false 2 example_af 192 0 (fun t => replica_new t 0) 5 7%N example_calls).
  - exists 0%Z, 0%Z. reflexivity.
  - unfold MAX_REPLICAS_PER_LOG. lia.
  - lia.
  - apply example_af_safe.
  - vm_compute. reflexivity.
Defined.

(** The constructors either build an object that has executed nothing, with
    all replicas in the initial state, or report that memory ran out; they
    succeed exactly when the allocations for the affinity function, the log, the
    vector and each replica do.  The caller's affinity is restored in both
    cases. *)
Theorem nr_build_correct {D RO WO R A} `{!Dispatch D RO WO R} f (d0 : D) numa num
    (af : A -> AffinityChange -> res (A * N)) esize size mk mem a :
  makes mk d0 -> num < MAX_REPLICAS_PER_LOG -> aff_safe numa (mkAff af) num a ->
  restores (mkAff af) ->
  exists r : result (NodeReplicated D WO R A) _,
    build numa num af esize size mk mem a = Ret (r, a)
    /\ if decide (num + 3 <= mem) then
         exists nr, r = Ok nr /\ nr_inv f d0 nr [] /\ regs nr = replicate num 1
       else r = Err OutOfMemory.
Proof.
  intros Hmk Hnum Haff Hre.
  destruct (build_run f d0 numa num af esize size mk mem a Hmk Hnum Haff) as (r & a' & E & Ha & Hr).
  exists r. by rewrite <- (Ha Hre) at 2.
Qed.

Lemma nr_build_correct_witness :
  exists r : result (NodeReplicated nat nat nat N) _,
    build true 3 example_af 192 0 (fun t => replica_new t 0) 5 4%N = Ret (r, 4%N)
    /\ r = Err OutOfMemory.
Proof.
  apply (nr_build_correct (RO := unit) (WO := nat) (R := nat) Scr 0 true 3 example_af 192 0
    (fun t => replica_new t 0) 5 4%N).
  - exists 0%Z, 0%Z. reflexivity.
  - unfold MAX_REPLICAS_PER_LOG. lia.
  - apply example_af_safe.
  - apply example_af_restores.
Defined.

(** ** Flat combining *)

(** C6: one round of combining always returns.  If the log had room, the pending
    operations of all threads, thread by thread, are now the end of the history
    and every thread has received the responses of its own operations, in order,
    as the sequential object computes them at their place in the history; the
    combiner lock is free, even when a lagging replica is reported.  Otherwise
    nothing was appended or answered, the lock is kept and the replica to wait
    for is reported.  Either way the replica has replayed the whole history. *)
Theorem combine_correct {D RO WO R} `{!Dispatch D RO WO R} f d0 (p : Replica D WO R) l hist t pq rq
    d' rs' :
  let ops := all_ops pq (r_next p - 1) in
  log_inv f l hist -> rep_inv d0 p l hist t pq rq ->
  seq_run d0 (hist.*1 ++ ops) = Ret (d', rs') ->
  exists r p' l', combine f p l = Ret (r, p', l')
    /\ let hist' := if appended r then hist ++ tagged (log_tkn p) ops else hist in
       log_inv f l' hist'
       /\ rep_inv d0 p' l' hist' (length hist')
            (if appended r then pq_done pq (r_next p - 1) else pq)
            (if appended r then rq_done pq rq (drop (length hist) rs') (r_next p - 1) else rq)
       /\ combiner p' = (if appended r then 0 else combiner p)
       /\ (forall k, r = Err (NoLogSpace k) \/ r = Err (GcFailed k) -> behind l' (log_tkn p) k).
Proof.
  intros ops Hinv Hrep Hrun.
  destruct (combine_inv f d0 p l hist t pq rq d' rs' Hinv Hrep Hrun)
    as (r & p' & l' & E & _ & _ & H1 & H2 & H3 & H4 & _).
  exists r, p', l'. by split_and!.
Qed.

(** A replica of a log with one replica, with one registered thread. *)
Definition example_rep : Replica nat nat nat :=
  set_combiner (set_r_next (with_data_base_addr 1 0 4096 64) 2) 1.
Lemma example_rep_inv : rep_inv 0 example_rep one_replica [] 0 none none.
Proof.
  destruct (replica_new_inv Scr 0 one_replica 1 4096 64) as []; [apply (one_replica_inv Scr)..|].
  split; try done. unfold MAX_THREADS_PER_REPLICA. cbn. lia.
Qed.

(** Its thread has enqueued the operation 7. *)
Definition pending_rep : Replica nat nat nat :=
  match make_pending example_rep 7 1 with Ret (_, p) => p | _ => example_rep end.
Lemma pending_rep_inv : rep_inv 0 pending_rep one_replica [] 0 (only 0 (7, tt)) none.
Proof.
  destruct (make_pending_run 0 example_rep one_replica [] 0 none none 1 7) as (cs & E & Hr).
  - apply example_rep_inv.
  - unfold MAX_THREADS_PER_REPLICA. lia.
  - cbn. unfold MAX_PENDING_OPS. lia.
  - unfold pending_rep. rewrite E. exact Hr.
Qed.

Lemma combine_correct_witness :
  exists p' l', combine Scr pending_rep one_replica = Ret (Ok tt, p', l') /\ log_inv Scr l' [(7, 1)]
    /\ rep_inv 0 p' l' [(7, 1)] 1 (pq_done (only 0 (7, tt)) 1) (rq_done (only 0 (7, tt)) none [7] 1).
Proof.
  assert (Hc : match combine Scr pending_rep one_replica with Ret (Ok tt, _, _) => True | _ => False end)
    by (vm_compute; exact I).
  destruct (combine_correct Scr 0 pending_rep one_replica [] 0 (only 0 (7, tt)) none 7 [7])
    as (r & p' & l' & E & H & Hr & _).
  - apply (one_replica_inv Scr).
  - apply pending_rep_inv.
  - reflexivity.
  - rewrite E in Hc. destruct r as [[]|]; [|destruct Hc]. exists p', l'. exact (conj E (conj H Hr)).
Defined.

(** C30: write-back in combining.  Exactly the operations of other replicas that the
    round replays and that name a slot ([cn_idx] other than -1) have their slot
    flushed, in the order of the log (scr build); the replica's own operations flush
    nothing; and every replayed operation, own or not, clears the notification words
    that hold its slot. *)
Theorem combine_write_back {D RO WO R} `{!Dispatch D RO WO R} f d0 (p : Replica D WO R) l hist t
    pq rq d' rs' :
  let ops := all_ops pq (r_next p - 1) in
  log_inv f l hist -> rep_inv d0 p l hist t pq rq ->
  seq_run d0 (hist.*1 ++ ops) = Ret (d', rs') ->
  exists r p' l', combine f p l = Ret (r, p', l')
    /\ let hist' := if appended r then hist ++ tagged (log_tkn p) ops else hist in
       flushed p' = flushed p ++ remote_flush f p (log_tkn p) (drop t hist') (drop t rs')
       /\ change_notif p' = notify_all (r_next p) (drop t (take (length hist') rs')) (change_notif p).
Proof.
  intros ops Hinv Hrep Hrun.
  destruct (combine_inv f d0 p l hist t pq rq d' rs' Hinv Hrep Hrun)
    as (r & p' & l' & E & _ & _ & _ & _ & _ & _ & H1 & H2).
  exists r, p', l'. by split_and!.
Qed.

(** ** Notifications *)

Section Notif.
Context {D RO WO R : Type} `{!Dispatch D RO WO R}.

Lemma notify_lookup n idx ns i w :
  i < n -> ns !! i = Some w ->
  notify n idx ns !! i = Some (if (w =? idx)%Z && negb (idx =? -1)%Z then (-1)%Z else w).
Proof.
  intros Hi Hw. unfold notify.
  rewrite lookup_app_l, list_lookup_fmap, lookup_take_lt, Hw by
    (done || rewrite length_fmap, length_take; apply lookup_lt_Some in Hw; lia).
  done.
Qed.

(** A word is cleared as soon as one of the responses names it. *)
Lemma notify_all_lookup n (rs : list R) : forall ns i w, i < n -> ns !! i = Some w ->
  exists w', notify_all n rs ns !! i = Some w'
    /\ (w' <> -1 <-> w <> -1 /\ Forall (fun r => cn_idx r <> w) rs)%Z.
Proof.
  induction rs as [|r rs IH]; intros ns i w Hi Hw.
  - exists w. split; [done|]. split; [by split|by intros [? _]].
  - unfold notify_all in *. cbn.
    destruct (IH _ i _ Hi (notify_lookup n (cn_idx r) ns i w Hi Hw)) as (w' & E & Hw').
    exists w'. split; [done|]. rewrite Hw', Forall_cons_iff.
    destruct (Z.eqb_spec w (cn_idx r)) as [->|Hne], (Z.eqb_spec (cn_idx r) (-1)) as [E1|E1]; cbn.
    + rewrite E1. naive_solver.
    + naive_solver.
    + naive_solver.
    + naive_solver.
Qed.
End Notif.

(** After a round of combining [check_notification_reset] of a registered thread
    answers true exactly when the thread's anchored read named a slot and none of
    the operations the round replayed touched it; and it consumes the word. *)
Theorem notification_correct {D RO WO R} `{!Dispatch D RO WO R} f d0 (p : Replica D WO R) l hist t
    pq rq d' rs' idx w :
  let ops := all_ops pq (r_next p - 1) in
  log_inv f l hist -> rep_inv d0 p l hist t pq rq ->
  seq_run d0 (hist.*1 ++ ops) = Ret (d', rs') ->
  1 <= idx < r_next p -> change_notif p !! (idx - 1) = Some w ->
  exists r p' l' b p'', combine f p l = Ret (r, p', l')
    /\ check_notification_reset p' idx = Ret (b, p'')
    /\ change_notif p'' !! (idx - 1) = Some (-1)%Z
    /\ let hist' := if appended r then hist ++ tagged (log_tkn p) ops else hist in
       (b = true <-> (w <> -1)%Z
        /\ Forall (fun y => cn_idx y <> w) (drop t (take (length hist') rs'))).
Proof.
  intros ops Hinv Hrep Hrun Hidx Hw.
  destruct (combine_inv f d0 p l hist t pq rq d' rs' Hinv Hrep Hrun)
    as (r & p' & l' & E & _ & _ & _ & _ & _ & _ & Hn & _). fold ops in Hn.
  destruct (notify_all_lookup (r_next p) (drop t (take (length
      (if appended r then hist ++ tagged (log_tkn p) ops else hist)) rs'))
      (change_notif p) (idx - 1) w) as (w' & Hw' & Hiff); [lia|done|].
  cbn zeta in Hn. rewrite <- Hn in Hw'.
  exists r, p', l', (negb (w' =? -1)%Z), (set_notif p' (<[idx - 1 := (-1)%Z]> (change_notif p'))).
  split; [done|]. split.
  - unfold check_notification_reset. rewrite usub_le by lia. mon.
    rewrite (vget_lookup _ _ _ Hw'). mon. rewrite vset_lt by (by eapply lookup_lt_Some). done.
  - split; [cbn; apply list_lookup_insert_eq; by eapply lookup_lt_Some|].
    cbn zeta. rewrite <- Hiff. destruct (Z.eqb_spec w' (-1)); naive_solver.
Qed.

Lemma notification_correct_witness :
  exists r p' l' b p'', combine Scr example_rep one_replica = Ret (r, p', l')
    /\ check_notification_reset p' 1 = Ret (b, p'') /\ change_notif p'' !! 0 = Some (-1)%Z.
Proof.
  destruct (notification_correct Scr 0 example_rep one_replica [] 0 none none 0 [] 1 (-1)%Z)
    as (r & p' & l' & b & p'' & E1 & E2 & E3 & _).
  - apply (one_replica_inv Scr).
  - apply example_rep_inv.
  - reflexivity.
  - cbn. lia.
  - reflexivity.
  - exists r, p', l', b, p''. exact (conj E1 (conj E2 E3)).
Defined.

(** Bringing a lagging replica up to date through [try_sync] (what a call on
    another replica does to a replica that blocks it) replays the rest of the
    history on its data, but neither writes back the slots the operations touched
    nor clears the notification words, unlike [combine]. *)
Theorem sync_without_write_back {D RO WO R} `{!Dispatch D RO WO R} f d0 (p : Replica D WO R) l hist
    t pq rq dh rh :
  log_inv f l hist -> rep_inv d0 p l hist t pq rq -> combiner p = 0 ->
  seq_run d0 hist.*1 = Ret (dh, rh) ->
  exists p' l', try_sync f p l = Ret (p', l') /\ r_data p' = rw_new dh
    /\ rep_inv d0 p' l' hist (length hist) pq rq
    /\ flushed p' = flushed p /\ change_notif p' = change_notif p.
Proof.
  intros Hinv Hrep Hc Hrun.
  destruct (try_sync_run f d0 p l hist t pq rq dh rh Hinv Hrep Hc Hrun) as (E & _ & Hr).
  eexists _, _. by split_and!.
Qed.

Lemma sync_without_write_back_witness :
  exists p' l', try_sync Scr (set_combiner example_rep 0) one_replica = Ret (p', l')
    /\ r_data p' = rw_new 0.
Proof.
  destruct (sync_without_write_back Scr 0 (set_combiner example_rep 0) one_replica [] 0 none none 0 [])
    as (p' & l' & E & H & _).
  - apply (one_replica_inv Scr).
  - apply set_combiner_inv, example_rep_inv.
  - reflexivity.
  - reflexivity.
  - exists p', l'. exact (conj E H).
Defined.

(** The set of responses that [check_coherence] looks at is never filled: in
    every replica of an object reachable by calls, [check_coherence] and
    [check_coherence_reset] answer true and change nothing. *)
Theorem coherence_always_true {D RO WO R} `{!Dispatch D RO WO R} d0 (p : Replica D WO R) l hist t
    pq rq resp idx :
  rep_inv d0 p l hist t pq rq -> 1 <= idx <= MAX_THREADS_PER_REPLICA ->
  check_coherence p resp idx = Ret (true, p) /\ check_coherence_reset p resp = Ret (true, p)
  /\ reset_coherence p resp = Ret p.
Proof.
  intros [] Hidx. unfold check_coherence, check_coherence_reset, reset_coherence.
  rewrite ri_set. rewrite usub_le by lia. mon.
  assert (Hz : rlock (rw_new (T := list R) []) !! (idx - 1) = Some 0).
  { apply lookup_replicate. split; [done|]. unfold MAX_READER_THREADS. lia. }
  assert (Hp : set_response_set p (rw_new []) = p) by (destruct p; cbn in *; by subst).
  split_and!.
  - unfold locked_set_read, locked_set_new, rw_read. cbn [wlock rw_new].
    rewrite (vget_lookup _ _ _ Hz). mon. rewrite vset_lt by (by eapply lookup_lt_Some). mon.
    unfold read_unlock, vget. cbn [rlock set_rlock].
    rewrite list_lookup_insert_eq by (by eapply lookup_lt_Some). mon. cbn [Nat.add Nat.eqb].
    rewrite vset_lt by (rewrite length_insert; by eapply lookup_lt_Some). mon.
    rewrite list_insert_insert_eq. cbn [Nat.sub]. rewrite (list_insert_id _ _ _ Hz).
    do 2 f_equal. exact Hp.
  - unfold locked_set_write, locked_set_new. rewrite (rw_new_write (D := list R)) by lia. mon.
    unfold write_unlock. cbn. do 2 f_equal. exact Hp.
  - unfold locked_set_write, locked_set_new. rewrite (rw_new_write (D := list R)) by lia. mon.
    unfold write_unlock. cbn. f_equal. exact Hp.
Qed.

Lemma coherence_always_true_witness :
  check_coherence example_rep 5 1 = Ret (true, example_rep).
Proof.
  apply (coherence_always_true 0 example_rep one_replica [] 0 none none 5 1).
  - apply example_rep_inv.
  - unfold MAX_THREADS_PER_REPLICA. lia.
Defined.

(** ** The number of threads is read twice *)

Section Late.
Context {D RO WO R : Type} `{!Dispatch D RO WO R}.

Lemma seq_run_snoc2 (d : D) os o o' d' rs y y' :
  seq_run d (os ++ [o; o']) = Ret (d', rs ++ [y; y']) ->
  exists d1, seq_run d (os ++ [o]) = Ret (d1, rs ++ [y]).
Proof.
  replace (os ++ [o; o']) with ((os ++ [o]) ++ [o']) by (by rewrite <- app_assoc).
  replace (rs ++ [y; y']) with ((rs ++ [y]) ++ [y']) by (by rewrite <- app_assoc).
  intros (d1 & r1 & r2 & E1 & E2 & Hrs & _)%seq_run_split. exists d1.
  apply seq_run_length in E2. destruct r2 as [|z [|]]; [done| |done].
  apply app_inj_tail in Hrs as [-> _]. done.
Qed.

(** A thread registers and enqueues [o]. *)
Lemma late_register d0 (p : Replica D WO R) l hist t o :
  rep_inv d0 p l hist t none none -> r_next p <= MAX_THREADS_PER_REPLICA ->
  exists p1 p2, replica_register p = (Some (r_next p), p1) /\ make_pending p1 o (r_next p) = Ret (true, p2)
    /\ log_tkn p2 = log_tkn p /\ r_next p2 = r_next p + 1
    /\ rep_inv d0 p2 l hist t (only (r_next p - 1) (o, tt)) none.
Proof.
  intros Hrep Hn. destruct (replica_register p) as [r p1] eqn:E.
  assert (r = Some (r_next p)) as ->.
  { unfold replica_register in E. destruct (Nat.ltb_spec MAX_THREADS_PER_REPLICA (r_next p)); [lia|]. by injection E as <- _. }
  destruct (replica_register_inv _ _ _ _ _ _ _ _ _ Hrep E) as (_ & Hi & Hn1 & _ & Ht & Hr1).
  destruct (make_pending_run d0 p1 l hist t none none (r_next p) o Hr1 Hi) as (cs & E2 & Hr2).
  { cbn. unfold MAX_PENDING_OPS. lia. }
  exists p1, (set_contexts p1 cs). by split_and!.
Qed.
End Late.

(** C37: [combine] reads the number of registered threads, and again while it collects
    operations.  On any replica without pending operations there is this schedule: a
    thread registers and enqueues an operation between the two reads.  The round, unless
    the log is full, appends and applies the operation, but the thread gets no response
    and its operation stays pending; the next round, unless the log is full, appends and
    applies it a second time and answers the thread with the response of the second
    application. *)
Theorem late_registration_applied_twice {D RO WO R} `{!Dispatch D RO WO R} f d0 (p : Replica D WO R) l
    hist t o d' rs y1 y2 :
  log_inv f l hist -> rep_inv d0 p l hist t none none -> r_next p <= MAX_THREADS_PER_REPLICA ->
  seq_run d0 (hist.*1 ++ [o; o]) = Ret (d', rs ++ [y1; y2]) ->
  exists p1 p2 r1 p3 l3, replica_register p = (Some (r_next p), p1)
    /\ make_pending p1 o (r_next p) = Ret (true, p2)
    /\ combine_at f p2 l (r_next p) = Ret (r1, p3, l3)
    /\ (appended r1 = true ->
        log_inv f l3 (hist ++ [(o, log_tkn p)])
        /\ (exists c, contexts p3 !! (r_next p - 1) = Some c /\ ctx_rep c [(o, tt)] [])
        /\ exists r2 p4 l4, combine f (set_combiner p3 1) l3 = Ret (r2, p4, l4)
           /\ (appended r2 = true -> log_inv f l4 (hist ++ [(o, log_tkn p); (o, log_tkn p)])
               /\ exists p5, get_response f p4 l4 (r_next p) = Ret (Ok y2, p5, l4))).
Proof.
  intros Hinv Hrep Hn Hrun. set (n := r_next p) in *.
  destruct (late_register d0 p l hist t o Hrep Hn) as (p1 & p2 & E1 & E2 & Ht & Hn2 & Hr2). fold n in E1, E2, Hn2, Hr2.
  destruct (seq_run_snoc2 _ _ _ _ _ _ _ _ Hrun) as (d1 & Hrun1).
  assert (Hpos : 1 <= n) by (destruct Hrep; subst n; lia).
  destruct (combine_at_inv f d0 p2 l n hist t (only (n - 1) (o, tt)) none d1 (rs ++ [y1]) Hinv Hr2)
    as (r1 & p3 & l3 & E3 & Hfr & Hpf & Hl3 & Hr3 & _); [lia| |].
  { rewrite all_ops_only, Hn2. by destruct (Nat.ltb_spec (n - 1) (n + 1 - 1)); [|lia]. }
  rewrite all_ops_only, Hn2 in Hl3, Hr3. destruct (Nat.ltb_spec (n - 1) (n + 1 - 1)); [|lia].
  exists p1, p2, r1, p3, l3. do 3 (split; [done|]). intros Ha. rewrite Ha, Ht in Hl3, Hr3. split; [done|].
  assert (Hr3' : rep_inv d0 p3 l3 (hist ++ [(o, log_tkn p)]) (length (hist ++ [(o, log_tkn p)])) (only (n - 1) (o, tt)) none).
  { eapply rep_inv_ext; [exact Hr3|]. intros i _. unfold pq_done, rq_done, only, none.
    destruct (Nat.ltb_spec i (n - 1)), (Nat.eqb_spec i (n - 1)); split; try done; try lia.
    cbn. unfold chunk. by destruct (Nat.eqb_spec i (n - 1)); [lia|]. }
  split.
  { destruct (thread_ctx _ _ _ _ _ _ _ n Hr3') as (c & Hc & Hcr); [lia|]. exists c. split; [done|].
    unfold only in Hcr. by rewrite Nat.eqb_refl in Hcr. }
  destruct (combine_only f d0 (set_combiner p3 1) l3 (hist ++ [(o, log_tkn p)]) (length (hist ++ [(o, log_tkn p)])) n o d' (rs ++ [y1]) y2 Hl3)
    as (r2 & p4 & l4 & E4 & _ & _ & _ & H4).
  - by apply set_combiner_inv.
  - cbn. rewrite (rf_next _ _ Hpf), Hn2. lia.
  - rewrite fmap_app, <- !app_assoc. exact Hrun.
  - exists r2, p4, l4. split; [done|]. intros Ha2. rewrite Ha2 in H4. destruct H4 as (Hl4 & _ & Hr4).
    cbn [log_tkn set_combiner] in Hl4, Hr4. rewrite (rf_tkn _ _ Hpf), Ht, <- app_assoc in Hl4, Hr4. split; [exact Hl4|].
    destruct (get_response_run f _ _ _ _ _ _ _ n y2 [] Hr4) as (cs & E5 & _); [lia| |by eexists].
    unfold only. by rewrite Nat.eqb_refl.
Qed.

(** The same replica before its thread registers. *)
Definition empty_rep : Replica nat nat nat := set_combiner (with_data_base_addr 1 0 4096 64) 1.

Lemma late_registration_applied_twice_witness :
  exists p1 p2 p3 l3 p4 l4 p5, replica_register empty_rep = (Some 1, p1) /\ make_pending p1 7 1 = Ret (true, p2)
    /\ combine_at Scr p2 one_replica 1 = Ret (Ok tt, p3, l3)
    /\ combine Scr (set_combiner p3 1) l3 = Ret (Ok tt, p4, l4)
    /\ get_response Scr p4 l4 1 = Ret (Ok 14, p5, l4) /\ log_inv Scr l4 [(7, 1); (7, 1)].
Proof.
  assert (Hc : match make_pending (replica_register empty_rep).2 7 1 with
               | Ret (_, p2) => match combine_at Scr p2 one_replica 1 with
                                | Ret (Ok tt, p3, l3) => match combine Scr (set_combiner p3 1) l3 with
                                                         | Ret (Ok tt, _, _) => True | _ => False end
                                | _ => False end
               | _ => False end) by (vm_compute; exact I).
  destruct (late_registration_applied_twice Scr 0 empty_rep one_replica [] 0 7 14 [] 7 14)
    as (p1 & p2 & r1 & p3 & l3 & E1 & E2 & E3 & H1).
  - apply (one_replica_inv Scr).
  - apply set_combiner_inv, (replica_new_inv Scr); apply (one_replica_inv Scr).
  - unfold MAX_THREADS_PER_REPLICA. cbn. lia.
  - reflexivity.
  - cbn [r_next empty_rep set_combiner with_data_base_addr] in *.
    rewrite E1 in Hc. cbn [snd] in Hc. rewrite E2, E3 in Hc. destruct r1 as [[]|]; [|destruct Hc].
    destruct (H1 eq_refl) as (_ & _ & r2 & p4 & l4 & E4 & H2). rewrite E4 in Hc.
    destruct r2 as [[]|]; [|destruct Hc]. destruct (H2 eq_refl) as (Hl & p5 & E5).
    exists p1, p2, p3, l3, p4, l4, p5. exact (conj E1 (conj E2 (conj E3 (conj E4 (conj E5 Hl))))).
Defined.

(** ** Affinity *)

Section Aff.
Context {D RO WO R A : Type} `{!Dispatch D RO WO R}.
Implicit Types nr : NodeReplicated D WO R A.

(** Switching to the affinity of replica [k] and reverting. *)
Definition aff_round (am : AffinityManager A) (a : A) (k : nat) : res A :=
  '(a', tkn) ← aff_switch am a (N.of_nat k); aff_drop am a' tkn.

(** The affinity of [nr] is that of [nr0] after switching to replicas other than [r]
    and back. *)
Definition aff_from nr0 (r : nat) nr : Prop :=
  affinity_mngr nr = affinity_mngr nr0
  /\ exists ks, Forall (fun k => k <> r) ks
     /\ foldM (aff_round (affinity_mngr nr0)) (nr_aff nr0) ks = Ret (nr_aff nr).

Lemma on_replica_aff {X} nr k op (x : X) nr' :
  on_replica nr k op = Ret (x, nr') -> nr_aff nr' = nr_aff nr /\ affinity_mngr nr' = affinity_mngr nr.
Proof.
  unfold on_replica. destruct (vget _ k) as [p| |]; mon; [|done|done].
  destruct (op p (nr_log nr)) as [[[y p'] l']| |]; mon; [|done|done].
  destruct (vset _ k p') as [ps| |]; mon; [|done|done]. by intros [= _ <-].
Qed.

Lemma on_stuck_aff nr k op nr' :
  on_stuck nr k op = Ret nr' ->
  affinity_mngr nr' = affinity_mngr nr /\ aff_round (affinity_mngr nr) (nr_aff nr) k = Ret (nr_aff nr').
Proof.
  unfold on_stuck, aff_round. destruct (aff_switch _ _ _) as [[a' tkn]| |] eqn:Ea; mon; [|done|done].
  destruct (on_replica _ _ _) as [[u nr1]| |] eqn:E; mon; [|done|done].
  apply on_replica_aff in E as [E1 E2].
  destruct (aff_drop _ _ _) as [a2| |] eqn:Ed; mon; [|done|done]. intros [= <-].
  rewrite E1, E2 in Ed. by split.
Qed.

Lemma execute_mut_aff f nr o tkn y nr' :
  execute_mut f nr o tkn = Ret (y, nr') -> aff_from nr (rid tkn) nr'.
Proof.
  apply (execute_mut_keeps_other (aff_from nr (rid tkn))).
  - intros X nr1 k op x nr2 [H1 H2] [E1 E2]%on_replica_aff. split; [congruence|]. by rewrite E1.
  - intros nr1 k op nr2 Hk [H1 (ks & Hks & H2)] [E1 E2]%on_stuck_aff. split; [congruence|]. exists (ks ++ [k]).
    split; [by apply Forall_app; split; [|constructor]|]. rewrite foldM_app, H2. mon. rewrite <- H1. cbn [foldM].
    by rewrite E2.
  - split; [done|]. by exists [].
Qed.

Lemma aff_rounds_restore (am : AffinityManager A) ks a a' : restores am -> foldM (aff_round am) a ks = Ret a' -> a' = a.
Proof.
  intros Hre. revert a. induction ks as [|k ks IH]; intros a; cbn; [by intros [= <-]|].
  destruct (aff_round am a k) as [c| |] eqn:E; mon; [|done|done]. unfold aff_round in E.
  destruct (aff_switch am a (N.of_nat k)) as [[b tkn]| |] eqn:Es; [|done|done].
  rewrite <- (Hre _ _ _ _ _ Es E). apply IH.
Qed.
End Aff.


(** Two replicas and an affinity function that records its calls and restores nothing.
    Thread 1 of replica 0 writes; replica 1 lags behind. *)
Definition trace_af (a : list AffinityChange) (c : AffinityChange) : res (list AffinityChange * N) :=
  Ret (a ++ [c], 7%N).
Definition two_mk (t : LogToken) : Replica nat nat nat := replica_new_with_data_base_addr t 0 4096 64.
Definition two_nr : NodeReplicated nat nat nat (list AffinityChange) :=
  match build false 2 trace_af 192 0 two_mk 5 [] with
  | Ret (Ok nr, _) => nr
  | _ => mkNR one_replica [] (mkAff trace_af) []
  end.
Definition two_after (cs : list (call unit nat)) : NodeReplicated nat nat nat (list AffinityChange) :=
  match run_prog (nr_call Scr) two_nr cs with Ret (nr, _) => nr | _ => two_nr end.
Definition two_calls (n : nat) : list (call unit nat) :=
  [CRegister 0; CRegister 1] ++ replicate n (CWrite (mkToken 0 1) 1).

Lemma two_after_sim cs s xs :
  run_prog spec_call (mkSpec 0 [1; 1]) cs = Ret (s, xs) -> sim Scr 0 (two_after cs) s.
Proof.
  intros Hrun. destruct (build_run (RO := unit) Scr 0 false 2 trace_af 192 0 two_mk 5 []) as (r & a & E & _ & Hr).
  - by exists 4096%Z, 64%Z.
  - unfold MAX_REPLICAS_PER_LOG. lia.
  - exists (fun _ => True). split; [done|]. intros b k _ _. by eexists _, _, _.
  - rewrite decide_True in Hr by lia. destruct Hr as (nr & -> & Hinv & Hregs).
    destruct (sim_calls Scr 0 cs nr (mkSpec 0 [1; 1]) s xs) as (nr' & E' & Hsim); [by exists [], []|done|].
    unfold two_after, two_nr. rewrite E, E'. exact Hsim.
Qed.

Lemma two_writes_sim n : sim Scr 0 (two_after (two_calls n)) (mkSpec n [2; 2]).
Proof.
  assert (H : forall m, exists xs, run_prog (spec_call (RO := unit) (R := nat)) (mkSpec m [2; 2])
              (replicate n (CWrite (mkToken 0 1) 1)) = Ret (mkSpec (m + n) [2; 2], xs)).
  { induction n as [|n IH]; intros m; [rewrite Nat.add_0_r; by eexists|]. destruct (IH (m + 1)) as [xs E].
    cbn [replicate run_prog]. change (spec_call _ _) with (Ret (mkSpec (m + 1) [2; 2], OResp (m + 1))). mon.
    rewrite E. replace (m + 1 + n) with (m + S n) by lia. by eexists. }
  destruct (H 0) as [xs E]. eapply two_after_sim. unfold two_calls. cbn [app run_prog].
  change (spec_call _ (CRegister 0)) with (Ret (mkSpec 0 [2; 1], OTkn (R := nat) (Some (mkToken 0 1)))). mon.
  change (spec_call _ (CRegister 1)) with (Ret (mkSpec 0 [2; 2], OTkn (R := nat) (Some (mkToken 1 1)))). mon. by rewrite E.
Qed.


(** Replica 1 combines after one write on replica 0 that named slot 1: the slot is
    flushed. *)
Lemma combine_write_back_witness :
  exists p r p' l', nr_replicas (two_after (two_calls 1)) !! 1 = Some p
    /\ combine Scr (set_combiner p 1) (nr_log (two_after (two_calls 1))) = Ret (r, p', l')
    /\ flushed p' = [4160%Z]
    /\ exists hist t rs, flushed p' = flushed p ++ remote_flush Scr (set_combiner p 1) (log_tkn p) (drop t hist) (drop t rs).
Proof.
  assert (Hc : match nr_replicas (two_after (two_calls 1)) with
               | [_; p] => match combine Scr (set_combiner p 1) (nr_log (two_after (two_calls 1))) with
                           | Ret (_, p', _) => flushed p' = [4160%Z] | _ => False end
               | _ => False end) by (vm_compute; reflexivity).
  destruct (two_writes_sim 1) as (hist & rs & Hinv & Hrun & _).
  destruct (nr_replicas (two_after (two_calls 1))) as [|q [|p [|]]] eqn:Hp; [destruct Hc|destruct Hc| |destruct Hc].
  destruct (ni_reps _ _ _ _ Hinv 1 p) as (Htk & _ & t & Hr); [by rewrite Hp|].
  destruct (combine_write_back Scr 0 (set_combiner p 1) (nr_log (two_after (two_calls 1))) hist t none none 1 rs)
    as (r & p' & l' & E & Hfl & _).
  - apply Hinv.
  - apply set_combiner_inv, Hr.
  - rewrite all_ops_none, app_nil_r. exact Hrun.
  - exists p, r, p', l'. rewrite E in Hc. split; [done|]. split; [exact E|]. split; [exact Hc|].
    eexists _, t, rs. exact Hfl.
Defined.

(** One replica with one registered thread. *)
Definition example_nr : NodeReplicated nat nat nat N :=
  mkNR one_replica [set_combiner example_rep 0] (mkAff example_af) 3%N.
Lemma example_nr_inv f : nr_inv f 0 example_nr [].
Proof.
  split; try done.
  - apply one_replica_inv.
  - by exists 0, [].
  - intros [|k] p Hp; [|done]. injection Hp as <-. split_and!; [done|done|].
    exists 0. apply set_combiner_inv, example_rep_inv.
  - apply example_af_safe.
Qed.

(** A loose read skips the synchronisation: it answers from the state after
    some prefix of the history, which includes every write made through the same
    replica, and changes nothing. *)
Theorem execute_loose_prefix {D RO WO R A} `{!Dispatch D RO WO R} f d0
    (nr : NodeReplicated D WO R A) hist tkn (o : RO) :
  nr_inv f d0 nr hist -> tkn_ok nr tkn ->
  (forall d, exists z, dispatch d o = Ret z) ->
  exists t d rs z, t <= length hist /\ seq_run d0 (take t hist).*1 = Ret (d, rs)
    /\ dispatch d o = Ret z /\ execute_loose f nr o tkn = Ret (z, nr)
    /\ (forall i w, hist !! i = Some (w, S (rid tkn)) -> i < t).
Proof.
  intros [Hinv _ _ _ Hreps _] (p & Hp & Hidx) Hdisp.
  destruct (Hreps _ _ Hp) as (Htk & Hc & t & Hr).
  pose proof (rep_inv_len _ _ _ _ _ _ _ _ Hinv Hr) as Hlen.
  pose proof Hr as [_ (d & rs & Hd & Hdata) Hown Hnext _ _ _ _].
  destruct (Hdisp d) as [z Hz]. exists t, d, rs, z. split_and!; [lia|done|done| |].
  - unfold execute_loose. rewrite qpush_nil. mon. apply rloop_first. cbn [execute_body].
    unfold try_execute_loose. rewrite (on_replica_run nr (rid tkn) p _ (Ok z) p (nr_log nr) Hp).
    + mon. cbn [length Nat.eqb rassert]. mon. do 3 f_equal.
      unfold set_replicas. rewrite list_insert_id by done. by destruct nr.
    + unfold replica_execute_loose. rewrite (read_dispatch_run p d) by (done || lia).
      by rewrite Hz.
  - intros i w Hw. apply (Hown i w). by rewrite Htk.
Qed.

Lemma execute_loose_prefix_witness :
  exists z, execute_loose Coherent example_nr tt (mkToken 0 1) = Ret (z, example_nr).
Proof.
  destruct (execute_loose_prefix Coherent 0 example_nr [] (mkToken 0 1) tt)
    as (t & d & rs & z & _ & _ & _ & E & _).
  - apply example_nr_inv.
  - exists (set_combiner example_rep 0). split; [reflexivity|]. cbn. lia.
  - intros d. exists d. reflexivity.
  - exists z. exact E.
Defined.

(** A panic of the form "we just lost a result" cannot happen: [sync] of any
    replica of the object, at any time between calls, returns. *)
Theorem sync_never_loses_results {D RO WO R A} `{!Dispatch D RO WO R} f d0
    (nr : NodeReplicated D WO R A) hist k p :
  nr_inv f d0 nr hist -> nr_replicas nr !! k = Some p ->
  exists p' l', replica_sync f p (nr_log nr) = Ret (p', l') /\ log_inv f l' hist.
Proof.
  intros [Hinv _ _ (dh & rh & Hrun) Hreps _] Hp. destruct (Hreps _ _ Hp) as (_ & Hc & t & Hr).
  destruct (replica_sync_run f d0 p (nr_log nr) hist t none none dh rh Hinv Hr Hc Hrun)
    as (d & l' & t' & E & _ & H & _). by eexists _, _.
Qed.

Lemma sync_never_loses_results_witness :
  exists p' l', replica_sync Scr (set_combiner example_rep 0) one_replica = Ret (p', l')
    /\ log_inv Scr l' [].
Proof.
  apply (sync_never_loses_results Scr 0 example_nr [] 0).
  - apply example_nr_inv.
  - reflexivity.
Defined.
