(* ===== verification/Topology.v ===== *)
(** * The machine topology (ffi/topology.rs)

    The CPUs of the machine, as hwloc lists them, and how threads are placed on
    them.  What hwloc knows of the machine is an argument of [topology_new], and
    [itertools::interleave] is a parameter.  The theorems: [sockets] and [nodes] are
    duplicate-free and sorted, and [allocate] never places two threads on the same
    CPU. *)

From Stdlib Require Import Sorting.Permutation Sorting.Sorted.
From stdpp Require Import sets.
From S2P Require Import Prelude.

(** ** Data *)

(** [ThreadMapping] and its [Display] and [Debug] forms. *)
Inductive ThreadMapping := TMNone | Sequential | Interleave | NUMA.
Definition mapping_display (m : ThreadMapping) : string :=
  match m with
  | TMNone => "None" | Sequential => "Sequential" | Interleave => "Interleave" | NUMA => "NUMA"
  end.
Definition mapping_debug (m : ThreadMapping) : string :=
  match m with
  | TMNone => "TM=None" | Sequential => "TM=Sequential"
  | Interleave => "TM=Interleave" | NUMA => "TM=NUMA"
  end.

(** [NodeInfo]. *)
Record NodeInfo := mkNode { ni_node : N; ni_memory : N }.
(** [CpuInfo]. *)
Record CpuInfo := mkCpu {
  ci_node : option NodeInfo; socket : N; core : N; cpu : N; l1 : N; l2 : N; l3 : N;
}.
#[export] Instance NodeInfo_eq_dec : EqDecision NodeInfo.
Proof. solve_decision. Defined.
#[export] Instance CpuInfo_eq_dec : EqDecision CpuInfo.
Proof. solve_decision. Defined.

(** [MachineTopology]. *)
Record MachineTopology := mkTopo { topo_data : list CpuInfo }.

(** ** Reading the machine *)

(** An object of hwloc: its type, the depth of a cache, its indices and its memory. *)
Inductive ObjectType := OCore | OL1Cache | OL2Cache | OL3Cache | ONUMANode | OOther.
#[export] Instance ObjectType_eq_dec : EqDecision ObjectType.
Proof. solve_decision. Defined.
Record HwObject := mkHw {
  object_type : ObjectType; cache_depth : option N; logical_index : N; os_index : N; total_memory : N;
}.
(** A processing unit, with its parent, the parent of that, and so on. *)
Record HwPU := mkPU { pu_os_index : N; pu_parents : list HwObject }.

(** The loops that go up to an object of the type [ty], for caches of depth [d] at
    least. *)
Fixpoint up_to (ty : ObjectType) (parents : list HwObject) : list HwObject :=
  match parents with
  | [] => []
  | o :: up => if bool_decide (object_type o = ty) then parents else up_to ty up
  end.
Fixpoint up_to_cache (ty : ObjectType) (d : N) (parents : list HwObject) : res (list HwObject) :=
  match parents with
  | [] => Ret []
  | o :: up =>
      if bool_decide (object_type o = ty) then
        depth ← unwrap (cache_depth o);
        if (depth <? d)%N then up_to_cache ty d up else Ret parents
      else up_to_cache ty d up
  end.
Definition expect_parent (parents : list HwObject) (msg : string) : res HwObject :=
  match parents with [] => Panic msg | o :: _ => Ret o end.

Definition cpu_info (pu : HwPU) : res CpuInfo :=
  let parent := up_to OCore (pu_parents pu) in
  core ← expect_parent parent "PU has no Core?";
  parent ← up_to_cache OL1Cache 1 parent;
  l1 ← expect_parent parent "Core doesn't have a L1 cache?";
  parent ← up_to_cache OL2Cache 2 parent;
  l2 ← expect_parent parent "Core doesn't have a L2 cache?";
  parent ← up_to_cache OL3Cache 3 parent;
  socket ← expect_parent parent "Core doesn't have a L3 cache (socket)?";
  let parent := up_to ONUMANode parent in
  let numa_node := match parent with [] => None | n :: _ => Some (mkNode (os_index n) (total_memory n)) end in
  Ret (mkCpu numa_node (logical_index socket) (logical_index core) (pu_os_index pu)
         (logical_index l1) (logical_index l2) (logical_index socket)).

(** [MachineTopology::new]; [topo] is what [Topology::new] and [objects_with_type]
    answer, [None] where they fail: the processing units of the machine. *)
Definition topology_new (topo : option (option (list HwPU))) : res MachineTopology :=
  match topo with
  | None => Panic "Can't retrieve Topology"
  | Some None => Panic "Can't find CPUs"
  | Some (Some cpus) =>
      data ← foldM (fun data cpu => c ← cpu_info cpu; Ret (data ++ [c])) [] cpus;
      Ret (mkTopo data)
  end.

(** ** The slice operations the code uses *)

(** [Vec::dedup_by]: an element goes when [same] holds of it and the last element
    that stayed. *)
Fixpoint dedup_from {A} (same : A -> A -> bool) (last : A) (xs : list A) : list A :=
  match xs with
  | [] => []
  | x :: xs' => if same x last then dedup_from same last xs' else x :: dedup_from same x xs'
  end.
Definition dedup_by {A} (same : A -> A -> bool) (xs : list A) : list A :=
  match xs with [] => [] | x :: xs' => x :: dedup_from same x xs' end.

(** The stable sort of [sort], [sort_by] and [sort_by_key]: an element stays
    before the ones it is not greater than. *)
Fixpoint sort_insert {A} (le : A -> A -> bool) (x : A) (xs : list A) : list A :=
  match xs with
  | [] => [x]
  | y :: ys => if le x y then x :: y :: ys else y :: sort_insert le x ys
  end.
Fixpoint sort_by {A} (le : A -> A -> bool) (xs : list A) : list A :=
  match xs with [] => [] | x :: xs' => sort_insert le x (sort_by le xs') end.

Definition sort_by_key {A} (key : A -> N) : list A -> list A :=
  sort_by (fun a b => (key a <=? key b)%N).

(** ** Operations *)

(** [cores]. *)
Definition cores (t : MachineTopology) : nat := length (topo_data t).

(** [sockets]. *)
Definition sockets (t : MachineTopology) : list N :=
  dedup_by N.eqb (sort_by N.leb (map socket (topo_data t))).

(** [nodes]. *)
Definition nodes (t : MachineTopology) : list N :=
  dedup_by N.eqb (sort_by N.leb
    (map (fun c => match ci_node c with None => 0%N | Some n => ni_node n end) (topo_data t))).

(** [cpus_on_node]. *)
Definition cpus_on_node (t : MachineTopology) (node : N) : list CpuInfo :=
  List.filter (fun c => (socket c =? node)%N) (topo_data t).

(** [cpus_on_socket]. *)
Definition cpus_on_socket (t : MachineTopology) (s : N) : list CpuInfo :=
  List.filter (fun c => (socket c =? s)%N) (topo_data t).

(** The comparison of [ThreadMapping::Sequential]. *)
Definition seq_le (a b : CpuInfo) : bool :=
  if negb (socket a =? socket b)%N then (socket a <=? socket b)%N else (cpu a <=? cpu b)%N.

(** [allocate]; [interleave] is [itertools::interleave]. *)
Definition allocate (interleave : list CpuInfo -> list CpuInfo -> list CpuInfo)
    (t : MachineTopology) (strategy : ThreadMapping) (how_many : nat) (use_ht : bool)
  : list CpuInfo :=
  let cpus := topo_data t in
  let cpus := if use_ht then cpus
              else dedup_by (fun a b => (core a =? core b)%N) (sort_by_key core cpus) in
  match strategy with
  | TMNone => []
  | Interleave =>
      let ht1 := dedup_by (fun a b => negb (socket a =? socket b)%N) (sort_by_key core cpus) in
      let ht2 := sort_by_key core (List.filter (fun c => negb (bool_decide (c ∈ ht1))) cpus) in
      take how_many (interleave ht1 ht2)
  | Sequential => take how_many (sort_by seq_le cpus)
  | NUMA =>
      let ht1 := sort_by_key core cpus in
      take how_many (drop (length ht1 / 2) ht1)
  end.

(** ** Lemmas *)

Section Slices.
Context {A : Type}.
Implicit Types (xs : list A) (same le : A -> A -> bool).

Lemma sort_insert_perm le x xs : Permutation (sort_insert le x xs) (x :: xs).
Proof.
  induction xs as [|y ys IH]; cbn; [done|]. destruct (le x y); [done|].
  rewrite IH. apply perm_swap.
Qed.

Lemma sort_by_perm le xs : Permutation (sort_by le xs) xs.
Proof. induction xs as [|x xs IH]; cbn; [done|]. rewrite sort_insert_perm. by constructor. Qed.

Lemma dedup_from_sublist same last xs : dedup_from same last xs `sublist_of` xs.
Proof.
  revert last. induction xs as [|x xs IH]; intros last; cbn; [done|].
  destruct (same x last); [by apply sublist_cons|by apply sublist_skip].
Qed.

Lemma dedup_by_sublist same xs : dedup_by same xs `sublist_of` xs.
Proof. destruct xs; cbn; [done|]. apply sublist_skip, dedup_from_sublist. Qed.

Lemma sublist_NoDup xs ys : xs `sublist_of` ys -> NoDup ys -> NoDup xs.
Proof.
  induction 1 as [|x xs ys H IH|x xs ys H IH]; [done| |].
  - intros [Hx Hn]%list.NoDup_cons. apply list.NoDup_cons. split; [|by apply IH].
    intros Hin. apply Hx. by eapply elem_of_submseteq, sublist_submseteq.
  - intros [_ Hn]%list.NoDup_cons. by apply IH.
Qed.

(** Sorting with a total order sorts. *)
Lemma sort_by_sorted le (R : relation A) xs : Transitive R -> (forall x y, le x y = true -> R x y) -> (forall x y, le x y = false -> R y x) ->
  StronglySorted R (sort_by le xs).
Proof.
  intros Htr Hle Hgt. induction xs as [|x xs IH]; cbn; [constructor|]. revert IH. generalize (sort_by le xs). clear xs. intros xs.
  induction xs as [|y ys IH]; intros Hs; cbn; [by repeat constructor|].
  apply StronglySorted_inv in Hs as [Hs Hy]. destruct (le x y) eqn:E.
  - constructor; [by constructor|]. constructor; [by apply Hle|].
    eapply list.Forall_impl; [exact Hy|]. intros z Hz. etrans; [by apply Hle|done].
  - constructor; [by apply IH|]. apply list.Forall_forall. intros z Hz.
    change (z ∈ sort_insert le x ys) in Hz.
    rewrite sort_insert_perm in Hz. apply elem_of_cons in Hz as [->|Hz]; [by apply Hgt|].
    rewrite list.Forall_forall in Hy. by apply Hy.
Qed.

Lemma sort_by_key_perm (key : A -> N) xs : Permutation (sort_by_key key xs) xs.
Proof. apply sort_by_perm. Qed.

Lemma dedup_sorted_sub same (key : A -> N) xs : NoDup xs ->
  NoDup (dedup_by same (sort_by_key key xs))
  /\ (forall x, x ∈ dedup_by same (sort_by_key key xs) -> x ∈ xs).
Proof.
  intros Hn. pose proof (dedup_by_sublist same (sort_by_key key xs)) as Hs. split.
  - eapply sublist_NoDup; [exact Hs|]. by rewrite sort_by_key_perm.
  - intros x Hx. rewrite <- (sort_by_key_perm key xs).
    by eapply elem_of_submseteq, sublist_submseteq.
Qed.
End Slices.

(** Sorting and removing neighbours that are equal leaves each number once, in
    increasing order. *)
Section Dedup.
Implicit Types (xs : list N).

Lemma sort_sorted xs : StronglySorted N.le (sort_by N.leb xs).
Proof. apply sort_by_sorted; [intros x y z; apply N.le_trans|intros x y ?%N.leb_le; done|intros x y ?%N.leb_gt; lia]. Qed.

Lemma dedup_from_sorted last xs :
  StronglySorted N.le (last :: xs) ->
  StronglySorted N.lt (last :: dedup_from N.eqb last xs)
  /\ (forall z, z ∈ last :: dedup_from N.eqb last xs <-> z ∈ last :: xs).
Proof.
  revert last. induction xs as [|x xs IH]; intros last Hs; cbn [dedup_from].
  { split; [repeat constructor|done]. }
  apply StronglySorted_inv in Hs as [Hs Hl]. apply Forall_cons_iff in Hl as [Hlx Hl].
  pose proof Hs as [Hs' Hx]%StronglySorted_inv.
  destruct (N.eqb_spec x last) as [->|Hne].
  - destruct (IH last Hs) as [H1 H2]. split; [done|]. intros z. rewrite H2. set_solver.
  - destruct (IH x Hs) as [H1 H2]. split.
    + constructor; [done|]. apply list.Forall_forall. intros z Hz. apply H2 in Hz.
      rewrite list.Forall_forall in Hx. apply elem_of_cons in Hz as [->|Hz]; [lia|].
      apply Hx in Hz. lia.
    + intros z. rewrite elem_of_cons, H2. set_solver.
Qed.

Lemma sort_dedup xs :
  StronglySorted N.lt (dedup_by N.eqb (sort_by N.leb xs))
  /\ (forall z, z ∈ dedup_by N.eqb (sort_by N.leb xs) <-> z ∈ xs).
Proof.
  pose proof (sort_sorted xs) as Hs. pose proof (sort_by_perm N.leb xs) as Hp.
  unfold dedup_by.
  destruct (sort_by N.leb xs) as [|y ys].
  - apply Permutation_nil in Hp as ->. split; [constructor|done].
  - destruct (dedup_from_sorted y ys Hs) as [H1 H2]. split; [done|].
    intros z. by rewrite H2, Hp.
Qed.
End Dedup.

(** ** Reading a machine whose caches are nested as usual *)

Definition is_type (ty : ObjectType) (o : HwObject) : Prop := object_type o = ty.
#[export] Instance is_type_dec ty o : Decision (is_type ty o).
Proof. unfold is_type. apply _. Defined.
Definition is_cache (ty : ObjectType) (d : N) (o : HwObject) : Prop :=
  is_type ty o /\ exists depth, cache_depth o = Some depth /\ (d <= depth)%N.
Definition skips (ty : ObjectType) (l : list HwObject) : Prop := Forall (fun o => ~ is_type ty o) l.
Definition node_of (o : HwObject) : NodeInfo := mkNode (os_index o) (total_memory o).

(** [c] is the record of [pu]: above [pu] there are its core [oc] and its caches [o1],
    [o2] and [o3], in this order and with other objects between them; the socket is
    the L3 cache, and the node is the first NUMA node above it, if there is one. *)
Inductive pu_record (pu : HwPU) (c : CpuInfo) : Prop :=
| pu_record_intro a1 oc a2 o1 a3 o2 a4 o3 up :
    pu_parents pu = a1 ++ oc :: a2 ++ o1 :: a3 ++ o2 :: a4 ++ o3 :: up ->
    skips OCore a1 -> is_type OCore oc -> skips OL1Cache a2 -> is_cache OL1Cache 1 o1 ->
    skips OL2Cache a3 -> is_cache OL2Cache 2 o2 -> skips OL3Cache a4 -> is_cache OL3Cache 3 o3 ->
    c = mkCpu (node_of <$> head (filter (is_type ONUMANode) up)) (logical_index o3)
          (logical_index oc) (pu_os_index pu) (logical_index o1) (logical_index o2) (logical_index o3) ->
    pu_record pu c.

Lemma up_to_skips ty a o up : skips ty a -> is_type ty o -> up_to ty (a ++ o :: up) = o :: up.
Proof.
  unfold is_type. induction 1 as [|x a Hx Ha IH]; intros Ho; cbn.
  - by rewrite bool_decide_true.
  - rewrite bool_decide_false by done. by apply IH.
Qed.

Lemma up_to_cache_skips ty d a o up :
  skips ty a -> is_cache ty d o -> up_to_cache ty d (a ++ o :: up) = Ret (o :: up).
Proof.
  unfold is_cache, is_type. induction 1 as [|x a Hx Ha IH]; intros (Ho & depth & Hd & Hle); cbn.
  - rewrite bool_decide_true, Hd by done. cbn. by rewrite (proj2 (N.ltb_ge _ _)).
  - rewrite bool_decide_false by done. by apply IH; eauto.
Qed.

Lemma up_to_head ty up : head (up_to ty up) = head (filter (is_type ty) up).
Proof.
  induction up as [|o up IH]; [done|]. rewrite filter_cons. cbn [up_to].
  case_bool_decide; [by rewrite decide_True|by rewrite decide_False].
Qed.

Lemma up_to_cache_past ty ty' d x a o up : is_type ty' x -> ty' <> ty ->
  skips ty a -> is_cache ty d o -> up_to_cache ty d (x :: a ++ o :: up) = Ret (o :: up).
Proof. intros Hx Hne Ha Ho. apply (up_to_cache_skips _ _ (x :: a)); [|done]. constructor; [congruence|done]. Qed.

Lemma cpu_info_reads pu c : pu_record pu c -> cpu_info pu = Ret c.
Proof.
  intros [a1 oc a2 o1 a3 o2 a4 o3 up Hup H1 Hc H2 Ho1 H3 Ho2 H4 Ho3 ->]. unfold cpu_info.
  rewrite Hup, (up_to_skips _ _ _ _ H1 Hc). cbn -[up_to_cache].
  rewrite (up_to_cache_past _ OCore) by done. cbn -[up_to_cache].
  rewrite (up_to_cache_past _ OL1Cache) by (apply Ho1 || done). cbn -[up_to_cache].
  rewrite (up_to_cache_past _ OL2Cache) by (apply Ho2 || done). cbn -[up_to]. cbn [up_to].
  rewrite bool_decide_false by (rewrite (proj1 Ho3); done).
  rewrite <- up_to_head. by destruct (up_to ONUMANode up).
Qed.

(** [MachineTopology::new] records every processing unit, in hwloc's order. *)
Lemma topology_new_reads cpus data : Forall2 pu_record cpus data -> topology_new (Some (Some cpus)) = Ret (mkTopo data).
Proof.
  intros Hall. cbn.
  assert (Hgen : forall acc, foldM (fun data cpu => c ← cpu_info cpu; Ret (data ++ [c])) acc cpus = Ret (acc ++ data)).
  { induction Hall as [|pu c cpus data Hc _ IH]; intros acc; cbn; [by rewrite app_nil_r|].
    rewrite (cpu_info_reads _ _ Hc). cbn. by rewrite IH, <- app_assoc. }
  by rewrite Hgen.
Qed.

(** ** Properties *)

(** Sockets and nodes are listed once each, in increasing order, and none is
    missing. *)
Lemma sockets_nodes_correct t :
  StronglySorted N.lt (sockets t) /\ (forall s, s ∈ sockets t <-> exists c, c ∈ topo_data t /\ socket c = s)
  /\ StronglySorted N.lt (nodes t)
  /\ (forall n, n ∈ nodes t <-> exists c, c ∈ topo_data t
        /\ match ci_node c with None => 0%N | Some i => ni_node i end = n).
Proof.
  unfold sockets, nodes.
  destruct (sort_dedup (map socket (topo_data t))) as [H1 H2].
  destruct (sort_dedup (map (fun c => match ci_node c with None => 0%N | Some n => ni_node n end)
                         (topo_data t))) as [H3 H4].
  split_and!; try done; intros z; [rewrite H2|rewrite H4]; rewrite list_elem_of_fmap; naive_solver.
Qed.

Section Allocate.
Variable interleave : list CpuInfo -> list CpuInfo -> list CpuInfo.
(** The documentation of [itertools::interleave]: it yields the elements of the
    two arguments, alternating until both have run out. *)
Hypothesis interleave_perm : forall xs ys, Permutation (interleave xs ys) (xs ++ ys).

(** The CPUs the strategies choose from. *)
Definition candidates (t : MachineTopology) (use_ht : bool) : list CpuInfo :=
  if use_ht then topo_data t
  else dedup_by (fun a b => (core a =? core b)%N) (sort_by_key core (topo_data t)).

Lemma candidates_sub t ht : NoDup (topo_data t) ->
  NoDup (candidates t ht) /\ (forall c, c ∈ candidates t ht -> c ∈ topo_data t).
Proof.
  intros Hn. unfold candidates. destruct ht; [done|]. by apply dedup_sorted_sub.
Qed.

Lemma filter_perm_split (ht1 cpus : list CpuInfo) :
  NoDup cpus -> NoDup ht1 -> (forall c, c ∈ ht1 -> c ∈ cpus) ->
  Permutation (ht1 ++ List.filter (fun c => negb (bool_decide (c ∈ ht1))) cpus) cpus.
Proof.
  intros Hn Hn1 Hsub. apply NoDup_Permutation; [|done|].
  - apply list.NoDup_app. split_and!; [done| |].
    + intros c Hc Hf. apply list_elem_of_In, List.filter_In in Hf as [_ Hf].
      by rewrite bool_decide_eq_true_2 in Hf.
    + apply NoDup_ListNoDup, List.NoDup_filter. by apply NoDup_ListNoDup.
  - intros c. rewrite elem_of_app, (list_elem_of_In (List.filter _ _)), List.filter_In, <- list_elem_of_In.
    destruct (decide (c ∈ ht1)) as [Hc|Hc].
    + rewrite bool_decide_eq_true_2 by done. naive_solver.
    + rewrite bool_decide_eq_false_2 by done. naive_solver.
Qed.

(** All the CPUs a strategy may hand out, in the order in which it does. *)
Lemma allocate_order t strategy n ht :
  NoDup (topo_data t) ->
  exists order, allocate interleave t strategy n ht = take n order
    /\ NoDup order /\ (forall c, c ∈ order -> c ∈ candidates t ht)
    /\ match strategy with
       | TMNone => order = []
       | NUMA => length order = length (candidates t ht) - length (candidates t ht) / 2
       | _ => Permutation order (candidates t ht)
       end.
Proof.
  intros Hn. destruct (candidates_sub t ht Hn) as [Hc _]. unfold allocate.
  change (if ht then topo_data t else _) with (candidates t ht).
  destruct strategy; cbn zeta.
  - exists []. rewrite take_nil. split_and!; [done|constructor|set_solver|done].
  - pose proof (sort_by_perm seq_le (candidates t ht)) as Hp.
    eexists. split; [done|]. split_and!; [by rewrite Hp|intros c; by rewrite Hp|done].
  - set (ht1 := dedup_by _ _). set (flt := List.filter _ _).
    assert (Hp : Permutation (interleave ht1 (sort_by_key core flt)) (candidates t ht)).
    { rewrite interleave_perm, sort_by_key_perm.
      by apply filter_perm_split; [|apply dedup_sorted_sub..]. }
    eexists. split; [done|]. split_and!; [by rewrite Hp|intros c; by rewrite Hp|done].
  - pose proof (sort_by_key_perm core (candidates t ht)) as Hs.
    eexists. split; [done|]. set (k := length _ / 2). split_and!.
    + eapply sublist_NoDup; [apply sublist_drop|]. by rewrite Hs.
    + intros c Hin. rewrite <- Hs. eapply elem_of_submseteq; [exact Hin|].
      apply sublist_submseteq, sublist_drop.
    + rewrite length_drop. unfold k. by rewrite Hs.
Qed.
End Allocate.

(** [allocate] places no two threads on one CPU and only uses CPUs of the
    machine; it places exactly the number of threads asked for unless the
    candidates run out, which [None] does at once and [NUMA] after the second
    half of them.  Without hyper-threads the candidates are one CPU per core. *)
Theorem allocate_correct interleave t strategy n ht :
  (forall xs ys, Permutation (interleave xs ys) (xs ++ ys)) -> NoDup (topo_data t) ->
  let out := allocate interleave t strategy n ht in
  let m := length (candidates t ht) in
  NoDup out /\ (forall c, c ∈ out -> c ∈ topo_data t)
  /\ length out = n `min` match strategy with TMNone => 0 | NUMA => m - m / 2 | _ => m end.
Proof.
  intros Hi Hn. cbn zeta. destruct (candidates_sub t ht Hn) as [_ Hsub].
  destruct (allocate_order interleave Hi t strategy n ht Hn) as (order & -> & Ho & Hin & Hlen).
  split_and!.
  - eapply sublist_NoDup; [apply sublist_take|done].
  - intros c Hc. apply Hsub, Hin. eapply elem_of_submseteq; [exact Hc|].
    apply sublist_submseteq, sublist_take.
  - rewrite length_take. destruct strategy; [by subst|by rewrite Hlen..].
Qed.

(** A machine with two sockets of two cores with two hyper-threads, and an
    [interleave]. *)
Definition example_topo : MachineTopology :=
  mkTopo (map (fun i => mkCpu (Some (mkNode ((i mod 4) / 2)%N 1024)) ((i mod 4) / 2)%N (i mod 4)%N i
                          (i mod 4)%N (i mod 4)%N ((i mod 4) / 2)%N) [0; 1; 2; 3; 4; 5; 6; 7]%N).
Fixpoint example_interleave (xs ys : list CpuInfo) : list CpuInfo :=
  match xs, ys with
  | [], _ => ys
  | _, [] => xs
  | x :: xs', y :: ys' => x :: y :: example_interleave xs' ys'
  end.
Lemma example_interleave_perm xs ys : Permutation (example_interleave xs ys) (xs ++ ys).
Proof.
  revert ys. induction xs as [|x xs IH]; intros [|y ys]; cbn; [done|done|by rewrite app_nil_r|].
  rewrite IH. constructor. apply Permutation_middle.
Qed.

Lemma allocate_correct_witness :
  let out := allocate example_interleave example_topo Interleave 4 false in
  map cpu out = [0; 2; 1; 3]%N /\ NoDup out /\ (forall c, c ∈ out -> c ∈ topo_data example_topo)
  /\ length out = 4 `min` length (candidates example_topo false).
Proof.
  split; [vm_compute; reflexivity|].
  apply (allocate_correct example_interleave example_topo Interleave 4 false).
  - apply example_interleave_perm.
  - apply (bool_decide_unpack _). vm_compute. reflexivity.
Defined.
