(* ===== verification/Gcd.v ===== *)
(** * The global cache directory (ffi/types.rs, ffi/constants.rs, ffi/ffi_nr_hashmap.rs)

    The data structure that is replicated: a hash map from blocks to directory
    entries.  An entry says, for the shared CXL memory (position 0) and for each
    logical node, in which cache slot the block is, if any, and whether that copy
    is invalidated; [wmeta_idx_] is the write metadata of a block that is shared
    for writing, -1 when it is not.

    [Modify] and [Access] are the operations; [gcd_dispatch_mut] is the [match] of
    [dispatch_mut], arm by arm.  [isize] values are integers, [u64] positions
    natural numbers.  The 24-byte keys of the default configuration are modelled. *)

From stdpp Require Import gmap.
From S2P Require Import Prelude Context Log NrLog RwLock Flush Replica.

(** ** Constants *)

(** [NUMA_MEM], [NUM_EXEC], [LOGICAL_NODE_NUM]. *)
Definition NUMA_MEM : nat := 0.
Definition NUM_EXEC : nat := 3.
Definition LOGICAL_NODE_NUM : nat := 3.

(** [generate_array]: the loop. *)
Fixpoint generate_loop (fuel : nat) (arr : list nat) (filled candidate : nat) : list nat :=
  match fuel with
  | O => arr
  | S fuel' =>
      if filled <? NUM_EXEC then
        if candidate =? NUMA_MEM then generate_loop fuel' arr filled (candidate + 1)
        else generate_loop fuel' (<[filled := candidate]> arr) (filled + 1) (candidate + 1)
      else arr
  end.
(** [generate_array] and [NUMA_EXEC]; one candidate is skipped, so
    [NUM_EXEC + 2] passes are enough. *)
Definition generate_array : list nat :=
  generate_loop (NUM_EXEC + 2) (replicate NUM_EXEC 0) 0 0.
Definition NUMA_EXEC : list nat := generate_array.

(** ** Data *)

(** [CNStatus]. *)
Record CNStatus := mkCN { cn_idx_ : Z; invalidate_ : bool }.
(** [null_CNStatus]. *)
Definition null_CNStatus : CNStatus := mkCN (-1) false.

(** [GCDEntry]; the array has [LOGICAL_NODE_NUM + 1] elements. *)
Record GCDEntry := mkGCD { wmeta_idx_ : Z; cn_array_ : list CNStatus }.

#[export] Instance CNStatus_eq_dec : EqDecision CNStatus.
Proof. solve_decision. Defined.
#[export] Instance GCDEntry_eq_dec : EqDecision GCDEntry.
Proof. solve_decision. Defined.

Definition null_array : list CNStatus := replicate (LOGICAL_NODE_NUM + 1) null_CNStatus.

(** [init_gcd_entry]. *)
Definition init_gcd_entry (cn : Z) (idx : nat) : GCDEntry :=
  let array := null_array in
  let array := if idx <? LOGICAL_NODE_NUM + 1 then <[idx := mkCN cn false]> array else array in
  mkGCD (-1) array.

(** [init_empty_gcd_entry]. *)
Definition init_empty_gcd_entry : GCDEntry := mkGCD (-1) null_array.

(** [init_empty_gcd_entry_with_wmeta_idx]. *)
Definition init_empty_gcd_entry_with_wmeta_idx (wmeta_idx : Z) : GCDEntry :=
  mkGCD wmeta_idx null_array.

(** [BlockId]. *)
Record BlockId := mkBlock { server_id_ : N; inode_ : N; offset_ : Z }.

(** [BlockId::eq]: the server is not compared. *)
Definition block_eqb (a b : BlockId) : bool :=
  (inode_ a =? inode_ b)%N && (offset_ a =? offset_ b)%Z.

(** [null_BlockId]. *)
Definition null_BlockId : BlockId := mkBlock 0 0 (-1).

(** [init_gcd_entry_debug]; the message it prints in debug builds, the only use
    of [key], is left out. *)
Definition init_gcd_entry_debug (key : BlockId) (cn : Z) (idx : nat) : GCDEntry :=
  let array := null_array in
  let array := if idx <? LOGICAL_NODE_NUM + 1 then <[idx := mkCN cn false]> array else array in
  mkGCD (-1) array.

(** What [BlockId::eq] and [BlockId::hash] look at: the key of the hash map. *)
Definition bkey (b : BlockId) : N * Z := (inode_ b, offset_ b).

(** [GCDReponse]. *)
Record GCDReponse := mkResp { r_key : BlockId; r_value : GCDEntry }.

(** [cn_array_[0].cn_idx_]. *)
Definition slot0 (e : GCDEntry) : Z :=
  match cn_array_ e with s :: _ => cn_idx_ s | [] => (-1)%Z end.

(** [GCDReponse::eq] and [GCDReponse::cn_idx]. *)
Definition gcd_resp_eqb (a b : GCDReponse) : bool := (slot0 (r_value a) =? slot0 (r_value b))%Z.
Definition gcd_resp_cn_idx (r : GCDReponse) : Z := slot0 (r_value r).

(** [OptionGCDReponse], its derived [eq], its [as_ref], [is_some], [unwrap] and
    [cn_idx]. *)
Definition OptionGCDReponse := option GCDReponse.
Definition opt_resp_eqb (a b : OptionGCDReponse) : bool :=
  match a, b with
  | Some x, Some y => gcd_resp_eqb x y
  | None, None => true
  | _, _ => false
  end.
Definition opt_as_ref (o : OptionGCDReponse) : option GCDReponse := o.
Definition opt_is_some (o : OptionGCDReponse) : bool := match o with Some _ => true | None => false end.
Definition opt_unwrap (o : OptionGCDReponse) : res GCDReponse := unwrap o.
Definition opt_cn_idx (o : OptionGCDReponse) : Z :=
  match o with Some r => gcd_resp_cn_idx r | None => (-1)%Z end.

(** [NrHashMapFFi]. *)
Record NrHashMapFFi := mkMap { storage : gmap (N * Z) GCDEntry }.
(** [NrHashMapFFi::new] and [default]; the capacity is an allocation hint. *)
Definition hashmap_new (cap : N) : NrHashMapFFi := mkMap ∅.
Definition hashmap_default : NrHashMapFFi := mkMap ∅.

(** [Modify]. *)
Inductive Modify :=
| Put (key : BlockId) (value : GCDEntry)
| CheckPut (key : BlockId) (value : GCDEntry)
| Delete (key : BlockId)
| Swap (to_remove to_insert : BlockId) (value : GCDEntry)
| PutArray (key : BlockId) (cn : Z) (idx : nat)
| PutArrayWmeta (key : BlockId) (cn : Z) (idx : nat) (wmeta_idx : Z)
| CheckPutArray (key : BlockId) (cn : Z) (idx : nat)
| CheckPutArrayWmeta (key : BlockId) (cn : Z) (idx : nat) (wmeta_idx : Z)
| CheckPutSwapArray (key : BlockId) (cn : Z) (new old : nat)
| InvalidateArray (key : BlockId) (idx : nat)
| InvalidateExceptArray (key : BlockId) (idx : nat)
| InvalidateExceptArrayUpdateWmeta (key : BlockId) (idx : nat) (wmeta_idx : Z)
| CheckMoveLocalArray (key : BlockId) (cn : Z) (idx : nat)
| DeleteArray (key : BlockId) (idx : nat)
| DeleteIfArray (key : BlockId) (idx : nat)
| CheckSwapArray (old_key new_key : BlockId) (cn : Z) (old_idx new_idx : nat)
| CheckSwitchWmetaArray (key : BlockId) (wmeta_idx : Z)
| DummyLog (key : BlockId).

(** [Access]. *)
Inductive Access := Get (key : BlockId).

(** ** Operations *)

Abbreviation gmapD := (gmap (N * Z) GCDEntry).

Definition set_cn (e : GCDEntry) (a : list CNStatus) : GCDEntry := mkGCD (wmeta_idx_ e) a.
Definition set_wmeta (e : GCDEntry) (w : Z) : GCDEntry := mkGCD w (cn_array_ e).

(** [entry.cn_array_[idx] = s]. *)
Definition put_slot (e : GCDEntry) (idx : nat) (s : CNStatus) : res GCDEntry :=
  a ← vset (cn_array_ e) idx s; Ret (set_cn e a).

(** [Some(GCDReponse { key, value })]. *)
Definition some_resp (key : BlockId) (value : GCDEntry) : OptionGCDReponse :=
  Some (mkResp key value).

(** [entry.cn_array_.iter().all(|status| status.cn_idx_ == -1)]. *)
Definition all_null (e : GCDEntry) : bool :=
  forallb (fun s => (cn_idx_ s =? -1)%Z) (cn_array_ e).

(** Store the entry back, or remove it when no copy is left. *)
Definition store_or_remove (m : gmapD) (key : BlockId) (e : GCDEntry) : gmapD :=
  if all_null e then delete (bkey key) m else <[bkey key := e]> m.

(** The loop of [InvalidateExceptArray]. *)
Definition invalidate_except (e : GCDEntry) (idx : nat) : res GCDEntry :=
  foldM (fun entry i =>
    s ← vget (cn_array_ entry) i;
    if negb (cn_idx_ s =? -1)%Z && negb (idx =? i)
    then put_slot entry i (mkCN (cn_idx_ s) true)
    else Ret entry) e (seq 0 (LOGICAL_NODE_NUM + 1)).

(** [dispatch]. *)
Definition gcd_dispatch (d : NrHashMapFFi) (o : Access) : res OptionGCDReponse :=
  match o with
  | Get key => Ret ((fun value => mkResp key value) <$> storage d !! bkey key)
  end.

(** The arm [CheckPutArrayWmeta]. *)
Definition check_put_array_wmeta (m : gmapD) (key : BlockId) (cn : Z) (idx : nat) (wmeta_idx : Z)
  : res (gmapD * OptionGCDReponse) :=
  match m !! bkey key with
  | None =>
      let value := init_gcd_entry cn idx in
      let value := if idx =? NUMA_MEM then set_wmeta value wmeta_idx else value in
      Ret (<[bkey key := value]> m, some_resp key value)
  | Some entry =>
      s ← vget (cn_array_ entry) idx;
      if (cn_idx_ s =? -1)%Z then
        if invalidate_ s then Panic "BUG: Attempted to put into an invalidated entry"
        else if negb (wmeta_idx_ entry =? -1)%Z && negb (idx =? NUMA_MEM) then
          Panic "BUG: Attempted to add local replica while wmeta valid"
        else
          entry ← put_slot entry idx (mkCN cn false);
          let entry := if idx =? NUMA_MEM then set_wmeta entry wmeta_idx else entry in
          Ret (<[bkey key := entry]> m, some_resp key entry)
      else if idx =? NUMA_MEM then
        if (wmeta_idx =? -1)%Z then
          let entry := set_wmeta entry wmeta_idx in
          Ret (<[bkey key := entry]> m, some_resp null_BlockId entry)
        else if (wmeta_idx_ entry =? -1)%Z then
          let entry := set_wmeta entry wmeta_idx in
          Ret (<[bkey key := entry]> m, some_resp null_BlockId entry)
        else Ret (m, None)
      else Ret (m, None)
  end.

(** The arm [DeleteIfArray]. *)
Definition delete_if_array (m : gmapD) (key : BlockId) (idx : nat) : res (gmapD * OptionGCDReponse) :=
  match m !! bkey key with
  | None => Ret (m, None)
  | Some entry =>
      let go :=
        s ← vget (cn_array_ entry) idx;
        entry' ← put_slot entry idx null_CNStatus;
        Ret (store_or_remove m key entry', some_resp key (init_gcd_entry (cn_idx_ s) NUMA_MEM)) in
      if idx =? NUMA_MEM then
        if negb (wmeta_idx_ entry =? -1)%Z then
          Ret (m, some_resp null_BlockId (init_gcd_entry 2 (NUMA_MEM + 1)))
        else
          s ← vget (cn_array_ entry) idx;
          if decide (s = null_CNStatus) then Ret (m, some_resp null_BlockId init_empty_gcd_entry)
          else go
      else
        s ← vget (cn_array_ entry) idx;
        if decide (s = null_CNStatus) then Ret (m, some_resp null_BlockId init_empty_gcd_entry)
        else if negb (invalidate_ s) && negb (wmeta_idx_ entry =? -1)%Z then
          Panic "BUG: local replica still valid when page in RW shared"
        else go
  end.

(** The arm [CheckPutArray], also the second half of [CheckSwapArray]. *)
Definition check_put_array (m : gmapD) (key : BlockId) (cn : Z) (idx : nat)
  : res (gmapD * OptionGCDReponse) :=
  match m !! bkey key with
  | None =>
      let value := init_gcd_entry cn idx in
      Ret (<[bkey key := value]> m, some_resp key value)
  | Some entry =>
      s ← vget (cn_array_ entry) idx;
      if (cn_idx_ s =? -1)%Z then
        entry ← put_slot entry idx (mkCN cn false);
        Ret (<[bkey key := entry]> m, some_resp key entry)
      else Ret (m, None)
  end.

(** The arm [CheckMoveLocalArray]. *)
Definition check_move_local_array (m : gmapD) (key : BlockId) (cn : Z) (idx : nat)
  : res (gmapD * OptionGCDReponse) :=
  if idx =? 0 then Panic "BUG: cannot move to cxl"
  else match m !! bkey key with
       | None => Panic "BUG: the key does not exist"
       | Some entry =>
           s ← vget (cn_array_ entry) idx;
           if (cn_idx_ s =? -1)%Z || invalidate_ s then
             entry ← put_slot entry idx (mkCN cn false);
             let entry := set_wmeta entry (-1) in
             s0 ← vget (cn_array_ entry) 0;
             entry ← put_slot entry 0 null_CNStatus;
             Ret (<[bkey key := entry]> m, some_resp key (init_gcd_entry (cn_idx_ s0) 0))
           else Ret (m, None)
       end.

(** The arms on the map; [gcd_dispatch_mut] wraps it. *)
Definition gcd_modify (m : gmapD) (o : Modify) : res (gmapD * OptionGCDReponse) :=
  match o with
  | Put key value => Ret (<[bkey key := value]> m, some_resp key value)
  | CheckPut key value =>
      match m !! bkey key with
      | None => Ret (<[bkey key := value]> m, some_resp key value)
      | Some _ => Ret (m, None)
      end
  | Delete key =>
      match m !! bkey key with
      | Some entry =>
          Ret (delete (bkey key) m,
               some_resp key (init_empty_gcd_entry_with_wmeta_idx (wmeta_idx_ entry)))
      | None => Ret (m, None)
      end
  | Swap to_remove to_insert value =>
      Ret (<[bkey to_insert := value]> (delete (bkey to_remove) m), None)
  | PutArray key cn idx =>
      match m !! bkey key with
      | None =>
          let value := init_gcd_entry cn idx in
          Ret (<[bkey key := value]> m, some_resp key value)
      | Some entry =>
          entry ← put_slot entry idx (mkCN cn false);
          Ret (<[bkey key := entry]> m, some_resp key entry)
      end
  | CheckPutArray key cn idx => check_put_array m key cn idx
  | PutArrayWmeta key cn idx wmeta_idx =>
      match m !! bkey key with
      | None =>
          let value := set_wmeta (init_gcd_entry cn idx) wmeta_idx in
          Ret (<[bkey key := value]> m, some_resp key value)
      | Some entry =>
          entry ← put_slot entry idx (mkCN cn false);
          let entry := set_wmeta entry wmeta_idx in
          Ret (<[bkey key := entry]> m, some_resp key entry)
      end
  | CheckPutArrayWmeta key cn idx wmeta_idx => check_put_array_wmeta m key cn idx wmeta_idx
  | CheckSwitchWmetaArray key wmeta_idx =>
      match m !! bkey key with
      | Some entry =>
          if (wmeta_idx =? -1)%Z then
            let dummy := set_wmeta init_empty_gcd_entry (wmeta_idx_ entry) in
            Ret (<[bkey key := set_wmeta entry wmeta_idx]> m, some_resp key dummy)
          else if (wmeta_idx_ entry =? -1)%Z then
            let entry := set_wmeta entry wmeta_idx in
            Ret (<[bkey key := entry]> m, some_resp key entry)
          else Ret (m, None)
      | None => Ret (m, None)
      end
  | CheckPutSwapArray key cn new old =>
      match m !! bkey key with
      | None =>
          let value := init_gcd_entry cn new in
          Ret (<[bkey key := value]> m, some_resp key value)
      | Some entry =>
          entry ← put_slot entry old null_CNStatus;
          s ← vget (cn_array_ entry) new;
          if (cn_idx_ s =? -1)%Z then
            entry ← put_slot entry new (mkCN cn false);
            Ret (<[bkey key := entry]> m, some_resp key entry)
          else Ret (<[bkey key := entry]> m, None)
      end
  | InvalidateArray key idx =>
      match m !! bkey key with
      | Some entry =>
          s ← vget (cn_array_ entry) idx;
          if negb (cn_idx_ s =? -1)%Z then
            entry ← put_slot entry idx (mkCN (cn_idx_ s) true);
            Ret (<[bkey key := entry]> m, None)
          else Ret (m, None)
      | None => Ret (m, None)
      end
  | InvalidateExceptArray key idx =>
      match m !! bkey key with
      | Some entry =>
          entry ← invalidate_except entry idx;
          Ret (<[bkey key := entry]> m, None)
      | None => Ret (m, None)
      end
  | InvalidateExceptArrayUpdateWmeta key idx wmeta_idx =>
      match m !! bkey key with
      | Some entry =>
          entry ← invalidate_except entry idx;
          if (wmeta_idx_ entry =? -1)%Z then
            let entry := set_wmeta entry wmeta_idx in
            Ret (<[bkey key := entry]> m, some_resp key entry)
          else Ret (<[bkey key := entry]> m, some_resp null_BlockId init_empty_gcd_entry)
      | None => Ret (m, None)
      end
  | CheckMoveLocalArray key cn idx => check_move_local_array m key cn idx
  | DeleteArray key idx =>
      match m !! bkey key with
      | Some entry =>
          s ← vget (cn_array_ entry) idx;
          entry ← put_slot entry idx null_CNStatus;
          Ret (store_or_remove m key entry, some_resp key (init_gcd_entry (cn_idx_ s) NUMA_MEM))
      | None => Ret (m, None)
      end
  | DeleteIfArray key idx => delete_if_array m key idx
  | CheckSwapArray old_key new_key cn old_idx new_idx =>
      match m !! bkey old_key with
      | None => Ret (m, None)
      | Some entry =>
          entry ← put_slot entry old_idx null_CNStatus;
          check_put_array (store_or_remove m old_key entry) new_key cn new_idx
      end
  | DummyLog key =>
      match m !! bkey key with
      | Some entry => Ret (m, some_resp key entry)
      | None => Ret (m, None)
      end
  end.

(** [dispatch_mut]. *)
Definition gcd_dispatch_mut (d : NrHashMapFFi) (o : Modify) : res (NrHashMapFFi * OptionGCDReponse) :=
  '(m', r) ← gcd_modify (storage d) o; Ret (mkMap m', r).

#[export] Instance GcdDispatch : Dispatch NrHashMapFFi Access Modify OptionGCDReponse := {|
  dispatch := gcd_dispatch;
  dispatch_mut := gcd_dispatch_mut;
  cn_idx := opt_cn_idx;
  resp_eqb := opt_resp_eqb;
|}.
