(* ===== verification/GcdSpec.v ===== *)
(** * Properties of the global cache directory

    [gcd_wf]: every entry has its four positions, at least one copy, and no copy
    that is marked invalid without being there.  Every operation with sensible
    arguments ([op_wf]) preserves it, and panics exactly in the cases
    [gcd_panics] lists.  [rw_safe] is the discipline of blocks shared for
    writing: no valid local copy while [wmeta_idx_] is set. *)

From stdpp Require Import gmap.
From S2P Require Import Prelude Context Log NrLog RwLock Flush Replica Gcd.

(** ** Well-formedness *)

Definition NSLOTS : nat := LOGICAL_NODE_NUM + 1.

Definition slot_ok (s : CNStatus) : Prop := cn_idx_ s = (-1)%Z -> invalidate_ s = false.

Record entry_shape (e : GCDEntry) : Prop := {
  es_len : length (cn_array_ e) = NSLOTS;
  es_slots : Forall slot_ok (cn_array_ e);
}.

Definition entry_wf (e : GCDEntry) : Prop := entry_shape e /\ all_null e = false.

Definition gcd_wf (m : gmapD) : Prop := map_Forall (fun _ e => entry_wf e) m.

(** The arguments an operation is meant to get: a slot to put in, and positions
    inside the array. *)
Definition op_wf (o : Modify) : Prop :=
  match o with
  | Put _ v | CheckPut _ v | Swap _ _ v => entry_wf v
  | PutArray _ cn idx | CheckPutArray _ cn idx | PutArrayWmeta _ cn idx _
  | CheckPutArrayWmeta _ cn idx _ | CheckMoveLocalArray _ cn idx => cn <> (-1)%Z /\ idx < NSLOTS
  | CheckPutSwapArray _ cn new old => cn <> (-1)%Z /\ new < NSLOTS /\ old < NSLOTS
  | CheckSwapArray _ _ cn old_idx new_idx => cn <> (-1)%Z /\ old_idx < NSLOTS /\ new_idx < NSLOTS
  | InvalidateArray _ idx | DeleteArray _ idx | DeleteIfArray _ idx => idx < NSLOTS
  | Delete _ | InvalidateExceptArray _ _ | InvalidateExceptArrayUpdateWmeta _ _ _
  | CheckSwitchWmetaArray _ _ | DummyLog _ => True
  end.

(** When an operation panics: adding a local copy of a block shared for writing,
    deleting a valid local copy of one, and moving a block that is not there or
    to the shared memory. *)
Definition gcd_panics (m : gmapD) (o : Modify) : bool :=
  match o with
  | CheckPutArrayWmeta key _ idx _ =>
      match m !! bkey key with
      | Some e => negb (idx =? NUMA_MEM) && negb (wmeta_idx_ e =? -1)%Z
                  && bool_decide (cn_array_ e !! idx = Some null_CNStatus)
      | None => false
      end
  | DeleteIfArray key idx =>
      match m !! bkey key with
      | Some e => negb (idx =? NUMA_MEM) && negb (wmeta_idx_ e =? -1)%Z
                  && match cn_array_ e !! idx with
                     | Some s => negb (cn_idx_ s =? -1)%Z && negb (invalidate_ s)
                     | None => false
                     end
      | None => false
      end
  | CheckMoveLocalArray key _ idx => (idx =? 0) || negb (bool_decide (is_Some (m !! bkey key)))
  | _ => false
  end.

(** ** Entries *)

Lemma all_null_false e :
  all_null e = false <-> exists i s, cn_array_ e !! i = Some s /\ cn_idx_ s <> (-1)%Z.
Proof.
  unfold all_null. rewrite <- not_true_iff_false, List.forallb_forall. split.
  - intros H. destruct (decide (Exists (fun s => cn_idx_ s <> (-1)%Z) (cn_array_ e))) as [Hx|Hx].
    + apply list.Exists_exists in Hx as (s & Hs & Hne).
      apply list_elem_of_lookup in Hs as [i Hi]. eauto.
    + destruct H. intros s Hs. apply Z.eqb_eq. destruct (decide (cn_idx_ s = (-1)%Z)); [done|].
      destruct Hx. apply list.Exists_exists. exists s. split; [by apply list_elem_of_In|done].
  - intros (i & s & Hi & Hne) H. apply Hne, Z.eqb_eq, H, list_elem_of_In, list_elem_of_lookup. eauto.
Qed.

Lemma slot_null s : slot_ok s -> cn_idx_ s = (-1)%Z -> s = null_CNStatus.
Proof. destruct s as [c b]. unfold slot_ok. cbn. intros H ->. by rewrite H. Qed.

Lemma slot_ok_null : slot_ok null_CNStatus.
Proof. done. Qed.
Lemma slot_ok_valid cn : slot_ok (mkCN cn false).
Proof. done. Qed.
Lemma slot_ok_some cn b : cn <> (-1)%Z -> slot_ok (mkCN cn b).
Proof. by unfold slot_ok. Qed.

Lemma shape_lookup e idx : entry_shape e -> idx < NSLOTS ->
  exists s, cn_array_ e !! idx = Some s /\ slot_ok s.
Proof.
  intros [Hl Hs] Hi. destruct (lookup_lt_is_Some_2 (cn_array_ e) idx) as [s Es]; [lia|].
  exists s. split; [done|]. by eapply list.Forall_lookup_1.
Qed.

Lemma shape_set e idx s :
  entry_shape e -> slot_ok s -> entry_shape (set_cn e (<[idx := s]> (cn_array_ e))).
Proof.
  intros [Hl Hs] Hok. split; cbn; [by rewrite length_insert|]. by apply Forall_insert.
Qed.

Lemma shape_wmeta e w : entry_shape e -> entry_shape (set_wmeta e w).
Proof. by intros []. Qed.

Lemma wf_set e idx s :
  entry_shape e -> idx < NSLOTS -> slot_ok s -> cn_idx_ s <> (-1)%Z ->
  entry_wf (set_cn e (<[idx := s]> (cn_array_ e))).
Proof.
  intros He Hi Hok Hne. split; [by apply shape_set|]. apply all_null_false. exists idx, s.
  split; [|done]. cbn. apply list_lookup_insert_eq. by rewrite (es_len _ He).
Qed.

Lemma wf_wmeta e w : entry_wf e -> entry_wf (set_wmeta e w).
Proof. intros [H1 H2]. split; [by apply shape_wmeta|done]. Qed.

Lemma put_slot_run e idx s : entry_shape e -> idx < NSLOTS ->
  put_slot e idx s = Ret (set_cn e (<[idx := s]> (cn_array_ e))).
Proof. intros [Hl _] Hi. unfold put_slot. by rewrite vset_lt by (by rewrite Hl). Qed.

Lemma null_shape : entry_shape init_empty_gcd_entry.
Proof. split; [done|]. by repeat constructor. Qed.

Lemma init_wf cn idx : cn <> (-1)%Z -> idx < NSLOTS -> entry_wf (init_gcd_entry cn idx).
Proof.
  intros Hc Hi. unfold init_gcd_entry. destruct (Nat.ltb_spec idx (LOGICAL_NODE_NUM + 1)).
  - apply (wf_set init_empty_gcd_entry); [apply null_shape|done|done|done].
  - unfold NSLOTS in Hi. lia.
Qed.

(** The loop of the invalidations marks every copy but the one at [idx]. *)
Definition mark (idx i : nat) (s : CNStatus) : CNStatus :=
  if negb (cn_idx_ s =? -1)%Z && negb (idx =? i) then mkCN (cn_idx_ s) true else s.

Lemma mark_step w l1 s l2 idx :
  (s' ← vget (l1 ++ s :: l2) (length l1);
   if negb (cn_idx_ s' =? -1)%Z && negb (idx =? length l1)
   then put_slot (mkGCD w (l1 ++ s :: l2)) (length l1) (mkCN (cn_idx_ s') true)
   else Ret (mkGCD w (l1 ++ s :: l2)))
  = Ret (mkGCD w ((l1 ++ [mark idx (length l1) s]) ++ l2)).
Proof.
  rewrite (vget_lookup _ _ s) by (by rewrite list_lookup_middle). mon. unfold mark, put_slot.
  rewrite <- app_assoc. cbn [app]. destruct (_ && _); [|done]. cbn [cn_array_].
  rewrite vset_lt by (rewrite length_app; cbn; lia). mon.
  unfold set_cn. cbn. by rewrite insert_app_r_alt, Nat.sub_diag by lia.
Qed.

Lemma invalidate_loop w idx l2 : forall l1,
  foldM (fun entry i =>
    s ← vget (cn_array_ entry) i;
    if negb (cn_idx_ s =? -1)%Z && negb (idx =? i)
    then put_slot entry i (mkCN (cn_idx_ s) true)
    else Ret entry) (mkGCD w (l1 ++ l2)) (seq (length l1) (length l2))
  = Ret (mkGCD w (l1 ++ imap (fun i => mark idx (length l1 + i)) l2)).
Proof.
  induction l2 as [|s l2 IH]; intros l1; cbn [length seq foldM imap]; [done|].
  cbn [cn_array_]. rewrite mark_step. mon.
  replace (S (length l1)) with (length (l1 ++ [mark idx (length l1) s])) by (rewrite length_app; cbn; lia).
  rewrite IH, length_app, <- app_assoc. cbn [app imap]. rewrite Nat.add_0_r. do 4 f_equal.
  apply imap_ext. intros i x _. cbn. f_equal. lia.
Qed.

Lemma invalidate_except_run e idx : entry_shape e ->
  invalidate_except e idx = Ret (set_cn e (imap (mark idx) (cn_array_ e))).
Proof.
  intros [Hl _]. destruct e as [w a]. pose proof (invalidate_loop w idx a []) as H.
  cbn in Hl. rewrite Hl in H. exact H.
Qed.

Lemma mark_ok idx i s : slot_ok s -> slot_ok (mark idx i s).
Proof.
  intros H. unfold mark. destruct (Z.eqb_spec (cn_idx_ s) (-1)); cbn; [done|].
  destruct (idx =? i); [done|]. by apply slot_ok_some.
Qed.

Lemma mark_cn idx i s : cn_idx_ (mark idx i s) = cn_idx_ s.
Proof. unfold mark. by destruct (_ && _). Qed.

Lemma invalidate_wf e idx : entry_wf e -> entry_wf (set_cn e (imap (mark idx) (cn_array_ e))).
Proof.
  intros [[Hl Hs] Hn]. split; [split; cbn|].
  - by rewrite length_imap.
  - apply Forall_lookup. intros i s. rewrite list_lookup_imap.
    destruct (cn_array_ e !! i) as [s'|] eqn:E; [|done]. intros [= <-].
    apply mark_ok. by eapply list.Forall_lookup_1.
  - apply all_null_false in Hn as (i & s & Hi & Hne). apply all_null_false. cbn.
    exists i, (mark idx i s). by rewrite list_lookup_imap, Hi, mark_cn.
Qed.

(** ** The map *)

Lemma gcd_wf_insert m k e : gcd_wf m -> entry_wf e -> gcd_wf (<[k := e]> m).
Proof. intros Hm He. by apply map_Forall_insert_2. Qed.

Lemma gcd_wf_delete m k : gcd_wf m -> gcd_wf (delete k m).
Proof. intros Hm. by apply map_Forall_delete. Qed.

Lemma gcd_wf_store m key e : gcd_wf m -> entry_shape e -> gcd_wf (store_or_remove m key e).
Proof.
  intros Hm He. unfold store_or_remove. destruct (all_null e) eqn:En.
  - by apply gcd_wf_delete.
  - by apply gcd_wf_insert.
Qed.

Create HintDb gcd.
#[export] Hint Resolve gcd_wf_insert gcd_wf_delete gcd_wf_store wf_set wf_wmeta shape_set shape_wmeta
  init_wf invalidate_wf slot_ok_null slot_ok_valid slot_ok_some : gcd.

(** Case analysis on the entry of a block, with its invariant. *)
Ltac entry_case Hm key e He :=
  let E := fresh "E" in
  destruct (_ !! bkey key) as [e|] eqn:E;
  [pose proof (Hm _ _ E) as He; cbn beta in He|].

(** What an operation does: it panics when [gcd_panics] says so, and otherwise
    leaves a well-formed map. *)
Definition op_post (m : gmapD) (o : Modify) (out : res (gmapD * OptionGCDReponse)) : Prop :=
  match out with
  | Ret (m', _) => gcd_panics m o = false /\ gcd_wf m'
  | Panic _ => gcd_panics m o = true
  | Spin => False
  end.

Lemma check_put_array_wf m key cn idx :
  gcd_wf m -> cn <> (-1)%Z -> idx < NSLOTS ->
  exists m' r, check_put_array m key cn idx = Ret (m', r) /\ gcd_wf m'.
Proof.
  intros Hm Hc Hi. unfold check_put_array.
  entry_case Hm key e He; [|eexists _, _; split; [done|]; auto with gcd].
  destruct He as [He Hn]. destruct (shape_lookup e idx He Hi) as (s & Es & _).
  rewrite (vget_lookup _ _ _ Es). mon. rewrite put_slot_run by done. mon.
  destruct (_ =? -1)%Z; eexists _, _; (split; [done|]); auto with gcd.
Qed.

Lemma check_put_array_wmeta_wf m key cn idx w :
  gcd_wf m -> cn <> (-1)%Z -> idx < NSLOTS ->
  op_post m (CheckPutArrayWmeta key cn idx w) (check_put_array_wmeta m key cn idx w).
Proof.
  intros Hm Hc Hi. unfold check_put_array_wmeta, op_post, gcd_panics. entry_case Hm key e He.
  2: { destruct (idx =? NUMA_MEM); auto with gcd. }
  pose proof He as [Hsh _]. destruct (shape_lookup e idx Hsh Hi) as (s & Es & Hs).
  rewrite (vget_lookup _ _ _ Es). mon. rewrite put_slot_run by done. mon. rewrite Es.
  destruct (Z.eqb_spec (cn_idx_ s) (-1)) as [E1|E1].
  - rewrite (slot_null s Hs E1). cbn [invalidate_ null_CNStatus]. rewrite bool_decide_eq_true_2 by done.
    destruct (Nat.eqb_spec idx NUMA_MEM), (Z.eqb_spec (wmeta_idx_ e) (-1)); cbn; auto 10 with gcd.
  - rewrite bool_decide_eq_false_2 by (intros [= ->]; done). rewrite andb_false_r.
    destruct (idx =? NUMA_MEM), (w =? -1)%Z, (wmeta_idx_ e =? -1)%Z; auto with gcd.
Qed.

Lemma delete_if_array_wf m key idx :
  gcd_wf m -> idx < NSLOTS -> op_post m (DeleteIfArray key idx) (delete_if_array m key idx).
Proof.
  intros Hm Hi. unfold delete_if_array, op_post, gcd_panics. entry_case Hm key e He; [|done].
  pose proof He as [Hsh _]. destruct (shape_lookup e idx Hsh Hi) as (s & Es & Hs).
  rewrite (vget_lookup _ _ _ Es). mon. rewrite put_slot_run by done. mon. rewrite Es.
  assert (Hnull : cn_idx_ s = (-1)%Z <-> s = null_CNStatus).
  { split; [by apply slot_null|by intros ->]. }
  destruct (Nat.eqb_spec idx NUMA_MEM), (Z.eqb_spec (wmeta_idx_ e) (-1)),
    (Z.eqb_spec (cn_idx_ s) (-1)), (invalidate_ s), (decide (s = null_CNStatus));
    cbn; try naive_solver; auto with gcd.
Qed.

Lemma check_move_local_wf m key cn idx :
  gcd_wf m -> cn <> (-1)%Z -> idx < NSLOTS ->
  op_post m (CheckMoveLocalArray key cn idx) (check_move_local_array m key cn idx).
Proof.
  intros Hm Hc Hi. unfold check_move_local_array, op_post, gcd_panics.
  destruct (Nat.eqb_spec idx 0) as [->|H0]; [done|].
  entry_case Hm key e He; [|done]. pose proof He as [Hsh _].
  destruct (shape_lookup e idx Hsh Hi) as (s & Es & Hs).
  rewrite (vget_lookup _ _ _ Es). mon. rewrite put_slot_run by done. mon.
  destruct ((cn_idx_ s =? -1)%Z || invalidate_ s); [|done].
  assert (Hsh1 : entry_shape (set_wmeta (set_cn e (<[idx := mkCN cn false]> (cn_array_ e))) (-1)))
    by auto with gcd.
  destruct (shape_lookup _ 0 Hsh1) as (s0 & Es0 & _); [unfold NSLOTS; lia|].
  rewrite (vget_lookup _ _ _ Es0). mon. rewrite put_slot_run by (done || unfold NSLOTS; lia). mon.
  split; [done|]. apply gcd_wf_insert; [done|]. split; [by apply shape_set|].
  apply all_null_false. exists idx, (mkCN cn false). split; [|done]. cbn.
  rewrite list_lookup_insert_ne by lia. apply list_lookup_insert_eq. by rewrite (es_len _ Hsh).
Qed.

Lemma check_swap_array_wf m old_key new_key cn old_idx new_idx :
  gcd_wf m -> cn <> (-1)%Z -> old_idx < NSLOTS -> new_idx < NSLOTS ->
  op_post m (CheckSwapArray old_key new_key cn old_idx new_idx)
    (gcd_modify m (CheckSwapArray old_key new_key cn old_idx new_idx)).
Proof.
  intros Hm Hc Ho Hn. cbn [gcd_modify]. entry_case Hm old_key e He; [|done].
  rewrite put_slot_run by (done || apply He). mon.
  destruct (check_put_array_wf (store_or_remove m old_key
      (set_cn e (<[old_idx := null_CNStatus]> (cn_array_ e)))) new_key cn new_idx)
    as (m' & r & -> & Hm'); [|done|done|done].
  destruct He. auto with gcd.
Qed.

Lemma check_put_swap_wf m key cn new old :
  gcd_wf m -> cn <> (-1)%Z -> new < NSLOTS -> old < NSLOTS ->
  op_post m (CheckPutSwapArray key cn new old) (gcd_modify m (CheckPutSwapArray key cn new old)).
Proof.
  intros Hm Hc Hn Ho. cbn [gcd_modify]. entry_case Hm key e He; [|split; auto with gcd].
  destruct He as [Hsh _]. rewrite put_slot_run by done. mon.
  assert (Hsh1 : entry_shape (set_cn e (<[old := null_CNStatus]> (cn_array_ e)))) by auto with gcd.
  destruct (shape_lookup _ new Hsh1 Hn) as (s & Es & _). rewrite (vget_lookup _ _ _ Es). mon.
  rewrite put_slot_run by done. mon.
  destruct (Z.eqb_spec (cn_idx_ s) (-1)); split; auto with gcd.
  apply gcd_wf_insert; [done|]. split; [done|]. apply all_null_false. by exists new, s.
Qed.

Lemma gcd_modify_post m o : gcd_wf m -> op_wf o -> op_post m o (gcd_modify m o).
Proof.
  intros Hm Ho. destruct o; cbn [op_wf] in Ho;
    try (cbn [gcd_modify]; entry_case Hm key e He; split; by auto with gcd).
  - split; auto with gcd.
  - split; auto with gcd.
  - destruct Ho. cbn [gcd_modify]. entry_case Hm key e He; [|split; auto with gcd].
    rewrite put_slot_run by (done || apply He). destruct He. split; auto with gcd.
  - destruct Ho. cbn [gcd_modify]. entry_case Hm key e He; [|split; auto with gcd].
    rewrite put_slot_run by (done || apply He). destruct He. split; auto with gcd.
  - destruct Ho. destruct (check_put_array_wf m key cn idx) as (m' & r & E & ?); try done.
    cbn [gcd_modify]. by rewrite E.
  - destruct Ho. by apply check_put_array_wmeta_wf.
  - destruct Ho as (? & ? & ?). by apply check_put_swap_wf.
  - cbn [gcd_modify]. entry_case Hm key e He; [|split; auto with gcd].
    pose proof He as [Hsh _]. destruct (shape_lookup e idx Hsh Ho) as (s & Es & _).
    rewrite (vget_lookup _ _ _ Es). mon. rewrite put_slot_run by done.
    destruct (Z.eqb_spec (cn_idx_ s) (-1)); split; auto with gcd.
  - cbn [gcd_modify]. entry_case Hm key e He; [|split; auto with gcd].
    rewrite invalidate_except_run by apply He. split; auto with gcd.
  - cbn [gcd_modify]. entry_case Hm key e He; [|split; auto with gcd].
    rewrite invalidate_except_run by apply He. mon. destruct (_ =? -1)%Z; split; auto with gcd.
  - destruct Ho. by apply check_move_local_wf.
  - cbn [gcd_modify]. entry_case Hm key e He; [|split; auto with gcd].
    pose proof He as [Hsh _]. destruct (shape_lookup e idx Hsh Ho) as (s & Es & _).
    rewrite (vget_lookup _ _ _ Es). mon. rewrite put_slot_run by done. split; auto with gcd.
  - by apply delete_if_array_wf.
  - destruct Ho as (? & ? & ?). by apply check_swap_array_wf.
  - cbn [gcd_modify]. entry_case Hm key e He; [|split; auto with gcd].
    destruct (wmeta_idx =? -1)%Z; [split; auto with gcd|].
    destruct (wmeta_idx_ e =? -1)%Z; split; auto with gcd.
Qed.

(** ** Inverting a run of an operation *)

Lemma put_slot_ret e idx s e' :
  put_slot e idx s = Ret e' -> e' = set_cn e (<[idx := s]> (cn_array_ e)).
Proof.
  unfold put_slot. destruct (vset _ _ _) as [a| |] eqn:E; mon; [|done|done]. intros [= <-].
  by apply vset_ret in E as [_ ->].
Qed.

(** Follow the branches of an operation that returned. *)
Ltac run_inv H :=
  ret_inv H;
  repeat match goal with
  | E : put_slot _ _ _ = Ret _ |- _ => apply put_slot_ret in E; subst
  | E : vget _ _ = Ret _ |- _ => apply vget_ret in E
  end.

(** The blocks an operation names. *)
Definition op_keys (o : Modify) : list (N * Z) :=
  match o with
  | Put key _ | CheckPut key _ | Delete key | PutArray key _ _ | PutArrayWmeta key _ _ _
  | CheckPutArray key _ _ | CheckPutArrayWmeta key _ _ _ | CheckPutSwapArray key _ _ _
  | InvalidateArray key _ | InvalidateExceptArray key _ | InvalidateExceptArrayUpdateWmeta key _ _
  | CheckMoveLocalArray key _ _ | DeleteArray key _ | DeleteIfArray key _
  | CheckSwitchWmetaArray key _ | DummyLog key => [bkey key]
  | Swap to_remove to_insert _ => [bkey to_remove; bkey to_insert]
  | CheckSwapArray old_key new_key _ _ _ => [bkey old_key; bkey new_key]
  end.

Lemma store_or_remove_ne m key e k : k <> bkey key -> store_or_remove m key e !! k = m !! k.
Proof.
  intros Hk. unfold store_or_remove. destruct (all_null e).
  - by rewrite lookup_delete_ne.
  - by rewrite lookup_insert_ne.
Qed.

Lemma gcd_modify_frame m o m' r k :
  gcd_modify m o = Ret (m', r) -> k ∉ op_keys o -> m' !! k = m !! k.
Proof.
  intros H Hk. destruct o; cbn [op_keys] in Hk;
    rewrite ?list_elem_of_singleton, ?not_elem_of_cons in Hk;
    cbn [gcd_modify] in H;
    unfold check_put_array, check_put_array_wmeta, delete_if_array, check_move_local_array in H;
    run_inv H; try done;
    rewrite ?store_or_remove_ne, ?lookup_insert_ne, ?lookup_delete_ne, ?store_or_remove_ne
      by naive_solver; done.
Qed.

(** ** Blocks shared for writing *)

(** While the write metadata is set, no local copy is valid. *)
Definition rw_safe (e : GCDEntry) : Prop :=
  wmeta_idx_ e <> (-1)%Z -> forall i s, 1 <= i -> cn_array_ e !! i = Some s ->
    cn_idx_ s = (-1)%Z \/ invalidate_ s = true.

Definition gcd_rw (m : gmapD) : Prop := map_Forall (fun _ e => rw_safe e) m.

(** No copy of the block outside the shared memory is valid; the block is not shared for
    writing. *)
Definition no_local (m : gmapD) (key : BlockId) : bool :=
  match m !! bkey key with
  | Some e => forallb (fun s => (cn_idx_ s =? -1)%Z || invalidate_ s) (drop 1 (cn_array_ e))
  | None => true
  end.
Definition read_only (m : gmapD) (key : BlockId) : bool :=
  match m !! bkey key with Some e => (wmeta_idx_ e =? -1)%Z | None => true end.

(** What the operations leave to their callers, in the directory [m] where they take
    effect: write metadata is set by the operation that invalidates the local copies, or
    for a block without valid local copies; a local copy is added by the operation that
    checks the metadata, or to a block not shared for writing. *)
Definition disciplined (m : gmapD) (o : Modify) : Prop :=
  match o with
  | Put _ v | CheckPut _ v | Swap _ _ v => rw_safe v
  | PutArray key _ idx | CheckPutArray key _ idx | CheckPutSwapArray key _ idx _
  | CheckSwapArray _ key _ _ idx => idx = NUMA_MEM \/ read_only m key = true
  | PutArrayWmeta key _ idx w => w = (-1)%Z \/ (idx = NUMA_MEM /\ no_local m key = true)
  | CheckSwitchWmetaArray key w => w = (-1)%Z \/ no_local m key = true
  | CheckPutArrayWmeta key _ idx w => idx = NUMA_MEM -> w = (-1)%Z \/ no_local m key = true
  | InvalidateExceptArrayUpdateWmeta _ idx w => idx = NUMA_MEM
  | _ => True
  end.

Lemma rw_ro e : wmeta_idx_ e = (-1)%Z -> rw_safe e.
Proof. by intros E Hw. Qed.

Lemma rw_set e idx s :
  rw_safe e -> idx = NUMA_MEM \/ wmeta_idx_ e = (-1)%Z \/ cn_idx_ s = (-1)%Z \/ invalidate_ s = true ->
  rw_safe (set_cn e (<[idx := s]> (cn_array_ e))).
Proof.
  intros He Hs Hw i x Hi. cbn in *. intros [(<- & <- & _)|[_ Hx]]%list_lookup_insert_Some.
  - unfold NUMA_MEM in Hs. destruct Hs as [->|[?|?]]; [lia|done|done].
  - by eapply He.
Qed.

(** Without valid local copies any metadata is safe, whatever is in the shared memory. *)
Lemma rw_no_local e w : forallb (fun s => (cn_idx_ s =? -1)%Z || invalidate_ s) (drop 1 (cn_array_ e)) = true ->
  rw_safe (set_wmeta e w).
Proof.
  intros H _ i s Hi Hs. cbn in Hs. rewrite forallb_forall in H.
  assert (Hin : In s (drop 1 (cn_array_ e))).
  { apply list_elem_of_In, (list_elem_of_lookup_2 _ (i - 1)). rewrite lookup_drop. by replace (1 + (i - 1)) with i by lia. }
  apply H, orb_prop in Hin as [E|E]; [left; by apply Z.eqb_eq|by right].
Qed.

Lemma no_local_shared e s : drop 1 (cn_array_ (set_cn e (<[NUMA_MEM := s]> (cn_array_ e)))) = drop 1 (cn_array_ e).
Proof. cbn. by destruct (cn_array_ e). Qed.

Lemma init_shared_rw cn w : rw_safe (set_wmeta (init_gcd_entry cn NUMA_MEM) w).
Proof. by apply rw_no_local. Qed.

Lemma rw_wmeta e w : rw_safe e -> w = (-1)%Z \/ w = wmeta_idx_ e -> rw_safe (set_wmeta e w).
Proof. intros He [-> | ->]; [by apply rw_ro|]. exact He. Qed.

(** After the invalidations of all but the shared copy, any metadata is safe. *)
Lemma rw_mark e w : rw_safe (mkGCD w (imap (mark NUMA_MEM) (cn_array_ e))).
Proof.
  intros _ i s Hi. cbn. rewrite list_lookup_imap. destruct (cn_array_ e !! i) as [x|]; [|done].
  intros [= <-]. unfold mark. destruct (Z.eqb_spec (cn_idx_ x) (-1)); [by left|].
  destruct (Nat.eqb_spec NUMA_MEM i) as [<-|]; [unfold NUMA_MEM in Hi; lia|]. by right.
Qed.

Lemma rw_mark_any e idx : rw_safe e -> rw_safe (set_cn e (imap (mark idx) (cn_array_ e))).
Proof.
  intros He Hw i s Hi. cbn. rewrite list_lookup_imap. destruct (cn_array_ e !! i) as [x|] eqn:E; [|done].
  intros [= <-]. rewrite mark_cn. destruct (He Hw i x Hi E) as [?|Hx]; [by left|]. right.
  unfold mark. by destruct (_ && _).
Qed.

Lemma gcd_rw_insert m k e : gcd_rw m -> rw_safe e -> gcd_rw (<[k := e]> m).
Proof. intros. by apply map_Forall_insert_2. Qed.
Lemma gcd_rw_delete m k : gcd_rw m -> gcd_rw (delete k m).
Proof. intros. by apply map_Forall_delete. Qed.
Lemma gcd_rw_store m key e : gcd_rw m -> rw_safe e -> gcd_rw (store_or_remove m key e).
Proof.
  intros. unfold store_or_remove. destruct (all_null e); [by apply gcd_rw_delete|by apply gcd_rw_insert].
Qed.
Lemma gcd_rw_lookup m k e : gcd_rw m -> m !! k = Some e -> rw_safe e.
Proof. intros H E. exact (H _ _ E). Qed.
Lemma init_rw cn idx : rw_safe (init_gcd_entry cn idx).
Proof. by apply rw_ro. Qed.

#[export] Hint Resolve gcd_rw_insert gcd_rw_delete gcd_rw_store rw_mark rw_mark_any init_rw : gcd.
#[export] Hint Extern 1 (rw_safe (set_wmeta _ _)) => apply rw_wmeta : gcd.
#[export] Hint Extern 1 (rw_safe (set_cn _ (<[_ := _]> _))) => apply rw_set : gcd.

Lemma check_put_array_rw m key cn idx m' r :
  gcd_rw m -> idx = NUMA_MEM \/ read_only m key = true -> check_put_array m key cn idx = Ret (m', r) -> gcd_rw m'.
Proof.
  intros Hm Hd H. unfold check_put_array in H. unfold read_only in Hd. run_inv H; auto with gcd.
  apply gcd_rw_insert; [done|]. apply rw_set; [by eapply gcd_rw_lookup|].
  destruct Hd as [?|?%Z.eqb_eq]; auto.
Qed.

Lemma check_put_array_wmeta_rw m key cn idx w m' r :
  gcd_rw m -> (idx = NUMA_MEM -> w = (-1)%Z \/ no_local m key = true) ->
  check_put_array_wmeta m key cn idx w = Ret (m', r) -> gcd_rw m'.
Proof.
  intros Hm Hd H. unfold check_put_array_wmeta in H. unfold no_local in Hd.
  destruct (m !! bkey key) as [e|] eqn:E; cbn in H.
  - pose proof (gcd_rw_lookup _ _ _ Hm E) as He. run_inv H; try done; apply gcd_rw_insert; try done.
    + destruct (Nat.eqb_spec idx NUMA_MEM) as [->|Hi].
      * destruct (Hd eq_refl) as [->|Hno]; [by apply rw_ro|]. apply rw_no_local. by rewrite no_local_shared.
      * apply rw_set; [done|]. right. left. destruct (Z.eqb_spec (wmeta_idx_ e) (-1)); [done|].
        by destruct (Nat.eqb_spec idx NUMA_MEM).
    + bool_to_prop. subst. by apply rw_ro, Z.eqb_eq.
    + bool_to_prop. subst. destruct (Hd eq_refl) as [->|Hno]; [by apply rw_ro|by apply rw_no_local].
  - injection H as <- _. apply gcd_rw_insert; [done|]. destruct (Nat.eqb_spec idx NUMA_MEM) as [->|_]; [apply init_shared_rw|apply init_rw].
Qed.

(** The first half of [CheckSwapArray] keeps a block read-only. *)
Lemma read_only_store m key e e' key' : m !! bkey key = Some e -> wmeta_idx_ e' = wmeta_idx_ e ->
  read_only m key' = true -> read_only (store_or_remove m key e') key' = true.
Proof.
  intros E Hw. unfold read_only, store_or_remove. destruct (decide (bkey key = bkey key')) as [Ek|Ek].
  - rewrite <- Ek, E, <- Hw. destruct (all_null e'); [by rewrite lookup_delete_eq|by rewrite lookup_insert_eq].
  - destruct (all_null e'); [by rewrite lookup_delete_ne|by rewrite lookup_insert_ne].
Qed.

Lemma gcd_modify_rw m o m' r :
  gcd_wf m -> gcd_rw m -> disciplined m o -> gcd_modify m o = Ret (m', r) -> gcd_rw m'.
Proof.
  intros Hwf Hm Hd H.
  assert (Hl : forall key e, m !! bkey key = Some e -> rw_safe e) by (intros; by eapply gcd_rw_lookup).
  assert (Hsh : forall key e idx e', m !! bkey key = Some e -> invalidate_except e idx = Ret e' ->
            e' = set_cn e (imap (mark idx) (cn_array_ e))).
  { intros key e idx e' E. rewrite invalidate_except_run by apply (Hwf _ _ E). by intros [= <-]. }
  destruct o; cbn [disciplined gcd_modify] in *; try (by eapply check_put_array_rw); try (by eapply check_put_array_wmeta_rw);
    unfold delete_if_array, check_move_local_array in H; unfold no_local, read_only in Hd;
    run_inv H; subst; auto with gcd.
  all: repeat match goal with
  | E : _ !! bkey ?key = Some ?e, E2 : invalidate_except ?e _ = Ret _ |- _ => apply (Hsh key e _ _ E) in E2; subst
  end.
  all: try match goal with E : _ !! bkey _ = Some ?e |- _ => assert (rw_safe e) by (by eapply Hl) end.
  all: try (apply gcd_rw_insert || apply gcd_rw_store); try done; try (by auto with gcd).
  all: try (destruct Hd as [Hd|Hd]; [subst|try apply Z.eqb_eq in Hd]; by auto using rw_set, rw_ro).
  - destruct Hd as [->|[-> Hno]]; [by apply rw_ro|]. apply rw_no_local. by rewrite no_local_shared.
  - destruct Hd as [->|[-> _]]; [by apply rw_ro|apply init_shared_rw].
  - apply rw_set; [by apply rw_set; auto|]. cbn. destruct Hd as [?|?%Z.eqb_eq]; auto.
  - exact (rw_mark g wmeta_idx).
  - by apply rw_ro.
  - eapply check_put_array_rw; [|destruct Hd as [Hd|Hd]; [by left|right]|eassumption].
    + apply gcd_rw_store; [done|]. apply rw_set; auto.
    + by eapply read_only_store.
  - bool_to_prop. destruct Hd as [->|Hno]; [by apply rw_ro|by apply rw_no_local].
  - bool_to_prop. destruct Hd as [->|Hno]; [by apply rw_ro|by apply rw_no_local].
Qed.

(** ** Properties *)

(** C12: an operation with sensible arguments on a well-formed directory panics
    exactly when it adds a local copy of a block shared for writing, deletes a
    valid local copy of such a block, or moves a block that is not there or to
    the shared memory; otherwise it returns and the directory is well-formed: no
    entry is left without a copy, and an absent copy is never marked invalid, so
    that the panic for putting into an invalidated position cannot occur. *)
Theorem gcd_modify_safe m o :
  gcd_wf m -> op_wf o ->
  match gcd_modify m o with
  | Ret (m', _) => gcd_panics m o = false /\ gcd_wf m'
  | Panic _ => gcd_panics m o = true
  | Spin => False
  end.
Proof. apply gcd_modify_post. Qed.

Definition key1 : BlockId := mkBlock 1 10 4096.
Definition key2 : BlockId := mkBlock 2 11 0.
(** [key1] has a copy in the shared memory and one on node 2. *)
Definition example_map : gmapD :=
  {[ bkey key1 := mkGCD (-1) [mkCN 7 false; null_CNStatus; mkCN 3 false; null_CNStatus] ]}.

Lemma example_map_wf : gcd_wf example_map.
Proof. apply map_Forall_singleton. split; [|done]. split; [done|]. by repeat constructor. Qed.

Lemma gcd_modify_safe_witness :
  match gcd_modify example_map (CheckMoveLocalArray key1 9 1) with
  | Ret (m', _) => gcd_panics example_map (CheckMoveLocalArray key1 9 1) = false /\ gcd_wf m'
  | Panic _ => gcd_panics example_map (CheckMoveLocalArray key1 9 1) = true
  | Spin => False
  end.
Proof.
  apply (gcd_modify_safe example_map (CheckMoveLocalArray key1 9 1)).
  - apply example_map_wf.
  - split; [discriminate|]. unfold NSLOTS, LOGICAL_NODE_NUM. lia.
Defined.

(** Running operations in log order, dropping the responses. *)
Definition run_ops (m : gmapD) (os : list Modify) : res gmapD :=
  foldM (fun m o => '(m', _) ← gcd_modify m o; Ret m') m os.

(** Every operation is well-formed and disciplined where it takes effect. *)
Fixpoint proper_run (m : gmapD) (os : list Modify) : Prop :=
  match os with
  | [] => True
  | o :: os' => op_wf o /\ disciplined m o /\ match gcd_modify m o with Ret (m', _) => proper_run m' os' | _ => True end
  end.

(** In particular if it is disciplined wherever it takes effect. *)
Lemma proper_always m os : Forall (fun o => op_wf o /\ forall m, disciplined m o) os -> proper_run m os.
Proof.
  intros Hos. revert m. induction Hos as [|o os [Ho Hd] _ IH]; intros m; cbn; [done|]. split_and!; [done|done|].
  destruct (gcd_modify m o) as [[m' r]| |]; [apply IH|done|done].
Qed.

Lemma run_ops_inv m os m' :
  gcd_wf m -> gcd_rw m -> proper_run m os -> run_ops m os = Ret m' ->
  gcd_wf m' /\ gcd_rw m'.
Proof.
  revert m. induction os as [|o os IH]; intros m Hwf Hrw Hos; cbn.
  - by intros [= <-].
  - destruct Hos as (Ho & Hd & Hos). pose proof (gcd_modify_post m o Hwf Ho) as Hp.
    destruct (gcd_modify m o) as [[m1 r]| |] eqn:E; [|done|done]. mon. destruct Hp as [_ Hwf1].
    apply IH; [done| |done]. by apply (gcd_modify_rw m o m1 r).
Qed.

(** C21: if, where they take effect, the operations set the write metadata of a block
    only together with the invalidation of its local copies or when it has none that is
    valid, and add local copies only through the operation that checks the metadata or
    when it is not set, then in every directory reached from the empty one a block shared
    for writing has no valid local copy, and deleting a copy never panics. *)
Theorem gcd_write_shared_exclusive cap os m :
  proper_run (storage (hashmap_new cap)) os ->
  run_ops (storage (hashmap_new cap)) os = Ret m ->
  (forall k e i s, m !! k = Some e -> wmeta_idx_ e <> (-1)%Z -> 1 <= i ->
     cn_array_ e !! i = Some s -> cn_idx_ s = (-1)%Z \/ invalidate_ s = true)
  /\ (forall key idx, idx < NSLOTS -> exists m' r, gcd_modify m (DeleteIfArray key idx) = Ret (m', r)).
Proof.
  intros Hos Hrun.
  destruct (run_ops_inv (storage (hashmap_new cap)) os m) as [Hwf Hrw]; [apply map_Forall_empty..|done|done|].
  split.
  - intros k e i s Hk Hw Hi. by apply (gcd_rw_lookup _ _ _ Hrw Hk).
  - intros key idx Hi. pose proof (gcd_modify_post m (DeleteIfArray key idx) Hwf Hi) as Hp.
    destruct (gcd_modify m (DeleteIfArray key idx)) as [[m' r]| |]; [by eauto| |done].
    cbn in Hp. destruct (m !! bkey key) as [e|] eqn:E; [|done].
    rewrite !andb_true_iff, !negb_true_iff, Nat.eqb_neq, Z.eqb_neq in Hp. destruct Hp as [[H0 Hw] Hs].
    destruct (cn_array_ e !! idx) as [s|] eqn:Es; [|done].
    destruct (gcd_rw_lookup _ _ _ Hrw E Hw idx s) as [Hc|Hc]; [unfold NUMA_MEM in H0; lia|done| |].
    + by rewrite Hc in Hs.
    + rewrite Hc in Hs. by rewrite andb_false_r in Hs.
Qed.

(** [key1] gets a copy in the shared memory and one on node 2, and is then shared for
    writing; [key2] is entered for writing at once. *)
Definition example_ops : list Modify :=
  [CheckPutArrayWmeta key1 7 0 (-1); CheckPutArrayWmeta key1 3 2 5;
   InvalidateExceptArrayUpdateWmeta key1 0 6; CheckPutArrayWmeta key2 8 0 4].

Lemma gcd_write_shared_exclusive_witness :
  let m := {[ bkey key1 := mkGCD 6 [mkCN 7 false; null_CNStatus; mkCN 3 true; null_CNStatus];
              bkey key2 := mkGCD 4 [mkCN 8 false; null_CNStatus; null_CNStatus; null_CNStatus] ]} in
  run_ops ∅ example_ops = Ret m
  /\ (forall key idx, idx < NSLOTS -> exists m' r, gcd_modify m (DeleteIfArray key idx) = Ret (m', r)).
Proof.
  cbn zeta. split; [vm_compute; reflexivity|].
  apply (gcd_write_shared_exclusive 100 example_ops).
  - vm_compute. split_and!; auto; try lia; intros; by right.
  - vm_compute. reflexivity.
Defined.

(** The operation that enters a block for writing does not look at the local copies.  If
    a node enters a copy of a block after a writer has found the block absent and before
    the writer enters it in the shared memory, the block is shared for writing with a
    valid local copy, and deleting that copy panics. *)
Theorem write_admit_keeps_copies m key cn idx cn' w :
  m !! bkey key = None -> 1 <= idx < NSLOTS -> cn <> (-1)%Z -> w <> (-1)%Z ->
  exists m1 r1 m2 r2 msg, gcd_modify m (CheckPutArrayWmeta key cn idx (-1)) = Ret (m1, r1)
    /\ gcd_modify m1 (CheckPutArrayWmeta key cn' NUMA_MEM w) = Ret (m2, r2)
    /\ ~ gcd_rw m2 /\ gcd_modify m2 (DeleteIfArray key idx) = Panic msg.
Proof.
  intros Hm Hidx Hcn Hw. cbn [gcd_modify]. unfold check_put_array_wmeta at 1. rewrite Hm.
  assert (Hi : idx = 1 \/ idx = 2 \/ idx = 3) by (unfold NSLOTS, LOGICAL_NODE_NUM in Hidx; lia).
  set (e1 := if idx =? NUMA_MEM then _ else _). assert (E1 : e1 = init_gcd_entry cn idx) by (subst e1; by destruct Hi as [->|[->| ->]]).
  set (e2 := mkGCD w (<[0 := mkCN cn' false]> (cn_array_ (init_gcd_entry cn idx)))).
  assert (E2 : check_put_array_wmeta (<[bkey key := e1]> m) key cn' NUMA_MEM w
               = Ret (<[bkey key := e2]> (<[bkey key := e1]> m), some_resp key e2)).
  { unfold check_put_array_wmeta. rewrite lookup_insert_eq, E1. by destruct Hi as [->|[->| ->]]. }
  assert (Hs : cn_array_ e2 !! idx = Some (mkCN cn false)) by (by destruct Hi as [->|[->| ->]]).
  eexists _, _, _, _, _. split; [done|]. split; [exact E2|]. split.
  - intros Hrw. destruct (gcd_rw_lookup _ _ _ Hrw (lookup_insert_eq _ _ _) Hw idx _ (proj1 Hidx) Hs); done.
  - unfold delete_if_array. rewrite lookup_insert_eq. rewrite (vget_lookup _ _ _ Hs).
    destruct (Nat.eqb_spec idx NUMA_MEM) as [->|_]; [unfold NUMA_MEM in Hidx; lia|]. mon.
    rewrite decide_False by (by intros [=]). cbn. destruct (Z.eqb_spec w (-1)); [done|]. reflexivity.
Qed.

Lemma write_admit_keeps_copies_witness :
  exists m1 r1 m2 r2 msg, gcd_modify ∅ (CheckPutArrayWmeta key1 3 2 (-1)) = Ret (m1, r1)
    /\ gcd_modify m1 (CheckPutArrayWmeta key1 7 NUMA_MEM 5) = Ret (m2, r2)
    /\ ~ gcd_rw m2 /\ gcd_modify m2 (DeleteIfArray key1 2) = Panic msg.
Proof.
  apply (write_admit_keeps_copies ∅ key1 3 2 7 5); [reflexivity|unfold NSLOTS, LOGICAL_NODE_NUM; lia|discriminate|discriminate].
Defined.

(** An operation only changes the entries of the blocks it names; in
    particular blocks are told apart by inode and offset, never by server. *)
Theorem gcd_modify_local m o m' r key :
  gcd_modify m o = Ret (m', r) -> bkey key ∉ op_keys o ->
  gcd_dispatch (mkMap m') (Get key) = gcd_dispatch (mkMap m) (Get key).
Proof. intros H Hk. cbn. by rewrite (gcd_modify_frame m o m' r (bkey key) H Hk). Qed.

Lemma gcd_modify_local_witness :
  exists m' r, gcd_modify example_map (CheckSwapArray key2 key1 4 0 1) = Ret (m', r)
    /\ gcd_dispatch (mkMap m') (Get (mkBlock 1 12 0)) = gcd_dispatch (mkMap example_map) (Get (mkBlock 1 12 0)).
Proof.
  destruct (gcd_modify example_map (CheckSwapArray key2 key1 4 0 1)) as [[m' r]| |] eqn:E;
    [|vm_compute in E; discriminate E|vm_compute in E; discriminate E].
  exists m', r. split; [reflexivity|].
  apply (gcd_modify_local example_map _ m' r (mkBlock 1 12 0) E).
  intros H. apply list_elem_of_In in H. cbn in H. destruct H as [H|[H|[]]]; discriminate H.
Defined.
