(* ===== verification/GcdFfi.v ===== *)
(** * The C interface of the directory (ffi/ffi_nr_hashmap.rs)

    The [extern] functions, as the C++ side calls them: each one runs an
    operation of the directory through the replicated object and turns the
    response into a C value.  A pointer to the shared object is the object itself,
    passed explicitly; a pointer that may be null is an option.  [NrMeta] is the
    thread token.

    [linux_chg_affinity_numa] is the affinity function given to the replicated
    object; [sched_setaffinity] and the size of a [CpuSet] are parameters, with
    what their manual pages say as hypotheses where they are needed. *)

From stdpp Require Import gmap.
From S2P Require Import Prelude Context Log NrLog RwLock Flush Replica ReplicaSpec.
From S2P Require Import ReplicaOps NodeReplicated NodeReplicatedSpec Topology Gcd GcdSpec.

(** ** Thread affinity *)

(** A thread: the CPUs it may run on and the one it runs on, which [getcpu]
    reports. *)
Record Thread := mkThread { th_mask : list N; th_cpu : N }.

Section Affinity.
(** [CpuSet::count()], and the system call: [None] is an error. *)
Variable cpuset_count : N.
Variable sched_setaffinity : list N -> Thread -> option Thread.
Variable topo : MachineTopology.

(** [CpuSet::set(..).expect(..)]. *)
Definition cpuset_set (s : list N) (c : N) : res (list N) :=
  if (c <? cpuset_count)%N then Ret (c :: s) else Panic "Can't toggle CPU in cpu_set".

(** [sched_setaffinity(..).expect(..)]. *)
Definition set_affinity (s : list N) (t : Thread) (msg : string) : res Thread :=
  match sched_setaffinity s t with Some t' => Ret t' | None => Panic msg end.

(** The loop that fills the set with the CPUs of a node. *)
Definition cpuset_of (cs : list CpuInfo) : res (list N) :=
  foldM (fun s c => cpuset_set s (cpu c)) [] cs.

(** [linux_chg_affinity]. *)
Definition linux_chg_affinity (t : Thread) (af : AffinityChange) : res (Thread * N) :=
  match af with
  | AReplica rid =>
      let c := th_cpu t in
      s ← cpuset_of (cpus_on_node topo rid);
      t' ← set_affinity s t "Can't change thread affinity";
      Ret (t', c)
  | ARevert core_id =>
      s ← cpuset_set [] core_id;
      t' ← set_affinity s t "Can't reset thread affinity";
      Ret (t', 57005%N)
  end.

(** [linux_chg_affinity_numa]. *)
Definition linux_chg_affinity_numa (t : Thread) (af : AffinityChange) : res (Thread * N) :=
  match af with
  | AReplica rid =>
      let c := th_cpu t in
      rid_numa ← (if (rid =? usize_max)%N then Ret NUMA_MEM
                  else vget NUMA_EXEC (N.to_nat (rid mod N.of_nat NUM_EXEC)));
      s ← cpuset_of (cpus_on_node topo (N.of_nat rid_numa));
      t' ← set_affinity s t "Can't change thread affinity";
      Ret (t', c)
  | ARevert core_id =>
      s ← cpuset_set [] core_id;
      t' ← set_affinity s t "Can't reset thread affinity";
      Ret (t', 57005%N)
  end.

(** What the manual page of [sched_setaffinity] promises: a set with an online CPU
    is accepted, and the thread then runs on an online CPU of the set and on no
    others. *)
Definition affinity_call (online : N -> Prop) : Prop :=
  forall s t, (exists c, c ∈ s /\ online c) ->
    exists t', sched_setaffinity s t = Some t' /\ (forall c, c ∈ th_mask t' <-> c ∈ s /\ online c)
      /\ th_cpu t' ∈ s /\ online (th_cpu t').

(** The machine: online CPUs fit a [CpuSet], the topology lists online CPUs, and
    each of the first [nodes] nodes has one. *)
Record machine_nodes (nodes : nat) (online : N -> Prop) : Prop := {
  mo_call : affinity_call online;
  mo_fits : forall c, online c -> (c < cpuset_count)%N;
  mo_topo : forall c, c ∈ topo_data topo -> online (cpu c);
  mo_nodes : forall n, n < nodes -> exists c, c ∈ cpus_on_node topo (N.of_nat n);
}.
Definition machine_ok : (N -> Prop) -> Prop := machine_nodes (LOGICAL_NODE_NUM + 1).

(** The nodes the affinity function sends a thread to exist: the memory node and
    the nodes 1 to 3. *)
Lemma numa_exec_nodes i : i < NUM_EXEC -> exists n, NUMA_EXEC !! i = Some n /\ n < LOGICAL_NODE_NUM + 1
  /\ n <> NUMA_MEM.
Proof.
  unfold NUM_EXEC. intros Hi. destruct i as [|[|[|i]]]; [..|lia];
    eexists; (split; [vm_compute; reflexivity|]); unfold LOGICAL_NODE_NUM, NUMA_MEM; lia.
Qed.

Lemma cpuset_fold cs : forall s, (forall c, c ∈ cs -> (cpu c < cpuset_count)%N) ->
  exists s', foldM (fun s c => cpuset_set s (cpu c)) s cs = Ret s'
    /\ forall x, x ∈ s' <-> x ∈ s \/ exists c, c ∈ cs /\ cpu c = x.
Proof.
  induction cs as [|c cs IH]; intros s Hcs; cbn [foldM].
  - exists s. split; [done|]. intros x. split; [by left|]. intros [H|(c & Hc & _)]; [done|].
    by apply elem_of_nil in Hc.
  - assert (Ec : cpuset_set s (cpu c) = Ret (cpu c :: s)).
    { unfold cpuset_set. destruct (N.ltb_spec (cpu c) cpuset_count) as [_|Hge]; [done|].
      specialize (Hcs c (list_elem_of_here _ _)). lia. }
    rewrite Ec. mon. destruct (IH (cpu c :: s)) as (s' & E & Hs').
    { intros d Hd. apply Hcs. by apply list_elem_of_further. }
    exists s'. split; [exact E|]. intros x. rewrite Hs', elem_of_cons. split.
    + intros [[->|?]|(d & Hd & <-)]; [|by left|]; right; eexists; (split; [|done]);
        [apply list_elem_of_here|by apply list_elem_of_further].
    + intros [?|(d & [->|Hd]%elem_of_cons & <-)]; [by left; right|by left; left|right; eauto].
Qed.

Lemma cpus_on_node_sub n c : c ∈ cpus_on_node topo n -> c ∈ topo_data topo.
Proof. unfold cpus_on_node. rewrite !list_elem_of_In, List.filter_In. tauto. Qed.

(** Moving to a node of the machine succeeds. *)
Lemma move_to_node nodes online n t msg : machine_nodes nodes online -> n < nodes ->
  exists s t', cpuset_of (cpus_on_node topo (N.of_nat n)) = Ret s /\ set_affinity s t msg = Ret t'
    /\ th_cpu t' ∈ cpu <$> cpus_on_node topo (N.of_nat n).
Proof.
  intros [Hcall Hfits Htopo Hnodes] Hn.
  destruct (cpuset_fold (cpus_on_node topo (N.of_nat n)) []) as (s & E & Hs).
  { intros c Hc. eapply Hfits, Htopo, cpus_on_node_sub, Hc. }
  destruct (Hnodes n Hn) as [c Hc].
  destruct (Hcall s t) as (t' & Et & _ & Hin & _).
  { exists (cpu c). split; [apply Hs; right; eauto|]. by eapply Htopo, cpus_on_node_sub. }
  exists s, t'. split; [exact E|]. unfold set_affinity. rewrite Et. split; [done|].
  apply Hs in Hin as [H|(d & Hd & <-)]; [by apply elem_of_nil in H|]. by apply list_elem_of_fmap_2.
Qed.

Lemma affinity_revert nodes online c t msg : machine_nodes nodes online -> online c ->
  exists t', cpuset_set [] c = Ret [c] /\ set_affinity [c] t msg = Ret t'
    /\ (forall x, x ∈ th_mask t' <-> x = c) /\ th_cpu t' = c.
Proof.
  intros [Hcall Hfits _ _] Hc. unfold cpuset_set.
  destruct (N.ltb_spec c cpuset_count) as [_|Hge]; [|specialize (Hfits c Hc); lia].
  destruct (Hcall [c] t) as (t' & Et & Hm & Hin & _).
  { exists c. split; [apply list_elem_of_here|done]. }
  exists t'. unfold set_affinity. rewrite Et. split_and!; [done|done| |].
  - intros x. rewrite Hm, list_elem_of_singleton. naive_solver.
  - by apply list_elem_of_singleton in Hin.
Qed.

Lemma numa_target rid : exists n, n < LOGICAL_NODE_NUM + 1
  /\ (if (rid =? usize_max)%N then Ret NUMA_MEM
      else vget NUMA_EXEC (N.to_nat (rid mod N.of_nat NUM_EXEC))) = Ret n
  /\ (n = NUMA_MEM <-> rid = usize_max).
Proof.
  destruct (N.eqb_spec rid usize_max) as [->|Hne].
  - exists NUMA_MEM. split; [unfold LOGICAL_NODE_NUM, NUMA_MEM; lia|]. by split.
  - destruct (numa_exec_nodes (N.to_nat (rid mod N.of_nat NUM_EXEC))) as (n & E & Hn & H0).
    { pose proof (N.mod_lt rid (N.of_nat NUM_EXEC) ltac:(discriminate)). unfold NUM_EXEC in *. lia. }
    exists n. split; [done|]. split; [by apply vget_lookup|]. by split.
Qed.

(** Switching to a replica and back. *)
Lemma affinity_round online t rid : machine_ok online -> online (th_cpu t) ->
  exists t1 tkn t2 n, aff_switch (mkAff linux_chg_affinity_numa) t rid = Ret (t1, tkn)
    /\ th_cpu t1 ∈ cpu <$> cpus_on_node topo (N.of_nat n)
    /\ (n = NUMA_MEM <-> rid = usize_max)
    /\ aff_drop (mkAff linux_chg_affinity_numa) t1 tkn = Ret t2
    /\ (forall x, x ∈ th_mask t2 <-> x = th_cpu t) /\ th_cpu t2 = th_cpu t.
Proof.
  intros Hm Hon. destruct (numa_target rid) as (n & Hn & En & Hnm).
  destruct (move_to_node _ online n t "Can't change thread affinity" Hm Hn) as (s & t1 & Es & Et & Hin).
  destruct (affinity_revert _ online (th_cpu t) t1 "Can't reset thread affinity" Hm Hon)
    as (t2 & Es2 & Et2 & Hmask & Hcpu).
  exists t1, (mkAffTkn (th_cpu t)), t2, n. unfold aff_switch, aff_drop. cbn [af_change_fn linux_chg_affinity_numa].
  rewrite En. mon. rewrite Es. mon. rewrite Et. mon. cbn [aff_old]. rewrite Es2. mon. rewrite Et2. mon.
  split_and!; done.
Qed.

Lemma affinity_safe online n t : machine_ok online -> online (th_cpu t) ->
  aff_safe true (mkAff linux_chg_affinity_numa) n t.
Proof.
  intros Hm Hon. exists (fun t => online (th_cpu t)). split; [done|]. intros a rid Ha _.
  destruct (affinity_round online a rid Hm Ha) as (t1 & tkn & t2 & k & E1 & _ & _ & E2 & _ & Hc).
  exists t1, tkn, t2. split_and!; [done|done|]. by rewrite Hc.
Qed.
End Affinity.

(** A machine whose CPUs below [k] are online. *)
Definition sched_below (k : N) (s : list N) (t : Thread) : option Thread :=
  match List.filter (fun c => (c <? k)%N) s with
  | [] => None
  | c :: cs => Some (mkThread (c :: cs) c)
  end.

Lemma sched_below_call k : affinity_call (sched_below k) (fun c => (c < k)%N).
Proof.
  intros s t (c & Hc & Hon). unfold sched_below.
  assert (Hf : forall x, x ∈ List.filter (fun c => (c <? k)%N) s <-> x ∈ s /\ (x < k)%N).
  { intros x. by rewrite !list_elem_of_In, List.filter_In, N.ltb_lt. }
  destruct (List.filter _ s) as [|d ds].
  + assert (c ∈ @nil N) as H by (by apply Hf). by apply elem_of_nil in H.
  + eexists. split; [done|]. split; [done|]. apply Hf, list_elem_of_here.
Qed.

(** ** The extern functions *)

(** [NrRapper]: the replicated directory, the background thread if there is one,
    and the signal that stops it. *)
Abbreviation directory := (NodeReplicated NrHashMapFFi Modify OptionGCDReponse Thread).
Record NrRapper := mkRapper { nrht : directory; thread_handle : option N; stop_signal : bool }.

(** [NrMeta]. *)
Record NrMeta := mkMeta { ttkn : ThreadToken }.

Section Create.
Variable cpuset_count : N.
Variable sched_setaffinity : list N -> Thread -> option Thread.
Variable topo : MachineTopology.
(** The size of a log entry and the memory that can be allocated. *)
Variable esize : N.
Variable mem : nat.

(** [Result::unwrap]. *)
Definition unwrap_nr (r : result directory NodeReplicatedError) : res directory :=
  match r with
  | Ok nr => Ret nr
  | Err OutOfMemory => Panic "called `Result::unwrap()` on an `Err` value: OutOfMemory"
  end.

(** [create_node_replicated]; [t] is the calling thread. *)
Definition create_node_replicated (cap : N) (num_replica : nat) (t : Thread) : res (NrRapper * Thread) :=
  let a := hashmap_new cap in
  '(r, t') ← nr_new_with_data num_replica
               (linux_chg_affinity cpuset_count sched_setaffinity topo) esize a mem t;
  nr ← unwrap_nr r;
  Ret (mkRapper nr None false, t').

(** [create_node_replicated_numa]. *)
Definition create_node_replicated_numa (cap : N) (num_replica : nat) (base_addr slot_size : Z)
    (numa_mem numa_num : nat) (t : Thread) : res (NrRapper * Thread) :=
  let a := hashmap_new cap in
  _ ← rassert (num_replica =? LOGICAL_NODE_NUM)
        "assertion failed: usize::from(num_replica) == LOGICAL_NODE_NUM";
  _ ← rassert (numa_mem =? NUMA_MEM) "assertion failed: numa_mem == NUMA_MEM";
  _ ← rassert (numa_num =? NUM_EXEC + 1) "assertion failed: numa_num == NUM_EXEC + 1";
  '(r, t') ← nr_new_with_data_and_base_addr_numa num_replica
               (linux_chg_affinity_numa cpuset_count sched_setaffinity topo) esize a base_addr slot_size mem t;
  nr ← unwrap_nr r;
  Ret (mkRapper nr None false, t').
End Create.

(** [free_node_replicated]: a background thread is told to stop and joined before
    the object goes. *)
Definition free_node_replicated (w : option NrRapper) : option NrRapper :=
  match w with
  | None => None
  | Some w =>
      match thread_handle w with
      | Some _handle => Some (mkRapper (nrht w) None true)
      | None => Some w
      end
  end.

(** [register_node_replicated]. *)
Definition register_node_replicated (w : option NrRapper) (idx : nat)
  : res (option (NrMeta * NrRapper)) :=
  match w with
  | None => Ret None
  | Some w =>
      '(log_token, nr) ← nr_register (nrht w) idx;
      match log_token with
      | None => Panic "Unable to register thread with replica"
      | Some t => Ret (Some (mkMeta t, mkRapper nr (thread_handle w) (stop_signal w)))
      end
  end.

(** [unregister_node_replicated]: only the handle goes; the thread stays registered
    with the replica. *)
Definition unregister_node_replicated (m : option NrMeta) : option NrMeta :=
  match m with None => None | Some _ => None end.

Section Calls.
Variable f : feature.
Implicit Types (nr : directory) (m : NrMeta) (key : BlockId).

(** [execute_mut] followed by the translation of the response. *)
Definition mut_call {X} nr m (o : Modify) (k : OptionGCDReponse -> X) : res (X * directory) :=
  '(wrapper, nr') ← execute_mut f nr o (ttkn m); Ret (k wrapper, nr').

(** The translations of the responses. *)
Definition is_done (r : OptionGCDReponse) : bool := match r with Some _ => true | None => false end.
Definition delete_code (r : OptionGCDReponse) : Z :=
  match r with Some v => wmeta_idx_ (r_value v) | None => (-2)%Z end.
Definition delete_if_code (r : OptionGCDReponse) : nat :=
  match r with
  | Some v => if block_eqb (r_key v) null_BlockId then
                if decide (r_value v = init_empty_gcd_entry) then 3 else 1
              else 0
  | None => 2
  end.
Definition invalidate_code (r : OptionGCDReponse) : nat :=
  match r with Some v => if block_eqb (r_key v) null_BlockId then 2 else 0 | None => 1 end.
Definition check_put_code (r : OptionGCDReponse) : nat :=
  match r with Some v => if block_eqb (r_key v) null_BlockId then 2 else 0 | None => 1 end.
Definition switch_code (r : OptionGCDReponse) : Z :=
  match r with Some v => wmeta_idx_ (r_value v) | None => (-1)%Z end.
Definition move_code (r : OptionGCDReponse) : Z :=
  match r with Some _ => 0%Z | None => (-1)%Z end.
Definition entry_of (r : OptionGCDReponse) : GCDEntry :=
  match r with Some v => r_value v | None => init_empty_gcd_entry end.

(** The writes. *)
Definition ffi_Put nr m key (val : GCDEntry) : res (unit * directory) :=
  mut_call nr m (Put key val) (fun _ => tt).
Definition ffi_PutArray nr m key (cn : Z) (idx : nat) (wmeta_idx : Z) : res (unit * directory) :=
  mut_call nr m (PutArrayWmeta key cn idx wmeta_idx) (fun _ => tt).
Definition ffi_Delete nr m key : res (Z * directory) := mut_call nr m (Delete key) delete_code.
Definition ffi_DeleteArray nr m key (idx : nat) : res (bool * directory) :=
  mut_call nr m (DeleteArray key idx) is_done.
Definition ffi_DeleteIfArray nr m key (idx : nat) : res (nat * directory) :=
  mut_call nr m (DeleteIfArray key idx) delete_if_code.
Definition ffi_InvalidateArray nr m key (idx : nat) : res (unit * directory) :=
  mut_call nr m (InvalidateArray key idx) (fun _ => tt).
Definition ffi_InvalidateExceptArray nr m key (idx : nat) : res (unit * directory) :=
  mut_call nr m (InvalidateExceptArray key idx) (fun _ => tt).
Definition ffi_InvalidateExceptArrayUpdateWmeta nr m key (idx : nat) (wmeta_idx : Z)
  : res (nat * directory) :=
  mut_call nr m (InvalidateExceptArrayUpdateWmeta key idx wmeta_idx) invalidate_code.
Definition ffi_CheckPut nr m key (val : GCDEntry) : res (bool * directory) :=
  mut_call nr m (CheckPut key val) is_done.
Definition ffi_CheckPutArray nr m key (cn : Z) (idx : nat) (wmeta_idx : Z) : res (nat * directory) :=
  mut_call nr m (CheckPutArrayWmeta key cn idx wmeta_idx) check_put_code.
Definition ffi_CheckSwitchWmetaArray nr m key (wmeta_idx : Z) : res (Z * directory) :=
  mut_call nr m (CheckSwitchWmetaArray key wmeta_idx) switch_code.
Definition ffi_CheckMoveLocalArray nr m key (cn : Z) (idx : nat) : res (Z * directory) :=
  mut_call nr m (CheckMoveLocalArray key cn idx) move_code.
Definition ffi_CheckPutSwapArray nr m key (cn : Z) (new_idx old_idx : nat) : res (bool * directory) :=
  mut_call nr m (CheckPutSwapArray key cn new_idx old_idx) is_done.
Definition ffi_Swap nr m (to_remove to_insert : BlockId) (val : GCDEntry) : res (bool * directory) :=
  mut_call nr m (Swap to_remove to_insert val) (fun _ => true).
Definition ffi_CheckSwapArray nr m (to_remove to_insert : BlockId) (cn : Z) (new_idx old_idx : nat)
  : res (bool * directory) :=
  mut_call nr m (CheckSwapArray to_remove to_insert cn new_idx old_idx) is_done.
Definition ffi_DummyEvent nr m key : res (unit * directory) :=
  mut_call nr m (DummyLog key) (fun _ => tt).

(** The reads. *)
Definition ffi_Get nr m key : res (GCDEntry * directory) :=
  '(wrapper, nr') ← execute f nr (Get key) (ttkn m); Ret (entry_of wrapper, nr').
Definition ffi_GetAnchor nr m key : res (GCDEntry * directory) :=
  '(wrapper, nr') ← execute_anchor f nr (Get key) (ttkn m); Ret (entry_of wrapper, nr').
Definition ffi_GetAsync nr m key : res (GCDEntry * directory) :=
  '(wrapper, nr') ← execute_loose f nr (Get key) (ttkn m); Ret (entry_of wrapper, nr').

(** The coherence queries. *)
Definition ffi_CheckCoherence nr m key : res (bool * directory) :=
  '(wrapper, nr') ← execute f nr (Get key) (ttkn m);
  match wrapper with
  | Some value => if (slot0 (r_value value) =? -1)%Z then Ret (false, nr')
                  else nr_check_coherence nr' wrapper (ttkn m)
  | None => Ret (false, nr')
  end.
Definition ffi_CheckCoherenceSlot nr m (key : Z) : res (bool * directory) :=
  if (key =? -1)%Z then Ret (false, nr)
  else nr_check_coherence nr (some_resp null_BlockId (init_gcd_entry key NUMA_MEM)) (ttkn m).
Definition ffi_ResetCoherence nr m key : res (unit * directory) :=
  '(wrapper, nr') ← execute f nr (Get key) (ttkn m);
  if opt_is_some wrapper then nr_reset_coherence nr' wrapper (ttkn m) else Ret (tt, nr').
Definition ffi_CheckCoherenceReset nr m key : res (bool * directory) :=
  '(wrapper, nr') ← execute f nr (Get key) (ttkn m);
  match wrapper with
  | Some _ => nr_check_coherence_reset nr' wrapper (ttkn m)
  | None => Ret (true, nr')
  end.
Definition ffi_CheckNotificationReset nr m : res (bool * directory) :=
  nr_check_notification_reset nr (ttkn m).
End Calls.
