(* ===== verification/GcdFfiSpec.v ===== *)
(** * Properties of the C interface

    [directory_refines]: a program of calls of the C interface by any threads
    returns what the same calls return on one hash map.  The return codes of
    [CheckPutArray] and [DeleteIfArray] are exact, and so is what the change
    notification learns from a response. *)

From stdpp Require Import gmap.
From S2P Require Import Prelude Context Log NrLog RwLock Flush Replica ReplicaSpec.
From S2P Require Import ReplicaOps NodeReplicated NodeReplicatedSpec Topology Gcd GcdSpec GcdFfi.

(** ** Programs of calls *)

Inductive fcall :=
| FRegister (idx : nat)
| FPut (key : BlockId) (val : GCDEntry)
| FPutArray (key : BlockId) (cn : Z) (idx : nat) (w : Z)
| FDelete (key : BlockId)
| FDeleteArray (key : BlockId) (idx : nat)
| FDeleteIfArray (key : BlockId) (idx : nat)
| FInvalidateArray (key : BlockId) (idx : nat)
| FInvalidateExceptArray (key : BlockId) (idx : nat)
| FInvalidateExceptArrayUpdateWmeta (key : BlockId) (idx : nat) (w : Z)
| FCheckPut (key : BlockId) (val : GCDEntry)
| FCheckPutArray (key : BlockId) (cn : Z) (idx : nat) (w : Z)
| FCheckSwitchWmetaArray (key : BlockId) (w : Z)
| FCheckMoveLocalArray (key : BlockId) (cn : Z) (idx : nat)
| FCheckPutSwapArray (key : BlockId) (cn : Z) (new_idx old_idx : nat)
| FSwap (to_remove to_insert : BlockId) (val : GCDEntry)
| FCheckSwapArray (to_remove to_insert : BlockId) (cn : Z) (new_idx old_idx : nat)
| FDummyEvent (key : BlockId)
| FGet (key : BlockId)
| FGetAnchor (key : BlockId).

(** The value a call returns to C. *)
Inductive fval :=
| VUnit
| VBool (b : bool)
| VInt (z : Z)
| VEntry (e : GCDEntry)
| VMeta (m : NrMeta).

Definition VNat (n : nat) : fval := VInt (Z.of_nat n).

(** The call through the C interface, by the thread [t] with the handle [m]. *)
Definition ffi_run (f : feature) (w : NrRapper) (t : Thread) (m : NrMeta) (c : fcall)
  : res (NrRapper * fval) :=
  let nr := set_aff (nrht w) t in
  let back {X} (v : X -> fval) (r : res (X * directory)) : res (NrRapper * fval) :=
    '(x, nr') ← r; Ret (mkRapper nr' (thread_handle w) (stop_signal w), v x) in
  match c with
  | FRegister idx =>
      o ← register_node_replicated (Some (mkRapper nr (thread_handle w) (stop_signal w))) idx;
      '(m', w') ← unwrap o; Ret (w', VMeta m')
  | FPut key val => back (fun _ => VUnit) (ffi_Put f nr m key val)
  | FPutArray key cn idx wm => back (fun _ => VUnit) (ffi_PutArray f nr m key cn idx wm)
  | FDelete key => back VInt (ffi_Delete f nr m key)
  | FDeleteArray key idx => back VBool (ffi_DeleteArray f nr m key idx)
  | FDeleteIfArray key idx => back VNat (ffi_DeleteIfArray f nr m key idx)
  | FInvalidateArray key idx => back (fun _ => VUnit) (ffi_InvalidateArray f nr m key idx)
  | FInvalidateExceptArray key idx => back (fun _ => VUnit) (ffi_InvalidateExceptArray f nr m key idx)
  | FInvalidateExceptArrayUpdateWmeta key idx wm =>
      back VNat (ffi_InvalidateExceptArrayUpdateWmeta f nr m key idx wm)
  | FCheckPut key val => back VBool (ffi_CheckPut f nr m key val)
  | FCheckPutArray key cn idx wm => back VNat (ffi_CheckPutArray f nr m key cn idx wm)
  | FCheckSwitchWmetaArray key wm => back VInt (ffi_CheckSwitchWmetaArray f nr m key wm)
  | FCheckMoveLocalArray key cn idx => back VInt (ffi_CheckMoveLocalArray f nr m key cn idx)
  | FCheckPutSwapArray key cn i j => back VBool (ffi_CheckPutSwapArray f nr m key cn i j)
  | FSwap k1 k2 val => back VBool (ffi_Swap f nr m k1 k2 val)
  | FCheckSwapArray k1 k2 cn i j => back VBool (ffi_CheckSwapArray f nr m k1 k2 cn i j)
  | FDummyEvent key => back (fun _ => VUnit) (ffi_DummyEvent f nr m key)
  | FGet key => back VEntry (ffi_Get f nr m key)
  | FGetAnchor key => back VEntry (ffi_GetAnchor f nr m key)
  end.

(** ** The specification: one hash map *)

Record dir_spec := mkDir { ds_map : gmapD; ds_regs : list nat }.

(** A write of the specification. *)
Definition spec_write (s : dir_spec) (o : Modify) (v : OptionGCDReponse -> fval) : res (dir_spec * fval) :=
  '(g, r) ← gcd_modify (ds_map s) o; Ret (mkDir g (ds_regs s), v r).

Definition spec_read (s : dir_spec) (key : BlockId) : res (dir_spec * fval) :=
  Ret (s, VEntry (default init_empty_gcd_entry (ds_map s !! bkey key))).

Definition spec_ffi (s : dir_spec) (c : fcall) : res (dir_spec * fval) :=
  match c with
  | FRegister idx =>
      match ds_regs s !! idx with
      | None => Panic "no such replica"
      | Some n =>
          if MAX_THREADS_PER_REPLICA <? n then Panic "too many threads"
          else Ret (mkDir (ds_map s) (<[idx := n + 1]> (ds_regs s)), VMeta (mkMeta (mkToken idx n)))
      end
  | FPut key val => spec_write s (Put key val) (fun _ => VUnit)
  | FPutArray key cn idx wm => spec_write s (PutArrayWmeta key cn idx wm) (fun _ => VUnit)
  | FDelete key => spec_write s (Delete key) (fun r => VInt (delete_code r))
  | FDeleteArray key idx => spec_write s (DeleteArray key idx) (fun r => VBool (is_done r))
  | FDeleteIfArray key idx => spec_write s (DeleteIfArray key idx) (fun r => VNat (delete_if_code r))
  | FInvalidateArray key idx => spec_write s (InvalidateArray key idx) (fun _ => VUnit)
  | FInvalidateExceptArray key idx => spec_write s (InvalidateExceptArray key idx) (fun _ => VUnit)
  | FInvalidateExceptArrayUpdateWmeta key idx wm =>
      spec_write s (InvalidateExceptArrayUpdateWmeta key idx wm) (fun r => VNat (invalidate_code r))
  | FCheckPut key val => spec_write s (CheckPut key val) (fun r => VBool (is_done r))
  | FCheckPutArray key cn idx wm =>
      spec_write s (CheckPutArrayWmeta key cn idx wm) (fun r => VNat (check_put_code r))
  | FCheckSwitchWmetaArray key wm =>
      spec_write s (CheckSwitchWmetaArray key wm) (fun r => VInt (switch_code r))
  | FCheckMoveLocalArray key cn idx =>
      spec_write s (CheckMoveLocalArray key cn idx) (fun r => VInt (move_code r))
  | FCheckPutSwapArray key cn new_idx old_idx =>
      spec_write s (CheckPutSwapArray key cn new_idx old_idx) (fun r => VBool (is_done r))
  | FSwap k1 k2 val => spec_write s (Swap k1 k2 val) (fun _ => VBool true)
  | FCheckSwapArray k1 k2 cn new_idx old_idx =>
      spec_write s (CheckSwapArray k1 k2 cn new_idx old_idx) (fun r => VBool (is_done r))
  | FDummyEvent key => spec_write s (DummyLog key) (fun _ => VUnit)
  | FGet key | FGetAnchor key => spec_read s key
  end.

(** The handle was returned by a registration. *)
Definition registered (s : dir_spec) (m : NrMeta) : bool :=
  match ds_regs s !! rid (ttkn m) with
  | Some n => (1 <=? rtkn (ttkn m)) && (rtkn (ttkn m) <? n)
  | None => false
  end.

Definition needs_meta (c : fcall) : bool := match c with FRegister _ => false | _ => true end.

(** Programs: who calls, with which handle, what. *)
Definition prog := list (Thread * NrMeta * fcall).

Fixpoint run_ffi (f : feature) (w : NrRapper) (p : prog) : res (NrRapper * list fval) :=
  match p with
  | [] => Ret (w, [])
  | (t, m, c) :: p' =>
      '(w1, v) ← ffi_run f w t m c; '(w2, vs) ← run_ffi f w1 p'; Ret (w2, v :: vs)
  end.

Fixpoint run_spec (s : dir_spec) (p : prog) : res (dir_spec * list fval) :=
  match p with
  | [] => Ret (s, [])
  | (_, m, c) :: p' =>
      _ ← rassert (implb (needs_meta c) (registered s m)) "unknown handle";
      '(s1, v) ← spec_ffi s c; '(s2, vs) ← run_spec s1 p'; Ret (s2, v :: vs)
  end.

(** ** The simulation *)

Lemma nr_call_mngr {D RO WO R A} `{!Dispatch D RO WO R} f (nr nr' : NodeReplicated D WO R A) c x :
  nr_call f nr c = Ret (nr', x) -> affinity_mngr nr' = affinity_mngr nr.
Proof.
  assert (Hrep : forall X (nr1 nr2 : NodeReplicated D WO R A) k op (y : X),
            on_replica nr1 k op = Ret (y, nr2) -> affinity_mngr nr2 = affinity_mngr nr1).
  { intros X nr1 nr2 k op y E. unfold on_replica in E. by ret_inv E. }
  apply (nr_call_keeps (fun nr' => affinity_mngr nr' = affinity_mngr nr)); [| |done].
  - intros X nr1 k op y nr2 H1 E. apply Hrep in E. congruence.
  - intros nr1 k op nr2 H1 E. unfold on_stuck in E. ret_inv E.
    match goal with E : on_replica _ _ _ = _ |- _ => apply Hrep in E end. cbn in *. congruence.
Qed.

Section Sim.
Context (f : feature) (online : N -> Prop) (cpuset_count : N).
Context (sched_setaffinity : list N -> Thread -> option Thread) (topo : MachineTopology).
Hypothesis Hmachine : machine_ok cpuset_count sched_setaffinity topo online.
Abbreviation am := (mkAff (linux_chg_affinity_numa cpuset_count sched_setaffinity topo)).

Definition dsim (w : NrRapper) (s : dir_spec) : Prop :=
  affinity_mngr (nrht w) = am
  /\ sim f (hashmap_new 0) (nrht w) (mkSpec (mkMap (ds_map s)) (ds_regs s)).

(** Another thread continues. *)
Lemma sim_thread nr s t :
  affinity_mngr nr = am -> online (th_cpu t) -> sim f (hashmap_new 0) nr s ->
  sim f (hashmap_new 0) (set_aff nr t) s.
Proof.
  intros Ham Hon (hist & rs & [H1 H2 H3 H4 H5 _] & Hrun & Hregs). exists hist, rs.
  split_and!; [|done|done]. split; try done. unfold aff_ok. cbn. rewrite Ham.
  by eapply aff_safe_weaken, affinity_safe.
Qed.

(** A write and a read through the replicated object, by thread [t]. *)
Lemma mut_call_run {X} w s t m o (k : OptionGCDReponse -> X) g r :
  dsim w s -> online (th_cpu t) -> registered s m = true ->
  gcd_modify (ds_map s) o = Ret (g, r) ->
  exists nr', mut_call f (set_aff (nrht w) t) m o k = Ret (k r, nr')
    /\ dsim (mkRapper nr' (thread_handle w) (stop_signal w)) (mkDir g (ds_regs s)).
Proof.
  intros [Ham Hsim] Hon Hm Ho. apply (sim_thread _ _ t) in Hsim; [|done|done].
  destruct (sim_call f _ _ _ (CWrite (ttkn m) o) (mkSpec (mkMap g) (ds_regs s)) (OResp r) Hsim)
    as (nr' & E & Hsim').
  { cbn [spec_call]. change (sp_registered _ _) with (registered s m). rewrite Hm. cbn [rassert]. mon.
    cbn [dispatch_mut GcdDispatch sp_data]. unfold gcd_dispatch_mut. cbn [storage]. by rewrite Ho. }
  exists nr'. pose proof (nr_call_mngr _ _ _ _ _ E) as Ham'. cbn [nr_call] in E. unfold mut_call.
  ret_inv E. split; [done|]. split; [by rewrite <- Ham|done].
Qed.

Lemma read_call_run w s t m key c :
  c = CRead (ttkn m) (Get key) \/ c = CReadAnchor (ttkn m) (Get key) ->
  dsim w s -> online (th_cpu t) -> registered s m = true ->
  exists nr' r, nr_call f (set_aff (nrht w) t) c = Ret (nr', OResp r)
    /\ entry_of r = default init_empty_gcd_entry (ds_map s !! bkey key)
    /\ dsim (mkRapper nr' (thread_handle w) (stop_signal w)) s.
Proof.
  intros Hc [Ham Hsim] Hon Hm. apply (sim_thread _ _ t) in Hsim; [|done|done].
  set (r := (fun value => mkResp key value) <$> ds_map s !! bkey key).
  destruct (sim_call f _ _ _ c (mkSpec (mkMap (ds_map s)) (ds_regs s)) (OResp r) Hsim)
    as (nr' & E & Hsim').
  { destruct Hc as [-> | ->]; cbn [spec_call]; change (sp_registered _ _) with (registered s m);
      rewrite Hm; done. }
  exists nr', r. pose proof (nr_call_mngr _ _ _ _ _ E) as Ham'. split_and!; [done| |].
  - subst r. by destruct (ds_map s !! bkey key).
  - split; [by rewrite <- Ham|done].
Qed.

Lemma ffi_run_sim w s t m c s' v :
  dsim w s -> online (th_cpu t) -> implb (needs_meta c) (registered s m) = true ->
  spec_ffi s c = Ret (s', v) ->
  exists w', ffi_run f w t m c = Ret (w', v) /\ dsim w' s'.
Proof.
  intros Hsim Hon Hm E.
  assert (Hw : forall X o (k : OptionGCDReponse -> X) (vk : X -> fval),
            registered s m = true -> spec_write s o (fun r => vk (k r)) = Ret (s', v) ->
            exists w', ('(x, nr') ← mut_call f (set_aff (nrht w) t) m o k;
                        Ret (mkRapper nr' (thread_handle w) (stop_signal w), vk x)) = Ret (w', v)
                       /\ dsim w' s').
  { intros X o k vk Hreg Es. unfold spec_write in Es.
    destruct (gcd_modify (ds_map s) o) as [[g r]| |] eqn:Eo; [|done|done]. injection Es as <- <-.
    destruct (mut_call_run w s t m o k g r Hsim Hon Hreg Eo) as (nr' & -> & Hsim'). mon. eauto. }
  destruct c; cbn [needs_meta implb spec_ffi ffi_run] in *.
  all: try (unfold ffi_Put, ffi_PutArray, ffi_Delete, ffi_DeleteArray, ffi_DeleteIfArray,
    ffi_InvalidateArray, ffi_InvalidateExceptArray, ffi_InvalidateExceptArrayUpdateWmeta, ffi_CheckPut,
    ffi_CheckPutArray, ffi_CheckSwitchWmetaArray, ffi_CheckMoveLocalArray, ffi_CheckPutSwapArray,
    ffi_Swap, ffi_CheckSwapArray, ffi_DummyEvent; by apply Hw).
  - clear Hw. destruct Hsim as [Ham Hsim]. apply (sim_thread _ _ t) in Hsim; [|done|done].
    destruct (ds_regs s !! idx) as [n|] eqn:En; [|done].
    destruct (MAX_THREADS_PER_REPLICA <? n) eqn:Ed; [done|]. injection E as <- <-.
    destruct (sim_call f _ _ _ (CRegister idx)
                (mkSpec (mkMap (ds_map s)) (<[idx := n + 1]> (ds_regs s)))
                (OTkn (Some (mkToken idx n))) Hsim) as (nr' & E & Hsim').
    { cbn [spec_call sp_regs]. by rewrite En, Ed. }
    pose proof (nr_call_mngr _ _ _ _ _ E) as Ham'. cbn [nr_call] in E. cbn [register_node_replicated nrht].
    ret_inv E. mon. eexists. split; [done|]. split; [by rewrite <- Ham|done].
  - destruct (read_call_run w s t m key _ (or_introl eq_refl) Hsim Hon Hm) as (nr' & r & Er & Hr & Hsim').
    injection E as <- <-. rewrite <- Hr. cbn [nr_call] in Er. unfold ffi_Get. ret_inv Er. mon. eauto.
  - destruct (read_call_run w s t m key _ (or_intror eq_refl) Hsim Hon Hm) as (nr' & r & Er & Hr & Hsim').
    injection E as <- <-. rewrite <- Hr. cbn [nr_call] in Er. unfold ffi_GetAnchor. ret_inv Er. mon. eauto.
Qed.

Lemma run_ffi_sim p : forall w s s' vs,
  dsim w s -> Forall (fun x => online (th_cpu x.1.1)) p -> run_spec s p = Ret (s', vs) ->
  exists w', run_ffi f w p = Ret (w', vs) /\ dsim w' s'.
Proof.
  induction p as [|[[t m] c] p IH]; intros w s s' vs Hsim Hp E; cbn [run_spec run_ffi] in *.
  - injection E as <- <-. eauto.
  - apply Forall_cons_iff in Hp as [Ht Hp]. cbn in Ht.
    destruct (implb (needs_meta c) (registered s m)) eqn:Hm; cbn [rassert] in E; [|done].
    cbn [mbind res_bind] in E. destruct (spec_ffi s c) as [[s1 v]| |] eqn:E1; cbn in E; [|done|done].
    destruct (run_spec s1 p) as [[s2 vs']| |] eqn:E2; cbn in E; [|done|done]. injection E as <- <-.
    destruct (ffi_run_sim w s t m c s1 v Hsim Ht Hm E1) as (w1 & -> & Hsim1). mon.
    destruct (IH w1 s1 s2 vs' Hsim1 Hp E2) as (w2 & -> & Hsim2). mon. eauto.
Qed.

(** A directory as [create_node_replicated_numa] makes it. *)
Lemma create_run esize mem cap addr slot t :
  LOGICAL_NODE_NUM + 3 <= mem -> online (th_cpu t) ->
  exists w t', create_node_replicated_numa cpuset_count sched_setaffinity topo esize mem cap
      LOGICAL_NODE_NUM addr slot NUMA_MEM (NUM_EXEC + 1) t = Ret (w, t')
    /\ dsim w (mkDir ∅ (replicate LOGICAL_NODE_NUM 1)).
Proof.
  intros Hmem Hon. unfold create_node_replicated_numa. rewrite !Nat.eqb_refl. cbn [rassert]. mon.
  unfold nr_new_with_data_and_base_addr_numa, with_log_size_and_struct_and_base_addr_numa.
  destruct (build_run f (hashmap_new 0) true LOGICAL_NODE_NUM
      (linux_chg_affinity_numa cpuset_count sched_setaffinity topo) esize DEFAULT_LOG_BYTES
      (fun t => replica_new_with_data_base_addr t (hashmap_new cap) addr slot) mem t)
    as (r & t' & E & _ & Hr).
  - by exists addr, slot.
  - unfold LOGICAL_NODE_NUM, MAX_REPLICAS_PER_LOG. lia.
  - by eapply affinity_safe.
  - rewrite decide_True in Hr by done. destruct Hr as (nr & -> & Hinv & Hregs). rewrite E. mon.
    cbn [unwrap_nr]. mon. eexists _, _. split; [done|]. split.
    + unfold build in E. by ret_inv E.
    + exists [], []. by split_and!.
Qed.
End Sim.

(** ** Properties *)

(** C9: the replicated directory behind the C interface is one hash map.  On a
    machine where every node has an online CPU, [create_node_replicated_numa]
    returns a directory on which any program of registrations, writes and
    synchronised reads, called by any threads with their own handles and
    affinities, returns the values that the same calls return on one map, return
    codes included; no call hangs or panics unless the map operation itself
    panics. *)
Theorem directory_refines f online cpuset_count sched_setaffinity topo esize mem cap addr slot t p s' vs :
  machine_ok cpuset_count sched_setaffinity topo online -> online (th_cpu t) ->
  LOGICAL_NODE_NUM + 3 <= mem -> Forall (fun x => online (th_cpu x.1.1)) p ->
  run_spec (mkDir ∅ (replicate LOGICAL_NODE_NUM 1)) p = Ret (s', vs) ->
  exists w t' w', create_node_replicated_numa cpuset_count sched_setaffinity topo esize mem cap
      LOGICAL_NODE_NUM addr slot NUMA_MEM (NUM_EXEC + 1) t = Ret (w, t')
    /\ run_ffi f w p = Ret (w', vs).
Proof.
  intros Hm Hon Hmem Hp E.
  destruct (create_run f online _ _ _ Hm esize mem cap addr slot t Hmem Hon) as (w & t' & Ec & Hsim).
  destruct (run_ffi_sim f online _ _ _ Hm p w _ s' vs Hsim Hp E) as (w' & Er & _).
  by exists w, t', w'.
Qed.

(** A machine with four nodes of one CPU each. *)
Definition four_nodes : MachineTopology :=
  mkTopo (map (fun i => mkCpu (Some (mkNode i 1024)) i i i i i i) [0; 1; 2; 3]%N).
Definition four_sched : list N -> Thread -> option Thread := sched_below 4.

Lemma four_nodes_ok : machine_ok 1024 four_sched four_nodes (fun c => (c < 4)%N).
Proof.
  split.
  - apply sched_below_call.
  - intros c Hc. lia.
  - intros c Hc. repeat (apply elem_of_cons in Hc as [->|Hc]; [cbn; lia|]).
    by apply elem_of_nil in Hc.
  - intros [|[|[|[|n]]]] Hn; [eexists; apply list_elem_of_here..|]. unfold LOGICAL_NODE_NUM in Hn. lia.
Qed.

(** Two threads, on CPUs 1 and 2: a block is inserted, copied, invalidated and
    read back by the other thread. *)
Definition example_prog : prog :=
  let t1 := mkThread [1; 2; 3]%N 1 in let t2 := mkThread [2]%N 2 in
  let m1 := mkMeta (mkToken 0 1) in let m2 := mkMeta (mkToken 1 1) in
  [(t1, m1, FRegister 0); (t2, m2, FRegister 1);
   (t1, m1, FCheckPutArray key1 7 0 (-1)); (t2, m2, FCheckPutArray key1 3 2 (-1));
   (t1, m1, FInvalidateExceptArrayUpdateWmeta key1 0 6); (t2, m2, FGet key1)].

Lemma directory_refines_witness :
  exists w t' w', create_node_replicated_numa 1024 four_sched four_nodes 192 8 100 3 4096 64 0 4
      (mkThread [3]%N 3) = Ret (w, t')
    /\ run_ffi Scr w example_prog
       = Ret (w', [VMeta (mkMeta (mkToken 0 1)); VMeta (mkMeta (mkToken 1 1)); VInt 0; VInt 0; VInt 0;
                   VEntry (mkGCD 6 [mkCN 7 false; null_CNStatus; mkCN 3 true; null_CNStatus])]).
Proof.
  apply (directory_refines Scr (fun c => (c < 4)%N) 1024 four_sched four_nodes 192 8 100 4096 64
    (mkThread [3]%N 3) example_prog
    (mkDir {[ bkey key1 := mkGCD 6 [mkCN 7 false; null_CNStatus; mkCN 3 true; null_CNStatus] ]} [2; 2; 1])).
  - apply four_nodes_ok.
  - cbn. lia.
  - unfold LOGICAL_NODE_NUM. lia.
  - repeat constructor; cbn; lia.
  - vm_compute. reflexivity.
Defined.

(** While a thread works for another replica it runs on a CPU of that
    replica's node, never of the memory node, which only the allocation of the
    log uses.  Afterwards it is back on the CPU it came from, but may run on no
    other one, whatever its affinity was before. *)
Theorem affinity_revert_pins cpuset_count sched_setaffinity topo online t rid :
  machine_ok cpuset_count sched_setaffinity topo online -> online (th_cpu t) ->
  exists t1 tkn t2 n,
    aff_switch (mkAff (linux_chg_affinity_numa cpuset_count sched_setaffinity topo)) t rid = Ret (t1, tkn)
    /\ th_cpu t1 ∈ cpu <$> cpus_on_node topo (N.of_nat n)
    /\ (n = NUMA_MEM <-> rid = usize_max)
    /\ aff_drop (mkAff (linux_chg_affinity_numa cpuset_count sched_setaffinity topo)) t1 tkn = Ret t2
    /\ (forall c, c ∈ th_mask t2 <-> c = th_cpu t).
Proof.
  intros Hm Hon. destruct (affinity_round _ _ _ online t rid Hm Hon)
    as (t1 & tkn & t2 & n & E1 & Hin & Hn & E2 & Hmask & _).
  exists t1, tkn, t2, n. by split_and!.
Qed.

Lemma affinity_revert_pins_witness :
  exists t1 tkn t2,
    aff_switch (mkAff (linux_chg_affinity_numa 1024 four_sched four_nodes)) (mkThread [1; 2; 3]%N 1) 1
    = Ret (t1, tkn)
    /\ aff_drop (mkAff (linux_chg_affinity_numa 1024 four_sched four_nodes)) t1 tkn = Ret t2
    /\ 2%N ∉ th_mask t2.
Proof.
  destruct (affinity_revert_pins 1024 four_sched four_nodes (fun c => (c < 4)%N)
    (mkThread [1; 2; 3]%N 1) 1 four_nodes_ok) as (t1 & tkn & t2 & n & E1 & _ & _ & E2 & Hmask).
  - cbn. lia.
  - exists t1, tkn, t2. split; [exact E1|]. split; [exact E2|]. intros H%Hmask. discriminate H.
Defined.

(** ** Return codes *)

Lemma block_eqb_spec a b : block_eqb a b = true <-> bkey a = bkey b.
Proof.
  unfold block_eqb, bkey. rewrite andb_true_iff, N.eqb_eq, Z.eqb_eq. split.
  - by intros [-> ->].
  - by intros [= -> ->].
Qed.

Lemma block_eqb_null key : bkey key <> bkey null_BlockId -> block_eqb key null_BlockId = false.
Proof. intros H. apply not_true_iff_false. by rewrite block_eqb_spec. Qed.

(** The copy of a block at a position. *)
Definition copy_at (g : gmapD) (key : BlockId) (idx : nat) : option CNStatus :=
  e ← g !! bkey key; cn_array_ e !! idx.

(** C22: the code of [CheckPutArray] says what happened.  0: the position had no
    copy and now has the given one; 2: it had a copy, which stays, and only the
    write metadata was set; 1: it had a copy and nothing changed.  The code is 0
    if and only if there was no copy. *)
Theorem check_put_array_codes g key cn idx w g' r :
  gcd_wf g -> bkey key <> bkey null_BlockId -> cn <> (-1)%Z -> idx < NSLOTS ->
  gcd_modify g (CheckPutArrayWmeta key cn idx w) = Ret (g', r) ->
  let free := match copy_at g key idx with Some s => cn_idx_ s = (-1)%Z | None => True end in
  match check_put_code r with
  | 0 => free /\ copy_at g' key idx = Some (mkCN cn false)
  | 2 => ~ free /\ copy_at g' key idx = copy_at g key idx /\ idx = NUMA_MEM
         /\ (exists e', g' !! bkey key = Some e' /\ wmeta_idx_ e' = w)
  | _ => ~ free /\ g' = g
  end.
Proof.
  intros Hwf Hkey Hcn Hidx H. cbn zeta. unfold copy_at. cbn [gcd_modify] in H.
  unfold check_put_array_wmeta in H.
  destruct (g !! bkey key) as [e|] eqn:E; cbn [mbind option_bind].
  - pose proof (Hwf _ _ E) as [Hsh _]. destruct (shape_lookup e idx Hsh Hidx) as (s & Es & _).
    rewrite (vget_lookup _ _ _ Es) in H. cbn [mbind res_bind] in H.
    rewrite put_slot_run in H by done. rewrite Es. cbn [mbind res_bind] in H. pose proof (es_len _ Hsh) as Hl.
    destruct (Z.eqb_spec (cn_idx_ s) (-1)) as [Ez|Ez].
    + ret_inv H; cbn [check_put_code some_resp r_key]; rewrite block_eqb_null by done; (split; [done|]);
        rewrite lookup_insert_eq; cbn [mbind option_bind];
        destruct (idx =? NUMA_MEM); cbn; apply list_lookup_insert_eq; by rewrite Hl.
    + destruct (Nat.eqb_spec idx NUMA_MEM) as [->|Hi]; [|injection H as <- <-; by rewrite E].
      ret_inv H; cbn [check_put_code some_resp r_key]; rewrite ?lookup_insert_eq;
        try (split_and!; [done|done|done|by eexists]); done.
  - injection H as <- <-. cbn [check_put_code some_resp r_key]. rewrite block_eqb_null by done.
    split; [done|]. rewrite lookup_insert_eq. cbn [mbind option_bind].
    assert (Hi : cn_array_ (init_gcd_entry cn idx) !! idx = Some (mkCN cn false)).
    { unfold init_gcd_entry. destruct (Nat.ltb_spec idx (LOGICAL_NODE_NUM + 1)); [|unfold NSLOTS in *; lia].
      apply list_lookup_insert_eq. done. }
    by destruct (idx =? NUMA_MEM).
Qed.

Lemma check_put_array_codes_witness :
  exists g' r, gcd_modify example_map (CheckPutArrayWmeta key1 5 0 9) = Ret (g', r)
    /\ check_put_code r = 2 /\ copy_at g' key1 0 = Some (mkCN 7 false).
Proof.
  destruct (gcd_modify example_map (CheckPutArrayWmeta key1 5 0 9)) as [[g' r]| |] eqn:E;
    [|vm_compute in E; discriminate E|vm_compute in E; discriminate E].
  pose proof (check_put_array_codes example_map key1 5 0 9 g' r example_map_wf) as H.
  specialize (H ltac:(discriminate) ltac:(discriminate) ltac:(unfold NSLOTS; lia) E).
  vm_compute in E. injection E as <- <-. eexists _, _. split; [reflexivity|]. split; [reflexivity|].
  destruct H as (_ & H & _). exact H.
Defined.

(** The code of [DeleteIfArray] says what happened.  0: the copy is gone, and
    the entry with it if it was the last one; 1: the block is shared for writing
    and its shared copy stays; 2: the block is not in the directory; 3: it has no
    copy at the position.  Only code 0 changes the directory. *)
Theorem delete_if_array_codes g key idx g' r :
  gcd_wf g -> bkey key <> bkey null_BlockId -> idx < NSLOTS ->
  gcd_modify g (DeleteIfArray key idx) = Ret (g', r) ->
  match delete_if_code r with
  | 0 => (exists s, copy_at g key idx = Some s /\ cn_idx_ s <> (-1)%Z)
         /\ match g' !! bkey key with
            | None => forall i s, i <> idx -> copy_at g key i = Some s -> cn_idx_ s = (-1)%Z
            | Some e' => cn_array_ e' !! idx = Some null_CNStatus
            end
  | 1 => g' = g /\ idx = NUMA_MEM /\ exists e, g !! bkey key = Some e /\ wmeta_idx_ e <> (-1)%Z
  | 2 => g' = g /\ g !! bkey key = None
  | _ => g' = g /\ copy_at g key idx = Some null_CNStatus
  end.
Proof.
  intros Hwf Hkey Hidx H. unfold copy_at. cbn [gcd_modify] in H. unfold delete_if_array in H.
  destruct (g !! bkey key) as [e|] eqn:E; cbn [mbind option_bind]; [|by injection H as <- <-].
  pose proof (Hwf _ _ E) as [Hsh _]. destruct (shape_lookup e idx Hsh Hidx) as (s & Es & Hs).
  rewrite (vget_lookup _ _ _ Es) in H. cbn [mbind res_bind] in H.
  rewrite put_slot_run in H by done. rewrite Es. cbn [mbind res_bind] in H.
  set (e' := set_cn e (<[idx := null_CNStatus]> (cn_array_ e))) in *.
  assert (Hgone : s <> null_CNStatus -> (exists s0, Some s = Some s0 /\ cn_idx_ s0 <> (-1)%Z)
    /\ match store_or_remove g key e' !! bkey key with
       | None => forall i x, i <> idx -> cn_array_ e !! i = Some x -> cn_idx_ x = (-1)%Z
       | Some e' => cn_array_ e' !! idx = Some null_CNStatus
       end).
  { intros Hne. split; [exists s; split; [done|]; intros Hz; by apply Hne, slot_null|].
    unfold store_or_remove. destruct (all_null e') eqn:En.
    - rewrite lookup_delete_eq. intros i x Hi Hx. apply Z.eqb_eq.
      unfold all_null in En. rewrite List.forallb_forall in En. apply En.
      apply list_elem_of_In, list_elem_of_lookup. exists i. cbn. by rewrite list_lookup_insert_ne.
    - rewrite lookup_insert_eq. cbn. apply list_lookup_insert_eq. by rewrite (es_len _ Hsh). }
  assert (Hcode : forall x, delete_if_code (some_resp key x) = 0).
  { intros x. cbn [delete_if_code some_resp r_key]. by rewrite block_eqb_null. }
  destruct (Nat.eqb_spec idx NUMA_MEM) as [->|Hi].
  - destruct (Z.eqb_spec (wmeta_idx_ e) (-1)) as [Hw|Hw]; cbn [negb] in H.
    2: { injection H as <- <-. split_and!; [done|done|]. by exists e. }
    destruct (decide (s = null_CNStatus)) as [->|Hne]; injection H as <- <-; [done|].
    rewrite Hcode. by apply Hgone.
  - destruct (decide (s = null_CNStatus)) as [->|Hne]; [by injection H as <- <-|].
    ret_inv H. rewrite Hcode. by apply Hgone.
Qed.

Lemma delete_if_array_codes_witness :
  exists g' r, gcd_modify example_map (DeleteIfArray key1 2) = Ret (g', r)
    /\ delete_if_code r = 0 /\ exists s, copy_at example_map key1 2 = Some s /\ cn_idx_ s <> (-1)%Z.
Proof.
  destruct (gcd_modify example_map (DeleteIfArray key1 2)) as [[g' r]| |] eqn:E;
    [|vm_compute in E; discriminate E|vm_compute in E; discriminate E].
  pose proof (delete_if_array_codes example_map key1 2 g' r example_map_wf) as H.
  specialize (H ltac:(discriminate) ltac:(unfold NSLOTS, LOGICAL_NODE_NUM; lia) E).
  vm_compute in E. injection E as <- <-. eexists _, _. split; [reflexivity|]. split; [reflexivity|].
  exact (proj1 H).
Defined.

(** The C function [CheckSwapArray] hands the two positions to the operation in
    exchanged order: the copy of the removed block stays at the old position (the
    new one is cleared instead), and the inserted block is entered at the old
    position of the removed one. *)
Theorem check_swap_array_exchanges s k1 k2 e x cn new_idx old_idx s' v :
  ds_map s !! bkey k1 = Some e -> entry_wf e -> new_idx <> old_idx -> new_idx < NSLOTS ->
  cn_array_ e !! old_idx = Some x -> cn_idx_ x <> (-1)%Z ->
  bkey k1 <> bkey k2 -> ds_map s !! bkey k2 = None ->
  spec_ffi s (FCheckSwapArray k1 k2 cn new_idx old_idx) = Ret (s', v) ->
  copy_at (ds_map s') k1 old_idx = Some x /\ copy_at (ds_map s') k1 new_idx = Some null_CNStatus
  /\ ds_map s' !! bkey k2 = Some (init_gcd_entry cn old_idx).
Proof.
  intros E1 [Hsh _] Hne Hn Hx Hxv Hk E2 H. cbn [spec_ffi] in H. unfold spec_write in H.
  cbn [gcd_modify] in H. rewrite E1, put_slot_run in H by done. cbn [mbind res_bind] in H.
  set (e' := set_cn e (<[new_idx := null_CNStatus]> (cn_array_ e))) in *.
  assert (Hold : cn_array_ e' !! old_idx = Some x) by (cbn; by rewrite list_lookup_insert_ne).
  assert (Hst : store_or_remove (ds_map s) k1 e' = <[bkey k1 := e']> (ds_map s)).
  { unfold store_or_remove. replace (all_null e') with false; [done|]. symmetry.
    apply all_null_false. eauto. }
  rewrite Hst in H. unfold check_put_array in H. rewrite lookup_insert_ne, E2 in H by done.
  injection H as <- <-. cbn [ds_map]. unfold copy_at.
  rewrite lookup_insert_ne, lookup_insert_eq by done. cbn [mbind option_bind].
  split_and!; [done| |by rewrite lookup_insert_eq].
  cbn. apply list_lookup_insert_eq. by rewrite (es_len _ Hsh).
Qed.

Lemma check_swap_array_exchanges_witness :
  exists s' v, spec_ffi (mkDir example_map [2; 1; 1]) (FCheckSwapArray key1 key2 5 1 2) = Ret (s', v)
    /\ copy_at (ds_map s') key1 2 = Some (mkCN 3 false).
Proof.
  destruct (spec_ffi (mkDir example_map [2; 1; 1]) (FCheckSwapArray key1 key2 5 1 2)) as [[s' v]| |] eqn:E;
    [|vm_compute in E; discriminate E|vm_compute in E; discriminate E].
  exists s', v. split; [reflexivity|].
  apply (check_swap_array_exchanges (mkDir example_map [2; 1; 1]) key1 key2
    (mkGCD (-1) [mkCN 7 false; null_CNStatus; mkCN 3 false; null_CNStatus]) (mkCN 3 false) 5 1 2 s' v);
    try reflexivity; try discriminate; try exact E.
  - exact (example_map_wf (bkey key1) _ eq_refl).
  - unfold NSLOTS, LOGICAL_NODE_NUM. lia.
Defined.

(** What the replicas learn from a removal, to write the data back and notify:
    the operations on one copy report the slot of that copy, but removing the
    whole entry of a block reports no slot at all, even when the block had a copy
    in the shared memory. *)
Theorem removal_reports g key e o g' r :
  g !! bkey key = Some e -> entry_wf e -> gcd_modify g o = Ret (g', r) ->
  match o with
  | Delete k => k = key -> opt_cn_idx r = (-1)%Z /\ g' !! bkey key = None
  | DeleteArray k idx =>
      k = key -> exists s, cn_array_ e !! idx = Some s /\ opt_cn_idx r = cn_idx_ s
  | CheckMoveLocalArray k _ _ =>
      k = key -> match r with Some _ => opt_cn_idx r = slot0 e | None => g' = g end
  | _ => True
  end.
Proof.
  intros E [Hsh _] H. destruct o; try done; intros ->; cbn [gcd_modify] in H.
  - rewrite E in H. injection H as <- <-. split; [done|]. by rewrite lookup_delete_eq.
  - unfold check_move_local_array in H. rewrite E in H. run_inv H; [|done].
    rename select (_ !! 0 = Some _) into H0. cbn [cn_array_ set_wmeta set_cn] in H0.
    rewrite list_lookup_insert_ne in H0 by (bool_to_prop; done).
    unfold slot0. cbn. by destruct (cn_array_ e) as [|s0 ss]; [|injection H0 as ->].
  - rewrite E in H. run_inv H. eexists. split; [eassumption|]. done.
Qed.

Lemma removal_reports_witness :
  exists g' r, gcd_modify example_map (Delete key1) = Ret (g', r) /\ opt_cn_idx r = (-1)%Z
    /\ slot0 (mkGCD (-1) [mkCN 7 false; null_CNStatus; mkCN 3 false; null_CNStatus]) = 7%Z.
Proof.
  destruct (gcd_modify example_map (Delete key1)) as [[g' r]| |] eqn:E;
    [|vm_compute in E; discriminate E|vm_compute in E; discriminate E].
  exists g', r. split; [reflexivity|].
  pose proof (removal_reports example_map key1 _ (Delete key1) g' r
    (eq_refl : example_map !! bkey key1
       = Some (mkGCD (-1) [mkCN 7 false; null_CNStatus; mkCN 3 false; null_CNStatus]))
    (example_map_wf (bkey key1) _ eq_refl) E) as H.
  split; [apply H|]; reflexivity.
Defined.
