(* ===== verification/Bench.v ===== *)
(** * The benchmark harness (bench_utils/src/mkbench.rs)

    How a benchmark places its threads: replicas per machine, socket, cache or thread,
    and the CPUs of each replica.  The lemmas: the CPUs are divided among the replicas
    without loss or overlap, and when the numbers of the replicas are those of the
    replicated object.  [debug_assert_eq!] is off in the release build that benchmarks
    run in and is not modelled. *)

From Stdlib Require Import Sorting.Permutation Sorting.Sorted.
From stdpp Require Import gmap pretty.
From S2P Require Import Prelude Topology.

(** ** Operations and strategies *)

(** [Operation]. *)
Inductive Operation (RO WO : Type) :=
| ReadOperation (o : RO)
| WriteOperation (o : WO).
Arguments ReadOperation {RO WO} _.
Arguments WriteOperation {RO WO} _.

(** [ReplicaStrategy] and [LogStrategy], with their [Display] and [Debug] forms. *)
Module RS.
Inductive ReplicaStrategy := One | L1 | L2 | L3 | Socket | PerThread | NUMA.
End RS.
Module LS.
Inductive LogStrategy := One | PerThread | Custom (v : N).
End LS.

Definition rs_display (rs : RS.ReplicaStrategy) : string :=
  match rs with
  | RS.One => "System" | RS.L1 => "L1" | RS.L2 => "L2" | RS.L3 => "L3"
  | RS.Socket => "Socket" | RS.PerThread => "PerThread" | RS.NUMA => "NUMA"
  end.
Definition rs_debug (rs : RS.ReplicaStrategy) : string := "RS=" +:+ rs_display rs.
Definition ls_display (ls : LS.LogStrategy) : string :=
  match ls with
  | LS.One => "System" | LS.PerThread => "PerThread" | LS.Custom v => "Custom(" +:+ pretty v +:+ ")"
  end.
Definition ls_debug (ls : LS.LogStrategy) : string := "LS=" +:+ ls_display ls.

(** ** Threads and replicas *)

Abbreviation rmap := (gmap N (list N)).

(** The different values of [key], in increasing order. *)
Definition keys (key : CpuInfo -> N) (cpus : list CpuInfo) : list N :=
  dedup_by N.eqb (sort_by N.leb (map key cpus)).
Definition with_key (key : CpuInfo -> N) (cpus : list CpuInfo) (s : N) : list N :=
  map cpu (List.filter (fun c => (key c =? s)%N) cpus).

(** One replica for each value of [key], numbered by [rid]. *)
Definition group (rid : N -> res N) (key : CpuInfo -> N) (cpus : list CpuInfo) : res rmap :=
  foldM (fun (rm : rmap) s => r ← rid s; Ret (<[r := with_key key cpus s]> rm)) ∅ (keys key cpus).

(** Numbers for the caches in the order in which they occur. *)
Definition number_caches (cpus : list CpuInfo) : gmap N N * N :=
  foldl (fun '(mapping, rid) c =>
    match mapping !! l1 c with
    | None => (<[l1 c := rid]> mapping, (rid + 1)%N)
    | Some _ => (mapping, rid)
    end) (∅ : gmap N N, 0%N) cpus.

Definition replica_core_allocation (interleave : list CpuInfo -> list CpuInfo -> list CpuInfo)
    (topology : MachineTopology) (rs : RS.ReplicaStrategy) (tm : ThreadMapping) (ts : nat) : res rmap :=
  let cpus := allocate interleave topology tm ts true in
  match rs with
  | RS.One => Ret {[ 0%N := map cpu cpus ]}
  | RS.Socket => group Ret socket cpus
  | RS.NUMA =>
      let mid := length cpus / 2 in
      Ret (<[1%N := map cpu (drop mid cpus)]> {[ 0%N := map cpu (take mid cpus) ]})
  | RS.L1 =>
      match tm with
      | TMNone => Ret ∅
      | Sequential => group Ret l1 cpus
      | Interleave => group (fun s => unwrap ((number_caches cpus).1 !! s)) l1 cpus
      | NUMA => Ret ∅
      end
  | RS.L2 => group Ret l2 cpus
  | RS.L3 => group Ret l3 cpus
  | RS.PerThread =>
      Ret (foldl (fun (rm : rmap) '(idx, c) => <[idx := [cpu c]]> rm) ∅ (imap (fun i c => (N.of_nat i, c)) cpus))
  end.

(** [threads] and [replicas]. *)
Definition rm_threads (rm : rmap) : nat := foldr Nat.add 0 (map (fun v => length v.2) (map_to_list rm)).
Definition rm_replicas (rm : rmap) : nat := size rm.

(** ** The division of the CPUs *)

(** All CPUs that have a replica. *)
Definition rm_cpus (rm : rmap) : list N := concat (map snd (map_to_list rm)).

(** Entering pairs with different keys one after the other. *)
Lemma foldM_insert {A} (f : A -> N) (g : A -> list N) (rid : A -> res N) (xs : list A) (rm : rmap) :
  (forall x, x ∈ xs -> rid x = Ret (f x)) -> NoDup (map f xs) -> (forall x, x ∈ xs -> rm !! f x = None) ->
  exists rm', foldM (fun (m : rmap) x => r ← rid x; Ret (<[r := g x]> m)) rm xs = Ret rm'
    /\ map_to_list rm' ≡ₚ map_to_list rm ++ map (fun x => (f x, g x)) xs.
Proof.
  revert rm. induction xs as [|x xs IH]; intros rm Hf Hn Hr; cbn.
  - exists rm. by rewrite app_nil_r.
  - rewrite (Hf x) by (by left). cbn. cbn in Hn. apply list.NoDup_cons in Hn as [Hx Hn].
    destruct (IH (<[f x := g x]> rm)) as (rm' & E & Hp); [intros y Hy; apply Hf; by right|done| |].
    { intros y Hy. rewrite lookup_insert_ne; [apply Hr; by right|]. intros E. apply Hx. rewrite E. by apply list_elem_of_fmap_2. }
    exists rm'. split; [done|]. rewrite Hp, map_to_list_insert by (apply Hr; by left). cbn. by rewrite Permutation_middle.
Qed.

Lemma keys_spec key cpus : NoDup (keys key cpus) /\ (forall s, s ∈ keys key cpus <-> exists c, c ∈ cpus /\ key c = s).
Proof.
  destruct (sort_dedup (map key cpus)) as [Hs Hin]. split.
  - unfold keys. clear Hin. induction Hs as [|x xs Hs IH Hx]; [constructor|]. apply list.NoDup_cons. split; [|done].
    intros Hin. rewrite list.Forall_forall in Hx. specialize (Hx x Hin). lia.
  - intros s. unfold keys. rewrite Hin, list_elem_of_fmap. naive_solver.
Qed.

(** Grouping loses nothing. *)
Lemma with_key_perm key cpus ks : NoDup ks -> (forall c, c ∈ cpus -> key c ∈ ks) ->
  concat (map (with_key key cpus) ks) ≡ₚ map cpu cpus.
Proof.
  intros Hn. induction cpus as [|c cpus IH]; intros Hin.
  - clear. induction ks as [|k ks IH]; [done|]. cbn. done.
  - specialize (IH (fun c' H => Hin c' (list_elem_of_further _ _ _ H))). cbn [map]. rewrite <- IH.
    assert (Hc : key c ∈ ks) by (apply Hin; by left). clear IH Hin. revert Hn Hc.
    induction ks as [|k ks IHk]; intros Hn Hc; [by apply not_elem_of_nil in Hc|].
    apply list.NoDup_cons in Hn as [Hk Hn]. cbn [map concat]. unfold with_key at 1. cbn [List.filter].
    destruct (N.eqb_spec (key c) k) as [<-|Hne].
    + cbn [map app]. constructor. apply Permutation_app_head. erewrite (map_ext_in _ (with_key key cpus)); [done|]. intros k' Hk'.
      unfold with_key. cbn [List.filter]. destruct (N.eqb_spec (key c) k') as [<-|]; [|done]. by apply list_elem_of_In in Hk'.
    + apply elem_of_cons in Hc as [?|Hc]; [done|]. rewrite (IHk Hn Hc). by rewrite Permutation_middle.
Qed.

Lemma group_partition rid f key cpus : (forall s, s ∈ keys key cpus -> rid s = Ret (f s)) ->
  (forall s s', s ∈ keys key cpus -> s' ∈ keys key cpus -> f s = f s' -> s = s') ->
  exists rm, group rid key cpus = Ret rm /\ map_to_list rm ≡ₚ map (fun s => (f s, with_key key cpus s)) (keys key cpus)
    /\ rm_cpus rm ≡ₚ map cpu cpus.
Proof.
  intros Hf Hinj. destruct (keys_spec key cpus) as [Hn Hin].
  destruct (foldM_insert f (with_key key cpus) rid (keys key cpus) ∅) as (rm & E & Hp); [done| |done|].
  { apply NoDup_fmap_2_strong; [|done]. auto. }
  exists rm. rewrite map_to_list_empty in Hp. split_and!; [exact E|exact Hp|].
  unfold rm_cpus. rewrite Hp. cbn [app]. rewrite map_map. apply (with_key_perm key); [done|]. intros c Hc. apply Hin. by exists c.
Qed.

(** The numbers of the caches: every cache of the CPUs has one, no two the same, and
    they are the numbers below their count. *)
Lemma number_caches_spec cpus : let '(m, n) := number_caches cpus in
  (forall s, is_Some (m !! s) <-> exists c, c ∈ cpus /\ l1 c = s)
  /\ (forall s s' r, m !! s = Some r -> m !! s' = Some r -> s = s')
  /\ (forall r, (r < n)%N <-> exists s, m !! s = Some r).
Proof.
  unfold number_caches. induction cpus as [|c cpus IH] using rev_ind; cbn.
  - split_and!; [|done|].
    + intros s. rewrite lookup_empty. split; [by intros [? ?]|]. intros (c & Hc & _). by apply not_elem_of_nil in Hc.
    + intros r. split; [lia|]. by intros [s ?].
  - rewrite foldl_app. cbn. destruct (foldl _ _ cpus) as [m n]. destruct IH as (H1 & H2 & H3).
    assert (Hmem : forall s, (exists c', c' ∈ cpus ++ [c] /\ l1 c' = s) <-> (exists c', c' ∈ cpus /\ l1 c' = s) \/ l1 c = s) by set_solver.
    destruct (m !! l1 c) as [r0|] eqn:E.
    + split_and!; [|done|done]. intros s. rewrite Hmem, <- H1. split; [by left|]. intros [?|<-]; [done|by rewrite E].
    + assert (Hfresh : forall s, m !! s <> Some n) by (intros s Hs; assert (n < n)%N by (apply H3; by exists s); lia).
      split_and!.
      * intros s. rewrite Hmem, <- H1. destruct (decide (s = l1 c)) as [->|Hne].
        { rewrite lookup_insert_eq. split; [by right|by eexists]. }
        rewrite lookup_insert_ne by done. split; [by left|]. intros [?|?]; [done|congruence].
      * intros s s' r. rewrite !lookup_insert_Some. intros [[<- <-]|[? Hs]] [[<- ?]|[? Hs']]; subst; try done.
        -- by destruct (Hfresh s').
        -- by destruct (Hfresh s).
        -- by eapply H2.
      * intros r. split.
        { intros Hr. destruct (decide (r = n)) as [->|Hne]; [exists (l1 c); by rewrite lookup_insert_eq|].
          destruct (proj1 (H3 r)) as [s Hs]; [lia|]. exists s. rewrite lookup_insert_ne; [done|congruence]. }
        { intros [s [[_ <-]|[_ Hs]]%lookup_insert_Some]; [lia|]. assert (r < n)%N by (apply H3; by exists s). lia. }
Qed.

Definition cache_number (cpus : list CpuInfo) (s : N) : N := default 0%N ((number_caches cpus).1 !! s).

Lemma cache_number_spec cpus :
  (forall s, s ∈ keys l1 cpus -> unwrap ((number_caches cpus).1 !! s) = Ret (cache_number cpus s))
  /\ (forall s s', s ∈ keys l1 cpus -> s' ∈ keys l1 cpus -> cache_number cpus s = cache_number cpus s' -> s = s')
  /\ (forall s, s ∈ keys l1 cpus -> (cache_number cpus s < (number_caches cpus).2)%N)
  /\ (forall r, (r < (number_caches cpus).2)%N -> exists s, s ∈ keys l1 cpus /\ cache_number cpus s = r).
Proof.
  pose proof (number_caches_spec cpus) as H. unfold cache_number. destruct (number_caches cpus) as [m n]. cbn. destruct H as (H1 & H2 & H3).
  assert (Hk : forall s, s ∈ keys l1 cpus -> exists r, m !! s = Some r) by (intros s Hs; apply H1; by apply (keys_spec l1 cpus)).
  split_and!.
  - intros s Hs. destruct (Hk s Hs) as [r E]. by rewrite E.
  - intros s s' Hs Hs'. destruct (Hk s Hs) as [r E], (Hk s' Hs') as [r' E']. rewrite E, E'. cbn. intros <-. by eapply H2.
  - intros s Hs. destruct (Hk s Hs) as [r E]. rewrite E. cbn. apply H3. by exists s.
  - intros r Hr. apply H3 in Hr as [s Hs]. exists s. rewrite Hs. split; [|done]. apply (keys_spec l1 cpus), H1. by rewrite Hs.
Qed.

(** One replica for each thread. *)
Lemma per_thread_spec (cpus : list CpuInfo) (k : nat) (rm : rmap) : (forall i, (N.of_nat k <= i)%N -> rm !! i = None) ->
  map_to_list (foldl (fun (rm : rmap) '(idx, c) => <[idx := [cpu c]]> rm) rm (imap (fun i c => (N.of_nat (k + i), c)) cpus))
  ≡ₚ map_to_list rm ++ imap (fun i c => (N.of_nat (k + i), [cpu c])) cpus.
Proof.
  revert k rm. induction cpus as [|c cpus IH]; intros k rm Hk; cbn; [by rewrite app_nil_r|].
  rewrite Nat.add_0_r. rewrite (imap_ext _ (fun i c => (N.of_nat (S k + i), c))) by (intros i x _; unfold compose; by replace (k + S i) with (S k + i) by lia).
  rewrite (imap_ext (_ ∘ S) (fun i c => (N.of_nat (S k + i), [cpu c]))) by (intros i x _; unfold compose; by replace (k + S i) with (S k + i) by lia).
  rewrite IH; [|intros i Hi; rewrite lookup_insert_ne; [apply Hk; lia|lia]].
  rewrite map_to_list_insert by (apply Hk; lia). cbn [app]. apply Permutation_middle.
Qed.

(** ** Allocation *)

Section Allocation.
Context (interleave : list CpuInfo -> list CpuInfo -> list CpuInfo) (topo : MachineTopology).
Implicit Types (rm : rmap) (rs : RS.ReplicaStrategy) (tm : ThreadMapping) (ts : nat).
Abbreviation cpus tm ts := (allocate interleave topo tm ts true).
Abbreviation rca := (replica_core_allocation interleave topo).

(** The number of the CPU that becomes the number of its replica, where it does. *)
Definition strategy_key rs tm : option (CpuInfo -> N) :=
  match rs, tm with
  | RS.Socket, _ => Some socket
  | RS.L1, Sequential => Some l1
  | RS.L2, _ => Some l2
  | RS.L3, _ => Some l3
  | _, _ => None
  end.

Lemma group_ids key l : exists rm, group Ret key l = Ret rm /\ rm_cpus rm ≡ₚ map cpu l
  /\ (forall s, is_Some (rm !! s) <-> s ∈ keys key l) /\ size rm = length (keys key l).
Proof.
  destruct (group_partition Ret id key l) as (rm & E & Hp & Hc); [done|done|]. exists rm. split_and!; [done|done| |].
  - intros s. split.
    + intros [v Hv%elem_of_map_to_list]. rewrite Hp in Hv. apply list_elem_of_fmap in Hv as (s' & [= -> _] & ?). done.
    + intros Hs. exists (with_key key l s). apply elem_of_map_to_list. rewrite Hp. apply list_elem_of_fmap. by exists s.
  - rewrite <- (length_map_to_list rm), Hp. by rewrite length_map.
Qed.

(** A map whose keys are the numbers below [n] has [n] of them. *)
Lemma dense_size rm n : (forall r, is_Some (rm !! r) <-> (r < N.of_nat n)%N) -> size rm = n.
Proof.
  intros H. rewrite <- size_dom. transitivity (length (map N.of_nat (seq 0 n))); [|by rewrite length_map, length_seq].
  rewrite <- (size_list_to_set (C := gset N)); [|apply NoDup_fmap_2; [intros ? ? ?; lia|apply NoDup_ListNoDup, seq_NoDup]].
  f_equal. apply leibniz_equiv. intros r. rewrite elem_of_dom, H, elem_of_list_to_set, list_elem_of_fmap. split.
  - intros Hr. exists (N.to_nat r). rewrite elem_of_seq. lia.
  - intros (k & -> & Hk%elem_of_seq). lia.
Qed.

Lemma interleave_ids l : exists rm, group (fun s => unwrap ((number_caches l).1 !! s)) l1 l = Ret rm /\ rm_cpus rm ≡ₚ map cpu l
  /\ forall r, is_Some (rm !! r) <-> (r < N.of_nat (size rm))%N.
Proof.
  destruct (cache_number_spec l) as (H1 & H2 & H3 & H4). destruct (group_partition _ _ _ _ H1 H2) as (rm & E & Hp & Hc).
  exists rm. split_and!; [done|done|]. assert (Hd : forall r, is_Some (rm !! r) <-> (r < (number_caches l).2)%N).
  { intros r. split.
    - intros [v Hv%elem_of_map_to_list]. rewrite Hp in Hv. apply list_elem_of_fmap in Hv as (s & [= -> _] & ?). auto.
    - intros (s & Hs & <-)%H4. exists (with_key l1 l s). apply elem_of_map_to_list. rewrite Hp. apply list_elem_of_fmap. by exists s. }
  rewrite (dense_size rm (N.to_nat (number_caches l).2)); intros r; by rewrite N2Nat.id.
Qed.

Lemma imap_cpus (g : nat -> N) l : concat (map snd (imap (fun i c => (g i, [cpu c])) l)) ≡ₚ map cpu l.
Proof. revert g. induction l as [|c l IH]; intros g; [done|]. cbn. constructor. apply (IH (g ∘ S)). Qed.

Lemma per_thread_ids l : exists rm, Ret (foldl (fun (rm : rmap) '(idx, c) => <[idx := [cpu c]]> rm) ∅ (imap (fun i c => (N.of_nat i, c)) l)) = Ret rm
  /\ rm_cpus rm ≡ₚ map cpu l /\ forall r, is_Some (rm !! r) <-> (r < N.of_nat (size rm))%N.
Proof.
  eexists. split; [done|]. pose proof (per_thread_spec l 0 ∅ (fun i _ => lookup_empty i)) as Hp. rewrite map_to_list_empty in Hp. cbn [Nat.add app] in Hp.
  set (rm := foldl _ _ _) in *. split.
  - unfold rm_cpus. rewrite Hp. apply imap_cpus.
  - assert (Hd : forall r, is_Some (rm !! r) <-> (r < N.of_nat (length l))%N).
    { intros r. split.
      - intros [v Hv%elem_of_map_to_list]. rewrite Hp in Hv. apply elem_of_lookup_imap in Hv as (i & c & [= -> _] & Hi%lookup_lt_Some). lia.
      - intros Hr. destruct (lookup_lt_is_Some_2 l (N.to_nat r)) as [c Hc]; [lia|]. exists [cpu c]. apply elem_of_map_to_list. rewrite Hp.
        apply elem_of_lookup_imap. exists (N.to_nat r), c. split; [by rewrite N2Nat.id|done]. }
    by rewrite (dense_size rm (length l)).
Qed.

Lemma rm_threads_cpus rm : rm_threads rm = length (rm_cpus rm).
Proof.
  unfold rm_threads, rm_cpus. induction (map_to_list rm) as [|[r v] l IH]; [done|]. cbn. rewrite length_app. by rewrite IH.
Qed.

(** Every replica that has threads exists. *)
Definition registrable rm : Prop := forall r, is_Some (rm !! r) -> (r < N.of_nat (rm_replicas rm))%N.

Definition allocated rs tm (l : list CpuInfo) rm : Prop :=
  rm_cpus rm ≡ₚ map cpu l
  /\ (registrable rm <-> match strategy_key rs tm with
       | Some key => forall c, c ∈ l -> (key c < N.of_nat (length (keys key l)))%N
       | None => True
       end).

Lemma group_allocated rs tm key l : strategy_key rs tm = Some key -> exists rm, group Ret key l = Ret rm /\ allocated rs tm l rm.
Proof.
  intros Hk. destruct (group_ids key l) as (rm & E & Hc & Hin & Hs). exists rm. split; [done|]. split; [done|].
  rewrite Hk. unfold registrable, rm_replicas. rewrite Hs. destruct (keys_spec key l) as [_ Hks]. split.
  - intros H c Hl. apply H, Hin, Hks. by exists c.
  - intros H r (c & Hl & <-)%Hin%Hks. by apply H.
Qed.

Lemma dense_allocated rs tm l rm : strategy_key rs tm = None -> rm_cpus rm ≡ₚ map cpu l ->
  (forall r, is_Some (rm !! r) <-> (r < N.of_nat (size rm))%N) -> allocated rs tm l rm.
Proof. intros Hk Hc Hd. split; [done|]. rewrite Hk. split; [done|]. intros _ r Hr. by apply Hd. Qed.

Lemma one_allocated tm l : allocated RS.One tm l {[ 0%N := map cpu l ]}.
Proof.
  apply dense_allocated; [done| |].
  - unfold rm_cpus. rewrite map_to_list_singleton. cbn. by rewrite app_nil_r.
  - intros r. rewrite map_size_singleton, lookup_singleton_is_Some. lia.
Qed.

Lemma numa_allocated tm l : allocated RS.NUMA tm l
  (<[1%N := map cpu (drop (length l / 2) l)]> {[ 0%N := map cpu (take (length l / 2) l) ]}).
Proof.
  apply dense_allocated; [done| |].
  - unfold rm_cpus. rewrite map_to_list_insert, map_to_list_singleton by done. cbn. rewrite app_nil_r, Permutation_app_comm, <- map_app, take_drop. done.
  - intros r. rewrite map_size_insert_None, map_size_singleton by done. rewrite lookup_insert_is_Some', lookup_singleton_is_Some. lia.
Qed.

(** The harness divides the CPUs among the replicas.  Every CPU that [allocate] has
    chosen belongs to exactly one replica, so that as many threads are started as wait at
    the barrier; and every thread can register with its replica, because a replica with
    its number exists, exactly if the sockets or caches that number the replicas are
    numbered without gaps from 0 on, which the other strategies do not need. *)
Lemma allocation_divides rs tm ts :
  ~ (rs = RS.L1 /\ tm = NUMA) ->
  exists rm, rca rs tm ts = Ret rm /\ allocated rs tm (cpus tm ts) rm /\ rm_threads rm = length (cpus tm ts).
Proof.
  intros Hex. assert (H : exists rm, rca rs tm ts = Ret rm /\ allocated rs tm (cpus tm ts) rm).
  { unfold replica_core_allocation. destruct rs.
    - eexists. split; [done|apply one_allocated].
    - destruct tm; [..|by destruct Hex].
      + eexists. split; [done|]. apply dense_allocated; [done|done|]. intros r. rewrite map_size_empty, lookup_empty. split; [by intros [? ?]|lia].
      + by apply group_allocated.
      + destruct (interleave_ids (cpus Interleave ts)) as (rm & E & Hc & Hd). exists rm. split; [done|by apply dense_allocated].
    - by apply group_allocated.
    - by apply group_allocated.
    - by apply group_allocated.
    - destruct (per_thread_ids (cpus tm ts)) as (rm & E & Hc & Hd). exists rm. split; [done|by apply dense_allocated].
    - eexists. split; [done|apply numa_allocated]. }
  destruct H as (rm & E & Ha). exists rm. split_and!; [done|done|]. rewrite rm_threads_cpus. destruct Ha as [-> _]. by rewrite length_map.
Qed.
End Allocation.

(** ** Registration *)

(** How often [k] occurs. *)
Definition occ (ks : list nat) (k : nat) : nat := count_occ Nat.eq_dec ks k.

Lemma occ_cons k' ks k : occ (k' :: ks) k = (if decide (k' = k) then 1 else 0) + occ ks k.
Proof. unfold occ. cbn. by destruct (Nat.eq_dec k' k), (decide (k' = k)). Qed.

Lemma occ_perm ks ks' k : ks ≡ₚ ks' -> occ ks k = occ ks' k.
Proof. intros Hp. by apply (Permutation_count_occ Nat.eq_dec). Qed.

Lemma occ_map (g : nat -> nat) ks k : (forall k', k' ∈ ks -> g k' = g k -> k' = k) -> occ (map g ks) (g k) = occ ks k.
Proof.
  induction ks as [|k' ks IH]; intros Hg; [done|]. cbn [map]. rewrite !occ_cons, IH by (intros; apply Hg; [by right|done]). f_equal.
  destruct (decide (g k' = g k)) as [E|Hne]; [|by rewrite decide_False by congruence]. rewrite decide_True; [done|]. apply Hg; [by left|done].
Qed.

(** The replicas of the threads, one replica after the other. *)
Definition thread_rids (l : list (N * list N)) : list nat := concat (map (fun '(r, cores) => replicate (length cores) (N.to_nat r)) l).

Lemma occ_rids n k l : NoDup (map fst l) -> Forall (fun p => length p.2 <= n) l -> occ (thread_rids l) k <= n.
Proof.
  assert (Hrep : forall m r, occ (replicate m r) k = if decide (r = k) then m else 0).
  { intros m r. induction m as [|m IH]; cbn [replicate]; [by destruct (decide _)|]. rewrite occ_cons, IH. by destruct (decide _). }
  assert (H0 : forall l, N.of_nat k ∉ map fst l -> occ (thread_rids l) k = 0).
  { clear -Hrep. induction l as [|[r cores] l IH]; intros Hn; [done|]. cbn in Hn. apply not_elem_of_cons in Hn as [Hr Hn].
    unfold thread_rids, occ in *. cbn. rewrite count_occ_app, Hrep, IH by done. rewrite decide_False by lia. done. }
  intros Hn Hf. induction Hf as [|[r cores] l Hlen _ IH]; [unfold occ, thread_rids; cbn; lia|]. cbn in Hn, Hlen.
  apply list.NoDup_cons in Hn as [Hr Hn]. unfold thread_rids, occ in *. cbn. rewrite count_occ_app, Hrep.
  destruct (decide (N.to_nat r = k)) as [<-|]; [|by apply IH]. rewrite N2Nat.id in H0. rewrite H0 by done. lia.
Qed.

Lemma foldM_map {S X Y} (f : S -> Y -> res S) (g : X -> Y) s xs : foldM (fun s x => f s (g x)) s xs = foldM f s (map g xs).
Proof. revert s. induction xs as [|x xs IH]; intros s; [done|]. cbn. destruct (f s (g x)); cbn; auto. Qed.

(** Threads that register one after the other: [register s k] gives the next slot [n] of
    the replica [k] as [tok k n], as long as there is one. *)
Section Registration.
Context {S T : Type} (register : S -> nat -> res (T * S)) (regs : S -> list nat -> Prop) (tok : nat -> nat -> T) (slots : nat).
Hypothesis Hreg : forall s l k n, regs s l -> l !! k = Some n -> n <= slots ->
  exists s', register s k = Ret (tok k n, s') /\ regs s' (<[k := n + 1]> l).

(** If no replica gets more threads than it has slots, all find one, and none is given
    twice. *)
Lemma register_each ks : forall s l ts, regs s l -> (forall k n, l !! k = Some n -> n + occ ks k <= slots + 1) ->
  Forall (fun k => k < length l) ks ->
  exists s' ns, foldM (fun '(s, ts) k => '(t, s') ← register s k; Ret (s', ts ++ [t])) (s, ts) ks = Ret (s', ts ++ zip_with tok ks ns)
    /\ length ns = length ks /\ NoDup (zip ks ns) /\ forall k n, (k, n) ∈ zip ks ns -> exists n0, l !! k = Some n0 /\ n0 <= n.
Proof.
  induction ks as [|k ks IH]; intros s l ts Hs Hfree Hin.
  { exists s, []. cbn. rewrite app_nil_r. split_and!; [done|done|constructor|]. intros ? ? H. by apply not_elem_of_nil in H. }
  apply list.Forall_cons in Hin as [Hk Hin]. destruct (lookup_lt_is_Some_2 l k Hk) as [n Hn].
  assert (Hkn : n + 1 + occ ks k <= slots + 1).
  { specialize (Hfree k n Hn). rewrite occ_cons, decide_True in Hfree by done. lia. }
  destruct (Hreg s l k n Hs Hn) as (s1 & E1 & Hs1); [lia|]. cbn [foldM]. rewrite E1. cbn [mbind res_bind].
  destruct (IH s1 (<[k := n + 1]> l) (ts ++ [tok k n]) Hs1) as (s' & ns & E & Hl & Hnd & Hle).
  - intros k' n' [(<- & <- & _)|[Hne H']]%list_lookup_insert_Some; [done|]. specialize (Hfree k' n' H'). rewrite occ_cons in Hfree. lia.
  - by rewrite length_insert.
  - exists s', (n :: ns). rewrite E, <- app_assoc. cbn. split_and!; [done|by rewrite Hl| |].
    + apply list.NoDup_cons. split; [|done]. intros H. apply Hle in H as (n0 & H & Hn0). rewrite list_lookup_insert_eq in H by done. injection H as <-. lia.
    + intros k' n' [[= -> ->]|H]%elem_of_cons; [by exists n|]. apply Hle in H as (n0 & H & Hn0).
      apply list_lookup_insert_Some in H as [(-> & <- & _)|[_ H]]; [|by exists n0]. exists n. split; [done|lia].
Qed.
End Registration.

(** ** Example *)

(** The machine of Topology with threads on its second half only: the replica has the number of
    the second socket, which does not exist. *)
Lemma numa_mapping_not_registrable :
  exists rm, replica_core_allocation example_interleave example_topo RS.Socket NUMA 2 = Ret rm
    /\ rm_replicas rm = 1 /\ ~ registrable rm.
Proof.
  eexists. split; [vm_compute; reflexivity|]. split; [vm_compute; reflexivity|]. intros H.
  specialize (H 1%N). vm_compute in H. discriminate H. by eexists.
Qed.
