(* ===== verification/BenchRun.v ===== *)
(** * Running a benchmark (bench_utils/src/mkbench.rs, benchmark.rs)

    A benchmark builds a replicated object, spawns one thread for each CPU of its
    replicas, and every thread registers, executes operations until the time is over and
    reports what it has measured.  The theorems: when all threads can register with
    their replica, that the loops end and execute the operations in turn, that the
    baseline comparison executes the same operations with and without the log, and what
    the final report needs.

    [Instant::now] is a parameter, the time of each reading in nanoseconds, and so is
    the order in which a [HashMap] is iterated.  Output, the pinning of threads and the
    generation of random orders are left out: a thread has its operations in some order. *)

From Stdlib Require Import Sorting.Permutation Floats.SpecFloat.
From stdpp Require Import gmap pretty.
From S2P Require Import Prelude Log NrLog Replica NodeReplicated NodeReplicatedSpec Topology GcdFfi.
From S2P Require Import NrTheorems Bench.

(** ** Thread affinity *)

Section Affinity.
Variable cpuset_count : N.
Variable sched_setaffinity : list N -> Thread -> option Thread.
Variable topo : MachineTopology.

Definition chg_affinity (t : Thread) (af : AffinityChange) : res (Thread * N) :=
  match af with
  | AReplica rid =>
      let c := th_cpu t in
      s ← cpuset_of cpuset_count (cpus_on_node topo rid);
      t' ← set_affinity sched_setaffinity s t "Can't change thread affinity";
      Ret (t', c)
  | ARevert core_id =>
      s ← cpuset_set cpuset_count [] core_id;
      t' ← set_affinity sched_setaffinity s t "Can't reset thread affinity";
      Ret (t', 57005%N)
  end.

Definition chg_affinity_numa (t : Thread) (af : AffinityChange) : res (Thread * N) :=
  match af with
  | AReplica rid =>
      let c := th_cpu t in
      let rid_numa := if (rid =? usize_max)%N then 0%N else 1%N in
      s ← cpuset_of cpuset_count (cpus_on_node topo rid_numa);
      t' ← set_affinity sched_setaffinity s t "Can't change thread affinity";
      Ret (t', c)
  | ARevert core_id =>
      s ← cpuset_set cpuset_count [] core_id;
      t' ← set_affinity sched_setaffinity s t "Can't reset thread affinity";
      Ret (t', 57005%N)
  end.

(** To a node of the machine and back. *)
Lemma node_round nodes online n t :
  machine_nodes cpuset_count sched_setaffinity topo nodes online -> n < nodes -> online (th_cpu t) ->
  exists s t1 t2, cpuset_of cpuset_count (cpus_on_node topo (N.of_nat n)) = Ret s
    /\ set_affinity sched_setaffinity s t "Can't change thread affinity" = Ret t1
    /\ cpuset_set cpuset_count [] (th_cpu t) = Ret [th_cpu t]
    /\ set_affinity sched_setaffinity [th_cpu t] t1 "Can't reset thread affinity" = Ret t2
    /\ th_cpu t2 = th_cpu t.
Proof.
  intros Hm Hn Hon.
  destruct (move_to_node _ _ _ _ _ n t "Can't change thread affinity" Hm Hn) as (s & t1 & Es & Et & _).
  destruct (affinity_revert _ _ _ _ _ (th_cpu t) t1 "Can't reset thread affinity" Hm Hon) as (t2 & E1 & E2 & _ & Hc).
  by exists s, t1, t2.
Qed.

(** With as many nodes as replicas, or two for a NUMA run, the functions do not panic. *)
Lemma chg_affinity_safe online n t :
  machine_nodes cpuset_count sched_setaffinity topo n online -> online (th_cpu t) ->
  aff_safe false (mkAff chg_affinity) n t.
Proof.
  intros Hm Hon. exists (fun t => online (th_cpu t)). split; [done|]. intros a rid Ha [Hr|[? _]]; [|done].
  destruct (node_round n online (N.to_nat rid) a Hm) as (s & t1 & t2 & E1 & E2 & E3 & E4 & Hc); [lia|done|].
  rewrite N2Nat.id in E1. exists t1, (mkAffTkn (th_cpu a)), t2. unfold aff_switch, aff_drop. cbn.
  rewrite E1. mon. rewrite E2. mon. rewrite E3. mon. rewrite E4. mon. by rewrite Hc.
Qed.

Lemma chg_affinity_numa_safe online n t :
  machine_nodes cpuset_count sched_setaffinity topo 2 online -> online (th_cpu t) ->
  aff_safe true (mkAff chg_affinity_numa) n t.
Proof.
  intros Hm Hon. exists (fun t => online (th_cpu t)). split; [done|]. intros a rid Ha _.
  set (k := if (rid =? usize_max)%N then 0 else 1).
  destruct (node_round 2 online k a Hm) as (s & t1 & t2 & E1 & E2 & E3 & E4 & Hc); [subst k; destruct (rid =? usize_max)%N; lia|done|].
  exists t1, (mkAffTkn (th_cpu a)), t2. unfold aff_switch, aff_drop. cbn.
  replace (if (rid =? usize_max)%N then 0%N else 1%N) with (N.of_nat k) by (subst k; by destruct (rid =? usize_max)%N).
  rewrite E1. mon. rewrite E2. mon. rewrite E3. mon. rewrite E4. mon. by rewrite Hc.
Qed.
End Affinity.

(** ** The harness *)

(** [TestHarness], with its duration; [smokebench] is a feature of the build. *)
Record TestHarness := mkHarness { th_duration : N }.
Definition harness_new (smokebench : bool) (d : N) : TestHarness :=
  if smokebench then mkHarness 500000000 else mkHarness d.
Definition harness_default (smokebench : bool) : TestHarness :=
  if smokebench then harness_new smokebench 500000000 else harness_new smokebench 20000000000.

(** [f64], and the conversion from [usize]. *)
Abbreviation f64 := spec_float.
Definition as_f64 (n : N) : f64 := binary_normalize 53 1024 (Z.of_N n) 0 false.
Definition f64_div : f64 -> f64 -> f64 := SFdiv 53 1024.

(** [Duration::as_secs_f64]. *)
Definition as_secs_f64 (d : N) : f64 :=
  SFadd 53 1024 (as_f64 (d / 1000000000)) (f64_div (as_f64 (d mod 1000000000)) (as_f64 1000000000)).

(** [iter().sum::<usize>()]. *)
Definition usize_sum (l : list N) : N := foldl (fun s x => (s + x) mod usize_size)%N 0%N l.

Definition mean (data : list N) : option f64 :=
  let sum := as_f64 (usize_sum data) in
  if 0 <? length data then Some (f64_div sum (as_f64 (N.of_nat (length data)))) else None.

Definition std_deviation (data : list N) : option f64 :=
  match mean data with
  | Some data_mean =>
      if 0 <? length data then
        let variance := f64_div (foldl (fun s value =>
            let diff := SFsub 53 1024 data_mean (as_f64 value) in
            SFadd 53 1024 s (SFmul 53 1024 diff diff)) (S754_zero false) data) (as_f64 (N.of_nat (length data))) in
        Some (SFsqrt 53 1024 variance)
      else None
  | None => None
  end.

(** ** What is measured *)

(** [DsInterface]; the constructors get the calling thread. *)
Class DsInterface (DS RO WO R : Type) := {
  ds_new : nat -> nat -> N -> Thread -> res (DS * Thread);
  ds_new_numa : nat -> nat -> N -> Thread -> res (DS * Thread);
  ds_register : DS -> nat -> res (option ThreadToken * DS);
  ds_execute_mut : DS -> WO -> ThreadToken -> res (R * DS);
  ds_execute_scan : DS -> WO -> ThreadToken -> res (R * DS);
  ds_execute : DS -> RO -> ThreadToken -> res (R * DS);
}.

(** What a benchmark relies on: the structure behaves like one copy of [D]. *)
Class DsLaws (D : Type) {DS RO WO R : Type} `{!Dispatch D RO WO R, !DsInterface DS RO WO R} := {
  ds_sim : DS -> spec D -> Prop;
  ds_register_sim s sp k t sp' : ds_sim s sp -> spec_call (RO := RO) sp (CRegister k) = Ret (sp', OTkn t) ->
    exists s', ds_register s k = Ret (t, s') /\ ds_sim s' sp';
  ds_execute_mut_sim s sp tkn o sp' (r : R) : ds_sim s sp -> spec_call sp (CWrite tkn o) = Ret (sp', OResp r) ->
    exists s', ds_execute_mut s o tkn = Ret (r, s') /\ ds_sim s' sp';
  ds_execute_sim s sp tkn o sp' (r : R) : ds_sim s sp -> spec_call sp (CRead tkn o) = Ret (sp', OResp r) ->
    exists s', ds_execute s o tkn = Ret (r, s') /\ ds_sim s' sp';
}.

(** *** Node replication *)

Section Nr.
Context {D RO WO R : Type} `{!Dispatch D RO WO R}.
Variable f : feature.
Variable cpuset_count : N.
Variable sched_setaffinity : list N -> Thread -> option Thread.
Variable topo : MachineTopology.
(** [D::default()], the size of a log entry, and the memory that can be allocated. *)
Variable dflt : D.
Variable esize : N.
Variable mem : nat.
Abbreviation nrep := (NodeReplicated D WO R Thread).

Definition expect_nr (r : result nrep NodeReplicatedError) : res nrep :=
  match r with Ok nr => Ret nr | Err OutOfMemory => Panic "Can't allocate NodeReplicated: OutOfMemory" end.

Definition nr_ds_new (replicas _logs : nat) (log_size : N) (t : Thread) : res (nrep * Thread) :=
  '(r, t') ← with_log_size replicas (chg_affinity cpuset_count sched_setaffinity topo) esize log_size dflt mem t;
  nr ← expect_nr r;
  Ret (nr, t').
Definition nr_ds_new_numa (replicas _logs : nat) (log_size : N) (t : Thread) : res (nrep * Thread) :=
  '(r, t') ← with_log_size_numa replicas (chg_affinity_numa cpuset_count sched_setaffinity topo) esize log_size dflt mem t;
  nr ← expect_nr r;
  Ret (nr, t').
Definition nr_ds_execute_scan (_ds : nrep) (_op : WO) (_idx : ThreadToken) : res (R * nrep) :=
  Panic "scan-ops are non-sensical for node_replication::NodeReplicated<T>".

#[export] Instance nr_ds : DsInterface nrep RO WO R := {|
  ds_new := nr_ds_new;
  ds_new_numa := nr_ds_new_numa;
  ds_register := nr_register;
  ds_execute_mut := execute_mut f;
  ds_execute_scan := nr_ds_execute_scan;
  ds_execute := execute f;
|}.

#[export] Program Instance nr_laws : DsLaws D (DS := nrep) := {| ds_sim := sim f dflt |}.
Next Obligation.
  intros s sp k t sp' Hs E. destruct (sim_call f dflt s sp _ _ _ Hs E) as (s' & Ec & Hs').
  cbn [nr_call] in Ec. ret_inv Ec. cbn. by eexists.
Qed.
Next Obligation.
  intros s sp tkn o sp' r Hs E. destruct (sim_call f dflt s sp _ _ _ Hs E) as (s' & Ec & Hs').
  cbn [nr_call] in Ec. ret_inv Ec. cbn. by eexists.
Qed.
Next Obligation.
  intros s sp tkn o sp' r Hs E. destruct (sim_call f dflt s sp _ _ _ Hs E) as (s' & Ec & Hs').
  cbn [nr_call] in Ec. ret_inv Ec. cbn. by eexists.
Qed.
End Nr.

(** ** A benchmark *)

Section Bench.
Context {D DS RO WO R : Type} `{!Dispatch D RO WO R, !DsInterface DS RO WO R}.
Abbreviation O := (Operation RO WO).

(** [ScaleBenchmark]; the function to measure and the handles of the threads are left
    out. *)
Record ScaleBenchmark := mkBench {
  sb_name : string; sb_rs : RS.ReplicaStrategy; sb_tm : ThreadMapping; sb_ts : nat; sb_ls : LS.LogStrategy;
  sb_rm : rmap; sb_log_size : N; sb_stripe_len : nat; sb_operations : list O; sb_load_vec : list O;
  sb_duration : N; sb_batch_size : nat; sb_numa : bool;
}.

Definition bench_new interleave name topology rs ls tm ts log_size stripe_len duration operations load_vec batch_size numa
  : res ScaleBenchmark :=
  rm ← replica_core_allocation interleave topology rs tm ts;
  Ret (mkBench name rs tm ts ls rm log_size stripe_len operations load_vec duration batch_size numa).

Definition bench_threads (b : ScaleBenchmark) : nat := rm_threads (sb_rm b).
Definition bench_replicas (b : ScaleBenchmark) : nat := rm_replicas (sb_rm b).

(** A thread that [startup] spawns: its replica and CPU, its operations, and those it
    loads before. *)
Record worker := mkWorker { w_rid : N; w_core : N; w_ops : list O; w_load : list O }.

(** The operations of the thread on [core_id]. *)
Definition stripe (b : ScaleBenchmark) (core_id : N) : res (list O) :=
  if 0 <? sb_stripe_len b then
    vslice (sb_operations b) (N.to_nat core_id * sb_stripe_len b) ((N.to_nat core_id + 1) * sb_stripe_len b)
  else Ret (sb_operations b).

Definition spawn (b : ScaleBenchmark) (rid core_id : N) : res worker :=
  operations ← stripe b core_id;
  let load_ops := if 0 <? sb_stripe_len b then sb_load_vec b else [] in
  Ret (mkWorker rid core_id operations (if (core_id =? 10)%N then load_ops else [])).

(** The replicated object of [startup]. *)
Definition bench_ds (b : ScaleBenchmark) (t : Thread) : res (DS * Thread) :=
  if bench_replicas b =? 0 then Panic "called `Option::unwrap()` on a `None` value"
  else if sb_numa b then ds_new_numa (bench_replicas b) 1 (sb_log_size b) t
  else ds_new (bench_replicas b) 1 (sb_log_size b) t.

(** The order in which a [HashMap] is iterated. *)
Variable into_iter : rmap -> list (N * list N).

(** [startup]: the replicated object, the number of threads that the barrier waits for,
    and the threads. *)
Definition startup (b : ScaleBenchmark) (t : Thread) : res (DS * Thread * nat * list worker) :=
  let thread_num := bench_threads b in
  '(ds, t') ← bench_ds b t;
  ws ← foldM (fun ws '(rid, cores) =>
         foldM (fun ws core_id => w ← spawn b rid core_id; Ret (ws ++ [w])) ws cores) [] (into_iter (sb_rm b));
  Ret (ds, t', thread_num, ws).

(** [startup_new] differs in what the threads do after the barrier. *)
Definition startup_new : ScaleBenchmark -> Thread -> res (DS * Thread * nat * list worker) := startup.

(** The first thing a thread does. *)
Definition worker_register (ds : DS) (rid : nat) : res (ThreadToken * DS) :=
  '(t, ds') ← ds_register ds rid;
  match t with Some tkn => Ret (tkn, ds') | None => Panic "Can't register replica, out of slots?" end.
(** All threads, in the order of the list. *)
Definition register_workers (ds : DS) (ws : list worker) : res (DS * list ThreadToken) :=
  foldM (fun '(ds, tkns) w => '(tkn, ds') ← worker_register ds (N.to_nat (w_rid w)); Ret (ds', tkns ++ [tkn])) (ds, []) ws.

(** *** The threads *)

Lemma stripe_ok (b : ScaleBenchmark) core_id :
  (N.to_nat core_id + 1) * sb_stripe_len b <= length (sb_operations b) -> exists l, stripe b core_id = Ret l.
Proof.
  intros H. unfold stripe. destruct (0 <? sb_stripe_len b); [|by eexists]. rewrite vslice_ok; [by eexists|lia|done].
Qed.

(** Replica and CPU of each thread. *)
Definition places (l : list (N * list N)) : list (N * N) := concat (map (fun '(r, cores) => map (pair r) cores) l).
Definition place (w : worker) : N * N := (w_rid w, w_core w).

Lemma spawn_cores b rid cores ws : (forall c, c ∈ cores -> exists l, stripe b c = Ret l) ->
  exists ws', foldM (fun ws core_id => w ← spawn b rid core_id; Ret (ws ++ [w])) ws cores = Ret (ws ++ ws')
    /\ map place ws' = map (pair rid) cores /\ Forall (fun w => stripe b (w_core w) = Ret (w_ops w)) ws'.
Proof.
  revert ws. induction cores as [|c cores IH]; intros ws H; [exists []; by rewrite app_nil_r|].
  destruct (H c) as [l Hl]; [by left|]. cbn. unfold spawn. rewrite Hl. cbn.
  destruct (IH (ws ++ [mkWorker rid c l (if (c =? 10)%N then if 0 <? sb_stripe_len b then sb_load_vec b else [] else [])])) as (ws' & E & Hc & Hf).
  { intros c' Hc'. apply H. by right. }
  eexists (_ :: ws'). unfold spawn in E. rewrite E, <- app_assoc. split_and!; [done|cbn; by rewrite Hc|by constructor].
Qed.

Lemma spawn_all b l ws : (forall rid cores c, (rid, cores) ∈ l -> c ∈ cores -> exists o, stripe b c = Ret o) ->
  exists ws', foldM (fun ws '(rid, cores) => foldM (fun ws core_id => w ← spawn b rid core_id; Ret (ws ++ [w])) ws cores) ws l = Ret (ws ++ ws')
    /\ map place ws' = places l /\ Forall (fun w => stripe b (w_core w) = Ret (w_ops w)) ws'.
Proof.
  revert ws. induction l as [|[rid cores] l IH]; intros ws H; [exists []; by rewrite app_nil_r|]. cbn.
  destruct (spawn_cores b rid cores ws) as (w1 & E1 & Hc1 & Hf1); [intros c Hc; eapply H; [by left|done]|]. rewrite E1. cbn.
  destruct (IH (ws ++ w1)) as (w2 & E2 & Hc2 & Hf2); [intros rid' cores' c H1; eapply H; by right|]. rewrite E2. exists (w1 ++ w2).
  unfold places in *. cbn [map concat]. rewrite app_assoc, map_app, Hc1, Hc2. split_and!; [done|done|]. by apply Forall_app.
Qed.

Lemma places_cores l : map snd (places l) = concat (map snd l).
Proof.
  induction l as [|[r cores] l IH]; [done|]. unfold places in *. cbn. rewrite map_app, IH, map_map. cbn. by rewrite map_id.
Qed.

Lemma places_rids l : map (fun p => N.to_nat p.1) (places l) = thread_rids l.
Proof.
  induction l as [|[r cores] l IH]; [done|]. unfold places, thread_rids in *. cbn. rewrite map_app, IH, map_map. f_equal. cbn.
  clear. induction cores; cbn; congruence.
Qed.

(** *** Registration *)

Lemma worker_registers `{!DsLaws D (DS := DS)} d ds l k n : ds_sim ds (mkSpec d l) -> l !! k = Some n -> n <= MAX_THREADS_PER_REPLICA ->
  exists ds', worker_register ds k = Ret (mkToken k n, ds') /\ ds_sim ds' (mkSpec d (<[k := n + 1]> l)).
Proof.
  intros Hs Hn Hle. destruct (ds_register_sim ds (mkSpec d l) k (Some (mkToken k n)) (mkSpec d (<[k := n + 1]> l)) Hs) as (ds' & E & Hs').
  { cbn -[MAX_THREADS_PER_REPLICA]. rewrite Hn. by destruct (Nat.ltb_spec MAX_THREADS_PER_REPLICA n); [lia|]. }
  exists ds'. unfold worker_register. by rewrite E.
Qed.

Lemma zip_tokens ks ns : length ns = length ks -> zip_with mkToken ks ns = map (fun p => mkToken p.1 p.2) (zip ks ns).
Proof. revert ns. induction ks as [|k ks IH]; intros [|n ns] H; cbn; try done. f_equal. apply IH. cbn in H. lia. Qed.

(** A benchmark starts if its object can be built: one thread for each CPU, as many as
    the barrier waits for, each with its stripe, and all can register in any order. *)
Lemma bench_starts `{!DsLaws D (DS := DS)} (b : ScaleBenchmark) t ds t' d :
  (forall m, into_iter m ≡ₚ map_to_list m) ->
  bench_ds b t = Ret (ds, t') -> ds_sim ds (mkSpec d (replicate (bench_replicas b) 1)) ->
  registrable (sb_rm b) -> (forall r cores, sb_rm b !! r = Some cores -> length cores <= MAX_THREADS_PER_REPLICA) ->
  (forall c, c ∈ rm_cpus (sb_rm b) -> exists l, stripe b c = Ret l) ->
  exists ws, startup b t = Ret (ds, t', length ws, ws) /\ map w_core ws ≡ₚ rm_cpus (sb_rm b)
    /\ Forall (fun w => stripe b (w_core w) = Ret (w_ops w)) ws
    /\ forall ws', ws' ≡ₚ ws -> exists ds' tkns, register_workers ds ws' = Ret (ds', tkns)
         /\ NoDup tkns /\ map (fun t => N.of_nat (rid t)) tkns = map w_rid ws'.
Proof.
  intros Hiter Ed Hs Hreg Hmax Hst. unfold startup. rewrite Ed. cbn [mbind res_bind].
  pose proof (Hiter (sb_rm b)) as Hl. destruct (spawn_all b (into_iter (sb_rm b)) []) as (ws & Es & Hp & Hf).
  { intros r cores c H1 H2. apply Hst. unfold rm_cpus. apply list_elem_of_In, in_concat. exists cores. rewrite <- !list_elem_of_In.
    split; [|done]. apply list_elem_of_fmap. exists (r, cores). by rewrite <- Hl. }
  assert (Hc : map w_core ws ≡ₚ rm_cpus (sb_rm b)).
  { unfold rm_cpus. rewrite <- Hl, <- places_cores, <- Hp, map_map. done. }
  exists ws. rewrite Es. cbn. split_and!; [|done|done|].
  { unfold bench_threads. rewrite rm_threads_cpus, <- Hc, length_map. done. }
  intros ws' Hw. set (ks := map (fun w => N.to_nat (w_rid w)) ws').
  assert (Hks : ks ≡ₚ thread_rids (into_iter (sb_rm b))).
  { unfold ks. rewrite Hw, <- places_rids, <- Hp, map_map. done. }
  destruct (register_each worker_register (fun ds l => ds_sim ds (mkSpec d l)) mkToken MAX_THREADS_PER_REPLICA
              (worker_registers d) ks ds (replicate (bench_replicas b) 1) []) as (ds' & ns & E & Hlen & Hnd & _); [done|..].
  - intros k n [-> Hk]%lookup_replicate. rewrite (occ_perm _ _ _ Hks), Nat.add_comm. apply Nat.add_le_mono_r, occ_rids.
    + rewrite Hl. apply NoDup_fst_map_to_list.
    + apply list.Forall_forall. intros [r cores] Hin. rewrite Hl in Hin. apply elem_of_map_to_list in Hin. by eapply Hmax.
  - apply list.Forall_forall. intros k Hin. rewrite length_replicate. rewrite Hks in Hin.
    unfold thread_rids in Hin. apply list_elem_of_In, in_concat in Hin as (x & Hx%list_elem_of_In & Hkx%list_elem_of_In).
    apply list_elem_of_fmap in Hx as ([r cores] & -> & Hx). rewrite Hl in Hx. apply elem_of_map_to_list in Hx.
    apply elem_of_replicate in Hkx as [-> _]. assert (Hr : is_Some (sb_rm b !! r)) by (by eexists). apply Hreg in Hr. unfold bench_replicas. lia.
  - exists ds', (zip_with mkToken ks ns). split_and!.
    + etransitivity; [|exact E]. unfold ks. rewrite <- foldM_map. apply foldM_ext. by intros [].
    + rewrite zip_tokens by done. apply NoDup_fmap_2; [|done]. intros [] [] [= -> ->]. done.
    + rewrite zip_tokens by done. rewrite map_map. cbn. rewrite <- (map_map fst N.of_nat (zip ks ns)). change (map fst (zip ks ns)) with (zip ks ns).*1.
      rewrite fst_zip by lia. unfold ks. rewrite map_map. apply map_ext. intros w. apply N2Nat.id.
Qed.

(** *** The measuring loop *)

Definition LOG_PERIOD : N := 1000000000.

(** The local variables of the loop, and the operations executed so far. *)
Record meter := mkMeter {
  m_iter : nat; m_completed : nat; m_ttl : nat; m_latency : list N; m_next_log : N; m_done : list O;
}.

(** [batch_size] operations. *)
Definition run_batch (operations : list O) (batch_size : nat) (m : meter) : res meter :=
  foldM (fun m _ =>
    op ← vget operations (m_iter m);
    Ret (mkMeter ((m_iter m + 1) mod length operations) (m_completed m) (m_ttl m) (m_latency m) (m_next_log m) (m_done m ++ [op])))
    m (seq 0 batch_size).

(** The statistics, when a second is over. *)
Definition log_second (now : N) (m : meter) : meter :=
  if (m_next_log m <=? now)%N then
    let average := if 0 <? m_completed m then (1000000000 / N.of_nat (m_completed m))%N else 0%N in
    mkMeter (m_iter m) 0 (m_ttl m + m_completed m) (m_latency m ++ [average]) (m_next_log m + LOG_PERIOD)%N (m_done m)
  else m.

(** The loop; [c] counts the readings of [clock]. *)
Fixpoint measure (fuel : nat) (clock : nat -> N) (c : nat) (end_experiment : N) (operations : list O) (batch_size : nat) (m : meter)
  : res meter :=
  match fuel with
  | 0 => Spin
  | S fuel' =>
      if (clock c <? end_experiment)%N then
        m ← run_batch operations batch_size m;
        let m := mkMeter (m_iter m) (m_completed m + batch_size) (m_ttl m) (m_latency m) (m_next_log m) (m_done m) in
        measure fuel' clock (c + 2) end_experiment operations batch_size (log_second (clock (c + 1)) m)
      else Ret m
  end.

(** What a thread of [startup] does after the barrier, with its operations in the order
    that [shuffle] has given them; the first reading of [clock] is the start. *)
Definition run_worker (fuel : nat) (clock : nat -> N) (b : ScaleBenchmark) (operations : list O) : res meter :=
  let start := clock 0 in
  measure fuel clock 1 (start + sb_duration b)%N operations (sb_batch_size b) (mkMeter 0 0 0 [] (start + LOG_PERIOD)%N []).

(** *** Progress of the loop *)

Section Loop.
Context (ops : list O).
Hypothesis Hops : 0 < length ops.

(** The operations done are those of the vector, in turn, and all are counted. *)
Record in_turn (m : meter) : Prop := {
  it_iter : m_iter m = length (m_done m) mod length ops;
  it_done : forall i x, m_done m !! i = Some x -> ops !! (i mod length ops) = Some x;
}.

Lemma run_batch_spec n m : in_turn m -> exists m', run_batch ops n m = Ret m' /\ in_turn m'
  /\ length (m_done m') = length (m_done m) + n /\ m_completed m' = m_completed m /\ m_ttl m' = m_ttl m
  /\ m_latency m' = m_latency m /\ m_next_log m' = m_next_log m.
Proof.
  unfold run_batch. assert (Hn : length (seq 0 n) = n) by apply length_seq. revert Hn. generalize (seq 0 n). intros l <-. revert m.
  induction l as [|a l IH]; intros m Hm; [exists m; split_and!; try done; cbn; lia|].
  destruct Hm as [Hi Hd]. cbn [foldM]. destruct (lookup_lt_is_Some_2 ops (m_iter m)) as [x Hx]; [rewrite Hi; apply Nat.mod_upper_bound; lia|].
  rewrite (vget_lookup _ _ _ Hx). cbn [mbind res_bind].
  match goal with |- context [foldM _ ?m1 _] => destruct (IH m1) as (m' & E & Ht & Hl & H1 & H2 & H3 & H4) end; [split; cbn [m_iter m_done]|].
  - rewrite length_app, Hi. cbn [length]. by rewrite Nat.Div0.add_mod_idemp_l.
  - intros i y [H|[Hle H]]%lookup_app_Some; [by apply Hd|]. apply list_lookup_singleton_Some in H as [Hz <-].
    replace i with (length (m_done m)) by lia. by rewrite <- Hi.
  - exists m'. cbn [m_done m_completed m_ttl m_latency m_next_log] in *. rewrite length_app in Hl. cbn in Hl. cbn [length]. split_and!; try done. lia.
Qed.

Lemma log_second_spec now m : in_turn m -> in_turn (log_second now m) /\ m_done (log_second now m) = m_done m
  /\ m_ttl (log_second now m) + m_completed (log_second now m) = m_ttl m + m_completed m.
Proof. intros Hm. unfold log_second. destruct (m_next_log m <=? now)%N; [|done]. cbn. split_and!; [|done|lia]. destruct Hm. by split. Qed.

Lemma measure_S f (clock : nat -> N) (c : nat) e n m : measure (S f) clock c e ops n m =
  if (clock c <? e)%N then
    m ← run_batch ops n m;
    measure f clock (c + 2) e ops n
      (log_second (clock (c + 1)%nat) (mkMeter (m_iter m) (m_completed m + n) (m_ttl m) (m_latency m) (m_next_log m) (m_done m)))
  else Ret m.
Proof. done. Qed.

Lemma measure_spec (k : nat) (clock : nat -> N) (c : nat) e n m : in_turn m -> m_ttl m + m_completed m = length (m_done m) -> (e <= clock (c + 2 * k)%nat)%N ->
  exists m' j, measure (S k) clock c e ops n m = Ret m' /\ in_turn m' /\ m_ttl m' + m_completed m' = length (m_done m')
    /\ j <= k /\ length (m_done m') = length (m_done m) + j * n /\ (e <= clock (c + 2 * j)%nat)%N.
Proof.
  revert c m. induction k as [|k IH]; intros c m Hm Hc He; rewrite measure_S.
  - destruct (N.ltb_spec (clock c) e); [rewrite Nat.add_0_r in He; lia|]. exists m, 0. rewrite Nat.add_0_r. split_and!; try done; lia.
  - destruct (N.ltb_spec (clock c) e) as [Hlt|Hge]; [|exists m, 0; rewrite !Nat.add_0_r; split_and!; try done; lia].
    destruct (run_batch_spec n m Hm) as (m1 & E & Ht & Hl & H1 & H2 & H3 & H4). rewrite E. cbn [mbind res_bind].
    set (m2 := mkMeter _ _ _ _ _ _). destruct (log_second_spec (clock (c + 1)) m2) as (Ht2 & Hd2 & Hs2); [destruct Ht; by split|].
    destruct (IH (c + 2) (log_second (clock (c + 1)) m2)) as (m' & j & E' & Ht' & Hc' & Hj & Hlen & He').
    + done.
    + rewrite Hs2, Hd2. unfold m2. cbn. lia.
    + by replace (c + 2 + 2 * k) with (c + 2 * S k) by lia.
    + exists m', (S j). rewrite E', Hlen, Hd2. unfold m2. cbn [m_done]. split_and!; try done; [by rewrite Hc', Hlen, Hd2|lia|lia|].
      by replace (c + 2 * S j) with (c + 2 + 2 * j) by lia.
Qed.
End Loop.

(** The measuring loop of a thread ends and executes its operations in turn.  If the
    clock reads the end of the experiment or later after [k] rounds, the loop has ended;
    until then it has made whole batches, the operation with the number [i] was the one
    at [i] modulo the number of operations, and every operation is counted once, in the
    total of the seconds over or in the second not over yet. *)
Theorem worker_measures (b : ScaleBenchmark) (clock : nat -> N) ops (k : nat) :
  0 < length ops -> (clock 0%nat + sb_duration b <= clock (1 + 2 * k)%nat)%N ->
  exists m j, run_worker (S k) clock b ops = Ret m /\ j <= k /\ length (m_done m) = j * sb_batch_size b
    /\ (forall i x, m_done m !! i = Some x -> ops !! (i mod length ops) = Some x)
    /\ m_ttl m + m_completed m = length (m_done m) /\ (clock 0%nat + sb_duration b <= clock (1 + 2 * j)%nat)%N.
Proof.
  intros Hops He. unfold run_worker.
  destruct (measure_spec ops Hops k clock 1 (clock 0%nat + sb_duration b)%N (sb_batch_size b) (mkMeter 0 0 0 [] (clock 0%nat + LOG_PERIOD)%N []))
    as (m & j & E & [_ Ht] & Hc & Hj & Hl & He'); [split; [by rewrite Nat.Div0.mod_0_l|done]|done|done|].
  exists m, j. split_and!; try done.
Qed.


(** *** Threads of [startup_new] *)

(** Every operation is executed once and timed; [c] counts the readings of [clock]. *)
Definition time_ops (clock : nat -> N) (c : nat) (operations : list O) : list O * list N * nat :=
  foldl (fun '(done, latency, c) op =>
    let iter_start := clock c in
    let elapsed_time := (clock (c + 1)%nat - iter_start)%N in
    (done ++ [op], latency ++ [(elapsed_time mod usize_size)%N], c + 2)) ([], [], c) operations.

(** The throughput and the latencies that a thread returns. *)
Definition run_worker_new (clock : nat -> N) (operations : list O) : res (N * list N * list O) :=
  let start := clock 0 in
  let '(done, latency, c) := time_ops clock 1 operations in
  let ttl_ops := N.of_nat (length done) in
  let elapsed_ttl := ((clock c - start) / 1000000000)%N in
  if (elapsed_ttl =? 0)%N then Panic "attempt to divide by zero"
  else Ret ((ttl_ops / elapsed_ttl)%N, latency, done).

Lemma time_ops_spec clock c ops : time_ops clock c ops
  = (ops, map (fun i => ((clock (c + 2 * i + 1)%nat - clock (c + 2 * i)%nat) mod usize_size)%N) (seq 0 (length ops)), c + 2 * length ops).
Proof.
  unfold time_ops. induction ops as [|o ops IH] using rev_ind; [cbn; by rewrite Nat.add_0_r|].
  rewrite foldl_app, IH. cbn [foldl]. rewrite length_app. cbn [length]. replace (length ops + 1) with (S (length ops)) by lia. rewrite seq_S, map_app. cbn [map]. rewrite Nat.add_0_l.
  f_equal. lia.
Qed.

(** ** The report *)

(** [Record]. *)
Record BenchRecord := mkRecord {
  rec_name : string; rec_rs : RS.ReplicaStrategy; rec_tm : ThreadMapping; rec_batch_size : nat; rec_threads : nat;
  rec_duration : f64; rec_thread_id : nat; rec_core_id : N; rec_exp_time_in_sec : nat; rec_iterations : N;
}.

(** The records of [all_results]. *)
Definition bench_records (b : ScaleBenchmark) (all_results : list (N * nat * list N)) : list BenchRecord :=
  concat (map (fun '(cid, tid, ops_per_sec) =>
    imap (fun idx ops => mkRecord (sb_name b) (sb_rs b) (sb_tm b) (sb_batch_size b) (sb_ts b) (as_f64 10) tid cid (idx + 1) ops)
      ops_per_sec) all_results).

(** What is printed: operations per second and nanoseconds per operation. *)
Record report := mkReport { avg_tput : f64; lat_avg : f64 }.

(** [terminate] with the results of the threads it joins; [opened] says whether the CSV
    file can be opened.  The line that would fill [all_results] is commented out. *)
Definition terminate (opened : bool) (b : ScaleBenchmark) (handles : list (N * N * list N))
  : res (result (report * list BenchRecord) unit) :=
  let all_results := [] in
  let '(everything, lat) := foldl (fun '(everything, lat) '(_cid, ttl_ops, latency) =>
    (everything ++ [ttl_ops], lat ++ latency)) ([], []) handles in
  let avg_tput := f64_div (as_f64 (usize_sum everything)) (as_f64 20) in
  lat_avg ← unwrap (mean lat);
  Ret (if opened then Ok (mkReport avg_tput lat_avg, bench_records b all_results) else Err tt).

(** [terminate_new]. *)
Definition terminate_new (handles : list (N * N * list N)) : res (N * f64) :=
  let '(everything, lat) := foldl (fun '(everything, lat) '(_cid, ttl_ops, latency) =>
    (everything ++ [ttl_ops], lat ++ latency)) ([], []) handles in
  lat_avg ← unwrap (mean lat);
  Ret (usize_sum everything, lat_avg).

(** What a thread returns. *)
Definition thread_result (core_id : N) (m : meter) : N * N * list N := (core_id, N.of_nat (m_ttl m), m_latency m).

Lemma join_spec (hs : list (N * N * list N)) e l :
  foldl (fun '(everything, lat) '(_cid, ttl_ops, latency) => (everything ++ [ttl_ops], lat ++ latency)) (e, l) hs
  = (e ++ map (fun h => h.1.2) hs, l ++ concat (map snd hs)).
Proof.
  revert e l. induction hs as [|[[c t] lat] hs IH]; intros e l; cbn; [by rewrite !app_nil_r|].
  by rewrite IH, <- !app_assoc.
Qed.

(** A report needs the measurement of one second by one thread. *)
Lemma terminate_spec opened b hs : terminate opened b hs
  = match concat (map snd hs) with
    | [] => Panic "called `Option::unwrap()` on a `None` value"
    | lat => Ret (if opened then Ok (mkReport (f64_div (as_f64 (usize_sum (map (fun h => h.1.2) hs))) (as_f64 20))
                                      (f64_div (as_f64 (usize_sum lat)) (as_f64 (N.of_nat (length lat)))), [])
                  else Err tt)
    end.
Proof. unfold terminate. rewrite join_spec. cbn [app]. unfold mean. by destruct (concat (map snd hs)). Qed.

Lemma measure_short fuel (clock : nat -> N) : forall (c : nat) e ops n m m',
  (forall i, (clock i < m_next_log m)%N) -> measure fuel clock c e ops n m = Ret m' -> m_latency m' = m_latency m.
Proof.
  assert (Hb : forall ops n m m1, run_batch ops n m = Ret m1 -> m_latency m1 = m_latency m /\ m_next_log m1 = m_next_log m).
  { clear. intros ops n m m1. unfold run_batch. revert m. induction (seq 0 n) as [|i l IH]; intros m E; cbn [foldM] in E; [by ret_inv E|].
    destruct (vget ops (m_iter m)); [|done|done]. cbn [mbind res_bind] in E. by apply IH in E. }
  induction fuel as [|fuel IH]; intros c e ops n m m' Hc E; [done|]. rewrite measure_S in E.
  destruct (clock c <? e)%N; [|by ret_inv E]. destruct (run_batch ops n m) as [m1| |] eqn:E1; [|done|done]. cbn [mbind res_bind] in E.
  destruct (Hb _ _ _ _ E1) as [Hl Hn]. unfold log_second in E. cbn [m_next_log] in E. rewrite Hn in E.
  destruct (N.leb_spec (m_next_log m) (clock (c + 1)%nat)) as [Hle|_]; [specialize (Hc (c + 1)%nat); lia|].
  apply IH in E; cbn in *; congruence.
Qed.

(** A benchmark that is over within a second cannot report.  The threads store a
    latency only when a second of the experiment has passed; if the clock of none of
    them gets that far, they all finish, but [terminate] panics on the average of no
    latencies. *)
Theorem short_benchmark_panics (b : ScaleBenchmark) opened cores (runs : list ((nat -> N) * list O)) ms k :
  Forall (fun '(clock, ops) => 0 < length ops /\ (clock 0%nat + sb_duration b <= clock (1 + 2 * k)%nat)%N
            /\ forall i, (clock i < clock 0%nat + LOG_PERIOD)%N) runs ->
  Forall2 (fun '(clock, ops) r => r = run_worker (S k) clock b ops) runs ms ->
  exists results, ms = map Ret results
    /\ terminate opened b (zip_with thread_result cores results) = Panic "called `Option::unwrap()` on a `None` value".
Proof.
  intros Hr Hm.
  assert (H : exists results, ms = map Ret results /\ Forall (fun m => m_latency m = []) results).
  { induction Hm as [|[clock ops] r runs ms -> _ IH]; [by exists []|]. apply list.Forall_cons in Hr as [(Hops & He & Hs) Hr].
    destruct (IH Hr) as (results & -> & Hl).
    destruct (measure_spec ops Hops k clock 1 (clock 0%nat + sb_duration b)%N (sb_batch_size b) (mkMeter 0 0 0 [] (clock 0%nat + LOG_PERIOD)%N []))
      as (m & j & E & _); [split; [by rewrite Nat.Div0.mod_0_l|done]|done|done|].
    exists (m :: results). unfold run_worker. rewrite E. split; [done|]. constructor; [|done].
    by eapply measure_short in E. }
  destruct H as (results & -> & Hl). exists results. split; [done|]. rewrite terminate_spec.
  replace (concat (map snd (zip_with thread_result cores results))) with (@nil N); [done|]. symmetry.
  clear -Hl. revert cores. induction Hl as [|m ms Hm _ IH]; intros [|c cores]; cbn; try done. by rewrite Hm, IH.
Qed.

(** ** The baseline comparison *)

(** The state of a loop of [baseline_comparison] on a structure [X], with the responses. *)
Record bline (X : Type) := mkLine {
  bl_ds : X; bl_completed : nat; bl_iter : nat; bl_next_log : N; bl_per_second : list nat; bl_out : list R;
}.
Arguments mkLine {X} _ _ _ _ _ _.
Arguments bl_ds {X} _.
Arguments bl_completed {X} _.
Arguments bl_iter {X} _.
Arguments bl_next_log {X} _.
Arguments bl_per_second {X} _.
Arguments bl_out {X} _.

Definition baseline_round {X} (exec : X -> O -> res (R * X)) (ops : list O) (now : N) (s : bline X) : res (bline X) :=
  if length ops =? 0 then Panic "attempt to calculate the remainder with a divisor of zero"
  else
    op ← vget ops (bl_iter s mod length ops);
    '(r, ds) ← exec (bl_ds s) op;
    let operations_completed := bl_completed s + 1 in
    Ret (if (bl_next_log s <=? now)%N then
           mkLine ds 0 (bl_iter s + 1) (bl_next_log s + LOG_PERIOD)%N (bl_per_second s ++ [operations_completed]) (bl_out s ++ [r])
         else mkLine ds operations_completed (bl_iter s + 1) (bl_next_log s) (bl_per_second s) (bl_out s ++ [r])).

Fixpoint baseline_loop {X} (fuel : nat) (exec : X -> O -> res (R * X)) (clock : nat -> N) (c : nat) (end_experiment : N) (ops : list O)
    (s : bline X) : res (bline X) :=
  match fuel with
  | 0 => Spin
  | S fuel' =>
      if (clock c <? end_experiment)%N then
        s' ← baseline_round exec ops (clock (c + 1)%nat) s;
        baseline_loop fuel' exec clock (c + 2) end_experiment ops s'
      else Ret s
  end.

(** A benchmark of the comparison: the loop, and the last second removed. *)
Definition baseline_bench {X} (fuel : nat) (exec : X -> O -> res (R * X)) (clock : nat -> N) (duration : N) (ops : list O) (ds : X)
  : res (bline X) :=
  let start := clock 0 in
  s ← baseline_loop fuel exec clock 1 (start + duration)%N ops (mkLine ds 0 0 (start + LOG_PERIOD)%N [] []);
  Ret (if (N.of_nat (length (bl_per_second s)) =? duration / 1000000000)%N then
         mkLine (bl_ds s) (bl_completed s) (bl_iter s) (bl_next_log s) (removelast (bl_per_second s)) (bl_out s)
       else s).

(** The rows that [write_results] appends to a CSV file, if it can be opened. *)
Record BaselineRecord := mkBaselineRecord {
  br_name : string; br_batch_size : nat; br_duration : f64; br_exp_time_in_sec : nat; br_iterations : nat;
}.
Definition write_results (opened : bool) (name : string) (duration : N) (results : list nat) : result (list BaselineRecord) unit :=
  if opened then Ok (imap (fun idx ops => mkBaselineRecord name 1 (as_secs_f64 duration) (idx + 1) ops) results) else Err tt.

(** An operation directly on the structure. *)
Definition exec_direct (d : D) (op : O) : res (R * D) :=
  match op with
  | ReadOperation o => r ← dispatch d o; Ret (r, d)
  | WriteOperation o => '(d', r) ← dispatch_mut d o; Ret (r, d')
  end.

(** The first [n] operations in turn, directly. *)
Definition direct_run (d : D) (ops : list O) (n : nat) : res (D * list R) :=
  foldM (fun '(d, rs) i => op ← vget ops (i mod length ops); '(r, d') ← exec_direct d op; Ret (d', rs ++ [r])) (d, []) (seq 0 n).

(** A loop executes the operations in turn, whatever structure stands for the data. *)
Section Baseline.
Context {X : Type} (exec : X -> O -> res (R * X)) (sim_ds : X -> D -> Prop) (ops : list O).
Hypothesis Hops : 0 < length ops.
Hypothesis Hexec : forall x d op r d', sim_ds x d -> exec_direct d op = Ret (r, d') -> exists x', exec x op = Ret (r, x') /\ sim_ds x' d'.
Hypothesis Htotal : forall d op, exists r d', exec_direct d op = Ret (r, d').

Lemma baseline_loop_S fuel (clock : nat -> N) (c : nat) e s : baseline_loop (S fuel) exec clock c e ops s =
  if (clock c <? e)%N then
    s' ← baseline_round exec ops (clock (c + 1)%nat) s; baseline_loop fuel exec clock (c + 2) e ops s'
  else Ret s.
Proof. done. Qed.

Lemma baseline_loop_spec d0 (k : nat) (clock : nat -> N) : forall (c : nat) e s d, sim_ds (bl_ds s) d ->
  direct_run d0 ops (bl_iter s) = Ret (d, bl_out s) -> (e <= clock (c + 2 * k)%nat)%N ->
  exists s' j d', baseline_loop (S k) exec clock c e ops s = Ret s' /\ j <= k /\ bl_iter s' = bl_iter s + j
    /\ sim_ds (bl_ds s') d' /\ direct_run d0 ops (bl_iter s') = Ret (d', bl_out s') /\ (e <= clock (c + 2 * j)%nat)%N.
Proof.
  induction k as [|k IH]; intros c e s d Hs Hd He.
  - rewrite baseline_loop_S. rewrite Nat.add_0_r in He. destruct (N.ltb_spec (clock c) e); [lia|].
    exists s, 0, d. rewrite !Nat.add_0_r. done.
  - rewrite baseline_loop_S. destruct (N.ltb_spec (clock c) e) as [_|Hge]; [|exists s, 0, d; rewrite !Nat.add_0_r; split_and!; try done; lia].
    destruct (lookup_lt_is_Some_2 ops (bl_iter s mod length ops)) as [op Hop]; [apply Nat.mod_upper_bound; lia|].
    destruct (Htotal d op) as (r & d1 & E1). destruct (Hexec _ _ _ _ _ Hs E1) as (x1 & Ex & Hs1).
    assert (Hd1 : direct_run d0 ops (bl_iter s + 1) = Ret (d1, bl_out s ++ [r])).
    { unfold direct_run in *. rewrite seq_app, foldM_app, Hd. cbn. rewrite (vget_lookup _ _ _ Hop). cbn. by rewrite E1. }
    unfold baseline_round. destruct (Nat.eqb_spec (length ops) 0); [lia|].
    rewrite (vget_lookup _ _ _ Hop). cbn [mbind res_bind]. rewrite Ex. cbn [mbind res_bind].
    match goal with |- context [baseline_loop (S k) _ _ _ _ _ ?s1] =>
      destruct (IH (c + 2) e s1 d1) as (s' & j & d' & E & Hj & Hi & Hs' & Hd' & He') end.
    + by destruct (_ <=? _)%N.
    + by destruct (_ <=? _)%N.
    + by replace (c + 2 + 2 * k) with (c + 2 * S k) by lia.
    + exists s', (S j), d'. rewrite E. split_and!; try done; [lia| |].
      * rewrite Hi. destruct (_ <=? _)%N; cbn [bl_iter]; lia.
      * by replace (c + 2 * S j) with (c + 2 + 2 * j) by lia.
Qed.

Lemma baseline_bench_spec d0 (k : nat) (clock : nat -> N) duration x : sim_ds x d0 ->
  (clock 0%nat + duration <= clock (1 + 2 * k)%nat)%N ->
  exists s d', baseline_bench (S k) exec clock duration ops x = Ret s /\ sim_ds (bl_ds s) d'
    /\ direct_run d0 ops (bl_iter s) = Ret (d', bl_out s).
Proof.
  intros Hs He. unfold baseline_bench.
  destruct (baseline_loop_spec d0 k clock 1 (clock 0%nat + duration)%N (mkLine x 0 0 (clock 0%nat + LOG_PERIOD)%N [] []) d0) as (s & j & d' & E & _ & _ & Hs' & Hd & _); try done.
  rewrite E. cbn [mbind res_bind]. destruct (_ =? _)%N; eexists _, d'; by split_and!.
Qed.
End Baseline.

Lemma direct_run_prefix d ops n n' d1 r1 d2 r2 : n <= n' -> direct_run d ops n = Ret (d1, r1) -> direct_run d ops n' = Ret (d2, r2) ->
  r1 `prefix_of` r2.
Proof.
  intros Hn E1 E2. unfold direct_run in *. replace n' with (n + (n' - n)) in E2 by lia. rewrite seq_app, foldM_app, E1 in E2. cbn in E2.
  revert d1 r1 E1 E2. generalize (seq n (n' - n)). intros l. clear. intros d1 r1 _. revert d1 r1.
  induction l as [|i l IH]; intros d1 r1 E2; cbn in E2; [by ret_inv E2|].
  destruct (vget ops (i mod length ops)); [|done|done]. cbn in E2. destruct (exec_direct d1 _) as [[r d3]| |]; [|done|done]. cbn in E2.
  apply IH in E2. etransitivity; [|exact E2]. by apply prefix_app_r.
Qed.
End Bench.
Arguments ScaleBenchmark RO WO : clear implicits.
Arguments worker RO WO : clear implicits.
Arguments meter RO WO : clear implicits.
Arguments mkLine {R X} _ _ _ _ _ _.
Arguments bl_ds {R X} _.
Arguments bl_completed {R X} _.
Arguments bl_iter {R X} _.
Arguments bl_next_log {R X} _.
Arguments bl_per_second {R X} _.
Arguments bl_out {R X} _.

(** ** Benchmarks of node replication *)

Section NrBench.
Context {D RO WO R : Type} `{!Dispatch D RO WO R}.
Variable f : feature.
Variable cpuset_count : N.
Variable sched_setaffinity : list N -> Thread -> option Thread.
Variable topo : MachineTopology.
Variable dflt : D.
Variable esize : N.
Variable mem : nat.
Abbreviation nrep := (NodeReplicated D WO R Thread).
Abbreviation nds := (nr_ds f cpuset_count sched_setaffinity topo dflt esize mem).
#[local] Existing Instance nr_ds.

(** The log of [baseline_comparison]: one replica, no affinity, one thread. *)
Definition baseline_log (log_size : N) (t : Thread) : res (nrep * ThreadToken) :=
  '(r, _) ← with_log_size 1 (fun t _ => Ret (t, 0%N)) esize log_size dflt mem t;
  nr ← match r with Ok nr => Ret nr | Err OutOfMemory => Panic "Can't create NodeReplicated: OutOfMemory" end;
  '(tkn, nr) ← nr_register nr 0;
  match tkn with Some ridx => Ret (nr, ridx) | None => Panic "Failed to register with Replica." end.

Definition nr_exec (ridx : ThreadToken) (nr : nrep) (op : Operation RO WO) : res (R * nrep) :=
  match op with
  | ReadOperation o => execute f nr o ridx
  | WriteOperation o => execute_mut f nr o ridx
  end.

Definition expect_results (r : result (list BaselineRecord) unit) : res (list BaselineRecord) :=
  match r with Ok x => Ret x | Err _ => Panic "Can't write resutls" end.

(** [baseline_comparison]: what the two loops have measured and returned, and the rows
    they write. *)
Definition baseline_comparison (fuel : nat) (clock1 clock2 : nat -> N) (opened : bool) (c : TestHarness) (name : string)
    (ops : list (Operation RO WO)) (log_size : N) (t : Thread)
  : res (bline (R := R) D * bline (R := R) nrep * list BaselineRecord) :=
  let duration := th_duration c in
  s1 ← baseline_bench fuel exec_direct clock1 duration ops dflt;
  rows1 ← expect_results (write_results opened (name +:+ "-baseline") duration (bl_per_second s1));
  '(r, ridx) ← baseline_log log_size t;
  s2 ← baseline_bench fuel (nr_exec ridx) clock2 duration ops r;
  rows2 ← expect_results (write_results opened (name +:+ "-log") duration (bl_per_second s2));
  Ret (s1, s2, rows1 ++ rows2).

Lemma baseline_log_builds log_size t : 4 <= mem ->
  exists nr, baseline_log log_size t = Ret (nr, mkToken 0 1) /\ sim f dflt nr (mkSpec dflt [2]).
Proof.
  intros Hmem. unfold baseline_log, with_log_size.
  destruct (build_run f dflt false 1 (fun t _ => Ret (t, 0%N)) esize log_size (fun t => replica_new t dflt) mem t) as (r & t' & E & _ & Hr).
  - by exists 0%Z, 0%Z.
  - unfold MAX_REPLICAS_PER_LOG. lia.
  - exists (fun _ => True). split; [done|]. intros a rid _ _. by eexists _, _, _.
  - rewrite E. rewrite decide_True in Hr by lia. destruct Hr as (nr & -> & Hinv & Hregs). cbn [mbind res_bind].
    destruct (sim_call f dflt nr (mkSpec dflt [1]) (CRegister 0) (mkSpec dflt [2]) (OTkn (Some (mkToken 0 1)))) as (nr' & Ec & Hs); [by exists [], []|done|].
    cbn [nr_call] in Ec. ret_inv Ec. exists nr'. by split.
Qed.

Lemma nr_exec_sim nr d op r d' : sim f dflt nr (mkSpec d [2]) -> exec_direct d op = Ret (r, d') ->
  exists nr', nr_exec (mkToken 0 1) nr op = Ret (r, nr') /\ sim f dflt nr' (mkSpec d' [2]).
Proof.
  intros Hs E. destruct op as [o|o]; cbn [exec_direct] in E; ret_inv E.
  - destruct (sim_call f dflt nr (mkSpec d' [2]) (CRead (mkToken 0 1) o) (mkSpec d' [2]) (OResp r)) as (nr' & Ec & Hs'); [done| |].
    { cbn. match goal with H : _ = Ret _ |- _ => by rewrite H end. }
    cbn [nr_call] in Ec. ret_inv Ec. by eexists.
  - destruct (sim_call f dflt nr (mkSpec d [2]) (CWrite (mkToken 0 1) o) (mkSpec d' [2]) (OResp r)) as (nr' & Ec & Hs'); [done| |].
    { cbn. match goal with H : _ = Ret _ |- _ => by rewrite H end. }
    cbn [nr_call] in Ec. ret_inv Ec. by eexists.
Qed.

(** The log does not change what a benchmark computes.  [baseline_comparison] executes
    its operations in turn, first on the structure itself and then through a log with
    one replica, each until its time is over.  Both loops end, and the responses of the
    shorter one are the first responses of the longer one; a row is written for every
    second kept of either. *)
Theorem baseline_agrees (k : nat) (clock1 clock2 : nat -> N) c name ops log_size t :
  let duration := th_duration c in
  0 < length ops -> 4 <= mem ->
  (forall d o, exists r, dispatch d o = Ret r) -> (forall d o, exists d' r, dispatch_mut d o = Ret (d', r)) ->
  (clock1 0%nat + duration <= clock1 (1 + 2 * k)%nat)%N -> (clock2 0%nat + duration <= clock2 (1 + 2 * k)%nat)%N ->
  exists s1 s2 rows, baseline_comparison (S k) clock1 clock2 true c name ops log_size t = Ret (s1, s2, rows)
    /\ length rows = length (bl_per_second s1) + length (bl_per_second s2)
    /\ if bl_iter s1 <=? bl_iter s2 then bl_out s1 `prefix_of` bl_out s2 else bl_out s2 `prefix_of` bl_out s1.
Proof.
  cbn zeta. set (duration := th_duration c). intros Hops Hmem Hro Hwo H1 H2. unfold baseline_comparison. fold duration.
  assert (Htot : forall d op, exists r d', exec_direct (R := R) d op = Ret (r, d')).
  { intros d [o|o]; cbn; [destruct (Hro d o) as [r ->]|destruct (Hwo d o) as (d' & r & ->)]; by eexists _, _. }
  destruct (baseline_bench_spec exec_direct eq ops Hops ltac:(by intros ? ? ? ? ? ->; eauto) Htot dflt k clock1 duration dflt eq_refl H1)
    as (s1 & d1 & E1 & _ & Hd1). rewrite E1. cbn [mbind res_bind write_results expect_results].
  destruct (baseline_log_builds log_size t Hmem) as (nr & En & Hs). rewrite En. cbn [mbind res_bind].
  match goal with |- context [baseline_bench _ ?e clock2 _ _ _] =>
    destruct (baseline_bench_spec e (fun nr d => sim f dflt nr (mkSpec d [2])) ops Hops) with (3 := Hs) (4 := H2) as (s2 & d2 & E2 & _ & Hd2) end; [|done|].
  - intros x d op r d' Hx E. by apply (nr_exec_sim x d op r d').
  - eexists s1, s2, _. rewrite E2. split_and!; [done|by rewrite length_app, !length_imap|].
    destruct (Nat.leb_spec (bl_iter s1) (bl_iter s2)); [by eapply direct_run_prefix|eapply direct_run_prefix; [|exact Hd2|exact Hd1]; lia].
Qed.

(** The object of a benchmark on a machine with a node for each replica, or with two
    nodes for a NUMA run. *)
Lemma bench_ds_builds online (b : ScaleBenchmark RO WO) t :
  0 < bench_replicas b < MAX_REPLICAS_PER_LOG -> bench_replicas b + 3 <= mem -> online (th_cpu t) ->
  machine_nodes cpuset_count sched_setaffinity topo (if sb_numa b then 2 else bench_replicas b) online ->
  exists nr t', bench_ds (DsInterface0 := nds) b t = Ret (nr, t') /\ sim f dflt nr (mkSpec dflt (replicate (bench_replicas b) 1)).
Proof.
  intros [H0 Hmax] Hmem Hon Hm. unfold bench_ds. destruct (Nat.eqb_spec (bench_replicas b) 0); [lia|].
  destruct (sb_numa b); cbn; unfold nr_ds_new, nr_ds_new_numa, with_log_size, with_log_size_numa.
  - destruct (build_run f dflt true (bench_replicas b) (chg_affinity_numa cpuset_count sched_setaffinity topo) esize (sb_log_size b)
      (fun t => replica_new t dflt) mem t) as (r & t' & E & _ & Hr); [by exists 0%Z, 0%Z|done|by eapply chg_affinity_numa_safe|].
    rewrite decide_True in Hr by done. destruct Hr as (nr & -> & Hinv & Hregs). rewrite E. cbn. exists nr, t'. split; [done|]. by exists [], [].
  - destruct (build_run f dflt false (bench_replicas b) (chg_affinity cpuset_count sched_setaffinity topo) esize (sb_log_size b)
      (fun t => replica_new t dflt) mem t) as (r & t' & E & _ & Hr); [by exists 0%Z, 0%Z|done|by eapply chg_affinity_safe|].
    rewrite decide_True in Hr by done. destruct Hr as (nr & -> & Hinv & Hregs). rewrite E. cbn. exists nr, t'. split; [done|]. by exists [], [].
Qed.

(** C19: A benchmark of node replication starts.  Let [rm] be the CPUs of the replicas.  If
    there is a CPU, the sockets or caches that number the replicas are numbered from 0
    on, there is memory, a node and a slot for what is built, and the operations are
    enough for the stripe of every CPU, then [startup] builds the object and spawns one
    thread for every CPU, as many as its barrier waits for, with the stripe of its CPU;
    and in whatever order the threads register, each gets a token of its own for its
    replica. *)
Theorem benchmark_starts interleave into_iter online rm name rs ls tm ts log_size stripe_len duration operations load_vec batch_size numa t :
  let cpus := allocate interleave topo tm ts true in
  replica_core_allocation interleave topo rs tm ts = Ret rm ->
  (forall m, into_iter m ≡ₚ map_to_list m) -> cpus <> [] -> ~ (rs = RS.L1 /\ tm = NUMA) ->
  match strategy_key rs tm with
  | Some key => forall c, c ∈ cpus -> (key c < N.of_nat (length (keys key cpus)))%N
  | None => True
  end ->
  (forall c, c ∈ cpus -> (N.to_nat (cpu c) + 1) * stripe_len <= length operations) ->
  (forall r cores, rm !! r = Some cores -> length cores <= MAX_THREADS_PER_REPLICA) ->
  rm_replicas rm < MAX_REPLICAS_PER_LOG -> rm_replicas rm + 3 <= mem -> online (th_cpu t) ->
  machine_nodes cpuset_count sched_setaffinity topo (if numa : bool then 2 else rm_replicas rm) online ->
  exists b nr t' ws, bench_new interleave name topo rs ls tm ts log_size stripe_len duration operations load_vec batch_size numa = Ret b
    /\ startup (DsInterface0 := nds) into_iter b t = Ret (nr, t', length ws, ws) /\ map w_core ws ≡ₚ map cpu cpus
    /\ Forall (fun w => stripe b (w_core w) = Ret (w_ops w)) ws
    /\ forall ws', ws' ≡ₚ ws -> exists nr' tkns, register_workers (DsInterface0 := nds) nr ws' = Ret (nr', tkns)
         /\ NoDup tkns /\ map (fun t => N.of_nat (rid t)) tkns = map w_rid ws'.
Proof.
  cbn zeta. intros Erm Hiter Hne Hex Hkey Hst Hmax Hr Hmem Hon Hm. unfold bench_new. rewrite Erm. cbn [mbind res_bind].
  destruct (allocation_divides interleave topo rs tm ts Hex) as (rm' & E & [Hc Hreg] & Hth). rewrite Erm in E. injection E as <-.
  set (b := mkBench name rs tm ts ls rm log_size stripe_len operations load_vec duration batch_size numa).
  assert (H0 : 0 < bench_replicas b).
  { change (0 < rm_replicas rm). destruct (decide (rm_replicas rm = 0)) as [H0|]; [|lia]. apply map_size_empty_inv in H0 as ->.
    unfold rm_cpus in Hc. rewrite map_to_list_empty in Hc. apply Permutation_nil, map_eq_nil in Hc. by destruct Hne. }
  destruct (bench_ds_builds online b t) as (nr & t' & Ed & Hs); [by split|done|done|done|].
  destruct (bench_starts (DsLaws0 := nr_laws f cpuset_count sched_setaffinity topo dflt esize mem) into_iter b t nr t' dflt Hiter Ed Hs)
    as (ws & Es & Hw & Hf & Hall).
  - by apply Hreg.
  - exact Hmax.
  - change (sb_rm b) with rm. intros c Hin. rewrite Hc in Hin. apply list_elem_of_fmap in Hin as (ci & -> & Hci). by apply stripe_ok, Hst.
  - exists b, nr, t', ws. split_and!; [done|done|by rewrite Hw|done|done].
Qed.

(** Building replicas switches to the affinity of each of them. *)
Lemma build_replicas_switches {A} (am : AffinityManager A) mk ids : forall mem l a acc x a' i,
  build_replicas (D := D) (WO := WO) (R := R) am mk mem l a acc ids = Ret (Ok x, a') -> i ∈ ids ->
  exists a0 a1 tkn, aff_switch am a0 (N.of_nat i) = Ret (a1, tkn).
Proof.
  induction ids as [|j ids IH]; intros mem0 l a acc x a' i E Hi; [by apply not_elem_of_nil in Hi|]. cbn [build_replicas] in E.
  destruct (log_register l) as [[lt|] l1]; [|done]. destruct (aff_switch am a (N.of_nat j)) as [[a1 tkn]| |] eqn:E1; [|done|done].
  cbn [mbind res_bind] in E. destruct (aff_drop am a1 tkn) as [a2| |]; [|done|done]. cbn [mbind res_bind] in E.
  destruct (try_new mem0) as [m|]; [|done]. apply elem_of_cons in Hi as [->|Hi]; [by eexists _, _, _|]. by eapply IH.
Qed.

Lemma build_switches {A} num (af : A -> AffinityChange -> res (A * N)) size mk a nr a' i :
  build (D := D) (WO := WO) (R := R) false num af esize size mk mem a = Ret (Ok nr, a') -> i < num ->
  exists a0 a1 tkn, aff_switch (mkAff af) a0 (N.of_nat i) = Ret (a1, tkn).
Proof.
  intros E Hi. unfold build in E. destruct (num <? MAX_REPLICAS_PER_LOG); [|done]. cbn [rassert mbind res_bind] in E.
  destruct (try_new mem) as [m1|]; [|done]. cbn [mbind res_bind] in E. destruct (try_new m1) as [m2|]; [|done].
  destruct (try_new m2) as [m3|]; [|done]. destruct (build_replicas _ _ _ _ _ _ _) as [[[x|e] a2]| |] eqn:Eb; [|done..].
  eapply build_replicas_switches; [exact Eb|]. apply elem_of_seq. lia.
Qed.

(** A benchmark with more replicas than the machine has nodes does not start.  The
    affinity of a replica is that of the CPUs whose socket has its number; for a replica
    whose number is not that of a socket the set is empty, which the system call rejects,
    and [chg_affinity] panics. *)
Theorem replica_without_node into_iter (b : ScaleBenchmark RO WO) t (r : nat) :
  sb_numa b = false -> r < bench_replicas b -> cpus_on_node topo (N.of_nat r) = [] ->
  (forall t, sched_setaffinity [] t = None) ->
  forall x, startup (DsInterface0 := nds) into_iter b t <> Ret x.
Proof.
  intros Hnuma Hr Hnode Hsched x E. unfold startup, bench_ds in E. rewrite Hnuma in E.
  destruct (Nat.eqb_spec (bench_replicas b) 0); [lia|]. cbn [ds_new nr_ds] in E. unfold nr_ds_new, with_log_size in E.
  destruct (build _ _ _ _ _ _ _ _) as [[[nr|[]] t1]| |] eqn:Eb; [|done..].
  destruct (build_switches _ _ _ _ _ _ _ r Eb Hr) as (a0 & a1 & tkn & Es). unfold aff_switch in Es. cbn in Es.
  rewrite Hnode in Es. cbn in Es. unfold set_affinity in Es. by rewrite Hsched in Es.
Qed.
End NrBench.

(** ** Examples *)

(** Six threads on the two sockets of the machine of Topology, adding numbers to a
    counter, with stripes of two operations. *)
Definition bench_ops : list (Operation unit nat) := concat (map (fun i => [WriteOperation i; ReadOperation tt]) (seq 0 8)).
Definition main_thread : Thread := mkThread [0; 1; 2; 3; 4; 5; 6; 7]%N 0.

Lemma example_machine : machine_nodes 1024 (sched_below 8) example_topo 2 (fun c => (c < 8)%N).
Proof.
  split.
  - apply sched_below_call.
  - intros c Hc. lia.
  - apply list.Forall_forall, (bool_decide_unpack _). vm_compute. reflexivity.
  - intros [|[|n]] Hn; [..|lia]; eexists; apply list_elem_of_here.
Qed.

Lemma benchmark_starts_witness :
  exists b nr t' ws, bench_new example_interleave "counter" example_topo RS.Socket LS.One Sequential 6 2048 2 20000000000 bench_ops [] 1 false = Ret b
    /\ startup (DsInterface0 := nr_ds Coherent 1024 (sched_below 8) example_topo 0 192 8) map_to_list b main_thread = Ret (nr, t', length ws, ws)
    /\ map w_core ws ≡ₚ map cpu (allocate example_interleave example_topo Sequential 6 true)
    /\ Forall (fun w => stripe b (w_core w) = Ret (w_ops w)) ws
    /\ forall ws', ws' ≡ₚ ws ->
         exists nr' tkns, register_workers (DsInterface0 := nr_ds Coherent 1024 (sched_below 8) example_topo 0 192 8) nr ws' = Ret (nr', tkns)
           /\ NoDup tkns /\ map (fun t => N.of_nat (rid t)) tkns = map w_rid ws'.
Proof.
  apply (benchmark_starts Coherent 1024 (sched_below 8) example_topo 0 192 8 example_interleave map_to_list (fun c => (c < 8)%N)
    {[ 0%N := [0; 1; 4; 5]%N; 1%N := [2; 3]%N ]} "counter" RS.Socket LS.One Sequential 6 2048 2 20000000000 bench_ops [] 1 false).
  - vm_compute. reflexivity.
  - done.
  - vm_compute. discriminate.
  - intros [H _]. discriminate H.
  - cbn [strategy_key]. apply list.Forall_forall, (bool_decide_unpack _). vm_compute. reflexivity.
  - apply list.Forall_forall, (bool_decide_unpack _). vm_compute. reflexivity.
  - intros r cores [(<- & <-)|(_ & H)]%lookup_insert_Some; [cbn; unfold MAX_THREADS_PER_REPLICA; lia|].
    apply lookup_singleton_Some in H as [<- <-]. cbn. unfold MAX_THREADS_PER_REPLICA. lia.
  - vm_compute. lia.
  - vm_compute. lia.
  - vm_compute. reflexivity.
  - exact example_machine.
Defined.

(** One replica for each of three threads: there is no third node. *)
Definition bench_per_thread : ScaleBenchmark unit nat :=
  mkBench "counter" RS.PerThread Sequential 3 LS.One {[ 0%N := [0%N]; 1%N := [1%N]; 2%N := [4%N] ]} 2048 0 bench_ops [] 2000000000 2 false.
Lemma replica_without_node_witness :
  replica_core_allocation example_interleave example_topo RS.PerThread Sequential 3 = Ret (sb_rm bench_per_thread)
  /\ forall x, startup (DsInterface0 := nr_ds Coherent 1024 (sched_below 8) example_topo 0 192 8) map_to_list bench_per_thread main_thread <> Ret x.
Proof.
  split; [vm_compute; reflexivity|].
  apply (replica_without_node Coherent 1024 (sched_below 8) example_topo 0 192 8 map_to_list bench_per_thread main_thread 2); try reflexivity.
  vm_compute. lia.
Defined.

(** A clock that advances by 400 ms with every reading: three rounds in two seconds. *)
Definition bench_clock (n : nat) : N := (400000000 * N.of_nat n)%N.
Definition bench_2s : ScaleBenchmark unit nat :=
  mkBench "counter" RS.One Sequential 1 LS.One {[ 0%N := [0%N] ]} 2048 0 bench_ops [] 2000000000 2 false.

Lemma worker_measures_witness :
  exists m j, run_worker 4 bench_clock bench_2s bench_ops = Ret m /\ j <= 3 /\ length (m_done m) = j * 2
    /\ (forall i x, m_done m !! i = Some x -> bench_ops !! (i mod 16) = Some x)
    /\ m_ttl m + m_completed m = length (m_done m) /\ (bench_clock 0 + 2000000000 <= bench_clock (1 + 2 * j)%nat)%N.
Proof.
  apply (worker_measures bench_2s bench_clock bench_ops 3); [cbn; lia|]. vm_compute. discriminate.
Defined.

(** The same loop for half a second, by a clock that stops at 600 ms. *)
Definition bench_500ms : ScaleBenchmark unit nat :=
  mkBench "counter" RS.One Sequential 1 LS.One {[ 0%N := [0%N] ]} 2048 0 bench_ops [] 500000000 2 false.
Definition short_clock (n : nat) : N := (200000000 * N.of_nat (n `min` 3))%N.

Lemma short_benchmark_panics_witness :
  exists results, [run_worker 4 short_clock bench_500ms bench_ops] = map Ret results
    /\ terminate true bench_500ms (zip_with thread_result [0%N] results) = Panic "called `Option::unwrap()` on a `None` value".
Proof.
  apply (short_benchmark_panics bench_500ms true [0%N] [(short_clock, bench_ops)] [run_worker 4 short_clock bench_500ms bench_ops] 3).
  - constructor; [|constructor]. split_and!; [cbn; lia|vm_compute; discriminate|]. intros i. unfold short_clock, LOG_PERIOD. cbn. lia.
  - constructor; [reflexivity|constructor].
Defined.

(** A comparison in which the log is slower: the responses of its three operations. *)
Lemma baseline_agrees_witness :
  exists s1 s2 rows, baseline_comparison Coherent 0 192 8 4 (fun n => 300000000 * N.of_nat n)%N bench_clock true (mkHarness 2000000000) "counter" bench_ops 2048 main_thread
      = Ret (s1, s2, rows)
    /\ length rows = length (bl_per_second s1) + length (bl_per_second s2)
    /\ if bl_iter s1 <=? bl_iter s2 then bl_out s1 `prefix_of` bl_out s2 else bl_out s2 `prefix_of` bl_out s1.
Proof.
  apply (baseline_agrees Coherent 0 192 8 3); [cbn; lia|lia|intros; by eexists|intros; by eexists _, _|vm_compute; discriminate|vm_compute; discriminate].
Defined.
