(* ===== verification/BenchBuild.v ===== *)
(** * Configuring benchmarks (bench_utils/src/mkbench.rs)

    [ScaleBenchBuilder] collects strategies, mappings, numbers of threads and batch sizes
    and runs a benchmark for every combination of them.  The theorems: the default
    numbers of threads, and that [configure] runs each combination once. *)

From Stdlib Require Import Sorting.Permutation Sorting.Sorted.
From stdpp Require Import gmap.
From S2P Require Import Prelude Log Replica NodeReplicated NodeReplicatedSpec Topology GcdFfi Bench.
From S2P Require Import NrLog NrTheorems BenchRun.

(** ** All combinations *)

Section Loops.
Context {RSt X : Type}.

(** The loops of [configure] and [configure_new]: [run] is the body. *)
Definition configure_loops (run : RSt -> LS.LogStrategy -> ThreadMapping -> nat -> nat -> res X)
    (rss : list RSt) (lss : list LS.LogStrategy) (tms : list ThreadMapping) (tss batches : list nat) : res (list X) :=
  foldM (fun runs rs => foldM (fun runs ls => foldM (fun runs tm => foldM (fun runs ts => foldM (fun runs n =>
    r ← run rs ls tm ts n;
    Ret (runs ++ [r])) runs batches) runs tss) runs tms) runs lss) [] rss.

(** Every combination, in the order of the loops. *)
Definition configs (rss : list RSt) (lss : list LS.LogStrategy) (tms : list ThreadMapping) (tss batches : list nat)
  : list (RSt * LS.LogStrategy * ThreadMapping * nat * nat) :=
  concat (map (fun rs => concat (map (fun ls => concat (map (fun tm => concat (map (fun ts =>
    concat (map (fun n => [(rs, ls, tm, ts, n)]) batches)) tss)) tms)) lss)) rss).

Lemma foldM_collect {Y Z K} (key : Z -> K) (ks : Y -> list K) (body : list Z -> Y -> res (list Z)) xs : forall ys ys',
  (forall ys x ys', body ys x = Ret ys' -> exists l, ys' = ys ++ l /\ map key l = ks x) ->
  foldM body ys xs = Ret ys' -> exists l, ys' = ys ++ l /\ map key l = concat (map ks xs).
Proof.
  induction xs as [|x xs IH]; intros ys ys' Hb E; cbn [foldM] in E; [ret_inv E; exists []; by rewrite app_nil_r|].
  destruct (body ys x) as [y1| |] eqn:E1; [|done|done]. cbn [mbind res_bind] in E. destruct (Hb _ _ _ E1) as (l1 & -> & H1).
  destruct (IH _ _ Hb E) as (l2 & -> & H2). exists (l1 ++ l2). cbn. by rewrite <- app_assoc, map_app, H1, H2.
Qed.

Lemma configure_loops_all run key rss lss tms tss batches runs :
  (forall rs ls tm ts n r, run rs ls tm ts n = Ret r -> key r = (rs, ls, tm, ts, n)) ->
  configure_loops run rss lss tms tss batches = Ret runs -> map key runs = configs rss lss tms tss batches.
Proof.
  intros Hrun E. unfold configure_loops in E.
  assert (H : exists l, runs = [] ++ l /\ map key l = configs rss lss tms tss batches); [|by destruct H as (l & -> & H)].
  unfold configs. eapply foldM_collect; [|exact E]. clear E runs. intros runs rs runs' E.
  eapply foldM_collect; [|exact E]. clear E runs. intros runs ls runs1 E.
  eapply foldM_collect; [|exact E]. clear E runs. intros runs tm runs2 E.
  eapply foldM_collect; [|exact E]. clear E runs. intros runs ts runs3 E.
  eapply foldM_collect; [|exact E]. clear E runs. intros runs n runs4 E.
  ret_inv E. eexists. split; [done|]. cbn. by erewrite Hrun.
Qed.
End Loops.

(** [(0..n).step_by(step)]. *)
Definition step_by (n step : nat) : res (list nat) :=
  if step =? 0 then Panic "assertion failed: step != 0"
  else Ret (map (fun i => i * step) (seq 0 ((n + step - 1) / step))).

(** ** The builder *)

Section Builder.
Context {DS RO WO R : Type} `{!DsInterface DS RO WO R}.
Abbreviation O := (Operation RO WO).

(** [ScaleBenchBuilder]. *)
Record ScaleBenchBuilder := mkBuilder {
  bb_replica_strategies : list RS.ReplicaStrategy; bb_log_strategies : list LS.LogStrategy;
  bb_thread_mappings : list ThreadMapping; bb_threads : list nat; bb_batches : list nat;
  bb_log_size : N; bb_stripe_len : nat; bb_operations : list O; bb_load_vec : list O; bb_numa : bool;
}.
Implicit Types (b : ScaleBenchBuilder).

Definition builder_new (ops : list O) : ScaleBenchBuilder :=
  mkBuilder [] [] [] [] [1] DEFAULT_LOG_BYTES 0 ops [] false.

Definition set_bb_threads b (l : list nat) : ScaleBenchBuilder :=
  mkBuilder (bb_replica_strategies b) (bb_log_strategies b) (bb_thread_mappings b) l (bb_batches b) (bb_log_size b)
    (bb_stripe_len b) (bb_operations b) (bb_load_vec b) (bb_numa b).
Definition set_bb_batches b (l : list nat) : ScaleBenchBuilder :=
  mkBuilder (bb_replica_strategies b) (bb_log_strategies b) (bb_thread_mappings b) (bb_threads b) l (bb_log_size b)
    (bb_stripe_len b) (bb_operations b) (bb_load_vec b) (bb_numa b).

Definition builder_threads b (t : nat) : ScaleBenchBuilder := set_bb_threads b (bb_threads b ++ [t]).
Definition add_batch b (n : nat) : ScaleBenchBuilder := set_bb_batches b (bb_batches b ++ [n]).
Definition update_batch b (n : nat) : ScaleBenchBuilder := set_bb_batches b [n].
Definition thread_mapping b (tm : ThreadMapping) : ScaleBenchBuilder :=
  mkBuilder (bb_replica_strategies b) (bb_log_strategies b) (bb_thread_mappings b ++ [tm]) (bb_threads b) (bb_batches b)
    (bb_log_size b) (bb_stripe_len b) (bb_operations b) (bb_load_vec b) (bb_numa b).
Definition replica_strategy b (rs : RS.ReplicaStrategy) : ScaleBenchBuilder :=
  mkBuilder (bb_replica_strategies b ++ [rs]) (bb_log_strategies b) (bb_thread_mappings b) (bb_threads b) (bb_batches b)
    (bb_log_size b) (bb_stripe_len b) (bb_operations b) (bb_load_vec b) (bb_numa b).
Definition log_strategy b (ls : LS.LogStrategy) : ScaleBenchBuilder :=
  mkBuilder (bb_replica_strategies b) (bb_log_strategies b ++ [ls]) (bb_thread_mappings b) (bb_threads b) (bb_batches b)
    (bb_log_size b) (bb_stripe_len b) (bb_operations b) (bb_load_vec b) (bb_numa b).
Definition builder_log_size b (n : N) : ScaleBenchBuilder :=
  mkBuilder (bb_replica_strategies b) (bb_log_strategies b) (bb_thread_mappings b) (bb_threads b) (bb_batches b)
    n (bb_stripe_len b) (bb_operations b) (bb_load_vec b) (bb_numa b).
Definition loadop_vec b (l : list O) : ScaleBenchBuilder :=
  mkBuilder (bb_replica_strategies b) (bb_log_strategies b) (bb_thread_mappings b) (bb_threads b) (bb_batches b)
    (bb_log_size b) (bb_stripe_len b) (bb_operations b) l (bb_numa b).
Definition op_stripe_len b (n : nat) : ScaleBenchBuilder :=
  mkBuilder (bb_replica_strategies b) (bb_log_strategies b) (bb_thread_mappings b) (bb_threads b) (bb_batches b)
    (bb_log_size b) n (bb_operations b) (bb_load_vec b) (bb_numa b).
Definition set_numa b (x : bool) : ScaleBenchBuilder :=
  mkBuilder (bb_replica_strategies b) (bb_log_strategies b) (bb_thread_mappings b) (bb_threads b) (bb_batches b)
    (bb_log_size b) (bb_stripe_len b) (bb_operations b) (bb_load_vec b) x.

Definition thread_defaults (topology : MachineTopology) b : res ScaleBenchBuilder :=
  let max_cores := if bb_numa b then cores topology / 2 else cores topology in
  s0 ← vget (sockets topology) 0;
  let step_size := length (cpus_on_socket topology s0) / 4 in
  ts ← step_by (max_cores + 1) step_size;
  let b := foldl (fun b t => if t =? 0 then builder_threads b (t + 1) else builder_threads b t) b ts in
  Ret (set_bb_threads b (sort_by Nat.leb (bb_threads b))).

(** [machine_defaults], without the feature [exhaustive]. *)
Definition machine_defaults (topology : MachineTopology) b : res ScaleBenchBuilder :=
  thread_defaults topology (replica_strategy (thread_mapping b Sequential) RS.Socket).

(** The configuration of one benchmark, and all those of the builder. *)
Definition config_of {X} (r : ScaleBenchmark RO WO * X) : RS.ReplicaStrategy * LS.LogStrategy * ThreadMapping * nat * nat :=
  (sb_rs r.1, sb_ls r.1, sb_tm r.1, sb_ts r.1, sb_batch_size r.1).

Definition builder_configs b : list (RS.ReplicaStrategy * LS.LogStrategy * ThreadMapping * nat * nat) :=
  configs (bb_replica_strategies b) (bb_log_strategies b) (bb_thread_mappings b) (bb_threads b) (bb_batches b).

Section Configure.
Variable interleave : list CpuInfo -> list CpuInfo -> list CpuInfo.
Variable into_iter : rmap -> list (N * list N).
(** What the threads of a benchmark return, and whether the CSV file can be opened. *)
Variable joined : ScaleBenchmark RO WO -> DS -> list (worker RO WO) -> list (N * N * list N).
Variable opened : bool.

(** One benchmark: [new], [startup], [terminate]. *)
Definition run_one (topology : MachineTopology) (name : string) (duration : N) b (t : Thread) rs ls tm ts n
  : res (ScaleBenchmark RO WO * report) :=
  runner ← bench_new interleave name topology rs ls tm ts (bb_log_size b) (bb_stripe_len b) duration
             (bb_operations b) (bb_load_vec b) n (bb_numa b);
  '(ds, _, _, ws) ← startup into_iter runner t;
  r ← terminate opened runner (joined runner ds ws);
  match r with Ok (rep, _) => Ret (runner, rep) | Err _ => Panic "Couldn't terminate the experiment" end.

Definition run_one_new (topology : MachineTopology) (name : string) (duration : N) b (t : Thread) rs ls tm ts n
  : res (ScaleBenchmark RO WO * (N * f64)) :=
  runner ← bench_new interleave name topology rs ls tm ts (bb_log_size b) (bb_stripe_len b) duration
             (bb_operations b) (bb_load_vec b) n (bb_numa b);
  '(ds, _, _, ws) ← startup_new into_iter runner t;
  rep ← terminate_new (joined runner ds ws);
  Ret (runner, rep).

(** The benchmarks they run, with their reports; [t] is the calling thread. *)
Definition configure (c : TestHarness) (topology : MachineTopology) (name : string) b (t : Thread)
  : res (list (ScaleBenchmark RO WO * report)) :=
  configure_loops (run_one topology name (th_duration c) b t)
    (bb_replica_strategies b) (bb_log_strategies b) (bb_thread_mappings b) (bb_threads b) (bb_batches b).
Definition configure_new (c : TestHarness) (topology : MachineTopology) (name : string) b (t : Thread)
  : res (list (ScaleBenchmark RO WO * (N * f64))) :=
  configure_loops (run_one_new topology name (th_duration c) b t)
    (bb_replica_strategies b) (bb_log_strategies b) (bb_thread_mappings b) (bb_threads b) (bb_batches b).

Lemma run_one_config topology name duration b t rs ls tm ts n r :
  run_one topology name duration b t rs ls tm ts n = Ret r -> config_of r = (rs, ls, tm, ts, n).
Proof.
  unfold run_one, bench_new. destruct (replica_core_allocation _ _ _ _ _) as [rm| |]; [|done|done]. cbn [mbind res_bind].
  destruct (startup _ _ _) as [[[[ds t'] k] ws]| |]; [|done|done]. cbn [mbind res_bind]. destruct (terminate _ _ _) as [[[rep recs]|e]| |]; [|done..].
  cbn [mbind res_bind]. by intros [= <-].
Qed.

Lemma run_one_new_config topology name duration b t rs ls tm ts n r :
  run_one_new topology name duration b t rs ls tm ts n = Ret r -> config_of r = (rs, ls, tm, ts, n).
Proof.
  unfold run_one_new, bench_new. destruct (replica_core_allocation _ _ _ _ _) as [rm| |]; [|done|done]. cbn [mbind res_bind].
  destruct (startup_new _ _ _) as [[[[ds t'] k] ws]| |]; [|done|done]. cbn [mbind res_bind]. destruct (terminate_new _) as [rep| |]; [|done..].
  cbn [mbind res_bind]. by intros [= <-].
Qed.

(** [configure] and [configure_new] run one benchmark for every combination of replica
    strategy, log strategy, thread mapping, number of threads and batch size that the
    builder has been given, in the order of the loops, unless one of them panics. *)
Theorem configure_runs_all c topology name b t :
  (forall runs, configure c topology name b t = Ret runs -> map config_of runs = builder_configs b)
  /\ (forall runs, configure_new c topology name b t = Ret runs -> map config_of runs = builder_configs b).
Proof.
  split; intros runs; apply configure_loops_all; intros *; [apply run_one_config|apply run_one_new_config].
Qed.
End Configure.

(** *** Default numbers of threads *)

Lemma foldl_threads ts b : bb_threads (foldl (fun b t => if t =? 0 then builder_threads b (t + 1) else builder_threads b t) b ts)
  = bb_threads b ++ map (fun t => if t =? 0 then 1 else t) ts.
Proof.
  revert b. induction ts as [|t ts IH]; intros b; cbn; [by rewrite app_nil_r|]. rewrite IH. destruct (t =? 0) eqn:E; cbn; rewrite <- app_assoc; [|done].
  apply Nat.eqb_eq in E as ->. done.
Qed.

Lemma step_by_spec n step : 0 < step -> exists l, step_by (n + 1) step = Ret (0 :: l)
  /\ forall t, t ∈ l <-> 0 < t <= n /\ t mod step = 0.
Proof.
  intros Hs. unfold step_by. destruct (Nat.eqb_spec step 0); [lia|].
  assert (Hc : (n + 1 + step - 1) / step = S (n / step)).
  { replace (n + 1 + step - 1) with (n + 1 * step) by lia. rewrite Nat.div_add by lia. lia. }
  rewrite Hc. eexists. split; [cbn; done|]. intros t. rewrite list_elem_of_fmap. split.
  - intros (i & -> & Hi%elem_of_seq). assert (i * step <= n); [|split; [nia|by rewrite Nat.Div0.mod_mul]].
    transitivity (n / step * step); [apply Nat.mul_le_mono_r; lia|]. rewrite Nat.mul_comm. by apply Nat.Div0.mul_div_le.
  - intros [Ht Hm]. exists (t / step). pose proof (Nat.div_mod t step). split; [lia|]. rewrite elem_of_seq. split.
    + destruct (t / step); nia.
    + assert (t / step <= n / step) by (apply Nat.Div0.div_le_mono; lia). lia.
Qed.

(** The default numbers of threads.  On a machine whose first socket has four CPUs or
    more, [thread_defaults] adds 1 and the multiples of a quarter of that socket up to
    the CPUs of the machine, or of half of it for a NUMA run, and sorts the numbers; with
    fewer CPUs on the socket it panics, because the step would be 0. *)
Theorem thread_defaults_correct (topo : MachineTopology) b s0 ss :
  sockets topo = s0 :: ss ->
  let step := length (cpus_on_socket topo s0) / 4 in
  let max := if bb_numa b then cores topo / 2 else cores topo in
  match thread_defaults topo b with
  | Ret b' => 0 < step /\ StronglySorted Nat.le (bb_threads b')
      /\ exists ts, bb_threads b' ≡ₚ bb_threads b ++ 1 :: ts /\ forall t, t ∈ ts <-> 0 < t <= max /\ t mod step = 0
  | Panic _ => step = 0
  | Spin => False
  end.
Proof.
  intros Hs. cbn zeta. unfold thread_defaults. rewrite Hs. cbn [vget lookup list_lookup mbind res_bind].
  set (step := length _ / 4). set (max := if bb_numa b then _ else _). destruct (decide (step = 0)) as [->|Hne]; [done|].
  destruct (step_by_spec max step) as (l & E & Hl); [lia|]. rewrite E. cbn [mbind res_bind]. split_and!; [lia| |].
  - cbn [bb_threads set_bb_threads]. apply sort_by_sorted; [intros x y z; apply Nat.le_trans|intros x y ?%Nat.leb_le; done|intros x y ?%Nat.leb_gt; unfold Nat.le; lia].
  - exists l. split; [|done]. cbn [bb_threads set_bb_threads]. rewrite sort_by_perm, foldl_threads. cbn [map Nat.eqb].
    apply Permutation_app_head. constructor. rewrite (map_ext_in _ id); [by rewrite map_id|].
    intros t Ht%list_elem_of_In%Hl. destruct (Nat.eqb_spec t 0); [lia|done].
Qed.
End Builder.


(** ** Examples *)

Lemma thread_defaults_correct_witness :
  let b := builder_new bench_ops in
  match thread_defaults example_topo b with
  | Ret b' => 0 < 1 /\ StronglySorted Nat.le (bb_threads b')
      /\ exists ts, bb_threads b' ≡ₚ bb_threads b ++ 1 :: ts /\ forall t, t ∈ ts <-> 0 < t <= 8 /\ t mod 1 = 0
  | Panic _ => 1 = 0
  | Spin => False
  end.
Proof.
  exact (thread_defaults_correct example_topo (builder_new bench_ops) 0%N [1%N] eq_refl).
Defined.

(** Two numbers of threads, with one log and threads in sequence. *)
Definition example_builder : ScaleBenchBuilder :=
  builder_threads (builder_threads (thread_mapping (log_strategy (replica_strategy (builder_new bench_ops) RS.Socket) LS.One) Sequential) 2) 4.
Definition example_joined (b : ScaleBenchmark unit nat) (nr : NodeReplicated nat nat nat Thread) (ws : list (worker unit nat))
  : list (N * N * list N) := map (fun w => (w_core w, 1000%N, [1000000%N])) ws.

Lemma configure_runs_all_witness :
  exists runs, configure (DsInterface0 := nr_ds Coherent 1024 (sched_below 8) example_topo 0 192 8) example_interleave map_to_list example_joined true
      (harness_default false) example_topo "counter" example_builder main_thread = Ret runs
    /\ map config_of runs = [(RS.Socket, LS.One, Sequential, 2, 1); (RS.Socket, LS.One, Sequential, 4, 1)].
Proof.
  eexists. split; [vm_compute; reflexivity|].
  apply (configure_runs_all (DsInterface0 := nr_ds Coherent 1024 (sched_below 8) example_topo 0 192 8) example_interleave map_to_list example_joined true
      (harness_default false) example_topo "counter" example_builder main_thread). vm_compute. reflexivity.
Defined.
