(* ===== verification/Workload.v ===== *)
(** * Workloads of the custom benchmark (custom_bench/structs.rs, help_fn.rs)

    The hash map that the benchmark replicates, the operations that it executes, and where
    they come from: a text file or a random generator.  The theorems: a workload that is
    written to a file is read back, the generator keeps the ratio of writes, different
    numbers give different keys, and prepopulating the map ends with the keys that were
    asked for.

    Text is the list of its characters, as code points.  The lines of a file, the random
    numbers, the order that [shuffle] gives a vector and the order in which a [HashSet] is
    iterated are arguments. *)

From Stdlib Require Import Floats.SpecFloat.
From stdpp Require Import gmap.
From S2P Require Import Prelude Log NrLog Replica NodeReplicated NodeReplicatedSpec NrTheorems GcdFfi.
From S2P Require Import Bench BenchRun.

(** ** Text *)

Abbreviation str := (list N).
Definition codes (s : string) : str := map (fun c => Ascii.N_of_ascii c) (String.list_ascii_of_string s).

(** [char::is_whitespace]. *)
Definition is_whitespace (c : N) : bool :=
  ((9 <=? c) && (c <=? 13) || (c =? 32) || (c =? 0x85) || (c =? 0xA0) || (c =? 0x1680) || (0x2000 <=? c) && (c <=? 0x200A)
   || (c =? 0x2028) || (c =? 0x2029) || (c =? 0x202F) || (c =? 0x205F) || (c =? 0x3000))%N.

(** [str::split_whitespace]; [w] is the word that has begun. *)
Definition flush (w : str) : list str := match w with [] => [] | _ => [w] end.
Fixpoint split_from (w s : str) : list str :=
  match s with
  | [] => flush w
  | c :: s' => if is_whitespace c then flush w ++ split_from [] s' else split_from (w ++ [c]) s'
  end.
Definition split_whitespace (s : str) : list str := split_from [] s.

(** [str::replace] with the empty string, for a pattern that is not empty. *)
Fixpoint remove_from (fuel : nat) (pat s : str) : str :=
  match fuel, s with
  | S fuel', c :: s' =>
      if decide (take (length pat) s = pat) then remove_from fuel' pat (drop (length pat) s) else c :: remove_from fuel' pat s'
  | _, _ => []
  end.
Definition remove_all (pat s : str) : str := remove_from (length s) pat s.

(** [str::as_bytes]: UTF-8. *)
Definition utf8 (c : N) : list N :=
  (if c <? 0x80 then [c]
   else if c <? 0x800 then [0xC0 + c / 64; 0x80 + c mod 64]
   else if c <? 0x10000 then [0xE0 + c / 4096; 0x80 + c / 64 mod 64; 0x80 + c mod 64]
   else [0xF0 + c / 262144; 0x80 + c / 4096 mod 64; 0x80 + c / 64 mod 64; 0x80 + c mod 64])%N.
Definition as_bytes (s : str) : list N := concat (map utf8 s).

(** [u64::from_le_bytes] and [u64::to_be_bytes]. *)
Definition from_le_bytes (b : list N) : N := foldr (fun x v => x + 256 * v)%N 0%N b.
Fixpoint le_bytes (n : nat) (v : N) : list N :=
  match n with 0 => [] | S n' => (v mod 256)%N :: le_bytes n' (v / 256) end.
Definition to_be_bytes (v : N) : list N := rev (le_bytes 8 v).

(** ** The hash map and its operations *)

(** A key is 24 bytes. *)
Abbreviation GcdKey := (list N).

(** [GcdKey::new]. *)
Definition gcd_key_new (key_str : str) : GcdKey :=
  let k := map (fun c => c mod 256)%N (take 24 key_str) in k ++ replicate (24 - length k) 0%N.

Definition concatenate_u64 (value1 value2 value3 : N) : list N := to_be_bytes value1 ++ to_be_bytes value2 ++ to_be_bytes value3.

Inductive WlModify := WlPut (key : GcdKey) (val : N) | WlCheckPut (key : GcdKey) (val : N) | WlDelete (key : GcdKey).
Inductive WlAccess := WlGet (key : GcdKey).

Definition wl_dispatch (storage : gmap GcdKey N) (op : WlAccess) : res (option N) :=
  match op with WlGet key => Ret (storage !! key) end.
Definition wl_dispatch_mut (storage : gmap GcdKey N) (op : WlModify) : res (gmap GcdKey N * option N) :=
  match op with
  | WlPut key value => Ret (<[key := value]> storage, storage !! key)
  | WlCheckPut key value => match storage !! key with None => Ret (<[key := value]> storage, None) | Some _ => Ret (storage, None) end
  | WlDelete key => Ret (delete key storage, storage !! key)
  end.

Inductive OpCode := OcPut | OcGet | OcCheckPut | OcDelete.
Definition opcode_from_str (input : str) : result OpCode unit :=
  if decide (input = codes "Put") then Ok OcPut
  else if decide (input = codes "Get") then Ok OcGet
  else if decide (input = codes "CheckPut") then Ok OcCheckPut
  else if decide (input = codes "Delete") then Ok OcDelete
  else Err tt.

Record Ops := mkOps { op_opcode : OpCode; op_key : GcdKey; op_val : N }.

Definition ops_new (opcode : OpCode) (key : GcdKey) (val_str : str) : Ops :=
  let val_bytes := as_bytes val_str in
  mkOps opcode key (if length val_bytes =? 8 then from_le_bytes val_bytes else 0%N).

(** What the benchmark executes for an operation. *)
Definition op_call (op : Ops) : WlModify + WlAccess :=
  match op_opcode op with
  | OcGet => inr (WlGet (op_key op))
  | OcCheckPut => inl (WlCheckPut (op_key op) (op_val op))
  | OcPut => inl (WlPut (op_key op) (op_val op))
  | OcDelete => inl (WlDelete (op_key op))
  end.

(** ** Reading a workload *)

(** [file] is the result of opening the file: what [lines] yields for each line. *)
Definition read_line (operations : list Ops) (line : str) : list Ops :=
  match split_whitespace line with
  | p0 :: p1 :: p2 :: _ =>
      let opcode := match opcode_from_str p0 with Ok o => o | Err _ => OcPut end in
      operations ++ [ops_new opcode (gcd_key_new p1) (remove_all (codes "field0=") p2)]
  | _ => operations
  end.
Fixpoint read_lines {E} (operations : list Ops) (lines : list (result str E)) : result (list Ops) E :=
  match lines with
  | [] => Ok operations
  | Ok line :: lines' => read_lines (read_line operations line) lines'
  | Err e :: _ => Err e
  end.
Definition read_workload_file {E} (file : result (list (result str E)) E) : result (list Ops) E :=
  match file with Ok lines => read_lines [] lines | Err e => Err e end.

(** ** Generating a workload *)

(** [sample] and [gen_range] give the number of an operation, [next_u64] its value. *)
Definition wl_generate_operations (sample gen_range next_u64 : nat -> N) (shuffle : list Ops -> list Ops)
    (nop write_ratio : nat) (distribution : string) : res (list Ops) :=
  if decide (distribution = "skewed" \/ distribution = "uniform") then
    let skewed := bool_decide (distribution = "skewed") in
    Ret (shuffle (map (fun idx =>
      let id := if skewed then sample idx else gen_range idx in
      let key := concatenate_u64 id id id in
      if idx mod 100 <? write_ratio then mkOps OcPut key (next_u64 idx) else mkOps OcGet key 0) (seq 0 nop)))
  else Panic "assertion failed".

(** [f64 as usize]: towards zero, between the bounds of [usize]. *)
Definition f64_as_usize (x : f64) : N :=
  match x with
  | S754_finite false m e => N.min (usize_size - 1) (Z.to_N (if (0 <=? e)%Z then Z.pos m * 2 ^ e else Z.pos m / 2 ^ (- e))%Z)
  | S754_infinity false => (usize_size - 1)%N
  | _ => 0%N
  end.

(** The loop of [prepopulate] that collects the keys; [i] counts the random numbers. *)
Fixpoint prepopulate_keys (fuel : nat) (gen_range : nat -> N) (num_key : nat) (i : nat) (keys : gset GcdKey) : res (gset GcdKey) :=
  match fuel with
  | 0 => Spin
  | S fuel' =>
      let id := gen_range i in
      let key := concatenate_u64 id id id in
      if decide (key ∈ keys) then prepopulate_keys fuel' gen_range num_key (S i) keys
      else
        let keys := {[ key ]} ∪ keys in
        if num_key <=? size keys then Ret keys else prepopulate_keys fuel' gen_range num_key (S i) keys
  end.

(** ** Reading back what was written *)

(** A character that text files and words keep as it is. *)
Definition plain_char (c : N) : Prop := (c < 128)%N /\ is_whitespace c = false.

Lemma split_word k : forall w s, Forall (fun c => is_whitespace c = false) k -> split_from w (k ++ s) = split_from (w ++ k) s.
Proof.
  induction k as [|c k IH]; intros w s Hk; [by rewrite app_nil_r|]. apply list.Forall_cons in Hk as [Hc Hk]. cbn. rewrite Hc, IH by done.
  by rewrite <- app_assoc.
Qed.

(** Words between blanks. *)
Definition word (w : str) : Prop := w <> [] /\ Forall (fun c => is_whitespace c = false) w.
Lemma split_words w1 w2 w3 : word w1 -> word w2 -> word w3 -> split_whitespace (w1 ++ 32%N :: w2 ++ 32%N :: w3) = [w1; w2; w3].
Proof.
  intros [H1 F1] [H2 F2] [H3 F3]. unfold split_whitespace. rewrite split_word by done. cbn [app split_from]. change (is_whitespace 32) with true. cbn [app].
  rewrite split_word by done. cbn [app split_from]. change (is_whitespace 32) with true. cbn [app].
  rewrite <- (app_nil_r w3) at 1. rewrite split_word by done. cbn. destruct w1, w2, w3; done.
Qed.

(** Text without some character of the pattern keeps everything. *)
Lemma remove_none pat c s : c ∈ pat -> c ∉ s -> forall fuel, length s <= fuel -> remove_from fuel pat s = s.
Proof.
  intros Hc. induction s as [|x s IH]; intros Hs fuel Hf; [by destruct fuel|]. destruct fuel as [|fuel]; [cbn in Hf; lia|].
  cbn [remove_from]. destruct (decide _) as [E|_].
  - exfalso. apply Hs. rewrite <- E in Hc. by apply subseteq_take in Hc.
  - rewrite IH; [done| |cbn in Hf; lia]. intros Hin. apply Hs. by right.
Qed.

Lemma remove_prefix pat c s : c ∈ pat -> c ∉ s -> remove_all pat (pat ++ s) = s.
Proof.
  intros Hc Hs. unfold remove_all. destruct pat as [|x pat]; [by apply not_elem_of_nil in Hc|].
  change (length ((x :: pat) ++ s)) with (S (length (pat ++ s))).
  change ((x :: pat) ++ s) with (x :: (pat ++ s)). cbn [remove_from].
  change (x :: (pat ++ s)) with ((x :: pat) ++ s). destruct (decide _) as [_|E]; [|destruct E; by rewrite take_app_length].
  rewrite drop_app_length. apply (remove_none _ c); [done|done|]. rewrite length_app. lia.
Qed.

Lemma ascii_bytes s : Forall (fun c => (c < 128)%N) s -> as_bytes s = s.
Proof.
  induction 1 as [|c s Hc _ IH]; [done|]. unfold as_bytes in *. cbn [map concat]. rewrite IH. unfold utf8.
  destruct (N.ltb_spec c 0x80); [done|lia].
Qed.

Lemma from_le_le n v : from_le_bytes (le_bytes n v) = (v mod 256 ^ N.of_nat n)%N.
Proof.
  revert v. induction n as [|n IH]; intros v; [by rewrite N.mod_1_r|]. cbn [le_bytes from_le_bytes foldr]. fold (from_le_bytes (le_bytes n (v / 256))).
  rewrite IH. replace (N.of_nat (S n)) with (N.succ (N.of_nat n)) by lia. rewrite N.pow_succ_r'. rewrite N.Div0.mod_mul_r. done.
Qed.

Lemma length_le_bytes n v : length (le_bytes n v) = n.
Proof. revert v. induction n as [|n IH]; intros v; [done|]. cbn. by rewrite IH. Qed.

(** The text of a key: what is before the zeros that fill it up. *)
Fixpoint key_text (k : GcdKey) : str := match k with [] => [] | c :: k' => if (c =? 0)%N then [] else c :: key_text k' end.

Definition opcode_name (o : OpCode) : string := match o with OcPut => "Put" | OcGet => "Get" | OcCheckPut => "CheckPut" | OcDelete => "Delete" end.

(** An operation as a line of a workload file. *)
Definition print_op (o : Ops) : str :=
  codes (opcode_name (op_opcode o)) ++ 32%N :: key_text (op_key o) ++ 32%N :: codes "field0=" ++ le_bytes 8 (op_val o).

(** Operations that a line can hold. *)
Definition printable (o : Ops) : Prop :=
  (exists t, t <> [] /\ length t <= 24 /\ Forall (fun c => plain_char c /\ c <> 0%N) t /\ op_key o = t ++ replicate (24 - length t) 0%N)
  /\ (op_val o < 2 ^ 64)%N /\ Forall (fun c => plain_char c /\ c <> 61%N) (le_bytes 8 (op_val o)).

Lemma key_text_app t n : Forall (fun c => c <> 0%N) t -> key_text (t ++ replicate n 0%N) = t.
Proof.
  induction 1 as [|c t Hc _ IH]; cbn; [by destruct n|]. destruct (N.eqb_spec c 0); [done|]. by rewrite IH.
Qed.

Lemma gcd_key_of_text t : length t <= 24 -> Forall plain_char t -> gcd_key_new t = t ++ replicate (24 - length t) 0%N.
Proof.
  intros Hl Ht. unfold gcd_key_new. rewrite take_ge by done. rewrite (map_ext_in _ id).
  - by rewrite map_id.
  - intros c Hc%list_elem_of_In. rewrite list.Forall_forall in Ht. destruct (Ht c Hc). rewrite N.mod_small; [done|lia].
Qed.

Lemma opcode_of_name o : opcode_from_str (codes (opcode_name o)) = Ok o.
Proof. by destruct o; vm_compute. Qed.

Lemma read_print ops o : printable o -> read_line ops (print_op o) = ops ++ [o].
Proof.
  intros ((t & Hne & Hl & Ht & Hk) & Hv & Hb). unfold read_line, print_op.
  assert (Htext : key_text (op_key o) = t). { rewrite Hk. apply key_text_app. eapply list.Forall_impl; [exact Ht|]. by intros c [_ ?]. }
  rewrite Htext, split_words.
  - rewrite opcode_of_name, gcd_key_of_text; [|done|eapply list.Forall_impl; [exact Ht|]; by intros c [? _]]. rewrite <- Hk.
    rewrite (remove_prefix _ 61%N); [|vm_compute; set_solver|].
    + unfold ops_new. rewrite ascii_bytes; [|eapply list.Forall_impl; [exact Hb|]; by intros c [[? _] _]]. rewrite length_le_bytes, from_le_le. cbn [Nat.eqb].
      rewrite N.mod_small by done. by destruct o.
    + intros Hin. rewrite list.Forall_forall in Hb. by destruct (Hb _ Hin).
  - split; [by destruct (op_opcode o)|]. destruct (op_opcode o); repeat constructor.
  - split; [done|]. eapply list.Forall_impl; [exact Ht|]. by intros c [[_ ?] _].
  - split; [done|]. apply list.Forall_app. split; [repeat constructor|]. eapply list.Forall_impl; [exact Hb|]. by intros c [[_ ?] _].
Qed.

(** C31: A workload that is written to a file is read back.  A line is the name of the
    operation, the key and the value after "field0=", with blanks between them; if the
    characters of keys and values are ASCII and neither blanks nor, in values, an equals
    sign, [read_workload_file] returns exactly the operations that were written. *)
Theorem workload_roundtrip {E} (ops : list Ops) : Forall printable ops ->
  read_workload_file (E := E) (Ok (map (fun o => Ok (print_op o)) ops)) = Ok ops.
Proof.
  intros Hops. cbn [read_workload_file]. assert (H : forall acc, read_lines (E := E) acc (map (fun o => Ok (print_op o)) ops) = Ok (acc ++ ops)); [|apply H].
  induction Hops as [|o ops Ho _ IH]; intros acc; cbn [map read_lines]; [by rewrite app_nil_r|]. rewrite read_print, IH by done. by rewrite <- app_assoc.
Qed.

(** ** Generated workloads *)

(** Different numbers have different bytes, and so different keys. *)
Lemma le_bytes_inj n v v' : (v < 256 ^ N.of_nat n)%N -> (v' < 256 ^ N.of_nat n)%N -> le_bytes n v = le_bytes n v' -> v = v'.
Proof. intros H H' E. apply (f_equal from_le_bytes) in E. by rewrite !from_le_le, !N.mod_small in E. Qed.

Lemma concatenate_inj a b c a' b' c' : Forall (fun v => v < 2 ^ 64)%N [a; b; c; a'; b'; c'] ->
  concatenate_u64 a b c = concatenate_u64 a' b' c' -> (a, b, c) = (a', b', c').
Proof.
  intros Hv E. rewrite !list.Forall_cons in Hv. destruct Hv as (Ha & Hb & Hc & Ha' & Hb' & Hc' & _).
  assert (Hl : forall v, length (to_be_bytes v) = 8) by (intros v; unfold to_be_bytes; by rewrite length_rev, length_le_bytes).
  unfold concatenate_u64 in E. apply app_inj_1 in E as [E1 E]; [|by rewrite !Hl]. apply app_inj_1 in E as [E2 E3]; [|by rewrite !Hl].
  assert (Hinj : forall v v', (v < 2 ^ 64)%N -> (v' < 2 ^ 64)%N -> to_be_bytes v = to_be_bytes v' -> v = v').
  { intros v v' Hv Hv' Ev. apply (f_equal (@rev N)) in Ev. unfold to_be_bytes in Ev. rewrite !rev_involutive in Ev. by apply (le_bytes_inj 8). }
  by rewrite (Hinj _ _ Ha Ha' E1), (Hinj _ _ Hb Hb' E2), (Hinj _ _ Hc Hc' E3).
Qed.

Definition is_put (o : Ops) : bool := match op_opcode o with OcPut => true | _ => false end.

Lemma count_perm {A} (f : A -> bool) l l' : l ≡ₚ l' -> count f l = count f l'.
Proof. induction 1; rewrite ?count_cons; lia. Qed.

Lemma count_app {A} (f : A -> bool) l l' : count f (l ++ l') = count f l + count f l'.
Proof. unfold count. apply sum_list_with_app. Qed.

Lemma count_map {A B} (f : B -> bool) (g : A -> B) l : count f (map g l) = count (fun x => f (g x)) l.
Proof. induction l as [|x l IH]; [done|]. cbn [map]. by rewrite !count_cons, IH. Qed.

Lemma count_below w k n : w <= n -> count (fun i => (i mod 100) <? w) (seq (100 * k) n) = w \/ 100 < n.
Proof.
  intros Hw. destruct (decide (100 < n)) as [|Hn]; [by right|left].
  assert (H : forall m, m <= n -> count (fun i => (i mod 100) <? w) (seq (100 * k) m) = Nat.min m w).
  { induction m as [|m IH]; intros Hm; [done|]. rewrite seq_S, count_app, IH, count_cons by lia. change (count _ []) with 0.
    replace ((100 * k + m) mod 100) with m by (rewrite (Nat.mul_comm 100 k), (Nat.add_comm (k * 100) m), Nat.Div0.mod_add, Nat.mod_small; lia). destruct (Nat.ltb_spec m w); lia. }
  rewrite H by done. lia.
Qed.

(** The generator keeps the ratio: of every hundred operations [write_ratio] are writes,
    and the others are reads, in whatever order they are shuffled. *)
Lemma generate_ratio sample gen_range next_u64 shuffle m write_ratio distribution :
  (forall l, shuffle l ≡ₚ l) -> write_ratio <= 100 -> distribution = "skewed" \/ distribution = "uniform" ->
  exists ops, wl_generate_operations sample gen_range next_u64 shuffle (100 * m) write_ratio distribution = Ret ops
    /\ length ops = 100 * m /\ count is_put ops = write_ratio * m.
Proof.
  intros Hs Hw Hd. unfold wl_generate_operations. rewrite decide_True by done. eexists. split; [done|]. split; [by rewrite Hs, length_map, length_seq|].
  rewrite (count_perm _ _ _ (Hs _)), count_map. set (g := fun idx => is_put _).
  assert (Hg : forall l, count g l = count (fun i => (i mod 100) <? write_ratio) l).
  { induction l as [|i l IH]; [done|]. rewrite !count_cons, IH. unfold g. by destruct (_ <? _). }
  induction m as [|m IH]; [by rewrite !Nat.mul_0_r|]. replace (100 * S m) with (100 * m + 100) by lia. rewrite seq_app, count_app, IH, Hg. cbn [Nat.add].
  destruct (count_below write_ratio m 100 Hw) as [->|]; lia.
Qed.

(** ** Prepopulating the map *)

Lemma prepopulate_keys_spec (gen_range : nat -> N) num_key (l : list N) n : (forall i, gen_range i < 2 ^ 64)%N ->
  NoDup l -> Nat.max 1 num_key <= length l -> (forall x, x ∈ l -> exists i, i < n /\ gen_range i = x) ->
  exists keys, prepopulate_keys n gen_range num_key 0 ∅ = Ret keys /\ size keys = Nat.max 1 num_key
    /\ forall k, k ∈ keys -> exists i, i < n /\ k = concatenate_u64 (gen_range i) (gen_range i) (gen_range i).
Proof.
  intros Hrange Hnd Hlen Hl. set (key := fun i => concatenate_u64 (gen_range i) (gen_range i) (gen_range i)).
  set (seen := fun i : nat => list_to_set (C := gset GcdKey) (map key (seq 0 i))).
  assert (Hseen : forall i, seen (S i) = {[ key i ]} ∪ seen i).
  { intros i. unfold seen. rewrite seq_S, map_app, list_to_set_app_L. cbn. set_solver. }
  assert (Hend : Nat.max 1 num_key <= size (seen n)).
  { etransitivity; [exact Hlen|]. set (ks := map (fun x => concatenate_u64 x x x) l).
    assert (Hks : NoDup ks).
    { apply NoDup_fmap_2_strong; [|done]. intros x y Hx Hy E. apply Hl in Hx as (i & _ & <-). apply Hl in Hy as (j & _ & <-).
      apply concatenate_inj in E; [by injection E|]. by repeat constructor. }
    rewrite <- (length_map (fun x => concatenate_u64 x x x) l). fold ks. rewrite <- (size_list_to_set (C := gset GcdKey) ks) by done. apply subseteq_size.
    intros k Hk%elem_of_list_to_set. apply list_elem_of_fmap in Hk as (x & -> & Hx). apply Hl in Hx as (i & Hi & <-).
    unfold seen. apply elem_of_list_to_set, list_elem_of_fmap. exists i. split; [done|]. apply elem_of_seq. lia. }
  assert (H : forall fuel i, i + fuel = n -> size (seen i) < Nat.max 1 num_key ->
    exists keys, prepopulate_keys fuel gen_range num_key i (seen i) = Ret keys /\ size keys = Nat.max 1 num_key /\ keys ⊆ seen n).
  { induction fuel as [|fuel IH]; intros i Hi Hsz; [rewrite Nat.add_0_r in Hi; subst i; lia|]. cbn [prepopulate_keys]. fold (key i). destruct (decide (key i ∈ seen i)) as [Hin|Hin].
    - assert (Heq : seen (S i) = seen i) by (rewrite Hseen; by apply subseteq_union_1_L, singleton_subseteq_l). rewrite <- Heq. apply IH; [lia|]. by rewrite Heq.
    - rewrite <- Hseen. assert (Hsz1 : size (seen (S i)) = S (size (seen i))) by (rewrite Hseen, size_union, size_singleton; [done|by apply disjoint_singleton_l]).
      destruct (Nat.leb_spec num_key (size (seen (S i)))) as [Hle|Hgt]; [|apply IH; lia]. eexists. split_and!; [done|lia|].
      unfold seen. intros k Hk%elem_of_list_to_set. apply list_elem_of_fmap in Hk as (j & -> & Hj%elem_of_seq).
      apply elem_of_list_to_set, list_elem_of_fmap. exists j. split; [done|]. apply elem_of_seq. lia. }
  destruct (H n 0) as (keys & E & Hsz & Hsub); [done|assert (size (seen 0) = 0) by apply size_empty; lia|]. exists keys. split_and!; [exact E|done|].
  intros k Hk%Hsub. unfold seen in Hk. apply elem_of_list_to_set, list_elem_of_fmap in Hk as (i & -> & Hi%elem_of_seq). exists i. split; [lia|done].
Qed.

(** [mean_128] and [mean_64], with sums that wrap around. *)
Definition mean_or (size : N) (data : list N) : option f64 :=
  let sum := as_f64 (foldl (fun s x => (s + x) mod size)%N 0%N data) in
  Some (if 0 <? length data then f64_div sum (as_f64 (N.of_nat (length data))) else SFopp (as_f64 1)).
Definition mean_128 : list N -> option f64 := mean_or (2 ^ 128).
Definition mean_64 : list N -> option f64 := mean_or (2 ^ 64).

Section Prepopulate.
Variable f : feature.
Variable cn : option N -> Z.
#[local] Instance WlDispatch : Dispatch (gmap GcdKey N) WlAccess WlModify (option N) :=
  {| dispatch := wl_dispatch; dispatch_mut := wl_dispatch_mut; cn_idx := cn; resp_eqb := fun a b => bool_decide (a = b) |}.
Abbreviation nrep := (NodeReplicated (gmap GcdKey N) WlModify (option N) Thread).

(** [iter] is the order in which the set is iterated. *)
Definition prepopulate (fuel : nat) (gen_range : nat -> N) (iter : gset GcdKey -> list GcdKey) (thread_token : ThreadToken) (replica : nrep)
    (key_space : N) (ratio : f64) : res nrep :=
  let num_key := N.to_nat (f64_as_usize (SFmul 53 1024 (as_f64 key_space) ratio)) in
  keys ← prepopulate_keys fuel gen_range num_key 0 ∅;
  foldM (fun nr key => '(_, nr') ← execute_mut f nr (WlPut key 0) thread_token; Ret nr') replica (iter keys).

Lemma put_all tkn ks : forall (nr : nrep) d regs, sim f ∅ nr (mkSpec d regs) -> sp_registered (mkSpec d regs) tkn = true ->
  exists nr' d', foldM (fun nr key => '(_, nr') ← execute_mut f nr (WlPut key 0) tkn; Ret nr') nr ks = Ret nr'
    /\ sim f ∅ nr' (mkSpec d' regs) /\ dom d' = dom d ∪ list_to_set ks.
Proof.
  induction ks as [|k ks IH]; intros nr d regs Hs Hreg; [exists nr, d; split_and!; [done|done|set_solver]|]. cbn [foldM].
  destruct (sim_call f ∅ nr (mkSpec d regs) (CWrite tkn (WlPut k 0%N)) (mkSpec (<[k := 0%N]> d) regs) (OResp (d !! k)) Hs) as (nr1 & E & Hs1).
  { cbn [spec_call]. by rewrite Hreg. }
  cbn [nr_call] in E. destruct (execute_mut f nr (WlPut k 0) tkn) as [[r1 nr2]| |]; [|done|done]. cbn [mbind res_bind] in *. injection E as -> _.
  destruct (IH nr1 (<[k := 0%N]> d) regs Hs1 Hreg) as (nr' & d' & E' & Hs' & Hd). exists nr', d'. split_and!; [exact E'|done|]. rewrite Hd, dom_insert_L. cbn. set_solver.
Qed.

(** Prepopulating the replicated map ends, with as many keys as were asked for.  If the
    random numbers go through enough different keys, [prepopulate] stops with the share
    [ratio] of the key space, but at least one key, and puts all of them into the map:
    then an empty map has exactly that many entries. *)
Theorem prepopulate_fills (gen_range : nat -> N) (iter : gset GcdKey -> list GcdKey) (tkn : ThreadToken) (nr : nrep) regs key_space ratio (l : list N) n :
  let num_key := N.to_nat (f64_as_usize (SFmul 53 1024 (as_f64 key_space) ratio)) in
  (forall i, gen_range i < 2 ^ 64)%N -> NoDup l -> Nat.max 1 num_key <= length l -> (forall x, x ∈ l -> exists i, i < n /\ gen_range i = x) ->
  (forall keys, iter keys ≡ₚ elements keys) -> sim f ∅ nr (mkSpec ∅ regs) -> sp_registered (mkSpec (∅ : gmap GcdKey N) regs) tkn = true ->
  exists nr' d, prepopulate n gen_range iter tkn nr key_space ratio = Ret nr' /\ sim f ∅ nr' (mkSpec d regs) /\ size d = Nat.max 1 num_key.
Proof.
  cbn zeta. set (num_key := N.to_nat _). intros Hrange Hnd Hlen Hl Hiter Hs Hreg.
  destruct (prepopulate_keys_spec gen_range num_key l n Hrange Hnd Hlen Hl) as (keys & E & Hsz & _).
  unfold prepopulate. fold num_key. rewrite E. cbn [mbind res_bind].
  destruct (put_all tkn (iter keys) nr ∅ regs Hs Hreg) as (nr' & d & Ep & Hs' & Hd). exists nr', d. split_and!; [done|done|].
  rewrite <- size_dom, Hd, dom_empty_L, union_empty_l_L, <- Hsz. f_equal. apply set_eq. intros k. by rewrite elem_of_list_to_set, (Hiter keys), elem_of_elements.
Qed.
End Prepopulate.

(** ** Examples *)

Definition workload_example : list Ops :=
  [mkOps OcPut (gcd_key_new (codes "user42")) (from_le_bytes (codes "abcdefgh")); mkOps OcGet (gcd_key_new (codes "user7")) (from_le_bytes (codes "00000000"))].

Lemma workload_roundtrip_witness :
  map print_op workload_example = map codes ["Put user42 field0=abcdefgh"; "Get user7 field0=00000000"]%string
  /\ read_workload_file (E := unit) (Ok (map (fun o => Ok (print_op o)) workload_example)) = Ok workload_example.
Proof.
  split; [reflexivity|]. apply (workload_roundtrip workload_example).
  repeat apply list.Forall_cons_2; [| |apply list.Forall_nil_2];
    (split; [|split; [reflexivity|vm_compute; repeat constructor; discriminate]]).
  - exists (codes "user42"). split_and!; [done|vm_compute; lia|vm_compute; repeat constructor; discriminate|reflexivity].
  - exists (codes "user7"). split_and!; [done|vm_compute; lia|vm_compute; repeat constructor; discriminate|reflexivity].
Defined.

(** Three tenths of a key space of ten, with random numbers that repeat. *)
#[local] Instance wl_inst : Dispatch (gmap GcdKey N) WlAccess WlModify (option N) := WlDispatch (fun _ => 0)%Z.
Lemma prepopulate_fills_witness :
  exists nr, baseline_log (WO := WlModify) (R := option N) (∅ : gmap GcdKey N) 192 8 2048 main_thread = Ret (nr, mkToken 0 1)
  /\ exists nr' d, prepopulate Coherent (fun _ => 0)%Z 6 (fun i => N.of_nat (i / 2 mod 4)) elements (mkToken 0 1) nr 10 (S754_finite false 5404319552844596 (-54)) = Ret nr'
    /\ sim Coherent ∅ nr' (mkSpec d [2]) /\ size d = 3.
Proof.
  destruct (baseline_log_builds (RO := WlAccess) Coherent (∅ : gmap GcdKey N) 192 8 2048 main_thread) as (nr & E & Hs); [lia|].
  exists nr. split; [done|].
  apply (prepopulate_fills Coherent (fun _ => 0)%Z (fun i => N.of_nat (i / 2 mod 4)) elements (mkToken 0 1) nr [2] 10 (S754_finite false 5404319552844596 (-54)) [0; 1; 2]%N 6).
  - intros i. assert (i / 2 mod 4 < 4) by (by apply Nat.mod_upper_bound). lia.
  - apply (bool_decide_unpack _). vm_compute. done.
  - vm_compute. lia.
  - intros x Hx. exists (2 * N.to_nat x). rewrite !elem_of_cons in Hx. destruct Hx as [->|[->|[->|Hx]]]; [vm_compute; split; [lia|done]..|by apply not_elem_of_nil in Hx].
  - done.
  - exact Hs.
  - reflexivity.
Defined.
