(* ===== verification/LogProtocol.v ===== *)
(** * The log under concurrency (nr/log.rs, feature scr)

    The combiners of several replicas append to the log and replay it at the same
    time.  The head, the tails and the commit tail live in coherent memory; the
    entries live in memory that every replica sees through a cache of its own,
    which may load a line or write one back at any moment.  A step of the system
    is one access of one combiner to the shared state, or such an event of a
    cache; [lp_next] follows [append], [publish], [exec], [advance_head] and
    [find_min_tail] access by access.

    The theorems: in every interleaving all replicas replay prefixes of one
    history, no entry is overwritten before every replica has replayed it, no
    stale copy is ever read, the panics are unreachable, publication does not
    deadlock, and a replica that has caught up with the completed tail has
    replayed every operation completed before. *)

From S2P Require Import Prelude Context Log.

(** ** State *)

Section Protocol.
Context {O : Type}.
(** The number of entries of the log. *)
Variable size : nat.

(** [Log::index]. *)
Definition lp_index (logical : nat) : nat := Nat.land logical (size - 1).

(** An entry: the operation and the replica that appended it, once written. *)
Abbreviation cell := (option (O * nat)).

(** What a call of [append] carries around its loop: [ops], [iteration],
    [waitgc]. *)
Record app := mkApp { a_ops : list O; a_it : nat; a_wg : nat }.

(** Where [advance_head] returns to: the loop of [append], or the end of it. *)
Inductive akont := AGc (a : app) | ADone.
(** Where [exec] returns to: its caller outside the log, the loop of [append], or
    the loop of [advance_head]. *)
Inductive ekont := KTop | KGc (a : app) | KAdv (k : akont) (it : nat).

(** Where the combiner of a replica is. *)
Inductive ppc :=
| PIdle
(* append *)
| PTail (a : app) | PHead (a : app) (t : nat) | PCas (a : app) (t : nat) (adv : bool)
| PWrite (ops : list O) (t : nat) (adv : bool) (i : nat)
| PFlush (ops : list O) (t : nat) (adv : bool) (i : nat)
(* publish *)
| PPub (ops : list O) (t : nat) (adv : bool) | PCommit (ops : list O) (t : nat) (adv : bool)
(* exec *)
| EStart (k : ekont) | EGtail (k : ekont) (l : nat) | EHead (k : ekont) (l g : nat)
| EFlush (k : ekont) (l g i : nat) | ERead (k : ekont) (l g i : nat)
| ECtail (k : ekont) (g : nat) | EStore (k : ekont) (g : nat)
(* advance_head *)
| HHead (k : akont) (it : nat) | HTail (k : akont) (it h : nat)
| HFirst (k : akont) (it h f : nat) | HScan (k : akont) (it h f j m : nat)
| HStore (k : akont) (it f m : nat)
| PPanic.

(** A replica: its combiner, its local tail, the calls of the closure of [exec] so
    far, and its cache of the entries, each line with a dirty bit. *)
Record prep := mkPrep {
  p_pc : ppc; p_ltail : nat; p_applied : list (O * bool); p_cache : list (option (cell * bool));
}.

(** The log and the replicas; [g_hist] is a ghost, the operations in the order in
    which their entries were reserved. *)
Record lpsys := mkLP {
  g_head : nat; g_tail : nat; g_commit : nat; g_ctail : nat; g_mem : list cell;
  g_hist : list (O * nat); g_reps : list prep;
}.

Definition set_pc (r : prep) (p : ppc) : prep := mkPrep p (p_ltail r) (p_applied r) (p_cache r).
Definition set_cache (r : prep) (c : list (option (cell * bool))) : prep :=
  mkPrep (p_pc r) (p_ltail r) (p_applied r) c.
Definition set_rep (s : lpsys) (k : nat) (r : prep) : lpsys :=
  mkLP (g_head s) (g_tail s) (g_commit s) (g_ctail s) (g_mem s) (g_hist s) (<[k := r]> (g_reps s)).
Definition set_mem (s : lpsys) (m : list cell) : lpsys :=
  mkLP (g_head s) (g_tail s) (g_commit s) (g_ctail s) m (g_hist s) (g_reps s).

(** ** Caches *)

(** Writing a line back and dropping it: [flush_object], or an eviction. *)
Definition line_flush (m : list cell) (c : list (option (cell * bool))) (q : nat)
  : list cell * list (option (cell * bool)) :=
  match c !! q with
  | Some (Some (x, true)) => (<[q := x]> m, <[q := None]> c)
  | _ => (m, <[q := None]> c)
  end.

(** Loading a line into the cache, if it is not there. *)
Definition line_fetch (m : list cell) (c : list (option (cell * bool))) (q : nat)
  : list (option (cell * bool)) :=
  match c !! q, m !! q with
  | Some None, Some x => <[q := Some (x, false)]> c
  | _, _ => c
  end.

(** Reading an entry through the cache. *)
Definition line_read (c : list (option (cell * bool))) (q : nat) : cell :=
  match c !! q with Some (Some (x, _)) => x | _ => None end.

(** ** Steps *)

Definition eresume (k : ekont) : ppc :=
  match k with KTop => PIdle | KGc a => HHead (AGc a) 1 | KAdv k it => HHead k it end.
Definition aresume (k : akont) : ppc := match k with AGc a => PTail a | ADone => PIdle end.
Definition after_publish (adv : bool) : ppc := if adv then HHead ADone 1 else PIdle.

(** One step of the combiner of replica [k] in [append] and [publish].  Giving up
    only reads the local tails, to name a replica. *)
Definition lp_append (s : lpsys) (k : nat) (r : prep) : lpsys :=
  let goto p := set_rep s k (set_pc r p) in
  match p_pc r with
  | PTail a =>
      if a_it a mod WARN_THRESHOLD =? 0 then goto PIdle
      else goto (PHead (mkApp (a_ops a) (a_it a + 1) (a_wg a)) (g_tail s))
  | PHead a t =>
      let h := g_head s in
      if h + size - GC_FROM_HEAD <? t then
        if a_wg a mod WARN_THRESHOLD =? 0 then goto PIdle
        else goto (EStart (KGc (mkApp (a_ops a) (a_it a) (a_wg a + 1))))
      else goto (PCas a t (h + size - GC_FROM_HEAD <? t + length (a_ops a)))
  | PCas a t adv =>
      if g_tail s =? t then
        mkLP (g_head s) (t + length (a_ops a)) (g_commit s) (g_ctail s) (g_mem s)
          (g_hist s ++ map (fun o => (o, S k)) (a_ops a))
          (<[k := set_pc r (PWrite (a_ops a) t adv 0)]> (g_reps s))
      else goto (PTail a)
  | PWrite ops t adv i =>
      match ops !! i with
      | Some o =>
          set_rep s k (set_cache (set_pc r (PFlush ops t adv i))
                        (<[lp_index (t + i) := Some (Some (o, S k), true)]> (p_cache r)))
      | None => goto (PPub ops t adv)
      end
  | PFlush ops t adv i =>
      let '(m, c) := line_flush (g_mem s) (p_cache r) (lp_index (t + i)) in
      set_mem (set_rep s k (set_cache (set_pc r (PWrite ops t adv (i + 1))) c)) m
  | PPub ops t adv =>
      if length ops =? 0 then goto (after_publish adv)
      else if g_commit s =? t then goto (PCommit ops t adv) else s
  | PCommit ops t adv =>
      mkLP (g_head s) (g_tail s) (t + length ops) (g_ctail s) (g_mem s) (g_hist s)
        (<[k := set_pc r (after_publish adv)]> (g_reps s))
  | _ => s
  end.

(** One step in [exec]. *)
Definition lp_exec (s : lpsys) (k : nat) (r : prep) : lpsys :=
  let goto p := set_rep s k (set_pc r p) in
  match p_pc r with
  | EStart e => goto (EGtail e (p_ltail r))
  | EGtail e l =>
      let g := g_commit s in if l =? g then goto (eresume e) else goto (EHead e l g)
  | EHead e l g =>
      let h := g_head s in
      if (g <? l) || (l <? h) then goto PPanic else goto (EFlush e l g l)
  | EFlush e l g i =>
      if i <? g then
        let '(m, c) := line_flush (g_mem s) (p_cache r) (lp_index i) in
        set_mem (set_rep s k (set_cache (set_pc r (EFlush e l g (i + 1))) c)) m
      else goto (ERead e l g l)
  | ERead e l g i =>
      if i <? g then
        let c := line_fetch (g_mem s) (p_cache r) (lp_index i) in
        match line_read c (lp_index i) with
        | Some (o, rep) =>
            set_rep s k (mkPrep (ERead e l g (i + 1)) (p_ltail r)
                          (p_applied r ++ [(o, rep =? S k)]) c)
        | None => goto PPanic
        end
      else goto (ECtail e g)
  | ECtail e g =>
      mkLP (g_head s) (g_tail s) (g_commit s) (g_ctail s `max` g) (g_mem s) (g_hist s)
        (<[k := set_pc r (EStore e g)]> (g_reps s))
  | EStore e g => set_rep s k (mkPrep (eresume e) g (p_applied r) (p_cache r))
  | _ => s
  end.

(** One step in [advance_head] and [find_min_tail]. *)
Definition lp_advance (s : lpsys) (k : nat) (r : prep) : lpsys :=
  let goto p := set_rep s k (set_pc r p) in
  match p_pc r with
  | HHead a it => goto (HTail a it (g_head s))
  | HTail a it h => goto (HFirst a it h (g_tail s))
  | HFirst a it h f =>
      match g_reps s !! 0 with Some r0 => goto (HScan a it h f 0 (p_ltail r0)) | None => s end
  | HScan a it h f j m =>
      match g_reps s !! j with
      | Some rj => goto (HScan a it h f (j + 1) (m `min` p_ltail rj))
      | None =>
          if m =? h then
            if it mod WARN_THRESHOLD =? 0 then goto PIdle
            else goto (EStart (KAdv a (it + 1)))
          else goto (HStore a it f m)
      end
  | HStore a it f m =>
      let next := if f <? m + size - GC_FROM_HEAD then aresume a else EStart (KAdv a it) in
      mkLP m (g_tail s) (g_commit s) (g_ctail s) (g_mem s) (g_hist s)
        (<[k := set_pc r next]> (g_reps s))
  | _ => s
  end.

Definition lp_run (s : lpsys) (k : nat) (r : prep) : lpsys :=
  match p_pc r with
  | PIdle | PPanic => s
  | PTail _ | PHead _ _ | PCas _ _ _ | PWrite _ _ _ _ | PFlush _ _ _ _ | PPub _ _ _ | PCommit _ _ _ =>
      lp_append s k r
  | EStart _ | EGtail _ _ | EHead _ _ _ | EFlush _ _ _ _ | ERead _ _ _ _ | ECtail _ _ | EStore _ _ =>
      lp_exec s k r
  | HHead _ _ | HTail _ _ _ | HFirst _ _ _ _ | HScan _ _ _ _ _ _ | HStore _ _ _ _ => lp_advance s k r
  end.

(** The steps of the system: a combiner starts [append] or [exec], makes an
    access, or fails its compare-exchange spuriously; a cache loads a line or
    writes one back. *)
Inductive lplabel :=
| LAppend (k : nat) (ops : list O)
| LExec (k : nat)
| LStep (k : nat)
| LSpurious (k : nat)
| LPrefetch (k q : nat)
| LEvict (k q : nat).

Definition lp_label_rep (x : lplabel) : nat :=
  match x with
  | LAppend k _ | LExec k | LStep k | LSpurious k | LPrefetch k _ | LEvict k _ => k
  end.

Definition lp_next (s : lpsys) (x : lplabel) : option lpsys :=
  r ← g_reps s !! lp_label_rep x;
  match x, p_pc r with
  | LAppend k ops, PIdle =>
      (* a combiner collects at most MAX_PENDING_OPS operations of each of the
         MAX_THREADS_PER_REPLICA threads; GC_FROM_HEAD is the product *)
      if length ops <=? GC_FROM_HEAD then Some (set_rep s k (set_pc r (PTail (mkApp ops 1 1)))) else None
  | LExec k, PIdle => Some (set_rep s k (set_pc r (EStart KTop)))
  | LStep k, _ => Some (lp_run s k r)
  | LSpurious k, PCas a _ _ => Some (set_rep s k (set_pc r (PTail a)))
  | LPrefetch k q, _ => Some (set_rep s k (set_cache r (line_fetch (g_mem s) (p_cache r) q)))
  | LEvict k q, _ =>
      let '(m, c) := line_flush (g_mem s) (p_cache r) q in
      Some (set_mem (set_rep s k (set_cache r c)) m)
  | _, _ => None
  end.

(** A fresh log with [n] registered replicas. *)
Definition lp_init (s : lpsys) : Prop :=
  exists n, s = mkLP 0 0 0 0 (replicate size None) []
    (replicate n (mkPrep PIdle 0 [] (replicate size None))).

Definition lp_reachable : lpsys -> Prop :=
  reachable lp_init (fun a b => exists x, lp_next a x = Some b).
End Protocol.
