(* ===== verification/LogProtocolSpec.v ===== *)
(** * The invariant of the concurrent log

    [lp_inv]: the reserved but unpublished entries are split between the
    appenders, published entries are in memory as long as some replica may need
    them, caches hold no stale copy of an entry that is about to be read, and
    every replica has applied a prefix of the history. *)

From S2P Require Import Prelude Context Log LogProtocol.

Section Inv.
Context {O : Type} (size : nat).
Hypothesis Hpow : is_pow2 size.
Hypothesis Hgc : GC_FROM_HEAD <= size.
Implicit Types (s : lpsys (O := O)) (r : prep (O := O)) (h : list (O * nat)).
Abbreviation idx := (lp_index size).
Abbreviation cell := (option (O * nat)).

Lemma lp_index_mod p : idx p = p mod size.
Proof. apply land_pow2, Hpow. Qed.

Lemma lp_index_lt p : idx p < size.
Proof. rewrite lp_index_mod. apply Nat.mod_upper_bound. pose proof (pow2_pos _ Hpow). lia. Qed.

Lemma lp_index_ne p q : p <> q -> p < q + size -> q < p + size -> idx p <> idx q.
Proof. rewrite !lp_index_mod. apply mod_near_ne. Qed.

(** ** Definitions *)

(** The reserved entries a combiner has not published yet. *)
Definition unpub (p : ppc (O := O)) : option (nat * list O) :=
  match p with
  | PWrite ops t _ _ | PFlush ops t _ _ | PPub ops t _ | PCommit ops t _ => Some (t, ops)
  | _ => None
  end.

(** How much of the history the replica has applied. *)
Definition done_upto r : nat :=
  match p_pc r with
  | ERead _ _ _ i => i
  | ECtail _ g | EStore _ g => g
  | _ => p_ltail r
  end.

(** The calls of the closure for the operations of [h] at replica [k]. *)
Definition calls (k : nat) h : list (O * bool) := map (fun x => (x.1, x.2 =? S k)) h.

(** Entry [p] is in memory. *)
Definition holds (m : list cell) (p : nat) (x : O * nat) : Prop := m !! idx p = Some (Some x).

Definition written h m (t n : nat) : Prop :=
  forall j x, j < n -> h !! (t + j) = Some x -> holds m (t + j) x.

(** The cache has no copy of entry [p], or a current one. *)
Definition fresh_line h (c : list (option (cell * bool))) (p : nat) : Prop :=
  forall x, h !! p = Some x ->
    c !! idx p = Some None \/ c !! idx p = Some (Some (Some x, false)).

Definition app_ok (a : app (O := O)) : Prop := length (a_ops a) <= GC_FROM_HEAD.
Definition akont_ok (k : akont (O := O)) : Prop := match k with AGc a => app_ok a | ADone => True end.
Definition ekont_ok (k : ekont (O := O)) : Prop :=
  match k with KTop => True | KGc a => app_ok a | KAdv k _ => akont_ok k end.

Definition ltails s : list nat := p_ltail <$> g_reps s.

Definition pc_ok s r : Prop :=
  let h := g_hist s in
  match p_pc r with
  | PIdle => True
  | PTail a | PHead a _ => app_ok a
  | PCas a t _ => app_ok a /\ forall j l, ltails s !! j = Some l -> t + GC_FROM_HEAD <= l + size
  | PWrite ops t _ i => i <= length ops /\ written h (g_mem s) t i
  | PFlush ops t _ i => i < length ops /\ written h (g_mem s) t i
      /\ forall x, h !! (t + i) = Some x ->
           holds (g_mem s) (t + i) x \/ p_cache r !! idx (t + i) = Some (Some (Some x, true))
  | PPub ops t _ => written h (g_mem s) t (length ops)
  | PCommit ops t _ => written h (g_mem s) t (length ops) /\ ops <> [] /\ g_commit s = t
  | EStart e => ekont_ok e
  | EGtail e l => ekont_ok e /\ l = p_ltail r
  | EHead e l g => ekont_ok e /\ l = p_ltail r /\ l <= g <= g_commit s
  | EFlush e l g i => ekont_ok e /\ l = p_ltail r /\ g <= g_commit s /\ l <= i <= g
      /\ forall p, l <= p < i -> fresh_line h (p_cache r) p
  | ERead e l g i => ekont_ok e /\ l = p_ltail r /\ g <= g_commit s /\ l <= i <= g
      /\ forall p, l <= p < g -> fresh_line h (p_cache r) p
  | ECtail e g => ekont_ok e /\ p_ltail r <= g <= g_commit s
  | EStore e g => ekont_ok e /\ p_ltail r <= g <= g_commit s /\ g <= g_ctail s
  | HHead a _ | HTail a _ _ | HFirst a _ _ _ => akont_ok a
  | HScan a _ _ _ j m => akont_ok a /\ forall i l, i < j -> ltails s !! i = Some l -> m <= l
  | HStore a _ _ m => akont_ok a /\ forall i l, ltails s !! i = Some l -> m <= l
  | PPanic => False
  end.

(** Only the line being written is dirty, and it holds the entry. *)
Definition dirty_ok s r : Prop :=
  forall q c, p_cache r !! q = Some (Some (c, true)) ->
    exists ops t adv i x, p_pc r = PFlush ops t adv i /\ q = idx (t + i)
      /\ g_hist s !! (t + i) = Some x /\ c = Some x.

Record rep_ok s (k : nat) r : Prop := {
  ro_cache : length (p_cache r) = size;
  ro_applied : p_applied r = calls k (take (done_upto r) (g_hist s));
  ro_dirty : dirty_ok s r;
  ro_pc : pc_ok s r;
}.

Record lp_inv s : Prop := {
  li_mem_len : length (g_mem s) = size;
  li_tail : g_tail s = length (g_hist s);
  li_order : g_ctail s <= g_commit s <= g_tail s;
  li_lts : forall k r, g_reps s !! k = Some r ->
    g_head s <= p_ltail r <= g_ctail s /\ g_tail s <= p_ltail r + size;
  li_mem : forall p x, p < g_commit s -> g_tail s <= p + size -> g_hist s !! p = Some x ->
    holds (g_mem s) p x;
  li_own : forall k r t ops, g_reps s !! k = Some r -> unpub (p_pc r) = Some (t, ops) ->
    t + length ops <= g_tail s /\ (ops <> [] -> g_commit s <= t)
    /\ (forall j o, ops !! j = Some o -> g_hist s !! (t + j) = Some (o, S k));
  li_disj : forall k k' r r' t t' ops ops' p, k <> k' -> g_reps s !! k = Some r ->
    g_reps s !! k' = Some r' -> unpub (p_pc r) = Some (t, ops) -> unpub (p_pc r') = Some (t', ops') ->
    t <= p < t + length ops -> t' <= p < t' + length ops' -> False;
  li_tile : forall p, g_commit s <= p < g_tail s -> exists k r t ops,
    g_reps s !! k = Some r /\ unpub (p_pc r) = Some (t, ops) /\ t <= p < t + length ops;
  li_reps : forall k r, g_reps s !! k = Some r -> rep_ok s k r;
}.

(** ** Stability *)

Lemma done_upto_le s k r : lp_inv s -> g_reps s !! k = Some r -> done_upto r <= g_commit s.
Proof.
  intros Hinv Hk. pose proof (li_lts _ Hinv k r Hk). pose proof (li_order _ Hinv).
  destruct (li_reps _ Hinv k r Hk) as [_ _ _ Hpc]. unfold pc_ok, done_upto in *.
  destruct (p_pc r); cbn in Hpc; try lia; naive_solver lia.
Qed.

Lemma written_mono h h' ext m m' t n :
  h' = h ++ ext -> t + n <= length h ->
  (forall p, t <= p < t + n -> m' !! idx p = m !! idx p) -> written h m t n -> written h' m' t n.
Proof.
  intros -> Hl Hm Hw j x Hj Hx. unfold holds. rewrite Hm by lia. apply Hw; [done|].
  by rewrite lookup_app_l in Hx by lia.
Qed.

Lemma fresh_mono h h' ext c p : h' = h ++ ext -> p < length h -> fresh_line h c p -> fresh_line h' c p.
Proof. intros -> Hl Hf x Hx. apply Hf. by rewrite lookup_app_l in Hx by lia. Qed.

(** A replica that makes no step keeps its part of the invariant. *)
Lemma rep_ok_mono s s' ext k r :
  lp_inv s -> g_reps s !! k = Some r ->
  g_hist s' = g_hist s ++ ext -> g_commit s <= g_commit s' -> g_ctail s <= g_ctail s' ->
  (forall j l', ltails s' !! j = Some l' -> exists l, ltails s !! j = Some l /\ l <= l') ->
  (forall ops t adv, p_pc r = PCommit ops t adv -> g_commit s' = g_commit s) ->
  (forall t ops p, unpub (p_pc r) = Some (t, ops) -> t <= p < t + length ops ->
     g_mem s' !! idx p = g_mem s !! idx p) ->
  rep_ok s' k r.
Proof.
  intros Hinv Hk Hh Hc Hct Hlt Hpc Hm. pose proof (done_upto_le s k r Hinv Hk) as Hd.
  pose proof (li_order _ Hinv) as Hord. pose proof (li_tail _ Hinv) as Htl.
  destruct (li_reps _ Hinv k r Hk) as [H1 H2 H3 H4]. split; [done| | |].
  - rewrite H2, Hh. by rewrite take_app_le by lia.
  - intros q c Hq. destruct (H3 q c Hq) as (ops & t & adv & i & x & ? & ? & Hx & ?).
    exists ops, t, adv, i, x. split_and!; try done. rewrite Hh. by apply lookup_app_l_Some.
  - assert (Hw : forall t ops n, unpub (p_pc r) = Some (t, ops) -> n <= length ops ->
              written (g_hist s) (g_mem s) t n -> written (g_hist s') (g_mem s') t n).
    { intros t ops n Hu Hn Hwr. destruct (li_own _ Hinv k r t ops Hk Hu) as (Hb & _ & _).
      eapply written_mono; [exact Hh|lia| |done]. intros p Hp. apply (Hm t ops); [done|lia]. }
    assert (Hf : forall p, p < g_commit s -> fresh_line (g_hist s) (p_cache r) p ->
              fresh_line (g_hist s') (p_cache r) p).
    { intros p Hp. eapply fresh_mono; [exact Hh|lia]. }
    unfold pc_ok in *. destruct (p_pc r) eqn:Ep; cbn in H4 |- *; try done.
    + destruct H4 as [Ha H4]. split; [done|]. intros j l' Hl'.
      destruct (Hlt j l' Hl') as (l & Hl & ?). specialize (H4 j l Hl). lia.
    + destruct H4 as [Ha H4]. split; [done|]. eapply Hw; eauto.
    + destruct H4 as (Ha & H4 & H5). destruct (li_own _ Hinv k r t ops Hk) as (Hb & _ & _); [by rewrite Ep|].
      split_and!; [done|eapply Hw; eauto; lia|]. intros x Hx.
      rewrite Hh, lookup_app_l in Hx by lia. unfold holds. rewrite (Hm t ops) by (done || lia).
      by apply H5.
    + eapply Hw; eauto.
    + destruct H4 as (Ha & Hne & Hct'). split_and!; [eapply Hw; eauto|done|].
      by rewrite (Hpc ops t adv eq_refl).
    + destruct H4 as (? & ? & ?). split_and!; [done|done|lia|lia].
    + destruct H4 as (? & ? & ? & ? & H5). split_and!; [done|done|lia|lia|lia|].
      intros p Hp. apply Hf; [lia|]. by apply H5.
    + destruct H4 as (? & ? & ? & ? & H5). split_and!; [done|done|lia|lia|lia|].
      intros p Hp. apply Hf; [lia|]. by apply H5.
    + destruct H4 as (? & ?). split_and!; [done|lia|lia].
    + destruct H4 as (? & ? & ?). split_and!; [done|lia|lia|lia].
    + destruct H4 as [? H4]. split; [done|]. intros i l' Hi Hl'.
      destruct (Hlt i l' Hl') as (l & Hl & ?). specialize (H4 i l Hi Hl). lia.
    + destruct H4 as [? H4]. split; [done|]. intros i l' Hl'.
      destruct (Hlt i l' Hl') as (l & Hl & ?). specialize (H4 i l Hl). lia.
Qed.

(** ** Steps that do not move the tails *)

Lemma window s k r : lp_inv s -> g_reps s !! k = Some r -> g_tail s <= g_commit s + size.
Proof. intros Hinv Hk. pose proof (li_lts _ Hinv k r Hk). pose proof (li_order _ Hinv). lia. Qed.

Lemma own_range s k r t ops p : lp_inv s -> g_reps s !! k = Some r ->
  unpub (p_pc r) = Some (t, ops) -> t <= p < t + length ops -> g_commit s <= p < g_tail s.
Proof.
  intros Hinv Hk Hu Hp. destruct (li_own _ Hinv k r t ops Hk Hu) as (Hb & Hc & _).
  assert (ops <> []) by (intros ->; cbn in Hp; lia). specialize (Hc H). lia.
Qed.

Lemma mem_idx_lt s p : lp_inv s -> idx p < length (g_mem s).
Proof.
  intros Hinv. apply (Nat.lt_le_trans _ size); [apply lp_index_lt|].
  apply Nat.eq_le_incl. symmetry. apply Hinv.
Qed.

(** What a step of [k] may do to the memory: write one of its own entries. *)
Definition mem_step s r (m' : list cell) : Prop :=
  m' = g_mem s \/ exists t ops p x, unpub (p_pc r) = Some (t, ops) /\ t <= p < t + length ops
    /\ g_hist s !! p = Some x /\ m' = <[idx p := Some x]> (g_mem s).

Lemma mem_step_published s k r m' p x : lp_inv s -> g_reps s !! k = Some r -> mem_step s r m' ->
  p < g_commit s -> g_tail s <= p + size -> holds (g_mem s) p x -> holds m' p x.
Proof.
  intros Hinv Hk [->|(t & ops & q & y & Hu & Hq & _ & ->)] Hp Hroom Hh; [done|].
  pose proof (own_range s k r t ops q Hinv Hk Hu Hq). unfold holds in *.
  rewrite list_lookup_insert_ne; [done|]. apply lp_index_ne; lia.
Qed.

Lemma mem_step_other s k r m' k2 r2 t2 ops2 p : lp_inv s -> g_reps s !! k = Some r ->
  mem_step s r m' -> k2 <> k -> g_reps s !! k2 = Some r2 -> unpub (p_pc r2) = Some (t2, ops2) ->
  t2 <= p < t2 + length ops2 -> m' !! idx p = g_mem s !! idx p.
Proof.
  intros Hinv Hk [->|(t & ops & q & y & Hu & Hq & _ & ->)] Hne Hk2 Hu2 Hp; [done|].
  pose proof (own_range s k r t ops q Hinv Hk Hu Hq).
  pose proof (own_range s k2 r2 t2 ops2 p Hinv Hk2 Hu2 Hp).
  pose proof (window s k r Hinv Hk).
  rewrite list_lookup_insert_ne; [done|]. apply lp_index_ne; [|lia|lia]. intros ->.
  by eapply (li_disj _ Hinv k k2 r r2).
Qed.

(** The memory of its own entries only gains. *)
Lemma mem_step_own s k r m' p x : lp_inv s -> g_reps s !! k = Some r -> mem_step s r m' ->
  g_commit s <= p -> g_hist s !! p = Some x -> holds (g_mem s) p x -> holds m' p x.
Proof.
  intros Hinv Hk [->|(t & ops & q & y & Hu & Hq & Hy & ->)] Hp Hx Hh; [done|].
  pose proof (own_range s k r t ops q Hinv Hk Hu Hq). pose proof (window s k r Hinv Hk).
  pose proof (li_tail _ Hinv). apply lookup_lt_Some in Hx as Hpl. unfold holds in *.
  destruct (decide (p = q)) as [->|Hne].
  - rewrite list_lookup_insert_eq by (by apply mem_idx_lt). congruence.
  - rewrite list_lookup_insert_ne; [done|]. apply lp_index_ne; lia.
Qed.

(** The same range of unpublished entries, or an empty one dropped. *)
Definition same_range r r' : Prop :=
  unpub (p_pc r') = unpub (p_pc r)
  \/ unpub (p_pc r') = None /\ exists t, unpub (p_pc r) = Some (t, []).

Lemma same_range_some r r' t ops : same_range r r' -> unpub (p_pc r') = Some (t, ops) ->
  unpub (p_pc r) = Some (t, ops).
Proof. intros [->|[-> _]]; done. Qed.

Lemma reps_insert s k r' k2 r2 : k < length (g_reps s) -> <[k := r']> (g_reps s) !! k2 = Some r2 ->
  k2 = k /\ r2 = r' \/ k2 <> k /\ g_reps s !! k2 = Some r2.
Proof.
  intros Hl [(<- & <- & _)|[Hne H]]%list_lookup_insert_Some; [by left|]. right. split; [congruence|done].
Qed.

Lemma ltails_insert s k r r' : g_reps s !! k = Some r -> p_ltail r' = p_ltail r ->
  p_ltail <$> <[k := r']> (g_reps s) = ltails s.
Proof.
  intros Hk Hl. rewrite list_fmap_insert, Hl. apply list_insert_id.
  unfold ltails. by rewrite list_lookup_fmap, Hk.
Qed.

Lemma inv_update s k r r' m' :
  lp_inv s -> g_reps s !! k = Some r -> p_ltail r' = p_ltail r -> same_range r r' ->
  mem_step s r m' -> rep_ok (set_mem (set_rep s k r') m') k r' ->
  lp_inv (set_mem (set_rep s k r') m').
Proof.
  intros Hinv Hk Hl Hr Hm Hok. pose proof (lookup_lt_Some _ _ _ Hk) as Hlen.
  assert (Hold : forall k2 r2, <[k := r']> (g_reps s) !! k2 = Some r2 -> exists r1,
            g_reps s !! k2 = Some r1 /\ p_ltail r2 = p_ltail r1 /\ same_range r1 r2).
  { intros k2 r2 [[-> ->]|[_ H]]%reps_insert; [by exists r|exists r2; split_and!; [done|done|by left]|done]. }
  split; cbn.
  - destruct Hm as [->|(t & ops & p & x & _ & _ & _ & ->)]; [apply Hinv|].
    rewrite length_insert. apply Hinv.
  - apply Hinv.
  - apply Hinv.
  - intros k2 r2 (r1 & H1 & -> & _)%Hold. by apply (li_lts _ Hinv k2).
  - intros p x Hp Hroom Hx. eapply mem_step_published; eauto. by apply (li_mem _ Hinv).
  - intros k2 r2 t ops (r1 & H1 & _ & Hs)%Hold Hu. eapply li_own; eauto. by eapply same_range_some.
  - intros k1 k2 r1 r2 t1 t2 ops1 ops2 p Hne (r1' & H1 & _ & Hs1)%Hold (r2' & H2 & _ & Hs2)%Hold Hu1 Hu2.
    apply (same_range_some _ _ _ _ Hs1) in Hu1. apply (same_range_some _ _ _ _ Hs2) in Hu2.
    by eapply (li_disj _ Hinv k1 k2).
  - intros p Hp. destruct (li_tile _ Hinv p Hp) as (k2 & r2 & t & ops & H2 & Hu & Hin).
    destruct (decide (k2 = k)) as [->|Hne].
    + rewrite Hk in H2. injection H2 as <-. exists k, r', t, ops.
      rewrite list_lookup_insert_eq by done. split_and!; [done| |lia..].
      destruct Hr as [->|[_ [t' Ht']]]; [done|]. rewrite Ht' in Hu. injection Hu as <- <-. cbn in Hin. lia.
    + exists k2, r2, t, ops. by rewrite list_lookup_insert_ne by done.
  - intros k2 r2 [[-> ->]|[Hne H2]]%reps_insert; [done| |done].
    eapply (rep_ok_mono s _ [] k2 r2); cbn; try done; [by rewrite app_nil_r| |].
    + intros j l' Hj. exists l'. split; [|done]. unfold ltails in Hj. cbn in Hj.
      by rewrite (ltails_insert s k r) in Hj.
    + intros t ops p Hu Hp. by eapply (mem_step_other s k r m' k2 r2).
Qed.

(** A step that only changes the replica. *)
Lemma inv_local s k r r' :
  lp_inv s -> g_reps s !! k = Some r -> p_ltail r' = p_ltail r -> same_range r r' ->
  rep_ok (set_rep s k r') k r' -> lp_inv (set_rep s k r').
Proof. intros Hinv Hk Hl Hr Hok. apply (inv_update s k r r' (g_mem s)); try done. by left. Qed.

(** ** Steps of one replica *)

Lemma pc_ok_set s k r r' : g_reps s !! k = Some r -> p_ltail r' = p_ltail r ->
  pc_ok s r' -> pc_ok (set_rep s k r') r'.
Proof.
  intros Hk Hl. unfold pc_ok. replace (ltails (set_rep s k r')) with (ltails s); [done|].
  symmetry. by apply (ltails_insert s k r).
Qed.

(** No line is dirty outside of the writing of an entry. *)
Definition not_writing r : Prop := match p_pc r with PFlush _ _ _ _ => False | _ => True end.

Lemma no_dirty s r q c : dirty_ok s r -> not_writing r -> p_cache r !! q <> Some (Some (c, true)).
Proof.
  intros Hd Hn Hq. destruct (Hd q c Hq) as (ops & t & adv & i & x & Hp & _).
  unfold not_writing in Hn. by rewrite Hp in Hn.
Qed.

(** A step to another program point. *)
Lemma inv_goto s k r p :
  lp_inv s -> g_reps s !! k = Some r -> not_writing r -> same_range r (set_pc r p) ->
  done_upto (set_pc r p) = done_upto r -> pc_ok s (set_pc r p) -> lp_inv (set_rep s k (set_pc r p)).
Proof.
  intros Hinv Hk Hn Hr Hd Hpc. apply (inv_local s k r); try done.
  destruct (li_reps _ Hinv k r Hk) as [H1 H2 H3 _]. split; [done| | |by apply (pc_ok_set s k r)].
  - by rewrite Hd.
  - intros q c Hq. by apply (no_dirty s r) in Hq.
Qed.

(** ** Caches *)

Lemma line_flush_clean m (c : list (option (cell * bool))) q :
  (forall x, c !! q <> Some (Some (x, true))) -> line_flush m c q = (m, <[q := None]> c).
Proof.
  intros H. unfold line_flush. destruct (c !! q) as [[[x []]|]|]; try done. by destruct (H x).
Qed.

Lemma line_fetch_cases m (c : list (option (cell * bool))) q :
  line_fetch m c q = c
  \/ exists x, c !! q = Some None /\ m !! q = Some x /\ line_fetch m c q = <[q := Some (x, false)]> c.
Proof.
  unfold line_fetch. destruct (c !! q) as [[y|]|] eqn:Eq; [by left| |by left].
  destruct (m !! q) as [x|] eqn:Em; [|by left]. right. eauto.
Qed.

Lemma line_fetch_length m (c : list (option (cell * bool))) q :
  length (line_fetch m c q) = length c.
Proof. destruct (line_fetch_cases m c q) as [->|(x & _ & _ & ->)]; [done|]. apply length_insert. Qed.

Lemma line_fetch_dirty m (c : list (option (cell * bool))) q q' x :
  line_fetch m c q !! q' = Some (Some (x, true)) <-> c !! q' = Some (Some (x, true)).
Proof.
  destruct (line_fetch_cases m c q) as [->|(y & Hc & _ & ->)]; [done|].
  destruct (decide (q = q')) as [<-|Hne]; [|by rewrite list_lookup_insert_ne].
  rewrite list_lookup_insert_eq by (by eapply lookup_lt_Some). naive_solver.
Qed.

(** Entries that the replica may read are in memory. *)
Lemma readable s k r p x : lp_inv s -> g_reps s !! k = Some r -> p_ltail r <= p < g_commit s ->
  g_hist s !! p = Some x -> holds (g_mem s) p x.
Proof.
  intros Hinv Hk Hp Hx. apply (li_mem _ Hinv); [lia| |done]. pose proof (li_lts _ Hinv k r Hk). lia.
Qed.

Lemma fetch_fresh s k r c q p : lp_inv s -> g_reps s !! k = Some r ->
  p_ltail r <= p < g_commit s -> fresh_line (g_hist s) c p ->
  fresh_line (g_hist s) (line_fetch (g_mem s) c q) p.
Proof.
  intros Hinv Hk Hp Hf x Hx. destruct (line_fetch_cases (g_mem s) c q) as [->|(y & Hc & Hy & ->)]; [by apply Hf|].
  destruct (decide (q = idx p)) as [->|Hne]; [|rewrite !list_lookup_insert_ne by done; by apply Hf].
  right. rewrite list_lookup_insert_eq by (by eapply lookup_lt_Some).
  enough (y = Some x) as -> by done. apply (inj Some). rewrite <- Hy.
  exact (readable s k r p x Hinv Hk Hp Hx).
Qed.

Lemma flush_fresh h (c : list (option (cell * bool))) q p :
  fresh_line h c p -> fresh_line h (<[q := None]> c) p.
Proof.
  intros Hf x Hx. destruct (decide (q = idx p)) as [->|Hne].
  - left. destruct (Hf x Hx) as [H|H]; apply list_lookup_insert_eq; by eapply lookup_lt_Some.
  - rewrite !list_lookup_insert_ne by done. by apply Hf.
Qed.

Lemma flushed_fresh h (c : list (option (cell * bool))) p :
  length c = size -> fresh_line h (<[idx p := None]> c) p.
Proof. intros Hl x _. left. apply list_lookup_insert_eq. rewrite Hl. apply lp_index_lt. Qed.

(** A cache loads a line. *)
Lemma inv_prefetch s k r q : lp_inv s -> g_reps s !! k = Some r ->
  lp_inv (set_rep s k (set_cache r (line_fetch (g_mem s) (p_cache r) q))).
Proof.
  intros Hinv Hk. pose proof (li_order _ Hinv) as Hord.
  destruct (li_reps _ Hinv k r Hk) as [H1 H2 H3 H4]. apply (inv_local s k r); [done|done|done|by left|].
  split; [by cbn; rewrite line_fetch_length|done| |apply (pc_ok_set s k r); [done|done|]].
  - intros q' x Hq. cbn in Hq. rewrite line_fetch_dirty in Hq. by apply H3.
  - assert (Hf : forall p, p_ltail r <= p < g_commit s -> fresh_line (g_hist s) (p_cache r) p ->
      fresh_line (g_hist s) (line_fetch (g_mem s) (p_cache r) q) p)
      by (intros p; by apply (fetch_fresh s k r)).
    unfold pc_ok in *. cbn [p_pc set_cache p_ltail p_cache]. destruct (p_pc r); try done.
    + destruct H4 as (? & ? & H5). split_and!; [done|done|]. intros x Hx.
      rewrite line_fetch_dirty. by apply H5.
    + destruct H4 as (? & ? & ? & ? & H5). split_and!; try done; try lia.
      intros p Hp. apply Hf; [lia|]. by apply H5.
    + destruct H4 as (? & ? & ? & ? & H5). split_and!; try done; try lia.
      intros p Hp. apply Hf; [lia|]. by apply H5.
Qed.

(** A cache drops a line, writing it back if it is dirty. *)
Lemma inv_evict s k r q m c : lp_inv s -> g_reps s !! k = Some r ->
  line_flush (g_mem s) (p_cache r) q = (m, c) -> lp_inv (set_mem (set_rep s k (set_cache r c)) m).
Proof.
  intros Hinv Hk E. destruct (li_reps _ Hinv k r Hk) as [H1 H2 H3 H4].
  assert (Hc : c = <[q := None]> (p_cache r) /\ mem_step s r m
    /\ (forall x, p_cache r !! q = Some (Some (x, true)) -> m !! q = Some x)).
  { unfold line_flush in E. destruct (p_cache r !! q) as [[[y []]|]|] eqn:Eq; injection E as <- <-;
      try (split_and!; [done|by left|done]).
    destruct (H3 q y Eq) as (ops & t & adv & i & x & Hp & -> & Hx & ->).
    split; [done|]. split.
    - right. exists t, ops, (t + i), x. unfold pc_ok in H4. rewrite Hp in *. cbn.
      split_and!; try done; lia.
    - intros z [= <-]. apply list_lookup_insert_eq. by apply mem_idx_lt. }
  destruct Hc as (-> & Hm & Hdirty). apply (inv_update s k r); [done|done|done|by left|done|].
  split; [by cbn; rewrite length_insert|done| |].
  - intros q' x Hq. cbn in Hq. apply list_lookup_insert_Some in Hq as [(_ & ? & _)|[_ Hq]]; [done|].
    destruct (H3 q' x Hq) as (ops & t & adv & i & y & Hp & -> & Hx & ->).
    by exists ops, t, adv, i, y.
  - assert (Hlt : ltails (set_mem (set_rep s k (set_cache r (<[q:=None]> (p_cache r)))) m) = ltails s)
      by (by apply (ltails_insert s k r)).
    assert (Hw : forall t ops n, unpub (p_pc r) = Some (t, ops) -> n <= length ops ->
              written (g_hist s) (g_mem s) t n -> written (g_hist s) m t n).
    { intros t ops n Hu Hn Hwr j x Hj Hx. eapply (mem_step_own s k r); eauto.
      pose proof (own_range s k r t ops (t + j) Hinv Hk Hu). lia. }
    unfold pc_ok in *. rewrite Hlt. cbn [p_pc set_cache p_ltail p_cache set_mem g_mem set_rep g_hist g_commit g_ctail].
    destruct (p_pc r) eqn:Ep; try done.
    + destruct H4 as [? ?]. split; [done|]. by eapply Hw.
    + destruct H4 as (? & ? & H5). split_and!; [done|eapply Hw; [done|lia|done]|]. intros x Hx.
      destruct (H5 x Hx) as [H6|H6].
      * left. eapply (mem_step_own s k r); eauto.
        assert (g_commit s <= t + i < g_tail s); [|lia].
        eapply (own_range s k r t ops); [done|done|by rewrite Ep|lia].
      * destruct (decide (q = idx (t + i))) as [->|Hne]; [left; by apply Hdirty|].
        right. by rewrite list_lookup_insert_ne.
    + by eapply Hw.
    + destruct H4 as (? & ? & ?). split_and!; [by eapply Hw|done|done].
    + destruct H4 as (? & ? & ? & ? & H5). split_and!; try done; try lia.
      intros p Hp. by apply flush_fresh, H5.
    + destruct H4 as (? & ? & ? & ? & H5). split_and!; try done; try lia.
      intros p Hp. by apply flush_fresh, H5.
Qed.

(** ** Steps that move the head, the commit tail, the completed tail or a local
    tail *)

(** Publication: [k] holds the first unpublished entries, all written. *)
Definition publishes s r (commit' : nat) : Prop :=
  (unpub (p_pc r) = None /\ commit' = g_commit s)
  \/ exists ops, unpub (p_pc r) = Some (g_commit s, ops) /\ ops <> []
       /\ commit' = g_commit s + length ops /\ written (g_hist s) (g_mem s) (g_commit s) (length ops).

Lemma publishes_le s r commit' : publishes s r commit' -> g_commit s <= commit'.
Proof. intros [[_ ->]|(ops & _ & _ & -> & _)]; lia. Qed.

(** The other appenders come after the published entries. *)
Lemma publishes_others s k r commit' k2 r2 t2 ops2 :
  lp_inv s -> g_reps s !! k = Some r -> publishes s r commit' -> k2 <> k ->
  g_reps s !! k2 = Some r2 -> unpub (p_pc r2) = Some (t2, ops2) -> ops2 <> [] -> commit' <= t2.
Proof.
  intros Hinv Hk Hp Hne Hk2 Hu2 Hne2. destruct (li_own _ Hinv k2 r2 t2 ops2 Hk2 Hu2) as (_ & Hc & _).
  specialize (Hc Hne2). destruct Hp as [[_ ->]|(ops & Hu & Hn & -> & _)]; [done|].
  destruct (decide (g_commit s + length ops <= t2)); [done|]. exfalso.
  apply (li_disj _ Hinv k k2 r r2 _ t2 ops ops2 t2 ltac:(done) Hk Hk2 Hu Hu2); [lia|].
  destruct ops2; [done|]. cbn. lia.
Qed.

Definition shared s k r' (head' commit' ctail' : nat) : lpsys :=
  mkLP head' (g_tail s) commit' ctail' (g_mem s) (g_hist s) (<[k := r']> (g_reps s)).

Lemma inv_shared s k r r' head' commit' ctail' :
  lp_inv s -> g_reps s !! k = Some r -> unpub (p_pc r') = None -> publishes s r commit' ->
  commit' <= g_tail s -> g_ctail s <= ctail' <= commit' -> p_ltail r <= p_ltail r' <= ctail' ->
  (forall j rj, g_reps s !! j = Some rj -> head' <= p_ltail rj) ->
  rep_ok (shared s k r' head' commit' ctail') k r' ->
  lp_inv (shared s k r' head' commit' ctail').
Proof.
  intros Hinv Hk Hu' Hp Hct Hcct Hlt Hhead Hok. pose proof (lookup_lt_Some _ _ _ Hk) as Hlen.
  pose proof (publishes_le _ _ _ Hp) as Hle.
  split; cbn.
  - apply Hinv.
  - apply Hinv.
  - lia.
  - intros k2 r2 [[-> ->]|[Hne H2]]%reps_insert; [| |done].
    + pose proof (li_lts _ Hinv k r Hk). specialize (Hhead k r Hk). lia.
    + pose proof (li_lts _ Hinv k2 r2 H2). specialize (Hhead k2 r2 H2). lia.
  - intros p x Hpc Hroom Hx. destruct (decide (p < g_commit s)); [by apply (li_mem _ Hinv)|].
    destruct Hp as [[_ ->]|(ops & _ & _ & -> & Hw)]; [lia|].
    replace p with (g_commit s + (p - g_commit s)) in Hx |- * by lia. apply Hw; [lia|done].
  - intros k2 r2 t ops [[-> ->]|[Hne H2]]%reps_insert Hu; [congruence| |done].
    destruct (li_own _ Hinv k2 r2 t ops H2 Hu) as (? & _ & ?). split_and!; [done| |done].
    intros Hn. by eapply (publishes_others s k r).
  - intros k1 k2 r1 r2 t1 t2 ops1 ops2 p Hne [[-> ->]|[_ H1]]%reps_insert; [congruence| |done].
    intros [[-> ->]|[_ H2]]%reps_insert; [congruence| |done]. by apply (li_disj _ Hinv k1 k2).
  - intros p Hpr. destruct (li_tile _ Hinv p) as (k2 & r2 & t & ops & H2 & Hu & Hin); [lia|].
    assert (k2 <> k) as Hne.
    { intros ->. rewrite Hk in H2. injection H2 as <-.
      destruct Hp as [[H _]|(ops2 & H & _ & -> & _)]; [congruence|].
      rewrite Hu in H. injection H as -> ->. lia. }
    exists k2, r2, t, ops. by rewrite list_lookup_insert_ne by done.
  - intros k2 r2 [[-> ->]|[Hne H2]]%reps_insert; [done| |done].
    eapply (rep_ok_mono s _ [] k2 r2); cbn; try done; [by rewrite app_nil_r|lia| |].
    + intros j l' Hj. unfold ltails in Hj. cbn in Hj. rewrite list_fmap_insert in Hj.
      apply list_lookup_insert_Some in Hj as [(<- & <- & _)|[_ Hj]]; [|by exists l'].
      exists (p_ltail r). split; [unfold ltails; by rewrite list_lookup_fmap, Hk|lia].
    + intros ops t adv Epc. destruct Hp as [[_ ->]|(ops2 & Hu & Hn & _ & _)]; [done|]. exfalso.
      destruct (li_reps _ Hinv k2 r2 H2) as [_ _ _ Hpc2]. unfold pc_ok in Hpc2. rewrite Epc in Hpc2.
      destruct Hpc2 as (_ & Hn2 & Ht).
      apply (li_disj _ Hinv k k2 r r2 (g_commit s) t ops2 ops t ltac:(done) Hk H2 Hu); [by rewrite Epc| |].
      * destruct ops2; [done|]. cbn. lia.
      * destruct ops; [done|]. cbn. lia.
Qed.

(** Reserving entries. *)
Lemma inv_reserve s k r a adv : lp_inv s -> g_reps s !! k = Some r -> p_pc r = PCas a (g_tail s) adv ->
  lp_inv (mkLP (g_head s) (g_tail s + length (a_ops a)) (g_commit s) (g_ctail s) (g_mem s)
    (g_hist s ++ map (fun o => (o, S k)) (a_ops a))
    (<[k := set_pc r (PWrite (a_ops a) (g_tail s) adv 0)]> (g_reps s))).
Proof.
  intros Hinv Hk Epc. pose proof (lookup_lt_Some _ _ _ Hk) as Hlen.
  pose proof (li_tail _ Hinv) as Htl. pose proof (li_order _ Hinv) as Hord.
  pose proof (done_upto_le s k r Hinv Hk) as Hdone.
  destruct (li_reps _ Hinv k r Hk) as [H1 H2 H3 H4]. unfold pc_ok in H4. rewrite Epc in H4.
  destruct H4 as [Ha Hroom]. unfold app_ok in Ha.
  assert (Hur : unpub (p_pc r) = None) by (by rewrite Epc).
  set (r' := set_pc r _). assert (Hlr : p_ltail r' = p_ltail r) by done.
  split; cbn.
  - apply Hinv.
  - rewrite length_app, length_map. lia.
  - lia.
  - intros k2 r2 Hk2. assert (Hl2 : ltails s !! k2 = Some (p_ltail r2)).
    { rewrite <- (ltails_insert s k r r' Hk Hlr), list_lookup_fmap. by rewrite Hk2. }
    specialize (Hroom k2 _ Hl2).
    apply reps_insert in Hk2 as [[-> ->]|[Hne H2']]; [| |done].
    + pose proof (li_lts _ Hinv k r Hk). cbn in *. lia.
    + pose proof (li_lts _ Hinv k2 r2 H2'). lia.
  - intros p x Hp Hr Hx. rewrite lookup_app_l in Hx by lia. apply (li_mem _ Hinv); [done|lia|done].
  - intros k2 r2 t ops [[-> ->]|[Hne Hk2]]%reps_insert Hu; [| |done].
    + injection Hu as <- <-. split_and!; [lia|lia|]. intros j o Ho.
      rewrite lookup_app_r by lia. rewrite Htl. replace (_ + j - _) with j by lia.
      by rewrite list_lookup_fmap, Ho.
    + destruct (li_own _ Hinv k2 r2 t ops Hk2 Hu) as (? & ? & Hx). split_and!; [lia|done|].
      intros j o Ho. by apply lookup_app_l_Some, Hx.
  - intros k1 k2 r1 r2 t1 t2 ops1 ops2 p Hne [[-> ->]|[_ Hk1]]%reps_insert; [| |done].
    + intros [[-> ->]|[_ Hk2]]%reps_insert Hu1 Hu2 Hp1 Hp2; [done| |done]. injection Hu1 as <- <-.
      destruct (li_own _ Hinv k2 r2 t2 ops2 Hk2 Hu2) as (? & _). lia.
    + intros [[-> ->]|[_ Hk2]]%reps_insert Hu1 Hu2 Hp1 Hp2; [| |done].
      * injection Hu2 as <- <-. destruct (li_own _ Hinv k1 r1 t1 ops1 Hk1 Hu1) as (? & _). lia.
      * by apply (li_disj _ Hinv k1 k2 r1 r2 t1 t2 ops1 ops2 p).
  - intros p Hp. destruct (decide (p < g_tail s)) as [Hlt|Hge].
    + destruct (li_tile _ Hinv p) as (k2 & r2 & t & ops & Hk2 & Hu & Hin); [lia|].
      exists k2, r2, t, ops. rewrite list_lookup_insert_ne; [done|]. intros <-. congruence.
    + exists k, r', (g_tail s), (a_ops a). rewrite list_lookup_insert_eq by done. split_and!; [done|done|lia|lia].
  - intros k2 r2 [[-> ->]|[Hne Hk2]]%reps_insert; [| |done].
    + split; cbn; [done| | |].
      * rewrite H2. unfold done_upto in *. rewrite Epc in *. cbn. by rewrite take_app_le by lia.
      * intros q c Hq. exfalso. apply (no_dirty s r) in Hq; [done|done|]. unfold not_writing. by rewrite Epc.
      * unfold pc_ok. cbn. split; [lia|]. intros j x Hj. lia.
    + eapply (rep_ok_mono s _ _ k2 r2); cbn; try done.
      intros j l' Hj. exists l'. split; [|done]. unfold ltails in Hj. cbn in Hj.
      by rewrite (ltails_insert s k r r' Hk Hlr) in Hj.
Qed.

(** ** Every step *)

Lemma set_rep_twice s k r1 r2 m :
  set_rep (set_mem (set_rep s k r1) m) k r2 = set_mem (set_rep s k r2) m.
Proof. unfold set_rep, set_mem. cbn. by rewrite list_insert_insert_eq. Qed.

Lemma set_rep_lookup s k r r' m : g_reps s !! k = Some r ->
  g_reps (set_mem (set_rep s k r') m) !! k = Some r'.
Proof. intros Hk. cbn. apply list_lookup_insert_eq. by eapply lookup_lt_Some. Qed.

(** The end of the writing of an entry. *)
Lemma inv_flush_entry s k r ops t adv i m c : lp_inv s -> g_reps s !! k = Some r ->
  p_pc r = PFlush ops t adv i -> line_flush (g_mem s) (p_cache r) (idx (t + i)) = (m, c) ->
  lp_inv (set_mem (set_rep s k (set_cache (set_pc r (PWrite ops t adv (i + 1))) c)) m).
Proof.
  intros Hinv Hk Epc Ef. pose proof (inv_evict s k r _ m c Hinv Hk Ef) as Hinv1.
  set (s1 := set_mem (set_rep s k (set_cache r c)) m) in *.
  pose proof (set_rep_lookup s k r (set_cache r c) m Hk) as Hk1. fold s1 in Hk1.
  destruct (li_reps _ Hinv1 k _ Hk1) as [H1 H2 H3 H4]. cbn in H1.
  assert (Hq : c !! idx (t + i) = Some None).
  { assert (c = <[idx (t + i) := None]> (p_cache r)) as ->.
    { unfold line_flush in Ef. by destruct (p_cache r !! idx (t + i)) as [[[y []]|]|]; injection Ef as <- <-. }
    rewrite length_insert in H1. apply list_lookup_insert_eq. rewrite H1. apply lp_index_lt. }
  rewrite <- (set_rep_twice s k (set_cache r c)). fold s1.
  change (set_cache (set_pc r ?p) c) with (set_pc (set_cache r c) p).
  unfold pc_ok in H4. cbn in H4. rewrite Epc in H4. destruct H4 as (Hi & Hw & Hx).
  apply (inv_local s1 k (set_cache r c)); [done|done|done|by left; cbn; rewrite Epc|].
  split; [done| | |apply (pc_ok_set s1 k (set_cache r c)); [done|done|]].
  - cbn in H2 |- *. rewrite H2. unfold done_upto. cbn. by rewrite Epc.
  - intros q x Hd. cbn in Hd. exfalso.
    destruct (H3 q x Hd) as (ops' & t' & adv' & i' & y & Hp & -> & _). cbn in Hp.
    rewrite Epc in Hp. injection Hp as -> -> -> ->. discriminate (eq_trans (eq_sym Hq) Hd).
  - unfold pc_ok. cbn. split; [lia|]. intros j x Hj Hjx. destruct (decide (j = i)) as [->|Hne].
    + destruct (Hx x Hjx) as [H|H]; [done|]. discriminate (eq_trans (eq_sym Hq) H).
    + apply Hw; [lia|done].
Qed.

(** Writing an entry into the cache. *)
Lemma inv_write_entry s k r ops t adv i o : lp_inv s -> g_reps s !! k = Some r ->
  p_pc r = PWrite ops t adv i -> ops !! i = Some o ->
  lp_inv (set_rep s k (set_cache (set_pc r (PFlush ops t adv i))
    (<[idx (t + i) := Some (Some (o, S k), true)]> (p_cache r)))).
Proof.
  intros Hinv Hk Epc Ho. destruct (li_reps _ Hinv k r Hk) as [H1 H2 H3 H4].
  destruct (li_own _ Hinv k r t ops Hk) as (Hb & _ & Hx); [by rewrite Epc|]. specialize (Hx i o Ho).
  unfold pc_ok in H4. rewrite Epc in H4. destruct H4 as [Hi Hw].
  apply (inv_local s k r); [done|done|done|by left; rewrite Epc|].
  split; [by cbn; rewrite length_insert| | |apply (pc_ok_set s k r); [done|done|]].
  - cbn. rewrite H2. unfold done_upto. by rewrite Epc.
  - intros q c Hq. cbn in Hq. apply list_lookup_insert_Some in Hq as [(<- & [= <-] & _)|[_ Hq]].
    + by exists ops, t, adv, i, (o, S k).
    + exfalso. apply (no_dirty s r) in Hq; [done|done|]. unfold not_writing. by rewrite Epc.
  - unfold pc_ok. cbn. split_and!; [by eapply lookup_lt_Some|done|]. intros x Hxx. right.
    rewrite Hx in Hxx. injection Hxx as <-. apply list_lookup_insert_eq. rewrite H1. apply lp_index_lt.
Qed.

(** Dropping the stale copy of an entry before it is read. *)
Lemma inv_flush_stale s k r e l g i m c : lp_inv s -> g_reps s !! k = Some r ->
  p_pc r = EFlush e l g i -> i < g -> line_flush (g_mem s) (p_cache r) (idx i) = (m, c) ->
  lp_inv (set_mem (set_rep s k (set_cache (set_pc r (EFlush e l g (i + 1))) c)) m).
Proof.
  intros Hinv Hk Epc Hi Ef. pose proof (inv_evict s k r _ m c Hinv Hk Ef) as Hinv1.
  destruct (li_reps _ Hinv k r Hk) as [Hl _ Hd _].
  rewrite line_flush_clean in Ef.
  2: { intros x. apply (no_dirty s r); [done|]. unfold not_writing. by rewrite Epc. }
  injection Ef as <- <-.
  set (s1 := set_mem (set_rep s k (set_cache r _)) (g_mem s)) in *.
  pose proof (set_rep_lookup s k r (set_cache r (<[idx i := None]> (p_cache r))) (g_mem s) Hk) as Hk1.
  fold s1 in Hk1. destruct (li_reps _ Hinv1 k _ Hk1) as [_ _ _ H4].
  rewrite <- (set_rep_twice s k (set_cache r (<[idx i := None]> (p_cache r)))). fold s1.
  change (set_cache (set_pc r ?p) ?c) with (set_pc (set_cache r c) p).
  unfold pc_ok in H4. cbn in H4. rewrite Epc in H4. destruct H4 as (? & ? & ? & ? & Hf).
  apply (inv_goto s1 k); [done|done| |left|unfold done_upto|unfold pc_ok]; cbn; rewrite ?Epc; try done.
  - unfold not_writing. cbn. by rewrite Epc.
  - split_and!; try done; try lia. intros p Hp. destruct (decide (p = i)) as [->|Hne].
    + by apply flushed_fresh.
    + apply Hf. lia.
Qed.

(** Reading an entry. *)
Lemma read_entry s k r e l g i x : lp_inv s -> g_reps s !! k = Some r -> p_pc r = ERead e l g i ->
  i < g -> g_hist s !! i = Some x ->
  line_read (line_fetch (g_mem s) (p_cache r) (idx i)) (idx i) = Some x.
Proof.
  intros Hinv Hk Epc Hi Hx. destruct (li_reps _ Hinv k r Hk) as [H1 _ _ H4].
  unfold pc_ok in H4. rewrite Epc in H4. destruct H4 as (_ & -> & Hg & Hlg & Hf).
  pose proof (readable s k r i x Hinv Hk ltac:(lia) Hx) as Hm. unfold holds in Hm.
  unfold line_read, line_fetch. destruct (Hf i ltac:(lia) x Hx) as [E|E].
  - rewrite E. destruct (g_mem s !! idx i) as [y|] eqn:Ey; [|done]. injection Hm as ->.
    rewrite list_lookup_insert_eq; [done|]. by eapply lookup_lt_Some.
  - rewrite E, E. done.
Qed.

Lemma inv_read_entry s k r e l g i o rep : lp_inv s -> g_reps s !! k = Some r ->
  p_pc r = ERead e l g i -> i < g -> g_hist s !! i = Some (o, rep) ->
  lp_inv (set_rep s k (mkPrep (ERead e l g (i + 1)) (p_ltail r)
    (p_applied r ++ [(o, rep =? S k)]) (line_fetch (g_mem s) (p_cache r) (idx i)))).
Proof.
  intros Hinv Hk Epc Hi Hx. destruct (li_reps _ Hinv k r Hk) as [H1 H2 H3 H4].
  pose proof H4 as Hpc. unfold pc_ok in Hpc. rewrite Epc in Hpc. destruct Hpc as (? & ? & ? & ? & Hf).
  apply (inv_local s k r); [done|done|done|by left; rewrite Epc|].
  split; [by cbn; rewrite line_fetch_length| | |apply (pc_ok_set s k r); [done|done|]].
  - cbn. rewrite H2. unfold done_upto. rewrite Epc. cbn. rewrite Nat.add_1_r, (take_S_r _ _ _ Hx).
    unfold calls. by rewrite map_app.
  - intros q c Hq. cbn in Hq. rewrite line_fetch_dirty in Hq. exfalso.
    apply (no_dirty s r) in Hq; [done|done|]. unfold not_writing. by rewrite Epc.
  - unfold pc_ok. cbn. split_and!; try done; try lia. intros p Hp.
    eapply (fetch_fresh s k r); [done|done|lia|by apply Hf].
Qed.

Lemma eresume_ok s r e : ekont_ok e -> pc_ok s (set_pc r (eresume e)).
Proof. by destruct e. Qed.
Lemma aresume_ok s r a : akont_ok a -> pc_ok s (set_pc r (aresume a)).
Proof. by destruct a. Qed.

(** Solves the side conditions of [inv_goto] once the program counter is known. *)
Ltac goto_side Epc :=
  match goal with
  | |- not_writing _ => unfold not_writing; by rewrite Epc
  | |- same_range _ _ => left; cbn; by rewrite Epc
  | |- done_upto _ = done_upto _ => unfold done_upto; cbn; by rewrite Epc
  end.

(** The accesses of [append] and [publish]. *)
Lemma append_step_inv s k r : lp_inv s -> g_reps s !! k = Some r ->
  match p_pc r with
  | PTail _ | PHead _ _ | PCas _ _ _ | PWrite _ _ _ _ | PFlush _ _ _ _ | PPub _ _ _ | PCommit _ _ _ =>
      lp_inv (lp_run size s k r)
  | _ => True
  end.
Proof.
  intros Hinv Hk. destruct (li_reps _ Hinv k r Hk) as [H1 H2 H3 H4]. pose proof H4 as Hpc.
  unfold pc_ok in Hpc. destruct (p_pc r) as [|a|a t|a t adv|ops t adv i|ops t adv i|ops t adv|ops t adv
    | | | | | | | | | | | | |] eqn:Epc; try done; unfold lp_run, lp_append, lp_exec, lp_advance; rewrite Epc.
  - destruct (_ =? 0); apply (inv_goto s k r); first [done|goto_side Epc|exact Hpc].
  - destruct (Nat.ltb_spec (g_head s + size - GC_FROM_HEAD) t).
    + destruct (_ =? 0); apply (inv_goto s k r); first [done|goto_side Epc|exact Hpc].
    + apply (inv_goto s k r); try first [done|goto_side Epc]. split; [exact Hpc|].
      intros j l Hl. apply list_lookup_fmap_Some in Hl as (rj & -> & Hj).
      pose proof (li_lts _ Hinv j rj Hj). lia.
  - destruct (Nat.eqb_spec (g_tail s) t) as [<-|]; [by apply inv_reserve|].
    apply (inv_goto s k r); first [done|goto_side Epc|apply Hpc].
  - destruct (ops !! i) as [o|] eqn:Eo; [by apply (inv_write_entry s k r)|].
    apply (inv_goto s k r); try first [done|goto_side Epc].
    unfold pc_ok. cbn. apply lookup_ge_None in Eo. intros j x Hj. apply Hpc. lia.
  - destruct (line_flush _ _ _) as [m c] eqn:Ef. by apply (inv_flush_entry s k r ops t adv i).
  - destruct (Nat.eqb_spec (length ops) 0) as [E0|E0].
    + apply (inv_goto s k r); [done|done|goto_side Epc| | |].
      * right. cbn. rewrite Epc. destruct ops; [|done]. by destruct adv; eauto.
      * unfold done_upto. rewrite Epc. by destruct adv.
      * by destruct adv.
    + destruct (Nat.eqb_spec (g_commit s) t) as [Ec|]; [|done].
      apply (inv_goto s k r); try first [done|goto_side Epc]. split_and!; [exact Hpc| |done].
      by destruct ops.
  - destruct Hpc as (Hw & Hne & <-).
    destruct (li_own _ Hinv k r (g_commit s) ops Hk) as (Hb & _); [by rewrite Epc|].
    pose proof (li_order _ Hinv). pose proof (li_lts _ Hinv k r Hk).
    apply (inv_shared s k r); cbn; try done; try lia.
    + by destruct adv.
    + right. exists ops. rewrite Epc. done.
    + intros j rj Hj. pose proof (li_lts _ Hinv j rj Hj). lia.
    + split; cbn; [done| | |by destruct adv].
      * rewrite H2. unfold done_upto. rewrite Epc. by destruct adv.
      * intros q c Hq. exfalso. apply (no_dirty s r) in Hq; [done|done|]. goto_side Epc.
Qed.

(** A replica after a step that moves a tail, when its cache is unchanged. *)
Lemma shared_rep_ok s k r p l hd c ct : lp_inv s -> g_reps s !! k = Some r -> not_writing r ->
  done_upto (mkPrep p l (p_applied r) (p_cache r)) = done_upto r ->
  pc_ok (shared s k (mkPrep p l (p_applied r) (p_cache r)) hd c ct) (mkPrep p l (p_applied r) (p_cache r)) ->
  rep_ok (shared s k (mkPrep p l (p_applied r) (p_cache r)) hd c ct) k (mkPrep p l (p_applied r) (p_cache r)).
Proof.
  intros Hinv Hk Hn Hd Hpc. destruct (li_reps _ Hinv k r Hk) as [H1 H2 H3 _]. split; cbn; [done| | |done].
  - by rewrite Hd.
  - intros q x Hq. exfalso. by apply (no_dirty s r) in Hq.
Qed.

(** The accesses of [exec]. *)
Lemma exec_step_inv s k r : lp_inv s -> g_reps s !! k = Some r ->
  match p_pc r with
  | EStart _ | EGtail _ _ | EHead _ _ _ | EFlush _ _ _ _ | ERead _ _ _ _ | ECtail _ _ | EStore _ _ =>
      lp_inv (lp_run size s k r)
  | _ => True
  end.
Proof.
  intros Hinv Hk. destruct (li_reps _ Hinv k r Hk) as [H1 H2 H3 H4]. pose proof H4 as Hpc.
  pose proof (li_order _ Hinv) as Hord. pose proof (li_lts _ Hinv k r Hk) as Hlts.
  assert (Hhead : forall j rj, g_reps s !! j = Some rj -> g_head s <= p_ltail rj)
    by (intros j rj Hj; apply (li_lts _ Hinv j rj Hj)).
  unfold pc_ok in Hpc. destruct (p_pc r) as [| | | | | | | |e|e l|e l g|e l g i|e l g i|e g|e g
    | | | | | |] eqn:Epc; try done; unfold lp_run, lp_append, lp_exec, lp_advance; rewrite Epc.
  - apply (inv_goto s k r); first [done|goto_side Epc].
  - destruct Hpc as [He ->]. destruct (Nat.eqb_spec (p_ltail r) (g_commit s)).
    + apply (inv_goto s k r); [done|done|goto_side Epc| | |by apply eresume_ok].
      * left. cbn. rewrite Epc. by destruct e.
      * unfold done_upto. rewrite Epc. by destruct e.
    + apply (inv_goto s k r); try first [done|goto_side Epc]. split_and!; [done|done|lia|lia].
  - destruct Hpc as (He & -> & Hlg).
    destruct (Nat.ltb_spec g (p_ltail r)); [lia|]. destruct (Nat.ltb_spec (p_ltail r) (g_head s)); [lia|].
    cbn [orb]. apply (inv_goto s k r); try first [done|goto_side Epc]. split_and!; try done; lia.
  - destruct (Nat.ltb_spec i g).
    + destruct (line_flush _ _ _) as [m c] eqn:Ef. by apply (inv_flush_stale s k r e l g i).
    + apply (inv_goto s k r); try first [done|goto_side Epc].
      * unfold done_upto. cbn. rewrite Epc. apply Hpc.
      * destruct Hpc as (He & -> & Hg & Hlg & Hf). split_and!; try done; try lia.
        intros p Hp. apply Hf. lia.
  - destruct (Nat.ltb_spec i g) as [Hi|Hi].
    + assert (exists x, g_hist s !! i = Some x) as [[o rep] Hx].
      { apply lookup_lt_is_Some_2. rewrite <- (li_tail _ Hinv). lia. }
      rewrite (read_entry s k r e l g i _ Hinv Hk Epc Hi Hx). by apply (inv_read_entry s k r e l g i).
    + destruct Hpc as (He & -> & Hg & Hlg & Hf). assert (i = g) as -> by lia.
      apply (inv_goto s k r); try first [done|goto_side Epc]. split_and!; [done|cbn; lia|cbn; lia].
  - destruct Hpc as [He Hg].
    apply (inv_shared s k r (set_pc r (EStore e g)) (g_head s) (g_commit s)); cbn; try done; try lia.
    + left. by rewrite Epc.
    + apply shared_rep_ok; [done|done|goto_side Epc| |].
      * unfold done_upto. cbn. by rewrite Epc.
      * split_and!; [done|cbn; lia|cbn; lia|cbn; lia].
  - destruct Hpc as (He & Hg & Hgc').
    apply (inv_shared s k r (mkPrep (eresume e) g (p_applied r) (p_cache r)) (g_head s) (g_commit s));
      cbn; try done; try lia.
    + by destruct e.
    + left. by rewrite Epc.
    + apply shared_rep_ok; [done|done|goto_side Epc| |by apply (eresume_ok _ (mkPrep PIdle g _ _))].
      unfold done_upto. cbn. rewrite Epc. by destruct e.
Qed.

(** The accesses of [advance_head] and [find_min_tail]. *)
Lemma advance_step_inv s k r : lp_inv s -> g_reps s !! k = Some r ->
  match p_pc r with
  | HHead _ _ | HTail _ _ _ | HFirst _ _ _ _ | HScan _ _ _ _ _ _ | HStore _ _ _ _ =>
      lp_inv (lp_run size s k r)
  | _ => True
  end.
Proof.
  intros Hinv Hk. destruct (li_reps _ Hinv k r Hk) as [H1 H2 H3 H4]. pose proof H4 as Hpc.
  pose proof (li_order _ Hinv) as Hord. pose proof (li_lts _ Hinv k r Hk) as Hlts.
  unfold pc_ok in Hpc. destruct (p_pc r) as [| | | | | | | | | | | | | |
    |a it|a it h|a it h f|a it h f j m|a it f m|] eqn:Epc; try done; unfold lp_run, lp_append, lp_exec, lp_advance; rewrite Epc.
  - apply (inv_goto s k r); first [done|goto_side Epc].
  - apply (inv_goto s k r); first [done|goto_side Epc].
  - destruct (g_reps s !! 0) as [r0|]; [|done].
    apply (inv_goto s k r); try first [done|goto_side Epc]. split; [exact Hpc|]. intros i l Hi. lia.
  - destruct Hpc as [Ha Hm]. destruct (g_reps s !! j) as [rj|] eqn:Ej.
    + apply (inv_goto s k r); try first [done|goto_side Epc]. split; [done|]. intros i l Hi Hl.
      destruct (decide (i = j)) as [->|Hne].
      * unfold ltails in Hl. rewrite list_lookup_fmap, Ej in Hl. injection Hl as <-. lia.
      * specialize (Hm i l ltac:(lia) Hl). lia.
    + destruct (m =? h).
      * destruct (_ =? 0); apply (inv_goto s k r); first [done|goto_side Epc|exact Ha].
      * apply (inv_goto s k r); try first [done|goto_side Epc]. split; [done|]. intros i l Hl.
        apply (Hm i l); [|done]. apply lookup_lt_Some in Hl. apply lookup_ge_None in Ej.
        unfold ltails in Hl. rewrite length_fmap in Hl. lia.
  - destruct Hpc as [Ha Hm]. set (next := if _ <? _ then _ else _).
    assert (Hnext : pc_ok s (set_pc r next)).
    { subst next. destruct (_ <? _); [by apply aresume_ok|exact Ha]. }
    assert (Hn : unpub next = None /\ done_upto (set_pc r next) = p_ltail r).
    { subst next. destruct (_ <? _); [by destruct a|done]. }
    destruct Hn as [Hu Hd].
    apply (inv_shared s k r (set_pc r next) m (g_commit s) (g_ctail s)); cbn; try done; try lia.
    + left. by rewrite Epc.
    + intros i ri Hi. apply (Hm i). unfold ltails. by rewrite list_lookup_fmap, Hi.
    + apply shared_rep_ok; [done|done|goto_side Epc| |].
      * cbn. unfold done_upto at 2. rewrite Epc. exact Hd.
      * subst next. destruct (_ <? _); [by apply (aresume_ok _ r)|exact Ha].
Qed.

Lemma lp_next_inv s x s' : lp_inv s -> lp_next size s x = Some s' -> lp_inv s'.
Proof.
  intros Hinv E. unfold lp_next in E.
  destruct (g_reps s !! lp_label_rep x) as [r|] eqn:Hk; [|done]. cbn [mbind option_bind] in E.
  destruct x as [k ops|k|k|k|k q|k q]; cbn in Hk.
  - destruct (p_pc r) eqn:Epc; try done. destruct (Nat.leb_spec (length ops) GC_FROM_HEAD); [|done].
    injection E as <-. apply (inv_goto s k r); first [done|goto_side Epc].
  - destruct (p_pc r) eqn:Epc; try done. injection E as <-.
    apply (inv_goto s k r); first [done|goto_side Epc].
  - injection E as <-. pose proof (append_step_inv s k r Hinv Hk) as Ha.
    pose proof (exec_step_inv s k r Hinv Hk) as He. pose proof (advance_step_inv s k r Hinv Hk) as Hh.
    destruct (p_pc r) eqn:Epc; try done; unfold lp_run, lp_append, lp_exec, lp_advance; by rewrite Epc.
  - destruct (p_pc r) eqn:Epc; try done. injection E as <-.
    destruct (li_reps _ Hinv k r Hk) as [_ _ _ Hpc]. unfold pc_ok in Hpc. rewrite Epc in Hpc.
    apply (inv_goto s k r); first [done|goto_side Epc|apply Hpc].
  - injection E as <-. by apply inv_prefetch.
  - destruct (line_flush _ _ _) as [m c] eqn:Ef. injection E as <-. by apply (inv_evict s k r q).
Qed.

Lemma lp_init_inv s : lp_init size s -> lp_inv s.
Proof.
  intros [n ->].
  assert (Hr : forall k r, replicate n (mkPrep PIdle 0 [] (replicate size None)) !! k = Some r ->
            r = mkPrep PIdle 0 [] (replicate size None)) by (intros k r [-> _]%lookup_replicate; done).
  split; cbn; try done; try lia.
  - by rewrite length_replicate.
  - intros k r ->%Hr. cbn. lia.
  - intros k r t ops ->%Hr. done.
  - intros k k' r r' t t' ops ops' p _ ->%Hr. done.
  - intros k r ->%Hr. split; cbn; [by rewrite length_replicate|done| |done].
    intros q c [? _]%lookup_replicate. done.
Qed.

Lemma lp_reachable_inv s : lp_reachable size s -> lp_inv s.
Proof.
  apply reachable_inv; [apply lp_init_inv|]. intros s1 s2 H [x Hx]. by eapply lp_next_inv.
Qed.
End Inv.
