(* ===== verification/LogProtocolTheorems.v ===== *)
(** * Theorems about the concurrent log

    What the combiners of several replicas may rely on when they use the log of
    nr/log.rs at the same time, each through a cache of its own; consequences of
    the invariant of LogProtocolSpec. *)

From S2P Require Import Prelude Context Log LogProtocol LogProtocolSpec.

Section Theorems.
Context {O : Type} (size : nat).
Hypothesis Hpow : is_pow2 size.
Hypothesis Hgc : GC_FROM_HEAD <= size.
Implicit Types (s : lpsys (O := O)) (r : prep (O := O)).

(** ** Helpers *)

Lemma calls_ops k (h : list (O * nat)) : map fst (calls k h) = map fst h.
Proof. unfold calls. by rewrite map_map. Qed.

Lemma take_prefix {A} (l : list A) n m : n <= m -> take n l `prefix_of` take m l.
Proof. intros H. exists (take (m - n) (drop n l)). rewrite take_take_drop. f_equal. lia. Qed.

Lemma map_prefix {A B} (f : A -> B) l l' : l `prefix_of` l' -> map f l `prefix_of` map f l'.
Proof. intros [e ->]. exists (map f e). apply map_app. Qed.

(** The history only grows. *)
Lemma lp_next_hist s x s' : lp_next size s x = Some s' -> g_hist s `prefix_of` g_hist s'.
Proof.
  unfold lp_next. destruct (g_reps s !! lp_label_rep x) as [r|]; [|done]. cbn [mbind option_bind].
  assert (Hr : forall k, g_hist s `prefix_of` g_hist (lp_run size s k r)).
  { intros k. unfold lp_run, lp_append, lp_exec, lp_advance. destruct (p_pc r); repeat case_match; cbn; try done. by eexists. }
  intros E. destruct x; repeat case_match; simplify_eq; cbn; try done.
Qed.

Lemma run_hist ls s s' : run_labels (lp_next size) s ls = Some s' -> g_hist s `prefix_of` g_hist s'.
Proof.
  revert s. induction ls as [|x ls IH]; intros s; cbn; [by intros [= <-]|].
  destruct (lp_next size s x) as [s1|] eqn:E; [|done]. intros H.
  etrans; [by eapply lp_next_hist|by apply IH].
Qed.

Lemma run_inv ls s s' : lp_inv size s -> run_labels (lp_next size) s ls = Some s' -> lp_inv size s'.
Proof.
  revert s. induction ls as [|x ls IH]; intros s Hi; cbn; [by intros [= <-]|].
  destruct (lp_next size s x) as [s1|] eqn:E; [|done]. apply IH. by eapply lp_next_inv.
Qed.

Lemma done_upto_ge s k r : lp_inv size s -> g_reps s !! k = Some r -> p_ltail r <= done_upto r.
Proof.
  intros Hinv Hk. destruct (li_reps _ _ Hinv k r Hk) as [_ _ _ Hpc]. unfold pc_ok, done_upto in *.
  destruct (p_pc r); try lia; naive_solver lia.
Qed.

(** The combiner of replica [k] running alone reaches a state with [P]. *)
Definition solo k s (P : lpsys -> Prop) : Prop :=
  exists n s', run_labels (lp_next size) s (replicate n (LStep k)) = Some s' /\ P s'.

Lemma solo_done k s (P : lpsys -> Prop) : P s -> solo k s P.
Proof. intros H. by exists 0, s. Qed.

Lemma solo_step k s r (P : lpsys -> Prop) :
  g_reps s !! k = Some r -> solo k (lp_run size s k r) P -> solo k s P.
Proof.
  intros Hk (n & s' & Hr & HP). exists (S n), s'. split; [|done]. cbn. unfold lp_next. cbn. by rewrite Hk.
Qed.

Lemma solo_step_inv k s r : lp_inv size s -> g_reps s !! k = Some r -> lp_inv size (lp_run size s k r).
Proof. intros Hi Hk. eapply (lp_next_inv size Hpow Hgc s (LStep k)); [done|]. unfold lp_next. cbn. by rewrite Hk. Qed.

(** The replica after a step of its own. *)
Lemma reps_set (l : list (prep (O := O))) k r r' : l !! k = Some r -> <[k := r']> l !! k = Some r'.
Proof. intros Hk. apply list_lookup_insert_eq. by eapply lookup_lt_Some. Qed.

(** An appender that is first in line publishes by its own steps. *)
Lemma solo_publish k s r ops t adv : g_reps s !! k = Some r -> p_pc r = PPub ops t adv ->
  ops <> [] -> g_commit s = t -> solo k s (fun s' => g_commit s' = t + length ops).
Proof.
  intros Hk Epc Hne <-. apply (solo_step k s r); [done|]. unfold lp_run, lp_append, lp_exec, lp_advance. rewrite Epc.
  destruct ops as [|o ops]; [done|]. cbn [length Nat.eqb]. rewrite Nat.eqb_refl.
  eapply solo_step; [by eapply reps_set|]. by apply solo_done.
Qed.

Lemma solo_write d k s r ops t adv i : g_reps s !! k = Some r -> p_pc r = PWrite ops t adv i ->
  ops <> [] -> g_commit s = t -> length ops - i = d ->
  solo k s (fun s' => g_commit s' = t + length ops).
Proof.
  revert s r i. induction d as [|d IH]; intros s r i Hk Epc Hne Hc Hd;
    apply (solo_step k s r); try done; unfold lp_run, lp_append, lp_exec, lp_advance; rewrite Epc.
  - rewrite lookup_ge_None_2 by lia. eapply solo_publish; [by eapply reps_set|done|done|done].
  - destruct (lookup_lt_is_Some_2 ops i) as [o ->]; [lia|].
    eapply solo_step; [by eapply reps_set|]. unfold lp_run, lp_append. cbn [p_pc set_cache set_pc].
    destruct (line_flush _ _ _) as [m c]. cbn [set_rep set_mem g_reps].
    eapply (IH _ _ (i + 1)); [cbn; apply list_lookup_insert_eq| | | |]; try done; [|lia].
    rewrite length_insert. by eapply lookup_lt_Some.
Qed.

Lemma solo_unpub k s r t ops : lp_inv size s -> g_reps s !! k = Some r ->
  unpub (p_pc r) = Some (t, ops) -> ops <> [] -> g_commit s = t ->
  solo k s (fun s' => g_commit s' = t + length ops).
Proof.
  intros Hinv Hk Hu Hne Hc. destruct (p_pc r) eqn:Epc; try done; injection Hu as -> ->.
  - by eapply solo_write.
  - apply (solo_step k s r); [done|]. unfold lp_run, lp_append, lp_exec, lp_advance. rewrite Epc.
    destruct (line_flush _ _ _) as [m c]. eapply solo_write; [by eapply reps_set|done..].
  - by eapply solo_publish.
  - apply (solo_step k s r); [done|]. unfold lp_run, lp_append, lp_exec, lp_advance. rewrite Epc. by apply solo_done.
Qed.

(** [exec] running alone. *)
Abbreviation caught k g := (fun s' : lpsys => exists r',
  g_reps s' !! k = Some r' /\ p_pc r' = PIdle /\ p_ltail r' = g).

Lemma solo_read d k s r l g i : lp_inv size s -> g_reps s !! k = Some r -> p_pc r = ERead KTop l g i ->
  g - i = d -> solo k s (caught k g).
Proof.
  revert s r i. induction d as [|d IH]; intros s r i Hinv Hk Epc Hd;
    pose proof (solo_step_inv k s r Hinv Hk) as Hinv'; apply (solo_step k s r); try done;
    unfold lp_run, lp_append, lp_exec, lp_advance in *; rewrite Epc in *.
  - destruct (Nat.ltb_spec i g); [lia|].
    eapply solo_step; [by eapply reps_set|]. eapply solo_step; [cbn; eapply reps_set, reps_set; exact Hk|].
    apply solo_done. eexists. split; [cbn; eapply reps_set, reps_set, reps_set; exact Hk|done].
  - destruct (Nat.ltb_spec i g) as [Hi|]; [|lia].
    assert (exists x, g_hist s !! i = Some x) as [[o rep] Hx].
    { apply lookup_lt_is_Some_2. rewrite <- (li_tail _ _ Hinv). pose proof (li_order _ _ Hinv).
      destruct (li_reps _ _ Hinv k r Hk) as [_ _ _ Hpc]. unfold pc_ok in Hpc. rewrite Epc in Hpc. lia. }
    rewrite (read_entry size Hgc s k r _ l g i _ Hinv Hk Epc Hi Hx) in *.
    eapply (IH _ _ (i + 1)); [done|by eapply reps_set|done|lia].
Qed.

Lemma solo_flush d k s r l g i : lp_inv size s -> g_reps s !! k = Some r -> p_pc r = EFlush KTop l g i ->
  g - i = d -> solo k s (caught k g).
Proof.
  revert s r i. induction d as [|d IH]; intros s r i Hinv Hk Epc Hd;
    pose proof (solo_step_inv k s r Hinv Hk) as Hinv'; apply (solo_step k s r); try done;
    unfold lp_run, lp_append, lp_exec, lp_advance in *; rewrite Epc in *.
  - destruct (Nat.ltb_spec i g); [lia|]. eapply solo_read; [done|by eapply reps_set|done|done].
  - destruct (Nat.ltb_spec i g); [|lia]. destruct (line_flush _ _ _) as [m c].
    eapply (IH _ _ (i + 1)); [done|by eapply reps_set|done|lia].
Qed.

Lemma solo_exec k s r : lp_inv size s -> g_reps s !! k = Some r -> p_pc r = EStart KTop ->
  solo k s (caught k (g_commit s)).
Proof.
  intros Hinv Hk Epc. pose proof (li_lts _ _ Hinv k r Hk) as Hl. pose proof (li_order _ _ Hinv) as Ho.
  apply (solo_step k s r); [done|]. pose proof (solo_step_inv k s r Hinv Hk) as Hinv1.
  unfold lp_run, lp_append, lp_exec, lp_advance in *. rewrite Epc in *. set (s1 := set_rep s k _) in *.
  assert (Hk1 : g_reps s1 !! k = Some (set_pc r (EGtail KTop (p_ltail r)))) by (by eapply reps_set).
  eapply solo_step; [done|]. pose proof (solo_step_inv k s1 _ Hinv1 Hk1) as Hinv2.
  unfold lp_run, lp_append, lp_exec, lp_advance in *. cbn [p_pc set_pc] in *. change (g_commit s1) with (g_commit s) in *.
  destruct (Nat.eqb_spec (p_ltail r) (g_commit s)) as [E|E].
  - apply solo_done. eexists. split; [by eapply reps_set|done].
  - set (s2 := set_rep s1 k _) in *.
    assert (Hk2 : g_reps s2 !! k = Some (set_pc (set_pc r (EGtail KTop (p_ltail r)))
      (EHead KTop (p_ltail r) (g_commit s)))) by (by eapply reps_set).
    eapply solo_step; [done|]. pose proof (solo_step_inv k s2 _ Hinv2 Hk2) as Hinv3.
    unfold lp_run, lp_append, lp_exec, lp_advance in *. cbn [p_pc set_pc] in *. change (g_head s2) with (g_head s) in *.
    destruct (Nat.ltb_spec (g_commit s) (p_ltail r)); [lia|].
    destruct (Nat.ltb_spec (p_ltail r) (g_head s)); [lia|]. cbn [orb] in *.
    eapply solo_flush; [done|by eapply reps_set|done|done].
Qed.

(** ** Theorems *)

(** C4: In every interleaving of the combiners and their caches, the calls a replica
    has made of its closure are the operations of a prefix of the one history of
    the log, in order and without gaps, each marked as its own exactly when it
    appended it; so of any two replicas one has applied a prefix of what the other
    has applied. *)
Theorem log_replicas_agree s k1 r1 k2 r2 :
  lp_reachable size s -> g_reps s !! k1 = Some r1 -> g_reps s !! k2 = Some r2 ->
  p_applied r1 = calls k1 (take (done_upto r1) (g_hist s))
  /\ (map fst (p_applied r1) `prefix_of` map fst (p_applied r2)
      \/ map fst (p_applied r2) `prefix_of` map fst (p_applied r1)).
Proof.
  intros Hinv%(lp_reachable_inv size Hpow Hgc) H1 H2.
  destruct (li_reps _ _ Hinv _ _ H1) as [_ E1 _ _]. destruct (li_reps _ _ Hinv _ _ H2) as [_ E2 _ _].
  split; [done|]. rewrite E1, E2, !calls_ops.
  destruct (Nat.le_gt_cases (done_upto r1) (done_upto r2)); [left|right]; apply map_prefix, take_prefix; lia.
Qed.

(** C8: The log never loses or corrupts an entry that somebody still needs: an entry
    that is published and that some replica has not replayed is in memory as it
    was appended, whatever the caches do, and a replica that replays reads through
    its own cache exactly the entry of the history, never a stale copy. *)
Theorem log_no_stale_read s k r :
  lp_reachable size s -> g_reps s !! k = Some r ->
  (forall p x, p_ltail r <= p < g_commit s -> g_hist s !! p = Some x ->
     g_mem s !! lp_index size p = Some (Some x))
  /\ (forall e l g i, p_pc r = ERead e l g i -> i < g -> exists x,
       g_hist s !! i = Some x
       /\ line_read (line_fetch (g_mem s) (p_cache r) (lp_index size i)) (lp_index size i) = Some x).
Proof.
  intros Hinv%(lp_reachable_inv size Hpow Hgc) Hk. split.
  - intros p x Hp Hx. by apply (readable size Hgc s k r p x).
  - intros e l g i Epc Hi. destruct (li_reps _ _ Hinv k r Hk) as [_ _ _ Hpc]. unfold pc_ok in Hpc.
    rewrite Epc in Hpc. pose proof (li_order _ _ Hinv).
    destruct (lookup_lt_is_Some_2 (g_hist s) i) as [x Hx]; [rewrite <- (li_tail _ _ Hinv); lia|].
    exists x. split; [done|]. by apply (read_entry size Hgc s k r e l g i).
Qed.

(** C26: The panics of [exec] ("Local tail not within the shared log" and an entry
    without an operation) are unreachable, the tails stay ordered, and the entries
    in use never exceed the log: a reservation never reaches an entry some replica
    has not replayed. *)
Theorem log_no_panic s k r :
  lp_reachable size s -> g_reps s !! k = Some r ->
  p_pc r <> PPanic
  /\ g_head s <= p_ltail r <= g_ctail s /\ g_ctail s <= g_commit s <= g_tail s
  /\ g_tail s <= p_ltail r + size.
Proof.
  intros Hinv%(lp_reachable_inv size Hpow Hgc) Hk. pose proof (li_lts _ _ Hinv k r Hk).
  pose proof (li_order _ _ Hinv). split_and!; try lia.
  intros Epc. destruct (li_reps _ _ Hinv k r Hk) as [_ _ _ Hpc]. unfold pc_ok in Hpc. by rewrite Epc in Hpc.
Qed.

(** C24: Publication cannot deadlock: as long as reserved entries are unpublished,
    the appender that holds the first of them can write and publish its batch by
    its own steps alone. *)
Theorem log_publish_progress s :
  lp_reachable size s -> g_commit s < g_tail s ->
  exists k, solo k s (fun s' => g_commit s < g_commit s').
Proof.
  intros Hinv%(lp_reachable_inv size Hpow Hgc) Hlt.
  destruct (li_tile _ _ Hinv (g_commit s)) as (k & r & t & ops & Hk & Hu & Hin); [lia|].
  assert (ops <> []) as Hne by (intros ->; cbn in Hin; lia).
  destruct (li_own _ _ Hinv k r t ops Hk Hu) as (_ & Hc & _). specialize (Hc Hne).
  exists k. destruct (solo_unpub k s r t ops Hinv Hk Hu Hne) as (n & s' & Hr & HP); [lia|].
  exists n, s'. split; [done|]. lia.
Qed.

(** C25: [exec] terminates when its replica runs, whatever the others have left
    unfinished: an idle replica that calls it reaches the commit tail of the
    moment of the call, having applied exactly the history up to there. *)
Theorem log_exec_completes s k r :
  lp_reachable size s -> g_reps s !! k = Some r -> p_pc r = PIdle ->
  exists s1, lp_next size s (LExec k) = Some s1
    /\ solo k s1 (fun s' => exists r', g_reps s' !! k = Some r' /\ p_pc r' = PIdle
         /\ p_ltail r' = g_commit s /\ p_applied r' = calls k (take (g_commit s) (g_hist s))).
Proof.
  intros Hinv%(lp_reachable_inv size Hpow Hgc) Hk Epc.
  set (s1 := set_rep s k (set_pc r (EStart KTop))).
  assert (E : lp_next size s (LExec k) = Some s1) by (unfold lp_next; cbn; rewrite Hk; cbn; by rewrite Epc).
  pose proof (lp_next_inv size Hpow Hgc _ _ _ Hinv E) as Hinv1. exists s1. split; [done|].
  assert (Hk1 : g_reps s1 !! k = Some (set_pc r (EStart KTop))) by (by eapply reps_set).
  destruct (solo_exec k s1 _ Hinv1 Hk1 eq_refl) as (n & s' & Hr & r' & Hk' & Ep & El).
  exists n, s'. split; [done|]. exists r'. split_and!; [done|done|done|].
  destruct (li_reps _ _ (run_inv _ _ _ Hinv1 Hr) k r' Hk') as [_ Ea _ _]. rewrite Ea.
  destruct (run_hist _ _ _ Hr) as [ext ->]. unfold done_upto. rewrite Ep, El.
  change (g_commit s1) with (g_commit s). change (g_hist s1) with (g_hist s).
  pose proof (li_order _ _ Hinv). rewrite take_app_le; [done|]. rewrite <- (li_tail _ _ Hinv). lia.
Qed.

(** The completed tail is enough for linearizable reads: when a reader samples
    it and later finds its own replica's local tail past the sample, its replica
    has applied every operation that any replica had completed at the sample. *)
Theorem log_completed_visible s0 ls s k r k0 r0 :
  lp_reachable size s0 -> run_labels (lp_next size) s0 ls = Some s ->
  g_reps s !! k = Some r -> g_ctail s0 <= p_ltail r -> g_reps s0 !! k0 = Some r0 ->
  map fst (take (p_ltail r0) (p_applied r0)) `prefix_of` map fst (p_applied r).
Proof.
  intros Hinv0%(lp_reachable_inv size Hpow Hgc) Hr Hk Hge Hk0. pose proof (run_inv _ _ _ Hinv0 Hr) as Hinv.
  pose proof (li_lts _ _ Hinv0 k0 r0 Hk0). pose proof (done_upto_ge s0 k0 r0 Hinv0 Hk0).
  pose proof (done_upto_ge s k r Hinv Hk). destruct (run_hist _ _ _ Hr) as [ext Hh].
  pose proof (li_order _ _ Hinv0). pose proof (li_tail _ _ Hinv0).
  destruct (li_reps _ _ Hinv0 k0 r0 Hk0) as [_ E0 _ _]. destruct (li_reps _ _ Hinv k r Hk) as [_ E _ _].
  unfold calls in E0. rewrite E, E0, calls_ops, firstn_map, take_take, map_map. cbn.
  rewrite Nat.min_l by lia. apply map_prefix. rewrite Hh.
  rewrite <- (take_app_le (g_hist s0) ext (p_ltail r0)) by lia. apply take_prefix. lia.
Qed.
End Theorems.

(** ** Runs *)

(** A log of the minimal size with two replicas. *)
Definition demo_size : nat := 2048.
Definition demo_log : lpsys (O := nat) :=
  mkLP 0 0 0 0 (replicate demo_size None) [] (replicate 2 (mkPrep PIdle 0 [] (replicate demo_size None))).
Definition demo_run (ls : list (lplabel (O := nat))) : lpsys :=
  default demo_log (run_labels (lp_next demo_size) demo_log ls).
Definition steps (n k : nat) : list (lplabel (O := nat)) := replicate n (LStep k).

Lemma demo_pow2 : is_pow2 demo_size.
Proof. by exists 11. Qed.
Lemma demo_gc : GC_FROM_HEAD <= demo_size.
Proof. rewrite gc_from_head_val. unfold demo_size. lia. Qed.

Lemma demo_reachable ls : lp_reachable demo_size (demo_run ls).
Proof.
  assert (H0 : lp_reachable demo_size demo_log) by (apply reach_init; by exists 2).
  unfold demo_run. destruct (run_labels _ _ _) as [s|] eqn:E; cbn; [|done].
  by eapply run_labels_reachable.
Qed.

(** Replica 0 has appended two operations and published them; replica 1 has loaded
    their entries too early, reserved one of its own, and is about to replay. *)
Definition demo_mid : list (lplabel (O := nat)) :=
  [LPrefetch 1 0; LPrefetch 1 1; LAppend 0 [10; 11]] ++ steps 20 0 ++ [LExec 1] ++ steps 6 1.
(** Replica 1 replays both; replica 0 has not replayed anything, and has reserved
    a further entry. *)
Definition demo_late : list (lplabel (O := nat)) :=
  demo_mid ++ steps 10 1 ++ [LAppend 0 [12]] ++ steps 3 0.

(** What a run shows of a state. *)
Definition idle (r : prep (O := nat)) : bool := match p_pc r with PIdle => true | _ => false end.
Definition view (s : lpsys (O := nat)) : nat * nat * nat * list (nat * list (nat * bool) * bool) :=
  (g_ctail s, g_commit s, g_tail s, (fun r => (p_ltail r, p_applied r, idle r)) <$> g_reps s).

Lemma view_rep s c1 c2 c3 l k x : view s = (c1, c2, c3, l) -> l !! k = Some x ->
  exists r, g_reps s !! k = Some r /\ (p_ltail r, p_applied r, idle r) = x.
Proof.
  intros [= _ _ _ <-] Hx. rewrite list_lookup_fmap in Hx.
  destruct (g_reps s !! k) as [r|]; [|done]. injection Hx as <-. by exists r.
Qed.

Lemma view_tails s c1 c2 c3 l : view s = (c1, c2, c3, l) -> g_ctail s = c1 /\ g_commit s = c2 /\ g_tail s = c3.
Proof. by intros [= -> -> -> _]. Qed.

Lemma idle_pc r : idle r = true -> p_pc r = PIdle.
Proof. unfold idle. by destruct (p_pc r). Qed.

Lemma demo_late_view : view (demo_run demo_late)
  = (2, 2, 3, [(0, [], false); (2, [(10, false); (11, false)], true)]).
Proof. vm_compute. reflexivity. Qed.

Lemma demo_mid_pc : p_pc <$> g_reps (demo_run demo_mid) !! 1 = Some (ERead KTop 0 2 0).
Proof. vm_compute. reflexivity. Qed.

(** Replica 0 publishes its entry and replays the log. *)
Definition demo_tail : list (lplabel (O := nat)) := steps 6 0 ++ [LExec 0] ++ steps 15 0.
Definition demo_end : lpsys :=
  default demo_log (run_labels (lp_next demo_size) (demo_run demo_late) demo_tail).

Lemma demo_end_run : run_labels (lp_next demo_size) (demo_run demo_late) demo_tail = Some demo_end.
Proof. vm_compute. reflexivity. Qed.

Lemma demo_end_view : view demo_end
  = (3, 3, 3, [(3, [(10, true); (11, true); (12, true)], true); (2, [(10, false); (11, false)], true)]).
Proof. vm_compute. reflexivity. Qed.

(** Both replicas have applied one operation; replica 0 fills the log up to the
    reserve, is about to store the head it has computed, and is delayed there
    while replica 1 catches up and collects garbage itself. *)
Definition regress_setup : list (lplabel (O := nat)) :=
  [LAppend 0 [7]] ++ steps 8 0 ++ [LExec 0] ++ steps 12 0 ++ [LExec 1] ++ steps 12 1
  ++ [LAppend 0 (seq 0 1023)] ++ steps 2060 0 ++ [LExec 0] ++ steps 2060 0
  ++ [LAppend 0 [8]] ++ steps 14 0 ++ [LAppend 1 [9]] ++ steps 2065 1.

Lemma regress_view :
  (g_head (demo_run regress_setup), g_head <$> lp_next demo_size (demo_run regress_setup) (LStep 0))
  = (1024, Some 1).
Proof. vm_compute. reflexivity. Qed.

#[local] Opaque demo_run demo_end.

(** ** The theorems at these runs *)

Lemma log_replicas_agree_witness :
  lp_reachable demo_size (demo_run demo_late)
  /\ exists r0 r1, g_reps (demo_run demo_late) !! 0 = Some r0 /\ g_reps (demo_run demo_late) !! 1 = Some r1
    /\ p_applied r1 = [(10, false); (11, false)]
    /\ p_applied r1 = calls 1 (take (done_upto r1) (g_hist (demo_run demo_late))).
Proof.
  split; [apply demo_reachable|].
  destruct (view_rep _ _ _ _ _ 0 _ demo_late_view eq_refl) as (r0 & H0 & _).
  destruct (view_rep _ _ _ _ _ 1 _ demo_late_view eq_refl) as (r1 & H1 & E1).
  exists r0, r1. split_and!; [done|done|by injection E1|].
  apply (log_replicas_agree demo_size demo_pow2 demo_gc _ 1 r1 0 r0 (demo_reachable _) H1 H0).
Defined.

Lemma log_no_stale_read_witness :
  lp_reachable demo_size (demo_run demo_mid)
  /\ exists r, g_reps (demo_run demo_mid) !! 1 = Some r /\ p_pc r = ERead KTop 0 2 0
    /\ exists x, g_hist (demo_run demo_mid) !! 0 = Some x
      /\ line_read (line_fetch (g_mem (demo_run demo_mid)) (p_cache r) (lp_index demo_size 0))
           (lp_index demo_size 0) = Some x.
Proof.
  split; [apply demo_reachable|].
  pose proof demo_mid_pc as E. apply fmap_Some_1 in E as (r & Hr & Epc).
  exists r. split; [exact Hr|]. split; [symmetry; exact Epc|].
  destruct (log_no_stale_read demo_size demo_pow2 demo_gc _ 1 r (demo_reachable _) Hr) as [_ H].
  apply (H KTop 0 2 0); [symmetry; exact Epc|lia].
Defined.

Lemma log_no_panic_witness :
  lp_reachable demo_size (demo_run demo_late)
  /\ exists r, g_reps (demo_run demo_late) !! 1 = Some r /\ p_ltail r = 2
    /\ g_tail (demo_run demo_late) <= p_ltail r + demo_size.
Proof.
  split; [apply demo_reachable|].
  destruct (view_rep _ _ _ _ _ 1 _ demo_late_view eq_refl) as (r1 & H1 & E1).
  exists r1. split_and!; [done|by injection E1|].
  destruct (log_no_panic demo_size demo_pow2 demo_gc _ 1 r1 (demo_reachable _) H1) as (_ & _ & _ & H).
  exact H.
Defined.

Lemma log_publish_progress_witness :
  g_commit (demo_run demo_late) < g_tail (demo_run demo_late)
  /\ exists k, solo demo_size k (demo_run demo_late) (fun s' => g_commit (demo_run demo_late) < g_commit s').
Proof.
  assert (H : g_commit (demo_run demo_late) < g_tail (demo_run demo_late)).
  { destruct (view_tails _ _ _ _ _ demo_late_view) as (_ & -> & ->). apply le_n. }
  split; [done|].
  apply (log_publish_progress demo_size demo_pow2 demo_gc _ (demo_reachable _) H).
Defined.

Lemma log_exec_completes_witness :
  exists r, g_reps (demo_run demo_late) !! 1 = Some r /\ p_pc r = PIdle
    /\ exists s1, lp_next demo_size (demo_run demo_late) (LExec 1) = Some s1
      /\ solo demo_size 1 s1 (fun s' => exists r', g_reps s' !! 1 = Some r' /\ p_pc r' = PIdle
           /\ p_ltail r' = g_commit (demo_run demo_late)
           /\ p_applied r' = calls 1 (take (g_commit (demo_run demo_late)) (g_hist (demo_run demo_late)))).
Proof.
  destruct (view_rep _ _ _ _ _ 1 _ demo_late_view eq_refl) as (r1 & H1 & E1).
  assert (Ei : p_pc r1 = PIdle) by (injection E1 as _ _ Ei; exact (idle_pc r1 Ei)).
  exists r1. split; [exact H1|]. split; [exact Ei|].
  exact (log_exec_completes demo_size demo_pow2 demo_gc _ 1 r1 (demo_reachable _) H1 Ei).
Defined.

Lemma log_completed_visible_witness :
  exists r r0, g_reps demo_end !! 0 = Some r /\ g_reps (demo_run demo_late) !! 1 = Some r0
    /\ p_ltail r0 = 2 /\ map fst (take (p_ltail r0) (p_applied r0)) `prefix_of` map fst (p_applied r).
Proof.
  destruct (view_rep _ _ _ _ _ 1 _ demo_late_view eq_refl) as (r1 & H1 & E1).
  destruct (view_rep _ _ _ _ _ 0 _ demo_end_view eq_refl) as (r & H & E).
  exists r, r1. split; [exact H|]. split; [exact H1|]. split; [by injection E1|].
  apply (log_completed_visible demo_size demo_pow2 demo_gc (demo_run demo_late) demo_tail demo_end
           0 r 1 r1 (demo_reachable _) demo_end_run H); [|exact H1].
  destruct (view_tails _ _ _ _ _ demo_late_view) as (-> & _). injection E as -> _ _. lia.
Defined.

(** [advance_head] does not only advance: the minimum of the local tails is
    computed and stored without a comparison, so a collector that is delayed in
    between overwrites a later head with an earlier one. *)
Theorem log_head_regresses : exists (s s' : lpsys (O := nat)),
  lp_reachable demo_size s /\ lp_next demo_size s (LStep 0) = Some s' /\ g_head s' < g_head s.
Proof.
  pose proof regress_view as E. apply pair_equal_spec in E as [Eh En].
  apply fmap_Some_1 in En as (s' & En & Eh'). exists (demo_run regress_setup), s'.
  split; [apply demo_reachable|]. split; [exact En|]. rewrite Eh, <- Eh'. apply Nat.ltb_lt. vm_compute. reflexivity.
Qed.
