(* ===== verification/NrConc.v ===== *)
(** * Replicas under concurrency (nr/replica.rs, nr/mod.rs, context.rs, feature scr)

    Threads of all replicas execute writes and reads at the same time: they enqueue
    operations in their contexts, compete for the combiner lock, collect the
    operations of other threads, append them to the log and replay it on their copy
    of the data, hand out responses, and work for replicas that lag behind.  A step is
    one access of one thread to shared state.

    The log is the transition system of LogProtocol, caches included: a combiner in
    [append] or [exec] makes a step of it, and the closure runs on the data when the
    step has read an entry.  The lock around the data is used through what RwLock shows
    of it: taking it is one step.  Threads have registered before the system starts.
    A thread that panics stops where it is, with the locks it holds: unwinding is left
    out, and so are debug assertions and the affinity of the threads.

    A write carries the number of the call that made it, and [n_ops] records the calls,
    in the order in which they began, with their results: both are ghosts. *)

From stdpp Require Import gmap.
From S2P Require Import Prelude Context Log NrLog LogProtocol Replica.

(** ** State *)

Section Conc.
Context {D RO WO R : Type} `{!Dispatch D RO WO R}.
(** The entries of the log and the threads of each replica. *)
Variables (size : nat) (nths : nat -> nat).

(** A write and the number of its call. *)
Abbreviation lop := (WO * nat)%type.
Abbreviation context := (Context lop R unit).

(** What follows a round of combining: [get_response] of [execute_mut], which after
    [GcFailed] is expected to succeed ([x]), the loop of [execute] with the completed
    tail it waits for, the assertion of [execute_locked]. *)
Inductive kont := KW (x : bool) | KR (o : RO) (c : nat) | KL (o : RO) (c : nat).
(** What follows [sync]: [get_response] after [GcFailed], or the end of the call. *)
Inductive ykont := YW | YTop.
(** What follows [try_sync]: [execute_mut_locked] or [execute_locked] with the combiner
    lock of the own replica, [execute] from its start, the loop of [sync]. *)
Inductive zkont := ZCombine | ZLocked (o : RO) | ZAgain (o : RO) | ZLoop (c : nat) (y : ykont).

(** How [append] ended: not appended, appended, appended but without collecting. *)
Inductive aoutcome := NoSpace | Done | GcFail.

(** The panics: the assertion of [execute_mut] and [execute] that the replica which a
    failing [append] names is not the caller's own; any other. *)
Inductive panic := PFault | PNamed.

Inductive tpc :=
| TIdle
(* make_pending *)
| WSlot (w : WO) | WTail (w : WO)
(* acquire_combiner_lock, of the own replica *)
| ALoad (k : kont) (j : nat) | ACas (k : kont)
(* combine: collect_thread_ops *)
| CComb (k : kont) (i : nat) (b : list lop) (n : list nat)
| CTail (k : kont) (i h : nat) (b : list lop) (n : list nat)
| CRead (k : kont) (i h t c : nat) (b : list lop) (n : list nat)
(* combine: append *)
| CWrite (k : kont) (b : list lop) (n : list nat)
| CApp (k : kont) (b : list lop) (n : list nat) (rs : list R)
| CDrop (k : kont) (b : list lop) (n : list nat) (rs : list R) (e : aoutcome)
(* combine: exec *)
| CExecW (k : kont) (b : list lop) (n : list nat) (rs : list R) (e : aoutcome)
| CExec (k : kont) (b : list lop) (n : list nat) (rs : list R) (e : aoutcome)
| CExecD (k : kont) (b : list lop) (n : list nat) (rs : list R) (e : aoutcome)
(* combine: responses *)
| CResp (k : kont) (b : list lop) (n : list nat) (rs : list R) (e : aoutcome) (i s : nat)
| CPut (k : kont) (b : list lop) (n : list nat) (rs : list R) (e : aoutcome) (i s j : nat)
| CPutC (k : kont) (b : list lop) (n : list nat) (rs : list R) (e : aoutcome) (i s j h : nat)
| CEnd (k : kont) (e : aoutcome)
(* get_response *)
| GRes (x : bool) (it : N) | GHead (x : bool) (it : N) | GTake (x : bool) (it : N) (s : nat)
(* execute; [held]: with the combiner lock *)
| RSample (o : RO) | RCheck (o : RO) (c : nat)
| RLock (o : RO) (c : nat) (held : bool) | RRead (o : RO) (c : nat) (held : bool)
| RDrop (o : RO) (v : R) (p : nat) (held : bool) | REnd (o : RO) (v : R) (p : nat)
(* execute_locked *)
| LSample (o : RO) | LCheck (o : RO) (c : nat) | LAssert (o : RO) (c : nat) (held : bool)
(* sync and try_sync, of any replica *)
| SSample (q : nat) (y : ykont) | SCheck (q c : nat) (y : ykont)
| SLoad (q j : nat) (z : zkont) | SCas (q : nat) (z : zkont) | SWrite (q : nat) (z : zkont)
| SExec (q : nat) (z : zkont) | SDrop (q : nat) (z : zkont) | SEnd (q : nat) (z : zkont)
(* a panic *)
| TPanic (w : panic).

(** A thread: where it is, its context, its call. *)
Record thr := mkT { t_pc : tpc; t_ctx : context; t_id : nat }.

(** A replica: the combiner lock, the lock around the data with the threads that read,
    the data. *)
Record rst := mkR { q_comb : nat; q_wlock : bool; q_readers : gset nat; q_data : D }.

(** A call: the operation, the completed tail when it began, and when it has
    returned: the response, where in the history it took effect, and the number of
    calls begun until then. *)
Record ocall := mkOp { o_op : WO + RO; o_inv : nat; o_ret : option (R * nat * nat) }.

Record nsys := mkN {
  n_lp : lpsys (O := lop);
  n_reps : gmap nat rst;
  n_ths : gmap (nat * nat) thr;
  n_ops : list ocall;
}.

Definition set_thread (s : nsys) (k : nat * nat) (th : thr) : nsys :=
  mkN (n_lp s) (n_reps s) (<[k := th]> (n_ths s)) (n_ops s).
Definition set_repl (s : nsys) (r : nat) (x : rst) : nsys :=
  mkN (n_lp s) (<[r := x]> (n_reps s)) (n_ths s) (n_ops s).
Definition set_lp (s : nsys) (l : lpsys (O := lop)) : nsys := mkN l (n_reps s) (n_ths s) (n_ops s).

(** ** Contexts *)

Definition ctx_tail_set (c : context) (t : nat) : context :=
  mkContext (batch c) t (ctx_head c) (ctx_comb c) (ctx_idx c).
Definition ctx_head_set (c : context) (h : nat) : context :=
  mkContext (batch c) (ctx_tail c) h (ctx_comb c) (ctx_idx c).
Definition ctx_comb_set (c : context) (h : nat) : context :=
  mkContext (batch c) (ctx_tail c) (ctx_head c) h (ctx_idx c).
Definition slot_put (c : context) (j : nat) (f : PendingOperation lop R unit -> PendingOperation lop R unit) : context :=
  mkContext (alter f (ctx_index j) (batch c)) (ctx_tail c) (ctx_head c) (ctx_comb c) (ctx_idx c).
Definition ctx_op (c : context) (j : nat) : option lop := e ← batch c !! ctx_index j; op e.
Definition ctx_resp (c : context) (j : nat) : option R := e ← batch c !! ctx_index j; resp e.

Definition put_op (o : lop) (e : PendingOperation lop R unit) : PendingOperation lop R unit :=
  mkPending (Some o) (resp e) tt.
Definition put_resp (v : option R) (e : PendingOperation lop R unit) : PendingOperation lop R unit :=
  mkPending (op e) v (pmeta e).

(** ** Calls *)

(** Where the call [id] is in the history. *)
Fixpoint find_id (h : list (lop * nat)) (id : nat) : nat :=
  match h with [] => 0 | x :: h' => if x.1.2 =? id then 0 else S (find_id h' id) end.

(** The call of thread [k] returns [v]; it took effect at [p]. *)
Definition returns (s : nsys) (k : nat * nat) (th : thr) (v : R) (p : nat) : nsys :=
  mkN (n_lp s) (n_reps s) (<[k := mkT TIdle (t_ctx th) (t_id th)]> (n_ths s))
    (alter (fun x => mkOp (o_op x) (o_inv x) (Some (v, p, length (n_ops s)))) (t_id th) (n_ops s)).

Definition begins (s : nsys) (k : nat * nat) (th : thr) (o : WO + RO) (p : tpc) : nsys :=
  mkN (n_lp s) (n_reps s) (<[k := mkT p (t_ctx th) (length (n_ops s))]> (n_ths s))
    (n_ops s ++ [mkOp o (g_ctail (n_lp s)) None]).

(** ** Running the log *)

Definition ltail_of (s : nsys) (r : nat) : nat :=
  match g_reps (n_lp s) !! r with Some p => p_ltail p | None => 0 end.
Definition lp_pc (l : lpsys (O := lop)) (r : nat) : ppc (O := lop) :=
  match g_reps l !! r with Some p => p_pc p | None => PIdle end.

(** The call of the closure in a step of the log from [l] to [l']. *)
Definition lp_call (l l' : lpsys (O := lop)) (r : nat) : option (lop * bool) :=
  p ← g_reps l !! r; p' ← g_reps l' !! r; p_applied p' !! length (p_applied p).

(** The closure of [combine]; what it does to the notifications and caches is left
    out. *)
Definition combine_call (l l' : lpsys (O := lop)) (r : nat) (d : D) (rs : list R) : res (D * list R) :=
  match lp_call l l' r with
  | Some ((w, _), mine) => '(d', v) ← dispatch_mut d w; Ret (d', if (mine : bool) then rs ++ [v] else rs)
  | None => Ret (d, rs)
  end.

(** The closure of [exec] in [try_sync]. *)
Definition sync_call (l l' : lpsys (O := lop)) (r : nat) (d : D) : res D :=
  match lp_call l l' r with
  | Some ((w, _), mine) =>
      '(d', _) ← dispatch_mut d w;
      if (mine : bool) then Panic "Ups -- we just lost a result?" else Ret d'
  | None => Ret d
  end.

(** How [append] ends when its last step is taken at [p]. *)
Definition append_outcome (p : ppc (O := lop)) : aoutcome :=
  match p with
  | PTail _ | PHead _ _ | HScan (AGc _) _ _ _ _ _ => NoSpace
  | HScan ADone _ _ _ _ _ => GcFail
  | _ => Done
  end.

Definition lp_idle (p : ppc (O := lop)) : bool := match p with PIdle => true | _ => false end.

(** ** Steps of a thread *)

(** [execute_mut] and [execute] after [combine] on replica [r]; [q] is the replica that
    a failing [append] has named, which is any: the scan of the local tails is not
    modelled here.  The [debug_assert_ne] before [try_sync] is not compiled in. *)
Definition after_combine (r : nat) (k : kont) (e : aoutcome) (q : nat) : tpc :=
  match e, k with
  | Done, KW x => GRes x 0
  | Done, KR o c => RCheck o c
  | Done, KL o c => LAssert o c false
  | _, KW true => TPanic PFault
  | NoSpace, KW false => SLoad q 0 ZCombine
  | GcFail, KW false => if q =? r then TPanic PNamed else SSample q YW
  | NoSpace, (KR o _ | KL o _) => if q =? r then TPanic PNamed else SLoad q 0 (ZLocked o)
  | GcFail, (KR o _ | KL o _) => if q =? r then TPanic PNamed else SLoad q 0 (ZAgain o)
  end.

Definition after_sync (q : nat) (z : zkont) : tpc :=
  match z with
  | ZCombine => CComb (KW false) 0 [] []
  | ZLocked o => LSample o
  | ZAgain o => RSample o
  | ZLoop c y => SCheck q c y
  end.

Definition after_full_sync (y : ykont) : tpc := match y with YW => GRes true 0 | YTop => TIdle end.

(** [get_response] without success: after [interval] tries, [try_combine]. *)
Definition no_response (x : bool) (it : N) : tpc :=
  if (it + 1 =? interval)%N then ALoad (KW x) 0 else GRes x (it + 1).

Definition set_comb (x : rst) (v : nat) : rst := mkR v (q_wlock x) (q_readers x) (q_data x).
Definition set_wlock (x : rst) (v : bool) : rst := mkR (q_comb x) v (q_readers x) (q_data x).
Definition set_readers (x : rst) (v : gset nat) : rst := mkR (q_comb x) (q_wlock x) v (q_data x).
Definition set_qdata (x : rst) (d : D) : rst := mkR (q_comb x) (q_wlock x) (q_readers x) d.

(** Whether the write lock can be taken. *)
Definition can_write (x : rst) : bool := negb (q_wlock x) && bool_decide (q_readers x = ∅).

Section Step.
Variables (s : nsys) (r i : nat) (th : thr) (x : rst).
(** The replica that a failing [append] names. *)
Variable q : nat.

Definition goto (p : tpc) : nsys := set_thread s (r, i) (mkT p (t_ctx th) (t_id th)).
Definition goto_ctx (p : tpc) (c : context) : nsys := set_thread s (r, i) (mkT p c (t_id th)).
Definition goto_rep (p : tpc) (q' : nat) (x' : rst) : nsys := set_repl (goto p) q' x'.

(** [make_pending] and [get_response]: the thread's own context. *)
Definition step_ctx : nsys :=
  let c := t_ctx th in
  match t_pc th with
  | WSlot w =>
      if ctx_tail c <? ctx_head c then goto (TPanic PFault)
      else if ctx_tail c - ctx_head c =? MAX_PENDING_OPS then s
      else goto_ctx (WTail w) (slot_put c (ctx_tail c) (put_op (w, t_id th)))
  | WTail w => goto_ctx (ALoad (KW false) 0) (ctx_tail_set c (ctx_tail c + 1))
  | GRes x it =>
      if ctx_head c =? ctx_comb c then goto (no_response x it)
      else if ctx_comb c <? ctx_head c then goto (TPanic PFault)
      else goto (GHead x it)
  | GHead x it => goto_ctx (GTake x it (ctx_head c)) (ctx_head_set c (ctx_head c + 1))
  | GTake x it j =>
      match ctx_resp c j with
      | Some v =>
          returns s (r, i) (mkT TIdle (slot_put c j (put_resp None)) (t_id th)) v
            (find_id (g_hist (n_lp s)) (t_id th))
      | None => goto_ctx (no_response x it) (slot_put c j (put_resp None))
      end
  | _ => s
  end.

(** [acquire_combiner_lock] and [collect_thread_ops]. *)
Definition step_collect : nsys :=
  match t_pc th with
  | ALoad k j =>
      if q_comb x =? 0 then if j =? 3 then goto (ACas k) else goto (ALoad k (j + 1))
      else goto (after_combine r k Done q)
  | ACas k =>
      if q_comb x =? 0 then goto_rep (CComb k 0 [] []) r (set_comb x 1)
      else goto (after_combine r k Done q)
  | CComb k j b n =>
      if j =? nths r then goto (CWrite k b n)
      else match n_ths s !! (r, j) with
           | Some tj => goto (CTail k j (ctx_comb (t_ctx tj)) b n)
           | None => goto (TPanic PFault)
           end
  | CTail k j h b n =>
      match n_ths s !! (r, j) with
      | Some tj =>
          let t := ctx_tail (t_ctx tj) in
          if t <? h then goto (TPanic PFault) else goto (CRead k j h t h b n)
      | None => goto (TPanic PFault)
      end
  | CRead k j h t c b n =>
      if c =? t then goto (CComb k (j + 1) b (n ++ [t - h]))
      else match (tj ← n_ths s !! (r, j); ctx_op (t_ctx tj) c) with
           | Some o => goto (CRead k j h t (c + 1) (b ++ [o]) n)
           | None => goto (TPanic PFault)
           end
  | _ => s
  end.

(** [combine]: [append] and [exec] on the log. *)
Definition step_log : nsys :=
  let l := n_lp s in
  match t_pc th with
  | CWrite k b n =>
      if can_write x then
        match lp_next size l (LAppend r b) with
        | Some l' => set_lp (goto_rep (CApp k b n []) r (set_wlock x true)) l'
        | None => s
        end
      else s
  | CApp k b n rs =>
      match lp_next size l (LStep r) with
      | Some l' =>
          match combine_call l l' r (q_data x) rs with
          | Ret (d', rs') =>
              let p' := if lp_idle (lp_pc l' r) then CDrop k b n rs' (append_outcome (lp_pc l r))
                        else CApp k b n rs' in
              set_lp (goto_rep p' r (set_qdata x d')) l'
          | _ => goto (TPanic PFault)
          end
      | None => s
      end
  | CDrop k b n rs e =>
      goto_rep (match e with NoSpace => after_combine r k NoSpace q | _ => CExecW k b n rs e end) r (set_wlock x false)
  | CExecW k b n rs e =>
      if can_write x then
        match lp_next size l (LExec r) with
        | Some l' => set_lp (goto_rep (CExec k b n rs e) r (set_wlock x true)) l'
        | None => s
        end
      else s
  | CExec k b n rs e =>
      match lp_next size l (LStep r) with
      | Some l' =>
          match combine_call l l' r (q_data x) rs with
          | Ret (d', rs') =>
              let p' := if lp_idle (lp_pc l' r) then CExecD k b n rs' e else CExec k b n rs' e in
              set_lp (goto_rep p' r (set_qdata x d')) l'
          | _ => goto (TPanic PFault)
          end
      | None => s
      end
  | CExecD k b n rs e => goto_rep (CResp k b n rs e 0 0) r (set_wlock x false)
  | _ => s
  end.

(** [combine]: handing out the responses [rs[s'..]]. *)
Definition step_respond : nsys :=
  match t_pc th with
  | CResp k b n rs e j s' =>
      match n !! j with
      | None => goto (CEnd k e)
      | Some m =>
          if m =? 0 then goto (CResp k b n rs e (j + 1) s')
          else if s' + m <=? length rs then goto (CPut k b n rs e j s' 0) else goto (TPanic PFault)
      end
  | CPut k b n rs e j s' u =>
      match n !! j with
      | Some m =>
          if u =? m then goto (CResp k b n rs e (j + 1) (s' + m))
          else match n_ths s !! (r, j), rs !! (s' + u) with
               | Some tj, Some v =>
                   let h := ctx_comb (t_ctx tj) in
                   let tj' := mkT (t_pc tj) (slot_put (t_ctx tj) h (put_resp (Some v))) (t_id tj) in
                   let me := if bool_decide (j = i) then tj' else th in
                   set_thread (set_thread s (r, j) tj') (r, i) (mkT (CPutC k b n rs e j s' u h) (t_ctx me) (t_id th))
               | _, _ => goto (TPanic PFault)
               end
      | None => goto (TPanic PFault)
      end
  | CPutC k b n rs e j s' u h =>
      match n_ths s !! (r, j) with
      | Some tj =>
          let tj' := mkT (t_pc tj) (ctx_comb_set (t_ctx tj) (h + 1)) (t_id tj) in
          let me := if bool_decide (j = i) then tj' else th in
          set_thread (set_thread s (r, j) tj') (r, i) (mkT (CPut k b n rs e j s' (u + 1)) (t_ctx me) (t_id th))
      | None => goto (TPanic PFault)
      end
  | CEnd k e => goto_rep (after_combine r k e q) r (set_comb x 0)
  | _ => s
  end.

(** [execute] and [execute_locked]. *)
Definition step_read : nsys :=
  match t_pc th with
  | RSample o => goto (RCheck o (g_ctail (n_lp s)))
  | RCheck o c => if c <=? ltail_of s r then goto (RLock o c false) else goto (ALoad (KR o c) 0)
  | RLock o c held =>
      if q_wlock x then s
      else goto_rep (RRead o c held) r (set_readers x ({[ i ]} ∪ q_readers x))
  | RRead o c held =>
      match dispatch (q_data x) o with
      | Ret v => goto (RDrop o v (ltail_of s r) held)
      | _ => goto (TPanic PFault)
      end
  | RDrop o v p held =>
      let s' := set_repl s r (set_readers x (q_readers x ∖ {[ i ]})) in
      if held then set_thread s' (r, i) (mkT (REnd o v p) (t_ctx th) (t_id th)) else returns s' (r, i) th v p
  | REnd o v p => returns (set_repl s r (set_comb x 0)) (r, i) th v p
  | LSample o => goto (LCheck o (g_ctail (n_lp s)))
  | LCheck o c => if c <=? ltail_of s r then goto (LAssert o c true) else goto (CComb (KL o c) 0 [] [])
  | LAssert o c held => if c <=? ltail_of s r then goto (RLock o c held) else goto (TPanic PFault)
  | _ => s
  end.

(** [sync] and [try_sync]; [y] is the replica worked for. *)
Definition step_sync (y : rst) : nsys :=
  let l := n_lp s in
  match t_pc th with
  | SSample q' k => goto (SCheck q' (g_ctail l) k)
  | SCheck q' c k => if c <=? ltail_of s q' then goto (after_full_sync k) else goto (SLoad q' 0 (ZLoop c k))
  | SLoad q' j z =>
      if q_comb y =? 0 then if j =? 3 then goto (SCas q' z) else goto (SLoad q' (j + 1) z)
      else goto (after_sync q' z)
  | SCas q' z =>
      if q_comb y =? 0 then goto_rep (SWrite q' z) q' (set_comb y 1) else goto (after_sync q' z)
  | SWrite q' z =>
      if can_write y then
        match lp_next size l (LExec q') with
        | Some l' => set_lp (goto_rep (SExec q' z) q' (set_wlock y true)) l'
        | None => s
        end
      else s
  | SExec q' z =>
      match lp_next size l (LStep q') with
      | Some l' =>
          match sync_call l l' q' (q_data y) with
          | Ret d' =>
              set_lp (goto_rep (if lp_idle (lp_pc l' q') then SDrop q' z else SExec q' z) q' (set_qdata y d')) l'
          | _ => goto (TPanic PFault)
          end
      | None => s
      end
  | SDrop q' z => goto_rep (SEnd q' z) q' (set_wlock y false)
  | SEnd q' z => goto_rep (after_sync q' z) q' (set_comb y 0)
  | _ => s
  end.
End Step.

Definition nrun (s : nsys) (k : nat * nat) (th : thr) (q : nat) : option nsys :=
  let '(r, i) := k in
  x ← n_reps s !! r;
  match t_pc th with
  | TIdle | TPanic _ => None
  | WSlot _ | WTail _ | GRes _ _ | GHead _ _ | GTake _ _ _ => Some (step_ctx s r i th)
  | ALoad _ _ | ACas _ | CComb _ _ _ _ | CTail _ _ _ _ _ | CRead _ _ _ _ _ _ _ => Some (step_collect s r i th x q)
  | CWrite _ _ _ | CApp _ _ _ _ | CDrop _ _ _ _ _ | CExecW _ _ _ _ _ | CExec _ _ _ _ _ | CExecD _ _ _ _ _ =>
      Some (step_log s r i th x q)
  | CResp _ _ _ _ _ _ _ | CPut _ _ _ _ _ _ _ _ | CPutC _ _ _ _ _ _ _ _ _ | CEnd _ _ => Some (step_respond s r i th x q)
  | RSample _ | RCheck _ _ | RLock _ _ _ | RRead _ _ _ | RDrop _ _ _ _ | REnd _ _ _
  | LSample _ | LCheck _ _ | LAssert _ _ _ => Some (step_read s r i th x)
  | SSample q' _ | SCheck q' _ _ | SLoad q' _ _ | SCas q' _ | SWrite q' _ | SExec q' _ | SDrop q' _ | SEnd q' _ =>
      y ← n_reps s !! q'; Some (step_sync s r i th y)
  end.

(** ** The system *)

(** A thread calls [execute_mut], [execute] or [sync], makes a step, or fails a
    compare-exchange spuriously; a cache loads a line or writes one back. *)
Inductive nlabel :=
| NWrite (k : nat * nat) (w : WO)
| NRead (k : nat * nat) (o : RO)
| NSync (k : nat * nat)
| NStep (k : nat * nat) (q : nat)
| NSpurious (k : nat * nat)
| NPrefetch (r e : nat)
| NEvict (r e : nat).

Definition nnext (s : nsys) (a : nlabel) : option nsys :=
  match a with
  | NWrite k w =>
      th ← n_ths s !! k;
      match t_pc th with TIdle => Some (begins s k th (inl w) (WSlot w)) | _ => None end
  | NRead k o =>
      th ← n_ths s !! k;
      match t_pc th with TIdle => Some (begins s k th (inr o) (RSample o)) | _ => None end
  | NSync k =>
      th ← n_ths s !! k;
      match t_pc th with TIdle => Some (goto s k.1 k.2 th (SSample k.1 YTop)) | _ => None end
  | NStep k q => th ← n_ths s !! k; if q <? length (g_reps (n_lp s)) then nrun s k th q else None
  | NSpurious k =>
      th ← n_ths s !! k;
      match t_pc th with
      | ACas z => Some (goto s k.1 k.2 th (after_combine k.1 z Done 0))
      | SCas q z => Some (goto s k.1 k.2 th (after_sync q z))
      | CApp _ _ _ _ => l ← lp_next size (n_lp s) (LSpurious k.1); Some (set_lp s l)
      | _ => None
      end
  | NPrefetch r e => l ← lp_next size (n_lp s) (LPrefetch r e); Some (set_lp s l)
  | NEvict r e => l ← lp_next size (n_lp s) (LEvict r e); Some (set_lp s l)
  end.

(** All threads registered, nothing executed; every replica has the data [d0]. *)
Definition ninit (nreps : nat) (d0 : D) (s : nsys) : Prop :=
  n_lp s = mkLP 0 0 0 0 (replicate size None) [] (replicate nreps (mkPrep PIdle 0 [] (replicate size None)))
  /\ (forall r x, n_reps s !! r = Some x <-> r < nreps /\ x = mkR 0 false ∅ d0)
  /\ (forall r i th, n_ths s !! (r, i) = Some th <->
        r < nreps /\ i < nths r /\ th = mkT TIdle (context_default tt) 0)
  /\ n_ops s = [].

Definition nreachable (nreps : nat) (d0 : D) : nsys -> Prop :=
  reachable (ninit nreps d0) (fun a b => exists x, nnext a x = Some b).
End Conc.
