(* ===== verification/NrConcSpec.v ===== *)
(** * The invariant of the concurrent system

    What holds between the steps of the threads of NrConc.  The combiner lock of a
    replica protects what [clean] says, like the invariant of a lock: no operation that
    still waits for its response is in the log, and the replica has applied all its own
    entries.  The holder of the lock gives it up when it reserves its batch in the log
    ([flight]) and restores it by handing out the responses ([home_ok]). *)

From stdpp Require Import gmap.
From S2P Require Import Prelude Context Log LogProtocol LogProtocolSpec Replica NrConc.

Section Spec.
Context {D RO WO R : Type} `{!Dispatch D RO WO R}.
Variables (size : nat) (nths : nat -> nat) (d0 : D).
Abbreviation lop := (WO * nat)%type.
Abbreviation context := (Context lop R unit).
Abbreviation lsys := (lpsys (O := lop)).
Abbreviation ppc := (ppc (O := lop)).
Abbreviation pc := (tpc (RO := RO) (WO := WO) (R := R)).
Abbreviation thr := (thr (RO := RO) (WO := WO) (R := R)).
Abbreviation nsys := (nsys (D := D) (RO := RO) (WO := WO) (R := R)).
Abbreviation hist := (list (lop * nat)).
Abbreviation ocall := (ocall (RO := RO) (WO := WO) (R := R)).
Implicit Types (l : lsys) (h : hist) (p : pc) (th : thr) (s : nsys) (r i id t : nat) (k : nat * nat).

(** ** The history *)

(** The data after the operations of [h]. *)
Definition hist_run h : res D := foldM (fun d (x : lop * nat) => y ← dispatch_mut d x.1.1; Ret y.1) d0 h.

(** The response of the entry at [p], and of a read at [p]. *)
Definition resp_at h (p : nat) (v : R) : Prop :=
  exists d y x, hist_run (take p h) = Ret d /\ h !! p = Some x /\ dispatch_mut d x.1.1 = Ret y /\ y.2 = v.
Definition read_at h (p : nat) (o : RO) (v : R) : Prop :=
  exists d, hist_run (take p h) = Ret d /\ dispatch d o = Ret v /\ p <= length h.

Definition ids h : list nat := (fun x => x.1.2) <$> h.

(** ** What the program points mean *)

Definition kont_w (k : kont (RO := RO)) : bool := match k with KW _ => true | _ => false end.
Definition ykont_w (y : ykont) : bool := match y with YW => true | _ => false end.
Definition zkont_w (z : zkont (RO := RO)) : bool := match z with ZCombine | ZLoop _ YW => true | _ => false end.

(** The thread has an operation in its context. *)
Definition waiting p : bool :=
  match p with
  | ALoad k _ | ACas k | CComb k _ _ _ | CTail k _ _ _ _ | CRead k _ _ _ _ _ _ | CWrite k _ _ | CApp k _ _ _
  | CDrop k _ _ _ _ | CExecW k _ _ _ _ | CExec k _ _ _ _ | CExecD k _ _ _ _ | CResp k _ _ _ _ _ _
  | CPut k _ _ _ _ _ _ _ | CPutC k _ _ _ _ _ _ _ _ | CEnd k _ => kont_w k
  | GRes _ _ | GHead _ _ => true
  | SSample _ y | SCheck _ _ y => ykont_w y
  | SLoad _ _ z | SCas _ z | SWrite _ z | SExec _ z | SDrop _ z | SEnd _ z => zkont_w z
  | _ => false
  end.

(** The operation of the call the thread is in: a write, or a read. *)
Definition kont_op (k : kont (RO := RO)) : unit + RO := match k with KW _ => inl tt | KR o _ | KL o _ => inr o end.
Definition ykont_op (y : ykont) : option (unit + RO) := match y with YW => Some (inl tt) | YTop => None end.
Definition zkont_op (z : zkont (RO := RO)) : option (unit + RO) :=
  match z with ZCombine => Some (inl tt) | ZLocked o | ZAgain o => Some (inr o) | ZLoop _ y => ykont_op y end.
Definition pc_op p : option (unit + RO) :=
  match p with
  | TIdle | TPanic _ => None
  | WSlot _ | WTail _ | GRes _ _ | GHead _ _ | GTake _ _ _ => Some (inl tt)
  | ALoad k _ | ACas k | CComb k _ _ _ | CTail k _ _ _ _ | CRead k _ _ _ _ _ _ | CWrite k _ _ | CApp k _ _ _
  | CDrop k _ _ _ _ | CExecW k _ _ _ _ | CExec k _ _ _ _ | CExecD k _ _ _ _ | CResp k _ _ _ _ _ _
  | CPut k _ _ _ _ _ _ _ | CPutC k _ _ _ _ _ _ _ _ | CEnd k _ => Some (kont_op k)
  | RSample o | RCheck o _ | RLock o _ _ | RRead o _ _ | RDrop o _ _ _ | REnd o _ _
  | LSample o | LCheck o _ | LAssert o _ _ => Some (inr o)
  | SSample _ y | SCheck _ _ y => ykont_op y
  | SLoad _ _ z | SCas _ z | SWrite _ z | SExec _ z | SDrop _ z | SEnd _ z => zkont_op z
  end.

(** The combiner lock of the own replica is held. *)
Definition zkont_lock (z : zkont (RO := RO)) : bool := match z with ZCombine | ZLocked _ => true | _ => false end.
Definition home_lock p : bool :=
  match p with
  | CComb _ _ _ _ | CTail _ _ _ _ _ | CRead _ _ _ _ _ _ _ | CWrite _ _ _ | CApp _ _ _ _
  | CDrop _ _ _ _ _ | CExecW _ _ _ _ _ | CExec _ _ _ _ _ | CExecD _ _ _ _ _ | CResp _ _ _ _ _ _ _
  | CPut _ _ _ _ _ _ _ _ | CPutC _ _ _ _ _ _ _ _ _ | CEnd _ _ => true
  | RLock _ _ b | RRead _ _ b | RDrop _ _ _ b | LAssert _ _ b => b
  | REnd _ _ _ | LSample _ | LCheck _ _ => true
  | SLoad _ _ z | SCas _ z | SWrite _ z | SExec _ z | SDrop _ z | SEnd _ z => zkont_lock z
  | _ => false
  end.
(** The combiner lock of a replica worked for is held. *)
Definition sync_lock p : option nat :=
  match p with SWrite q _ | SExec q _ | SDrop q _ | SEnd q _ => Some q | _ => None end.
Definition holds_lock k p r : Prop := k.1 = r /\ home_lock p = true \/ sync_lock p = Some r.

(** The write lock around the data is held. *)
Definition home_guard p : bool :=
  match p with CApp _ _ _ _ | CDrop _ _ _ _ _ | CExec _ _ _ _ _ | CExecD _ _ _ _ _ => true | _ => false end.
Definition sync_guard p : option nat := match p with SExec q _ | SDrop q _ => Some q | _ => None end.
Definition guards k p r : Prop := k.1 = r /\ home_guard p = true \/ sync_guard p = Some r.

Definition reading p : bool := match p with RRead _ _ _ | RDrop _ _ _ _ => true | _ => false end.

(** ** Contexts *)

(** What the other threads of a replica see of a thread: its context and the call. *)
Abbreviation pview := (gmap (nat * nat) (context * nat)).
Implicit Type pv : pview.
Definition th_view th : context * nat := (t_ctx th, t_id th).
Definition view_of s : pview := th_view <$> n_ths s.

Definition quiet (c : context) : Prop := ctx_head c = ctx_comb c /\ ctx_comb c = ctx_tail c.

(** The operation of thread [i] has no response yet. *)
Definition unserved pv r i (c : context) id : Prop :=
  pv !! (r, i) = Some (c, id) /\ ctx_comb c = ctx_head c /\ ctx_tail c = S (ctx_head c).

Definition comb_is pv r j (v : nat) : Prop := exists c id, pv !! (r, j) = Some (c, id) /\ ctx_comb c = v.

(** The response of call [id] of replica [r]. *)
Definition answered l r id (v : R) : Prop :=
  exists q w, g_hist l !! q = Some ((w, id), S r) /\ q < g_ctail l /\ resp_at (g_hist l) q v.

(** The operation in the context is that of the call [id]. *)
Definition pending_ok l (ops : list ocall) r (c : context) id : Prop :=
  ctx_tail c = S (ctx_head c)
  /\ (exists w x, ctx_op c (ctx_head c) = Some (w, id) /\ ops !! id = Some x /\ o_op x = inl w /\ o_inv x <= g_ctail l)
  /\ (ctx_comb c = ctx_head c
      \/ ctx_comb c = S (ctx_head c) /\ exists v, ctx_resp c (ctx_head c) = Some v /\ answered l r id v).

Definition ctx_ok l ops r th : Prop :=
  let c := t_ctx th in
  length (batch c) = MAX_PENDING_OPS /\
  match t_pc th with
  | TPanic _ => quiet c \/ pending_ok l ops r c (t_id th)
  | WTail w => quiet c /\ ctx_op c (ctx_tail c) = Some (w, t_id th)
  | GHead _ _ => pending_ok l ops r c (t_id th) /\ ctx_comb c <> ctx_head c
  | GTake _ _ j => quiet c /\ ctx_head c = S j /\ exists v, ctx_resp c j = Some v /\ answered l r (t_id th) v
  | p => if waiting p then pending_ok l ops r c (t_id th) else quiet c
  end.

(** ** Combining *)

Definition done_of l r : nat := match g_reps l !! r with Some p => done_upto p | None => 0 end.
Definition ltail_at l r : nat := match g_reps l !! r with Some p => p_ltail p | None => 0 end.

(** The lock invariant of the combiner lock. *)
Definition clean l pv r : Prop :=
  (forall i c id, unserved pv r i c id -> id ∉ ids (g_hist l))
  /\ (forall q e, g_hist l !! q = Some (e, S r) -> q < done_of l r).

(** [b] holds the operations of the threads from [j0] on, [n j] of thread [j]. *)
Definition collected pv r (j0 : nat) (b : list lop) (n : list nat) : Prop :=
  length b = sum_list n /\
  forall j m, n !! j = Some m -> m = 0 \/ m = 1 /\ exists o, b !! sum_list (take j n) = Some o /\
    (j0 <= j -> exists c, unserved pv r j c o.2 /\ ctx_op c (ctx_head c) = Some o).

(** The batch is in the log from [t] on; the threads before [j0] have their
    responses. *)
Definition flight l pv r (j0 t : nat) (b : list lop) (n : list nat) : Prop :=
  collected pv r j0 b n
  /\ (forall j o, b !! j = Some o -> g_hist l !! (t + j) = Some (o, S r))
  /\ (forall i c id, unserved pv r i c id -> id ∈ ids (g_hist l) -> j0 <= i /\ n !! i = Some 1)
  /\ (forall q e, g_hist l !! q = Some (e, S r) -> q < done_of l r \/ t <= q < t + length b).

(** The responses so far are those of the entries applied. *)
Definition results_ok l r (t : nat) (b : list lop) (rs : list R) : Prop :=
  length rs = length b `min` (done_of l r - t) /\ forall m v, rs !! m = Some v -> resp_at (g_hist l) (t + m) v.

(** [append] before and after it has reserved its entries. *)
Definition akont_before (b : list lop) (k : akont (O := lop)) : Prop := match k with AGc a => a_ops a = b | ADone => False end.
Definition ekont_before (b : list lop) (k : ekont (O := lop)) : Prop :=
  match k with KTop => False | KGc a => a_ops a = b | KAdv k _ => akont_before b k end.
Definition before_append (b : list lop) (p : ppc) : Prop :=
  match p with
  | PTail a | PHead a _ | PCas a _ _ => a_ops a = b
  | EStart e | EGtail e _ | EHead e _ _ | EFlush e _ _ _ | ERead e _ _ _ | ECtail e _ | EStore e _ => ekont_before b e
  | HHead k _ | HTail k _ _ | HFirst k _ _ _ | HScan k _ _ _ _ _ | HStore k _ _ _ => akont_before b k
  | _ => False
  end.
Definition ekont_after (k : ekont (O := lop)) : Prop := match k with KAdv ADone _ => True | _ => False end.
Definition after_append (b : list lop) (t : nat) (p : ppc) : Prop :=
  match p with
  | PWrite ops t' _ _ | PFlush ops t' _ _ | PPub ops t' _ | PCommit ops t' _ => ops = b /\ t' = t
  | EStart e | EGtail e _ | EHead e _ _ | EFlush e _ _ _ | ERead e _ _ _ | ECtail e _ | EStore e _ => ekont_after e
  | HHead k _ | HTail k _ _ | HFirst k _ _ _ | HScan k _ _ _ _ _ | HStore k _ _ _ => k = ADone
  | _ => False
  end.

(** [exec] of [combine], which will have applied the entries up to [u]. *)
Definition exec_reaches (u : nat) (p : ppc) : Prop :=
  match p with
  | EStart KTop | EGtail KTop _ => True
  | EHead KTop _ g | EFlush KTop _ g _ | ERead KTop _ g _ | ECtail KTop g | EStore KTop g => u <= g
  | _ => False
  end.

(** The end of a batch in the log; an empty batch is nowhere. *)
Definition batch_end t (b : list lop) : nat := match b with [] => 0 | _ => t + length b end.

(** How far [exec] must get for the caller. *)
Definition kont_upto (k : kont (RO := RO)) : nat := match k with KL _ c => c | _ => 0 end.

(** The threads before [j] have been served, and [u] of [m] responses of thread [j]
    have been handed over. *)
Definition delivering l pv r (k : kont (RO := RO)) (b : list lop) (n : list nat) (rs : list R) (j s : nat) : Prop :=
  kont_upto k <= ltail_at l r /\ length n = nths r /\ s = sum_list (take j n)
  /\ exists t, flight l pv r j t b n /\ results_ok l r t b rs /\ batch_end t b <= ltail_at l r
       /\ lp_pc l r = PIdle.

Definition home_ok l pv r p : Prop :=
  match p with
  | CComb _ j b n => clean l pv r /\ length n = j /\ j <= nths r /\ collected pv r 0 b n
  | CTail _ j h b n => clean l pv r /\ length n = j /\ j < nths r /\ collected pv r 0 b n /\ comb_is pv r j h
  | CRead _ j h t c b n =>
      clean l pv r /\ length n = j /\ j < nths r /\ h <= c <= t /\ t <= S h
      /\ exists b0 b1, b = b0 ++ b1 /\ collected pv r 0 b0 n /\ length b1 = c - h
           /\ (t = S h -> exists cx o, unserved pv r j cx o.2 /\ ctx_head cx = h /\ ctx_op cx h = Some o
                 /\ (c = t -> b1 = [o]))
  | CWrite _ b n => clean l pv r /\ length n = nths r /\ collected pv r 0 b n
  | CApp _ b n rs =>
      length n = nths r
      /\ (before_append b (lp_pc l r) /\ clean l pv r /\ collected pv r 0 b n /\ rs = []
          \/ exists t, after_append b t (lp_pc l r) /\ flight l pv r 0 t b n /\ results_ok l r t b rs)
  | CDrop _ b n rs e =>
      length n = nths r /\ lp_pc l r = PIdle
      /\ match e with
         | NoSpace => clean l pv r
         | _ => exists t, flight l pv r 0 t b n /\ results_ok l r t b rs
         end
  | CExecW _ b n rs e => length n = nths r /\ e <> NoSpace /\ lp_pc l r = PIdle /\ exists t, flight l pv r 0 t b n /\ results_ok l r t b rs
  | CExec k b n rs e => length n = nths r /\ e <> NoSpace /\ exists t, flight l pv r 0 t b n /\ results_ok l r t b rs
      /\ exec_reaches (batch_end t b) (lp_pc l r) /\ exec_reaches (kont_upto k) (lp_pc l r)
  | CExecD k b n rs e => e <> NoSpace /\ delivering l pv r k b n rs 0 0
  | CResp k b n rs e j s => e <> NoSpace /\ j <= nths r /\ delivering l pv r k b n rs j s
  | CPut k b n rs e j s u => e <> NoSpace /\ n !! j = Some 1
      /\ (u = 0 /\ s < length rs /\ delivering l pv r k b n rs j s
          \/ u = 1 /\ delivering l pv r k b n rs (S j) (S s))
  | CPutC k b n rs e j s u h => e <> NoSpace /\ n !! j = Some 1 /\ u = 0 /\ delivering l pv r k b n rs j s
      /\ exists c id v, unserved pv r j c id /\ h = ctx_head c /\ rs !! s = Some v /\ ctx_resp c h = Some v
  | CEnd k e => clean l pv r /\ e <> NoSpace /\ kont_upto k <= ltail_at l r
  | SWrite q z | SExec q z | SDrop q z | SEnd q z => if zkont_lock z then clean l pv r /\ q <> r else True
  | p => if home_lock p then clean l pv r else True
  end.

(** ** Calls *)

(** What a reader knows of its sample of the completed tail; [a] is the completed
    tail when its call began. *)
Definition kont_sample l (a : nat) (k : kont (RO := RO)) : Prop :=
  match k with KW x => x = false | KR _ c | KL _ c => a <= c <= g_ctail l end.
Definition kont_free (k : kont (RO := RO)) : Prop := match k with KL _ _ => False | _ => True end.
Definition sample_ok l r (a : nat) p : Prop :=
  match p with
  | ALoad k _ | ACas k => kont_sample l a k /\ kont_free k
  | CComb k _ _ _ | CTail k _ _ _ _ | CRead k _ _ _ _ _ _ | CWrite k _ _ | CApp k _ _ _
  | CDrop k _ _ _ _ | CExecW k _ _ _ _ | CExec k _ _ _ _ | CExecD k _ _ _ _ | CResp k _ _ _ _ _ _
  | CPut k _ _ _ _ _ _ _ | CPutC k _ _ _ _ _ _ _ _ | CEnd k _ => kont_sample l a k
  | RCheck _ c | LCheck _ c => a <= c <= g_ctail l
  | LAssert _ c _ | RLock _ c _ | RRead _ c _ => a <= c /\ c <= ltail_at l r
  | RDrop o v p _ | REnd o v p => a <= p <= g_ctail l /\ read_at (g_hist l) p o v
  | _ => True
  end.

Definition call_ok l (ops : list ocall) r th : Prop :=
  match pc_op (t_pc th) with
  | None => True
  | Some o => exists x, ops !! t_id th = Some x /\ o_ret x = None /\ o_inv x <= g_ctail l
      /\ sample_ok l r (o_inv x) (t_pc th)
      /\ match o with
         | inr o => o_op x = inr o
         | inl _ => exists w, o_op x = inl w
             /\ match t_pc th with WSlot w' | WTail w' => w' = w /\ t_id th ∉ ids (g_hist l) | _ => True end
         end
  end.

(** The response of the thread's own operation is there, or the operation is part of
    the round that the thread combines, and is still to be handed its response. *)
Definition served (c : context) : Prop := ctx_comb c <> ctx_head c.
Definition own_ok i th : Prop :=
  let c := t_ctx th in
  match t_pc th with
  | CComb (KW _) _ _ n | CTail (KW _) _ _ _ n => i < length n -> served c \/ n !! i = Some 1
  | CRead (KW _) _ h t _ _ n =>
      (i < length n -> served c \/ n !! i = Some 1) /\ (i = length n -> served c \/ t = S h)
  | CWrite (KW _) _ n | CApp (KW _) _ n _ | CDrop (KW _) _ n _ _ | CExecW (KW _) _ n _ _ | CExec (KW _) _ n _ _
  | CExecD (KW _) _ n _ _ => served c \/ n !! i = Some 1
  | CResp (KW _) _ n _ _ j _ | CPutC (KW _) _ n _ _ j _ _ _ => served c \/ n !! i = Some 1 /\ j <= i
  | CPut (KW _) _ n _ _ j _ u => served c \/ n !! i = Some 1 /\ j + u <= i
  | CEnd (KW _) _ | GRes true _ | SSample _ YW | SCheck _ _ YW => served c
  | SLoad _ _ (ZLoop _ YW) | SCas _ (ZLoop _ YW) | SWrite _ (ZLoop _ YW) | SExec _ (ZLoop _ YW) | SDrop _ (ZLoop _ YW)
  | SEnd _ (ZLoop _ YW) => served c
  | _ => True
  end.

(** Some operation of the data structure panics. *)
Definition op_panics : Prop :=
  (exists d w, forall y, dispatch_mut d w <> Ret y) \/ exists d o, forall v, dispatch d o <> Ret v.

Record th_ok l pv (ops : list ocall) k th : Prop := {
  to_ctx : ctx_ok l ops k.1 th;
  to_call : call_ok l ops k.1 th;
  to_home : home_ok l pv k.1 (t_pc th);
  to_sync : forall q, sync_lock (t_pc th) = Some q -> clean l pv q;
  to_run : forall q z, t_pc th = SExec q z -> exec_reaches 0 (lp_pc l q);
  to_idle : forall q z, t_pc th = SDrop q z -> lp_pc l q = PIdle;
  to_panic : t_pc th = TPanic PFault -> op_panics;
  to_own : own_ok k.2 th;
}.

(** A call that has returned, with the number [id]. *)
Definition ret_ok l id (x : ocall) : Prop :=
  forall v (p m : nat), o_ret x = Some (v, p, m) ->
    o_inv x <= p /\
    match o_op x with
    | inl w => p < g_ctail l /\ resp_at (g_hist l) p v /\ exists q, g_hist l !! p = Some ((w, id), q)
    | inr o => p <= g_ctail l /\ read_at (g_hist l) p o v
    end.

(** Calls that begin after a call has returned take effect after it. *)
Definition real_time (ops : list ocall) : Prop :=
  forall a b x y v (p m : nat), ops !! a = Some x -> ops !! b = Some y -> o_ret x = Some (v, p, m) -> m <= b ->
    match o_op x with inl _ => p < o_inv y | inr _ => p <= o_inv y end.

(** The thread is in a call, or its context has an operation. *)
Definition live th : Prop := pc_op (t_pc th) <> None \/ ctx_tail (t_ctx th) <> ctx_head (t_ctx th).

(** Who holds the locks. *)
Record locks_ok (reps : gmap nat (rst (D := D))) (ths : gmap (nat * nat) thr) : Prop := {
  lo_free : forall r x k th, reps !! r = Some x -> q_comb x = 0 -> ths !! k = Some th -> ~ holds_lock k (t_pc th) r;
  lo_uniq : forall r k k' th th', ths !! k = Some th -> ths !! k' = Some th' ->
    holds_lock k (t_pc th) r -> holds_lock k' (t_pc th') r -> k = k';
  lo_guard : forall r x k th, reps !! r = Some x -> ths !! k = Some th -> guards k (t_pc th) r -> q_wlock x = true;
  lo_readers : forall r x i th, reps !! r = Some x -> ths !! (r, i) = Some th -> reading (t_pc th) = true -> i ∈ q_readers x;
  lo_excl : forall r x, reps !! r = Some x -> q_readers x = ∅ \/ q_wlock x = false;
}.

(** The history and the calls. *)
Record calls_ok l (ops : list ocall) : Prop := {
  co_nodup : NoDup (ids (g_hist l));
  co_hist : forall q w id r, g_hist l !! q = Some ((w, id), r) ->
    exists x, ops !! id = Some x /\ o_op x = inl w /\ o_inv x <= q;
  co_ret : forall id x, ops !! id = Some x -> ret_ok l id x;
  co_time : real_time ops;
  co_ctail : forall id x, ops !! id = Some x -> o_inv x <= g_ctail l;
  co_num : forall id x v (p m : nat), ops !! id = Some x -> o_ret x = Some (v, p, m) -> id < m;
}.

Record ninv s : Prop := {
  ni_lp : lp_inv size (n_lp s);
  ni_reps : forall r, is_Some (n_reps s !! r) <-> r < length (g_reps (n_lp s));
  ni_ths : forall r i, is_Some (n_ths s !! (r, i)) <-> r < length (g_reps (n_lp s)) /\ i < nths r;
  ni_data : forall r x, n_reps s !! r = Some x ->
    hist_run (take (done_of (n_lp s) r) (g_hist (n_lp s))) = Ret (q_data x);
  ni_ctail : exists d, hist_run (take (g_ctail (n_lp s)) (g_hist (n_lp s))) = Ret d;
  ni_idle : forall r x, n_reps s !! r = Some x -> q_wlock x = false -> lp_pc (n_lp s) r = PIdle;
  ni_clean : forall r x, n_reps s !! r = Some x -> q_comb x = 0 -> clean (n_lp s) (view_of s) r;
  ni_locks : locks_ok (n_reps s) (n_ths s);
  ni_ids : forall k k' th th', n_ths s !! k = Some th -> n_ths s !! k' = Some th' ->
    live th -> live th' -> t_id th = t_id th' -> k = k';
  ni_calls : calls_ok (n_lp s) (n_ops s);
  ni_th : forall k th, n_ths s !! k = Some th -> th_ok (n_lp s) (view_of s) (n_ops s) k th;
}.
End Spec.
