(* ===== verification/NrConcLog.v ===== *)
(** * Steps of the log, as the combiners see them

    What a step of LogProtocol changes, and which entry it hands to the closure:
    the facts about the log that the proofs about concurrent replicas use. *)

From stdpp Require Import gmap.
From S2P Require Import Prelude Context Log LogProtocol LogProtocolSpec Replica NrConc NrConcSpec.

Section Log.
Context {RO WO R : Type} (size : nat).
Hypothesis Hpow : is_pow2 size.
Hypothesis Hgc : GC_FROM_HEAD <= size.
Abbreviation lop := (WO * nat)%type.
Abbreviation lsys := (lpsys (O := lop)).
Implicit Types (l : lsys) (k : nat) (p : prep (O := lop)).

(** The effect of a step of replica [k] that appends [e] to the history. *)
Record lp_ext k l l' (e : list lop) : Prop := {
  le_hist : g_hist l' = g_hist l ++ map (fun o => (o, S k)) e;
  le_ctail : g_ctail l <= g_ctail l';
  le_ctail_cases : g_ctail l' = g_ctail l \/ g_ctail l' = done_of l k;
  le_other : forall j, j <> k -> g_reps l' !! j = g_reps l !! j;
  le_length : length (g_reps l') = length (g_reps l);
  le_ltail : ltail_at l k <= ltail_at l' k;
}.

Lemma at_some l k p : g_reps l !! k = Some p ->
  done_of l k = done_upto p /\ ltail_at l k = p_ltail p /\ lp_pc l k = p_pc p.
Proof. unfold done_of, ltail_at, lp_pc. by intros ->. Qed.

Lemma reps_at (l l' : lsys) k p p' : g_reps l !! k = Some p -> g_reps l' = <[k := p']> (g_reps l) ->
  g_reps l' !! k = Some p'.
Proof. intros Hk ->. apply list_lookup_insert_eq. by eapply lookup_lt_Some. Qed.

(** The shape of every step but the reservation. *)
Lemma ext_insert k l l' p p' : g_reps l !! k = Some p -> g_reps l' = <[k := p']> (g_reps l) ->
  g_hist l' = g_hist l -> g_ctail l <= g_ctail l' ->
  g_ctail l' = g_ctail l \/ g_ctail l' = done_upto p -> p_ltail p <= p_ltail p' -> lp_ext k l l' [].
Proof.
  intros Hk Hr Hh Hc Hcc Hl. pose proof (reps_at l l' k p p' Hk Hr) as Hk'.
  destruct (at_some l k p Hk) as (Hd & Hlt & _). destruct (at_some l' k p' Hk') as (_ & Hlt' & _).
  split; try done.
  - by rewrite Hh, app_nil_r.
  - by rewrite Hd.
  - intros j Hj. rewrite Hr. by apply list_lookup_insert_ne.
  - rewrite Hr. apply length_insert.
  - by rewrite Hlt, Hlt'.
Qed.

Lemma ext_refl k l : lp_ext k l l [].
Proof. split; auto. by rewrite app_nil_r. Qed.

Ltac use_insert Hk := eapply ext_insert; [exact Hk|cbn; reflexivity|cbn; try done; try (by left); try lia..].

Lemma run_ext k l p : lp_inv size l -> g_reps l !! k = Some p ->
  exists e, lp_ext k l (lp_run size l k p) e
    /\ (e = [] \/ exists a t adv, p_pc p = PCas a t adv /\ e = a_ops a
                  /\ g_reps (lp_run size l k p) !! k = Some (set_pc p (PWrite e (length (g_hist l)) adv 0))).
Proof.
  intros Hinv Hk. destruct (li_reps _ _ Hinv k p Hk) as [_ _ _ Hpc].
  unfold lp_run, lp_append, lp_exec, lp_advance. unfold pc_ok in Hpc. destruct (p_pc p) eqn:Ep.
  4: {
    destruct (Nat.eqb_spec (g_tail l) t) as [<-|_].
    - exists (a_ops a). split.
      + assert (Hk' : g_reps (mkLP (g_head l) (g_tail l + length (a_ops a)) (g_commit l) (g_ctail l) (g_mem l)
          (g_hist l ++ map (fun o => (o, S k)) (a_ops a))
          (<[k := set_pc p (PWrite (a_ops a) (g_tail l) adv 0)]> (g_reps l))) !! k
          = Some (set_pc p (PWrite (a_ops a) (g_tail l) adv 0))) by (by eapply reps_at).
        split; cbn; auto; [by intros j Hj; apply list_lookup_insert_ne|by rewrite length_insert|].
        destruct (at_some _ k _ Hk) as (_ & -> & _). by destruct (at_some _ k _ Hk') as (_ & -> & _).
      + right. exists a, (g_tail l), adv. split_and!; [done|done|]. cbn.
        rewrite (li_tail _ _ Hinv) at 1. apply list_lookup_insert_eq. by eapply lookup_lt_Some.
    - exists []. split; [|by left]. use_insert Hk. }
  all: exists []; split; [|by left].
  all: repeat case_match; simplify_eq/=; try apply ext_refl; try (use_insert Hk; fail).
  use_insert Hk. unfold done_upto. rewrite Ep. lia.
Qed.

Lemma next_ext x l l' : lp_inv size l -> lp_next size l x = Some l' ->
  exists e, lp_ext (lp_label_rep x) l l' e /\ (e = [] \/ exists k, x = LStep k).
Proof.
  intros Hinv E. unfold lp_next in E.
  destruct (g_reps l !! lp_label_rep x) as [p|] eqn:Hk; [|done]. cbn [mbind option_bind] in E.
  destruct x as [k ops|k|k|k|k q|k q]; cbn in Hk.
  3: { injection E as <-. destruct (run_ext k l p Hinv Hk) as (e & He & _). exists e. split; [done|]. right. by exists k. }
  all: exists []; split; [|by left]; repeat case_match; simplify_eq/=; use_insert Hk.
Qed.

(** ** What is applied *)

Lemma run_done k l p p' : lp_inv size l -> g_reps l !! k = Some p ->
  g_reps (lp_run size l k p) !! k = Some p' ->
  done_upto p' = done_upto p
  \/ done_upto p' = S (done_upto p) /\ done_upto p < g_commit l /\ g_hist (lp_run size l k p) = g_hist l.
Proof.
  intros Hinv Hk. destruct (li_reps _ _ Hinv k p Hk) as [_ _ _ Hpc].
  assert (Hins : forall q, <[k := q]> (g_reps l) !! k = Some q).
  { intros q. apply list_lookup_insert_eq. by eapply lookup_lt_Some. }
  pose proof (eq_refl (done_upto p)) as Hd. unfold done_upto in Hd at 2.
  pose proof (li_order _ _ Hinv) as Ho. pose proof (li_tail _ _ Hinv) as Ht.
  unfold lp_run, lp_append, lp_exec, lp_advance. unfold pc_ok in Hpc.
  destruct (p_pc p) eqn:Ep; rewrite Hd.
  all: repeat case_match; simplify_eq/=; rewrite ?Hins, ?Hk; intros [= <-]; try (by left).
  all: try (left; unfold done_upto; cbn; rewrite ?Ep; naive_solver lia).
  all: try (left; unfold done_upto, eresume, aresume, after_publish; cbn; repeat case_match; simplify_eq/=; naive_solver lia).
  - right. destruct Hpc as (_ & _ & Hg & Hi & _). apply Nat.ltb_lt in H.
    split_and!; [change (done_upto p + 1 = S (done_upto p)); lia|lia|done].
  - destruct Hpc as (_ & _ & Hg & Hi & _). apply Nat.ltb_lt in H.
    destruct (lookup_lt_is_Some_2 (g_hist l) (done_upto p)) as [x Hx]; [lia|].
    pose proof (read_entry size Hgc l k p k0 l0 g _ x Hinv Hk Ep H Hx). congruence.
  - left. destruct Hpc as (_ & _ & Hg & Hi & _). apply Nat.ltb_ge in H. change (g = done_upto p). lia.
Qed.

Lemma applied_length l k p : lp_inv size l -> g_reps l !! k = Some p -> length (p_applied p) = done_upto p.
Proof.
  intros Hinv Hk. pose proof (done_upto_le size Hgc l k p Hinv Hk). pose proof (li_order _ _ Hinv).
  pose proof (li_tail _ _ Hinv). destruct (li_reps _ _ Hinv k p Hk) as [_ -> _ _].
  unfold calls. rewrite length_map, length_take. lia.
Qed.

(** The closure is called on the entry that is applied. *)
Lemma call_none l l' k p p' : lp_inv size l -> lp_inv size l' -> g_reps l !! k = Some p ->
  g_reps l' !! k = Some p' -> done_upto p' = done_upto p -> lp_call l l' k = None.
Proof.
  intros Hinv Hinv' Hk Hk' Hd. unfold lp_call. rewrite Hk, Hk'. cbn. apply lookup_ge_None_2.
  rewrite (applied_length l k p Hinv Hk), (applied_length l' k p' Hinv' Hk'). lia.
Qed.

Lemma call_some l l' k p p' x : lp_inv size l -> lp_inv size l' -> g_reps l !! k = Some p ->
  g_reps l' !! k = Some p' -> done_upto p' = S (done_upto p) -> g_hist l' !! done_upto p = Some x ->
  lp_call l l' k = Some (x.1, x.2 =? S k).
Proof.
  intros Hinv Hinv' Hk Hk' Hd Hx. unfold lp_call. rewrite Hk, Hk'. cbn.
  rewrite (applied_length l k p Hinv Hk). destruct (li_reps _ _ Hinv' k p' Hk') as [_ -> _ _].
  unfold calls. rewrite list_lookup_fmap, lookup_take_lt by lia. by rewrite Hx.
Qed.

(** ** Phases *)

Lemma run_not_panic l k p p' : lp_inv size (lp_run size l k p) ->
  g_reps (lp_run size l k p) !! k = Some p' -> p_pc p' <> PPanic.
Proof. intros Hinv Hk E. destruct (li_reps _ _ Hinv k p' Hk) as [_ _ _ H]. unfold pc_ok in H. by rewrite E in H. Qed.

Lemma lookup_set_rep l k p q : g_reps l !! k = Some p -> <[k := q]> (g_reps l) !! k = Some q.
Proof. intros Hk. apply list_lookup_insert_eq. by eapply lookup_lt_Some. Qed.

(** [append] before the reservation: it goes on, gives up, or reserves. *)
Lemma run_before (b : list lop) l k p p' : lp_inv size l -> g_reps l !! k = Some p -> before_append b (p_pc p) ->
  g_reps (lp_run size l k p) !! k = Some p' -> p_pc p' <> PPanic ->
  g_hist (lp_run size l k p) = g_hist l
    /\ (before_append b (p_pc p') \/ p_pc p' = PIdle /\ append_outcome (p_pc p) = NoSpace)
  \/ g_hist (lp_run size l k p) = g_hist l ++ map (fun o => (o, S k)) b
    /\ after_append b (length (g_hist l)) (p_pc p') /\ done_upto p' = done_upto p.
Proof.
  intros Hinv Hk Hb Hk' Hnp. pose proof (fun q => lookup_set_rep l k p q Hk) as Hins. pose proof (li_tail _ _ Hinv) as Ht.
  pose proof (eq_refl (done_upto p)) as Hd. unfold done_upto in Hd at 2.
  unfold lp_run, lp_append, lp_exec, lp_advance in *. destruct (p_pc p) eqn:Ep; try done.
  3: { destruct (Nat.eqb_spec (g_tail l) t) as [<-|_]; cbn in Hk'; rewrite Hins in Hk'; injection Hk' as <-.
       - right. cbn in Hb |- *. subst b. split_and!; [done|done|done|by rewrite Hd].
       - left. split; [done|]. by left. }
  all: left; repeat case_match; simplify_eq/=; try (rewrite ?Hins, ?Hk in Hk'); simplify_eq/=; try done;
    (split; [done|]); rewrite ?Ep; cbn; auto.
  all: unfold eresume, aresume; repeat case_match; simplify_eq/=; auto.
Qed.

Lemma run_after (b : list lop) t l k p p' : lp_inv size l -> g_reps l !! k = Some p -> after_append b t (p_pc p) ->
  g_reps (lp_run size l k p) !! k = Some p' -> p_pc p' <> PPanic ->
  g_hist (lp_run size l k p) = g_hist l
    /\ (after_append b t (p_pc p') \/ p_pc p' = PIdle /\ append_outcome (p_pc p) <> NoSpace).
Proof.
  intros Hinv Hk Hb Hk' Hnp. pose proof (fun q => lookup_set_rep l k p q Hk) as Hins.
  unfold lp_run, lp_append, lp_exec, lp_advance in *. destruct (p_pc p) eqn:Ep; try done.
  all: repeat case_match; simplify_eq/=; try (rewrite ?Hins, ?Hk in Hk'); simplify_eq/=; try done;
    (split; [done|]); rewrite ?Ep; cbn; auto.
  all: unfold eresume, aresume, after_publish; repeat case_match; simplify_eq/=; auto.
  all: by destruct k1; auto.
Qed.

Lemma run_exec u l k p p' : lp_inv size l -> g_reps l !! k = Some p -> exec_reaches u (p_pc p) -> u <= g_commit l ->
  g_reps (lp_run size l k p) !! k = Some p' -> p_pc p' <> PPanic ->
  g_hist (lp_run size l k p) = g_hist l
    /\ (exec_reaches u (p_pc p') \/ p_pc p' = PIdle /\ u <= p_ltail p').
Proof.
  intros Hinv Hk Hb Hu Hk' Hnp. pose proof (fun q => lookup_set_rep l k p q Hk) as Hins.
  destruct (li_reps _ _ Hinv k p Hk) as [_ _ _ Hpc]. unfold pc_ok in Hpc.
  unfold lp_run, lp_append, lp_exec, lp_advance in *. destruct (p_pc p) eqn:Ep; try done; destruct k0; try done.
  all: repeat case_match; simplify_eq/=; try (rewrite ?Hins, ?Hk in Hk'); simplify_eq/=; try done;
    (split; [done|]); rewrite ?Ep; cbn; auto.
  right. split; [done|]. destruct Hpc as [_ <-]. by apply Nat.eqb_eq in H as ->.
Qed.

(** The entries a replica reserved are published when it is not appending. *)
Lemma own_published l k p q e : lp_inv size l -> g_reps l !! k = Some p -> unpub (p_pc p) = None ->
  g_hist l !! q = Some (e, S k) -> q < g_commit l.
Proof.
  intros Hinv Hk Hu Hq. destruct (decide (q < g_commit l)) as [|Hge]; [done|].
  pose proof (li_tail _ _ Hinv). apply lookup_lt_Some in Hq as Hlt.
  destruct (li_tile _ _ Hinv q) as (k' & r & t & ops & Hk' & Hu' & Hr); [lia|].
  destruct (li_own _ _ Hinv k' r t ops Hk' Hu') as (_ & _ & Ho).
  destruct (lookup_lt_is_Some_2 ops (q - t)) as [o Hoo]; [lia|]. specialize (Ho _ _ Hoo).
  replace (t + (q - t)) with q in Ho by lia. assert (k' = k) as -> by congruence. congruence.
Qed.
End Log.
