(* ===== verification/NrConcFrame.v ===== *)
(** * What a step leaves alone

    The assertions of NrConcSpec about a thread survive the steps of the others: the
    log grows, the local tails and the completed tail only advance, and the contexts
    change only in the hands of their owner and of the combiner.  [ninv_step] puts the
    frame conditions together for the steps that change no context. *)

From stdpp Require Import gmap.
From S2P Require Import Prelude Context Log LogProtocol LogProtocolSpec Replica NrConc NrConcSpec.
From S2P Require Import NrConcLog.

Section Frame.
Context {D RO WO R : Type} `{!Dispatch D RO WO R}.
Variables (size : nat) (nths : nat -> nat) (d0 : D).
Abbreviation lop := (WO * nat)%type.
Abbreviation context := (Context lop R unit).
Abbreviation lsys := (lpsys (O := lop)).
Abbreviation pc := (tpc (RO := RO) (WO := WO) (R := R)).
Abbreviation thr := (thr (RO := RO) (WO := WO) (R := R)).
Abbreviation nsys := (nsys (D := D) (RO := RO) (WO := WO) (R := R)).
Abbreviation hist := (list (lop * nat)).
Abbreviation pview := (gmap (nat * nat) (context * nat)).
Implicit Types (l : lsys) (h : hist) (p : pc) (th : thr) (s : nsys) (pv : pview) (r i id q : nat) (k : nat * nat).

(** ** The log grows *)

Lemma ids_app h h' : ids (h ++ h') = ids h ++ ids h'.
Proof. apply fmap_app. Qed.

Lemma ids_tagged (e : list lop) q : ids (map (fun o => (o, S q)) e) = e.*2.
Proof. unfold ids. by induction e as [|x e IH]; cbn; [|f_equal]. Qed.

Lemma elem_ids h id : id ∈ ids h <-> exists q w r, h !! q = Some ((w, id), r).
Proof.
  unfold ids. rewrite list_elem_of_fmap. split.
  - intros ([[w id'] r] & -> & [q Hq]%list_elem_of_lookup). by exists q, w, r.
  - intros (q & w & r & Hq). exists ((w, id), r). split; [done|]. by eapply list_elem_of_lookup_2.
Qed.

Lemma resp_at_app h h' q v : resp_at d0 h q v -> resp_at d0 (h ++ h') q v.
Proof.
  intros (d & y & x & Hd & Hx & Hy & Hv). apply lookup_lt_Some in Hx as Hp. exists d, y, x.
  rewrite take_app_le by lia. split_and!; try done. by apply lookup_app_l_Some.
Qed.

Lemma read_at_app h h' q o v : read_at d0 h q o v -> read_at d0 (h ++ h') q o v.
Proof.
  intros (d & Hd & Hv & Hp). exists d. rewrite take_app_le by lia. rewrite length_app. split_and!; try done. lia.
Qed.

(** One more operation. *)
Lemma hist_run_snoc h x : hist_run d0 (h ++ [x]) = d ← hist_run d0 h; y ← dispatch_mut d x.1.1; Ret y.1.
Proof.
  unfold hist_run. rewrite foldM_app. destruct (foldM _ d0 h); cbn; [|done|done].
  by destruct (dispatch_mut _ _).
Qed.

(** What the assertion of a combiner depends on. *)
Lemma home_mono l l' pv pv' r p :
  lp_pc l' r = lp_pc l r -> ltail_at l' r = ltail_at l r ->
  (clean l pv r -> clean l' pv' r) ->
  (forall j c id, unserved pv r j c id -> unserved pv' r j c id) ->
  (forall j v, comb_is pv r j v -> comb_is pv' r j v) ->
  (forall j0 t b n, flight l pv r j0 t b n -> flight l' pv' r j0 t b n) ->
  (forall t b rs, results_ok d0 l r t b rs -> results_ok d0 l' r t b rs) ->
  home_ok nths d0 l pv r p -> home_ok nths d0 l' pv' r p.
Proof.
  intros Hp Hl Hc Hu Hcb Hf Hr.
  assert (Hco : forall j0 b n, collected pv r j0 b n -> collected pv' r j0 b n).
  { intros j0 b n [H1 H2]. split; [done|]. intros j m Hm. destruct (H2 j m Hm) as [?|(? & o & ? & Ho)]; [by left|].
    right. split; [done|]. exists o. split; [done|]. intros Hj. destruct (Ho Hj) as (c & ? & ?). exists c. auto. }
  assert (Hd : forall kk b n rs j u, delivering nths d0 l pv r kk b n rs j u -> delivering nths d0 l' pv' r kk b n rs j u).
  { unfold delivering. rewrite Hl, Hp. intros kk b n rs j u (? & ? & ? & t & ? & ? & ? & ?).
    split_and!; try done. exists t. auto. }
  unfold home_ok.
  destruct p; rewrite ?Hp, ?Hl; try done; try (destruct (home_lock _); by auto);
    try (destruct (zkont_lock _); by intuition); intros Hh; destruct_or?; destruct_and?;
    split_and?; eauto.
  - destruct select (exists _, _) as (b0 & b1 & ? & ? & ? & Ht). exists b0, b1. split_and!; auto. intros E.
    destruct (Ht E) as (cx & o & ? & ?). exists cx, o. auto.
  - destruct select (_ \/ _) as [(? & ? & ? & ?)|(t & ? & ? & ?)]; [by left; auto|right; exists t; auto].
  - destruct e; [auto| |]; destruct select (exists _, _) as (t & ? & ?); exists t; auto.
  - destruct select (exists _, _) as (t & ? & ?). exists t. auto.
  - destruct select (exists _, _) as (t & ? & ? & ?). exists t. auto.
  - destruct select (_ \/ _) as [(? & ? & ?)|(? & ?)]; [by left; auto|right; auto].
  - destruct select (exists _, _) as (c & id & v & ? & ?). exists c, id, v. auto.
Qed.

Section Ext.
Context (l l' : lsys) (q0 : nat) (e : list lop).
Hypothesis Hext : lp_ext q0 l l' e.

Lemma hist_ext : g_hist l' = g_hist l ++ map (fun o => (o, S q0)) e.
Proof. apply Hext. Qed.

Lemma ext_lookup q x : g_hist l !! q = Some x -> g_hist l' !! q = Some x.
Proof. intros H. rewrite hist_ext. by apply lookup_app_l_Some. Qed.

(** The new entries are those of [q0]. *)
Lemma ext_lookup_inv q w id r : g_hist l' !! q = Some ((w, id), r) ->
  g_hist l !! q = Some ((w, id), r) \/ r = S q0 /\ length (g_hist l) <= q /\ e !! (q - length (g_hist l)) = Some (w, id).
Proof.
  rewrite hist_ext, lookup_app_Some. intros [H|[Hq H]]; [by left|]. right.
  rewrite list_lookup_fmap in H. apply fmap_Some in H as (o & Ho & [= <- ->]). auto.
Qed.

Lemma ext_own q x r : r <> q0 -> g_hist l' !! q = Some (x, S r) -> g_hist l !! q = Some (x, S r).
Proof. intros Hr H. destruct x as [w id]. destruct (ext_lookup_inv q w id (S r) H) as [?|[? _]]; [done|lia]. Qed.

Lemma ext_ids id : id ∉ e.*2 -> id ∈ ids (g_hist l') -> id ∈ ids (g_hist l).
Proof. rewrite hist_ext, ids_app, ids_tagged, elem_of_app. intros H [?|?]; [done|]. by destruct H. Qed.

Lemma ext_reps r : r <> q0 -> done_of l' r = done_of l r /\ ltail_at l' r = ltail_at l r /\ lp_pc l' r = lp_pc l r.
Proof. intros Hr. unfold done_of, ltail_at, lp_pc. by rewrite (le_other _ _ _ _ Hext r Hr). Qed.

Lemma ext_ltail r : ltail_at l r <= ltail_at l' r.
Proof.
  destruct (decide (r = q0)) as [->|Hr]; [apply Hext|]. by destruct (ext_reps r Hr) as (_ & -> & _).
Qed.

Lemma answered_ext r id v : answered d0 l r id v -> answered d0 l' r id v.
Proof.
  intros (q & w & Hq & Hc & Hv). exists q, w. split_and!; [by apply ext_lookup| |].
  - pose proof (le_ctail _ _ _ _ Hext). lia.
  - rewrite hist_ext. by apply resp_at_app.
Qed.

Lemma pending_ext ops r c id : pending_ok d0 l ops r c id -> pending_ok d0 l' ops r c id.
Proof.
  intros (Ht & (w & x & Ho & Hx & Hw & Hi) & Hc). pose proof (le_ctail _ _ _ _ Hext) as Hle.
  split_and!; [done| |].
  - exists w, x. split_and!; try done. lia.
  - destruct Hc as [?|(? & v & ? & ?)]; [by left|]. right. split; [done|]. exists v. split; [done|]. by apply answered_ext.
Qed.

Lemma ctx_ok_ext ops r th : ctx_ok d0 l ops r th -> ctx_ok d0 l' ops r th.
Proof.
  intros [Hl H]. split; [done|]. pose proof (pending_ext ops r (t_ctx th) (t_id th)) as Hp.
  assert (Hw : (if waiting (t_pc th) then pending_ok d0 l ops r (t_ctx th) (t_id th) else quiet (t_ctx th)) ->
    if waiting (t_pc th) then pending_ok d0 l' ops r (t_ctx th) (t_id th) else quiet (t_ctx th)).
  { destruct (waiting (t_pc th)); [by apply Hp|done]. }
  destruct (t_pc th); try (by apply Hw); try (by auto).
  - destruct H. auto.
  - destruct H as (? & ? & v & ? & ?). split_and!; try done. exists v. split; [done|]. by apply answered_ext.
  - destruct H; auto.
Qed.

Lemma sample_ext r a p : sample_ok d0 l r a p -> sample_ok d0 l' r a p.
Proof.
  pose proof (le_ctail _ _ _ _ Hext) as Hle. pose proof (ext_ltail r) as Hlt.
  assert (Hk : forall (k : kont (RO := RO)), kont_sample l a k -> kont_sample l' a k) by (intros []; cbn; try done; lia).
  destruct p; cbn; auto; try lia.
  - intros [? ?]. auto.
  - intros [? ?]. auto.
  - intros [? ?]. split; [lia|]. rewrite hist_ext. by apply read_at_app.
  - intros [? ?]. split; [lia|]. rewrite hist_ext. by apply read_at_app.
Qed.

Lemma call_ok_ext ops r th :
  (forall w, t_pc th = WSlot w \/ t_pc th = WTail w -> t_id th ∉ e.*2) -> call_ok d0 l ops r th -> call_ok d0 l' ops r th.
Proof.
  intros Hf. unfold call_ok. destruct (pc_op (t_pc th)) as [o|]; [|done]. intros (x & Hx & Hr & Hi & Hs & Ho).
  pose proof (le_ctail _ _ _ _ Hext) as Hle. exists x. split_and!; try done; [lia|by apply sample_ext|].
  destruct o as [u|o]; [|done]. destruct Ho as (w & Hw & Ho). exists w. split; [done|].
  destruct (t_pc th) eqn:Ep; try done.
  - destruct Ho as [-> Ho]. split; [done|]. intros Hin. apply Ho, ext_ids; [|done]. apply (Hf w). by left.
  - destruct Ho as [-> Ho]. split; [done|]. intros Hin. apply Ho, ext_ids; [|done]. apply (Hf w). by right.
Qed.

(** Replicas other than the running one. *)
Context (pv : pview) (r : nat).
Hypothesis Hr : r <> q0.
Hypothesis Hfresh : forall i c id, unserved pv r i c id -> id ∉ e.*2.

Lemma clean_ext : clean l pv r -> clean l' pv r.
Proof.
  intros [H1 H2]. destruct (ext_reps r Hr) as (Hd & _ & _). split.
  - intros i c id Hu Hin. eapply H1; [done|]. eapply ext_ids; [by eapply Hfresh|done].
  - intros q x Hq. rewrite Hd. eapply H2. by eapply ext_own.
Qed.

Lemma flight_ext j0 t b n : flight l pv r j0 t b n -> flight l' pv r j0 t b n.
Proof.
  intros (Hc & Hb & Hu & Ho). destruct (ext_reps r Hr) as (Hd & _ & _). split_and!; [done| | |].
  - intros j o Hj. by apply ext_lookup, Hb.
  - intros i c id Hi Hin. eapply Hu; [done|]. eapply ext_ids; [by eapply Hfresh|done].
  - intros q x Hq. rewrite Hd. eapply Ho. by eapply ext_own.
Qed.

Lemma results_ext t b rs : results_ok d0 l r t b rs -> results_ok d0 l' r t b rs.
Proof.
  intros [H1 H2]. destruct (ext_reps r Hr) as (Hd & _ & _). split; [by rewrite Hd|].
  intros m v Hm. rewrite hist_ext. by apply resp_at_app, H2.
Qed.

Lemma home_ext p : home_ok nths d0 l pv r p -> home_ok nths d0 l' pv r p.
Proof.
  destruct (ext_reps r Hr) as (_ & Hl & Hp).
  apply home_mono; auto using clean_ext, flight_ext, results_ext.
Qed.
End Ext.

Lemma home_free l pv r p : home_lock p = false -> home_ok nths d0 l pv r p.
Proof. by destruct p; cbn; try done; intros ->. Qed.

Lemma th_ok_ext l l' q e pv ops k th : lp_ext q l l' e -> l' = l \/ ~ holds_lock k (t_pc th) q ->
  (forall r i c id, r <> q -> unserved pv r i c id -> id ∉ e.*2) ->
  (forall w, t_pc th = WSlot w \/ t_pc th = WTail w -> t_id th ∉ e.*2) ->
  th_ok nths d0 l pv ops k th -> th_ok nths d0 l' pv ops k th.
Proof.
  intros Hext [->|Hnh] Hf Hw [H1 H2 H3 H4 H5 H6 H7 H8]; [done|].
  assert (Hs : forall q', sync_lock (t_pc th) = Some q' -> q' <> q) by (intros q' E ->; apply Hnh; by right).
  split; [by eapply ctx_ok_ext|by eapply call_ok_ext| | | | |done|done].
  - destruct (home_lock (t_pc th)) eqn:Eh; [|by apply home_free].
    assert (Hr : k.1 <> q) by (intros <-; apply Hnh; by left).
    eapply home_ext; [done|done| |done]. intros i c id. by apply Hf.
  - intros q' E. specialize (Hs q' E). eapply clean_ext; [done|done| |by apply H4]. intros i c id. by apply Hf.
  - intros q' z E. destruct (ext_reps l l' q e Hext q') as (_ & _ & ->); [|by eapply H5]. apply Hs. by rewrite E.
  - intros q' z E. destruct (ext_reps l l' q e Hext q') as (_ & _ & ->); [|by eapply H6]. apply Hs. by rewrite E.
Qed.

(** ** Contexts change *)

(** Contexts of another replica. *)
Lemma clean_view_ne l pv pv' r : (forall j, pv' !! (r, j) = pv !! (r, j)) -> clean l pv r -> clean l pv' r.
Proof. intros Hv [H1 H2]. split; [|done]. intros i c id Hu. apply (H1 i c). unfold unserved in *. by rewrite Hv in Hu. Qed.

Lemma home_view_ne l pv pv' r p : (forall j, pv' !! (r, j) = pv !! (r, j)) ->
  home_ok nths d0 l pv r p -> home_ok nths d0 l pv' r p.
Proof.
  intros Hv. apply home_mono; try done.
  - by apply clean_view_ne.
  - intros j c id. unfold unserved. by rewrite Hv.
  - intros j v. unfold comb_is. by rewrite Hv.
  - intros j0 t b n. unfold flight, collected, unserved. by setoid_rewrite Hv.
Qed.

(** The operation waits for its response. *)
Definition waits (c : context) : Prop := ctx_comb c = ctx_head c /\ ctx_tail c = S (ctx_head c).

Lemma quiet_not_waits c : quiet c -> ~ waits c.
Proof. unfold quiet, waits. lia. Qed.

(** The owner changes its context, which has no operation waiting. *)
Section View.
Context (l : lsys) (pv : pview) (k0 : nat * nat) (c c' : context) (id id' : nat).
Hypothesis Hk : pv !! k0 = Some (c, id).
Hypothesis Hq : ~ waits c.
Hypothesis Hcomb : ctx_comb c' = ctx_comb c.
Hypothesis Hnew : waits c' -> id' ∉ ids (g_hist l).
Abbreviation pv' := (<[k0 := (c', id')]> pv).

Lemma view_unserved r j cx i : unserved pv r j cx i -> unserved pv' r j cx i.
Proof.
  intros (H1 & H2 & H3). split; [|done]. rewrite lookup_insert_ne; [done|]. intros ->.
  rewrite Hk in H1. injection H1 as -> ->. by apply Hq.
Qed.

Lemma view_unserved_inv r j cx i : unserved pv' r j cx i -> i ∈ ids (g_hist l) -> unserved pv r j cx i.
Proof.
  intros (H1 & H2 & H3) Hin. apply lookup_insert_Some in H1 as [[-> [= -> ->]]|[_ H1]]; [|done].
  by destruct Hnew.
Qed.

Lemma view_clean r : clean l pv r -> clean l pv' r.
Proof.
  intros [H1 H2]. split; [|done]. intros j cx i Hu Hin. eapply H1; [|done]. by apply view_unserved_inv.
Qed.

Lemma view_home r p : home_ok nths d0 l pv r p -> home_ok nths d0 l pv' r p.
Proof.
  apply home_mono; try done; [apply view_clean|apply view_unserved| |].
  - intros j v (cx & i & Hj & Hv). unfold comb_is. destruct (decide (k0 = (r, j))) as [->|Hne].
    + exists c', id'. rewrite lookup_insert_eq. split; [done|]. congruence.
    + exists cx, i. by rewrite lookup_insert_ne.
  - intros j0 t b n ([H1 H2] & H3 & H4 & H5). split_and!; [|done| |done].
    + split; [done|]. intros j m Hm. destruct (H2 j m Hm) as [?|(? & o & ? & Ho)]; [by left|]. right.
      split; [done|]. exists o. split; [done|]. intros Hj. destruct (Ho Hj) as (cx & ? & ?). exists cx.
      split; [by apply view_unserved|done].
    + intros i cx j Hu Hin. eapply H4; [|done]. by apply view_unserved_inv.
Qed.

Lemma th_ok_view ops k th : th_ok nths d0 l pv ops k th -> th_ok nths d0 l pv' ops k th.
Proof.
  intros [H1 H2 H3 H4 H5 H6 H7 H8]. split; try done; [by apply view_home|]. intros q E. by apply view_clean, H4.
Qed.
End View.

(** ** Locks *)

Lemma guards_holds k p r : guards k p r -> holds_lock k p r.
Proof.
  unfold guards, holds_lock. intros [[? H]|H]; [left|right].
  - split; [done|]. by destruct p.
  - by destruct p.
Qed.

(** Thread [k] goes from [p] to [p'] and changes the locks of replica [q]. *)
Lemma locks_upd (reps : gmap nat (rst (D := D))) (ths : gmap (nat * nat) thr) k th th' q y (y' : rst (D := D)) :
  locks_ok reps ths -> ths !! k = Some th -> reps !! q = Some y ->
  (forall r, holds_lock k (t_pc th') r -> holds_lock k (t_pc th) r \/ r = q /\ q_comb y = 0) ->
  (q_comb y' = 0 -> (q_comb y = 0 \/ holds_lock k (t_pc th) q) /\ ~ holds_lock k (t_pc th') q) ->
  (forall r, guards k (t_pc th') r -> (r <> q -> guards k (t_pc th) r) /\ (r = q -> q_wlock y' = true)) ->
  (q_wlock y = true -> q_wlock y' = true \/ holds_lock k (t_pc th) q) ->
  (reading (t_pc th') = true -> (k.1 <> q -> reading (t_pc th) = true) /\ (k.1 = q -> k.2 ∈ q_readers y')) ->
  (forall i, i ∈ q_readers y -> k <> (q, i) -> i ∈ q_readers y') ->
  (q_readers y' = ∅ \/ q_wlock y' = false) ->
  locks_ok (<[q := y']> reps) (<[k := th']> ths).
Proof.
  intros [F U G Rd E] Hk Hy C1 C2 C3 C4 C5 C6 C7. split.
  - intros r x k2 th2 Hx Hc Hk2.
    apply lookup_insert_Some in Hx as [[<- <-]|[Hne Hx]]; apply lookup_insert_Some in Hk2 as [[<- <-]|[Hne2 Hk2]].
    + by apply C2.
    + destruct (C2 Hc) as [[Hy0|Hh] _]; [by eapply F|]. intros Hh2. apply Hne2. by eapply U.
    + intros Hh. destruct (C1 r Hh) as [?|[-> _]]; [|done]. by eapply (F r x).
    + by eapply F.
  - intros r k1 k2 th1 th2 H1 H2 Hh1 Hh2.
    apply lookup_insert_Some in H1 as [[<- <-]|[Hne1 H1]]; apply lookup_insert_Some in H2 as [[<- <-]|[Hne2 H2]]; [done| | |by eapply U].
    + destruct (C1 r Hh1) as [?|[-> Hy0]]; [by eapply U|]. by destruct (F q y k2 th2 Hy Hy0 H2).
    + destruct (C1 r Hh2) as [?|[-> Hy0]]; [by eapply U|]. by destruct (F q y k1 th1 Hy Hy0 H1).
  - intros r x k2 th2 Hx Hk2 Hg.
    apply lookup_insert_Some in Hx as [[<- <-]|[Hne Hx]]; apply lookup_insert_Some in Hk2 as [[<- <-]|[Hne2 Hk2]].
    + by apply (C3 q).
    + destruct (C4 (G q y k2 th2 Hy Hk2 Hg)) as [?|Hh]; [done|]. destruct Hne2.
      eapply (U q); [done|done|done|by apply guards_holds].
    + eapply G; [done|done|]. by apply (C3 r).
    + by eapply G.
  - intros r x i th2 Hx Hk2 Hg.
    apply lookup_insert_Some in Hx as [[<- <-]|[Hne Hx]]; apply lookup_insert_Some in Hk2 as [[-> <-]|[Hne2 Hk2]].
    + by apply (C5 Hg).
    + apply C6; [by eapply Rd|done].
    + eapply Rd; [done|done|]. apply (C5 Hg). cbn. congruence.
    + by eapply Rd.
  - intros r x Hx. apply lookup_insert_Some in Hx as [[<- <-]|[Hne Hx]]; [done|by eapply E].
Qed.
End Frame.
