(* ===== verification/NrConcStep.v ===== *)
(** * Steps preserve the invariant: the general forms

    A thread moves on and changes locks, the log, or nothing else ([ninv_step]); it
    changes its own context ([ninv_ctx]); the lemmas about a reserved batch. *)

From stdpp Require Import gmap.
From S2P Require Import Prelude Context Log LogProtocol LogProtocolSpec Replica NrConc NrConcSpec.
From S2P Require Import NrConcLog NrConcFrame.

Section Step.
Context {D RO WO R : Type} `{!Dispatch D RO WO R}.
Variables (size : nat) (nths : nat -> nat) (d0 : D).
Hypothesis Hpow : is_pow2 size.
Hypothesis Hgc : GC_FROM_HEAD <= size.
Abbreviation lop := (WO * nat)%type.
Abbreviation context := (Context lop R unit).
Abbreviation lsys := (lpsys (O := lop)).
Abbreviation pc := (tpc (RO := RO) (WO := WO) (R := R)).
Abbreviation thr := (thr (RO := RO) (WO := WO) (R := R)).
Abbreviation nsys := (nsys (D := D) (RO := RO) (WO := WO) (R := R)).
Abbreviation hist := (list (lop * nat)).
Abbreviation pview := (gmap (nat * nat) (context * nat)).
Abbreviation ninv := (ninv size nths d0).
Implicit Types (l : lsys) (h : hist) (p : pc) (th : thr) (s : nsys) (pv : pview) (r i id q : nat) (k : nat * nat).

(** ** Views *)

Lemma view_lookup s k c id : view_of s !! k = Some (c, id) ->
  exists th, n_ths s !! k = Some th /\ t_ctx th = c /\ t_id th = id.
Proof. unfold view_of. rewrite lookup_fmap, fmap_Some. intros (th & H & [= -> ->]). eauto. Qed.

Lemma view_thread s k th : n_ths s !! k = Some th -> view_of s !! k = Some (t_ctx th, t_id th).
Proof. intros H. unfold view_of. by rewrite lookup_fmap, H. Qed.

Lemma unserved_live s r j c id : unserved (view_of s) r j c id ->
  exists th, n_ths s !! (r, j) = Some th /\ live th /\ t_ctx th = c /\ t_id th = id /\ ctx_tail c = S (ctx_head c).
Proof.
  clear Hpow Hgc size nths. intros (H & _ & Ht). apply view_lookup in H as (th & Hth & <- & <-). exists th. split_and!; try done.
  right. lia.
Qed.

(** A context with an operation is one of the waiting form. *)
Lemma ctx_pending l ops r th : ctx_ok d0 l ops r th -> ctx_tail (t_ctx th) = S (ctx_head (t_ctx th)) ->
  pending_ok d0 l ops r (t_ctx th) (t_id th).
Proof.
  clear Hpow Hgc size nths. intros [_ H] Ht. assert (Hn : ~ quiet (t_ctx th)) by (unfold quiet; lia).
  assert (Hw : (if waiting (t_pc th) then pending_ok d0 l ops r (t_ctx th) (t_id th) else quiet (t_ctx th)) ->
    pending_ok d0 l ops r (t_ctx th) (t_id th)) by (destruct (waiting (t_pc th)); auto; by intros ?).
  destruct (t_pc th); try (by apply Hw); naive_solver.
Qed.

(** ** A batch *)

Lemma sum_take_at (n : list nat) : (forall j m, n !! j = Some m -> m = 0 \/ m = 1) ->
  forall u, u < sum_list n -> exists j, n !! j = Some 1 /\ sum_list (take j n) = u.
Proof.
  clear Hpow Hgc size nths. induction n as [|m n IH]; cbn; [lia|]. intros H u Hu.
  assert (Hn : forall j m, n !! j = Some m -> m = 0 \/ m = 1) by (intros j; apply (H (S j))).
  destruct (H 0 m eq_refl) as [-> | ->].
  - destruct (IH Hn u Hu) as (j & Hj & Hs). by exists (S j).
  - destruct u as [|u]; [by exists 0|]. destruct (IH Hn u) as (j & Hj & Hs); [lia|]. exists (S j). cbn. auto.
Qed.

Lemma collected_at pv q (b : list lop) n u o : collected pv q 0 b n -> b !! u = Some o ->
  exists j c, n !! j = Some 1 /\ sum_list (take j n) = u /\ unserved pv q j c o.2 /\ ctx_op c (ctx_head c) = Some o.
Proof.
  clear Hpow Hgc size nths. intros [Hl H] Hu. apply lookup_lt_Some in Hu as Hlt. rewrite Hl in Hlt.
  destruct (sum_take_at n) with (u := u) as (j & Hj & Hs); [|done|].
  { intros j m Hj. destruct (H j m Hj) as [?|[? _]]; auto. }
  destruct (H j 1 Hj) as [?|(_ & o' & Ho & Hc)]; [done|]. rewrite Hs, Hu in Ho. injection Ho as <-.
  destruct (Hc (Nat.le_0_l _)) as (c & ? & ?). exists j, c. auto.
Qed.

Section Batch.
Context (s : nsys) (q : nat) (e : list lop).
Hypothesis Hinv : ninv s.
Hypothesis Hb : e = [] \/ clean (n_lp s) (view_of s) q /\ exists n, collected (view_of s) q 0 e n.

(** The thread whose operation is in the batch. *)
Lemma batch_thread u w id : e !! u = Some (w, id) -> exists j th, n_ths s !! (q, j) = Some th /\ live th
  /\ t_id th = id /\ ctx_tail (t_ctx th) = S (ctx_head (t_ctx th)) /\ ctx_op (t_ctx th) (ctx_head (t_ctx th)) = Some (w, id)
  /\ id ∉ ids (g_hist (n_lp s)).
Proof.
  intros Hu. destruct Hb as [->|[[Hc _] (n & Hn)]]; [done|].
  destruct (collected_at _ _ _ _ _ _ Hn Hu) as (j & c & _ & _ & Hun & Ho). specialize (Hc j c id Hun).
  destruct (unserved_live s q j c id Hun) as (th & Hth & Hlive & <- & <- & Ht). exists j, th. auto 10.
Qed.

Lemma batch_elem id : id ∈ e.*2 -> exists j th, n_ths s !! (q, j) = Some th /\ live th
  /\ t_id th = id /\ ctx_tail (t_ctx th) = S (ctx_head (t_ctx th)) /\ id ∉ ids (g_hist (n_lp s)).
Proof.
  rewrite list_elem_of_fmap. intros ([w id'] & -> & [u Hu]%list_elem_of_lookup).
  destruct (batch_thread u w id' Hu) as (j & th & ? & ? & ? & ? & ? & ?). eauto 10.
Qed.

Lemma batch_other r i c id : r <> q -> unserved (view_of s) r i c id -> id ∉ e.*2.
Proof.
  intros Hr Hu Hin. destruct (batch_elem id Hin) as (j & th & Hth & Hl & Hid & _).
  destruct (unserved_live s r i c id Hu) as (th' & Hth' & Hl' & _ & Hid' & _).
  destruct Hr. assert ((r, i) = (q, j)); [|congruence]. eapply (ni_ids _ _ _ _ Hinv); eauto. congruence.
Qed.

Lemma batch_fresh k th w : n_ths s !! k = Some th -> t_pc th = WSlot w \/ t_pc th = WTail w -> t_id th ∉ e.*2.
Proof.
  intros Hk Hp Hin. destruct (batch_elem _ Hin) as (j & th' & Hth' & Hl & Hid & Ht & _).
  assert (Hlk : live th) by (left; by destruct Hp as [-> | ->]).
  assert (k = (q, j)) as -> by (eapply (ni_ids _ _ _ _ Hinv); eauto; congruence).
  assert (th' = th) as -> by congruence. destruct (to_ctx _ _ _ _ _ _ _ (ni_th _ _ _ _ Hinv _ _ Hk)) as [_ Hc].
  destruct Hp as [E|E]; rewrite E in Hc; cbn in Hc; unfold quiet in Hc; lia.
Qed.

Lemma batch_nodup : NoDup (ids (g_hist (n_lp s)) ++ e.*2).
Proof.
  apply list.NoDup_app. split_and!; [apply Hinv| |].
  - intros id Hid Hin. by destruct (batch_elem id Hin) as (? & ? & ? & ? & ? & ? & ?).
  - destruct Hb as [->|[_ (n & Hn)]]; [constructor|]. apply list.NoDup_alt. intros u1 u2 id H1 H2.
    rewrite list_lookup_fmap, fmap_Some in H1, H2. destruct H1 as (o1 & H1 & E1), H2 as (o2 & H2 & E2).
    destruct (collected_at _ _ _ _ _ _ Hn H1) as (j1 & c1 & _ & <- & Hu1 & _).
    destruct (collected_at _ _ _ _ _ _ Hn H2) as (j2 & c2 & _ & <- & Hu2 & _).
    destruct (unserved_live _ _ _ _ _ Hu1) as (th1 & Ht1 & Hl1 & _ & Hi1 & _).
    destruct (unserved_live _ _ _ _ _ Hu2) as (th2 & Ht2 & Hl2 & _ & Hi2 & _).
    assert ((q, j1) = (q, j2)) as [= ->]; [|done]. eapply (ni_ids _ _ _ _ Hinv); eauto. congruence.
Qed.

Lemma ret_ok_ext l' id x : lp_ext q (n_lp s) l' e -> ret_ok d0 (n_lp s) id x -> ret_ok d0 l' id x.
Proof.
  intros Hext H v p m Hx. destruct (H v p m Hx) as [Hi Ho]. split; [done|].
  pose proof (le_ctail _ _ _ _ Hext) as Hle. pose proof (hist_ext _ _ _ _ Hext) as Hh.
  destruct (o_op x) as [w|o].
  - destruct Ho as (? & ? & q' & ?). split_and!; [lia|rewrite Hh; by apply resp_at_app|].
    exists q'. by eapply ext_lookup.
  - destruct Ho. split; [lia|]. rewrite Hh. by apply read_at_app.
Qed.

Lemma calls_ext l' : lp_ext q (n_lp s) l' e -> calls_ok d0 l' (n_ops s).
Proof.
  intros Hext. pose proof (ni_calls _ _ _ _ Hinv) as [H1 H2 H3 H4 H5 H6]. pose proof (le_ctail _ _ _ _ Hext) as Hle. split.
  - rewrite (hist_ext _ _ _ _ Hext), ids_app, ids_tagged. apply batch_nodup.
  - intros u w id r Hu. destruct (ext_lookup_inv _ _ _ _ Hext _ _ _ _ Hu) as [?|(-> & Hlen & He)]; [by eapply H2|].
    destruct (batch_thread _ _ _ He) as (j & th & Hth & _ & <- & Ht & Ho & _).
    pose proof (to_ctx _ _ _ _ _ _ _ (ni_th _ _ _ _ Hinv _ _ Hth)) as Hc.
    destruct (ctx_pending _ _ _ _ Hc Ht) as (_ & (w' & x & Ho' & Hx & Hop & Hi) & _).
    exists x. split_and!; [done|congruence|]. pose proof (ni_lp _ _ _ _ Hinv) as Hlp.
    pose proof (li_order _ _ Hlp). pose proof (li_tail _ _ Hlp). lia.
  - intros id x Hx. eapply ret_ok_ext; [done|by apply H3].
  - done.
  - intros id x Hx. specialize (H5 id x Hx). lia.
  - done.
Qed.
End Batch.

(** ** Steps that change no context *)

Lemma view_insert s k th p : n_ths s !! k = Some th ->
  th_view <$> <[k := mkT p (t_ctx th) (t_id th)]> (n_ths s) = view_of s.
Proof.
  intros Hk. rewrite fmap_insert. apply insert_id. unfold view_of. by rewrite lookup_fmap, Hk.
Qed.

Lemma dom_insert_iff {V} (m : gmap nat V) (P : nat -> Prop) q y y' : m !! q = Some y ->
  (forall r, is_Some (m !! r) <-> P r) -> forall r, is_Some (<[q := y']> m !! r) <-> P r.
Proof.
  intros Hq H r. rewrite <- H. destruct (decide (q = r)) as [<-|Hne].
  - rewrite lookup_insert_eq. split; intros _; eauto.
  - by rewrite lookup_insert_ne.
Qed.

Lemma ths_insert_iff s k th th' r i : n_ths s !! k = Some th ->
  is_Some (<[k := th']> (n_ths s) !! (r, i)) <-> is_Some (n_ths s !! (r, i)).
Proof.
  intros Hk. destruct (decide (k = (r, i))) as [->|Hne].
  - rewrite lookup_insert_eq. split; intros _; eauto.
  - by rewrite lookup_insert_ne.
Qed.

(** The data of the replicas that do not run. *)
Lemma data_ext s l' q e r x : ninv s -> lp_ext q (n_lp s) l' e -> n_reps s !! r = Some x -> r <> q ->
  hist_run d0 (take (done_of l' r) (g_hist l')) = Ret (q_data x).
Proof.
  intros Hinv Hext Hr Hne. destruct (ext_reps _ _ _ _ Hext r Hne) as (-> & _ & _).
  rewrite (hist_ext _ _ _ _ Hext), take_app_le; [by eapply ni_data|].
  unfold done_of. pose proof (ni_lp _ _ _ _ Hinv) as Hlp.
  destruct (g_reps (n_lp s) !! r) as [p|] eqn:Hp; [|lia]. pose proof (done_upto_le size Hgc _ _ _ Hlp Hp).
  pose proof (li_order _ _ Hlp). pose proof (li_tail _ _ Hlp). lia.
Qed.

Lemma ctail_ext s l' q e : ninv s -> lp_ext q (n_lp s) l' e -> is_Some (n_reps s !! q) ->
  exists d, hist_run d0 (take (g_ctail l') (g_hist l')) = Ret d.
Proof.
  intros Hinv Hext [x Hx]. pose proof (ni_lp _ _ _ _ Hinv) as Hlp.
  pose proof (li_order _ _ Hlp). pose proof (li_tail _ _ Hlp). rewrite (hist_ext _ _ _ _ Hext).
  destruct (le_ctail_cases _ _ _ _ Hext) as [-> | ->].
  - rewrite take_app_le by lia. by apply Hinv.
  - rewrite take_app_le; [exists (q_data x); by eapply ni_data|]. unfold done_of.
    destruct (g_reps (n_lp s) !! q) as [p|] eqn:Hp; [|lia]. pose proof (done_upto_le size Hgc _ _ _ Hlp Hp). lia.
Qed.

(** Calls have different numbers. *)
Definition ids_ok (ths : gmap (nat * nat) thr) : Prop :=
  forall k k' th th', ths !! k = Some th -> ths !! k' = Some th' -> live th -> live th' -> t_id th = t_id th' -> k = k'.

Lemma ids_insert (ths : gmap (nat * nat) thr) k th th' : ids_ok ths -> ths !! k = Some th -> t_id th' = t_id th ->
  (live th' -> live th) -> ids_ok (<[k := th']> ths).
Proof.
  intros U Hk Hid Hl k1 k2 th1 th2 H1 H2 L1 L2 E.
  apply lookup_insert_Some in H1 as [[<- <-]|[_ H1]]; apply lookup_insert_Some in H2 as [[<- <-]|[_ H2]]; [done| | |by eapply U].
  - eapply (U k k2); eauto. congruence.
  - eapply (U k1 k); eauto. congruence.
Qed.

Lemma ninv_step s k th p' q y y' l' e :
  ninv s -> n_ths s !! k = Some th -> n_reps s !! q = Some y ->
  lp_inv size l' -> lp_ext q (n_lp s) l' e -> (l' = n_lp s \/ holds_lock k (t_pc th) q) ->
  (e = [] \/ clean (n_lp s) (view_of s) q /\ exists n, collected (view_of s) q 0 e n) ->
  locks_ok (<[q := y']> (n_reps s)) (<[k := mkT p' (t_ctx th) (t_id th)]> (n_ths s)) ->
  hist_run d0 (take (done_of l' q) (g_hist l')) = Ret (q_data y') ->
  (q_wlock y' = false -> lp_pc l' q = PIdle) ->
  (q_comb y' = 0 -> clean l' (view_of s) q) ->
  (pc_op p' <> None -> pc_op (t_pc th) <> None) ->
  th_ok nths d0 l' (view_of s) (n_ops s) k (mkT p' (t_ctx th) (t_id th)) ->
  ninv (mkN l' (<[q := y']> (n_reps s)) (<[k := mkT p' (t_ctx th) (t_id th)]> (n_ths s)) (n_ops s)).
Proof.
  intros Hinv Hk Hy Hlp Hext Hrun Hb Hlocks Hdata Hidle Hclean Hop Hth.
  pose proof (le_length _ _ _ _ Hext) as Hlen. pose proof (batch_other s q e Hinv Hb) as Hother.
  assert (Hv : view_of (mkN l' (<[q := y']> (n_reps s)) (<[k := mkT p' (t_ctx th) (t_id th)]> (n_ths s)) (n_ops s)) = view_of s)
    by (by apply view_insert).
  split; rewrite ?Hv; cbn [n_lp n_reps n_ths n_ops]; try done.
  - rewrite Hlen. eapply dom_insert_iff; [done|]. apply Hinv.
  - intros r i. rewrite Hlen, ths_insert_iff by done. apply Hinv.
  - intros r x [[<- <-]|[Hne Hx]]%lookup_insert_Some; [done|]. eapply data_ext; eauto.
  - eapply ctail_ext; eauto.
  - intros r x [[<- <-]|[Hne Hx]]%lookup_insert_Some; [done|]. intros Hw.
    destruct (ext_reps _ _ _ _ Hext r) as (_ & _ & ->); [done|]. by eapply ni_idle.
  - intros r x [[<- <-]|[Hne Hx]]%lookup_insert_Some Hc; [by apply Hclean|].
    eapply clean_ext; [done|done| |by eapply ni_clean]. intros i c id. by apply Hother.
  - apply (ids_insert (n_ths s) k th); try done; [exact (ni_ids _ _ _ _ Hinv)|]. unfold live. cbn. naive_solver.
  - by eapply calls_ext.
  - intros k2 th2 [[<- <-]|[Hne Hk2]]%lookup_insert_Some; [done|].
    eapply th_ok_ext; [done| |done| |by eapply ni_th].
    + destruct Hrun as [?|Hh]; [by left|]. right. intros Hh2. apply Hne.
      by eapply (lo_uniq _ _ (ni_locks _ _ _ _ Hinv)).
    + intros w. by eapply batch_fresh.
Qed.

Lemma thread_replica s r i th : ninv s -> n_ths s !! (r, i) = Some th -> is_Some (n_reps s !! r).
Proof. intros Hinv Hk. apply (ni_reps _ _ _ _ Hinv). apply (ni_ths _ _ _ _ Hinv r i). eauto. Qed.

(** The locks, if replica [q] goes from [y] to [y'] and keeps its data. *)
Lemma ninv_rep s k th p' q y y' :
  ninv s -> n_ths s !! k = Some th -> n_reps s !! q = Some y -> q_data y' = q_data y ->
  locks_ok (<[q := y']> (n_reps s)) (<[k := mkT p' (t_ctx th) (t_id th)]> (n_ths s)) ->
  (q_wlock y' = false -> lp_pc (n_lp s) q = PIdle) ->
  (q_comb y' = 0 -> clean (n_lp s) (view_of s) q) ->
  (pc_op p' <> None -> pc_op (t_pc th) <> None) ->
  th_ok nths d0 (n_lp s) (view_of s) (n_ops s) k (mkT p' (t_ctx th) (t_id th)) ->
  ninv (mkN (n_lp s) (<[q := y']> (n_reps s)) (<[k := mkT p' (t_ctx th) (t_id th)]> (n_ths s)) (n_ops s)).
Proof.
  intros Hinv Hk Hy Hd Hlocks Hidle Hclean Hop Hth.
  eapply (ninv_step s k th p' q y y' (n_lp s) []); try done; auto; [apply Hinv|apply ext_refl|].
  rewrite Hd. by eapply ni_data.
Qed.

Lemma locks_goto (reps : gmap nat (rst (D := D))) (ths : gmap (nat * nat) thr) k th th' :
  locks_ok reps ths -> ths !! k = Some th -> is_Some (reps !! k.1) ->
  (forall q, holds_lock k (t_pc th') q -> holds_lock k (t_pc th) q) ->
  (forall q, guards k (t_pc th') q -> guards k (t_pc th) q) ->
  (reading (t_pc th') = true -> reading (t_pc th) = true) ->
  locks_ok reps (<[k := th']> ths).
Proof.
  intros Hlo Hk [y Hy] Hh Hg Hr. rewrite <- (insert_id reps k.1 y Hy).
  eapply (locks_upd _ _ k th _ k.1 y y); try done.
  - intros q Hq. left. auto.
  - intros Hc. split; [by left|]. intros Hq. by apply (lo_free _ _ Hlo k.1 y k th Hy Hc Hk), Hh.
  - intros q Hq. split; [by auto|]. intros ->. by eapply (lo_guard _ _ Hlo k.1 y k th); eauto.
  - auto.
  - intros Hrd. split; [by auto|]. intros _. eapply (lo_readers _ _ Hlo k.1 y k.2 th); eauto; by destruct k.
  - by eapply lo_excl.
Qed.

Lemma ninv_goto s r i th p' :
  ninv s -> n_ths s !! (r, i) = Some th ->
  (forall q, holds_lock (r, i) p' q -> holds_lock (r, i) (t_pc th) q) ->
  (forall q, guards (r, i) p' q -> guards (r, i) (t_pc th) q) ->
  (reading p' = true -> reading (t_pc th) = true) ->
  (pc_op p' <> None -> pc_op (t_pc th) <> None) ->
  th_ok nths d0 (n_lp s) (view_of s) (n_ops s) (r, i) (mkT p' (t_ctx th) (t_id th)) ->
  ninv (goto s r i th p').
Proof.
  intros Hinv Hk Hh Hg Hr Hop Hth. destruct (thread_replica s r i th Hinv Hk) as [y Hy].
  unfold goto, set_thread. rewrite <- (insert_id (n_reps s) r y Hy).
  eapply ninv_rep; try done; [|by eapply ni_idle|by eapply ni_clean]. rewrite (insert_id (n_reps s) r y Hy).
  apply (locks_goto _ _ (r, i) th); try done. apply Hinv.
Qed.

(** ** Steps that change the context of the thread *)

Lemma ninv_view s k th p' c' id' ops' :
  ninv s -> n_ths s !! k = Some th -> ~ waits (t_ctx th) -> ctx_comb c' = ctx_comb (t_ctx th) ->
  (waits c' -> id' ∉ ids (g_hist (n_lp s))) ->
  (forall q, holds_lock k p' q -> holds_lock k (t_pc th) q) ->
  (forall q, guards k p' q -> guards k (t_pc th) q) ->
  (reading p' = true -> reading (t_pc th) = true) ->
  (forall k1 k2 th1 th2, <[k := mkT p' c' id']> (n_ths s) !! k1 = Some th1 -> <[k := mkT p' c' id']> (n_ths s) !! k2 = Some th2 ->
    live th1 -> live th2 -> t_id th1 = t_id th2 -> k1 = k2) ->
  calls_ok d0 (n_lp s) ops' ->
  (forall k2 th2, k2 <> k -> n_ths s !! k2 = Some th2 -> th_ok nths d0 (n_lp s) (view_of s) ops' k2 th2) ->
  th_ok nths d0 (n_lp s) (<[k := (c', id')]> (view_of s)) ops' k (mkT p' c' id') ->
  ninv (mkN (n_lp s) (n_reps s) (<[k := mkT p' c' id']> (n_ths s)) ops').
Proof.
  intros Hinv Hk Hq Hc Hnew Hh Hg Hr Hids Hcalls Hoth Hth. pose proof (view_thread s k th Hk) as Hv.
  assert (E : view_of (mkN (n_lp s) (n_reps s) (<[k := mkT p' c' id']> (n_ths s)) ops') = <[k := (c', id')]> (view_of s))
    by (unfold view_of; cbn; by rewrite fmap_insert).
  split; rewrite ?E; cbn [n_lp n_reps n_ths n_ops]; try (by apply Hinv); try done.
  - intros r i. rewrite ths_insert_iff by done. apply Hinv.
  - intros r x Hx H0. eapply view_clean; [done..|]. by eapply ni_clean.
  - apply (locks_goto _ _ k th); try done; [apply Hinv|]. destruct k as [r i]. by eapply thread_replica.
  - intros k2 th2 [[<- <-]|[Hne Hk2]]%lookup_insert_Some; [done|]. eapply th_ok_view; [done..|]. by apply Hoth.
Qed.

Lemma ninv_ctx s k th p' c' :
  ninv s -> n_ths s !! k = Some th -> ~ waits (t_ctx th) -> ctx_comb c' = ctx_comb (t_ctx th) ->
  (waits c' -> t_id th ∉ ids (g_hist (n_lp s))) ->
  (forall q, holds_lock k p' q -> holds_lock k (t_pc th) q) ->
  (forall q, guards k p' q -> guards k (t_pc th) q) ->
  (reading p' = true -> reading (t_pc th) = true) -> pc_op (t_pc th) <> None ->
  th_ok nths d0 (n_lp s) (<[k := (c', t_id th)]> (view_of s)) (n_ops s) k (mkT p' c' (t_id th)) ->
  ninv (set_thread s k (mkT p' c' (t_id th))).
Proof.
  intros Hinv Hk Hq Hc Hnew Hh Hg Hr Hop Hth. apply (ninv_view s k th); try done; [|apply Hinv|].
  - apply (ids_insert (n_ths s) k th); try done; [exact (ni_ids _ _ _ _ Hinv)|]. intros _. by left.
  - intros k2 th2 _ Hk2. by eapply ni_th.
Qed.

(** ** Calls begin and return *)

Lemma pending_live l ops r th : pending_ok d0 l ops r (t_ctx th) (t_id th) -> live th.
Proof. clear Hpow Hgc size nths. intros (Ht & _). right. lia. Qed.

Lemma live_call s k th : ninv s -> n_ths s !! k = Some th -> live th ->
  exists x, n_ops s !! t_id th = Some x.
Proof.
  intros Hinv Hk [Hl|Hl].
  - pose proof (to_call _ _ _ _ _ _ _ (ni_th _ _ _ _ Hinv k th Hk)) as H. unfold call_ok in H.
    destruct (pc_op (t_pc th)); [|done]. destruct H as (x & Hx & _). by exists x.
  - pose proof (to_ctx _ _ _ _ _ _ _ (ni_th _ _ _ _ Hinv k th Hk)) as Hc.
    assert (Hn : ~ quiet (t_ctx th)) by (unfold quiet; lia).
    assert (Hp : pending_ok d0 (n_lp s) (n_ops s) k.1 (t_ctx th) (t_id th)).
    { destruct Hc as [_ H]. destruct (t_pc th); cbn in H; repeat case_match; naive_solver. }
    destruct Hp as (_ & (w & x & _ & Hx & _) & _). by exists x.
Qed.

(** The record of the calls changes elsewhere. *)
Lemma th_ok_ops l pv ops ops' k th : (live th -> forall x, ops !! t_id th = Some x -> ops' !! t_id th = Some x) ->
  th_ok nths d0 l pv ops k th -> th_ok nths d0 l pv ops' k th.
Proof.
  intros Ho [H1 H2 H3 H4 H5 H6 H7 H8]. split; try done.
  - assert (Hp : pending_ok d0 l ops k.1 (t_ctx th) (t_id th) -> pending_ok d0 l ops' k.1 (t_ctx th) (t_id th)).
    { intros Hp. pose proof (pending_live _ _ _ _ Hp) as Hl. destruct Hp as (? & (w & x & ? & ? & ?) & ?).
      split_and!; try done. exists w, x. auto. }
    destruct H1 as [Hb H1]. split; [done|]. destruct (t_pc th); cbn in *; repeat case_match; naive_solver.
  - unfold call_ok in *. destruct (pc_op (t_pc th)) eqn:E; [|done]. destruct H2 as (x & Hx & ?). exists x.
    split; [|done]. apply Ho; [|done]. left. by rewrite E.
Qed.

Lemma calls_begin s (o : WO + RO) : ninv s -> calls_ok d0 (n_lp s) (n_ops s ++ [mkOp o (g_ctail (n_lp s)) None]).
Proof.
  intros Hinv. pose proof (ni_calls _ _ _ _ Hinv) as [H1 H2 H3 H4 H5 H6]. split; [done| | | | |].
  - intros q w id r Hq. destruct (H2 _ _ _ _ Hq) as (x & Hx & ?). exists x. split; [by apply lookup_app_l_Some|done].
  - intros id x [Hx|[_ Hx]]%lookup_app_Some; [by apply H3|]. apply list_lookup_singleton_Some in Hx as [_ <-].
    by intros v p m.
  - intros a b x y v p m Ha Hb Hx Hm.
    apply lookup_app_Some in Ha as [Ha|[_ Ha]]; [|apply list_lookup_singleton_Some in Ha as [_ <-]; done].
    apply lookup_app_Some in Hb as [Hb|[_ Hb]]; [by eapply H4|]. apply list_lookup_singleton_Some in Hb as [_ <-].
    destruct (H3 a x Ha v p m Hx) as [_ Ho]. cbn. destruct (o_op x); lia.
  - intros id x [Hx|[_ Hx]]%lookup_app_Some; [by eapply H5|]. apply list_lookup_singleton_Some in Hx as [_ <-]. done.
  - intros id x v p m [Hx|[_ Hx]]%lookup_app_Some; [by eapply H6|]. apply list_lookup_singleton_Some in Hx as [_ <-]. done.
Qed.

Lemma ninv_begin s k th o p' :
  ninv s -> n_ths s !! k = Some th -> t_pc th = TIdle ->
  match o with inl w => p' = WSlot w | inr a => p' = RSample a end -> ninv (begins s k th o p').
Proof.
  intros Hinv Hk Ep Ho. pose proof (ni_calls _ _ _ _ Hinv) as Hcalls. pose proof (ni_th _ _ _ _ Hinv k th Hk) as Hth.
  assert (Hq : quiet (t_ctx th)) by (destruct (to_ctx _ _ _ _ _ _ _ Hth) as [_ H]; by rewrite Ep in H).
  assert (Hlen : length (batch (t_ctx th)) = MAX_PENDING_OPS) by apply Hth.
  assert (Hfresh : length (n_ops s) ∉ ids (g_hist (n_lp s))).
  { rewrite elem_ids. intros (q & w & r & H). destruct (co_hist _ _ _ Hcalls _ _ _ _ H) as (x & Hx & _).
    apply lookup_lt_Some in Hx. lia. }
  assert (Hmono : forall id x, n_ops s !! id = Some x -> (n_ops s ++ [mkOp o (g_ctail (n_lp s)) None]) !! id = Some x)
    by (intros; by apply lookup_app_l_Some).
  apply (ninv_view s k th); try done.
  - by apply quiet_not_waits.
  - intros q. destruct o; subst p'; by intros [[_ ?]|?].
  - intros q. destruct o; subst p'; by intros [[_ ?]|?].
  - destruct o; by subst p'.
  - intros k1 k2 th1 th2 H1 H2 L1 L2 E.
    assert (Hlt : forall k' th', n_ths s !! k' = Some th' -> live th' -> t_id th' <> length (n_ops s)).
    { intros k' th' Hk' L. destruct (live_call s k' th' Hinv Hk' L) as [x Hx%lookup_lt_Some]. lia. }
    apply lookup_insert_Some in H1 as [[<- <-]|[_ H1]]; apply lookup_insert_Some in H2 as [[<- <-]|[_ H2]]; [done| | |].
    + by destruct (Hlt k2 th2).
    + by destruct (Hlt k1 th1).
    + by eapply (ni_ids _ _ _ _ Hinv).
  - by apply calls_begin.
  - intros k2 th2 _ Hk2. apply th_ok_ops with (n_ops s); [auto|by eapply ni_th].
  - assert (Hx : (n_ops s ++ [mkOp o (g_ctail (n_lp s)) None]) !! length (n_ops s) = Some (mkOp o (g_ctail (n_lp s)) None))
      by (rewrite lookup_app_r, Nat.sub_diag by lia; done).
    destruct o as [w|a]; subst p'; (split; [by split|eexists; split_and!; [done|done|done|done|]| | | | | |]; try done).
    exists w. by split_and!.
Qed.

(** The record of a call that returns. *)
Definition ret_record (v : R) (q m : nat) (x : ocall (RO := RO) (WO := WO) (R := R)) := mkOp (o_op x) (o_inv x) (Some (v, q, m)).

Lemma ret_lookup_inv (ops : list ocall) f id0 id (x' : ocall (RO := RO) (WO := WO) (R := R)) : alter f id0 ops !! id = Some x' ->
  id = id0 /\ (exists x, ops !! id0 = Some x /\ x' = f x) \/ id <> id0 /\ ops !! id = Some x'.
Proof.
  intros H. destruct (decide (id = id0)) as [->|Hne].
  - rewrite list_lookup_alter_eq in H. apply fmap_Some in H as (x & Hx & ->). left. eauto.
  - rewrite list_lookup_alter_ne in H by done. by right.
Qed.

Lemma calls_return s id0 x0 v q : ninv s -> n_ops s !! id0 = Some x0 -> o_ret x0 = None ->
  ret_ok d0 (n_lp s) id0 (ret_record v q (length (n_ops s)) x0) ->
  calls_ok d0 (n_lp s) (alter (ret_record v q (length (n_ops s))) id0 (n_ops s)).
Proof.
  intros Hinv Hx0 Hn Hok. pose proof (ni_calls _ _ _ _ Hinv) as [H1 H2 H3 H4 H5 H6].
  assert (Hinvl : forall id x', alter (ret_record v q (length (n_ops s))) id0 (n_ops s) !! id = Some x' ->
    exists x, n_ops s !! id = Some x /\ o_op x' = o_op x /\ o_inv x' = o_inv x
      /\ (x' = x \/ id = id0 /\ x' = ret_record v q (length (n_ops s)) x)).
  { intros id x' [(-> & x & ? & ->)|(? & ?)]%ret_lookup_inv; [exists x; auto 10|exists x'; auto 10]. }
  split; [done| | | | |].
  - intros q' w id r Hq. destruct (H2 _ _ _ _ Hq) as (x & Hx & Hw & Hi).
    destruct (decide (id = id0)) as [->|Hne].
    + rewrite list_lookup_alter_eq, Hx. by eexists.
    + rewrite list_lookup_alter_ne by done. by exists x.
  - intros id x' Hx'. destruct (Hinvl id x' Hx') as (x & Hx & _ & _ & [->|[-> ->]]); [by apply H3|].
    by assert (x = x0) as -> by congruence.
  - intros a b x' y' v' p' m' Ha Hb Hr Hm.
    destruct (Hinvl a x' Ha) as (x & Hx & Ho & _ & Hcase). destruct (Hinvl b y' Hb) as (y & Hy & _ & Hi & _).
    rewrite Ho, Hi. apply lookup_lt_Some in Hy as Hlt. destruct Hcase as [->|[-> ->]]; [by eapply H4|].
    injection Hr as _ _ <-. lia.
  - intros id x' Hx'. destruct (Hinvl id x' Hx') as (x & Hx & _ & -> & _). by eapply H5.
  - intros id x' v' p' m' Hx' Hr. destruct (Hinvl id x' Hx') as (x & Hx & _ & _ & [->|[-> ->]]); [by eapply H6|].
    injection Hr as _ _ <-. by eapply lookup_lt_Some.
Qed.

(** No other thread has the number of the call of [k]. *)
Lemma return_ids s k th th' : ninv s -> n_ths s !! k = Some th -> pc_op (t_pc th) <> None -> ~ live th' ->
  forall k2 th2, <[k := th']> (n_ths s) !! k2 = Some th2 -> live th2 -> t_id th2 <> t_id th.
Proof.
  intros Hinv Hk Hop Hn k2 th2 [[<- <-]|[Hne H2]]%lookup_insert_Some Hl; [done|]. intros E. apply Hne. symmetry.
  eapply (ni_ids _ _ _ _ Hinv); eauto. by left.
Qed.

(** Thread [k] is idle after the call [id0]. *)
Lemma ninv_return s id0 x0 v q : ninv s -> n_ops s !! id0 = Some x0 -> o_ret x0 = None ->
  (forall k th, n_ths s !! k = Some th -> live th -> t_id th <> id0) ->
  ret_ok d0 (n_lp s) id0 (ret_record v q (length (n_ops s)) x0) ->
  ninv (mkN (n_lp s) (n_reps s) (n_ths s) (alter (ret_record v q (length (n_ops s))) id0 (n_ops s))).
Proof.
  intros Hinv Hx0 Hn Hid Hok. pose proof (calls_return s id0 x0 v q Hinv Hx0 Hn Hok) as Hcalls.
  destruct Hinv as [I1 I2 I3 I4 I5 I6 I7 I8 I9 I10 I11]. split; try done.
  intros k th Hk. apply th_ok_ops with (n_ops s); [|by apply I11].
  intros Hl x Hx. cbn. rewrite list_lookup_alter_ne; [done|]. intros E. by eapply Hid.
Qed.

(** ** Program points without special claims on the context *)

Definition plain p : bool :=
  match p with TPanic _ | WSlot _ | WTail _ | GHead _ _ | GTake _ _ _ => false | _ => true end.

Lemma ctx_plain l ops r th : plain (t_pc th) = true -> ctx_ok d0 l ops r th <->
  length (batch (t_ctx th)) = MAX_PENDING_OPS /\
  (if waiting (t_pc th) then pending_ok d0 l ops r (t_ctx th) (t_id th) else quiet (t_ctx th)).
Proof. unfold ctx_ok. by destruct (t_pc th). Qed.

(** The thread itself, in a step that may run the log of replica [q]. *)
Lemma th_plain l l' q e pv0 pv ops k th p' : lp_ext q l l' e -> th_ok nths d0 l pv0 ops k th ->
  plain (t_pc th) = true -> plain p' = true -> waiting p' = waiting (t_pc th) -> pc_op p' = pc_op (t_pc th) ->
  (forall a, a <= g_ctail l' -> sample_ok d0 l' k.1 a (t_pc th) -> sample_ok d0 l' k.1 a p') ->
  home_ok nths d0 l' pv k.1 p' -> (forall q', sync_lock p' = Some q' -> clean l' pv q') ->
  (forall q' z, p' = SExec q' z -> exec_reaches 0 (lp_pc l' q')) ->
  (forall q' z, p' = SDrop q' z -> lp_pc l' q' = PIdle) ->
  (own_ok k.2 th -> own_ok k.2 (mkT p' (t_ctx th) (t_id th))) ->
  th_ok nths d0 l' pv ops k (mkT p' (t_ctx th) (t_id th)).
Proof.
  intros Hext [H1 H2 H3 H4 H5 H6 H7 H8] Hp Hp' Hw Ho Hs Hh Hsy Hr Hd Hown. split; cbn; try done; [| | |by apply Hown].
  - apply (ctx_ok_ext _ _ _ _ _ Hext) in H1. apply ctx_plain in H1; [|done]. apply ctx_plain; [done|]. cbn. by rewrite Hw.
  - eapply call_ok_ext in H2; [|done|by intros w [E|E]; rewrite E in Hp]. unfold call_ok in *. cbn. rewrite Ho.
    destruct (pc_op (t_pc th)) as [o|]; [|done]. destruct H2 as (x & ? & ? & ? & ? & Hx). exists x.
    split_and!; try done; [by apply Hs|]. destruct o as [u|o]; [|done]. destruct Hx as (w & ? & _). exists w.
    split; [done|]. by destruct p'.
  - by intros ->.
Qed.

Lemma goto_plain s r i th p' : ninv s -> n_ths s !! (r, i) = Some th ->
  plain (t_pc th) = true -> plain p' = true -> waiting p' = waiting (t_pc th) -> pc_op p' = pc_op (t_pc th) ->
  (forall q, holds_lock (r, i) p' q -> holds_lock (r, i) (t_pc th) q) ->
  (forall q, guards (r, i) p' q -> guards (r, i) (t_pc th) q) ->
  (reading p' = true -> reading (t_pc th) = true) ->
  (forall a, a <= g_ctail (n_lp s) -> sample_ok d0 (n_lp s) r a (t_pc th) -> sample_ok d0 (n_lp s) r a p') ->
  home_ok nths d0 (n_lp s) (view_of s) r p' -> (forall q', sync_lock p' = Some q' -> clean (n_lp s) (view_of s) q') ->
  (forall q' z, p' = SExec q' z -> exec_reaches 0 (lp_pc (n_lp s) q')) ->
  (forall q' z, p' = SDrop q' z -> lp_pc (n_lp s) q' = PIdle) ->
  (own_ok i th -> own_ok i (mkT p' (t_ctx th) (t_id th))) -> ninv (goto s r i th p').
Proof.
  intros Hinv Hk Hp Hp' Hw Ho Hh Hg Hr Hs Hho Hsy Hru Hd Hown. apply ninv_goto; try done; [by rewrite Ho|].
  apply (th_plain (n_lp s) (n_lp s) 0 [] (view_of s)); try done; [apply ext_refl|by eapply ni_th].
Qed.

(** A thread that stops. *)
Definition halted p : bool := match p with TPanic _ => true | _ => false end.

Lemma th_halt l l' q e pv0 pv ops k th p' : lp_ext q l l' e -> th_ok nths d0 l pv0 ops k th -> plain (t_pc th) = true ->
  halted p' = true -> (p' = TPanic PFault -> op_panics (D := D) (RO := RO) (WO := WO) (R := R)) ->
  th_ok nths d0 l' pv ops k (mkT p' (t_ctx th) (t_id th)).
Proof.
  intros Hext [H1 _ _ _ _ _ _ _] Hp Hh Hpan. apply (ctx_ok_ext _ _ _ _ _ Hext) in H1. apply ctx_plain in H1 as [Hl Hc]; [|done].
  destruct p'; try done; split; cbn; try done; (split; [done|]); cbn; destruct (waiting (t_pc th)); auto.
Qed.

Lemma goto_panic s r i th : ninv s -> n_ths s !! (r, i) = Some th -> plain (t_pc th) = true ->
  op_panics (D := D) (RO := RO) (WO := WO) (R := R) -> ninv (goto s r i th (TPanic PFault)).
Proof.
  intros Hinv Hk Hp Hpan. apply ninv_goto; try done.
  - by intros q [[_ ?]|?].
  - by intros q [[_ ?]|?].
  - apply (th_halt (n_lp s) (n_lp s) 0 [] (view_of s)); try done; [apply ext_refl|by eapply ni_th].
Qed.

(** What a context looks like to the combiner. *)
Lemma ctx_cases l ops r th : ctx_ok d0 l ops r th ->
  quiet (t_ctx th) \/ pending_ok d0 l ops r (t_ctx th) (t_id th).
Proof. clear Hpow Hgc size nths. intros [_ H]. destruct (t_pc th); cbn in H; repeat case_match; naive_solver. Qed.

End Step.
