(* ===== verification/NrConcCtx.v ===== *)
(** * Steps preserve the invariant: contexts

    [make_pending] and [get_response], and the combiner handing out a response. *)

From stdpp Require Import gmap.
From S2P Require Import Prelude Context Log LogProtocol LogProtocolSpec Replica NrConc NrConcSpec.
From S2P Require Import NrConcLog NrConcFrame NrConcStep.

Section Ctx.
Context {D RO WO R : Type} `{!Dispatch D RO WO R}.
Variables (size : nat) (nths : nat -> nat) (d0 : D).
Hypothesis Hpow : is_pow2 size.
Hypothesis Hgc : GC_FROM_HEAD <= size.
Abbreviation lop := (WO * nat)%type.
Abbreviation context := (Context lop R unit).
Abbreviation lsys := (lpsys (O := lop)).
Abbreviation pc := (tpc (RO := RO) (WO := WO) (R := R)).
Abbreviation thr := (thr (RO := RO) (WO := WO) (R := R)).
Abbreviation nsys := (nsys (D := D) (RO := RO) (WO := WO) (R := R)).
Abbreviation ninv := (ninv size nths d0).
Implicit Types (l : lsys) (p : pc) (th : thr) (s : nsys) (r i id q : nat) (k : nat * nat) (c : context).

(** ** Slots *)

Lemma slot_op c j f : length (batch c) = MAX_PENDING_OPS -> exists e, batch c !! ctx_index j = Some e
  /\ ctx_op (slot_put c j f) j = op (f e) /\ ctx_resp (slot_put c j f) j = resp (f e).
Proof.
  intros Hl. destruct (lookup_lt_is_Some_2 (batch c) (ctx_index j)) as [e He]; [by apply ctx_index_lt|].
  exists e. unfold ctx_op, ctx_resp, slot_put. cbn [batch]. by rewrite list_lookup_alter_eq, He.
Qed.

Lemma slot_put_length c j f : length (batch (slot_put c j f)) = length (batch c).
Proof. apply length_alter. Qed.

(** ** Moving on *)

Section Move.
Context (s : nsys) (r i : nat) (th : thr).
Hypothesis Hinv : ninv s.
Hypothesis Hk : n_ths s !! (r, i) = Some th.

Lemma my_th : th_ok nths d0 (n_lp s) (view_of s) (n_ops s) (r, i) th.
Proof. by eapply ni_th. Qed.

(** Removing the conditions on the locks when the program points are known. *)
Ltac moves Ep := try (rewrite Ep; unfold holds_lock, guards; cbn; by intuition); try (rewrite Ep; by cbn); try (by cbn).

Lemma slot_inv w : t_pc th = WSlot w -> ninv (step_ctx s r i th).
Proof.
  intros Ep. destruct my_th as [[Hl Hq] Hcall _ _ _ _ _ Hown]. unfold call_ok in Hcall. rewrite Ep in *. cbn in Hq, Hcall.
  unfold step_ctx. rewrite Ep. destruct Hq as [Hq1 Hq2]. destruct (Nat.ltb_spec (ctx_tail (t_ctx th)) (ctx_head (t_ctx th))); [lia|].
  destruct (Nat.eqb_spec (ctx_tail (t_ctx th) - ctx_head (t_ctx th)) MAX_PENDING_OPS); [done|].
  apply ninv_ctx with (th := th); moves Ep.
  - apply quiet_not_waits. by split.
  - unfold waits. cbn. lia.
  - destruct (slot_op (t_ctx th) (ctx_tail (t_ctx th)) (put_op (w, t_id th)) Hl) as (e & _ & Ho & _).
    split; cbn; try done. split; cbn; [by rewrite length_alter|done].
Qed.

Lemma tail_inv w : t_pc th = WTail w -> ninv (step_ctx s r i th).
Proof.
  intros Ep. destruct my_th as [[Hl Hq] Hcall _ _ _ _ _ Hown]. unfold call_ok in Hcall. rewrite Ep in *. cbn in Hq, Hcall.
  unfold step_ctx. rewrite Ep. destruct Hq as [[Hq1 Hq2] Ho]. destruct Hcall as (x & Hx & Hr & Hi & _ & w' & Hw & -> & Hf).
  apply ninv_ctx with (th := th); moves Ep.
  - apply quiet_not_waits. by split.
  - split; cbn; try done.
    + split; cbn; [done|]. split_and!; [cbn; lia| |by left]. exists w', x. cbn. split_and!; try done.
      rewrite Hq1, Hq2. done.
    + unfold call_ok. cbn. exists x. split_and!; try done. by exists w'.
Qed.

Lemma gres_inv b it : t_pc th = GRes b it -> ninv (step_ctx s r i th).
Proof.
  intros Ep. destruct my_th as [[Hl Hq] Hcall _ _ _ _ _ Hown]. unfold call_ok in Hcall. unfold own_ok in Hown.
  rewrite Ep in *. cbn in Hq, Hcall, Hown. unfold step_ctx. rewrite Ep. destruct Hcall as (x & Hx & Hr & Hi & _ & Hw).
  assert (Hgo : forall p, waiting p = true -> pc_op p = Some (inl tt) -> home_lock p = false -> sync_lock p = None ->
    ctx_ok d0 (n_lp s) (n_ops s) r (mkT p (t_ctx th) (t_id th)) -> call_ok d0 (n_lp s) (n_ops s) r (mkT p (t_ctx th) (t_id th)) ->
    own_ok i (mkT p (t_ctx th) (t_id th)) -> ninv (goto s r i th p)).
  { intros p E1 E2 E3 E4 H1 H2 H3. apply ninv_goto; try done.
    - intros q [[_ H]|H]; cbn in *; congruence.
    - intros q [[_ H]|H]%guards_holds; cbn in *; congruence.
    - by destruct p.
    - by rewrite Ep.
    - split; try done; cbn; [by apply home_free|congruence|by intros q z ->|by intros q z ->|by intros ->]. }
  destruct (Nat.eqb_spec (ctx_head (t_ctx th)) (ctx_comb (t_ctx th))) as [E|E].
  - destruct b; [by destruct Hown|]. unfold no_response.
    destruct (it + 1 =? interval)%N; apply Hgo; try done; unfold call_ok; cbn; exists x; by split_and!.
  - destruct Hq as (Ht & Hp & Hc). destruct (Nat.ltb_spec (ctx_comb (t_ctx th)) (ctx_head (t_ctx th))); [lia|].
    apply Hgo; try done. unfold call_ok; cbn; exists x; by split_and!.
Qed.

Lemma head_inv b it : t_pc th = GHead b it -> ninv (step_ctx s r i th).
Proof.
  intros Ep. destruct my_th as [[Hl Hq] Hcall _ _ _ _ _ Hown]. unfold call_ok in Hcall. rewrite Ep in *. cbn in Hq, Hcall.
  unfold step_ctx. rewrite Ep. destruct Hq as [(Ht & _ & Hc) Hne]. destruct Hc as [Hc|(Hc & v & Hv & Ha)]; [done|].
  apply ninv_ctx with (th := th); moves Ep.
  - unfold waits. lia.
  - unfold waits. cbn. lia.
  - split; cbn; try done. split; cbn; [done|]. split_and!; [split; cbn; lia|lia|by exists v].
Qed.

(** The position of a call in the history. *)
Lemma find_id_spec (h : list (lop * nat)) q w id rr : NoDup (ids h) -> h !! q = Some ((w, id), rr) -> find_id h id = q.
Proof.
  revert q. induction h as [|[[w' id'] r'] h IH]; intros q Hn Hq; [done|]. cbn in Hn |- *.
  apply list.NoDup_cons in Hn as [Hnin Hn]. destruct q as [|q].
  - injection Hq as _ -> _. by rewrite Nat.eqb_refl.
  - cbn in Hq. destruct (Nat.eqb_spec id' id) as [->|_]; [|by rewrite (IH q)].
    destruct Hnin. apply elem_ids. by exists q, w, rr.
Qed.

Lemma take_inv b it j : t_pc th = GTake b it j -> ninv (step_ctx s r i th).
Proof.
  intros Ep. destruct my_th as [[Hl Hq] Hcall _ _ _ _ _ Hown]. unfold call_ok in Hcall. rewrite Ep in *. cbn in Hq, Hcall.
  unfold step_ctx. rewrite Ep. destruct Hq as (Hqu & Hh & v & Hv & q & w & Hh' & Hqc & Hresp). rewrite Hv.
  destruct Hcall as (x & Hx & Hr & Hi & _ & w' & Hw & _). pose proof (ni_calls _ _ _ _ Hinv) as Hcalls.
  rewrite (find_id_spec _ q w (t_id th) (S r)) by (done || apply Hcalls).
  destruct (co_hist _ _ _ Hcalls _ _ _ _ Hh') as (x' & Hx' & Hw' & Hi'). assert (x' = x) as -> by congruence.
  unfold returns. cbn [t_ctx t_id].
  apply (ninv_return size nths d0 Hgc (set_thread s (r, i) (mkT TIdle (slot_put (t_ctx th) j (put_resp None)) (t_id th))) (t_id th) x v q); try done.
  - apply ninv_ctx with (th := th); moves Ep.
    + by apply quiet_not_waits.
    + intros H. by destruct (quiet_not_waits (slot_put (t_ctx th) j (put_resp None)) Hqu).
    + split; cbn; try done. split; cbn; [by rewrite length_alter|done].
  - apply (return_ids size nths d0); try done; [by rewrite Ep|].
    intros [?|Hlive]; [done|]. unfold quiet in Hqu. cbn in Hlive. lia.
  - intros v' p' m' [= <- <- <-]. cbn. split; [done|]. rewrite Hw'. split_and!; try done. by exists (S r).
Qed.

Lemma step_ctx_inv : pc_op (t_pc th) = Some (inl tt) -> ninv (step_ctx s r i th).
Proof.
  destruct (t_pc th) eqn:Ep; try (unfold step_ctx; rewrite Ep; done); intros _.
  - by eapply slot_inv.
  - by eapply tail_inv.
  - by eapply gres_inv.
  - by eapply head_inv.
  - by eapply take_inv.
Qed.
End Move.
End Ctx.
