(* ===== verification/NrConcCollect.v ===== *)
(** * Steps preserve the invariant: collecting operations

    [acquire_combiner_lock] and [collect_thread_ops]. *)

From stdpp Require Import gmap.
From S2P Require Import Prelude Context Log LogProtocol LogProtocolSpec Replica NrConc NrConcSpec.
From S2P Require Import NrConcLog NrConcFrame NrConcStep NrConcCtx.

(** The claim of a thread about its own operation. *)
Ltac own_done := cbn; intros; first [done | assumption | by intuition (lia || congruence)].
Ltac own_side Ep := unfold own_ok; cbn [t_pc t_ctx]; rewrite Ep;
  first [own_done | match goal with k : kont |- _ => destruct k; own_done end].

(** Discharges the conditions of [goto_plain] on a known program point. *)
Ltac plain_side Ep :=
  try (rewrite Ep; reflexivity);
  try (rewrite Ep; unfold holds_lock, guards; cbn; intuition congruence);
  try (rewrite Ep; cbn; intuition congruence); try (intros; discriminate);
  try (unfold guards; cbn; intuition congruence); try (own_side Ep).

Section Collect.
Context {D RO WO R : Type} `{!Dispatch D RO WO R}.
Variables (size : nat) (nths : nat -> nat) (d0 : D).
Hypothesis Hpow : is_pow2 size.
Hypothesis Hgc : GC_FROM_HEAD <= size.
Abbreviation lop := (WO * nat)%type.
Abbreviation context := (Context lop R unit).
Abbreviation lsys := (lpsys (O := lop)).
Abbreviation pc := (tpc (RO := RO) (WO := WO) (R := R)).
Abbreviation thr := (thr (RO := RO) (WO := WO) (R := R)).
Abbreviation nsys := (nsys (D := D) (RO := RO) (WO := WO) (R := R)).
Abbreviation pview := (gmap (nat * nat) (context * nat)).
Abbreviation ninv := (ninv size nths d0).
Implicit Types (l : lsys) (p : pc) (th : thr) (s : nsys) (r i id : nat) (c : context) (pv : pview).

Lemma collected_nil pv r : collected pv r 0 [] [].
Proof. by split. Qed.

Lemma collected_snoc pv r (b0 b1 : list lop) n : collected pv r 0 b0 n ->
  b1 = [] \/ (exists c o, b1 = [o] /\ unserved pv r (length n) c o.2 /\ ctx_op c (ctx_head c) = Some o) ->
  collected pv r 0 (b0 ++ b1) (n ++ [length b1]).
Proof.
  intros [Hl H] Hb. split; [rewrite length_app, sum_list_with_app, Hl; cbn; lia|].
  intros j m Hj. apply lookup_app_Some in Hj as [Hj|[Hge Hj]].
  - destruct (H j m Hj) as [?|(? & o & Ho & Hu)]; [by left|]. right. split; [done|]. exists o.
    apply lookup_lt_Some in Hj. rewrite take_app_le by lia. split; [by apply lookup_app_l_Some|done].
  - apply list_lookup_singleton_Some in Hj as [Hj <-]. assert (j = length n) as -> by lia.
    destruct Hb as [->|(c & o & -> & Hu & Ho)]; [by left|]. right. split; [done|]. exists o.
    rewrite take_app_le, take_ge by lia. rewrite lookup_app_r, <- Hl, Nat.sub_diag by lia. split; [done|]. eauto.
Qed.

Section Move.
Context (s : nsys) (r i : nat) (th : thr) (x : rst (D := D)) (q : nat).
Hypothesis Hinv : ninv s.
Hypothesis Hk : n_ths s !! (r, i) = Some th.
Hypothesis Hx : n_reps s !! r = Some x.
Abbreviation my_th := (ni_th size nths d0 s Hinv (r, i) th Hk).
Abbreviation my_home := (to_home nths d0 _ _ _ _ _ my_th).

Lemma lock_fails k : kont_free k -> waiting (t_pc th) = kont_w k -> pc_op (t_pc th) = Some (kont_op k) -> plain (t_pc th) = true ->
  (forall a, sample_ok d0 (n_lp s) r a (t_pc th) -> kont_sample (n_lp s) a k) ->
  ninv (goto s r i th (after_combine r k Done q)).
Proof.
  intros Hf Hw Ho Hp Hs.
  assert (Hkw : forall b, k = KW b -> b = false).
  { intros b ->. pose proof (to_call _ _ _ _ _ _ _ my_th) as Hc. unfold call_ok in Hc. rewrite Ho in Hc.
    destruct Hc as (y & _ & _ & _ & Hsa & _). by specialize (Hs _ Hsa). }
  apply goto_plain; try done; try (by destruct k); try (destruct k; by rewrite ?Hw, ?Ho).
  - destruct k; by intros q' [[_ ?]|?].
  - destruct k; by intros q' [[_ ?]|?].
  - intros a _ Ha. specialize (Hs a Ha). by destruct k.
  - intros _. destruct k as [b|o c|o c]; [|done|done]. by rewrite (Hkw b eq_refl).
Qed.

Lemma kont_not_locked k j a : t_pc th = ALoad k j \/ t_pc th = ACas k -> sample_ok d0 (n_lp s) r a (t_pc th) ->
  kont_free k /\ kont_sample (n_lp s) a k.
Proof. intros [-> | ->]; cbn; naive_solver. Qed.

Lemma acquire_kont k j : t_pc th = ALoad k j \/ t_pc th = ACas k -> kont_free k.
Proof.
  intros Ep. pose proof (to_call _ _ _ _ _ _ _ my_th) as Hc. unfold call_ok in Hc.
  assert (E : pc_op (t_pc th) = Some (kont_op k)) by (by destruct Ep as [-> | ->]). rewrite E in Hc.
  destruct Hc as (y & _ & _ & _ & Hs & _). by eapply kont_not_locked.
Qed.

Lemma load_inv k j : t_pc th = ALoad k j -> ninv (step_collect nths s r i th x q).
Proof.
  intros Ep. unfold step_collect. rewrite Ep. destruct (q_comb x =? 0).
  - destruct (j =? 3); apply goto_plain; try done; plain_side Ep.
  - apply lock_fails; try (by rewrite Ep); [eapply acquire_kont; by left|].
    intros a. by eapply kont_not_locked; left.
Qed.

Lemma cas_inv k : t_pc th = ACas k -> ninv (step_collect nths s r i th x q).
Proof.
  intros Ep. unfold step_collect. rewrite Ep. destruct (Nat.eqb_spec (q_comb x) 0) as [E|E].
  - apply (ninv_rep size nths d0 Hgc s (r, i) th _ r x); try done; [| |by rewrite Ep|].
    + apply (locks_upd _ _ _ th _ _ x); try done; [apply Hinv|..]; cbn.
      * intros r' [[? _]|?]; [right; auto|done].
      * by intros r' [[_ ?]|?].
      * auto.
      * by eapply lo_excl; [apply Hinv|].
    + by apply (ni_idle _ _ _ _ Hinv r x).
    + apply (th_plain nths d0 (n_lp s) (n_lp s) 0 [] (view_of s)); try done; plain_side Ep; [apply ext_refl|apply my_th|].
      cbn. split_and!; [by eapply ni_clean|done|lia|apply collected_nil].
  - apply lock_fails; try (by rewrite Ep); [eapply (acquire_kont k 0); by right|].
    intros a. by eapply (kont_not_locked k 0); right.
Qed.

Lemma view_at j c id : view_of s !! (r, j) = Some (c, id) ->
  exists tj, n_ths s !! (r, j) = Some tj /\ t_ctx tj = c /\ t_id tj = id.
Proof. apply view_lookup. Qed.

Lemma comb_inv k j b n : t_pc th = CComb k j b n -> ninv (step_collect nths s r i th x q).
Proof.
  intros Ep. pose proof my_home as Hh. rewrite Ep in Hh. cbn in Hh. destruct Hh as (Hc & Hl & Hj & Hco).
  assert (Hi : i < nths r) by (eapply (ni_ths _ _ _ _ Hinv r i); eauto).
  unfold step_collect. rewrite Ep. destruct (Nat.eqb_spec j (nths r)) as [->|Hne].
  - apply goto_plain; try done; plain_side Ep.
    unfold own_ok. cbn. rewrite Ep. destruct k; [|done|done]. intros H. apply H. lia.
  - destruct (proj2 (ni_ths _ _ _ _ Hinv r j)) as [tj Htj].
    { split; [|lia]. by apply (ni_ths _ _ _ _ Hinv r i). }
    rewrite Htj. apply goto_plain; try done; plain_side Ep. cbn. split_and!; try done; [lia|].
    exists (t_ctx tj), (t_id tj). split; [by apply view_thread|done].
Qed.

Lemma ctail_inv k j h b n : t_pc th = CTail k j h b n -> ninv (step_collect nths s r i th x q).
Proof.
  intros Ep. pose proof my_home as Hh. rewrite Ep in Hh. cbn in Hh. destruct Hh as (Hc & Hl & Hj & Hco & c & id & Hv & Hcomb).
  apply view_at in Hv as (tj & Htj & <- & <-). unfold step_collect. rewrite Ep, Htj.
  pose proof (to_ctx _ _ _ _ _ _ _ (ni_th _ _ _ _ Hinv _ _ Htj)) as Hcase. apply ctx_cases in Hcase.
  assert (Hlt : h <= ctx_tail (t_ctx tj) <= S h) by (destruct Hcase as [[? ?]|(? & _ & [?|[? _]])]; lia).
  destruct (Nat.ltb_spec (ctx_tail (t_ctx tj)) h); [lia|].
  apply goto_plain; try done; plain_side Ep; [cbn; split_and!; try done; try lia|].
  - exists b, []. rewrite app_nil_r, Nat.sub_diag. split_and!; try done. intros Ht.
    destruct Hcase as [[? ?]|(Ht' & (w & y & Ho & _) & Hcc)]; [lia|].
    assert (Hch : ctx_comb (t_ctx tj) = ctx_head (t_ctx tj)) by lia.
    exists (t_ctx tj), (w, t_id tj). split_and!; [|lia|by rewrite <- Hcomb, Hch|lia]. split_and!; [by apply view_thread|done|done].
  - unfold own_ok. cbn. rewrite Ep. destruct k; [|done|done]. intros Hown. split; [done|]. intros Hi.
    assert (tj = th) as -> by (rewrite Hi, Hl in Hk; congruence). unfold served.
    destruct Hcase as [Hq|(Ht' & _)]; [|lia]. pose proof (to_ctx _ _ _ _ _ _ _ my_th) as [_ Hc']. rewrite Ep in Hc'.
    destruct Hc' as (Ht' & _). unfold quiet in Hq. lia.
Qed.

Lemma cread_inv k j h t (c : nat) b n : t_pc th = CRead k j h t c b n -> ninv (step_collect nths s r i th x q).
Proof.
  intros Ep. pose proof my_home as Hh. rewrite Ep in Hh. cbn in Hh.
  destruct Hh as (Hc & Hl & Hj & Hct & Ht & b0 & b1 & -> & Hco & Hb1 & Hu).
  unfold step_collect. rewrite Ep. destruct (Nat.eqb_spec c t) as [->|Hne].
  - apply goto_plain; try done; plain_side Ep.
    + cbn. split_and!; try done; [rewrite length_app; cbn; lia|lia|].
      rewrite <- Hb1. apply collected_snoc; [done|]. destruct (decide (t = S h)) as [E|E].
      * right. destruct (Hu E) as (cx & o & H1 & H2 & H3 & H4). exists cx, o. rewrite Hl, H2. auto.
      * left. apply length_zero_iff_nil. lia.
    + unfold own_ok. cbn. rewrite Ep. destruct k; [|done|done]. intros [H1 H2] Hi. rewrite length_app in Hi. cbn in Hi.
      destruct (decide (i = length n)) as [Ei|Ei].
      * destruct (H2 Ei) as [?| ->]; [by left|right]. rewrite Ei, lookup_app_r, Nat.sub_diag by lia. cbn. f_equal. lia.
      * rewrite lookup_app_l by lia. apply H1. lia.
  - assert (t = S h /\ c = h) as [-> ->] by lia. destruct (Hu eq_refl) as (cx & o & H1 & H2 & H3 & _).
    destruct (view_at j cx o.2) as (tj & Htj & <- & Hid); [apply H1|].
    rewrite Htj. cbn [mbind option_bind]. rewrite H3.
    apply goto_plain; try done; plain_side Ep. cbn. split_and!; try done; try lia.
    exists b0, (b1 ++ [o]). rewrite <- app_assoc, length_app. cbn. split_and!; try done; [lia|].
    intros _. exists (t_ctx tj), o. split_and!; try done. intros _.
    assert (b1 = []) as -> by (apply length_zero_iff_nil; lia). done.
Qed.

Lemma step_collect_inv : ninv (step_collect nths s r i th x q).
Proof.
  destruct (t_pc th) eqn:Ep; try (unfold step_collect; rewrite Ep; done).
  - by eapply load_inv.
  - by eapply cas_inv.
  - by eapply comb_inv.
  - by eapply ctail_inv.
  - by eapply cread_inv.
Qed.
End Move.
End Collect.
