(* ===== verification/NrConcRun.v ===== *)
(** * Steps preserve the invariant: running the log

    A combiner or a thread in [try_sync] takes the lock of the data, and runs [append]
    or [exec] step by step; the closure executes the entries on the data. *)

From stdpp Require Import gmap.
From S2P Require Import Prelude Context Log LogProtocol LogProtocolSpec Replica NrConc NrConcSpec.
From S2P Require Import NrConcLog NrConcFrame NrConcStep NrConcCtx NrConcCollect.

Section Run.
Context {D RO WO R : Type} `{!Dispatch D RO WO R}.
Variables (size : nat) (nths : nat -> nat) (d0 : D).
Hypothesis Hpow : is_pow2 size.
Hypothesis Hgc : GC_FROM_HEAD <= size.
Abbreviation lop := (WO * nat)%type.
Abbreviation context := (Context lop R unit).
Abbreviation lsys := (lpsys (O := lop)).
Abbreviation pc := (tpc (RO := RO) (WO := WO) (R := R)).
Abbreviation thr := (thr (RO := RO) (WO := WO) (R := R)).
Abbreviation nsys := (nsys (D := D) (RO := RO) (WO := WO) (R := R)).
Abbreviation pview := (gmap (nat * nat) (context * nat)).
Abbreviation ninv := (ninv size nths d0).
Implicit Types (l : lsys) (p : pc) (th : thr) (s : nsys) (r i id q t : nat) (k : nat * nat) (c : context) (pv : pview).

(** ** The closure *)

Lemma call_cases l l' q d :
  lp_inv size l -> lp_inv size l' -> lp_next size l (LStep q) = Some l' ->
  hist_run d0 (take (done_of l q) (g_hist l)) = Ret d ->
  done_of l' q = done_of l q /\ lp_call l l' q = None /\ hist_run d0 (take (done_of l' q) (g_hist l')) = Ret d
  \/ exists w id rep, done_of l' q = S (done_of l q) /\ g_hist l' = g_hist l
       /\ g_hist l !! done_of l q = Some ((w, id), rep) /\ lp_call l l' q = Some ((w, id), rep =? S q)
       /\ forall y, dispatch_mut d w = Ret y ->
            hist_run d0 (take (done_of l' q) (g_hist l')) = Ret y.1 /\ resp_at d0 (g_hist l') (done_of l q) y.2.
Proof.
  intros Hi Hi' E Hd. destruct (next_ext size Hgc (LStep q) l l' Hi E) as (e & Hext & _). cbn in Hext. unfold lp_next in E. cbn in E.
  destruct (g_reps l !! q) as [p|] eqn:Hp; [|done]. injection E as E.
  destruct (lookup_lt_is_Some_2 (g_reps l') q) as [p' Hp'].
  { rewrite (le_length _ _ _ _ Hext). by eapply lookup_lt_Some. }
  pose proof (run_done size Hgc q l p p' Hi Hp) as Hdone. rewrite E in Hdone. specialize (Hdone Hp').
  destruct (at_some l q p Hp) as (Ed & _ & _). destruct (at_some l' q p' Hp') as (Ed' & _ & _). rewrite Ed, Ed' in *.
  pose proof (done_upto_le size Hgc _ _ _ Hi Hp). pose proof (li_order _ _ Hi). pose proof (li_tail _ _ Hi).
  destruct Hdone as [Hs|(Hs & Hlt & Hh)].
  - left. split_and!; [done|by eapply call_none|]. by rewrite Hs, (hist_ext _ _ _ _ Hext), take_app_le by lia.
  - right. destruct (lookup_lt_is_Some_2 (g_hist l) (done_upto p)) as [[[w id] rep] Hx]; [lia|]. exists w, id, rep.
    split_and!; try done; [eapply (call_some size Hgc _ _ _ _ _ ((w, id), rep)); try done; by rewrite Hh|].
    intros y Hy. rewrite Hs, Hh. split.
    + rewrite (take_S_r _ _ _ Hx), hist_run_snoc, Hd. cbn. by rewrite Hy.
    + by exists d, y, ((w, id), rep).
Qed.

(** The entries a replica applies leave its claims alone. *)
Lemma clean_done l l' pv q : g_hist l' = g_hist l -> done_of l q <= done_of l' q -> clean l pv q -> clean l' pv q.
Proof.
  clear Hpow Hgc size nths. intros Hh Hd [H1 H2]. split; rewrite Hh; [done|]. intros u e Hu. specialize (H2 u e Hu). lia.
Qed.

Lemma flight_done l l' pv q j0 t b n : g_hist l' = g_hist l -> done_of l q <= done_of l' q ->
  flight l pv q j0 t b n -> flight l' pv q j0 t b n.
Proof.
  clear Hpow Hgc size nths. intros Hh Hd (H1 & H2 & H3 & H4). split_and!; rewrite ?Hh; try done. intros u e Hu. specialize (H4 u e Hu). lia.
Qed.

Lemma done_mono l l' q d : lp_inv size l -> lp_inv size l' -> lp_next size l (LStep q) = Some l' ->
  hist_run d0 (take (done_of l q) (g_hist l)) = Ret d -> done_of l q <= done_of l' q.
Proof. intros H1 H2 H3 H4. destruct (call_cases l l' q d H1 H2 H3 H4) as [(? & _)|(w & id & rep & ? & _)]; lia. Qed.

(** [combine]'s closure. *)
Section Combine.
Context (l l' : lsys) (q : nat) (d : D) (rs : list R).
Hypothesis Hi : lp_inv size l.
Hypothesis Hi' : lp_inv size l'.
Hypothesis E : lp_next size l (LStep q) = Some l'.
Hypothesis Hd : hist_run d0 (take (done_of l q) (g_hist l)) = Ret d.
Abbreviation cases := (call_cases l l' q d Hi Hi' E Hd).

Lemma combine_panics : (forall y, combine_call l l' q d rs <> Ret y) -> op_panics (D := D) (RO := RO) (WO := WO) (R := R).
Proof.
  intros Hn. destruct cases as [(_ & Hc & _)|(w & id & rep & _ & _ & _ & Hc & _)]; unfold combine_call in Hn; rewrite Hc in Hn.
  - by destruct (Hn (d, rs)).
  - left. exists d, w. intros [d' v] Hy. rewrite Hy in Hn. cbn in Hn. by eapply Hn.
Qed.

Lemma combine_data d' rs' : combine_call l l' q d rs = Ret (d', rs') ->
  hist_run d0 (take (done_of l' q) (g_hist l')) = Ret d'.
Proof.
  intros Hc. destruct cases as [(_ & Hn & H)|(w & id & rep & _ & _ & _ & Hn & H)]; unfold combine_call in Hc; rewrite Hn in Hc.
  - by injection Hc as <- <-.
  - destruct (dispatch_mut d w) as [[d1 v]| |] eqn:Hy; try done. cbn in Hc. injection Hc as <- _. by apply (H (d1, v)).
Qed.

Lemma combine_clean pv d' rs' : combine_call l l' q d rs = Ret (d', rs') -> clean l pv q -> rs' = rs.
Proof.
  intros Hc [_ Hcl]. destruct cases as [(_ & Hn & H)|(w & id & rep & _ & _ & Hx & Hn & _)]; unfold combine_call in Hc; rewrite Hn in Hc.
  - by injection Hc as <- <-.
  - destruct (dispatch_mut d w) as [[d1 v]| |]; try done. cbn in Hc. injection Hc as _ <-.
    destruct (Nat.eqb_spec rep (S q)) as [->|_]; [|done]. specialize (Hcl _ _ Hx). lia.
Qed.

Lemma combine_flight pv d' rs' j0 t b n : combine_call l l' q d rs = Ret (d', rs') -> g_hist l' = g_hist l ->
  flight l pv q j0 t b n -> results_ok d0 l q t b rs -> results_ok d0 l' q t b rs'.
Proof.
  intros Hc Hh (_ & Hb & _ & Hown) [Hl Hr].
  destruct cases as [(Hs & Hn & _)|(w & id & rep & Hs & _ & Hx & Hn & H)]; unfold combine_call in Hc; rewrite Hn in Hc.
  - injection Hc as <- <-. split; [by rewrite Hs|by rewrite Hh].
  - destruct (dispatch_mut d w) as [[d1 v]| |] eqn:Hy; try done. cbn in Hc. injection Hc as _ <-.
    destruct (H _ eq_refl) as [_ Hv]. cbn in Hv. unfold results_ok. rewrite Hs.
    destruct (Nat.eqb_spec rep (S q)) as [->|Hne].
    + destruct (Hown _ _ Hx); [lia|]. split; [rewrite length_app; cbn; lia|]. intros m u.
      rewrite lookup_app_Some, list_lookup_singleton_Some. intros [Hm|(Hge & Hm & <-)]; [rewrite Hh; by apply Hr|].
      by replace (t + m) with (done_of l q) by lia.
    + split; [|by rewrite Hh]. destruct (decide (t <= done_of l q < t + length b)) as [Hin|Hout]; [|lia].
      destruct (lookup_lt_is_Some_2 b (done_of l q - t)) as [o Ho]; [lia|]. specialize (Hb _ _ Ho).
      replace (t + (done_of l q - t)) with (done_of l q) in Hb by lia. congruence.
Qed.
End Combine.

(** [try_sync]'s closure: the lost result cannot occur. *)
Lemma sync_call_ok l l' pv q d : lp_inv size l -> lp_inv size l' -> lp_next size l (LStep q) = Some l' ->
  hist_run d0 (take (done_of l q) (g_hist l)) = Ret d -> clean l pv q ->
  (forall d', sync_call l l' q d = Ret d' -> hist_run d0 (take (done_of l' q) (g_hist l')) = Ret d')
  /\ ((forall d', sync_call l l' q d <> Ret d') -> op_panics (D := D) (RO := RO) (WO := WO) (R := R)).
Proof.
  intros Hi Hi' E Hd [_ Hcl].
  destruct (call_cases l l' q d Hi Hi' E Hd) as [(_ & Hn & H)|(w & id & rep & _ & _ & Hx & Hn & H)]; unfold sync_call; rewrite Hn.
  - split; [by intros d' [= <-]|]. intros Hp. by destruct (Hp d).
  - destruct (Nat.eqb_spec rep (S q)) as [->|_]; [specialize (Hcl _ _ Hx); lia|].
    destruct (dispatch_mut d w) as [[d1 v]| |] eqn:Hy; cbn.
    + split; [intros d' [= <-]; by apply (H (d1, v))|]. intros Hp. by destruct (Hp d1).
    + split; [done|]. intros _. left. exists d, w. intros y. congruence.
    + split; [done|]. intros _. left. exists d, w. intros y. congruence.
Qed.

(** ** Locks around a run *)

Section Locks.
Context (s : nsys) (k : nat * nat) (th : thr) (p' : pc) (q : nat) (y : rst (D := D)).
Hypothesis Hinv : ninv s.
Hypothesis Hk : n_ths s !! k = Some th.
Hypothesis Hy : n_reps s !! q = Some y.
Hypothesis Hh : forall r, holds_lock k p' r -> holds_lock k (t_pc th) r.
Hypothesis Hr : reading p' = false.
Abbreviation locks := (ni_locks _ _ _ _ Hinv).

(** The replica keeps its locks. *)
Lemma locks_keep d' : (forall r, guards k p' r -> guards k (t_pc th) r) ->
  locks_ok (<[q := set_qdata y d']> (n_reps s)) (<[k := mkT p' (t_ctx th) (t_id th)]> (n_ths s)).
Proof.
  intros Hg. apply (locks_upd _ _ _ th _ _ y); try done; [apply locks|..]; cbn.
  - auto.
  - intros Hc. split; [by left|]. intros H. by eapply (lo_free _ _ locks q y k th); [..|apply Hh].
  - intros r H. split; [by auto|]. intros ->. eapply (lo_guard _ _ locks q y k th); auto.
  - auto.
  - by rewrite Hr.
  - by eapply lo_excl; [apply locks|].
Qed.

(** The lock of the data is taken. *)
Lemma locks_take : (forall r, guards k p' r -> r = q) -> can_write y = true -> holds_lock k (t_pc th) q ->
  locks_ok (<[q := set_wlock y true]> (n_reps s)) (<[k := mkT p' (t_ctx th) (t_id th)]> (n_ths s)).
Proof.
  intros Hg Hc Hhq. unfold can_write in Hc. apply andb_true_iff in Hc as [_ Hc]. apply bool_decide_eq_true in Hc.
  apply (locks_upd _ _ _ th _ _ y); try done; [apply locks|..]; cbn.
  - auto.
  - intros H0. by destruct (lo_free _ _ locks q y k th Hy H0 Hk).
  - intros r H. split; [|done]. intros Hne. by destruct (Hne (Hg r H)).
  - auto.
  - by rewrite Hr.
  - by left.
Qed.

(** The lock of the data is released. *)
Lemma locks_drop : (forall r, guards k p' r -> False) -> guards k (t_pc th) q ->
  locks_ok (<[q := set_wlock y false]> (n_reps s)) (<[k := mkT p' (t_ctx th) (t_id th)]> (n_ths s)).
Proof.
  intros Hg Hgq. pose proof (guards_holds _ _ _ Hgq) as Hhq.
  apply (locks_upd _ _ _ th _ _ y); try done; [apply locks|..]; cbn.
  - auto.
  - intros H0. by destruct (lo_free _ _ locks q y k th Hy H0 Hk).
  - intros r H. by destruct (Hg r H).
  - auto.
  - by rewrite Hr.
  - by right.
Qed.

(** The combiner lock is released. *)
Lemma locks_release : (forall r, ~ guards k p' r) -> ~ holds_lock k p' q -> holds_lock k (t_pc th) q ->
  locks_ok (<[q := set_comb y 0]> (n_reps s)) (<[k := mkT p' (t_ctx th) (t_id th)]> (n_ths s)).
Proof.
  intros Hg Hn Hhq. apply (locks_upd _ _ _ th _ _ y); try done; [apply locks|..]; cbn.
  - auto.
  - auto.
  - intros r H. by destruct (Hg r H).
  - auto.
  - by rewrite Hr.
  - by eapply lo_excl; [apply locks|].
Qed.

Lemma guarded_locked : guards k (t_pc th) q -> q_wlock y = true /\ q_comb y <> 0.
Proof.
  intros Hg. split; [by eapply (lo_guard _ _ locks q y k th)|]. intros H0.
  by eapply (lo_free _ _ locks q y k th); [..|apply guards_holds].
Qed.

Lemma held_locked : holds_lock k (t_pc th) q -> q_comb y <> 0.
Proof. intros Hg H0. by eapply (lo_free _ _ locks q y k th). Qed.

(** A step of the log under the lock. *)
Lemma ninv_run x l' e d' :
  lp_next size (n_lp s) x = Some l' -> lp_label_rep x = q -> lp_ext q (n_lp s) l' e ->
  (e = [] \/ clean (n_lp s) (view_of s) q /\ exists n, collected (view_of s) q 0 e n) ->
  guards k (t_pc th) q -> (forall r, guards k p' r -> guards k (t_pc th) r) -> pc_op p' = pc_op (t_pc th) ->
  hist_run d0 (take (done_of l' q) (g_hist l')) = Ret d' ->
  th_ok nths d0 l' (view_of s) (n_ops s) k (mkT p' (t_ctx th) (t_id th)) ->
  ninv (mkN l' (<[q := set_qdata y d']> (n_reps s)) (<[k := mkT p' (t_ctx th) (t_id th)]> (n_ths s)) (n_ops s)).
Proof.
  intros E Hq Hext Hb Hg Hg' Hop Hd Hth. destruct (guarded_locked Hg) as [Hw Hc].
  eapply (ninv_step size nths d0 Hgc s k th p' q y _ l' e); try done; cbn.
  - eapply lp_next_inv; [done|done| |done]. apply Hinv.
  - right. by apply guards_holds.
  - by apply locks_keep.
  - congruence.
  - by rewrite Hop.
Qed.

(** Starting [append] or [exec] with the lock. *)
Lemma ninv_take x l' :
  lp_next size (n_lp s) x = Some l' -> (exists ops, x = LAppend q ops) \/ x = LExec q ->
  can_write y = true -> holds_lock k (t_pc th) q -> (forall r, guards k p' r -> r = q) -> pc_op p' = pc_op (t_pc th) ->
  (lp_ext q (n_lp s) l' [] -> g_hist l' = g_hist (n_lp s) -> done_of l' q = done_of (n_lp s) q ->
   th_ok nths d0 l' (view_of s) (n_ops s) k (mkT p' (t_ctx th) (t_id th))) ->
  ninv (mkN l' (<[q := set_wlock y true]> (n_reps s)) (<[k := mkT p' (t_ctx th) (t_id th)]> (n_ths s)) (n_ops s)).
Proof.
  intros E Hx Hc Hhq Hg Hop Hth. destruct (next_ext size Hgc x _ _ (ni_lp _ _ _ _ Hinv) E) as (e & Hext & He).
  assert (lp_label_rep x = q) as Eq by (by destruct Hx as [[ops ->]| ->]). rewrite Eq in Hext.
  assert (e = []) as -> by (destruct He as [?|[j ->]]; [done|]; by destruct Hx as [[ops ?]|?]).
  assert (Hh' : g_hist l' = g_hist (n_lp s)) by (by rewrite (hist_ext _ _ _ _ Hext), app_nil_r).
  assert (Hd : done_of l' q = done_of (n_lp s) q).
  { unfold lp_next in E. rewrite Eq in E. unfold done_of. destruct (g_reps (n_lp s) !! q) as [p|] eqn:Hp; [|done]. cbn in E.
    destruct Hx as [[ops ->]| ->]; destruct (p_pc p) eqn:Epp; try done;
      [destruct (length ops <=? GC_FROM_HEAD); [|done]|]; injection E as <-; cbn [set_rep g_reps];
      rewrite (lookup_set_rep _ _ _ _ Hp); unfold done_upto; by rewrite Epp. }
  apply (ninv_step size nths d0 Hgc s k th p' q y _ l' []); try done; cbn.
  - eapply lp_next_inv; [done|done| |done]. apply Hinv.
  - by right.
  - by left.
  - by apply locks_take.
  - rewrite Hd, Hh'. by eapply ni_data.
  - intros H0. by destruct (held_locked Hhq).
  - by rewrite Hop.
  - by apply Hth.
Qed.
End Locks.
End Run.
