(* ===== verification/NrConcCombine.v ===== *)
(** * Steps preserve the invariant: combining

    [combine]: [append] and [exec] of the batch. *)

From stdpp Require Import gmap.
From S2P Require Import Prelude Context Log LogProtocol LogProtocolSpec Replica NrConc NrConcSpec.
From S2P Require Import NrConcLog NrConcFrame NrConcStep NrConcCtx NrConcCollect NrConcRun.

Section Combine.
Context {D RO WO R : Type} `{!Dispatch D RO WO R}.
Variables (size : nat) (nths : nat -> nat) (d0 : D).
Hypothesis Hpow : is_pow2 size.
Hypothesis Hgc : GC_FROM_HEAD <= size.
Abbreviation lop := (WO * nat)%type.
Abbreviation context := (Context lop R unit).
Abbreviation lsys := (lpsys (O := lop)).
Abbreviation pc := (tpc (RO := RO) (WO := WO) (R := R)).
Abbreviation thr := (thr (RO := RO) (WO := WO) (R := R)).
Abbreviation nsys := (nsys (D := D) (RO := RO) (WO := WO) (R := R)).
Abbreviation pview := (gmap (nat * nat) (context * nat)).
Abbreviation ninv := (ninv size nths d0).
Implicit Types (l : lsys) (p : pc) (th : thr) (s : nsys) (r i id t : nat) (c : context) (pv : pview).

(** ** Starting *)

Lemma append_pc l l' q (b : list lop) : lp_next size l (LAppend q b) = Some l' -> lp_pc l' q = PTail (mkApp b 1 1).
Proof.
  unfold lp_next. cbn. destruct (g_reps l !! q) as [p|] eqn:Hp; [|done]. cbn. destruct (p_pc p); try done.
  destruct (length b <=? GC_FROM_HEAD); [|done]. intros [= <-]. unfold lp_pc. cbn. by rewrite (lookup_set_rep _ _ _ _ Hp).
Qed.

Lemma exec_pc l l' q : lp_next size l (LExec q) = Some l' -> lp_pc l' q = EStart KTop.
Proof.
  unfold lp_next. cbn. destruct (g_reps l !! q) as [p|] eqn:Hp; [|done]. cbn. destruct (p_pc p); try done.
  intros [= <-]. unfold lp_pc. cbn. by rewrite (lookup_set_rep _ _ _ _ Hp).
Qed.

(** A step of a combiner, with what it does to the program point and the history. *)
Lemma step_facts l q l' : lp_inv size l -> lp_next size l (LStep q) = Some l' ->
  exists (p p' : prep) e, g_reps l !! q = Some p /\ g_reps l' !! q = Some p' /\ l' = lp_run size l q p /\ lp_inv size l'
    /\ lp_ext q l l' e /\ lp_pc l q = p_pc p /\ lp_pc l' q = p_pc p' /\ ltail_at l' q = p_ltail p' /\ p_pc p' <> PPanic
    /\ (g_hist l' = g_hist l -> e = []).
Proof.
  intros Hi E. pose proof (lp_next_inv size Hpow Hgc _ _ _ Hi E) as Hi'.
  destruct (next_ext size Hgc (LStep q) l l' Hi E) as (e & Hext & _). cbn in Hext. unfold lp_next in E. cbn in E.
  destruct (g_reps l !! q) as [p|] eqn:Hp; [|done]. injection E as <-.
  destruct (lookup_lt_is_Some_2 (g_reps (lp_run size l q p)) q) as [p' Hp'].
  { rewrite (le_length _ _ _ _ Hext). by eapply lookup_lt_Some. }
  destruct (at_some l q p Hp) as (_ & _ & Epc). destruct (at_some _ q p' Hp') as (_ & El & Epc').
  exists p, p', e. split_and!; try done; [by eapply run_not_panic|]. intros Hh.
  pose proof (hist_ext _ _ _ _ Hext) as H. rewrite Hh in H. apply (f_equal length) in H. rewrite length_app, length_map in H.
  apply length_zero_iff_nil. lia.
Qed.

(** The reservation puts the batch into the log. *)
Lemma reserve_flight s l' q e b n :
  ninv s -> lp_ext q (n_lp s) l' e -> e = b -> clean (n_lp s) (view_of s) q -> collected (view_of s) q 0 b n ->
  done_of l' q = done_of (n_lp s) q ->
  flight l' (view_of s) q 0 (length (g_hist (n_lp s))) b n /\ results_ok d0 l' q (length (g_hist (n_lp s))) b [].
Proof.
  intros Hinv Hext -> [Hc1 Hc2] Hco Hd. pose proof (hist_ext _ _ _ _ Hext) as Hh.
  pose proof (ni_lp _ _ _ _ Hinv) as Hlp. pose proof (li_order _ _ Hlp). pose proof (li_tail _ _ Hlp).
  split; [split_and!|split].
  - done.
  - intros j o Hj. rewrite Hh, lookup_app_r by lia. replace (_ + j - _) with j by lia.
    by rewrite list_lookup_fmap, Hj.
  - intros i c id Hu Hin. split; [lia|]. rewrite Hh, ids_app, ids_tagged, elem_of_app in Hin.
    destruct Hin as [Hin|Hin]; [by destruct (Hc1 i c id Hu)|]. apply list_elem_of_fmap in Hin as (o & -> & [u Ho]%list_elem_of_lookup).
    destruct (collected_at _ _ _ _ _ _ Hco Ho) as (j & cj & Hj & _ & Huj & _).
    destruct (unserved_live _ _ _ _ _ Hu) as (th1 & H1 & L1 & _ & I1 & _).
    destruct (unserved_live _ _ _ _ _ Huj) as (th2 & H2 & L2 & _ & I2 & _).
    assert ((q, i) = (q, j)) as [= ->]; [|done]. eapply (ni_ids _ _ _ _ Hinv); eauto. congruence.
  - intros u [w id] Hu. rewrite Hd. destruct (ext_lookup_inv _ _ _ _ Hext _ _ _ _ Hu) as [Ho|(_ & Hge & Ho)].
    + left. by eapply Hc2.
    + right. apply lookup_lt_Some in Ho. lia.
  - cbn. rewrite Hd. destruct (lookup_lt_is_Some (g_reps (n_lp s)) q) as [H2 _]. unfold done_of.
    destruct (g_reps (n_lp s) !! q) as [p|] eqn:Hp; [|lia]. pose proof (done_upto_le size Hgc _ _ _ Hlp Hp). lia.
  - done.
Qed.

(** The entries of a batch that is not being written are published. *)
Lemma batch_published l pv q (p : prep) j0 t b n : lp_inv size l -> g_reps l !! q = Some p -> unpub (p_pc p) = None ->
  flight l pv q j0 t b n -> batch_end t b <= g_commit l.
Proof.
  intros Hi Hp Hu (_ & Hb & _). destruct b as [|o b]; [cbn; lia|].
  destruct (lookup_lt_is_Some_2 (o :: b) (length b)) as [o' Ho']; [cbn; lia|].
  pose proof (own_published size Hgc l q p _ _ Hi Hp Hu (Hb _ _ Ho')). cbn. lia.
Qed.

Section Move.
Context (s : nsys) (r i : nat) (th : thr) (x : rst (D := D)) (q : nat).
Hypothesis Hinv : ninv s.
Hypothesis Hk : n_ths s !! (r, i) = Some th.
Hypothesis Hx : n_reps s !! r = Some x.
Abbreviation my_th := (ni_th size nths d0 s Hinv (r, i) th Hk).
Abbreviation my_home := (to_home nths d0 _ _ _ _ _ my_th).

Lemma write_inv k b n : t_pc th = CWrite k b n -> ninv (step_log size s r i th x q).
Proof.
  intros Ep. pose proof my_home as Hh. rewrite Ep in Hh. cbn in Hh. destruct Hh as (Hc & Hl & Hco).
  unfold step_log. rewrite Ep. destruct (can_write x) eqn:Hw; [|done].
  destruct (lp_next size (n_lp s) (LAppend r b)) as [l'|] eqn:E; [|done].
  eapply (ninv_take size nths d0 Hpow Hgc s (r, i) th _ r x); try done; plain_side Ep; [by left; eexists|].
  intros Hext Hh Hd. eapply th_plain; try done; plain_side Ep; [apply my_th|]. cbn. split; [done|]. left.
  rewrite (append_pc _ _ _ _ E). split_and!; try done. eapply clean_done; [done| |done]. cbn. lia.
Qed.

(** ** [append] *)

Lemma app_step k b n rs l' d' rs' : t_pc th = CApp k b n rs -> lp_next size (n_lp s) (LStep r) = Some l' ->
  combine_call (n_lp s) l' r (q_data x) rs = Ret (d', rs') ->
  exists e, lp_ext r (n_lp s) l' e /\ (e = [] \/ clean (n_lp s) (view_of s) r /\ exists n, collected (view_of s) r 0 e n)
    /\ home_ok nths d0 l' (view_of s) r (if lp_idle (lp_pc l' r) then CDrop k b n rs' (append_outcome (lp_pc (n_lp s) r))
                                         else CApp k b n rs').
Proof.
  intros Ep E Hc. pose proof my_home as Hh. rewrite Ep in Hh. cbn in Hh. destruct Hh as (Hn & Hh).
  pose proof (ni_lp _ _ _ _ Hinv) as Hlp. pose proof (ni_data _ _ _ _ Hinv r x Hx) as Hd.
  destruct (step_facts _ _ _ Hlp E) as (p & p' & e & Hp & Hp' & El & Hlp' & Hext & Epc & Epc' & _ & Hnp & He).
  pose proof (done_mono size d0 Hgc _ _ _ _ Hlp Hlp' E Hd) as Hdm. rewrite Epc, Epc' in *. exists e. split; [done|].
  destruct Hh as [(Hb & Hcl & Hco & ->)|(t & Hb & Hf & Hr)].
  - assert (rs' = []) as -> by (by eapply (combine_clean size d0 Hgc (n_lp s) l' r (q_data x))). rewrite El in Hp'.
    destruct (run_before size b _ _ _ _ Hlp Hp Hb Hp' Hnp) as [[Hh Hcase]|(Hh & Ha & Hdn)]; rewrite <- El in *.
    + assert (Hcl' : clean l' (view_of s) r) by (by eapply clean_done). split; [left; auto|].
      destruct Hcase as [Hbb|[Hi ->]].
      * replace (lp_idle (p_pc p')) with false by (by destruct (p_pc p')). cbn. rewrite Epc'. split; [done|]. left. by split_and!.
      * rewrite Hi. cbn. rewrite Epc', Hi. by split_and!.
    + assert (e = b) as ->.
      { pose proof (hist_ext _ _ _ _ Hext) as H. rewrite Hh in H. apply app_inv_head, (f_equal (map fst)) in H.
        rewrite !map_map in H. cbn in H. by rewrite !map_id in H. }
      split; [by right; eauto|]. replace (lp_idle (p_pc p')) with false by (by destruct (p_pc p')). cbn. split; [done|].
      right. exists (length (g_hist (n_lp s))). rewrite Epc'. split; [done|].
      eapply (reserve_flight s); try done. destruct (at_some _ _ _ Hp) as (-> & _). by destruct (at_some _ _ _ Hp') as (-> & _).
  - rewrite El in Hp'. destruct (run_after size b t _ _ _ _ Hlp Hp Hb Hp' Hnp) as [Hh Hcase]; rewrite <- El in *.
    split; [left; auto|]. assert (Hf' : flight l' (view_of s) r 0 t b n) by (by eapply flight_done).
    assert (Hr' : results_ok d0 l' r t b rs') by (by eapply (combine_flight size d0 Hgc (n_lp s) l' r (q_data x))).
    destruct Hcase as [Hbb|[Hi Ho]].
    + replace (lp_idle (p_pc p')) with false by (by destruct (p_pc p')). cbn. rewrite Epc'. split; [done|]. right. by exists t.
    + rewrite Hi. cbn. rewrite Epc', Hi. split_and!; try done. destruct (append_outcome (p_pc p)); eauto; done.
Qed.

Lemma cap_inv k b n rs : t_pc th = CApp k b n rs -> ninv (step_log size s r i th x q).
Proof.
  intros Ep. unfold step_log. rewrite Ep. pose proof (ni_lp _ _ _ _ Hinv) as Hlp. pose proof (ni_data _ _ _ _ Hinv r x Hx) as Hd.
  destruct (lp_next size (n_lp s) (LStep r)) as [l'|] eqn:E; [|done].
  pose proof (lp_next_inv size Hpow Hgc _ _ _ Hlp E) as Hlp'.
  destruct (combine_call (n_lp s) l' r (q_data x) rs) as [[d' rs']| |] eqn:Hc.
  2,3: apply goto_panic; try done; [by rewrite Ep|eapply (combine_panics size d0 Hgc (n_lp s) l' r (q_data x)); try done; intros y; by rewrite Hc].
  destruct (app_step k b n rs l' d' rs' Ep E Hc) as (e & Hext & Hb & Hh).
  assert (Hg : guards (r, i) (t_pc th) r) by (left; by rewrite Ep).
  eapply (ninv_run size nths d0 Hpow Hgc s (r, i) th _ r x); try done; plain_side Ep.
  1,2,3,4: destruct (lp_idle (lp_pc l' r)); plain_side Ep.
  - by eapply (combine_data size d0 Hgc (n_lp s) l' r (q_data x)).
  - eapply th_plain; try done; [apply my_th|..]; try (destruct (lp_idle (lp_pc l' r)); by plain_side Ep).
Qed.

(** After [GcFailed] a thread does not combine. *)
Lemma combine_kont k : pc_op (t_pc th) = Some (kont_op k) -> (forall a, sample_ok d0 (n_lp s) r a (t_pc th) -> kont_sample (n_lp s) a k) ->
  k <> KW true.
Proof.
  intros Ho Hs ->. pose proof (to_call _ _ _ _ _ _ _ my_th) as Hc. unfold call_ok in Hc. rewrite Ho in Hc.
  destruct Hc as (y & _ & _ & _ & Hsa & _). by specialize (Hs _ Hsa).
Qed.

Lemma drop_goto k b n rs e p' : t_pc th = CDrop k b n rs e -> lp_pc (n_lp s) r = PIdle -> reading p' = false ->
  (forall r', holds_lock (r, i) p' r' -> r' = r) -> (forall r', guards (r, i) p' r' -> False) ->
  th_ok nths d0 (n_lp s) (view_of s) (n_ops s) (r, i) (mkT p' (t_ctx th) (t_id th)) ->
  ninv (goto_rep s r i th p' r (set_wlock x false)).
Proof.
  intros Ep Hi H1 H2 H3 H4. assert (Hg : guards (r, i) (t_pc th) r) by (left; by rewrite Ep).
  apply (ninv_rep size nths d0 Hgc s (r, i) th p' r x); try done.
  - apply (locks_drop size nths d0); try done. intros r' Hr'. rewrite (H2 r' Hr'). by apply guards_holds.
  - cbn. intros H0. by destruct (guarded_locked size nths d0 s (r, i) th r x Hinv Hk Hx Hg).
  - by rewrite Ep.
Qed.

Lemma drop_inv k b n rs e : t_pc th = CDrop k b n rs e -> ninv (step_log size s r i th x q).
Proof.
  intros Ep. pose proof my_home as Hh. rewrite Ep in Hh. cbn in Hh. destruct Hh as (Hn & Hi & Hh).
  assert (Hkt : k <> KW true) by (apply combine_kont; by rewrite Ep).
  assert (He : e = NoSpace \/ e <> NoSpace) by (destruct e; [by left|by right|by right]).
  unfold step_log. rewrite Ep. destruct He as [->|He].
  - assert (Hcase : after_combine r k NoSpace q = TPanic (RO := RO) (WO := WO) (R := R) PNamed
      \/ exists z, after_combine r k NoSpace q = SLoad (RO := RO) (WO := WO) (R := R) q 0 z /\ zkont_lock z = true /\ zkont_w z = kont_w k
           /\ zkont_op z = Some (kont_op k)).
    { destruct k as [[]|o c|o c]; cbn; [done|right; by exists ZCombine|..]; (destruct (q =? r); [by left|right; by exists (ZLocked o)]). }
    destruct Hcase as [-> |(z & -> & Hz1 & Hz2 & Hz3)]; apply (drop_goto k b n rs NoSpace); try done.
    + by intros r' [[_ ?]|?].
    + by intros r' [[_ ?]|?].
    + apply (th_halt nths d0 (n_lp s) (n_lp s) 0 [] (view_of s)); try done; [apply ext_refl|apply my_th|by rewrite Ep].
    + by intros r' [[? _]|?].
    + by intros r' [[_ ?]|?].
    + apply (th_plain nths d0 (n_lp s) (n_lp s) 0 [] (view_of s)); try done; try (rewrite Ep; done); [apply ext_refl|apply my_th|..].
      * cbn. by rewrite Hz1.
      * intros _. unfold own_ok. cbn. destruct z as [| | |c []]; try done.
  - replace (match e with NoSpace => after_combine r k NoSpace q | _ => CExecW k b n rs e end) with (CExecW k b n rs e) by (by destruct e).
    apply (drop_goto k b n rs e); try done.
    + by intros r' [[? _]|?].
    + by intros r' [[_ ?]|?].
    + apply (th_plain nths d0 (n_lp s) (n_lp s) 0 [] (view_of s)); try done; plain_side Ep; [apply ext_refl|apply my_th|].
      cbn. split_and!; try done. by destruct e.
Qed.

Lemma execw_inv k b n rs e : t_pc th = CExecW k b n rs e -> ninv (step_log size s r i th x q).
Proof.
  intros Ep. pose proof my_home as Hh. rewrite Ep in Hh. cbn in Hh. destruct Hh as (Hn & He & Hi & t & Hf & Hr).
  unfold step_log. rewrite Ep. destruct (can_write x) eqn:Hw; [|done].
  destruct (lp_next size (n_lp s) (LExec r)) as [l'|] eqn:E; [|done].
  eapply (ninv_take size nths d0 Hpow Hgc s (r, i) th _ r x); try done; plain_side Ep.
  intros Hext Hh Hd. eapply th_plain; try done; plain_side Ep; [apply my_th|]. cbn. split_and!; try done. exists t.
  rewrite (exec_pc _ _ _ E). split_and!; try done; [eapply flight_done; try done; lia|].
  destruct Hr as [Hr1 Hr2]. split; [by rewrite Hd|by rewrite Hh].
Qed.

(** ** [exec] *)

Lemma exec_step k b n rs e l' d' rs' : t_pc th = CExec k b n rs e -> lp_next size (n_lp s) (LStep r) = Some l' ->
  combine_call (n_lp s) l' r (q_data x) rs = Ret (d', rs') ->
  lp_ext r (n_lp s) l' []
    /\ home_ok nths d0 l' (view_of s) r (if lp_idle (lp_pc l' r) then CExecD k b n rs' e else CExec k b n rs' e).
Proof.
  intros Ep E Hc. pose proof my_home as Hh. rewrite Ep in Hh. cbn in Hh. destruct Hh as (Hn & Hne & t & Hf & Hr & Hb & Hu).
  pose proof (ni_lp _ _ _ _ Hinv) as Hlp. pose proof (ni_data _ _ _ _ Hinv r x Hx) as Hd.
  destruct (step_facts _ _ _ Hlp E) as (p & p' & e' & Hp & Hp' & El & Hlp' & Hext & Epc & Epc' & Elt & Hnp & He).
  pose proof (done_mono size d0 Hgc _ _ _ _ Hlp Hlp' E Hd) as Hdm. rewrite Epc, Epc' in *.
  assert (Hup : unpub (p_pc p) = None) by (by destruct (p_pc p)).
  assert (Hku : kont_upto k <= g_commit (n_lp s)).
  { pose proof (to_call _ _ _ _ _ _ _ my_th) as Hcall. unfold call_ok in Hcall. rewrite Ep in Hcall.
    destruct Hcall as (y & _ & _ & _ & Hs & _). pose proof (li_order _ _ Hlp). destruct k; cbn in *; lia. }
  pose proof (batch_published _ _ _ _ _ _ _ _ Hlp Hp Hup Hf) as Hbu. rewrite El in Hp'.
  destruct (run_exec size _ _ _ _ _ Hlp Hp Hb Hbu Hp' Hnp) as [Hh Hcase1].
  destruct (run_exec size _ _ _ _ _ Hlp Hp Hu Hku Hp' Hnp) as [_ Hcase2]. rewrite <- El in *.
  rewrite (He Hh) in Hext. split; [done|].
  assert (Hf' : flight l' (view_of s) r 0 t b n) by (by eapply flight_done).
  assert (Hr' : results_ok d0 l' r t b rs') by (by eapply (combine_flight size d0 Hgc (n_lp s) l' r (q_data x))).
  destruct Hcase1 as [H1|[Hi H1]].
  - replace (lp_idle (p_pc p')) with false by (by destruct (p_pc p')). cbn. rewrite Epc'. split_and!; try done. exists t.
    split_and!; try done. destruct Hcase2 as [?|[Hi _]]; [done|]. by rewrite Hi in H1.
  - destruct Hcase2 as [H2|[_ H2]]; [by rewrite Hi in H2|]. rewrite Hi. cbn. split; [done|]. unfold delivering.
    rewrite Elt, Epc', Hi. split_and!; try done. by exists t.
Qed.

Lemma cexec_inv k b n rs e : t_pc th = CExec k b n rs e -> ninv (step_log size s r i th x q).
Proof.
  intros Ep. unfold step_log. rewrite Ep. pose proof (ni_lp _ _ _ _ Hinv) as Hlp. pose proof (ni_data _ _ _ _ Hinv r x Hx) as Hd.
  destruct (lp_next size (n_lp s) (LStep r)) as [l'|] eqn:E; [|done].
  pose proof (lp_next_inv size Hpow Hgc _ _ _ Hlp E) as Hlp'.
  destruct (combine_call (n_lp s) l' r (q_data x) rs) as [[d' rs']| |] eqn:Hc.
  2,3: apply goto_panic; try done; [by rewrite Ep|eapply (combine_panics size d0 Hgc (n_lp s) l' r (q_data x)); try done; intros y; by rewrite Hc].
  destruct (exec_step k b n rs e l' d' rs' Ep E Hc) as (Hext & Hh).
  assert (Hg : guards (r, i) (t_pc th) r) by (left; by rewrite Ep).
  eapply (ninv_run size nths d0 Hpow Hgc s (r, i) th _ r x); try done; plain_side Ep.
  1,2,3,4: destruct (lp_idle (lp_pc l' r)); plain_side Ep.
  - by eapply (combine_data size d0 Hgc (n_lp s) l' r (q_data x)).
  - eapply th_plain; try done; [apply my_th|..]; try (destruct (lp_idle (lp_pc l' r)); by plain_side Ep).
Qed.

Lemma execd_inv k b n rs e : t_pc th = CExecD k b n rs e -> ninv (step_log size s r i th x q).
Proof.
  intros Ep. pose proof my_home as Hh. rewrite Ep in Hh. cbn in Hh. destruct Hh as (He & Hdel).
  unfold step_log. rewrite Ep. assert (Hg : guards (r, i) (t_pc th) r) by (left; by rewrite Ep).
  assert (Hi : lp_pc (n_lp s) r = PIdle) by (destruct Hdel as (_ & _ & _ & t & _ & _ & _ & ?); done).
  apply (ninv_rep size nths d0 Hgc s (r, i) th _ r x); try done; plain_side Ep.
  - apply (locks_drop size nths d0); try done; plain_side Ep.
  - cbn. intros H0. by destruct (guarded_locked size nths d0 s (r, i) th r x Hinv Hk Hx Hg).
  - apply (th_plain nths d0 (n_lp s) (n_lp s) 0 [] (view_of s)); try done; plain_side Ep; [apply ext_refl|apply my_th|].
    cbn. split_and!; try done. lia.
Qed.

Lemma step_log_inv : ninv (step_log size s r i th x q).
Proof.
  destruct (t_pc th) eqn:Ep; try (unfold step_log; rewrite Ep; done).
  - by eapply write_inv.
  - by eapply cap_inv.
  - by eapply drop_inv.
  - by eapply execw_inv.
  - by eapply cexec_inv.
  - by eapply execd_inv.
Qed.
End Move.
End Combine.
