(* ===== verification/NrConcRespond.v ===== *)
(** * Steps preserve the invariant: handing out responses

    The last part of [combine], with [enqueue_resps], and the release of the lock. *)

From stdpp Require Import gmap.
From S2P Require Import Prelude Context Log LogProtocol LogProtocolSpec Replica NrConc NrConcSpec.
From S2P Require Import NrConcLog NrConcFrame NrConcStep NrConcCtx NrConcCollect NrConcRun NrConcCombine.

Section Respond.
Context {D RO WO R : Type} `{!Dispatch D RO WO R}.
Variables (size : nat) (nths : nat -> nat) (d0 : D).
Hypothesis Hpow : is_pow2 size.
Hypothesis Hgc : GC_FROM_HEAD <= size.
Abbreviation lop := (WO * nat)%type.
Abbreviation context := (Context lop R unit).
Abbreviation lsys := (lpsys (O := lop)).
Abbreviation pc := (tpc (RO := RO) (WO := WO) (R := R)).
Abbreviation thr := (thr (RO := RO) (WO := WO) (R := R)).
Abbreviation nsys := (nsys (D := D) (RO := RO) (WO := WO) (R := R)).
Abbreviation pview := (gmap (nat * nat) (context * nat)).
Abbreviation ninv := (ninv size nths d0).
Implicit Types (l : lsys) (p : pc) (th : thr) (s : nsys) (r i id t : nat) (c : context) (pv : pview).

(** ** The contexts of a replica change in the hands of its combiner *)

Lemma th_ok_other l pv pv' ops r k th : th_ok nths d0 l pv ops k th -> ~ holds_lock k (t_pc th) r ->
  (forall r' j, r' <> r -> pv' !! (r', j) = pv !! (r', j)) -> th_ok nths d0 l pv' ops k th.
Proof.
  intros [H1 H2 H3 H4 H5 H6 H7 H8] Hn Hv. split; try done.
  - destruct (home_lock (t_pc th)) eqn:Eh; [|by apply home_free]. eapply home_view_ne; [|done].
    intros j. apply Hv. intros E. apply Hn. by left.
  - intros q Hq. eapply clean_view_ne; [|by apply H4]. intros j. apply Hv. intros ->. apply Hn. by right.
Qed.

(** A thread whose operation waits claims nothing of its response. *)
Lemma own_ctx i th c' : own_ok i th -> ~ served (t_ctx th) -> own_ok i (mkT (t_pc th) c' (t_id th)).
Proof. unfold own_ok. cbn. intros H Hn. repeat case_match; try done; naive_solver. Qed.

Lemma th_ok_ctx l pv ops k th c' : th_ok nths d0 l pv ops k th -> ctx_ok d0 l ops k.1 (mkT (t_pc th) c' (t_id th)) ->
  ~ served (t_ctx th) -> th_ok nths d0 l pv ops k (mkT (t_pc th) c' (t_id th)).
Proof. intros [H1 H2 H3 H4 H5 H6 H7 H8] Hc Hn. split; try done. by apply own_ctx. Qed.

Lemma ninv_serve s r i th j tj c' p' :
  ninv s -> n_ths s !! (r, i) = Some th -> n_ths s !! (r, j) = Some tj ->
  home_lock (t_pc th) = true -> home_lock p' = true -> sync_lock p' = None -> (forall q, ~ guards (r, i) p' q) ->
  reading p' = false -> plain (t_pc th) = true -> plain p' = true -> waiting p' = waiting (t_pc th) ->
  pc_op p' = pc_op (t_pc th) -> (forall a, sample_ok d0 (n_lp s) r a (t_pc th) -> sample_ok d0 (n_lp s) r a p') ->
  ctx_tail c' = ctx_tail (t_ctx tj) -> ctx_head c' = ctx_head (t_ctx tj) -> ~ served (t_ctx tj) ->
  own_ok i (mkT p' (t_ctx (if bool_decide (j = i) then mkT (t_pc tj) c' (t_id tj) else th)) (t_id th)) ->
  ctx_ok d0 (n_lp s) (n_ops s) r (mkT (t_pc tj) c' (t_id tj)) ->
  home_ok nths d0 (n_lp s) (<[(r, j) := (c', t_id tj)]> (view_of s)) r p' ->
  ninv (set_thread (set_thread s (r, j) (mkT (t_pc tj) c' (t_id tj))) (r, i)
    (mkT p' (t_ctx (if bool_decide (j = i) then mkT (t_pc tj) c' (t_id tj) else th)) (t_id th))).
Proof.
  intros Hinv Hk Hj Hl Hl' Hs Hg Hr Hp Hp' Hw Hop Hsa Ht Hhd Hsv Hown Hc Hh.
  set (tj' := mkT (t_pc tj) c' (t_id tj)). set (me := if bool_decide (j = i) then tj' else th).
  destruct (thread_replica size nths d0 s r i th Hinv Hk) as [x Hx]. pose proof (ni_locks _ _ _ _ Hinv) as Hlo.
  assert (Hk1 : <[(r, j) := tj']> (n_ths s) !! (r, i) = Some me).
  { unfold me. case_bool_decide as E; [subst; by rewrite lookup_insert_eq|]. rewrite lookup_insert_ne; [done|congruence]. }
  assert (Eme : t_pc me = t_pc th /\ t_id me = t_id th).
  { unfold me. case_bool_decide as E; [|done]. assert (tj = th) as -> by congruence. done. }
  destruct Eme as [Eme1 Eme2].
  assert (Hlive : live (mkT p' (t_ctx me) (t_id th)) -> live me) by (unfold live; cbn; by rewrite Hop, Eme1).
  assert (Hlivej : live tj' -> live tj) by (unfold live; cbn; by rewrite Ht, Hhd).
  assert (Hv : view_of (set_thread (set_thread s (r, j) tj') (r, i) (mkT p' (t_ctx me) (t_id th)))
               = <[(r, j) := (c', t_id tj)]> (view_of s)).
  { unfold view_of. cbn. rewrite !fmap_insert, insert_id; [done|].
    rewrite <- fmap_insert, lookup_fmap, Hk1. cbn. unfold th_view. by rewrite Eme2. }
  assert (Hvne : forall r' j', r' <> r -> <[(r, j) := (c', t_id tj)]> (view_of s) !! (r', j') = view_of s !! (r', j'))
    by (intros r' j' Hne; rewrite lookup_insert_ne; congruence).
  assert (Hcall : call_ok d0 (n_lp s) (n_ops s) r (mkT p' (t_ctx me) (t_id th))).
  { pose proof (to_call _ _ _ _ _ _ _ (ni_th _ _ _ _ Hinv _ _ Hk)) as H. unfold call_ok in *. cbn in *. rewrite Hop.
    destruct (pc_op (t_pc th)) as [o|]; [|done]. destruct H as (y & ? & ? & ? & ? & Ho). exists y. split_and!; auto.
    destruct o as [u|o]; [|done]. destruct Ho as (w & ? & _). exists w. split; [done|]. by destruct p'. }
  split; rewrite ?Hv; cbn [n_lp n_reps n_ths n_ops set_thread]; try (by apply Hinv).
  - intros r' i'. rewrite (ths_insert_iff (set_thread s (r, j) tj') _ me) by done. cbn [n_ths set_thread].
    rewrite (ths_insert_iff s _ tj) by done. apply Hinv.
  - intros r' x' Hx' H0. destruct (decide (r' = r)) as [->|Hne].
    + destruct (lo_free _ _ Hlo r x' (r, i) th Hx' H0 Hk). by left.
    + eapply clean_view_ne; [|by eapply ni_clean]. intros j'. by apply Hvne.
  - apply (locks_goto _ _ (r, i) me); [|done|by eexists|..]; cbn [t_pc].
    + apply (locks_goto _ _ (r, j) tj); try done.
    + intros q [[<- _]|Hq]; [|congruence]. left. by rewrite Eme1.
    + intros q Hq. by destruct (Hg q).
    + by rewrite Hr.
  - apply (ids_insert _ (r, i) me); [|done|done|done]. apply (ids_insert _ (r, j) tj); try done. exact (ni_ids _ _ _ _ Hinv).
  - intros k2 th2 [[<- <-]|[Hne Hk2]]%lookup_insert_Some.
    + split; cbn; try done; [|congruence|by intros q z ->|by intros q z ->|by intros ->].
      apply ctx_plain; [done|]. cbn. rewrite Hw. unfold me. case_bool_decide as E.
      * assert (tj = th) as -> by congruence. by apply ctx_plain in Hc.
      * pose proof (to_ctx _ _ _ _ _ _ _ (ni_th _ _ _ _ Hinv _ _ Hk)) as H. by apply ctx_plain in H.
    + assert (Hnh : forall th', n_ths s !! k2 = Some th' -> ~ holds_lock k2 (t_pc th') r).
      { intros th' Hth' H. apply Hne. eapply (lo_uniq _ _ Hlo r); eauto. by left. }
      apply lookup_insert_Some in Hk2 as [[<- <-]|[_ Hk2]].
      * apply th_ok_ctx; [|done|done]. eapply (th_ok_other _ _ _ _ r); [by eapply ni_th|by apply Hnh|done].
      * eapply (th_ok_other _ _ _ _ r); [by eapply ni_th|by apply Hnh|done].
Qed.

(** ** Deliveries *)

Lemma idle_done l r : lp_pc l r = PIdle -> done_of l r = ltail_at l r.
Proof.
  unfold lp_pc, done_of, ltail_at. destruct (g_reps l !! r) as [p|]; [|done]. unfold done_upto. by intros ->.
Qed.

Lemma sum_take_S (n : list nat) j m : n !! j = Some m -> sum_list (take (S j) n) = sum_list (take j n) + m.
Proof. intros H. rewrite (take_S_r _ _ _ H), sum_list_with_app. cbn. unfold id. lia. Qed.

Lemma sum_take_le (n : list nat) j : sum_list (take j n) <= sum_list n.
Proof. rewrite <- (take_drop j n) at 2. rewrite sum_list_with_app. lia. Qed.

Lemma delivering_length l pv r k b n rs j u : delivering nths d0 l pv r k b n rs j u -> length rs = length b.
Proof.
  intros (_ & _ & _ & t & _ & [Hl _] & Hb & Hi). rewrite (idle_done _ _ Hi) in Hl. destruct b as [|o b]; [done|].
  unfold batch_end in Hb. lia.
Qed.

Lemma flight_count l pv r j0 t b n j m : flight l pv r j0 t b n -> n !! j = Some m -> m = 0 \/ m = 1.
Proof. intros ((_ & H) & _) Hj. destruct (H j m Hj) as [?|[? _]]; auto. Qed.

Lemma delivering_count l pv r k b n rs j0 u j m : delivering nths d0 l pv r k b n rs j0 u -> n !! j = Some m -> m = 0 \/ m = 1.
Proof. intros (_ & _ & _ & t & Hf & _). by eapply flight_count. Qed.

(** Everyone has been served. *)
Lemma delivering_clean l pv r k b n rs j u : delivering nths d0 l pv r k b n rs j u -> n !! j = None -> clean l pv r.
Proof.
  intros (_ & _ & _ & t & (_ & _ & Hu & Ho) & _ & Hb & Hi) Hn. split.
  - intros i c id Hun Hin. destruct (Hu i c id Hun Hin) as [Hle H1]. apply lookup_lt_Some in H1. apply lookup_ge_None in Hn. lia.
  - intros q e Hq. rewrite (idle_done _ _ Hi) in *. destruct (Ho q e Hq) as [?|Hr]; [done|].
    destruct b as [|o b]; cbn in Hr, Hb; lia.
Qed.

(** A thread without operations is skipped. *)
Lemma delivering_skip l pv r k b n rs j u : delivering nths d0 l pv r k b n rs j u -> n !! j = Some 0 ->
  delivering nths d0 l pv r k b n rs (S j) u.
Proof.
  intros (H1 & H2 & -> & t & ((Hl & Hc) & Hb & Hu & Ho) & H3 & H4 & H5) Hj. split_and!; try done.
  { rewrite (sum_take_S _ _ _ Hj). lia. }
  exists t. split_and!; try done. split_and!; try done.
  - split; [done|]. intros j' m Hm. destruct (Hc j' m Hm) as [?|(? & o & ? & Hx)]; [by left|]. right. split; [done|]. exists o.
    split; [done|]. intros Hle. apply Hx. lia.
  - intros i c id Hun Hin. destruct (Hu i c id Hun Hin) as [Hle Hi]. split; [|done].
    destruct (decide (i = j)) as [->|]; [congruence|lia].
Qed.

(** The thread whose turn it is. *)
Lemma delivering_thread s r k b n rs j u : delivering nths d0 (n_lp s) (view_of s) r k b n rs j u -> n !! j = Some 1 ->
  exists tj o, n_ths s !! (r, j) = Some tj /\ b !! u = Some o /\ unserved (view_of s) r j (t_ctx tj) (t_id tj)
    /\ t_id tj = o.2 /\ ctx_op (t_ctx tj) (ctx_head (t_ctx tj)) = Some o /\ u < length rs.
Proof.
  intros Hd Hj. pose proof (delivering_length _ _ _ _ _ _ _ _ _ Hd) as Hlen.
  destruct Hd as (_ & _ & -> & t & ((Hl & Hc) & _) & _). destruct (Hc j 1 Hj) as [?|(_ & o & Ho & Hx)]; [done|].
  destruct (Hx (le_n _)) as (c & Hu & Hop). destruct (view_lookup s (r, j) c o.2) as (tj & Htj & <- & E); [apply Hu|].
  exists tj, o. rewrite E. split_and!; try done. rewrite Hlen. by eapply lookup_lt_Some.
Qed.

Section View.
Context (pv : pview) (r j : nat) (c c' : context) (id : nat).
Hypothesis Hu : unserved pv r j c id.
Abbreviation pv' := (<[(r, j) := (c', id)]> pv).

Lemma serve_other i cx id' : i <> j -> unserved pv' r i cx id' <-> unserved pv r i cx id'.
Proof. intros Hne. unfold unserved. rewrite lookup_insert_ne; [done|congruence]. Qed.

(** The response is written. *)
Lemma delivering_put l k b n rs u : ctx_head c' = ctx_head c -> ctx_comb c' = ctx_comb c -> ctx_tail c' = ctx_tail c ->
  ctx_op c' (ctx_head c) = ctx_op c (ctx_head c) ->
  delivering nths d0 l pv r k b n rs j u -> delivering nths d0 l pv' r k b n rs j u.
Proof.
  intros E1 E2 E3 E4 (H1 & H2 & H3 & t & ((Hl & Hc) & Hb & Hun & Ho) & H4 & H5 & H6). split_and!; try done.
  assert (Hu' : unserved pv' r j c' id) by (destruct Hu as (? & ? & ?); split_and!; [by rewrite lookup_insert_eq|lia|lia]).
  exists t. split_and!; try done. split_and!; try done.
  - split; [done|]. intros j' m Hm. destruct (Hc j' m Hm) as [?|(? & o & ? & Hx)]; [by left|]. right. split; [done|]. exists o.
    split; [done|]. intros Hle. destruct (Hx Hle) as (cx & Hux & Hop). destruct (decide (j' = j)) as [->|Hne].
    + exists c'. destruct Hu as (Hv & _), Hux as (Hv' & _). rewrite Hv in Hv'. injection Hv' as <- <-. by rewrite E1, E4.
    + exists cx. by rewrite serve_other.
  - intros i cx id' Hux Hin. destruct (decide (i = j)) as [->|Hne]; [|apply (Hun i cx id'); [by apply serve_other|done]].
    destruct Hux as (Hv & _). rewrite lookup_insert_eq in Hv. injection Hv as <- <-. by eapply Hun.
Qed.

(** The response is handed over. *)
Lemma delivering_next l k b n rs u : n !! j = Some 1 -> ctx_comb c' <> ctx_head c' ->
  delivering nths d0 l pv r k b n rs j u -> delivering nths d0 l pv' r k b n rs (S j) (S u).
Proof.
  intros Hj Hw (H1 & H2 & -> & t & ((Hl & Hc) & Hb & Hun & Ho) & H4 & H5 & H6). split_and!; try done.
  { rewrite (sum_take_S _ _ _ Hj). lia. }
  exists t. split_and!; try done. split_and!; try done.
  - split; [done|]. intros j' m Hm. destruct (Hc j' m Hm) as [?|(? & o & ? & Hx)]; [by left|]. right. split; [done|]. exists o.
    split; [done|]. intros Hle. destruct Hx as (cx & Hux & Hop); [lia|]. exists cx. by rewrite serve_other by lia.
  - intros i cx id' Hux Hin. destruct (decide (i = j)) as [->|Hne].
    + destruct Hux as (Hv & Hcc & _). rewrite lookup_insert_eq in Hv. injection Hv as <- <-. done.
    + destruct (Hun i cx id'); [by apply serve_other|done|]. split; [lia|done].
Qed.
End View.

(** The context of a thread that is served. *)
Lemma ctx_serve l ops r th c' : ctx_ok d0 l ops r th -> ctx_tail (t_ctx th) = S (ctx_head (t_ctx th)) ->
  length (batch c') = MAX_PENDING_OPS -> pending_ok d0 l ops r c' (t_id th) ->
  (ctx_comb (t_ctx th) <> ctx_head (t_ctx th) -> ctx_comb c' <> ctx_head c') ->
  ctx_ok d0 l ops r (mkT (t_pc th) c' (t_id th)).
Proof.
  clear Hpow Hgc size nths. intros [Hl H] Ht Hl' Hp Hc. split; cbn; [done|].
  assert (Hn : ~ quiet (t_ctx th)) by (unfold quiet; lia).
  destruct (t_pc th); cbn in H |- *; try done; try (by destruct (kont_w _)); try (by destruct (ykont_w _));
    try (by destruct (zkont_w _)); naive_solver.
Qed.

Section Move.
Context (s : nsys) (r i : nat) (th : thr) (x : rst (D := D)) (q : nat).
Hypothesis Hinv : ninv s.
Hypothesis Hk : n_ths s !! (r, i) = Some th.
Hypothesis Hx : n_reps s !! r = Some x.
Abbreviation my_th := (ni_th size nths d0 s Hinv (r, i) th Hk).
Abbreviation my_home := (to_home nths d0 _ _ _ _ _ my_th).

Lemma resp_inv k b n rs e j u : t_pc th = CResp k b n rs e j u -> ninv (step_respond s r i th x q).
Proof.
  intros Ep. pose proof my_home as Hh. rewrite Ep in Hh. cbn in Hh. destruct Hh as (He & Hj & Hd).
  unfold step_respond. rewrite Ep. destruct (n !! j) as [m|] eqn:Hm.
  - destruct (delivering_count _ _ _ _ _ _ _ _ _ _ _ Hd Hm) as [-> | ->]; cbn.
    + apply goto_plain; try done; plain_side Ep.
      * cbn. rewrite Nat.add_1_r. split_and!; try done; [|by apply delivering_skip].
        destruct Hd as (_ & <- & _). apply lookup_lt_Some in Hm. lia.
      * unfold own_ok. cbn. rewrite Ep. destruct k; [|done|done]. intros [?|[Hi Hle]]; [by left|]. right.
        split; [done|]. destruct (decide (i = j)) as [->|]; [congruence|lia].
    + destruct (delivering_thread _ _ _ _ _ _ _ _ Hd Hm) as (tj & o & _ & _ & _ & _ & _ & Hlt).
      destruct (Nat.leb_spec (u + 1) (length rs)); [|lia].
      apply goto_plain; try done; plain_side Ep.
  - apply goto_plain; try done; plain_side Ep; [cbn; split_and!; [by eapply delivering_clean|done|apply Hd]|].
    unfold own_ok. cbn. rewrite Ep. destruct k; [|done|done]. intros [?|[Hi Hle]]; [done|].
    apply lookup_ge_None in Hm. apply lookup_lt_Some in Hi. lia.
Qed.

Lemma put_inv k b n rs e j u v : t_pc th = CPut k b n rs e j u v -> ninv (step_respond s r i th x q).
Proof.
  intros Ep. pose proof my_home as Hh. rewrite Ep in Hh. cbn in Hh. destruct Hh as (He & Hn & Hh).
  unfold step_respond. rewrite Ep, Hn. destruct Hh as [(-> & Hu & Hd)|(-> & Hd)]; cbn.
  - destruct (delivering_thread _ _ _ _ _ _ _ _ Hd Hn) as (tj & o & Htj & Ho & Hun & Hid & Hop & _).
    rewrite Htj, Nat.add_0_r. destruct (lookup_lt_is_Some_2 rs u Hu) as [w Hw]. rewrite Hw.
    destruct Hun as (Hv & Hcomb & Htail). pose proof (to_ctx _ _ _ _ _ _ _ (ni_th _ _ _ _ Hinv _ _ Htj)) as Hc. cbn in Hc.
    set (c' := slot_put (t_ctx tj) (ctx_comb (t_ctx tj)) (put_resp (Some w))).
    destruct (slot_op (t_ctx tj) (ctx_comb (t_ctx tj)) (put_resp (Some w))) as (en & Hen & Ho' & Hr'); [apply Hc|].
    assert (Hop' : ctx_op c' (ctx_head (t_ctx tj)) = ctx_op (t_ctx tj) (ctx_head (t_ctx tj))).
    { rewrite <- Hcomb. unfold c'. rewrite Ho'. unfold ctx_op at 1. by rewrite Hen. }
    apply ninv_serve; try done; plain_side Ep; try (unfold guards; cbn; intuition congruence).
    + pose proof (to_own _ _ _ _ _ _ _ my_th) as Hown. unfold own_ok in *. cbn. rewrite Ep in Hown. destruct k; [|done|done].
      cbn in Hown. case_bool_decide as E; cbn; [|intuition lia]. assert (tj = th) as -> by congruence.
      destruct Hown as [?|[? ?]]; [done|]. right. split; [done|lia].
    + apply (ctx_serve _ _ _ tj); try done; [cbn; rewrite length_alter; apply Hc|].
      destruct (ctx_pending _ _ _ _ _ Hc Htail) as (_ & (w' & y & Hw' & Hy) & _).
      split_and!; [done| |by left]. exists w', y. change (ctx_head c') with (ctx_head (t_ctx tj)). by rewrite Hop'.
    + cbn. split_and!; try done; [by apply (delivering_put _ _ _ (t_ctx tj))|].
      exists c', (t_id tj), w. split_and!; try done. split_and!; try done. by rewrite lookup_insert_eq.
  - apply goto_plain; try done; plain_side Ep. cbn. rewrite !Nat.add_1_r. split_and!; try done.
    destruct Hd as (_ & <- & _). by apply lookup_lt_Some in Hn.
Qed.

Lemma putc_inv k b n rs e j u v h : t_pc th = CPutC k b n rs e j u v h -> ninv (step_respond s r i th x q).
Proof.
  intros Ep. pose proof my_home as Hh. rewrite Ep in Hh. cbn in Hh.
  destruct Hh as (He & Hn & -> & Hd & c & id & w & Hun & -> & Hw & Hr). unfold step_respond. rewrite Ep.
  destruct (delivering_thread _ _ _ _ _ _ _ _ Hd Hn) as (tj & o & Htj & Ho & Hun' & Hid & Hop & _). rewrite Htj.
  assert (t_ctx tj = c /\ t_id tj = id) as [<- <-] by (destruct Hun as (H1 & _), Hun' as (H2 & _); rewrite H1 in H2; by injection H2).
  pose proof Hun' as (Hv & Hcomb & Htail). pose proof (to_ctx _ _ _ _ _ _ _ (ni_th _ _ _ _ Hinv _ _ Htj)) as Hc. cbn in Hc.
  apply ninv_serve; try done; plain_side Ep; try (unfold guards; cbn; intuition congruence).
  - pose proof (to_own _ _ _ _ _ _ _ my_th) as Hown. unfold own_ok in *. cbn. rewrite Ep in Hown. destruct k; [|done|done].
    cbn in Hown. case_bool_decide as E; cbn; [left; unfold served; cbn; lia|intuition lia].
  - apply (ctx_serve _ _ _ tj); try done; [apply Hc|].
    destruct (ctx_pending _ _ _ _ _ Hc Htail) as (_ & Hp & _). split_and!; [done|done|]. right. split; [cbn; lia|].
    exists w. split; [done|]. destruct Hd as (_ & _ & _ & t & (_ & Hb & _) & [_ Hres] & Hend & _).
    destruct o as [wo ido]. cbn in Hid. rewrite Hid. exists (t + u), wo. split_and!; [by apply Hb| |by apply Hres].
    pose proof (ni_lp _ _ _ _ Hinv) as Hlp. apply lookup_lt_Some in Ho. unfold ltail_at in Hend.
    destruct b as [|o0 b]; [cbn in Ho; lia|]. unfold batch_end in Hend. destruct (g_reps (n_lp s) !! r) as [p|] eqn:Hp'; [|lia].
    pose proof (li_lts _ _ Hlp r p Hp'). lia.
  - cbn. split_and!; try done. right. split; [done|]. apply delivering_next; try done. cbn. lia.
Qed.

Lemma end_goto k e p' : t_pc th = CEnd k e -> home_lock p' = false -> sync_lock p' = None -> reading p' = false ->
  th_ok nths d0 (n_lp s) (view_of s) (n_ops s) (r, i) (mkT p' (t_ctx th) (t_id th)) ->
  ninv (goto_rep s r i th p' r (set_comb x 0)).
Proof.
  intros Ep Hh Hs Hr Ht. apply (ninv_rep size nths d0 Hgc s (r, i) th _ r x); try done.
  - apply (locks_release size nths d0); try done.
    + intros r' [[? ?]|?]; congruence.
    + intros r' Hg%guards_holds. destruct Hg as [[? ?]|?]; congruence.
    + intros [[? ?]|?]; congruence.
    + left. by rewrite Ep.
  - cbn. intros H. by apply (ni_idle _ _ _ _ Hinv r x).
  - intros _. pose proof my_home as Hc. rewrite Ep in Hc. apply Hc.
  - by rewrite Ep.
Qed.

Lemma end_inv k e : t_pc th = CEnd k e -> ninv (step_respond s r i th x q).
Proof.
  intros Ep. pose proof my_home as Hh. rewrite Ep in Hh. cbn in Hh. destruct Hh as (Hc & He & Hu).
  assert (Hkt : k <> KW true) by (apply (combine_kont size nths d0 s r i th); [done..|by rewrite Ep|by rewrite Ep]).
  unfold step_respond. rewrite Ep.
  assert (Hst : forall k', t_pc th = CEnd k' e -> ninv (goto_rep s r i th (TPanic PNamed) r (set_comb x 0))).
  { intros k' Ek. apply (end_goto k' e); try done. pose proof my_th as Ht.
    apply (th_halt nths d0 (n_lp s) (n_lp s) 0 [] (view_of s)); try done; [apply ext_refl|by rewrite Ep]. }
  destruct e, k as [[]|o c|o c]; try done; cbn [after_combine]; try (destruct (q =? r); [by eapply Hst|]);
    apply (end_goto _ _ _ Ep); try done;
    (apply (th_plain nths d0 (n_lp s) (n_lp s) 0 [] (view_of s)); try done; plain_side Ep; [apply ext_refl|apply my_th|..]).
Qed.

Lemma step_respond_inv : ninv (step_respond s r i th x q).
Proof.
  destruct (t_pc th) eqn:Ep; try (unfold step_respond; rewrite Ep; done).
  - by eapply resp_inv.
  - by eapply put_inv.
  - by eapply putc_inv.
  - by eapply end_inv.
Qed.
End Move.
End Respond.
