(* ===== verification/NrConcRead.v ===== *)
(** * Steps preserve the invariant: reads and synchronisation

    [execute] and [execute_locked], [sync] and [try_sync]. *)

From stdpp Require Import gmap.
From S2P Require Import Prelude Context Log LogProtocol LogProtocolSpec Replica NrConc NrConcSpec.
From S2P Require Import NrConcLog NrConcFrame NrConcStep NrConcCtx NrConcCollect NrConcRun NrConcCombine NrConcRespond.

Section Read.
Context {D RO WO R : Type} `{!Dispatch D RO WO R}.
Variables (size : nat) (nths : nat -> nat) (d0 : D).
Hypothesis Hpow : is_pow2 size.
Hypothesis Hgc : GC_FROM_HEAD <= size.
Abbreviation lop := (WO * nat)%type.
Abbreviation context := (Context lop R unit).
Abbreviation lsys := (lpsys (O := lop)).
Abbreviation pc := (tpc (RO := RO) (WO := WO) (R := R)).
Abbreviation thr := (thr (RO := RO) (WO := WO) (R := R)).
Abbreviation nsys := (nsys (D := D) (RO := RO) (WO := WO) (R := R)).
Abbreviation ninv := (ninv size nths d0).
Implicit Types (l : lsys) (th : thr) (s : nsys) (r i id t : nat).

Section Move.
Context (s : nsys) (r i : nat) (th : thr) (x : rst (D := D)).
Hypothesis Hinv : ninv s.
Hypothesis Hk : n_ths s !! (r, i) = Some th.
Hypothesis Hx : n_reps s !! r = Some x.
Abbreviation my_th := (ni_th size nths d0 s Hinv (r, i) th Hk).
Abbreviation my_home := (to_home nths d0 _ _ _ _ _ my_th).
Abbreviation locks := (ni_locks _ _ _ _ Hinv).

(** The call of the thread. *)
Lemma my_call o : pc_op (t_pc th) = Some o -> exists y, n_ops s !! t_id th = Some y /\ o_ret y = None
  /\ o_inv y <= g_ctail (n_lp s) /\ sample_ok d0 (n_lp s) r (o_inv y) (t_pc th).
Proof.
  intros Ho. pose proof (to_call _ _ _ _ _ _ _ my_th) as H. unfold call_ok in H. rewrite Ho in H.
  destruct H as (y & ? & ? & ? & ? & _). by exists y.
Qed.

(** A reader has the data of its local tail. *)
Lemma reader_data : reading (t_pc th) = true ->
  hist_run d0 (take (ltail_at (n_lp s) r) (g_hist (n_lp s))) = Ret (q_data x)
  /\ ltail_at (n_lp s) r <= g_ctail (n_lp s) /\ g_ctail (n_lp s) <= length (g_hist (n_lp s)).
Proof.
  intros Hr. pose proof (lo_readers _ _ locks r x i th Hx Hk Hr) as Hi. pose proof (ni_lp _ _ _ _ Hinv) as Hlp.
  pose proof (li_order _ _ Hlp). pose proof (li_tail _ _ Hlp).
  assert (Hw : q_wlock x = false) by (destruct (lo_excl _ _ locks r x Hx) as [E|?]; [rewrite E in Hi; set_solver|done]).
  rewrite <- (idle_done _ _ (ni_idle _ _ _ _ Hinv r x Hx Hw)) at 1. split_and!; [by eapply ni_data| |lia].
  unfold ltail_at. destruct (g_reps (n_lp s) !! r) as [p|] eqn:Hp; [|lia]. pose proof (li_lts _ _ Hlp r p Hp). lia.
Qed.

(** A read returns. *)
Lemma read_returns o v p x' : pc_op (t_pc th) = Some (inr o) -> plain (t_pc th) = true -> waiting (t_pc th) = false ->
  (forall a, sample_ok d0 (n_lp s) r a (t_pc th) -> a <= p <= g_ctail (n_lp s) /\ read_at d0 (g_hist (n_lp s)) p o v) ->
  q_data x' = q_data x -> q_wlock x' = q_wlock x ->
  locks_ok (<[r := x']> (n_reps s)) (<[(r, i) := mkT TIdle (t_ctx th) (t_id th)]> (n_ths s)) ->
  (q_comb x' = 0 -> clean (n_lp s) (view_of s) r) -> ninv (returns (set_repl s r x') (r, i) th v p).
Proof.
  intros Ho Hp Hw Hs Hd Hwl Hlo Hcl. pose proof (to_call _ _ _ _ _ _ _ my_th) as Hcall. unfold call_ok in Hcall. rewrite Ho in Hcall.
  destruct Hcall as (y & Hy & Hret & Hi & Hsa & Hop). destruct (Hs _ Hsa) as [Hle Hrd].
  pose proof (to_ctx _ _ _ _ _ _ _ my_th) as Hctx. apply ctx_plain in Hctx as [Hlen Hq]; [|done]. rewrite Hw in Hq.
  unfold returns, set_repl. cbn [n_lp n_reps n_ths n_ops].
  refine (ninv_return size nths d0 Hgc (mkN (n_lp s) (<[r := x']> (n_reps s)) (<[(r, i) := mkT TIdle (t_ctx th) (t_id th)]> (n_ths s)) (n_ops s))
    (t_id th) y v p _ _ _ _ _); try done.
  - apply (ninv_rep size nths d0 Hgc s (r, i) th _ r x); try done.
    rewrite Hwl. by apply (ni_idle _ _ _ _ Hinv r x).
  - apply (return_ids size nths d0); try done; [by rewrite Ho|]. intros [?|Hl]; [done|]. unfold quiet in Hq. cbn in Hl. lia.
  - intros v' p' m' [= <- <- <-]. cbn. rewrite Hop. split; [lia|]. split; [lia|done].
Qed.

Lemma read_lock_inv o c b : t_pc th = RLock o c b -> ninv (step_read s r i th x).
Proof.
  intros Ep. pose proof my_home as Hh. rewrite Ep in Hh. cbn in Hh. unfold step_read. rewrite Ep.
  destruct (q_wlock x) eqn:Hw; [done|]. apply (ninv_rep size nths d0 Hgc s (r, i) th _ r x); try done; plain_side Ep.
  - apply (locks_upd _ _ _ th _ _ x); try done; [apply locks|..]; cbn.
    + rewrite Ep. by left.
    + intros H0. split; [by left|]. intros Hh'. apply (lo_free _ _ locks r x (r, i) th Hx H0 Hk). by rewrite Ep.
    + by intros r' [[_ ?]|?].
    + auto.
    + intros _. split; [done|set_solver].
    + set_solver.
    + by right.
  - intros H. by apply (ni_idle _ _ _ _ Hinv r x).
  - intros H. by apply (ni_clean _ _ _ _ Hinv r x).
  - apply (th_plain nths d0 (n_lp s) (n_lp s) 0 [] (view_of s)); try done; plain_side Ep; [apply ext_refl|apply my_th].
Qed.

(** Removing the reader. *)
Lemma locks_unread p' : (forall q, holds_lock (r, i) p' q -> holds_lock (r, i) (t_pc th) q) -> (forall q, ~ guards (r, i) p' q) ->
  reading p' = false ->
  locks_ok (<[r := set_readers x (q_readers x ∖ {[i]})]> (n_reps s)) (<[(r, i) := mkT p' (t_ctx th) (t_id th)]> (n_ths s)).
Proof.
  intros Hh Hg Hr. apply (locks_upd _ _ _ th _ _ x); try done; [apply locks|..]; cbn.
  - auto.
  - intros H0. split; [by left|]. intros Hh'. by apply (lo_free _ _ locks r x (r, i) th Hx H0 Hk), Hh.
  - intros q Hq. by destruct (Hg q).
  - auto.
  - by rewrite Hr.
  - intros j Hj Hne. apply elem_of_difference. split; [done|]. intros ->%elem_of_singleton. done.
  - destruct (lo_excl _ _ locks r x Hx) as [E|?]; [left|by right]. rewrite E. set_solver.
Qed.

Lemma read_drop_inv o v p b : t_pc th = RDrop o v p b -> ninv (step_read s r i th x).
Proof.
  intros Ep. pose proof my_home as Hh. rewrite Ep in Hh. cbn in Hh. unfold step_read. rewrite Ep. destruct b.
  - apply (ninv_rep size nths d0 Hgc s (r, i) th _ r x); try done; plain_side Ep.
    + apply locks_unread; plain_side Ep.
    + intros H. by apply (ni_idle _ _ _ _ Hinv r x).
    + apply (th_plain nths d0 (n_lp s) (n_lp s) 0 [] (view_of s)); try done; plain_side Ep; [apply ext_refl|apply my_th].
  - apply (read_returns o); try done; plain_side Ep.
    + apply locks_unread; plain_side Ep.
    + intros H. by apply (ni_clean _ _ _ _ Hinv r x).
Qed.

Lemma read_end_inv o v p : t_pc th = REnd o v p -> ninv (step_read s r i th x).
Proof.
  intros Ep. pose proof my_home as Hh. rewrite Ep in Hh. cbn in Hh. unfold step_read. rewrite Ep.
  apply (read_returns o); try done; plain_side Ep. apply (locks_release size nths d0); try done; plain_side Ep. by intros [[_ ?]|?].
Qed.

Lemma step_read_inv : ninv (step_read s r i th x).
Proof.
  pose proof my_home as Hh. unfold step_read. destruct (t_pc th) eqn:Ep; try done; cbn in Hh.
  - apply goto_plain; try done; plain_side Ep.
  - destruct (Nat.leb_spec c (ltail_of s r)) as [Hle|Hlt]; apply goto_plain; try done; plain_side Ep.
  - pose proof (read_lock_inv o c held Ep) as H. unfold step_read in H. by rewrite Ep in H.
  - destruct reader_data as (Hd & Hl & Hc); [by rewrite Ep|].
    destruct (dispatch (q_data x) o) as [v| |] eqn:Ed.
    2,3: apply goto_panic; try done; [by rewrite Ep|]; right; exists (q_data x), o; intros y; congruence.
    apply goto_plain; try done; plain_side Ep. rewrite Ep. intros a _ [? ?]. change (ltail_of s r) with (ltail_at (n_lp s) r).
    split; [lia|]. exists (q_data x). split_and!; [done|done|lia].
  - pose proof (read_drop_inv o v p held Ep) as H. unfold step_read in H. by rewrite Ep in H.
  - pose proof (read_end_inv o v p Ep) as H. unfold step_read in H. by rewrite Ep in H.
  - apply goto_plain; try done; plain_side Ep.
  - destruct (Nat.leb_spec c (ltail_of s r)) as [Hle|Hlt]; apply goto_plain; try done; plain_side Ep.
    cbn. split_and!; [done|done|lia|apply collected_nil].
  - destruct (my_call (inr o)) as (y & _ & _ & _ & Hs); [by rewrite Ep|]. rewrite Ep in Hs. destruct Hs as [_ Hle].
    destruct (Nat.leb_spec c (ltail_of s r)) as [_|Hlt]; [|exfalso; apply (Nat.lt_irrefl c); eapply Nat.le_lt_trans; [exact Hle|exact Hlt]].
    apply goto_plain; try done; plain_side Ep.
Qed.
End Move.
End Read.
