(* ===== verification/NrConcInv.v ===== *)
(** * The invariant holds in every reachable state

    [sync] and [try_sync], the labels of the system, and [ninv_reachable]. *)

From stdpp Require Import gmap.
From S2P Require Import Prelude Context Log LogProtocol LogProtocolSpec Replica NrConc NrConcSpec.
From S2P Require Import NrConcLog NrConcFrame NrConcStep NrConcCtx NrConcCollect NrConcRun NrConcCombine NrConcRespond.
From S2P Require Import NrConcRead.

Section Inv.
Context {D RO WO R : Type} `{!Dispatch D RO WO R}.
Variables (size : nat) (nths : nat -> nat) (d0 : D).
Hypothesis Hpow : is_pow2 size.
Hypothesis Hgc : GC_FROM_HEAD <= size.
Abbreviation lop := (WO * nat)%type.
Abbreviation lsys := (lpsys (O := lop)).
Abbreviation thr := (thr (RO := RO) (WO := WO) (R := R)).
Abbreviation nsys := (nsys (D := D) (RO := RO) (WO := WO) (R := R)).
Abbreviation ninv := (ninv size nths d0).
Implicit Types (l : lsys) (th : thr) (s : nsys) (r i id t : nat).

Section Move.
Context (s : nsys) (r i : nat) (th : thr) (q : nat) (y : rst (D := D)).
Hypothesis Hinv : ninv s.
Hypothesis Hk : n_ths s !! (r, i) = Some th.
Hypothesis Hy : n_reps s !! q = Some y.
Abbreviation my_th := (ni_th size nths d0 s Hinv (r, i) th Hk).
Abbreviation my_home := (to_home nths d0 _ _ _ _ _ my_th).
Abbreviation locks := (ni_locks _ _ _ _ Hinv).

(** Going on after [try_sync]. *)
Lemma after_sync_side z : (if zkont_lock z then clean (n_lp s) (view_of s) r else True) ->
  plain (after_sync (WO := WO) (R := R) q z) = true /\ waiting (after_sync (WO := WO) (R := R) q z) = zkont_w z
  /\ pc_op (after_sync (WO := WO) (R := R) q z) = zkont_op z /\ sync_lock (after_sync (RO := RO) (WO := WO) (R := R) q z) = None
  /\ home_lock (after_sync (WO := WO) (R := R) q z) = zkont_lock z /\ reading (after_sync (RO := RO) (WO := WO) (R := R) q z) = false
  /\ (forall k r', ~ guards k (after_sync (RO := RO) (WO := WO) (R := R) q z) r')
  /\ (forall a, sample_ok d0 (n_lp s) r a (after_sync (WO := WO) (R := R) q z))
  /\ home_ok nths d0 (n_lp s) (view_of s) r (after_sync (WO := WO) (R := R) q z).
Proof.
  intros Hc. split_and!; try (by destruct z as [| | |c []]).
  - intros k r' [[_ H]|H]; by destruct z as [| | |c []].
  - destruct z as [| | |c []]; cbn in *; try done. split_and!; [done|done|lia|apply collected_nil].
Qed.

Lemma after_sync_own z : t_pc th = SCas q z \/ t_pc th = SEnd q z \/ (exists j, t_pc th = SLoad q j z) ->
  own_ok i th -> own_ok i (mkT (after_sync q z) (t_ctx th) (t_id th)).
Proof.
  unfold own_ok. intros Ep. destruct Ep as [-> |[-> |[j ->]]]; destruct z as [| | |c []]; cbn; try done; lia.
Qed.

Lemma after_sync_goto z : (t_pc th = SCas q z \/ t_pc th = SEnd q z \/ exists j, t_pc th = SLoad q j z) ->
  plain (t_pc th) = true -> waiting (t_pc th) = zkont_w z -> pc_op (t_pc th) = zkont_op z ->
  home_lock (t_pc th) = zkont_lock z -> (if zkont_lock z then clean (n_lp s) (view_of s) r else True) ->
  ninv (goto s r i th (after_sync q z)).
Proof.
  intros H0 H1 H2 H3 H4 H5. destruct (after_sync_side z H5) as (E1 & E2 & E3 & E4 & E5 & E6 & E7 & E8 & E9).
  apply goto_plain; try done; try congruence.
  - intros q' [[? H]|H]; [left; split; [done|congruence]|congruence].
  - intros q' H. by destruct (E7 (r, i) q').
  - intros q' z' E. by rewrite E in E4.
  - intros q' z' E. by rewrite E in E4.
  - by apply after_sync_own.
Qed.

Lemma scas_inv z : t_pc th = SCas q z -> ninv (step_sync size s r i th y).
Proof.
  intros Ep. pose proof my_home as Hh. rewrite Ep in Hh. cbn in Hh. unfold step_sync. rewrite Ep.
  destruct (Nat.eqb_spec (q_comb y) 0) as [E|E]; [|apply after_sync_goto; try done; rewrite ?Ep; auto].
  apply (ninv_rep size nths d0 Hgc s (r, i) th _ q y); try done; plain_side Ep.
  - apply (locks_upd _ _ _ th _ _ y); try done; [apply locks|..]; cbn.
    + rewrite Ep. intros r' [[? ?]|H]; [left; by left|]. right. split; [|done]. by injection H.
    + by intros r' [[_ ?]|?].
    + auto.
    + by eapply lo_excl; [apply locks|].
  - intros H. by apply (ni_idle _ _ _ _ Hinv q y).
  - apply (th_plain nths d0 (n_lp s) (n_lp s) 0 [] (view_of s)); try done; plain_side Ep; [apply ext_refl|apply my_th| |].
    + cbn. destruct (zkont_lock z) eqn:Ez; [|done]. split; [done|]. intros ->.
      apply (lo_free _ _ locks r y (r, i) th Hy E Hk). left. rewrite Ep. auto.
    + intros q' [= <-]. by apply (ni_clean _ _ _ _ Hinv q y).
Qed.

Lemma swrite_inv z : t_pc th = SWrite q z -> ninv (step_sync size s r i th y).
Proof.
  intros Ep. pose proof my_home as Hh. rewrite Ep in Hh. cbn in Hh.
  pose proof (to_sync _ _ _ _ _ _ _ my_th q) as Hc. rewrite Ep in Hc. specialize (Hc eq_refl).
  unfold step_sync. rewrite Ep. destruct (can_write y) eqn:Hw; [|done].
  destruct (lp_next size (n_lp s) (LExec q)) as [l'|] eqn:E; [|done].
  eapply (ninv_take size nths d0 Hpow Hgc s (r, i) th _ q y); try done; plain_side Ep.
  intros Hext Hh' Hd. assert (Hcl : forall r', r' = q \/ r' = r -> clean (n_lp s) (view_of s) r' -> clean l' (view_of s) r').
  { intros r' _ H. destruct (decide (r' = q)) as [->|Hne]; [eapply clean_done; try done; lia|].
    eapply clean_ext; try done. set_solver. }
  eapply th_plain; try done; plain_side Ep; [apply my_th|..].
  - cbn. destruct (zkont_lock z); [|done]. destruct Hh as [? ?]. split; [apply Hcl; auto|done].
  - intros q' [= <-]. apply Hcl; auto.
  - intros q' z' [= <- <-]. by rewrite (exec_pc _ _ _ _ E).
Qed.

Lemma sync_step z l' d' : t_pc th = SExec q z -> lp_next size (n_lp s) (LStep q) = Some l' ->
  sync_call (n_lp s) l' q (q_data y) = Ret d' ->
  lp_ext q (n_lp s) l' [] /\ clean l' (view_of s) q
  /\ (lp_idle (lp_pc l' q) = true /\ lp_pc l' q = PIdle \/ lp_idle (lp_pc l' q) = false /\ exec_reaches 0 (lp_pc l' q)).
Proof.
  intros Ep E Hs. pose proof (to_sync _ _ _ _ _ _ _ my_th q) as Hc. rewrite Ep in Hc. specialize (Hc eq_refl).
  pose proof (to_run _ _ _ _ _ _ _ my_th q z Ep) as Hr.
  pose proof (ni_lp _ _ _ _ Hinv) as Hlp. pose proof (ni_data _ _ _ _ Hinv q y Hy) as Hd.
  destruct (step_facts size Hpow Hgc _ _ _ Hlp E) as (p & p' & e & Hp & Hp' & El & Hlp' & Hext & Epc & Epc' & _ & Hnp & He).
  pose proof (done_mono size d0 Hgc _ _ _ _ Hlp Hlp' E Hd) as Hdm. rewrite Epc, Epc' in *. rewrite El in Hp'.
  destruct (run_exec size _ _ _ _ _ Hlp Hp Hr (Nat.le_0_l _) Hp' Hnp) as [Hh Hcase]. rewrite <- El in *.
  rewrite (He Hh) in Hext. split_and!; [done|by eapply clean_done|]. destruct Hcase as [?|[-> _]]; [right|by left].
  split; [|done]. by destruct (p_pc p').
Qed.

Lemma sexec_inv z : t_pc th = SExec q z -> ninv (step_sync size s r i th y).
Proof.
  intros Ep. pose proof my_home as Hh. rewrite Ep in Hh. cbn in Hh.
  pose proof (to_sync _ _ _ _ _ _ _ my_th q) as Hc. rewrite Ep in Hc. specialize (Hc eq_refl).
  pose proof (ni_lp _ _ _ _ Hinv) as Hlp. pose proof (ni_data _ _ _ _ Hinv q y Hy) as Hd.
  unfold step_sync. rewrite Ep. destruct (lp_next size (n_lp s) (LStep q)) as [l'|] eqn:E; [|done].
  pose proof (lp_next_inv size Hpow Hgc _ _ _ Hlp E) as Hlp'.
  destruct (sync_call_ok size d0 Hgc _ _ _ _ _ Hlp Hlp' E Hd Hc) as [Hok Hpan].
  destruct (sync_call (n_lp s) l' q (q_data y)) as [d'| |] eqn:Es.
  2,3: apply goto_panic; try done; [by rewrite Ep|apply Hpan; intros d'; congruence].
  destruct (sync_step z l' d' Ep E Es) as (Hext & Hcl & Hpc).
  assert (Hg : guards (r, i) (t_pc th) q) by (right; by rewrite Ep).
  assert (Hho : if zkont_lock z then clean l' (view_of s) r /\ q <> r else True).
  { destruct (zkont_lock z); [|done]. destruct Hh as [Hh Hne]. split; [|done]. eapply clean_ext; try done; set_solver. }
  eapply (ninv_run size nths d0 Hpow Hgc s (r, i) th _ q y); try done.
  all: try (destruct Hpc as [[-> _]|[-> _]]; plain_side Ep; fail).
  - by left.
  - by apply Hok.
  - eapply th_plain; try done; [apply my_th|..]; try (destruct Hpc as [[-> _]|[-> _]]; by plain_side Ep).
    + by rewrite Ep.
    + intros q' z'. destruct Hpc as [[-> _]|[-> ?]]; by intros [= <- <-].
    + intros q' z'. destruct Hpc as [[-> ?]|[-> ?]]; by intros [= <- <-].
Qed.

Lemma sdrop_inv z : t_pc th = SDrop q z -> ninv (step_sync size s r i th y).
Proof.
  intros Ep. pose proof my_home as Hh. rewrite Ep in Hh. cbn in Hh.
  pose proof (to_sync _ _ _ _ _ _ _ my_th q) as Hc. rewrite Ep in Hc. specialize (Hc eq_refl).
  pose proof (to_idle _ _ _ _ _ _ _ my_th q z Ep) as Hi. assert (Hg : guards (r, i) (t_pc th) q) by (right; by rewrite Ep).
  unfold step_sync. rewrite Ep. apply (ninv_rep size nths d0 Hgc s (r, i) th _ q y); try done; plain_side Ep.
  - apply (locks_drop size nths d0); try done; plain_side Ep.
  - apply (th_plain nths d0 (n_lp s) (n_lp s) 0 [] (view_of s)); try done; plain_side Ep; [apply ext_refl|apply my_th].
Qed.

Lemma send_inv z : t_pc th = SEnd q z -> ninv (step_sync size s r i th y).
Proof.
  intros Ep. pose proof my_home as Hh. rewrite Ep in Hh. cbn in Hh.
  pose proof (to_sync _ _ _ _ _ _ _ my_th q) as Hc. rewrite Ep in Hc. specialize (Hc eq_refl).
  destruct (after_sync_side z) as (E1 & E2 & E3 & E4 & E5 & E6 & E7 & E8 & E9).
  { destruct (zkont_lock z); [apply Hh|done]. }
  unfold step_sync. rewrite Ep. apply (ninv_rep size nths d0 Hgc s (r, i) th _ q y); try done.
  - apply (locks_release size nths d0); try done.
    + intros r' [[? H]|H]; [|congruence]. left. split; [done|]. rewrite Ep. cbn in *. congruence.
    + intros [[E H]|H]; [|congruence]. cbn in E. rewrite E5 in H. rewrite H in Hh. by destruct Hh as [_ []].
    + right. by rewrite Ep.
  - intros H. by apply (ni_idle _ _ _ _ Hinv q y).
  - by rewrite E3, Ep.
  - apply (th_plain nths d0 (n_lp s) (n_lp s) 0 [] (view_of s)); try done; try (rewrite Ep; done);
      [apply ext_refl|apply my_th|congruence|..|apply after_sync_own; auto]; intros q' z' E; by rewrite E in E4.
Qed.

Lemma step_sync_inv : (match t_pc th with
    | SSample q' _ | SCheck q' _ _ | SLoad q' _ _ | SCas q' _ | SWrite q' _ | SExec q' _ | SDrop q' _ | SEnd q' _ => q' = q
    | _ => True end) -> ninv (step_sync size s r i th y).
Proof.
  destruct (t_pc th) eqn:Ep; try (unfold step_sync; rewrite Ep; done); intros ->.
  - unfold step_sync. rewrite Ep. apply goto_plain; try done; plain_side Ep.
  - unfold step_sync. rewrite Ep. destruct (c <=? ltail_of s q); apply goto_plain; try done; plain_side Ep;
      destruct y0; plain_side Ep; done.
  - pose proof my_home as Hh. rewrite Ep in Hh. cbn in Hh. unfold step_sync. rewrite Ep. destruct (q_comb y =? 0).
    + destruct (j =? 3); apply goto_plain; try done; plain_side Ep.
    + apply after_sync_goto; try done; rewrite ?Ep; eauto.
  - by eapply scas_inv.
  - by eapply swrite_inv.
  - by eapply sexec_inv.
  - by eapply sdrop_inv.
  - by eapply send_inv.
Qed.
End Move.

(** ** Events of the caches *)

(** The replica is where it was. *)
Definition same_place l l' : Prop :=
  g_hist l' = g_hist l /\ forall r, done_of l' r = done_of l r /\ ltail_at l' r = ltail_at l r /\ lp_pc l' r = lp_pc l r.

Lemma cache_same x l l' : (exists k e, x = LPrefetch k e \/ x = LEvict k e) -> lp_next size l x = Some l' -> same_place l l'.
Proof.
  intros (k & e & Hx) E. unfold lp_next in E. destruct (g_reps l !! lp_label_rep x) as [p|] eqn:Hp; [|done].
  assert (Hr : g_hist l' = g_hist l /\ exists c, g_reps l' = <[k := set_cache p c]> (g_reps l)).
  { destruct Hx as [-> | ->]; cbn in E; [injection E as <-; cbn; eauto|].
    destruct (line_flush _ _ _) as [m c]. injection E as <-. cbn. eauto. }
  assert (lp_label_rep x = k) as Ek by (by destruct Hx as [-> | ->]). rewrite Ek in Hp.
  destruct Hr as [Hh [c Hc]]. split; [done|]. intros r. unfold done_of, ltail_at, lp_pc. rewrite Hc.
  destruct (decide (r = k)) as [->|Hne]; [|by rewrite list_lookup_insert_ne].
  by rewrite (lookup_set_rep _ _ _ _ Hp), Hp.
Qed.

Lemma clean_same l l' (pv : gmap (nat * nat) (Context lop R unit * nat)) r : same_place l l' -> clean l pv r -> clean l' pv r.
Proof. intros [Hh Hs] [H1 H2]. destruct (Hs r) as (Hd & _). split; by rewrite Hh, ?Hd. Qed.

Lemma th_ok_same l l' q pv ops k th : lp_ext q l l' [] -> same_place l l' ->
  th_ok nths d0 l pv ops k th -> th_ok nths d0 l' pv ops k th.
Proof.
  intros Hext Hsame [H1 H2 H3 H4 H5 H6 H7 H8]. destruct (Hsame) as [Hh Hs].
  split; [by eapply ctx_ok_ext|eapply call_ok_ext; [done| |done]; set_solver| | | | |done|done].
  - destruct (Hs k.1) as (Hd & Hl & Hp). revert H3. apply home_mono; try done; [by apply clean_same| |].
    + intros j0 t b n. unfold flight. by rewrite Hh, Hd.
    + intros t b rs. unfold results_ok. by rewrite Hh, Hd.
  - intros q' E. eapply clean_same; [done|by apply H4].
  - intros q' z E. destruct (Hs q') as (_ & _ & ->). by eapply H5.
  - intros q' z E. destruct (Hs q') as (_ & _ & ->). by eapply H6.
Qed.

Lemma cache_inv s x l' : ninv s -> (exists k e, x = LPrefetch k e \/ x = LEvict k e) -> lp_next size (n_lp s) x = Some l' ->
  ninv (set_lp s l').
Proof.
  intros Hinv Hx E. pose proof (cache_same x _ _ Hx E) as Hsame. pose proof (ni_lp _ _ _ _ Hinv) as Hlp.
  destruct (next_ext size Hgc x _ _ Hlp E) as (e & Hext & He).
  assert (e = []) as -> by (destruct He as [?|[k ->]]; [done|]; by destruct Hx as (? & ? & [?|?])).
  pose proof (le_length _ _ _ _ Hext) as Hlen. destruct (Hsame) as [Hh Hs].
  assert (Hq : is_Some (n_reps s !! lp_label_rep x)).
  { apply (ni_reps _ _ _ _ Hinv). unfold lp_next in E. destruct (g_reps (n_lp s) !! lp_label_rep x) eqn:Hp; [|done].
    by eapply lookup_lt_Some. }
  split; cbn [n_lp n_reps n_ths n_ops set_lp]; change (view_of (set_lp s l')) with (view_of s).
  - by eapply lp_next_inv.
  - rewrite Hlen. apply Hinv.
  - rewrite Hlen. apply Hinv.
  - intros r y Hy. destruct (Hs r) as (-> & _). rewrite Hh. by eapply ni_data.
  - by eapply ctail_ext.
  - intros r y Hy Hw. destruct (Hs r) as (_ & _ & ->). by eapply ni_idle.
  - intros r y Hy Hc. eapply clean_same; [done|]. by eapply ni_clean.
  - apply Hinv.
  - apply Hinv.
  - eapply calls_ext; try done. by left.
  - intros k th Hk. eapply th_ok_same; [done|done|]. by eapply ni_th.
Qed.

(** A compare-exchange of [append] fails spuriously. *)
Lemma append_spurious_inv s r i th k b n rs l' : ninv s -> n_ths s !! (r, i) = Some th -> t_pc th = CApp k b n rs ->
  lp_next size (n_lp s) (LSpurious r) = Some l' -> ninv (set_lp s l').
Proof.
  intros Hinv Hk Ep E. destruct (thread_replica size nths d0 s r i th Hinv Hk) as [x Hx].
  pose proof (to_home _ _ _ _ _ _ _ (ni_th _ _ _ _ Hinv _ _ Hk)) as Hh. rewrite Ep in Hh. cbn in Hh. destruct Hh as [Hn Hh].
  pose proof (ni_lp _ _ _ _ Hinv) as Hlp. destruct (next_ext size Hgc _ _ _ Hlp E) as (e & Hext & He). cbn in Hext.
  assert (e = []) as -> by (destruct He as [?|[? ?]]; done).
  assert (Hpc : exists p a t adv, g_reps (n_lp s) !! r = Some p /\ p_pc p = PCas a t adv /\ l' = set_rep (n_lp s) r (set_pc p (PTail a))).
  { unfold lp_next in E. cbn in E. destruct (g_reps (n_lp s) !! r) as [p|]; [|done]. cbn in E.
    destruct (p_pc p) eqn:Epp; try done. injection E as <-. by exists p, a, t, adv. }
  destruct Hpc as (p & a & t & adv & Hp & Epp & ->). destruct (at_some _ _ _ Hp) as (Hd & _ & Hpc). rewrite Hpc, Epp in Hh.
  destruct Hh as [(<- & Hcl & Hco & ->)|(t' & H & _)]; [|done].
  assert (Hp' : g_reps (set_rep (n_lp s) r (set_pc p (PTail a))) !! r = Some (set_pc p (PTail a))) by (by apply (lookup_set_rep _ _ p)).
  destruct (at_some _ _ _ Hp') as (Hd' & _ & Hpc').
  assert (Edone : done_of (set_rep (n_lp s) r (set_pc p (PTail a))) r = done_of (n_lp s) r)
    by (rewrite Hd, Hd'; unfold done_upto; cbn; by rewrite Epp).
  assert (Es : set_lp s (set_rep (n_lp s) r (set_pc p (PTail a)))
    = mkN (set_rep (n_lp s) r (set_pc p (PTail a))) (<[r := set_qdata x (q_data x)]> (n_reps s))
        (<[(r, i) := mkT (t_pc th) (t_ctx th) (t_id th)]> (n_ths s)) (n_ops s)).
  { unfold set_lp. f_equal; rewrite insert_id; try done; [by destruct x|by destruct th]. }
  rewrite Es. eapply (ninv_run size nths d0 Hpow Hgc s (r, i) th _ r x); try done; [by rewrite Ep|by left|by left; rewrite Ep| |].
  - rewrite Edone. cbn. by eapply ni_data.
  - eapply th_plain; try done; try (by rewrite Ep); [by eapply ni_th|].
    rewrite Ep. cbn. split; [done|]. left. rewrite Hpc'. split_and!; try done. apply (clean_done (n_lp s)); [done| |done]. cbn in *. lia.
Qed.

(** ** All steps *)

Lemma nrun_inv s k th q s' : ninv s -> n_ths s !! k = Some th -> nrun size nths s k th q = Some s' -> ninv s'.
Proof.
  intros Hinv Hk E. destruct k as [r i]. unfold nrun in E.
  destruct (n_reps s !! r) as [x|] eqn:Hx; [|done]. cbn [mbind option_bind] in E.
  destruct (t_pc th) eqn:Ep; try done.
  all: try (injection E as <-; first
    [apply step_ctx_inv; [done|done|done|by rewrite Ep]|by apply step_collect_inv|by apply step_log_inv
    |by apply step_respond_inv|by apply step_read_inv]).
  all: match type of E with context [?m !! ?q'] => destruct (m !! q') as [y'|] eqn:Hy; [|done] end.
  all: cbn [mbind option_bind] in E; injection E as <-; eapply step_sync_inv; try done; by rewrite Ep.
Qed.

Lemma nnext_inv s a s' : ninv s -> nnext size nths s a = Some s' -> ninv s'.
Proof.
  intros Hinv E. destruct a as [k w|k o|k|k q|k|r e|r e]; cbn in E.
  - destruct (n_ths s !! k) as [th|] eqn:Hk; [|done]. cbn in E. destruct (t_pc th) eqn:Ep; try done. injection E as <-.
    by apply ninv_begin.
  - destruct (n_ths s !! k) as [th|] eqn:Hk; [|done]. cbn in E. destruct (t_pc th) eqn:Ep; try done. injection E as <-.
    by apply ninv_begin.
  - destruct k as [r i]. destruct (n_ths s !! (r, i)) as [th|] eqn:Hk; [|done]. cbn in E. destruct (t_pc th) eqn:Ep; try done.
    injection E as <-. apply goto_plain; try done; plain_side Ep.
  - destruct (n_ths s !! k) as [th|] eqn:Hk; [|done]. cbn in E. destruct (q <? length (g_reps (n_lp s))); [|done]. by eapply nrun_inv.
  - destruct k as [r i]. destruct (n_ths s !! (r, i)) as [th|] eqn:Hk; [|done]. cbn in E.
    destruct (t_pc th) eqn:Ep; try done.
    + injection E as <-. apply (lock_fails size nths d0 Hgc s r i th 0); try done; try (by rewrite Ep).
      * eapply (acquire_kont size nths d0 s r i th Hinv Hk k 0). by right.
      * intros a Ha. eapply (kont_not_locked d0 s r th k 0); [by right|done].
    + destruct (lp_next size (n_lp s) (LSpurious r)) as [l'|] eqn:El; [|done]. injection E as <-.
      by eapply append_spurious_inv.
    + injection E as <-. apply after_sync_goto; try done; try (by rewrite Ep); [by left|].
      pose proof (to_home _ _ _ _ _ _ _ (ni_th _ _ _ _ Hinv _ _ Hk)) as Hh. by rewrite Ep in Hh.
  - destruct (lp_next size (n_lp s) (LPrefetch r e)) as [l'|] eqn:El; [|done]. injection E as <-.
    eapply cache_inv; [done| |done]. eauto.
  - destruct (lp_next size (n_lp s) (LEvict r e)) as [l'|] eqn:El; [|done]. injection E as <-.
    eapply cache_inv; [done| |done]. eauto.
Qed.

Lemma ninv_init nreps s : ninit size nths nreps d0 s -> ninv s.
Proof.
  intros (Hlp & Hr & Ht & Ho). assert (Hi : lp_inv size (n_lp s)) by (rewrite Hlp; eapply lp_init_inv; try done; by exists nreps).
  assert (Hreps : forall r p, g_reps (n_lp s) !! r = Some p -> r < nreps /\ p = mkPrep PIdle 0 [] (replicate size None)).
  { rewrite Hlp. cbn. intros r p Hp. apply lookup_replicate in Hp as [? ?]. auto. }
  assert (Hh : g_hist (n_lp s) = []) by (by rewrite Hlp).
  assert (Hlen : length (g_reps (n_lp s)) = nreps) by (rewrite Hlp; cbn; apply length_replicate).
  assert (Hpc : forall r, lp_pc (n_lp s) r = PIdle).
  { intros r. unfold lp_pc. destruct (g_reps (n_lp s) !! r) as [p|] eqn:E; [|done]. by destruct (Hreps r p E) as [_ ->]. }
  assert (Hth : forall k th, n_ths s !! k = Some th -> th = mkT TIdle (context_default tt) 0).
  { intros [r i] th H. by apply Ht in H as (_ & _ & ->). }
  assert (Hx : forall r x, n_reps s !! r = Some x -> x = mkR 0 false ∅ d0) by (intros r x H; by apply Hr in H as [_ ->]).
  assert (Hcl : forall r, clean (n_lp s) (view_of s) r) by (intros r; split; rewrite Hh; [intros; apply not_elem_of_nil|done]).
  split; try done.
  - intros r. rewrite Hlen. split; [intros [x H]; by apply Hr in H as [? _]|]. intros H. exists (mkR 0 false ∅ d0). by apply Hr.
  - intros r i. rewrite Hlen. split; [intros [th H]; by apply Ht in H as (? & ? & _)|]. intros [H1 H2].
    exists (mkT TIdle (context_default tt) 0). by apply Ht.
  - intros r x H. by rewrite Hh, take_nil, (Hx r x H).
  - exists d0. by rewrite Hh, take_nil.
  - split.
    + intros r x k th _ _ H. rewrite (Hth _ _ H). by intros [[_ ?]|?].
    + intros r k k' th th' H _ Hl. rewrite (Hth _ _ H) in Hl. by destruct Hl as [[_ ?]|?].
    + intros r x k th _ H Hl. rewrite (Hth _ _ H) in Hl. by destruct Hl as [[_ ?]|?].
    + intros r x i th _ H Hl. by rewrite (Hth _ _ H) in Hl.
    + intros r x H. rewrite (Hx _ _ H). by left.
  - intros k k' th th' H _ Hl. rewrite (Hth _ _ H) in Hl. by destruct Hl as [?|?].
  - split; rewrite ?Hh, ?Ho; try done. apply NoDup_nil_2.
  - intros k th H. rewrite (Hth _ _ H). by split.
Qed.

Lemma ninv_reachable nreps s : nreachable size nths nreps d0 s -> ninv s.
Proof.
  apply reachable_inv; [apply ninv_init|]. intros s1 s2 H [a Ha]. by eapply nnext_inv.
Qed.
End Inv.
