(* ===== verification/Linear.v ===== *)
(** * Linearizability

    The calls recorded by NrConc are linearizable if they can be put in an order that
    a single copy of the data structure, used by one thread, could have executed with
    the same responses, and that keeps calls that did not overlap in their order.
    [linearize] builds the order from the history of the log: reads go where the
    replica they read had got to. *)

From Stdlib Require Import Sorting.Sorted.
From stdpp Require Import gmap.
From S2P Require Import Prelude Context Log LogProtocol LogProtocolSpec Replica NrConc NrConcSpec.
From S2P Require Import NrConcLog NrConcFrame.

Section Linear.
Context {D RO WO R : Type} `{!Dispatch D RO WO R}.
Abbreviation lop := (WO * nat)%type.
Abbreviation hist := (list (lop * nat)).
Abbreviation ocall := (ocall (RO := RO) (WO := WO) (R := R)).
Implicit Types (ops : list ocall) (h : hist) (d : D) (order : list nat).

(** ** Definition *)

(** One call on a single copy. *)
Definition seq_step d (o : WO + RO) : res (D * R) :=
  match o with
  | inl w => dispatch_mut d w
  | inr o => v ← dispatch d o; Ret (d, v)
  end.

(** The calls [xs] one after the other, with the responses recorded. *)
Fixpoint seq_ok d (xs : list ocall) d' : Prop :=
  match xs with
  | [] => d = d'
  | x :: xs' => exists d1 v, seq_step d (o_op x) = Ret (d1, v)
      /\ (forall v' p m, o_ret x = Some (v', p, m) -> v' = v) /\ seq_ok d1 xs' d'
  end.

(** Call [a] returned before call [b] began: calls are numbered as they begin. *)
Definition precedes ops (a b : nat) : Prop :=
  exists x v p m, ops !! a = Some x /\ o_ret x = Some (v, p, m) /\ m <= b.

Record linearizes d0 ops order : Prop := {
  lz_nodup : NoDup order;
  lz_complete : forall id x, ops !! id = Some x -> o_ret x <> None -> id ∈ order;
  lz_time : forall i j a b, order !! i = Some a -> order !! j = Some b -> precedes ops a b -> i < j;
  lz_legal : exists xs d, Forall2 (fun id x => ops !! id = Some x) order xs /\ seq_ok d0 xs d;
}.

Definition linearizable d0 ops : Prop := exists order, linearizes d0 ops order.

Lemma seq_ok_app d xs ys d' : seq_ok d (xs ++ ys) d' <-> exists d1, seq_ok d xs d1 /\ seq_ok d1 ys d'.
Proof.
  revert d. induction xs as [|x xs IH]; intros d; cbn.
  - split; [by exists d|]. intros (d1 & -> & ?). done.
  - split.
    + intros (d1 & v & H1 & H2 & (d2 & H3 & H4)%IH). exists d2. split; [|done]. by exists d1, v.
    + intros (d2 & (d1 & v & H1 & H2 & H3) & H4). exists d1, v. split_and!; try done. apply IH. by exists d2.
Qed.

(** ** The order *)

(** A read that took effect at [p]. *)
Definition read_effect ops (p id : nat) : bool :=
  match ops !! id with
  | Some x => match o_op x, o_ret x with inr _, Some (_, p', _) => p' =? p | _, _ => false end
  | None => false
  end.
Definition reads_at ops (p : nat) : list nat := filter (fun id => read_effect ops p id = true) (seq 0 (length ops)).

(** The reads and writes from [p] on, where the writes are those of [h]; with a rank. *)
Fixpoint linearize ops (p : nat) h : list (nat * nat) :=
  match h with
  | [] => pair (2 * p) <$> reads_at ops p
  | x :: h' => (pair (2 * p) <$> reads_at ops p) ++ (2 * p + 1, x.1.2) :: linearize ops (S p) h'
  end.

Lemma reads_at_spec ops p id : id ∈ reads_at ops p <->
  exists x o v m, ops !! id = Some x /\ o_op x = inr o /\ o_ret x = Some (v, p, m).
Proof.
  unfold reads_at. rewrite list_elem_of_filter, elem_of_seq. unfold read_effect. split.
  - intros [H _]. destruct (ops !! id) as [x|]; [|done]. destruct (o_op x) as [w|o] eqn:Eo; [done|].
    destruct (o_ret x) as [[[v p'] m]|] eqn:Er; [|done]. apply Nat.eqb_eq in H as ->. by exists x, o, v, m.
  - intros (x & o & v & m & Hx & Ho & Hr). rewrite Hx, Ho, Hr, Nat.eqb_refl. split; [done|].
    apply lookup_lt_Some in Hx. lia.
Qed.

Lemma linearize_elem ops h p k id : (k, id) ∈ linearize ops p h <->
  exists q, q <= length h /\ (k = 2 * (p + q) /\ id ∈ reads_at ops (p + q)
    \/ k = 2 * (p + q) + 1 /\ exists w r, h !! q = Some ((w, id), r)).
Proof.
  revert p. induction h as [|[[w0 id0] r0] h IH]; intros p; cbn [linearize].
  - rewrite list_elem_of_fmap. split.
    + intros (id' & [= -> ->] & H). exists 0. rewrite !Nat.add_0_r. split; [lia|]. left. split; [lia|done].
    + intros (q & Hq & [[-> H]|(_ & w & r & H)]); [|done]. assert (q = 0) as -> by (cbn in Hq; lia). rewrite Nat.add_0_r in *.
      by exists id.
  - rewrite elem_of_app, elem_of_cons, list_elem_of_fmap, IH. split.
    + intros [(id' & [= -> ->] & H)|[[= -> ->]|(q & Hq & H)]].
      * exists 0. rewrite !Nat.add_0_r. split; [lia|]. left. split; [lia|done].
      * exists 0. rewrite !Nat.add_0_r. split; [lia|]. right. split; [lia|]. by exists w0, r0.
      * exists (S q). replace (p + S q) with (S p + q) by lia. split; [cbn; lia|done].
    + intros (q & Hq & H). destruct q as [|q].
      * rewrite Nat.add_0_r in H. destruct H as [[-> H]|(-> & w & r & [= -> -> ->])]; [left; eauto|right; by left].
      * right. right. exists q. replace (S p + q) with (p + S q) by lia. cbn in Hq. split; [lia|done].
Qed.

(** ** Ranks *)

(** Calls of the same rank are reads of the same state, in the order they began. *)
Definition rank_lt (x y : nat * nat) : Prop := x.1 < y.1 \/ x.1 = y.1 /\ x.2 < y.2.

Lemma reads_sorted ops p k : StronglySorted rank_lt (pair k <$> reads_at ops p).
Proof.
  unfold reads_at. generalize 0 as a, (length ops) as n. intros a n. revert a.
  induction n as [|n IH]; intros a; [constructor|]. cbn [seq]. rewrite filter_cons. destruct (decide _); [|apply IH].
  cbn. constructor; [apply IH|]. apply list.Forall_fmap, list.Forall_forall. intros id Hid.
  apply list_elem_of_filter in Hid as [_ Hid]. apply elem_of_seq in Hid. right. cbn. split; [done|lia].
Qed.

Lemma StronglySorted_app' {A} (P : A -> A -> Prop) xs ys : StronglySorted P xs -> StronglySorted P ys ->
  (forall x y, x ∈ xs -> y ∈ ys -> P x y) -> StronglySorted P (xs ++ ys).
Proof.
  intros Hx Hy H. induction Hx as [|x xs Hx IH HF]; cbn; [done|]. constructor.
  - apply IH. intros a b Ha Hb. apply H; [by right|done].
  - apply list.Forall_app. split; [done|]. apply list.Forall_forall. intros y Hy'. apply H; [by left|done].
Qed.

Lemma linearize_sorted ops p h : StronglySorted rank_lt (linearize ops p h).
Proof.
  revert p. induction h as [|[[w id] r] h IH]; intros p; cbn [linearize]; [apply reads_sorted|].
  assert (Hge : forall y, y ∈ linearize ops (S p) h -> 2 * p + 1 < y.1).
  { intros [k i] Hy. apply linearize_elem in Hy as (q & _ & [[-> _]|[-> _]]); cbn; lia. }
  apply StronglySorted_app'; [apply reads_sorted|constructor; [apply IH|]|].
  - apply list.Forall_forall. intros y Hy. left. by apply Hge.
  - intros x y (i & -> & _)%list_elem_of_fmap. rewrite elem_of_cons. intros [->|Hy]; left; cbn; [lia|].
    specialize (Hge y Hy). lia.
Qed.

Lemma sorted_lookup {A} (P : A -> A -> Prop) xs i j x y : StronglySorted P xs -> xs !! i = Some x -> xs !! j = Some y ->
  i < j -> P x y.
Proof.
  intros Hs. revert i j. induction Hs as [|z xs Hs IH HF]; intros i j Hi Hj Hij; [done|].
  destruct j as [|j]; [lia|]. destruct i as [|i]; cbn in *; [|eapply IH; eauto; lia].
  injection Hi as <-. rewrite list.Forall_forall in HF. apply HF. by eapply list_elem_of_lookup_2.
Qed.
End Linear.
