(* ===== verification/NrConcTheorems.v ===== *)
(** * Concurrent node replication is linearizable

    Any number of threads on any number of replicas, in every interleaving of their
    accesses and of the events of the caches: the calls of [execute_mut] and [execute]
    behave as if they took effect one after the other on a single copy of the data,
    between their beginning and their return; and, as long as the operations of the data
    structure do not panic, the only assertion that can fail is the one on the replica
    that [append] names. *)

From stdpp Require Import gmap.
From S2P Require Import Prelude Context Log LogProtocol LogProtocolSpec Replica NrConc NrConcSpec.
From S2P Require Import NrConcLog NrConcFrame NrConcStep NrConcCtx NrConcRespond NrConcInv Linear.
From S2P Require Import LogProtocolTheorems NrTheorems.

Section Theorems.
Context {D RO WO R : Type} `{!Dispatch D RO WO R}.
Variables (size : nat) (nths : nat -> nat) (d0 : D).
Hypothesis Hpow : is_pow2 size.
Hypothesis Hgc : GC_FROM_HEAD <= size.
Abbreviation lop := (WO * nat)%type.
Abbreviation ocall := (ocall (RO := RO) (WO := WO) (R := R)).
Abbreviation nsys := (nsys (D := D) (RO := RO) (WO := WO) (R := R)).

(** ** The order of the history is legal *)

Section Order.
Context (l : lpsys (O := lop)) (ops : list ocall).
Hypothesis Hcalls : calls_ok d0 l ops.
Hypothesis Hct : exists d, hist_run d0 (take (g_ctail l) (g_hist l)) = Ret d.
Hypothesis Hle : g_ctail l <= length (g_hist l).
Abbreviation H := (g_hist l).
Abbreviation ct := (g_ctail l).
Abbreviation order := (linearize ops 0 (take ct H)).

Lemma hist_run_prefix p q d : p <= q -> hist_run d0 (take q H) = Ret d -> exists d', hist_run d0 (take p H) = Ret d'.
Proof.
  intros Hpq E. replace (take q H) with (take p H ++ take (q - p) (drop p H)) in E by (rewrite take_take_drop; f_equal; lia).
  unfold hist_run in *. rewrite foldM_app in E. destruct (foldM _ d0 (take p H)) as [d'| |]; [eauto|done|done].
Qed.

Lemma reads_legal p d ids : hist_run d0 (take p H) = Ret d -> (forall id, id ∈ ids -> id ∈ reads_at ops p) ->
  exists xs, Forall2 (fun id x => ops !! id = Some x) ids xs /\ seq_ok d xs d.
Proof.
  intros Hd. induction ids as [|id ids IH]; intros Hin; [by exists []|].
  destruct IH as (xs & HF & Hs); [intros i Hi; apply Hin; by right|].
  assert (Hid : id ∈ reads_at ops p) by (apply Hin; by left).
  apply reads_at_spec in Hid as (x & o & v & m & Hx & Ho & Hr).
  destruct (co_ret _ _ _ Hcalls id x Hx v p m Hr) as [_ Hrd]. rewrite Ho in Hrd. destruct Hrd as (_ & d' & Hd' & Hv & _).
  assert (d' = d) as -> by congruence. exists (x :: xs). split; [by constructor|]. exists d, v.
  rewrite Ho. cbn. rewrite Hv. split_and!; [done| |done]. intros v' p' m' E. congruence.
Qed.

Lemma entry_unique p q w w' id r r' : H !! p = Some ((w, id), r) -> H !! q = Some ((w', id), r') -> p = q.
Proof.
  intros Hp Hq. apply (NoDup_lookup (ids H) p q id); [apply Hcalls| |].
  - unfold ids. by rewrite list_lookup_fmap, Hp.
  - unfold ids. by rewrite list_lookup_fmap, Hq.
Qed.

Lemma order_legal h p d : drop p (take ct H) = h -> p <= ct -> hist_run d0 (take p H) = Ret d ->
  exists xs d', Forall2 (fun id x => ops !! id = Some x) ((linearize ops p h).*2) xs /\ seq_ok d xs d'.
Proof.
  revert p d. induction h as [|[[w id] r] h IH]; intros p d Hh Hp Hd; cbn [linearize].
  - rewrite <- list_fmap_compose. cbn. rewrite list_fmap_id.
    destruct (reads_legal p d (reads_at ops p) Hd) as (xs & ? & ?); [done|]. by exists xs, d.
  - assert (Hx : H !! p = Some ((w, id), r) /\ p < ct).
    { assert (E : drop p (take ct H) !! 0 = Some ((w, id), r)) by (by rewrite Hh). rewrite lookup_drop, Nat.add_0_r in E.
      apply lookup_take_Some in E. done. }
    destruct Hx as [Hx Hlt]. destruct Hct as [dc Hdc]. destruct (hist_run_prefix (S p) ct dc) as [d1 Hd1]; [lia|done|].
    destruct (IH (S p) d1) as (ys & d' & HF & Hs); [|lia|done|].
    { change (S p) with (1 + p). rewrite Nat.add_comm, <- drop_drop, Hh. done. }
    rewrite (take_S_r _ _ _ Hx), hist_run_snoc, Hd in Hd1. cbn in Hd1.
    destruct (dispatch_mut d w) as [[d2 v]| |] eqn:Hdm; try done. injection Hd1 as ->.
    destruct (reads_legal p d (reads_at ops p) Hd) as (xs & HFx & Hsx); [done|].
    destruct (co_hist _ _ _ Hcalls _ _ _ _ Hx) as (x & Hox & Hw & _).
    exists (xs ++ x :: ys), d'. split.
    + rewrite fmap_app, <- list_fmap_compose. cbn. rewrite list_fmap_id. apply Forall2_app; [done|]. by constructor.
    + apply seq_ok_app. exists d. split; [done|]. exists d1, v. rewrite Hw. split_and!; [done| |done]. intros v' p' m Er.
      destruct (co_ret _ _ _ Hcalls id x Hox v' p' m Er) as [_ Hret]. rewrite Hw in Hret.
      destruct Hret as (_ & (d3 & y & x3 & Hd3 & Hx3 & Hy & <-) & r3 & Hr3).
      assert (p' = p) as -> by (by eapply entry_unique). rewrite Hx in Hx3. injection Hx3 as <-.
      rewrite Hd in Hd3. injection Hd3 as <-. cbn in Hy. rewrite Hdm in Hy. by injection Hy as <-.
Qed.

(** ** Ranks and real time *)

Lemma order_key k id : (k, id) ∈ order -> exists x, ops !! id = Some x /\ 2 * o_inv x <= k
  /\ (forall v p m, o_ret x = Some (v, p, m) -> match o_op x with inl _ => k = 2 * p + 1 | inr _ => k = 2 * p end)
  /\ match o_op x with
     | inl _ => exists q w r, k = 2 * q + 1 /\ H !! q = Some ((w, id), r)
     | inr _ => o_ret x <> None
     end.
Proof.
  intros Hin. apply linearize_elem in Hin as (q & Hq & [[-> Hr]|(-> & w & r & Hw)]); rewrite Nat.add_0_l in *.
  - apply reads_at_spec in Hr as (x & o & v & m & Hx & Ho & Hr). exists x.
    destruct (co_ret _ _ _ Hcalls id x Hx v q m Hr) as [Hi _]. rewrite Ho. split_and!; [done|lia| |congruence].
    intros v' p' m' E. rewrite Hr in E. by injection E as _ <- _.
  - apply lookup_take_Some in Hw as [Hw _]. destruct (co_hist _ _ _ Hcalls _ _ _ _ Hw) as (x & Hx & Ho & Hi). exists x.
    rewrite Ho. split_and!; [done|lia| |by exists q, w, r]. intros v p m E.
    destruct (co_ret _ _ _ Hcalls id x Hx v p m E) as [_ Hret]. rewrite Ho in Hret. destruct Hret as (_ & _ & r' & Hr').
    rewrite (entry_unique _ _ _ _ _ _ _ Hr' Hw). done.
Qed.

Lemma order_rank_unique k k' id : (k, id) ∈ order -> (k', id) ∈ order -> k = k'.
Proof.
  intros (x & Hx & _ & H1 & H2)%order_key (x' & Hx' & _ & H1' & H2')%order_key. assert (x' = x) as -> by congruence.
  destruct (o_op x) as [u|u].
  - destruct H2 as (q & w & r & -> & Hq), H2' as (q' & w' & r' & -> & Hq'). by rewrite (entry_unique _ _ _ _ _ _ _ Hq Hq').
  - destruct (o_ret x) as [[[v p] m]|]; [|done]. by rewrite (H1 _ _ _ eq_refl), (H1' _ _ _ eq_refl).
Qed.

Lemma order_time a b ka kb : (ka, a) ∈ order -> (kb, b) ∈ order -> precedes ops a b -> rank_lt (ka, a) (kb, b).
Proof.
  intros (x & Hx & _ & H1 & _)%order_key (y & Hy & Hi & _)%order_key (x' & v & p & m & Hx' & Hr & Hm).
  assert (x' = x) as -> by congruence. pose proof (co_time _ _ _ Hcalls a b x y v p m Hx Hy Hr Hm) as Ht.
  pose proof (co_num _ _ _ Hcalls a x v p m Hx Hr). specialize (H1 _ _ _ Hr). unfold rank_lt. cbn.
  destruct (o_op x); lia.
Qed.

Lemma order_linearizes : linearizes d0 ops (order.*2).
Proof.
  assert (Hlook : forall i a, order.*2 !! i = Some a -> exists k, order !! i = Some (k, a)).
  { intros i a Ha. rewrite list_lookup_fmap in Ha. apply fmap_Some in Ha as ([k a'] & Hi & ->). by exists k. }
  assert (Hmem : forall i k a, order !! i = Some (k, a) -> (k, a) ∈ order) by (intros; by eapply list_elem_of_lookup_2).
  assert (Hbefore : forall i j ka kb a b, order !! i = Some (ka, a) -> order !! j = Some (kb, b) ->
            rank_lt (ka, a) (kb, b) -> i < j).
  { intros i j ka kb a b Hi Hj Hr. destruct (lt_eq_lt_dec i j) as [[?| ->]|Hji]; [done| |].
    - rewrite Hi in Hj. injection Hj as -> ->. unfold rank_lt in Hr. cbn in Hr. lia.
    - pose proof (sorted_lookup _ _ _ _ _ _ (linearize_sorted ops 0 (take ct H)) Hj Hi Hji) as Hr'.
      unfold rank_lt in Hr, Hr'. cbn in Hr, Hr'. lia. }
  split.
  - apply list.NoDup_alt. intros i j a (k & Hi)%Hlook (k' & Hj)%Hlook.
    assert (k' = k) as -> by (eapply order_rank_unique; eauto).
    destruct (lt_eq_lt_dec i j) as [[Hij| ->]|Hij]; [|done|].
    + pose proof (sorted_lookup _ _ _ _ _ _ (linearize_sorted ops 0 (take ct H)) Hi Hj Hij) as Hr. unfold rank_lt in Hr. cbn in Hr. lia.
    + pose proof (sorted_lookup _ _ _ _ _ _ (linearize_sorted ops 0 (take ct H)) Hj Hi Hij) as Hr. unfold rank_lt in Hr. cbn in Hr. lia.
  - intros id x Hx Hr. destruct (o_ret x) as [[[v p] m]|] eqn:Er; [|done]. apply list_elem_of_fmap.
    destruct (co_ret _ _ _ Hcalls id x Hx v p m Er) as [_ Hret]. destruct (o_op x) as [w|o] eqn:Eo.
    + destruct Hret as (Hp & _ & q & Hq). exists (2 * p + 1, id). split; [done|]. apply linearize_elem. exists p.
      rewrite length_take. split; [lia|]. right. split; [done|]. exists w, q. by rewrite lookup_take_lt.
    + destruct Hret as (Hp & _). exists (2 * p, id). split; [done|]. apply linearize_elem. exists p.
      rewrite length_take. split; [lia|]. left. split; [done|]. apply reads_at_spec. by exists x, o, v, m.
  - intros i j a b (ka & Hi)%Hlook (kb & Hj)%Hlook Hp. eapply Hbefore; [done|done|]. apply order_time; eauto.
  - destruct (order_legal (take ct H) 0 d0) as (xs & d & ? & ?); [by rewrite drop_0|lia|done|]. by exists xs, d.
Qed.
End Order.

Lemma ninv_linearizable (s : nsys) : ninv size nths d0 s -> linearizable d0 (n_ops s).
Proof.
  intros Hr. pose proof (ni_lp _ _ _ _ Hr) as Hlp. pose proof (li_order _ _ Hlp). pose proof (li_tail _ _ Hlp).
  exists ((linearize (n_ops s) 0 (take (g_ctail (n_lp s)) (g_hist (n_lp s)))).*2).
  apply order_linearizes; [apply Hr|apply Hr|lia].
Qed.

(** ** Panics *)

(** Thread [k] has run into the assertion on the replica named. *)
Definition named (s : nsys) (k : nat * nat) : Prop := exists th, n_ths s !! k = Some th /\ t_pc th = TPanic PNamed.
(** [append] has failed. *)
Definition append_failed (p : tpc (RO := RO) (WO := WO) (R := R)) : Prop :=
  match p with CDrop _ _ _ _ NoSpace => True | CEnd _ e => e <> Done | _ => False end.

Lemma set_thread_named (s : nsys) k th k' : named (set_thread s k th) k' -> named s k' \/ (k' = k /\ t_pc th = TPanic PNamed).
Proof.
  intros (th' & Hk & Hp). cbn in Hk. apply lookup_insert_Some in Hk as [[<- <-]|[_ Hk]]; [by right|left; by exists th'].
Qed.

Lemma returns_named (s : nsys) k th v p k' : named (returns s k th v p) k' -> named s k'.
Proof. intros [H|[_ H]]%(set_thread_named s k (mkT TIdle (t_ctx th) (t_id th))); done. Qed.

Lemma after_combine_named r k e q : after_combine (R := R) (RO := RO) (WO := WO) r k e q = TPanic PNamed -> e <> Done /\ q = r.
Proof. destruct e, k as [[]| |]; cbn; try done; destruct (Nat.eqb_spec q r); done. Qed.
Lemma after_sync_named q z : after_sync (RO := RO) (WO := WO) (R := R) q z <> TPanic PNamed.
Proof. by destruct z. Qed.
Lemma no_response_named x it : no_response (RO := RO) (WO := WO) (R := R) x it <> TPanic PNamed.
Proof. unfold no_response. by destruct (_ =? _)%N. Qed.
Lemma after_full_named y : after_full_sync (RO := RO) (WO := WO) (R := R) y <> TPanic PNamed.
Proof. by destruct y. Qed.

Ltac named_cases H :=
  repeat match type of H with
  | named (match ?x with _ => _ end) _ => destruct x eqn:?
  | named (set_thread _ _ _) _ => apply set_thread_named in H as [H|[-> H]]
  | named (goto _ _ _ _ _) _ => unfold goto in H
  | named (goto_ctx _ _ _ _ _ _) _ => unfold goto_ctx in H
  | named (goto_rep _ _ _ _ _ _ _) _ => unfold goto_rep in H
  | named (returns _ _ _ _ _) _ => apply returns_named in H
  | named (set_repl ?s _ _) ?k => change (named s k) in H
  | named (set_lp ?s _) ?k => change (named s k) in H
  | named (let _ := _ in _) _ => cbn zeta in H
  end.

Lemma nrun_named (s s' : nsys) k th q k' : n_ths s !! k = Some th -> nrun size nths s k th q = Some s' -> named s' k' ->
  named s k' \/ (k' = k /\ q = k.1 /\ append_failed (t_pc th)).
Proof.
  intros Hk Hs Hn. destruct k as [r i]. unfold nrun in Hs.
  destruct (n_reps s !! r) as [x|]; [|done]. cbn in Hs.
  destruct (t_pc th) eqn:Ep; try done; try injection Hs as <-.
  all: try (apply bind_Some in Hs as (? & _ & [= <-])).
  all: unfold step_ctx, step_collect, step_log, step_respond, step_read, step_sync in Hn; try rewrite Ep in Hn; named_cases Hn.
  all: try (by left); cbn [t_pc] in Hn; try done.
  all: repeat match type of Hn with context [if ?b then _ else _] => destruct b end; try done.
  all: try (destruct e; try done).
  all: try (apply after_combine_named in Hn as [He ->]; try done; right; by split_and!).
  all: try (by apply after_sync_named in Hn); try (by apply no_response_named in Hn); try (by apply after_full_named in Hn).
  all: try (left; eexists; split; [eassumption|]; exact Hn).
Qed.

Lemma nnext_named (s s' : nsys) a k : nnext size nths s a = Some s' -> named s' k ->
  named s k \/ (a = NStep k k.1 /\ exists th, n_ths s !! k = Some th /\ append_failed (t_pc th)).
Proof.
  intros Hs Hn. destruct a as [k0 w|k0 o|k0|k0 q|k0|r e|r e]; cbn in Hs; apply bind_Some in Hs as (th & Hk & Hs).
  - destruct (t_pc th); try done. injection Hs as <-. left. destruct Hn as (th' & Hk' & Hp). cbn in Hk'.
    apply lookup_insert_Some in Hk' as [[_ <-]|[_ Hk']]; [done|by exists th'].
  - destruct (t_pc th); try done. injection Hs as <-. left. destruct Hn as (th' & Hk' & Hp). cbn in Hk'.
    apply lookup_insert_Some in Hk' as [[_ <-]|[_ Hk']]; [done|by exists th'].
  - destruct (t_pc th); try done. injection Hs as <-. left. by apply set_thread_named in Hn as [?|[_ ?]].
  - destruct (q <? _); [|done]. destruct (nrun_named s s' k0 th q k Hk Hs Hn) as [?|(-> & -> & Hf)]; [by left|right].
    split; [done|]. by exists th.
  - left. destruct (t_pc th); try done.
    + injection Hs as <-. apply set_thread_named in Hn as [?|[_ Hn]]; [done|]. cbn in Hn. by repeat case_match.
    + apply bind_Some in Hs as (l & _ & [= <-]). done.
    + injection Hs as <-. apply set_thread_named in Hn as [?|[_ Hn]]; [done|]. by apply after_sync_named in Hn.
  - injection Hs as <-. by left.
  - injection Hs as <-. by left.
Qed.

(** ** The claims *)

(** C1: Node replication is linearizable under concurrency.  Whatever the interleaving of
    the threads and of the caches, there is one order of the calls of [execute_mut] and
    [execute], with all that have returned and perhaps some that have not, such that a
    single copy of the data structure that executes them in this order gives the
    responses they returned, and a call that returned before another began comes before
    it. *)
Theorem nr_linearizable nreps (s : nsys) :
  nreachable size nths nreps d0 s -> linearizable d0 (n_ops s).
Proof.
  intros Hr. apply ninv_linearizable. by apply (ninv_reachable size nths d0 Hpow Hgc) in Hr.
Qed.


(** C7: The copies agree under concurrency: as long as nobody has the write lock of a
    replica, its data is the result of executing the entries of the log up to its local
    tail, in the order of the log. *)
Theorem nr_copies_agree nreps (s : nsys) r x :
  nreachable size nths nreps d0 s -> n_reps s !! r = Some x -> q_wlock x = false ->
  hist_run d0 (take (ltail_of s r) (g_hist (n_lp s))) = Ret (q_data x).
Proof.
  intros Hr Hx Hw. apply (ninv_reachable size nths d0 Hpow Hgc) in Hr.
  pose proof (idle_done _ _ (ni_idle _ _ _ _ Hr r x Hx Hw)) as E. change (ltail_of s r) with (ltail_at (n_lp s) r).
  rewrite <- E. by eapply ni_data.
Qed.
End Theorems.

(** ** A run

    Two replicas with two threads each share a counter.  Threads 0 and 1 of replica 0
    add 5 and 7; thread 0 combines both.  While it executes the batch, thread 0 of
    replica 1 reads 0.  When the first addition has returned, thread 1 of replica 1
    reads: its replica lags behind, so that the thread becomes a combiner and replays
    the log first, and reads 12, although the second addition returns only later. *)

Section Start.
Context {D RO WO R : Type} `{!Dispatch D RO WO R}.
Variables (size nreps n : nat) (d0 : D).

(** [nreps] replicas with [n] threads each. *)
Definition nr_start : nsys (D := D) (RO := RO) (WO := WO) (R := R) :=
  mkN (mkLP 0 0 0 0 (replicate size None) [] (replicate nreps (mkPrep PIdle 0 [] (replicate size None))))
    (gset_to_gmap (mkR 0 false ∅ d0) (list_to_set (seq 0 nreps)))
    (gset_to_gmap (mkT TIdle (context_default tt) 0) (list_to_set (list_prod (seq 0 nreps) (seq 0 n)))) [].

Lemma nr_start_init : ninit size (fun _ => n) nreps d0 nr_start.
Proof.
  split_and!; [done| | |done].
  - intros r x. cbn [n_reps nr_start]. rewrite lookup_gset_to_gmap_Some, elem_of_list_to_set, elem_of_seq. intuition (subst; auto; lia).
  - intros r i th. cbn [n_ths nr_start]. rewrite lookup_gset_to_gmap_Some, elem_of_list_to_set, list_elem_of_In, in_prod_iff, !in_seq.
    intuition (subst; auto; lia).
Qed.
End Start.

Definition conc_ths : nat -> nat := fun _ => 2.
Definition conc_start : nsys (D := nat) (RO := unit) (WO := nat) (R := nat) := nr_start demo_size 2 2 0.

Definition turns {RO WO : Type} (n : nat) (k : nat * nat) : list (nlabel (RO := RO) (WO := WO)) := replicate n (NStep k 0).
Definition conc_labels : list (nlabel (RO := unit) (WO := nat)) :=
  [NWrite (0, 0) 5; NWrite (0, 1) 7] ++ turns 2 (0, 1) ++ turns 30 (0, 0) ++ [NRead (1, 0) tt] ++ turns 5 (1, 0)
  ++ turns 24 (0, 0) ++ [NRead (1, 1) tt] ++ turns 42 (1, 1) ++ turns 30 (0, 1).
Definition conc_end : nsys := default conc_start (run_labels (nnext demo_size conc_ths) conc_start conc_labels).

Lemma conc_run : run_labels (nnext demo_size conc_ths) conc_start conc_labels = Some conc_end.
Proof. vm_compute. reflexivity. Qed.

Lemma conc_reachable : nreachable demo_size conc_ths 2 0 conc_end.
Proof. eapply run_labels_reachable; [|exact conc_run]. apply reach_init, nr_start_init. Qed.

(** What the calls returned. *)
Definition conc_calls (s : nsys (D := nat) (RO := unit) (WO := nat) (R := nat)) : list ((nat + unit) * option nat) :=
  (fun x => (o_op x, (fun y => y.1.1) <$> o_ret x)) <$> n_ops s.

Lemma conc_end_calls : conc_calls conc_end = [(inl 5, Some 5); (inl 7, Some 12); (inr tt, Some 0); (inr tt, Some 12)].
Proof. vm_compute. reflexivity. Qed.

Lemma conc_end_data : (fun x => (q_wlock x, q_data x)) <$> n_reps conc_end !! 1 = Some (false, 12).
Proof. vm_compute. reflexivity. Qed.

(** ** A reader names its own replica

    The other replica lags behind when its thread reads, and every compare-exchange of
    its [append] fails. *)

Definition retries (n : nat) (k : nat * nat) : list (nlabel (RO := unit) (WO := nat)) :=
  concat (replicate n (turns 2 k ++ [NSpurious k])).
Definition stuck_labels : list (nlabel (RO := unit) (WO := nat)) :=
  [NWrite (0, 0) 5] ++ turns 46 (0, 0) ++ [NRead (1, 0) tt] ++ turns 15 (1, 0) ++ retries 127 (1, 0) ++ turns 1 (1, 0).
Definition stuck_at : nsys := default conc_start (run_labels (nnext demo_size conc_ths) conc_start stuck_labels).

Lemma stuck_run : run_labels (nnext demo_size conc_ths) conc_start stuck_labels = Some stuck_at.
Proof. vm_compute. reflexivity. Qed.

Lemma stuck_step : exists s', nnext demo_size conc_ths stuck_at (NStep (1, 0) 1) = Some s'
  /\ named s' (1, 0) /\ ~ named stuck_at (1, 0).
Proof.
  exists (default stuck_at (nnext demo_size conc_ths stuck_at (NStep (1, 0) 1))). split_and!.
  - vm_compute. reflexivity.
  - vm_compute. eexists. split; reflexivity.
  - vm_compute. intros (th & [= <-] & [=]).
Qed.

(** C32: The assertion [stuck_ridx != tkn.rid] of [execute] can fail although the log is
    all but empty.  A reader whose replica lags behind combines an empty batch; its
    [append] gives up after [WARN_THRESHOLD - 1] failed compare-exchanges, and the loop
    does not execute the log in between, so that the local tail of its own replica is
    still the smallest and is the one that [append] names. *)
Theorem nr_reader_stuck :
  exists s s', nreachable demo_size conc_ths 2 0 s
    /\ g_tail (n_lp s) = 1 /\ ltail_of s 1 < ltail_of s 0
    /\ nnext demo_size conc_ths s (NStep (1, 0) 1) = Some s' /\ t_pc <$> n_ths s' !! (1, 0) = Some (TPanic PNamed).
Proof.
  exists stuck_at, (default stuck_at (nnext demo_size conc_ths stuck_at (NStep (1, 0) 1))). split_and!.
  - eapply run_labels_reachable; [|exact stuck_run]. apply reach_init, nr_start_init.
  - vm_compute. reflexivity.
  - vm_compute. lia.
  - vm_compute. reflexivity.
  - vm_compute. reflexivity.
Qed.

#[local] Opaque conc_end.

Lemma nr_linearizable_witness :
  nreachable demo_size conc_ths 2 0 conc_end
  /\ conc_calls conc_end = [(inl 5, Some 5); (inl 7, Some 12); (inr tt, Some 0); (inr tt, Some 12)]
  /\ linearizable 0 (n_ops conc_end).
Proof.
  split; [exact conc_reachable|]. split; [exact conc_end_calls|].
  exact (nr_linearizable demo_size conc_ths 0 demo_pow2 demo_gc 2 conc_end conc_reachable).
Defined.


Lemma nr_copies_agree_witness :
  exists x, n_reps conc_end !! 1 = Some x /\ q_data x = 12
    /\ hist_run 0 (take (ltail_of conc_end 1) (g_hist (n_lp conc_end))) = Ret (q_data x).
Proof.
  pose proof conc_end_data as E. apply fmap_Some_1 in E as (x & Hx & E). injection E as Ew Ed.
  exists x. split; [exact Hx|]. split; [symmetry; exact Ed|].
  exact (nr_copies_agree demo_size conc_ths 0 demo_pow2 demo_gc 2 conc_end 1 x conc_reachable Hx (eq_sym Ew)).
Defined.
