(* ===== verification/GcdConc.v ===== *)
(** * The directory under concurrency

    The threads of all hosts change and consult the directory at the same time.  An
    invariant of the data that the operations in use preserve holds in every copy and
    for every read ([copies_inv], [reads_inv]); the invariants of the directory are
    two of them. *)

From stdpp Require Import gmap.
From S2P Require Import Prelude Context Log LogProtocol LogProtocolSpec Replica NrConc NrConcSpec.
From S2P Require Import NrConcFrame NrConcRespond NrConcInv Linear NrConcTheorems LogProtocolTheorems Gcd GcdSpec.

(** ** Invariants of the data *)

Section Invariant.
Context {D RO WO R : Type} `{!Dispatch D RO WO R}.
Variables (size : nat) (nths : nat -> nat) (d0 : D).
Hypothesis Hpow : is_pow2 size.
Hypothesis Hgc : GC_FROM_HEAD <= size.
Abbreviation nsys := (nsys (D := D) (RO := RO) (WO := WO) (R := R)).

(** The invariant, and the writes that preserve it where they take effect. *)
Variables (I : D -> Prop) (W : D -> WO -> Prop).
Hypothesis I_init : I d0.
Hypothesis I_step : forall d w d' v, I d -> W d w -> dispatch_mut d w = Ret (d', v) -> I d'.

(** Every write of the history takes effect where it may. *)
Definition hist_ok (h : list ((WO * nat) * nat)) : Prop :=
  forall p x d, h !! p = Some x -> hist_run d0 (take p h) = Ret d -> W d x.1.1.

Lemma hist_run_inv (h : list ((WO * nat) * nat)) p d : hist_ok h -> hist_run d0 (take p h) = Ret d -> I d.
Proof.
  intros Hh. revert d. induction p as [|p IH]; intros d E.
  - unfold hist_run in E. cbn in E. by injection E as <-.
  - destruct (h !! p) as [x|] eqn:Hx.
    + rewrite (take_S_r _ _ _ Hx), hist_run_snoc in E.
      destruct (hist_run d0 (take p h)) as [d1| |] eqn:E1; [|done|done]. cbn in E.
      destruct (dispatch_mut d1 x.1.1) as [[d2 v]| |] eqn:Ed; [|done|done]. injection E as <-.
      eapply I_step; [by apply IH|by eapply Hh|exact Ed].
    + apply lookup_ge_None in Hx. apply IH. rewrite take_ge in E |- * by lia. done.
Qed.

Section State.
Context (nreps : nat) (s : nsys).
Hypothesis Hs : nreachable size nths nreps d0 s.
Hypothesis Hhist : hist_ok (g_hist (n_lp s)).

(** Every copy has the invariant between two operations. *)
Lemma copies_inv r x : n_reps s !! r = Some x -> I (q_data x).
Proof.
  intros Hx. pose proof (ninv_reachable size nths d0 Hpow Hgc _ _ Hs) as Hi.
  eapply hist_run_inv; [exact Hhist|]. by eapply ni_data.
Qed.

(** Every read that has returned was made on data with the invariant. *)
Lemma reads_inv x o v p m : x ∈ n_ops s -> o_op x = inr o -> o_ret x = Some (v, p, m) ->
  exists d, I d /\ dispatch d o = Ret v.
Proof.
  intros [id Hid]%list_elem_of_lookup_1 Ho Hr.
  pose proof (ni_calls _ _ _ _ (ninv_reachable size nths d0 Hpow Hgc _ _ Hs)) as Hc.
  destruct (co_ret _ _ _ Hc id x Hid v p m Hr) as [_ H]. rewrite Ho in H. destruct H as (_ & d & Hd & Hv & _).
  exists d. split; [|done]. eapply hist_run_inv; [exact Hhist|exact Hd].
Qed.
End State.
End Invariant.

(** ** The directory *)

Abbreviation gsys := (nsys (D := NrHashMapFFi) (RO := Access) (WO := Modify) (R := OptionGCDReponse)).

(** All entries are well-formed and no block shared for writing has a valid local copy;
    an operation is well-formed and disciplined in the directory where it takes effect. *)
Definition dir_safe (d : NrHashMapFFi) : Prop := gcd_wf (storage d) /\ gcd_rw (storage d).
Definition proper_op (d : NrHashMapFFi) (o : Modify) : Prop := op_wf o /\ disciplined (storage d) o.

Lemma dir_step d w d' v : dir_safe d -> proper_op d w -> dispatch_mut d w = Ret (d', v) -> dir_safe d'.
Proof.
  intros [H1 H2] [Hw Hdis] E. cbn in E. unfold gcd_dispatch_mut in E.
  destruct (gcd_modify (storage d) w) as [[m' u]| |] eqn:Em; [|done|done]. cbn in E. injection E as <- <-.
  pose proof (gcd_modify_post (storage d) w H1 Hw) as Hp. rewrite Em in Hp.
  split; [apply Hp|]. by eapply gcd_modify_rw.
Qed.

Lemma dir_init cap : dir_safe (hashmap_new cap).
Proof. split; apply map_Forall_empty. Qed.

(** C11: However the threads of all hosts interleave: if every operation, at its place in
    the order of the log, sets the write metadata of a block only together with the
    invalidation of its local copies or when none of them is valid (so when a writer
    enters a block), and adds a local copy only through the operation that checks the
    metadata or when it is not set, then every entry that a lookup returns is well-formed
    and has no valid local copy when the block is shared for writing, and so has every
    entry in the copy of every replica. *)
Theorem directory_concurrent size nths nreps cap (s : gsys) :
  is_pow2 size -> GC_FROM_HEAD <= size -> nreachable size nths nreps (hashmap_new cap) s ->
  hist_ok (hashmap_new cap) proper_op (g_hist (n_lp s)) ->
  (forall x key a p m, x ∈ n_ops s -> o_op x = inr (Get key) -> o_ret x = Some (Some a, p, m) ->
     entry_wf (r_value a) /\ rw_safe (r_value a))
  /\ (forall r x, n_reps s !! r = Some x -> dir_safe (q_data x)).
Proof.
  intros Hpow Hgc Hs Hops. split.
  - intros x key a p m Hx Ho Hr.
    destruct (reads_inv size nths _ Hpow Hgc dir_safe proper_op (dir_init cap) dir_step nreps s Hs Hops x (Get key) (Some a) p m)
      as (d & [Hwf Hrw] & E); [done..|]. cbn in E. destruct (storage d !! bkey key) as [e|] eqn:Ek; [|done].
    injection E as <-. split; [exact (Hwf _ _ Ek)|exact (Hrw _ _ Ek)].
  - intros r x. exact (copies_inv size nths _ Hpow Hgc dir_safe proper_op (dir_init cap) dir_step nreps s Hs Hops r x).
Qed.

(** ** A run

    Two replicas with one thread each.  The first enters a copy of a block on node 2, the
    second enters another block for writing; the first shares its block for writing, and
    the second looks it up. *)

Definition gconc_ths : nat -> nat := fun _ => 1.
Definition gconc_start : gsys := nr_start demo_size 2 1 (hashmap_new 100).

Definition gconc_labels : list (nlabel (RO := Access) (WO := Modify)) :=
  [NWrite (0, 0) (CheckPutArrayWmeta key1 3 2 5)] ++ turns 42 (0, 0)
  ++ [NWrite (1, 0) (CheckPutArrayWmeta key2 8 0 4)] ++ turns 44 (1, 0)
  ++ [NWrite (0, 0) (InvalidateExceptArrayUpdateWmeta key1 0 6)] ++ turns 44 (0, 0)
  ++ [NRead (1, 0) (Get key1)] ++ turns 36 (1, 0).
Definition gconc_end : gsys := default gconc_start (run_labels (nnext demo_size gconc_ths) gconc_start gconc_labels).

Lemma gconc_run : run_labels (nnext demo_size gconc_ths) gconc_start gconc_labels = Some gconc_end.
Proof. vm_compute. reflexivity. Qed.

Definition gconc_entry : GCDEntry := mkGCD 6 [null_CNStatus; null_CNStatus; mkCN 3 true; null_CNStatus].

Lemma gconc_read : n_ops gconc_end !! 3 = Some (mkOp (inr (Get key1)) 3 (Some (some_resp key1 gconc_entry, 3, 4))).
Proof. vm_compute. reflexivity. Qed.

Lemma gconc_hist : g_hist (n_lp gconc_end) =
  [((CheckPutArrayWmeta key1 3 2 5, 0), 1); ((CheckPutArrayWmeta key2 8 0 4, 1), 2);
   ((InvalidateExceptArrayUpdateWmeta key1 0 6, 2), 1)].
Proof. vm_compute. reflexivity. Qed.

Lemma gconc_proper : hist_ok (hashmap_new 100) proper_op (g_hist (n_lp gconc_end)).
Proof.
  rewrite gconc_hist. intros p x d Hp Hd. destruct p as [|[|[|p]]]; [..|done]; injection Hp as <-; vm_compute in Hd; injection Hd as <-.
  - split; [split; [lia|unfold NSLOTS, LOGICAL_NODE_NUM; lia]|]. by intros [=].
  - split; [split; [lia|unfold NSLOTS, LOGICAL_NODE_NUM; lia]|]. by right.
  - done.
Qed.

Lemma directory_concurrent_witness :
  n_ops gconc_end !! 3 = Some (mkOp (inr (Get key1)) 3 (Some (some_resp key1 gconc_entry, 3, 4)))
  /\ entry_wf gconc_entry /\ rw_safe gconc_entry.
Proof.
  split; [exact gconc_read|].
  assert (Hr : nreachable demo_size gconc_ths 2 (hashmap_new 100) gconc_end)
    by (eapply run_labels_reachable; [|exact gconc_run]; apply reach_init, nr_start_init).
  destruct (directory_concurrent demo_size gconc_ths 2 100 gconc_end demo_pow2 demo_gc Hr gconc_proper) as [Hget _].
  exact (Hget _ key1 (mkResp key1 gconc_entry) 3 4 (list_elem_of_lookup_2 _ _ _ gconc_read) eq_refl eq_refl).
Defined.
