(* ===== verification/Client.v ===== *)
(** * Clients of a replicated object

    Programs in which threads call [execute_mut] and [execute] one call after the
    other, as the examples do: thread [k] makes the calls [prog k 0], [prog k 1], and so
    on.  [client_hist] is what such a program can rely on besides linearizability: the
    calls of a thread do not overlap. *)

From stdpp Require Import gmap.
From S2P Require Import Prelude Context Log LogProtocol LogProtocolSpec Replica NrConc NrConcSpec.
From S2P Require Import NrConcFrame NrConcInv Linear NrConcTheorems.

(** The system, and the calls that each thread has made. *)
Definition client_state (D RO WO R : Type) : Type :=
  nsys (D := D) (RO := RO) (WO := WO) (R := R) * gmap (nat * nat) (list nat).

Section Client.
Context {D RO WO R : Type} `{!Dispatch D RO WO R}.
Variables (size : nat) (nths : nat -> nat) (d0 : D).
Abbreviation pc := (tpc (RO := RO) (WO := WO) (R := R)).
Abbreviation thr := (thr (RO := RO) (WO := WO) (R := R)).
Abbreviation ocall := (ocall (RO := RO) (WO := WO) (R := R)).
Abbreviation nsys := (nsys (D := D) (RO := RO) (WO := WO) (R := R)).
Abbreviation nlabel := (nlabel (RO := RO) (WO := WO)).
Abbreviation calls_of := (gmap (nat * nat) (list nat)).
Implicit Types (s : nsys) (th : thr) (k : nat * nat) (ops : list ocall) (c : calls_of).

(** The calls of each thread. *)
Variable prog : nat * nat -> nat -> option (WO + RO).

Definition calls c k : list nat := default [] (c !! k).

(** The next call of a thread; a step of the system that begins no call. *)
Inductive clabel := CCall (k : nat * nat) | CRun (a : nlabel).

Definition cnext (x : client_state D RO WO R) (a : clabel) : option (client_state D RO WO R) :=
  let '(s, c) := x in
  match a with
  | CCall k =>
      o ← prog k (length (calls c k));
      s' ← nnext size nths s (match o with inl w => NWrite k w | inr o => NRead k o end);
      Some (s', <[k := calls c k ++ [length (n_ops s)]]> c)
  | CRun (NWrite _ _ | NRead _ _) => None
  | CRun a => s' ← nnext size nths s a; Some (s', c)
  end.

Definition creachable (nreps : nat) : client_state D RO WO R -> Prop :=
  reachable (fun x => ninit size nths nreps d0 x.1 /\ x.2 = ∅) (fun x y => exists a, cnext x a = Some y).

(** What the calls of such a program look like. *)
Record client_hist ops c : Prop := {
  ch_prog : forall k j id, calls c k !! j = Some id -> exists x, ops !! id = Some x /\ prog k j = Some (o_op x);
  ch_order : forall k i j a b, calls c k !! i = Some a -> calls c k !! j = Some b -> i < j -> precedes ops a b;
  ch_all : forall id x, ops !! id = Some x -> exists k j, calls c k !! j = Some id;
  ch_inj : forall k k' j j' id, calls c k !! j = Some id -> calls c k' !! j' = Some id -> (k, j) = (k', j');
}.

(** ** Steps and calls *)

(** The thread is in no call. *)
Definition outside (p : pc) : bool :=
  match p with
  | TIdle | SSample _ YTop | SCheck _ _ YTop | SLoad _ _ (ZLoop _ YTop) | SCas _ (ZLoop _ YTop) | SWrite _ (ZLoop _ YTop)
  | SExec _ (ZLoop _ YTop) | SDrop _ (ZLoop _ YTop) | SEnd _ (ZLoop _ YTop) => true
  | _ => false
  end.

Definition place (th : thr) : pc * nat := (t_pc th, t_id th).

(** What a step of thread [k] does to calls and threads. *)
Definition moved s k th s' : Prop :=
  (forall k', k' <> k -> place <$> n_ths s' !! k' = place <$> n_ths s !! k')
  /\ exists th', n_ths s' !! k = Some th' /\ t_id th' = t_id th
     /\ (n_ops s' = n_ops s /\ (outside (t_pc th') = true -> outside (t_pc th) = true)
         \/ pc_op (t_pc th) <> None
            /\ exists v p, n_ops s' = alter (fun x => mkOp (o_op x) (o_inv x) (Some (v, p, length (n_ops s)))) (t_id th) (n_ops s)).

Lemma moved_same s k th : n_ths s !! k = Some th -> moved s k th s.
Proof. intros Hk. split; [done|]. exists th. split_and!; [done|done|by left]. Qed.

Lemma moved_thread s k th s' p x : n_ths s !! k = Some th -> n_ths s' = <[k := mkT p x (t_id th)]> (n_ths s) -> n_ops s' = n_ops s ->
  (outside p = true -> outside (t_pc th) = true) -> moved s k th s'.
Proof.
  intros Hk Ht Ho Hp. unfold moved; rewrite Ht, Ho. split; [intros k' Hne; by rewrite lookup_insert_ne|].
  eexists. rewrite lookup_insert_eq. split_and!; [done|done|by left].
Qed.

Lemma moved_returns s k th s' th' v p : n_ths s !! k = Some th -> n_ops s' = n_ops s -> n_ths s' = n_ths s ->
  t_id th' = t_id th -> pc_op (t_pc th) <> None -> moved s k th (returns s' k th' v p).
Proof.
  intros Hk Ho Ht Hi Hp. unfold moved, returns. cbn. rewrite Ht, Ho, Hi. split; [intros k' Hne; by rewrite lookup_insert_ne|].
  eexists. rewrite lookup_insert_eq. split_and!; [done|done|]. right. split; [done|]. by exists v, p.
Qed.

(** The context of another thread changes, too. *)
Lemma moved_pair s r i j th tj s' p x y : n_ths s !! (r, i) = Some th -> n_ths s !! (r, j) = Some tj ->
  n_ths s' = <[(r, i) := mkT p x (t_id th)]> (<[(r, j) := mkT (t_pc tj) y (t_id tj)]> (n_ths s)) -> n_ops s' = n_ops s ->
  outside p = false -> moved s (r, i) th s'.
Proof.
  intros Hk Hj Ht Ho Hp. unfold moved; rewrite Ht, Ho. split.
  - intros k' Hne. rewrite lookup_insert_ne; [|done]. destruct (decide (k' = (r, j))) as [->|]; [|by rewrite lookup_insert_ne].
    by rewrite lookup_insert_eq, Hj.
  - eexists. rewrite lookup_insert_eq. split_and!; [done|done|]. left. split; [done|]. cbn. by rewrite Hp.
Qed.

Lemma outside_combine r y e q : outside (after_combine r y e q) = false.
Proof. destruct e, y as [[]| |]; cbn; try done; by destruct (q =? r). Qed.
Lemma outside_no_response y it : outside (no_response y it) = false.
Proof. unfold no_response. by destruct (it + 1 =? interval)%N. Qed.
Lemma outside_sync q z : outside (after_sync q z) = true -> exists a, z = ZLoop a YTop.
Proof. destruct z as [| | |a []]; try done. eauto. Qed.

Ltac outside_tac Ep := rewrite ?outside_combine, ?outside_no_response, ?Ep; cbn; first
  [done | intros; discriminate | match goal with |- _ -> _ => intros [? ->]%outside_sync; done end
  | match goal with y : ykont |- _ => by destruct y | y : kont |- _ => by destruct y end].
Ltac moved_tac Hk Ep := first [by apply moved_same
  | eapply moved_thread; [exact Hk|reflexivity|reflexivity|outside_tac Ep]].

Lemma nrun_moved s k th q s' : n_ths s !! k = Some th -> nrun size nths s k th q = Some s' -> moved s k th s'.
Proof.
  intros Hk E. destruct k as [r i]. unfold nrun in E. destruct (n_reps s !! r) as [x|]; [|done]. cbn [mbind option_bind] in E.
  destruct (t_pc th) eqn:Ep; try done.
  all: try (destruct (n_reps s !! q0) as [y'|]; [|done]; cbn [mbind option_bind] in E).
  all: injection E as <-; unfold step_ctx, step_collect, step_log, step_respond, step_read, step_sync; rewrite Ep.
  all: repeat case_match.
  all: try moved_tac Hk Ep.
  all: first [eapply moved_pair; [exact Hk|eassumption|reflexivity|reflexivity|reflexivity]
    |apply moved_returns; [exact Hk|reflexivity|reflexivity|reflexivity|by rewrite Ep]].
Qed.

(** ** The history of a client *)

Definition returned ops (id : nat) : Prop :=
  exists x v (p m : nat), ops !! id = Some x /\ o_ret x = Some (v, p, m) /\ m <= length ops.

Record cinv s c : Prop := {
  ci_hist : client_hist (n_ops s) c;
  ci_ret : forall k th j id, n_ths s !! k = Some th -> calls c k !! j = Some id ->
    returned (n_ops s) id \/ outside (t_pc th) = false /\ id = t_id th /\ S j = length (calls c k);
  ci_thread : forall k, calls c k <> [] -> is_Some (n_ths s !! k);
}.

Lemma calls_insert c k L k' : calls (<[k := L]> c) k' = if bool_decide (k' = k) then L else calls c k'.
Proof.
  unfold calls. case_bool_decide as E; [subst; by rewrite lookup_insert_eq|by rewrite lookup_insert_ne].
Qed.

Lemma returned_app ops x id : returned ops id -> returned (ops ++ [x]) id.
Proof.
  intros (y & v & p & m & Hy & Hr & Hm). exists y, v, p, m. rewrite length_app. cbn. split_and!; [by apply lookup_app_l_Some|done|lia].
Qed.

Lemma precedes_app ops x a b : precedes ops a b -> precedes (ops ++ [x]) a b.
Proof. intros (y & v & p & m & Hy & ?). exists y, v, p, m. split; [by apply lookup_app_l_Some|done]. Qed.

(** A thread begins the next call. *)
Lemma begins_inv s c k th o p : cinv s c -> n_ths s !! k = Some th -> t_pc th = TIdle ->
  prog k (length (calls c k)) = Some o -> outside p = false ->
  cinv (begins s k th o p) (<[k := calls c k ++ [length (n_ops s)]]> c).
Proof.
  intros [[Hp Ho Ha Hu] Hr Ht] Hk Hi Hprog Hout. cbn [begins n_ops]. split; [split|..]; cbn [begins n_ops n_ths].
  - intros k' j id. rewrite calls_insert. case_bool_decide as E; [subst k'|].
    + intros [H|[Hle H]]%lookup_app_Some.
      * destruct (Hp _ _ _ H) as (x & ? & ?). exists x. split; [by apply lookup_app_l_Some|done].
      * apply list_lookup_singleton_Some in H as [Hj <-]. eexists. rewrite lookup_app_r, Nat.sub_diag by done.
        split; [done|]. cbn. by replace j with (length (calls c k)) by lia.
    + intros H. destruct (Hp _ _ _ H) as (x & ? & ?). exists x. split; [by apply lookup_app_l_Some|done].
  - intros k' i j a b. rewrite calls_insert. case_bool_decide as E; [subst k'|intros; apply precedes_app; eauto].
    intros H1 H2 Hij. apply lookup_app_Some in H2 as [H2|[Hle H2]].
    + apply precedes_app. eapply Ho; [|done|done]. rewrite lookup_app_l in H1; [done|]. apply lookup_lt_Some in H2. lia.
    + apply list_lookup_singleton_Some in H2 as [Hj <-]. rewrite lookup_app_l in H1 by lia.
      destruct (Hr _ _ _ _ Hk H1) as [(x & v & q & m & Hx & Hv & Hm)|[Hf _]]; [|by rewrite Hi in Hf].
      exists x, v, q, m. split_and!; [by apply lookup_app_l_Some|done|lia].
  - intros id x H. apply lookup_app_Some in H as [H|[Hle H]].
    + destruct (Ha _ _ H) as (k' & j & Hj). exists k', j. rewrite calls_insert. case_bool_decide as E; [|done]. subst k'.
      by apply lookup_app_l_Some.
    + apply list_lookup_singleton_Some in H as [Hj _]. exists k, (length (calls c k)). rewrite calls_insert, bool_decide_true by done.
      rewrite lookup_app_r, Nat.sub_diag by done. cbn. f_equal. lia.
  - intros k1 k2 j1 j2 id. rewrite !calls_insert.
    assert (Hfresh : forall k' j', calls c k' !! j' <> Some (length (n_ops s))).
    { intros k' j' H. destruct (Hp _ _ _ H) as (x & Hx & _). apply lookup_lt_Some in Hx. lia. }
    assert (Hcase : forall k' j', (if bool_decide (k' = k) then calls c k ++ [length (n_ops s)] else calls c k') !! j' = Some id ->
      calls c k' !! j' = Some id \/ (k', j') = (k, length (calls c k)) /\ id = length (n_ops s)).
    { intros k' j'. case_bool_decide as E; [subst k'|by left]. intros [?|[Hle H]]%lookup_app_Some; [by left|right].
      apply list_lookup_singleton_Some in H as [? <-]. split; [f_equal; lia|done]. }
    intros [H1|[E1 ->]]%Hcase [H2|[E2 E]]%Hcase; [by eapply Hu|by rewrite E in H1; destruct (Hfresh _ _ H1)|by destruct (Hfresh _ _ H2)|congruence].
  - intros k' th' j id. rewrite calls_insert. case_bool_decide as E; [subst k'|].
    + rewrite lookup_insert_eq. intros [= <-] [H|[Hle H]]%lookup_app_Some.
      * left. apply returned_app. destruct (Hr _ _ _ _ Hk H) as [?|[Hf _]]; [done|by rewrite Hi in Hf].
      * apply list_lookup_singleton_Some in H as [Hj <-]. right. cbn. rewrite length_app. cbn. split_and!; [done|done|lia].
    + rewrite lookup_insert_ne by done. intros H1 H2. destruct (Hr _ _ _ _ H1 H2) as [?|?]; [left; by apply returned_app|by right].
  - intros k'. rewrite calls_insert. case_bool_decide as E; [subst; intros _; rewrite lookup_insert_eq; by eexists|].
    rewrite lookup_insert_ne by done. apply Ht.
Qed.

(** Returning from a call. *)
Section Return.
Context (ops : list ocall) (n : nat) (y : ocall) (v : R) (p : nat).
Hypothesis Hn : ops !! n = Some y.
Hypothesis Hy : o_ret y = None.
Abbreviation ops' := (alter (fun x => mkOp (o_op x) (o_inv x) (Some (v, p, length ops))) n ops).

Lemma return_lookup id x : ops !! id = Some x -> exists x', ops' !! id = Some x' /\ o_op x' = o_op x
  /\ (o_ret x <> None -> x' = x) /\ (id = n -> o_ret x' = Some (v, p, length ops)).
Proof using Hn Hy.
  intros Hx. destruct (decide (id = n)) as [->|Hne].
  - rewrite list_lookup_alter_eq, Hx. eexists. split_and!; try done. intros. congruence.
  - rewrite list_lookup_alter_ne by done. exists x. done.
Qed.

Lemma return_returned id : returned ops id \/ id = n -> returned ops' id.
Proof using Hn Hy.
  intros [(x & w & q & m & Hx & Hr & Hm)| ->]; unfold returned; rewrite length_alter.
  - destruct (return_lookup id x Hx) as (x' & Hx' & _ & He & _). rewrite He in Hx' by congruence. by exists x, w, q, m.
  - destruct (return_lookup n y Hn) as (x' & Hx' & _ & _ & He). exists x', v, p, (length ops). split_and!; [done|by apply He|done].
Qed.

Lemma return_hist c : client_hist ops c -> client_hist ops' c.
Proof using Hn Hy.
  intros [Hp Ho Ha Hj]. split; [| | |done].
  - intros k j id H. destruct (Hp _ _ _ H) as (x & Hx & E). destruct (return_lookup id x Hx) as (x' & Hx' & Eo & _). exists x'. by rewrite Eo.
  - intros k i j a b H1 H2 Hij. destruct (Ho _ _ _ _ _ H1 H2 Hij) as (x & w & q & m & Hx & Hr & Hm).
    destruct (return_lookup a x Hx) as (x' & Hx' & _ & He & _). rewrite He in Hx' by congruence. by exists x, w, q, m.
  - intros id x Hx. assert (Hl : is_Some (ops !! id)) by (apply lookup_lt_is_Some; rewrite <- (length_alter (fun x => mkOp (o_op x) (o_inv x) (Some (v, p, length ops))) ops n); by eapply lookup_lt_Some).
    destruct Hl as [x0 Hx0]. by eapply Ha.
Qed.
End Return.

Lemma moved_inv s c k th s' : ninv size nths d0 s -> cinv s c -> n_ths s !! k = Some th -> moved s k th s' -> cinv s' c.
Proof.
  intros Hinv [Hh Hr Ht] Hk (Hne & th' & Hk' & Hid & Hc).
  assert (Hthr : forall k', is_Some (n_ths s !! k') -> is_Some (n_ths s' !! k')).
  { intros k' [t E]. destruct (decide (k' = k)) as [->|Hd]; [by rewrite Hk'|].
    specialize (Hne k' Hd). rewrite E in Hne. destruct (n_ths s' !! k'); [by eexists|done]. }
  assert (Hold : forall k' t', k' <> k -> n_ths s' !! k' = Some t' -> exists t, n_ths s !! k' = Some t /\ t_pc t = t_pc t' /\ t_id t = t_id t').
  { intros k' t' Hd E. specialize (Hne k' Hd). rewrite E in Hne. cbn in Hne. destruct (n_ths s !! k') as [t|]; [|done].
    exists t. split; [done|]. by injection Hne as -> ->. }
  destruct Hc as [[Hops Hout]|(Hp & v & p & Hops)].
  - split; rewrite ?Hops; [done| |auto]. intros k' t' j id H1 H2. destruct (decide (k' = k)) as [->|Hd].
    + assert (t' = th') as -> by congruence. destruct (Hr _ _ _ _ Hk H2) as [?|(E & ? & ?)]; [by left|]. right.
      split_and!; [|congruence|done]. destruct (outside (t_pc th')); [|done]. by rewrite Hout in E.
    + destruct (Hold _ _ Hd H1) as (t & E & <- & <-). eauto.
  - pose proof (to_call _ _ _ _ _ _ _ (ni_th _ _ _ _ Hinv k th Hk)) as Hc. unfold call_ok in Hc.
    destruct (pc_op (t_pc th)) as [o|]; [|done]. destruct Hc as (y & Hy & Hn & _).
    split; rewrite ?Hops; [by eapply return_hist| |auto]. intros k' t' j id H1 H2. destruct (decide (k' = k)) as [->|Hd].
    + left. eapply return_returned; [done|done|]. destruct (Hr _ _ _ _ Hk H2) as [?|(_ & ? & _)]; auto.
    + destruct (Hold _ _ Hd H1) as (t & E & <- & <-).
      destruct (Hr _ _ _ _ E H2) as [?|?]; [left; eapply return_returned; eauto|by right].
Qed.

Lemma still_inv s c s' : cinv s c -> n_ths s' = n_ths s -> n_ops s' = n_ops s -> cinv s' c.
Proof. intros [H1 H2 H3] Ht Ho. split; by rewrite ?Ht, ?Ho. Qed.

Lemma nnext_cinv s c a s' : ninv size nths d0 s -> cinv s c -> (forall k w, a <> NWrite k w) -> (forall k o, a <> NRead k o) ->
  nnext size nths s a = Some s' -> cinv s' c.
Proof.
  intros Hinv Hc Hw Ho E. destruct a as [k w|k o|k|k q|k|r e|r e]; cbn -[after_combine after_sync] in E; [by destruct (Hw k w)|by destruct (Ho k o)|..].
  - destruct (n_ths s !! k) as [th|] eqn:Hk; [|done]. cbn in E. destruct (t_pc th) eqn:Ep; try done. injection E as <-.
    destruct k as [r i]. eapply moved_inv; [done|done|done|]. moved_tac Hk Ep.
  - destruct (n_ths s !! k) as [th|] eqn:Hk; [|done]. cbn in E. destruct (q <? length (g_reps (n_lp s))); [|done].
    eapply moved_inv; [done|done|done|]. by eapply nrun_moved.
  - destruct (n_ths s !! k) as [th|] eqn:Hk; [|done]. cbn -[after_combine after_sync] in E. destruct k as [r i]. destruct (t_pc th) eqn:Ep; try done.
    + injection E as <-. eapply moved_inv; [done|done|done|]. moved_tac Hk Ep.
    + destruct (lp_next size (n_lp s) _); [|done]. injection E as <-. by eapply still_inv.
    + injection E as <-. eapply moved_inv; [done|done|done|]. moved_tac Hk Ep.
  - destruct (lp_next size (n_lp s) _); [|done]. injection E as <-. by eapply still_inv.
  - destruct (lp_next size (n_lp s) _); [|done]. injection E as <-. by eapply still_inv.
Qed.

Lemma cnext_inv x a y : ninv size nths d0 x.1 -> cinv x.1 x.2 -> cnext x a = Some y -> cinv y.1 y.2.
Proof.
  intros Hinv Hc E. destruct x as [s c]. destruct a as [k|a]; cbn in E.
  - destruct (prog k (length (calls c k))) as [o|] eqn:Hp; [|done]. cbn in E.
    destruct o as [w|o]; cbn in E; (destruct (n_ths s !! k) as [th|] eqn:Hk; [|done]); cbn in E;
      destruct (t_pc th) eqn:Ep; try done; injection E as <-; by apply begins_inv.
  - assert (Hx : exists s', nnext size nths s a = Some s' /\ y = (s', c) /\ (forall k w, a <> NWrite k w) /\ (forall k o, a <> NRead k o)).
    { destruct a; try done; destruct (nnext size nths s _) as [s'|]; try done; cbn in E; exists s'; by injection E as <-. }
    destruct Hx as (s' & Hs & -> & Hw & Ho). by eapply nnext_cinv.
Qed.

(** ** Reasoning about a client

    A call that has returned took effect somewhere in the order, on what the calls before
    it made of the data. *)
Section Position.
Context (ops : list ocall) (order : list nat).
Hypothesis Hlin : linearizes d0 ops order.

Lemma lin_position id x v p m : ops !! id = Some x -> o_ret x = Some (v, p, m) ->
  exists n xs d d', order !! n = Some id /\ Forall2 (fun a y => ops !! a = Some y) (take n order) xs
    /\ seq_ok d0 xs d /\ seq_step d (o_op x) = Ret (d', v).
Proof using Hlin.
  intros Hx Hr. destruct (list_elem_of_lookup_1 order id) as [n Hn]; [eapply lz_complete; [done|done|congruence]|].
  destruct (lz_legal _ _ _ Hlin) as (xs & d & HF & Hs). rewrite <- (take_drop_middle _ _ _ Hn) in HF.
  apply Forall2_app_inv_l in HF as (l1 & l2 & H1 & H2 & ->). apply Forall2_cons_inv_l in H2 as (y & l3 & Hy & _ & ->).
  apply seq_ok_app in Hs as (d1 & Hs1 & d2 & v' & Hst & Hv & _). assert (y = x) as -> by congruence.
  rewrite (Hv _ _ _ Hr) in *. by exists n, l1, d1, d2.
Qed.

(** What is before it and what is not. *)
Lemma lin_before n id a y xs : order !! n = Some id -> Forall2 (fun a y => ops !! a = Some y) (take n order) xs ->
  precedes ops a id -> ops !! a = Some y -> y ∈ xs.
Proof using Hlin.
  intros Hn HF Hp Hy. destruct (Hp) as (x & v & p & m & Hx & Hr & _). assert (x = y) as -> by congruence.
  destruct (list_elem_of_lookup_1 order a) as [i Hi]; [eapply lz_complete; [done|done|congruence]|].
  pose proof (lz_time _ _ _ Hlin _ _ _ _ Hi Hn Hp) as Hlt.
  destruct (Forall2_lookup_l _ _ _ _ _ HF (proj2 (lookup_take_Some _ _ _ _) (conj Hi Hlt))) as (z & Hz & E).
  assert (z = y) as -> by congruence. by eapply list_elem_of_lookup_2.
Qed.

Lemma lin_member n y xs : Forall2 (fun a y => ops !! a = Some y) (take n order) xs -> y ∈ xs ->
  exists i a, i < n /\ order !! i = Some a /\ ops !! a = Some y.
Proof using Hlin.
  intros HF [i Hi]%list_elem_of_lookup_1. destruct (Forall2_lookup_r _ _ _ _ _ HF Hi) as (a & Ha & E).
  apply lookup_take_Some in Ha as [Ha Hlt]. by exists i, a.
Qed.
End Position.

Hypothesis Hpow : is_pow2 size.
Hypothesis Hgc : GC_FROM_HEAD <= size.

Lemma creachable_inv nreps x : creachable nreps x -> nreachable size nths nreps d0 x.1 /\ cinv x.1 x.2.
Proof.
  intros Hr. induction Hr as [x [Hi Hc]|x y _ [Hn IH] [a E]].
  - split; [by apply reach_init|]. destruct Hi as (_ & _ & _ & Ho). rewrite Hc.
    assert (Hcalls : forall k, calls ∅ k = []) by (intros k; unfold calls; by rewrite lookup_empty).
    split; [split|..]; intros *; rewrite ?Hcalls, ?Ho; done.
  - split; [|eapply cnext_inv; [|done|done]; by eapply ninv_reachable].
    destruct x as [s c], a as [k|a]; cbn in E.
    + destruct (prog k (length (calls c k))) as [o|]; [|done]. cbn in E.
      destruct (nnext size nths s _) as [s'|] eqn:En; [|done]. cbn in E. injection E as <-. eapply reach_step; [done|by eexists].
    + assert (Hx : exists s', nnext size nths s a = Some s' /\ y = (s', c)).
      { destruct a; try done; destruct (nnext size nths s _) as [s'|]; try done; cbn in E; exists s'; by injection E as <-. }
      destruct Hx as (s' & Hs & ->). eapply reach_step; [done|by eexists].
Qed.

Lemma creachable_linearizable nreps x : creachable nreps x -> exists order, linearizes d0 (n_ops x.1) order.
Proof. intros [Hr _]%creachable_inv. by eapply ninv_linearizable, ninv_reachable. Qed.

(** A call [i] of thread [k] that has returned was made on the result of calls [xs].
    They are the calls [ys] of the threads: with a call all earlier ones of its thread,
    and of [k] exactly the earlier ones. *)
Record position k i (v : R) (o : WO + RO) (ys : list ((nat * nat) * nat)) (xs : list ocall) d : Prop := {
  po_nodup : NoDup ys;
  po_calls : Forall2 (fun y x => prog y.1 y.2 = Some (o_op x)) ys xs;
  po_closed : forall k' j j', (k', j) ∈ ys -> j' < j -> (k', j') ∈ ys;
  po_own : forall j, (k, j) ∈ ys <-> j < i;
  po_seq : seq_ok d0 xs d;
  po_step : exists d', seq_step d o = Ret (d', v);
  po_prog : prog k i = Some o;
}.

Lemma Forall_choose {A B} (P : A -> B -> Prop) (l : list A) : (forall x, x ∈ l -> exists y, P x y) -> exists l', Forall2 P l l'.
Proof.
  induction l as [|x l IH]; intros H; [by exists []|]. destruct (H x) as [y Hy]; [by left|].
  destruct IH as [l' Hl]; [intros z Hz; apply H; by right|]. exists (y :: l'). by constructor.
Qed.

(** Earlier calls of a thread come earlier in the order. *)
Lemma earlier_position ops order c : linearizes d0 ops order -> client_hist ops c -> forall k i j a b u,
  calls c k !! i = Some a -> calls c k !! j = Some b -> i < j -> order !! u = Some b -> exists u', u' < u /\ order !! u' = Some a.
Proof.
  intros Hlin Hh k i j a b u H1 H2 Hlt Hu. pose proof (ch_order _ _ Hh _ _ _ _ _ H1 H2 Hlt) as Hpre.
  destruct (Hpre) as (y & w & p' & m' & Hy & Hw & _).
  destruct (list_elem_of_lookup_1 order a) as [u' Hu']; [eapply lz_complete; [done|done|congruence]|].
  exists u'. split; [by eapply lz_time|done].
Qed.

Lemma client_position nreps s c k i id x v p m : creachable nreps (s, c) ->
  calls c k !! i = Some id -> n_ops s !! id = Some x -> o_ret x = Some (v, p, m) ->
  exists ys xs d, position k i v (o_op x) ys xs d.
Proof.
  intros Hr Hi Hx Hv. destruct (creachable_linearizable _ _ Hr) as [order Hlin]. cbn [fst] in Hlin.
  apply creachable_inv in Hr as [_ [[Hprog Hord Hall Hinj] _ _]]. cbn [fst snd] in *.
  destruct (lin_position _ _ Hlin _ _ _ _ _ Hx Hv) as (n & xs & d & d' & Hn & HF & Hs & Hst).
  destruct (Forall_choose (fun a y => calls c y.1 !! y.2 = Some a) (take n order)) as [ys Hys].
  { intros a [j Hj]%list_elem_of_lookup_1. destruct (Forall2_lookup_l _ _ _ _ _ HF Hj) as (y & _ & Hy).
    destruct (Hall _ _ Hy) as (k' & j' & ?). by exists (k', j'). }
  assert (Hin : forall k' j' a, calls c k' !! j' = Some a -> (k', j') ∈ ys <-> exists u, u < n /\ order !! u = Some a).
  { intros k' j' a Ha. split.
    - intros [u Hu]%list_elem_of_lookup_1. destruct (Forall2_lookup_r _ _ _ _ _ Hys Hu) as (a' & Ha' & E). cbn in E.
      apply lookup_take_Some in Ha' as [Ha' Hlt]. exists u. split; [done|]. congruence.
    - intros (u & Hlt & Hu). destruct (Forall2_lookup_l _ _ _ _ _ Hys (proj2 (lookup_take_Some _ _ _ _) (conj Hu Hlt))) as ([k2 j2] & Hy & E).
      rewrite (Hinj _ _ _ _ _ Ha E). by eapply list_elem_of_lookup_2. }
  assert (Hpos := earlier_position _ _ c Hlin (Build_client_hist _ _ Hprog Hord Hall Hinj)).
  exists ys, xs, d. destruct (Hprog _ _ _ Hi) as (x' & Hx' & Ei). assert (x' = x) as -> by congruence. 
  assert (Hlook : forall u k' j', ys !! u = Some (k', j') -> exists a, u < n /\ order !! u = Some a /\ calls c k' !! j' = Some a).
  { intros u k' j' Hu. destruct (Forall2_lookup_r _ _ _ _ _ Hys Hu) as (a & [Ha Hlt]%lookup_take_Some & E). by exists a. }
  split; [..|done|by eexists|done].
  - apply list.NoDup_alt. intros u1 u2 [k' j'] (a & _ & H1 & E1)%Hlook (a' & _ & H2 & E2)%Hlook.
    assert (a' = a) as -> by congruence. by eapply NoDup_lookup; [apply Hlin|..].
  - apply Forall2_same_length_lookup. split; [by rewrite <- (Forall2_length Hys), (Forall2_length HF)|].
    intros u [k' j'] y (a & Hlt & Ha & E)%Hlook Hy. destruct (Forall2_lookup_r _ _ _ _ _ HF Hy) as (a' & [Ha' _]%lookup_take_Some & Ea).
    destruct (Hprog _ _ _ E) as (y' & Hy' & Eq). cbn. rewrite Eq. congruence.
  - intros k' j j' [u (a & Hlt & Ha & E)%Hlook]%list_elem_of_lookup_1 Hj.
    destruct (lookup_lt_is_Some_2 (calls c k') j') as [a' Ha']; [apply lookup_lt_Some in E; lia|].
    destruct (Hpos _ _ _ _ _ _ Ha' E Hj Ha) as (u' & Hu & ?). apply (Hin _ _ _ Ha'). exists u'. split; [lia|done].
  - intros j. split.
    + intros [u (a & Hlt & Ha & E)%Hlook]%list_elem_of_lookup_1. destruct (lt_eq_lt_dec j i) as [[?| ->]|Hij]; [done| |].
      * assert (a = id) as -> by congruence. pose proof (NoDup_lookup _ _ _ _ (lz_nodup _ _ _ Hlin) Ha Hn). lia.
      * destruct (Hpos _ _ _ _ _ _ Hi E Hij Ha) as (u' & Hu & H). pose proof (NoDup_lookup _ _ _ _ (lz_nodup _ _ _ Hlin) H Hn). lia.
    + intros Hj. destruct (lookup_lt_is_Some_2 (calls c k) j) as [a Ha]; [apply lookup_lt_Some in Hi; lia|].
      destruct (Hpos _ _ _ _ _ _ Ha Hi Hj Hn) as (u' & Hu & ?). apply (Hin _ _ _ Ha). by exists u'.
Qed.

(** Forgetting the numbers of the calls. *)
Lemma position_before k i v o ys xs d : position k i v o ys xs d -> forall j, j < i -> exists y, prog k j = Some (o_op y) /\ y ∈ xs.
Proof.
  intros Hp j Hj. apply (po_own _ _ _ _ _ _ _ Hp), list_elem_of_lookup_1 in Hj as [u Hu].
  destruct (Forall2_lookup_l _ _ _ _ _ (po_calls _ _ _ _ _ _ _ Hp) Hu) as (y & Hy & E). exists y. split; [done|by eapply list_elem_of_lookup_2].
Qed.

Lemma position_member k i v o ys xs d : position k i v o ys xs d -> forall y, y ∈ xs -> exists k' j, prog k' j = Some (o_op y) /\ (k' = k -> j < i).
Proof.
  intros Hp y [u Hu]%list_elem_of_lookup_1. destruct (Forall2_lookup_r _ _ _ _ _ (po_calls _ _ _ _ _ _ _ Hp) Hu) as ([k' j] & Hy & E).
  exists k', j. split; [done|]. intros ->. apply (po_own _ _ _ _ _ _ _ Hp). by eapply list_elem_of_lookup_2.
Qed.
End Client.
