(* ===== verification/Examples.v ===== *)
(** * The examples (node-replication/examples/nr_hashmap.rs, nr_btreeset.rs, nr_stack.rs)

    Data structures replicated with the library, and the loops their threads run.  The
    loops contain assertions about the responses, made while all threads run at once:
    they hold because the object is linearizable and a thread makes one call after the
    other.  Each theorem is about one round of threads on a new object.

    The library asks responses for an index into the cache of data ([IdxGetter]), which
    the examples do not implement: it is a parameter here. *)

From stdpp Require Import gmap sets.
From S2P Require Import Prelude Context Log LogProtocol LogProtocolSpec Replica NrConc NrConcSpec.
From S2P Require Import NrConcInv Linear NrConcTheorems LogProtocolTheorems Client.

(** Back to the last multiple. *)
Lemma mod_back (a b r : N) : (r < b)%N -> ((a + r) mod b = r)%N -> (a mod b = 0)%N.
Proof.
  intros Hr H. pose proof (N.div_mod (a + r) b). symmetry. apply (N.mod_unique a b ((a + r) / b)); lia.
Qed.

Lemma mod_split (a b : N) : b <> 0%N -> exists q r, (a mod b = r /\ a = b * q + r /\ r < b)%N.
Proof. intros Hb. exists (a / b)%N, (a mod b)%N. split_and!; [done|by apply N.div_mod|by apply N.mod_lt]. Qed.

(** ** nr_hashmap.rs *)

Module HashMapExample.

Record NrHashMap := mkMap { storage : gmap N N }.
Inductive HmModify := Put (key value : N).
Inductive HmAccess := Get (key : N).

Definition hm_dispatch (d : NrHashMap) (o : HmAccess) : res (option N) :=
  match o with Get key => Ret (storage d !! key) end.
Definition hm_dispatch_mut (d : NrHashMap) (o : HmModify) : res (NrHashMap * option N) :=
  match o with Put key value => Ret (mkMap (<[key := value]> (storage d)), storage d !! key) end.

Definition PER_THREAD_OPS : N := 2000000.

(** The call of [thread_loop] with the number [i]. *)
Definition hm_thread_loop (i : nat) : option (HmModify + HmAccess) :=
  let i := N.of_nat i in
  if (i <? PER_THREAD_OPS)%N then
    Some (if (i mod 2 =? 0)%N then inl (Put i (i + 1)) else inr (Get (i - 1)))
  else None.

(** [assert_eq!(response, Some(i))]. *)
Definition hm_thread_assert (i : nat) (v : option N) : bool :=
  if (N.of_nat i mod 2 =? 1)%N then bool_decide (v = Some (N.of_nat i)) else true.

Lemma hm_thread_loop_some i o : hm_thread_loop i = Some o ->
  o = if (N.of_nat i mod 2 =? 0)%N then inl (Put (N.of_nat i) (N.of_nat i + 1)) else inr (Get (N.of_nat i - 1)).
Proof. unfold hm_thread_loop. case (N.of_nat i <? PER_THREAD_OPS)%N; [by intros [= <-]|done]. Qed.

Section Example.
Variable cn : option N -> Z.
#[local] Instance HashMapDispatch : Dispatch NrHashMap HmAccess HmModify (option N) :=
  {| dispatch := hm_dispatch; dispatch_mut := hm_dispatch_mut; cn_idx := cn; resp_eqb := fun a b => bool_decide (a = b) |}.

Abbreviation call := (ocall (RO := HmAccess) (WO := HmModify) (R := option N)).

(** Every value is the key plus one, and no key disappears. *)
Lemma seq_values d (xs : list call) d' : seq_ok d xs d' -> (forall y k v, y ∈ xs -> o_op y = inl (Put k v) -> v = (k + 1)%N) ->
  map_Forall (fun k v => v = (k + 1)%N) (storage d) ->
  map_Forall (fun k v => v = (k + 1)%N) (storage d')
  /\ (forall k, is_Some (storage d !! k) -> is_Some (storage d' !! k))
  /\ (forall y k v, y ∈ xs -> o_op y = inl (Put k v) -> is_Some (storage d' !! k)).
Proof.
  revert d. induction xs as [|x xs IH]; intros d; cbn.
  - intros <- _ Hd. split_and!; [done|done|]. intros y k v Hy. by apply not_elem_of_nil in Hy.
  - intros (d1 & v & Hst & _ & Hs) Hput Hd.
    assert (H1 : map_Forall (fun k v => v = (k + 1)%N) (storage d1)
      /\ (forall k, is_Some (storage d !! k) -> is_Some (storage d1 !! k))
      /\ (forall k w, o_op x = inl (Put k w) -> is_Some (storage d1 !! k))).
    { destruct (o_op x) as [[k w]|[k]] eqn:Eo; cbn in Hst; injection Hst as <- <-; cbn.
      - split_and!; [apply map_Forall_insert_2; [|done]; eapply Hput; [by left|done]| |].
        + intros k' Hk. by apply lookup_insert_is_Some'; right.
        + intros k' w' [= <- <-]. by rewrite lookup_insert_eq.
      - done. }
    destruct H1 as (Hd1 & Hkeep & Hx). destruct (IH d1 Hs) as (Hd' & Hk' & Hin); [|done|].
    { intros y k w Hy. apply Hput. by right. }
    split_and!; [done|auto|]. intros y k w [->|Hy]%elem_of_cons E; eauto.
Qed.

(** C14: The assertion of the hash map example holds.  However the threads of all replicas
    interleave, a thread that looks up the key it has put last finds the value it put,
    although all threads put the same keys. *)
Theorem hashmap_assertions size nths nreps s c k i id x v p m :
  is_pow2 size -> GC_FROM_HEAD <= size ->
  creachable size nths (mkMap ∅) (fun _ => hm_thread_loop) nreps (s, c) ->
  calls c k !! i = Some id -> n_ops s !! id = Some x -> o_ret x = Some (v, p, m) ->
  hm_thread_assert i v = true.
Proof.
  intros Hpow Hgc Hr Hi Hx Hv. unfold hm_thread_assert. destruct (N.eqb_spec (N.of_nat i mod 2) 1) as [Hodd|]; [|done].
  destruct (client_position _ _ _ _ Hpow Hgc _ _ _ _ _ _ _ _ _ _ Hr Hi Hx Hv) as (ys & xs & d & Hpos).
  pose proof (position_before _ _ _ _ _ _ _ _ _ Hpos) as Hearlier. pose proof (position_member _ _ _ _ _ _ _ _ _ Hpos) as Hmem.
  destruct Hpos as [_ _ _ _ Hs [d' Hst] Ei].
  destruct i as [|j]; [done|]. destruct (Hearlier j) as (y & Ea & Hy); [lia|].
  assert (Hval : forall y k v, y ∈ xs -> o_op y = inl (Put k v) -> v = (k + 1)%N).
  { intros y' k' v' Hin E. destruct (Hmem _ Hin) as (k2 & j2 & Eq%hm_thread_loop_some & _). rewrite E in Eq. case_match; congruence. }
  destruct (seq_values _ _ _ Hs Hval) as (Hd & _ & Hput); [apply map_Forall_empty|].
  assert (Hev : (N.of_nat j mod 2 = 0)%N) by (apply (mod_back _ _ 1); [lia|]; by replace (N.of_nat j + 1)%N with (N.of_nat (S j)) by lia).
  apply hm_thread_loop_some in Ei, Ea. rewrite Hodd in Ei. rewrite Hev in Ea.
  destruct (Hput y (N.of_nat j) (N.of_nat j + 1)%N) as [w Hw]; [done|done|]. rewrite Ei in Hst. cbn -[N.of_nat] in Hst. injection Hst as _ <-. apply bool_decide_eq_true.
  replace (N.of_nat (S j) - 1)%N with (N.of_nat j) by lia. rewrite Hw, (Hd _ _ Hw). f_equal. lia.
Qed.
End Example.

(** A thread of either replica begins; the first puts the key 0 and looks it up. *)
#[local] Instance hm_inst : Dispatch NrHashMap HmAccess HmModify (option N) := HashMapDispatch (fun _ => -1)%Z.
Definition hm_labels : list (clabel (RO := HmAccess) (WO := HmModify)) :=
  [CCall (0, 0); CCall (1, 0)] ++ (CRun <$> turns 42 (0, 0)) ++ [CCall (0, 0)] ++ (CRun <$> turns 5 (0, 0)).
Definition hm_next := cnext demo_size (fun _ => 1) (fun _ => hm_thread_loop).
Definition hm_start : client_state NrHashMap HmAccess HmModify (option N) := (nr_start demo_size 2 1 (mkMap ∅), ∅).
Definition hm_end := default hm_start (run_labels hm_next hm_start hm_labels).

Lemma hm_run : run_labels hm_next hm_start hm_labels = Some hm_end.
Proof. vm_compute. reflexivity. Qed.

Lemma hm_reachable : creachable demo_size (fun _ => 1) (mkMap ∅) (fun _ => hm_thread_loop) 2 (hm_end.1, hm_end.2).
Proof.
  rewrite <- surjective_pairing. eapply run_labels_reachable; [|exact hm_run].
  apply reach_init. split; [apply nr_start_init|done].
Qed.

Lemma hashmap_assertions_witness :
  calls hm_end.2 (0, 0) !! 1 = Some 2 /\ hm_thread_assert 1 (Some 1%N) = true.
Proof.
  split; [vm_compute; reflexivity|].
  apply (hashmap_assertions (fun _ => -1)%Z demo_size (fun _ => 1) 2 hm_end.1 hm_end.2 (0, 0) 1 2
    (mkOp (inr (Get 0)) 1 (Some (Some 1%N, 1, 3))) (Some 1%N) 1 3 demo_pow2 demo_gc).
  - exact hm_reachable.
  - vm_compute. reflexivity.
  - vm_compute. reflexivity.
  - reflexivity.
Defined.
End HashMapExample.

(** ** nr_btreeset.rs *)

Module BtreeSetExample.

Record NrBtreeSet := mkSet { storage : gset N }.
Inductive BsModify := Put (key : N) | Delete (key : N).
Inductive BsAccess := Get (key : N) | Contains (key : N).

Definition bs_dispatch (d : NrBtreeSet) (o : BsAccess) : res (option N) :=
  match o with
  | Get key => Ret (if bool_decide (key ∈ storage d) then Some key else None)
  | Contains key => Ret (Some (if bool_decide (key ∈ storage d) then 1 else 0)%N)
  end.
Definition bs_dispatch_mut (d : NrBtreeSet) (o : BsModify) : res (NrBtreeSet * option N) :=
  match o with
  | Put key => Ret (mkSet ({[ key ]} ∪ storage d), Some (if bool_decide (key ∈ storage d) then 0 else 1)%N)
  | Delete key => Ret (mkSet (storage d ∖ {[ key ]}), if bool_decide (key ∈ storage d) then Some key else None)
  end.

Definition N_OPS : N := 1000000.

(** The call with the number [j] of [thread_loop] for the thread [t]. *)
Definition bs_thread_loop (t : N) (j : nat) : option (BsModify + BsAccess) :=
  let i := (t * N_OPS + N.of_nat j)%N in
  if (i <? (t + 1) * N_OPS)%N then
    Some (if (i mod 4 =? 0)%N then inl (Put i)
          else if (i mod 4 =? 1)%N then inr (Contains (i - 1))
          else if (i mod 4 =? 2)%N then inr (Get (i - 2))
          else inl (Delete (i - 3)))
  else None.

(** Its assertions. *)
Definition bs_thread_assert (t : N) (j : nat) (v : option N) : bool :=
  let i := (t * N_OPS + N.of_nat j)%N in
  if (i mod 4 =? 0)%N then true
  else if (i mod 4 =? 1)%N then bool_decide (v = Some 1%N)
  else if (i mod 4 =? 2)%N then bool_decide (v = Some (i - 2)%N)
  else bool_decide (v = Some (i - 3)%N).

Section Example.
Variable cn : option N -> Z.
#[local] Instance BtreeSetDispatch : Dispatch NrBtreeSet BsAccess BsModify (option N) :=
  {| dispatch := bs_dispatch; dispatch_mut := bs_dispatch_mut; cn_idx := cn; resp_eqb := fun a b => bool_decide (a = b) |}.

Abbreviation call := (ocall (RO := BsAccess) (WO := BsModify) (R := option N)).

(** A key that has been put and not deleted is there. *)
Lemma seq_member d (xs : list call) d' key : seq_ok d xs d' -> (forall y, y ∈ xs -> o_op y <> inl (Delete key)) ->
  key ∈ storage d \/ (exists y, y ∈ xs /\ o_op y = inl (Put key)) -> key ∈ storage d'.
Proof.
  revert d. induction xs as [|x xs IH]; intros d; cbn.
  - intros <- _ [?|(y & Hy & _)]; [done|by apply not_elem_of_nil in Hy].
  - intros (d1 & v & Hst & _ & Hs) Hdel Hor. apply (IH d1 Hs); [intros y Hy; apply Hdel; by right|].
    pose proof (Hdel x (list_elem_of_here _ _)) as Hx.
    destruct Hor as [Hd|(y & [->|Hy]%elem_of_cons & Ey)]; [| |right; eauto]; left.
    + destruct (o_op x) as [[k|k]|[k|k]]; cbn in Hst; injection Hst as <- _; cbn; try done; set_solver.
    + rewrite Ey in Hst. cbn in Hst. injection Hst as <- _. cbn. set_solver.
Qed.

(** [tid] is the number of the thread that has registered as [k]. *)
Variable tid : nat * nat -> N.
Hypothesis tid_inj : forall k k', tid k = tid k' -> k = k'.

(** Where a thread is in its rounds of four calls. *)
Lemma round_member k i xs d (r : N) : (1 <= r <= 3)%N -> ((tid k * N_OPS + N.of_nat i) mod 4 = r)%N ->
  (N.of_nat i < N_OPS)%N -> seq_ok (mkSet ∅) xs d ->
  (forall j, j < i -> exists y : call, bs_thread_loop (tid k) j = Some (o_op y) /\ y ∈ xs) ->
  (forall y : call, y ∈ xs -> exists k' j, bs_thread_loop (tid k') j = Some (o_op y) /\ (k' = k -> j < i)) ->
  (tid k * N_OPS + N.of_nat i - r)%N ∈ storage d.
Proof.
  intros Hr Hm Hlt Hs He Ha. remember (tid k * N_OPS + N.of_nat i - r)%N as key eqn:Ekey.
  assert (Hi : exists Q, (tid k * N_OPS + N.of_nat i = 4 * Q + r)%N).
  { exists ((tid k * N_OPS + N.of_nat i) / 4)%N. pose proof (N.div_mod (tid k * N_OPS + N.of_nat i) 4). lia. }
  destruct Hi as [Q HQ]. unfold N_OPS in *. assert (Hri : (r <= N.of_nat i)%N) by lia.
  apply (seq_member _ _ _ _ Hs).
  - intros y Hy Ey. destruct (Ha y Hy) as (k' & j & Ej & Hj). rewrite Ey in Ej. unfold bs_thread_loop, N_OPS in Ej.
    remember (tid k' * 1000000 + N.of_nat j)%N as i' eqn:Ei. destruct (mod_split i' 4) as (q' & r' & Er & Hq' & Hr'); [done|]. rewrite Er in Ej.
    destruct (N.ltb_spec i' ((tid k' + 1) * 1000000)); [|done].
    destruct (N.eqb_spec r' 0); [done|]. destruct (N.eqb_spec r' 1); [done|]. destruct (N.eqb_spec r' 2); [done|].
    injection Ej as Ej. assert (Hk : tid k' = tid k) by lia. specialize (Hj (tid_inj _ _ Hk)). lia.
  - right. destruct (He (i - N.to_nat r)) as (y & Ey & Hy); [lia|]. exists y. split; [done|].
    unfold bs_thread_loop, N_OPS in Ey. replace (tid k * 1000000 + N.of_nat (i - N.to_nat r))%N with key in Ey by lia.
    destruct (N.ltb_spec key ((tid k + 1) * 1000000)); [|lia].
    replace (key mod 4)%N with 0%N in Ey by (apply (N.mod_unique key 4 Q); lia). by injection Ey as <-.
Qed.

(** C15: The assertions of the set example hold.  However the threads of all replicas
    interleave, a thread finds the key it has put, and deletes it. *)
Theorem btreeset_assertions size nths nreps s c k i id x v p m :
  is_pow2 size -> GC_FROM_HEAD <= size ->
  creachable size nths (mkSet ∅) (fun k => bs_thread_loop (tid k)) nreps (s, c) ->
  calls c k !! i = Some id -> n_ops s !! id = Some x -> o_ret x = Some (v, p, m) ->
  bs_thread_assert (tid k) i v = true.
Proof.
  intros Hpow Hgc Hr Hi Hx Hv.
  destruct (client_position _ _ _ _ Hpow Hgc _ _ _ _ _ _ _ _ _ _ Hr Hi Hx Hv) as (ys & xs & d & Hpos).
  pose proof (position_before _ _ _ _ _ _ _ _ _ Hpos) as He. pose proof (position_member _ _ _ _ _ _ _ _ _ Hpos) as Ha.
  destruct Hpos as [_ _ _ _ Hs [d' Hst] Ei].
  unfold bs_thread_loop in Ei. unfold bs_thread_assert. set (n := (tid k * N_OPS + N.of_nat i)%N) in *.
  destruct (N.ltb_spec n ((tid k + 1) * N_OPS)) as [Hlt|]; [|done]. destruct (mod_split n 4) as (q & r & Er & _ & Hr4); [done|].
  assert (Hrd : (1 <= r <= 3)%N -> (n - r)%N ∈ storage d).
  { intros H1. apply (round_member k i xs d r); try done. unfold n in Hlt. lia. }
  rewrite Er in *. assert (Hcase : (r = 0 \/ r = 1 \/ r = 2 \/ r = 3)%N) by lia.
  destruct Hcase as [-> |[-> |[-> | ->]]]; [done|..]; cbn -[n] in Ei |- *; injection Ei as Ei; rewrite <- Ei in Hst; cbn -[n] in Hst;
    (rewrite bool_decide_true in Hst; [|by apply Hrd]); injection Hst as _ <-; by apply bool_decide_eq_true.
Qed.
End Example.

(** A thread puts its first key, finds it, gets it and deletes it, while a thread of the
    other replica begins. *)
#[local] Instance bs_inst : Dispatch NrBtreeSet BsAccess BsModify (option N) := BtreeSetDispatch (fun _ => -1)%Z.
Definition bs_tid (k : nat * nat) : N := N.pos (encode k).
Definition bs_loop (k : nat * nat) := bs_thread_loop (bs_tid k).
Definition bs_labels : list (clabel (RO := BsAccess) (WO := BsModify)) :=
  [CCall (0, 0); CCall (1, 0)] ++ (CRun <$> turns 42 (0, 0)) ++ [CCall (0, 0)] ++ (CRun <$> turns 5 (0, 0))
  ++ [CCall (0, 0)] ++ (CRun <$> turns 5 (0, 0)) ++ [CCall (0, 0)] ++ (CRun <$> turns 42 (0, 0)).
Definition bs_next := cnext demo_size (fun _ => 1) bs_loop.
Definition bs_start : client_state NrBtreeSet BsAccess BsModify (option N) := (nr_start demo_size 2 1 (mkSet ∅), ∅).
Definition bs_end := default bs_start (run_labels bs_next bs_start bs_labels).

Lemma bs_run : run_labels bs_next bs_start bs_labels = Some bs_end.
Proof. vm_compute. reflexivity. Qed.

Lemma bs_reachable : creachable demo_size (fun _ => 1) (mkSet ∅) bs_loop 2 (bs_end.1, bs_end.2).
Proof.
  rewrite <- surjective_pairing. eapply run_labels_reachable; [|exact bs_run].
  apply reach_init. split; [apply nr_start_init|done].
Qed.

Lemma bs_tid_inj k k' : bs_tid k = bs_tid k' -> k = k'.
Proof. intros [= E]. by apply encode_inj in E. Qed.

Lemma btreeset_assertions_witness :
  calls bs_end.2 (0, 0) !! 3 = Some 4 /\ bs_thread_assert (bs_tid (0, 0)) 3 (Some 3000000%N) = true.
Proof.
  split; [vm_compute; reflexivity|].
  apply (btreeset_assertions (fun _ => -1)%Z bs_tid bs_tid_inj demo_size (fun _ => 1) 2 bs_end.1 bs_end.2 (0, 0) 3 4
    (mkOp (inl (Delete 3000000)) 1 (Some (Some 3000000%N, 1, 5))) (Some 3000000%N) 1 5 demo_pow2 demo_gc bs_reachable).
  - vm_compute. reflexivity.
  - vm_compute. reflexivity.
  - reflexivity.
Defined.
End BtreeSetExample.

(** ** nr_stack.rs *)

Module StackExample.

(** [Modify<T>], [Access] and [Stack<T>]. *)
Inductive StModify (T : Type) := Push (v : T) | Pop.
Arguments Push {T} v.
Arguments Pop {T}.
Inductive StAccess := Peek.
Record Stack (T : Type) := mkStack { storage : list T }.
Arguments mkStack {T} storage.
Arguments storage {T} s.

(** The end of the vector is the end of the list. *)
Definition DEFAULT_STACK_SIZE : nat := 1000.
Definition stack_default {T : Type} (def : T) : Stack T :=
  mkStack (foldl (fun l _ => l ++ [def]) [] (seq 0 DEFAULT_STACK_SIZE)).

Definition st_dispatch {T : Type} (d : Stack T) (o : StAccess) : res (option T) :=
  match o with Peek => Ret (list.last (storage d)) end.
Definition st_dispatch_mut {T : Type} (d : Stack T) (o : StModify T) : res (Stack T * option T) :=
  match o with
  | Push v => Ret (mkStack (storage d ++ [v]), None)
  | Pop => Ret (mkStack (removelast (storage d)), list.last (storage d))
  end.

Definition NUM_OPS_PER_THREAD : nat := 2048.

(** The calls that [push], [pop] and [peek] of [NrStack<T>] make. *)
Definition nr_push {T : Type} (v : T) : StModify T + StAccess := inl (Push v).
Definition nr_pop {T : Type} : StModify T + StAccess := inl Pop.
Definition nr_peek {T : Type} : StModify T + StAccess := inr Peek.

(** The call of [thread_loop] with the number [i]. *)
Definition st_thread_loop (i : nat) : option (StModify nat + StAccess) :=
  if i <? NUM_OPS_PER_THREAD then
    Some (match i mod 3 with 0 => nr_push i | 1 => nr_pop | _ => nr_peek end)
  else None.

Lemma st_thread_loop_some i o :
  st_thread_loop i = Some o -> o = match i mod 3 with 0 => inl (Push i) | 1 => inl Pop | _ => inr Peek end.
Proof. unfold st_thread_loop. case (i <? NUM_OPS_PER_THREAD); [by intros [= <-]|done]. Qed.

Section Example.
Variable cn : option nat -> Z.
#[local] Instance StackDispatch : Dispatch (Stack nat) StAccess (StModify nat) (option nat) :=
  {| dispatch := st_dispatch; dispatch_mut := st_dispatch_mut; cn_idx := cn; resp_eqb := fun a b => bool_decide (a = b) |}.

Abbreviation call := (ocall (RO := StAccess) (WO := StModify nat) (R := option nat)).

Definition is_push (x : call) : bool := match o_op x with inl (Push _) => true | _ => false end.
Definition is_pop (x : call) : bool := match o_op x with inl Pop => true | _ => false end.
Definition count_calls (f : call -> bool) (xs : list call) : nat := length (filter (fun x => f x = true) xs).

Lemma count_calls_cons f x xs : count_calls f (x :: xs) = (if f x then 1 else 0) + count_calls f xs.
Proof. unfold count_calls. rewrite filter_cons. by destruct (f x). Qed.

Lemma default_length : length (storage (stack_default 0)) = DEFAULT_STACK_SIZE.
Proof. vm_compute. reflexivity. Qed.

(** What is pushed is on the stack until it is popped. *)
Lemma seq_size d xs d' : seq_ok d xs d' -> length (storage d) + count_calls is_push xs <= length (storage d') + count_calls is_pop xs.
Proof.
  revert d. induction xs as [|x xs IH]; intros d; cbn [seq_ok].
  - intros <-. cbn. lia.
  - intros (d1 & v & Hst & _ & Hs). specialize (IH d1 Hs). rewrite !count_calls_cons. unfold is_push at 1, is_pop at 1.
    destruct (o_op x) as [[w|]|[]]; cbn in Hst; injection Hst as <- _; cbn [storage] in IH.
    + rewrite length_app in IH. cbn in IH. lia.
    + rewrite removelast_firstn_len, length_take in IH. lia.
    + lia.
Qed.

(** Every thread pops only what it has pushed before. *)
Lemma pops_pushes d0 k i v o ys xs d : position d0 (fun _ => st_thread_loop) k i v o ys xs d -> count_calls is_pop xs <= count_calls is_push xs.
Proof.
  intros [Hnd Hc Hcl _ _ _ _].
  assert (Hcount : forall f (P : nat -> bool), (forall j x, st_thread_loop j = Some (o_op x) -> f x = P j) ->
            count_calls f xs = length (filter (fun y : nat * nat * nat => P y.2 = true) ys)).
  { intros f P Hf. clear Hnd Hcl. induction Hc as [|[k' j] x ys' xs' Hx Hc IH]; [done|].
    rewrite count_calls_cons, filter_cons, (Hf j x Hx), IH. cbn. by destruct (P j). }
  rewrite (Hcount is_pop (fun j => j mod 3 =? 1)), (Hcount is_push (fun j => j mod 3 =? 0)).
  - rewrite <- (length_fmap (fun y => (y.1, y.2 - 1))). apply submseteq_length, NoDup_submseteq.
    + apply NoDup_fmap_2_strong; [|by apply list.NoDup_filter]. intros [k1 j1] [k2 j2]. rewrite !list_elem_of_filter. cbn.
      rewrite !Nat.eqb_eq. intros [H1 _] [H2 _] [= -> E]. f_equal. destruct j1, j2; try done; lia.
    + intros [k' j'] ([k2 j2] & [= -> ->] & H)%list_elem_of_fmap. apply list_elem_of_filter in H as [H Hin]. cbn in *.
      apply list_elem_of_filter. cbn. rewrite Nat.eqb_eq in *. destruct j2 as [|j2]; [done|].
      replace (S j2 - 1) with j2 by lia. split; [|eapply Hcl; [done|lia]].
      pose proof (Nat.div_mod (S j2) 3). symmetry. apply (Nat.mod_unique j2 3 (S j2 / 3)); lia.
  - intros j x E%st_thread_loop_some. unfold is_push. rewrite E. by destruct (j mod 3) as [|[|]].
  - intros j x E%st_thread_loop_some. unfold is_pop. rewrite E. by destruct (j mod 3) as [|[|]].
Qed.

(** C17: The threads of the stack example never find the stack empty.  However they
    interleave, every [pop] and every [peek] returns an element, because each thread
    pushes before it pops and the stack is made with a thousand elements. *)
Theorem stack_never_empty size nths nreps s c k i id x v p m :
  is_pow2 size -> GC_FROM_HEAD <= size ->
  creachable size nths (stack_default 0) (fun _ => st_thread_loop) nreps (s, c) ->
  calls c k !! i = Some id -> n_ops s !! id = Some x -> o_ret x = Some (v, p, m) ->
  i mod 3 <> 0 -> exists w, v = Some w.
Proof.
  intros Hpow Hgc Hr Hi Hx Hv Hm.
  destruct (client_position _ _ _ _ Hpow Hgc _ _ _ _ _ _ _ _ _ _ Hr Hi Hx Hv) as (ys & xs & d & Hpos).
  pose proof (pops_pushes _ _ _ _ _ _ _ _ Hpos) as Hle. destruct Hpos as [_ _ _ _ Hs [d' Hst] Ei].
  apply seq_size in Hs. rewrite default_length in Hs.
  assert (Hlast : exists w, list.last (storage d) = Some w).
  { apply last_is_Some. intros E. rewrite E in Hs. change DEFAULT_STACK_SIZE with (S 999) in Hs. cbn [length] in Hs. lia. }
  destruct Hlast as [w Hw]. exists w. apply st_thread_loop_some in Ei.
  destruct (i mod 3) as [|[|]]; [done|..]; rewrite Ei in Hst; cbn in Hst; rewrite Hw in Hst; by injection Hst as _ <-.
Qed.
End Example.

(** A thread of each replica pushes, the first pops. *)
#[local] Instance st_inst : Dispatch (Stack nat) StAccess (StModify nat) (option nat) := StackDispatch (fun _ => -1)%Z.
Definition st_labels : list (clabel (RO := StAccess) (WO := StModify nat)) :=
  [CCall (0, 0); CCall (1, 0)] ++ (CRun <$> turns 42 (0, 0)) ++ [CCall (0, 0)] ++ (CRun <$> turns 42 (0, 0)).
Definition st_next := cnext demo_size (fun _ => 1) (fun _ => st_thread_loop).
Definition st_start : client_state (Stack nat) StAccess (StModify nat) (option nat) := (nr_start demo_size 2 1 (stack_default 0), ∅).
Definition st_end := default st_start (run_labels st_next st_start st_labels).

Lemma st_run : run_labels st_next st_start st_labels = Some st_end.
Proof. vm_compute. reflexivity. Qed.

Lemma st_reachable : creachable demo_size (fun _ => 1) (stack_default 0) (fun _ => st_thread_loop) 2 (st_end.1, st_end.2).
Proof.
  rewrite <- surjective_pairing. eapply run_labels_reachable; [|exact st_run].
  apply reach_init. split; [apply nr_start_init|done].
Qed.

Lemma stack_never_empty_witness :
  calls st_end.2 (0, 0) !! 1 = Some 2 /\ exists w, Some 0 = Some w.
Proof.
  split; [vm_compute; reflexivity|].
  apply (stack_never_empty (fun _ => -1)%Z demo_size (fun _ => 1) 2 st_end.1 st_end.2 (0, 0) 1 2
    (mkOp (inl Pop) 1 (Some (Some 0, 1, 3))) (Some 0) 1 3 demo_pow2 demo_gc st_reachable).
  - vm_compute. reflexivity.
  - vm_compute. reflexivity.
  - reflexivity.
  - discriminate.
Defined.
End StackExample.
