(* ===== verification/CnrLog.v ===== *)
(** * The log of CNR (node-replication/src/cnr/log.rs)

    Concurrent node replication partitions the operations over several logs.  The
    closure that consumes an entry of one log may work on the other logs and on
    the replica, so the functions of this file act on a store: the list of all
    logs and a rest [X] (the replicas).  A log is named by its position.

    Like NrLog, this file models a thread that runs without interference. *)

From S2P Require Import Prelude Context Log NrLog.

(** ** Data *)

(** [EntryMetaData]; [em_refcnt] is a usize. *)
Record EntryMetaData := mkEMeta {
  em_is_scan : bool;
  em_thread : nat;
  em_is_read_op : bool;
  em_depends_on : option (list nat);
  em_refcnt : N;
}.

(** [EntryMetaData::default]. *)
Definition emeta_default : EntryMetaData := mkEMeta false 0 false None 0.

(** [LogMetaData].  The callback is a function on the state it captures and the
    array it is handed ([AtomicBool]s, which it may clear). *)
Record LogMetaData (G : Type) := mkLMeta {
  lm_idx : nat;
  lm_scanlock : nat;
  lm_gc : G -> list bool -> nat -> G * list bool;
  lm_gc_state : G;
  lm_notify : bool;
  lm_dormant : list bool;
}.
Arguments mkLMeta {G} _ _ _ _ _ _.
Arguments lm_idx {G} _.
Arguments lm_scanlock {G} _.
Arguments lm_gc {G} _ _ _ _.
Arguments lm_gc_state {G} _.
Arguments lm_notify {G} _.
Arguments lm_dormant {G} _.

(** [LogMetaData::new]: the callback does nothing. *)
Definition lmeta_new {G} (g : G) (idx : nat) : LogMetaData G :=
  mkLMeta idx 0 (fun g d _ => (g, d)) g true (replicate MAX_REPLICAS_PER_LOG false).

(** [LogMetaData::default]. *)
Definition lmeta_default {G} (g : G) : LogMetaData G := lmeta_new g 1.

(** [AtomicUsize::fetch_sub(1)] wraps around. *)
Definition usize_dec (n : N) : N := if (n =? 0)%N then (usize_size - 1)%N else (n - 1)%N.

(** The arguments of the closure. *)
Record ccall (T : Type) := mkCall {
  cc_op : T; cc_rid : nat; cc_tid : nat; cc_is_scan : bool; cc_is_read_op : bool;
  cc_depends_on : option (list nat);
}.
Arguments mkCall {T} _ _ _ _ _ _.
Arguments cc_op {T} _.
Arguments cc_rid {T} _.
Arguments cc_tid {T} _.
Arguments cc_is_scan {T} _.
Arguments cc_is_read_op {T} _.
Arguments cc_depends_on {T} _.

Section CnrLog.
Context {G T X : Type}.

(** [cnr::Log<T>]. *)
Abbreviation CLog := (Log T (LogMetaData G) EntryMetaData).
Implicit Types (l : CLog).

(** All logs, and everything else the closure can reach. *)
Abbreviation store := (list CLog * X)%type.
Implicit Types (w : store) (d : store -> ccall T -> res (store * bool)).

Definition get_log w (li : nat) : res CLog := vget w.1 li.
Definition put_log w (li : nat) l : store := (<[li := l]> w.1, w.2).

(** ** Operations on one log *)

(** Setting fields of the metadata. *)
Definition set_scanlock l (tid : nat) : CLog :=
  let m := log_meta l in
  set_meta l (mkLMeta (lm_idx m) tid (lm_gc m) (lm_gc_state m) (lm_notify m) (lm_dormant m)).
Definition set_notify l (b : bool) : CLog :=
  let m := log_meta l in
  set_meta l (mkLMeta (lm_idx m) (lm_scanlock m) (lm_gc m) (lm_gc_state m) b (lm_dormant m)).
Definition set_dormant l (dr : list bool) : CLog :=
  let m := log_meta l in
  set_meta l (mkLMeta (lm_idx m) (lm_scanlock m) (lm_gc m) (lm_gc_state m) (lm_notify m) dr).

(** Calling the callback. *)
Definition run_gc l : CLog :=
  let m := log_meta l in
  let '(g, dr) := lm_gc m (lm_gc_state m) (lm_dormant m) (lm_idx m) in
  set_meta l (mkLMeta (lm_idx m) (lm_scanlock m) (lm_gc m) g (lm_notify m) dr).

(** [Log::update_closure]; the new callback comes with the state it captures. *)
Definition update_closure l (gc : G -> list bool -> nat -> G * list bool) (g : G) : CLog :=
  let m := log_meta l in
  set_meta l (mkLMeta (lm_idx m) (lm_scanlock m) gc g (lm_notify m) (lm_dormant m)).

(** [Log::update_entry]. *)
Definition update_entry l (offset : nat) (op : T * nat * bool) (idx : LogToken)
    (is_scan : bool) (depends_on : option (list nat)) : res CLog :=
  let '(o, thread, is_read_op) := op in
  num_replicas ← usub (log_next l) 1;
  let j := log_index l offset in
  e ← vget (slog l) j;
  k ← usub idx 1;
  m0 ← vget (log_lmasks l) k;
  let m := if Bool.eqb (alivef e) m0 then negb m0 else m0 in
  es ← vset (slog l) j
         (mkEntry (Some o) idx m
            (mkEMeta is_scan thread is_read_op depends_on (N.of_nat num_replicas)));
  Ret (set_slog l es).

(** [Log::fix_scan_entry]. *)
Definition fix_scan_entry l (op : T * nat * bool) (idx : LogToken) (offsets : list nat) : res CLog :=
  o0 ← vget offsets 0;
  update_entry l o0 op idx true (Some offsets).

(** [Log::try_scan_lock]. *)
Definition try_scan_lock l (tid : nat) : bool * CLog :=
  if lm_scanlock (log_meta l) =? 0 then (true, set_scanlock l tid) else (false, l).

(** [Log::acquire_scan_lock]: it waits for another thread to release the lock. *)
Definition acquire_scan_lock l (tid : nat) : res CLog :=
  let '(ok, l') := try_scan_lock l tid in if ok then Ret l' else Spin.

(** [Log::release_scan_lock]. *)
Definition release_scan_lock l : CLog := set_scanlock l 0.

(** [append]: the loop that marks the replicas that lag a third of the log behind. *)
Definition mark_dormant (cur_local_tail third : nat) (acc : CLog * bool) (idx_iter : nat)
  : res (CLog * bool) :=
  let '(l, is_stuck) := acc in
  k ← usub idx_iter 1;
  local_tail ← vget (log_ltails l) k;
  if (local_tail <? cur_local_tail) && (third <? cur_local_tail - local_tail) then
    dr ← vset (lm_dormant (log_meta l)) k true;
    Ret (set_dormant l dr, true)
  else Ret (l, is_stuck).

(** [append]: looking for replicas that lag behind, and the callback. *)
Definition notify_dormant l (idx : LogToken) : res CLog :=
  d ← usub (log_tail l) (log_head l);
  let used := d + 1 in
  let third := length (slog l) / 3 in
  if third <? used then
    let r := log_next l in
    k ← usub idx 1;
    cur_local_tail ← vget (log_ltails l) k;
    '(l1, is_stuck) ← foldM (mark_dormant cur_local_tail third) (l, false) (seq 1 (r - 1));
    if is_stuck && lm_notify (log_meta l1) then Ret (run_gc (set_notify l1 false)) else Ret l1
  else Ret l.

(** ** Replaying *)

(** Consuming an entry: the last replica drops the operation. *)
Definition drop_ref (e : Entry T EntryMetaData) : Entry T EntryMetaData :=
  let m := emeta e in
  mkEntry (if (em_refcnt m =? 1)%N then None else operation e) (replica e) (alivef e)
    (mkEMeta (em_is_scan m) (em_thread m) (em_is_read_op m) (em_depends_on m)
       (usize_dec (em_refcnt m))).

(** [exec]: the body of the loop; [false] is the early return. *)
Definition cexec_entry (li : nat) (idx : LogToken) d w (i : nat) : res (store * bool) :=
  l ← get_log w li;
  let j := log_index l i in
  e ← vget (slog l) j;
  k ← usub idx 1;
  m ← vget (log_lmasks l) k;
  if negb (Bool.eqb (alivef e) m) then Spin else
  let em := emeta e in
  depends_on ← (if em_is_scan em then dep ← unwrap (em_depends_on em); Ret (Some dep) else Ret None);
  o ← unwrap (operation e);
  '(w1, ok) ← d w (mkCall o (replica e) (em_thread em) (em_is_scan em) (em_is_read_op em) depends_on);
  l1 ← get_log w1 li;
  if (ok : bool) then
    e1 ← vget (slog l1) j;
    es ← vset (slog l1) j (drop_ref e1);
    lt ← vget (log_ltails l1) k;
    lts ← vset (log_ltails l1) k (lt + 1);
    let l2 := set_ltails (set_slog l1 es) lts in
    if j =? length (slog l2) - 1 then
      m1 ← vget (log_lmasks l2) k;
      ms ← vset (log_lmasks l2) k (negb m1);
      Ret (put_log w1 li (set_lmasks l2 ms), true)
    else Ret (put_log w1 li l2, true)
  else Ret (put_log w1 li (set_ctail l1 (Nat.max (log_ctail l1) i)), false).

(** [exec]: the loop. *)
Fixpoint cexec_loop (li : nat) (idx : LogToken) d w (xs : list nat) : res (store * bool) :=
  match xs with
  | [] => Ret (w, true)
  | i :: xs' =>
      '(w1, ok) ← cexec_entry li idx d w i;
      if (ok : bool) then cexec_loop li idx d w1 xs' else Ret (w1, false)
  end.

(** [Log::exec]. *)
Definition cexec w (li : nat) (idx : LogToken) d : res store :=
  l ← get_log w li;
  k ← usub idx 1;
  ltail ← vget (log_ltails l) k;
  let gtail := log_tail l in
  if ltail =? gtail then Ret w
  else
    let h := log_head l in
    if (gtail <? ltail) || (ltail <? h) then
      Panic "Local tail not within the shared log!"
    else
      '(w1, ok) ← cexec_loop li idx d w (seq ltail (gtail - ltail));
      if (ok : bool) then
        l1 ← get_log w1 li;
        lts ← vset (log_ltails l1) k gtail;
        Ret (put_log w1 li (set_ltails (set_ctail l1 (Nat.max (log_ctail l1) gtail)) lts))
      else Ret w1.

(** ** Garbage collection *)

(** Passes of the loops below, which the code does not bound.  Without
    interference a pass that changes nothing is repeated forever, and
    [cadvance_head_spec] shows that there are at most three others. *)
Definition cnr_passes : positive := 64.

(** [advance_head]: the loop body ([iteration] only triggers warnings). *)
Definition cadvance_body (li : nat) (rid : LogToken) d w : res (store + store) :=
  l ← get_log w li;
  let global_head := log_head l in
  let f := log_tail l in
  '(_, min_local_tail) ← find_min_tail l;
  if min_local_tail =? global_head then
    w1 ← cexec w li rid d;
    Ret (inl w1)
  else
    let w1 := put_log w li (set_notify (set_head l min_local_tail) true) in
    if f <? min_local_tail + length (slog l) - GC_FROM_HEAD then Ret (inr w1)
    else
      w2 ← cexec w1 li rid d;
      Ret (inl w2).

(** [Log::advance_head]. *)
Definition cadvance_head w (li : nat) (rid : LogToken) d : res store :=
  rloop cnr_passes (cadvance_body li rid d) w.

(** ** Appending *)

(** [append]: filling the reserved entries. *)
Definition cwrite_entries l (idx : LogToken) (tail : nat) (ops : list (T * nat * bool)) : res CLog :=
  foldM (fun l iop => update_entry l (tail + iop.1) iop.2 idx false None) l
    (zip (seq 0 (length ops)) ops).

(** [append]: the loop body. *)
Definition cappend_body (li : nat) (ops : list (T * nat * bool)) (idx : LogToken) d w
  : res (store + store) :=
  let nops := length ops in
  l0 ← get_log w li;
  let tail := log_tail l0 in
  let head := log_head l0 in
  l ← notify_dormant l0 idx;
  let w := put_log w li l in
  if head + length (slog l) - GC_FROM_HEAD <? tail then
    w1 ← cexec w li idx d;
    Ret (inl w1)
  else
    let advance := head + length (slog l) - GC_FROM_HEAD <? tail + nops in
    l1 ← cwrite_entries (set_tail l (tail + nops)) idx tail ops;
    let w1 := put_log w li l1 in
    if advance then
      w2 ← cadvance_head w1 li idx d;
      Ret (inr w2)
    else Ret (inr w1).

(** [Log::append]. *)
Definition cappend w (li : nat) (ops : list (T * nat * bool)) (idx : LogToken) d : res store :=
  rloop cnr_passes (cappend_body li ops idx d) w.

(** [Log::try_append_scan]. *)
Definition try_append_scan w (li : nat) (op : T * nat * bool) (idx : LogToken) (offset : list nat) d
  : res (store * result nat nat) :=
  let nops := 1 in
  l ← get_log w li;
  let tail := log_tail l in
  let head := log_head l in
  if head + length (slog l) - GC_FROM_HEAD <? tail then
    w1 ← cexec w li idx d;
    Ret (w1, Err 0)
  else
    let advance := head + length (slog l) - GC_FROM_HEAD <? tail + nops in
    let l1 := set_tail l (tail + nops) in
    let log_offset := tail in
    l2 ← (if negb (lm_idx (log_meta l1) =? 1) then
            o0 ← vget offset 0;
            update_entry l1 log_offset op idx true (Some [o0])
          else Ret l1);
    let w2 := put_log w li l2 in
    if advance then
      w3 ← cadvance_head w2 li idx d;
      Ret (w3, Ok log_offset)
    else Ret (w2, Ok log_offset).
End CnrLog.
