(* ===== verification/CnrReplica.v ===== *)
(** * Replicas of CNR (cnr/replica.rs, cnr/context.rs, cnr/mod.rs)

    A replica keeps a copy of a concurrent data structure and, for every log, the
    token it got there, a combiner lock and the flags of the threads with pending
    operations.  A scan operation touches the whole structure: it is appended to
    all logs, its entry in the first log (the root) is executed once the replica
    has caught up with the other logs (the leaves), and the entries in the leaves
    wait for the root.  Waiting means combining on the other log, so [combine] and
    [handle_scan_op] call each other; each nested call holds the combiner lock of
    one more log, which bounds the depth ([nest]). *)

From S2P Require Import Prelude Context Log NrLog CnrLog.

(** cnr/mod.rs: the traits [Dispatch] and [LogMapper]; [hash] pushes onto an empty
    vector. *)
Class CDispatch (D RO WO R : Type) := {
  c_dispatch : D -> RO -> res R;
  c_dispatch_mut : D -> WO -> res (D * R);
  r_hash : RO -> nat -> list nat;
  w_hash : WO -> nat -> list nat;
}.

(** cnr/context.rs: [PendingMetaData], i.e. hash, is_scan, is_read_only. *)
Abbreviation PendingMetaData := (nat * bool * bool)%type.
Definition pending_meta_default : PendingMetaData := (0, false, false).

(** [LogState]; [ls_slog] is the position of the log in the list of all logs. *)
Record LogState (WO : Type) := mkLS {
  ls_slog : nat;
  ls_idx : LogToken;
  ls_combiner : nat;
  ls_pending : list bool;
  ls_buffer : list (WO * nat * bool);
  ls_scan_buffer : list (WO * nat * bool);
}.
Arguments mkLS {WO} _ _ _ _ _ _.
Arguments ls_slog {WO} _.
Arguments ls_idx {WO} _.
Arguments ls_combiner {WO} _.
Arguments ls_pending {WO} _.
Arguments ls_buffer {WO} _.
Arguments ls_scan_buffer {WO} _.

(** [Replica]. *)
Record CReplica (D WO R : Type) := mkCR {
  cr_next : nat;
  cr_data : D;
  cr_contexts : list (Context WO R PendingMetaData);
  cr_offsets : list (list nat);
  cr_hash : list (list nat);
  cr_logstate : list (LogState WO);
}.
Arguments mkCR {D WO R} _ _ _ _ _ _.
Arguments cr_next {D WO R} _.
Arguments cr_data {D WO R} _.
Arguments cr_contexts {D WO R} _.
Arguments cr_offsets {D WO R} _.
Arguments cr_hash {D WO R} _.
Arguments cr_logstate {D WO R} _.

Section CnrReplica.
Context {G D RO WO R : Type} `{!CDispatch D RO WO R}.

Abbreviation CLog := (Log WO (LogMetaData G) EntryMetaData).
Abbreviation CRep := (CReplica D WO R).
Abbreviation cstore := (list CLog * list CRep)%type.
Implicit Types (w : cstore) (x : CRep) (r : nat).

Definition get_rep w r : res CRep := vget w.2 r.
Definition put_rep w r x : cstore := (w.1, <[r := x]> w.2).

(** Setting fields. *)
Definition cr_set_data x (d : D) : CRep :=
  mkCR (cr_next x) d (cr_contexts x) (cr_offsets x) (cr_hash x) (cr_logstate x).
Definition cr_set_contexts x (cs : list (Context WO R PendingMetaData)) : CRep :=
  mkCR (cr_next x) (cr_data x) cs (cr_offsets x) (cr_hash x) (cr_logstate x).
Definition cr_set_offsets x (os : list (list nat)) : CRep :=
  mkCR (cr_next x) (cr_data x) (cr_contexts x) os (cr_hash x) (cr_logstate x).
Definition cr_set_hash x (hs : list (list nat)) : CRep :=
  mkCR (cr_next x) (cr_data x) (cr_contexts x) (cr_offsets x) hs (cr_logstate x).
Definition cr_set_logstate x (ls : list (LogState WO)) : CRep :=
  mkCR (cr_next x) (cr_data x) (cr_contexts x) (cr_offsets x) (cr_hash x) ls.
Definition ls_set_combiner (s : LogState WO) (c : nat) : LogState WO :=
  mkLS (ls_slog s) (ls_idx s) c (ls_pending s) (ls_buffer s) (ls_scan_buffer s).
Definition ls_set_pending (s : LogState WO) (p : list bool) : LogState WO :=
  mkLS (ls_slog s) (ls_idx s) (ls_combiner s) p (ls_buffer s) (ls_scan_buffer s).
Definition ls_set_buffers (s : LogState WO) (b sb : list (WO * nat * bool)) : LogState WO :=
  mkLS (ls_slog s) (ls_idx s) (ls_combiner s) (ls_pending s) b sb.

(** [self.logstate[h]]. *)
Definition get_ls w r (h : nat) : res (LogState WO) := x ← get_rep w r; vget (cr_logstate x) h.
Definition put_ls w r (h : nat) (s : LogState WO) : res cstore :=
  x ← get_rep w r;
  lss ← vset (cr_logstate x) h s;
  Ret (put_rep w r (cr_set_logstate x lss)).

(** [self.logstate[h].slog.is_replica_synced_for_reads(&self.logstate[h].idx, t)]. *)
Definition synced_upto w r (h t : nat) : res bool :=
  s ← get_ls w r h;
  l ← get_log w (ls_slog s);
  is_replica_synced_for_reads l (ls_idx s) t.

(** ** Construction and registration *)

(** [LogState::new]. *)
Definition logstate_new (l : CLog) (li : nat) : res (LogState WO * CLog) :=
  let '(t, l1) := log_register l in
  idx ← unwrap t;
  Ret (mkLS li idx 0 (replicate MAX_THREADS_PER_REPLICA false) [] [], l1).

(** [with_data]: one [LogState] per log. *)
Fixpoint logstates_new (logs : list CLog) (ids : list nat) : res (list (LogState WO) * list CLog) :=
  match ids with
  | [] => Ret ([], logs)
  | li :: ids' =>
      l ← vget logs li;
      '(s, l1) ← logstate_new l li;
      logs1 ← vset logs li l1;
      '(ss, logs2) ← logstates_new logs1 ids';
      Ret (s :: ss, logs2)
  end.

(** [Replica::with_data]: a new replica, of all logs. *)
Definition crep_with_data w (d : D) : res cstore :=
  '(lss, logs) ← logstates_new w.1 (seq 0 (length w.1));
  Ret (logs, w.2 ++ [mkCR 1 d
    ((fun idx => context_new pending_meta_default (idx + 1)) <$> seq 0 MAX_THREADS_PER_REPLICA)
    (replicate MAX_THREADS_PER_REPLICA []) (replicate MAX_THREADS_PER_REPLICA []) lss]).

(** [Replica::new]. *)
Definition crep_new (dd : D) w : res cstore := crep_with_data w dd.

(** [Replica::register]. *)
Definition crep_register w r : res (cstore * option nat) :=
  x ← get_rep w r;
  let idx := cr_next x in
  if MAX_THREADS_PER_REPLICA <? idx then Ret (w, None)
  else Ret (put_rep w r (mkCR (idx + 1) (cr_data x) (cr_contexts x) (cr_offsets x) (cr_hash x)
                           (cr_logstate x)), Some idx).

(** ** Executing entries *)

(** [self.contexts[tid - 1].enqueue_resp(resp)]. *)
Definition respond w r (tid : nat) (resp : R) : res cstore :=
  x ← get_rep w r;
  t ← usub tid 1;
  c ← vget (cr_contexts x) t;
  c' ← enqueue_resp c resp;
  cs ← vset (cr_contexts x) t c';
  Ret (put_rep w r (cr_set_contexts x cs)).

(** [self.data.dispatch_mut(o)], and the response to the issuer if it is ours. *)
Definition apply_op w r (hashidx : nat) (o : WO) (rid tid : nat) : res cstore :=
  x ← get_rep w r;
  '(d', resp) ← c_dispatch_mut (cr_data x) o;
  let w1 := put_rep w r (cr_set_data x d') in
  s ← get_ls w1 r hashidx;
  if rid =? ls_idx s then respond w1 r tid resp else Ret w1.

(** [Replica::is_replica_sync_for_logs]. *)
Definition is_replica_sync_for_logs w r (start end_ : nat) (tails : list nat) : res bool :=
  foldM (fun is_synced lt =>
           ok ← synced_upto w r lt.1 lt.2;
           Ret (is_synced && ok)) true
    (drop start (take end_ (zip (seq 0 (length tails)) tails))).

Section Nested.
(** [try_combine] of the calls nested in this one. *)
Variable tc : cstore -> nat -> nat -> res cstore.

(** [Replica::handle_scan_op]. *)
Definition handle_scan_op w r (o : WO) (thread_id hashidx issuer_rid issuer_tid : nat)
    (is_read_op : bool) (depends_on : list nat) : res (cstore * bool) :=
  x ← get_rep w r;
  s ← get_ls w r hashidx;
  if is_read_op && negb (issuer_rid =? ls_idx s) then Ret (w, true)
  else
    let nlogs := length (cr_logstate x) in
    if length depends_on =? nlogs then
      w1 ← foldM (fun w lt =>
             ok ← synced_upto w r lt.1 lt.2;
             if (ok : bool) then Ret w else tc w thread_id lt.1) w
             (drop 1 (take nlogs (zip (seq 0 (length depends_on)) depends_on)));
      ok ← is_replica_sync_for_logs w1 r 1 nlogs depends_on;
      if (ok : bool) then
        w2 ← apply_op w1 r hashidx o issuer_rid issuer_tid;
        Ret (w2, true)
      else Ret (w1, false)
    else
      let logidx := 0 in
      t ← vget depends_on logidx;
      ok ← synced_upto w r logidx t;
      if (ok : bool) then Ret (w, true)
      else
        w1 ← tc w thread_id logidx;
        ok ← is_replica_sync_for_logs w1 r logidx (logidx + 1) depends_on;
        Ret (w1, ok).

(** The closure that [combine] and [append_scan] pass to the log. *)
Definition ccombine_closure r (thread_id hashidx : nat) w (c : ccall WO) : res (cstore * bool) :=
  if cc_is_scan c then
    depends_on ← unwrap (cc_depends_on c);
    handle_scan_op w r (cc_op c) thread_id hashidx (cc_rid c) (cc_tid c) (cc_is_read_op c) depends_on
  else
    w1 ← apply_op w r hashidx (cc_op c) (cc_rid c) (cc_tid c);
    Ret (w1, true).

(** [append_scan]: appending to the log [logidx], again and again until there is
    room. *)
Definition append_scan_log w r (op : WO * nat * bool) (thread_id logidx : nat) (entries : list nat)
  : res (cstore * nat) :=
  rloop cnr_passes (fun w =>
    s ← get_ls w r logidx;
    '(w1, e) ← try_append_scan w (ls_slog s) op (ls_idx s) entries
                 (ccombine_closure r thread_id logidx);
    match e with
    | Ok entry => Ret (inr (w1, entry))
    | Err _ => Ret (inl w1)
    end) w.

(** [Replica::append_scan]. *)
Definition append_scan w r (op : WO * nat * bool) (thread_id : nat) : res cstore :=
  x ← get_rep w r;
  t ← usub op.1.2 1;
  _ ← vget (cr_hash x) t;
  th ← usub thread_id 1;
  _ ← vget (cr_offsets x) th;
  let nlogs := length (cr_logstate x) in
  let hash_vec := w_hash op.1.1 nlogs in
  _ ← rassert (length hash_vec =? nlogs) "Append scan ops to all the logs";
  root_log ← vget hash_vec 0;
  root ← vget (cr_logstate x) root_log;
  l ← get_log w (ls_slog root);
  l1 ← acquire_scan_lock l thread_id;
  let w0 := put_log (put_rep w r (cr_set_offsets (cr_set_hash x (<[t := hash_vec]> (cr_hash x)))
                                    (<[th := []]> (cr_offsets x)))) (ls_slog root) l1 in
  '(w1, entries) ← foldM (fun acc logidx =>
      let '(w, entries) := acc in
      '(w', entry) ← append_scan_log w r op thread_id logidx entries;
      Ret (w', entries ++ [entry])) (w0, []) hash_vec;
  l2 ← get_log w1 (ls_slog root);
  l3 ← fix_scan_entry (release_scan_lock l2) op (ls_idx root) entries;
  Ret (put_log w1 (ls_slog root) l3).

(** [combine]: collecting the operations of one thread. *)
Definition ccollect (hashidx : nat) (acc : CRep * list (WO * nat * bool) * list (WO * nat * bool))
    (tid : nat) : res (CRep * list (WO * nat * bool) * list (WO * nat * bool)) :=
  let '(x, buffer, scan_buffer) := acc in
  s ← vget (cr_logstate x) hashidx;
  t ← usub tid 1;
  p ← vget (ls_pending s) t;
  if (p : bool) then
    lss ← vset (cr_logstate x) hashidx (ls_set_pending s (<[t := false]> (ls_pending s)));
    c ← vget (cr_contexts x) t;
    '(_, ops) ← ctx_collect c;
    let mine := filter (fun om => om.2.1.1 = hashidx) ops in
    let pick b := map (fun om => (om.1, tid, om.2.2)) (filter (fun om => om.2.1.2 = b) mine) in
    Ret (cr_set_logstate x lss, buffer ++ pick false, scan_buffer ++ pick true)
  else Ret acc.

(** [Replica::combine]. *)
Definition ccombine w r (thread_id hashidx : nat) : res cstore :=
  x ← get_rep w r;
  '(x1, buffer, scan_buffer) ← foldM (ccollect hashidx) (x, [], []) (seq 1 (cr_next x - 1));
  s ← vget (cr_logstate x1) hashidx;
  lss ← vset (cr_logstate x1) hashidx (ls_set_buffers s buffer scan_buffer);
  let w1 := put_rep w r (cr_set_logstate x1 lss) in
  w2 ← cappend w1 (ls_slog s) buffer (ls_idx s) (ccombine_closure r thread_id hashidx);
  w3 ← foldM (fun w op => append_scan w r op thread_id) w2 scan_buffer;
  cexec w3 (ls_slog s) (ls_idx s) (ccombine_closure r thread_id hashidx).

(** [try_combine], given what the nested calls do. *)
Definition try_combine_with w r (tid hashidx : nat) : res cstore :=
  s ← get_ls w r hashidx;
  if negb (ls_combiner s =? 0) then Ret w
  else
    w1 ← put_ls w r hashidx (ls_set_combiner s tid);
    w2 ← ccombine w1 r tid hashidx;
    s2 ← get_ls w2 r hashidx;
    put_ls w2 r hashidx (ls_set_combiner s2 0).
End Nested.

(** [Replica::try_combine]; at most [nest] calls inside each other. *)
Fixpoint nested_combine (nest : nat) w r (tid hashidx : nat) : res cstore :=
  match nest with
  | 0 => Spin
  | S nest' => try_combine_with (fun w => nested_combine nest' w r) w r tid hashidx
  end.

(** Every nested call holds the combiner lock of another log; the innermost one
    finds all locks taken and returns. *)
Definition nest_of (x : CRep) : nat := S (length (cr_logstate x)).
Definition ctry_combine w r (tid hashidx : nat) : res cstore :=
  x ← get_rep w r; nested_combine (nest_of x) w r tid hashidx.

(** ** The calls *)

(** [make_pending]; a full context is emptied by nobody else. *)
Definition cmake_pending w r (o : WO) (tid hash : nat) (is_scan is_read_op : bool) : res cstore :=
  x ← get_rep w r;
  t ← usub tid 1;
  c ← vget (cr_contexts x) t;
  '(ok, c') ← enqueue c o (hash, is_scan, is_read_op);
  if (ok : bool) then
    cs ← vset (cr_contexts x) t c';
    s ← vget (cr_logstate x) hash;
    p ← vset (ls_pending s) t true;
    put_ls (put_rep w r (cr_set_contexts x cs)) r hash (ls_set_pending s p)
  else Spin.

(** [get_response]: 2^29 polls in a row see the same context, then the thread
    combines. *)
Definition cget_response w r (idx hash : nat) : res (cstore * R) :=
  rloop cnr_passes (fun w =>
    x ← get_rep w r;
    t ← usub idx 1;
    c ← vget (cr_contexts x) t;
    '(y, c') ← ctx_res c;
    match y with
    | Some resp => Ret (inr (put_rep w r (cr_set_contexts x (<[t := c']> (cr_contexts x))), resp))
    | None => w1 ← ctry_combine w r idx hash; Ret (inl w1)
    end) w.

(** [self.hash[idx - 1]], overwritten with the logs of an operation that uses one
    log. *)
Definition one_log w r (idx : nat) (hs : list nat) : res (cstore * nat) :=
  x ← get_rep w r;
  t ← usub idx 1;
  hash ← vset (cr_hash x) t hs;
  _ ← rassert (length hs =? 1) "assertion `left == right` failed";
  h ← vget hs 0;
  Ret (put_rep w r (cr_set_hash x hash), h).

(** [Replica::execute_mut]. *)
Definition cexecute_mut w r (o : WO) (idx : nat) : res (cstore * R) :=
  x ← get_rep w r;
  '(w1, hash) ← one_log w r idx (w_hash o (length (cr_logstate x)));
  w2 ← cmake_pending w1 r o idx hash false false;
  w3 ← ctry_combine w2 r idx hash;
  cget_response w3 r idx hash.

(** The scans of several logs. *)
Definition cscan w r (o : WO) (idx : nat) (is_read_op : bool) : res (cstore * R) :=
  let hash := 0 in
  w1 ← cmake_pending w r o idx hash true is_read_op;
  w2 ← ctry_combine w1 r idx hash;
  cget_response w2 r idx hash.

(** [Replica::execute_mut_scan]. *)
Definition cexecute_mut_scan w r (o : WO) (idx : nat) : res (cstore * R) :=
  x ← get_rep w r;
  if length (cr_logstate x) =? 1 then cexecute_mut w r o idx else cscan w r o idx false.

(** Combining until the replica has replayed the log up to [ctail]. *)
Definition sync_upto w r (idx hash ctail : nat) : res cstore :=
  rloop cnr_passes (fun w =>
    ok ← synced_upto w r hash ctail;
    if (ok : bool) then Ret (inr w) else w1 ← ctry_combine w r idx hash; Ret (inl w1)) w.

(** The same up to the completed tail of now. *)
Definition sync_hash w r (idx hash : nat) : res cstore :=
  s ← get_ls w r hash;
  l ← get_log w (ls_slog s);
  sync_upto w r idx hash (get_ctail l).

(** [Replica::execute]. *)
Definition cexecute w r (o : RO) (idx : nat) : res (cstore * R) :=
  x ← get_rep w r;
  '(w1, hash_idx) ← one_log w r idx (r_hash o (length (cr_logstate x)));
  w2 ← sync_hash w1 r idx hash_idx;
  x2 ← get_rep w2 r;
  y ← c_dispatch (cr_data x2) o;
  Ret (w2, y).

(** [Replica::execute_scan]. *)
Definition cexecute_scan w r (o : WO) (idx : nat) : res (cstore * R) :=
  x ← get_rep w r;
  let nlogs := length (cr_logstate x) in
  if nlogs =? 1 then
    w1 ← sync_hash w r idx (nlogs - 1);
    x1 ← get_rep w1 r;
    '(d', y) ← c_dispatch_mut (cr_data x1) o;
    Ret (put_rep w1 r (cr_set_data x1 d'), y)
  else cscan w r o idx true.

(** [Replica::sync]. *)
Definition csync w r (idx : nat) : res cstore :=
  x ← get_rep w r;
  foldM (fun w i => sync_hash w r idx i) w (seq 0 (length (cr_logstate x))).

(** [Replica::sync_log]. *)
Definition csync_log w r (idx log_id : nat) : res cstore :=
  h ← usub log_id 1;
  s ← get_ls w r h;
  l ← get_log w (ls_slog s);
  ok ← synced_upto w r h (get_ctail l);
  if (ok : bool) then Ret w else ctry_combine w r idx h.

(** The closure that [verify] passes to the log. *)
Definition cverify_closure r w (c : ccall WO) : res (cstore * bool) :=
  x ← get_rep w r;
  '(d', _) ← c_dispatch_mut (cr_data x) (cc_op c);
  Ret (put_rep w r (cr_set_data x d'), true).

(** [Replica::verify]: the data that the closure [v] sees. *)
Definition cverify w r : res (cstore * D) :=
  s ← get_ls w r 0;
  if negb (ls_combiner s =? 0) then Spin
  else
    w1 ← put_ls w r 0 (ls_set_combiner s (MAX_THREADS_PER_REPLICA + 2));
    w2 ← cexec w1 (ls_slog s) (ls_idx s) (cverify_closure r);
    x2 ← get_rep w2 r;
    s2 ← get_ls w2 r 0;
    w3 ← put_ls w2 r 0 (ls_set_combiner s2 0);
    Ret (w3, cr_data x2).
End CnrReplica.
