(* ===== verification/CnrLogSpec.v ===== *)
(** * The log of CNR: invariant and replay

    [clog_inv l hist]: the log represents the sequence [hist] of operations
    (none of them scans) with the replica and the thread that issued each.  An
    entry counts the replicas that still have to replay it and holds the
    operation as long as there are any. *)

From S2P Require Import Prelude Context Log NrLog CnrLog.

Section Inv.
Context {G T : Type}.
Abbreviation CLog := (Log T (LogMetaData G) EntryMetaData).
Abbreviation hent := (T * nat * nat)%type.
Implicit Types (l : CLog) (hist : list hent).

(** The registered replicas that have not replayed entry [i]. *)
Definition waiting l (i : nat) : nat := count (fun t => t <=? i) (registered_ltails l).

(** Entry [e] holds [x], and [n] replicas have to replay it. *)
Record cslot_ok (n : nat) (x : hent) (e : Entry T EntryMetaData) : Prop := {
  so_op : 0 < n -> operation e = Some x.1.1;
  so_rid : replica e = x.1.2;
  so_tid : em_thread (emeta e) = x.2;
  so_scan : em_is_scan (emeta e) = false;
  so_read : em_is_read_op (emeta e) = false;
  so_ref : em_refcnt (emeta e) = N.of_nat n;
}.

(** The metadata of the log; an array of [AtomicBool]s does not change its length. *)
Definition meta_ok (m : LogMetaData G) : Prop :=
  length (lm_dormant m) = MAX_REPLICAS_PER_LOG
  /\ forall g dr i, length dr = MAX_REPLICAS_PER_LOG -> length (lm_gc m g dr i).2 = MAX_REPLICAS_PER_LOG.

Record clog_inv l hist : Prop := {
  ci_pow2 : is_pow2 (length (slog l));
  ci_size : 2 * GC_FROM_HEAD <= length (slog l);
  ci_nltails : length (log_ltails l) = MAX_REPLICAS_PER_LOG;
  ci_nlmasks : length (log_lmasks l) = MAX_REPLICAS_PER_LOG;
  ci_next : 1 <= log_next l <= S MAX_REPLICAS_PER_LOG;
  ci_tail : log_tail l = length hist;
  ci_room : log_tail l <= log_head l + length (slog l);
  ci_head : log_head l <= log_tail l;
  ci_ctail : log_ctail l <= log_tail l;
  ci_ltails : forall k t, registered_ltails l !! k = Some t -> log_head l <= t <= log_tail l;
  ci_masks : forall k t m, registered_ltails l !! k = Some t ->
    log_lmasks l !! k = Some m -> m = Nat.even (t / length (slog l));
  ci_alive : forall j e, slog l !! j = Some e ->
    alivef e = Nat.odd (laps (length (slog l)) (length hist) j);
  ci_slots : forall i x, log_head l <= i -> hist !! i = Some x ->
    exists e, slog l !! (i mod length (slog l)) = Some e /\ cslot_ok (waiting l i) x e;
  ci_meta : meta_ok (log_meta l);
}.

(** What calls on behalf of replica [idx] leave alone. *)
Record clog_frame (idx : LogToken) l l' : Prop := {
  cf_len : length (slog l') = length (slog l);
  cf_next : log_next l' = log_next l;
  cf_ltails : forall k, k <> idx - 1 -> log_ltails l' !! k = log_ltails l !! k;
  cf_idx : lm_idx (log_meta l') = lm_idx (log_meta l);
  cf_scanlock : lm_scanlock (log_meta l') = lm_scanlock (log_meta l);
}.

Lemma clog_frame_refl idx l : clog_frame idx l l.
Proof. by split. Qed.

Lemma clog_frame_trans idx l l1 l2 : clog_frame idx l l1 -> clog_frame idx l1 l2 -> clog_frame idx l l2.
Proof.
  intros [?? H1 ??] [?? H2 ??]. split; try congruence. intros k Hk. by rewrite H2, H1.
Qed.

Lemma clog_index l hist i : clog_inv l hist -> log_index l i = i mod length (slog l).
Proof. intros H. apply land_pow2, (ci_pow2 _ _ H). Qed.

Lemma clog_len_pos l hist : clog_inv l hist -> 0 < length (slog l).
Proof. intros H. apply pow2_pos, (ci_pow2 _ _ H). Qed.

Lemma clog_slot_lt l hist i : clog_inv l hist -> i mod length (slog l) < length (slog l).
Proof. intros H. apply Nat.mod_upper_bound. pose proof (clog_len_pos _ _ H). lia. Qed.

(** ** Replaying one entry *)

(** The log after replica [k + 1] has replayed entry [i], held by [e]. *)
Definition cstep l (k i : nat) (e : Entry T EntryMetaData) : CLog :=
  set_lmasks (set_ltails (set_slog l (<[i mod length (slog l) := drop_ref e]> (slog l)))
                (<[k := i + 1]> (log_ltails l)))
    (<[k := Nat.even ((i + 1) / length (slog l))]> (log_lmasks l)).

Lemma cstep_ltails l k i e : registered_ltails l !! k = Some i ->
  registered_ltails (cstep l k i e) = <[k := i + 1]> (registered_ltails l).
Proof.
  intros [Hn Hlt]%registered_lookup. unfold registered_ltails. cbn. by rewrite take_insert_lt.
Qed.

Lemma cstep_registered l k i e j t :
  registered_ltails (cstep l k i e) !! j = Some t -> registered_ltails l !! k = Some i ->
  (j = k /\ t = i + 1) \/ (j <> k /\ registered_ltails l !! j = Some t).
Proof.
  intros Hj Hk. rewrite cstep_ltails in Hj by done.
  apply list_lookup_insert_Some in Hj as [(<- & <- & _)|[Hne Hj]]; eauto.
Qed.

Lemma waiting_step l k i e p : registered_ltails l !! k = Some i ->
  waiting (cstep l k i e) p + (if decide (p = i) then 1 else 0) = waiting l p.
Proof.
  intros Hk. unfold waiting. rewrite cstep_ltails by done.
  pose proof (count_insert (fun t => t <=? p) _ _ _ (i + 1) Hk) as Hc. cbn beta in Hc.
  destruct (Nat.leb_spec i p), (Nat.leb_spec (i + 1) p); case_decide; lia.
Qed.

Lemma waiting_pos l k i : registered_ltails l !! k = Some i -> 0 < waiting l i.
Proof. intros H. eapply count_pos; [exact H|]. apply Nat.leb_refl. Qed.

Lemma cstep_inv l hist k i x e :
  clog_inv l hist -> registered_ltails l !! k = Some i -> hist !! i = Some x ->
  slog l !! (i mod length (slog l)) = Some e -> cslot_ok (waiting l i) x e ->
  clog_inv (cstep l k i e) hist.
Proof.
  intros Hinv Hk Hx He Hok. pose proof Hinv as []. pose proof (ci_ltails0 _ _ Hk) as Hi.
  pose proof (lookup_lt_Some _ _ _ Hx). pose proof (lookup_lt_Some _ _ _ He) as Hje.
  pose proof (proj1 (registered_lookup _ _ _) Hk) as [_ Hlt].
  split; cbn; rewrite ?length_insert; try done.
  - intros j t Hj. destruct (cstep_registered l k i e j t Hj Hk) as [[-> ->]|[_ Hj']]; [lia|by apply (ci_ltails0 j)].
  - intros j t m Hj. destruct (cstep_registered l k i e j t Hj Hk) as [[-> ->]|[Hne Hj']].
    + rewrite list_lookup_insert_eq; [by intros [= <-]|]. apply lookup_lt_Some in Hlt. lia.
    + rewrite list_lookup_insert_ne by done. by apply ci_masks0.
  - intros j e' Hj. apply list_lookup_insert_Some in Hj as [(<- & <- & _)|[_ Hj]]; [exact (ci_alive0 _ _ He)|exact (ci_alive0 _ _ Hj)].
  - intros p y Hp Hy. pose proof (waiting_step l k i e p Hk) as Hw.
    destruct (decide (p = i)) as [->|Hne].
    + rewrite Hx in Hy. injection Hy as <-. exists (drop_ref e).
      rewrite list_lookup_insert_eq by done. split; [done|]. destruct Hok. split; cbn; try done.
      * intros Hpos. rewrite so_ref0. destruct (N.eqb_spec (N.of_nat (waiting l i)) 1); [lia|].
        apply so_op0. lia.
      * rewrite so_ref0. unfold usize_dec. destruct (N.eqb_spec (N.of_nat (waiting l i)) 0); lia.
    + destruct (ci_slots0 p y Hp Hy) as (e' & He' & []). exists e'. split.
      * rewrite list_lookup_insert_ne; [done|]. pose proof (lookup_lt_Some _ _ _ Hy).
        apply mod_near_ne; lia.
      * assert (Ew : waiting (cstep l k i e) p = waiting l p) by lia.
        rewrite <- Ew in *. by split.
Qed.
End Inv.

(** ** Replaying the log *)

Section Exec.
Context {G T X : Type} (g : X -> ccall T -> res X).
Abbreviation CLog := (Log T (LogMetaData G) EntryMetaData).
Implicit Types (l : CLog) (hist : list (T * nat * nat)) (logs : list CLog) (x : X).

(** A closure that leaves the logs alone and completes every operation. *)
Variable d : list CLog * X -> ccall T -> res (list CLog * X * bool).
Hypothesis Hd : forall logs x c, cc_is_scan c = false ->
  d (logs, x) c = (fun x' => (logs, x', true)) <$> g x c.

(** The call for an operation of the history. *)
Definition call_of (y : T * nat * nat) : ccall T := mkCall y.1.1 y.1.2 y.2 false false None.
Definition creplay x (ys : list (T * nat * nat)) : res X := foldM (fun x y => g x (call_of y)) x ys.

Lemma creplay_app x ys zs : creplay x (ys ++ zs) = x' ← creplay x ys; creplay x' zs.
Proof. apply foldM_app. Qed.

Lemma cexec_entry_spec li logs l hist idx i :
  logs !! li = Some l -> clog_inv l hist -> 1 <= idx ->
  registered_ltails l !! (idx - 1) = Some i -> i < length hist ->
  exists y l', hist !! i = Some y
    /\ (forall x, cexec_entry li idx d (logs, x) i
                  = (fun x' => (<[li := l']> logs, x', true)) <$> g x (call_of y))
    /\ clog_inv l' hist /\ clog_frame idx l l'
    /\ registered_ltails l' !! (idx - 1) = Some (i + 1)
    /\ log_head l' = log_head l /\ log_ctail l' = log_ctail l /\ log_tail l' = log_tail l.
Proof.
  intros Hl Hinv Hidx Hk Hi. pose proof Hinv as []. pose proof (clog_len_pos _ _ Hinv) as Hlen.
  destruct (lookup_lt_is_Some_2 hist i Hi) as [y Hy].
  pose proof (ci_ltails0 _ _ Hk) as Hhd. destruct (ci_slots0 i y) as (e & He & Hok); [lia|done|].
  pose proof (proj1 (registered_lookup _ _ _) Hk) as [Hn Hlt].
  destruct (lookup_lt_is_Some_2 (log_lmasks l) (idx - 1)) as [m Hm].
  { apply lookup_lt_Some in Hlt. lia. }
  pose proof (ci_masks0 _ _ _ Hk Hm) as Em.
  exists y, (cstep l (idx - 1) i e). split; [done|]. split; [|split_and!].
  - intros x. unfold cexec_entry, get_log. cbn [fst]. rewrite (vget_lookup _ _ _ Hl). mon.
    rewrite (clog_index _ _ _ Hinv), (vget_lookup _ _ _ He). mon.
    rewrite usub_le by lia. mon. rewrite (vget_lookup _ _ _ Hm). mon.
    rewrite (ci_alive0 _ _ He), laps_current by lia.
    rewrite Em, Nat.add_1_r, Nat.odd_succ, Bool.eqb_reflx. cbn [negb].
    rewrite (so_scan _ _ _ Hok). mon.
    rewrite (so_op _ _ _ Hok (waiting_pos _ _ _ Hk)). cbn [unwrap]. mon.
    rewrite (so_rid _ _ _ Hok), (so_tid _ _ _ Hok), (so_read _ _ _ Hok).
    change (mkCall y.1.1 y.1.2 y.2 false false None) with (call_of y).
    rewrite Hd by done. destruct (g x (call_of y)) as [x'| |]; mon; try done.
    cbn [fst]. rewrite (vget_lookup _ _ _ Hl). mon. rewrite (vget_lookup _ _ _ He). mon.
    rewrite vset_lt by (by eapply lookup_lt_Some). mon.
    rewrite (vget_lookup _ _ _ Hlt). mon. rewrite vset_lt by (by eapply lookup_lt_Some). mon.
    cbn [slog set_ltails set_slog log_lmasks]. rewrite length_insert.
    unfold put_log, cstep. cbn [fst snd].
    destruct (Nat.eqb_spec (i mod length (slog l)) (length (slog l) - 1)) as [Hw|Hw].
    + rewrite (vget_lookup _ _ _ Hm). mon. rewrite vset_lt by (by eapply lookup_lt_Some). mon.
      rewrite Em, (div_succ_wrap _ _ Hlen Hw), (Nat.add_1_r (_ / _)), Nat.even_succ.
      by rewrite <- Nat.negb_even.
    + rewrite (div_succ_no_wrap _ _ Hlen Hw), <- Em, (list_insert_id (log_lmasks l)) by done. by destruct l.
  - by eapply cstep_inv.
  - split; cbn; rewrite ?length_insert; try done. intros k Hne. by rewrite list_lookup_insert_ne.
  - rewrite cstep_ltails by done. apply list_lookup_insert_eq. by eapply lookup_lt_Some.
  - done.
  - done.
  - done.
Qed.

Lemma cexec_loop_spec n li logs l hist idx t :
  logs !! li = Some l -> clog_inv l hist -> at_tail l idx t -> t + n <= length hist ->
  exists l', (forall x, cexec_loop li idx d (logs, x) (seq t n)
                = (fun x' => (<[li := l']> logs, x', true)) <$> creplay x (take n (drop t hist)))
    /\ clog_inv l' hist /\ clog_frame idx l l' /\ at_tail l' idx (t + n)
    /\ log_head l' = log_head l /\ log_ctail l' = log_ctail l /\ log_tail l' = log_tail l.
Proof.
  revert logs l t. induction n as [|n IH]; intros logs l t Hl Hinv [Hidx Hk] Hn.
  - exists l. rewrite Nat.add_0_r. split_and!; try done.
    intros x. cbn. by rewrite list_insert_id.
  - destruct (cexec_entry_spec li logs l hist idx t Hl Hinv Hidx Hk)
      as (y & l1 & Hy & E1 & Hinv1 & Hf1 & Hk1 & Hh1 & Hc1 & Ht1); [lia|].
    destruct (IH (<[li := l1]> logs) l1 (t + 1)) as (l' & E & Hinv' & Hf & Hat & Hh & Hc & Ht); try done.
    { apply list_lookup_insert_eq. by eapply lookup_lt_Some. }
    { lia. }
    exists l'. split_and!; try congruence; [|by eapply clog_frame_trans|].
    + intros x. cbn [seq cexec_loop]. rewrite E1, (drop_S _ _ _ Hy), firstn_cons.
      unfold creplay at 1. cbn [foldM].
      destruct (g x (call_of y)) as [x1| |]; mon; [|done|done].
      replace (S t) with (t + 1) by lia. rewrite E. by rewrite list_insert_insert_eq.
    + by replace (t + S n) with (t + 1 + n) by lia.
Qed.

(** [exec] replays exactly the operations the replica has not seen. *)
Lemma cexec_spec li logs l hist idx t :
  logs !! li = Some l -> clog_inv l hist -> at_tail l idx t ->
  exists l', (forall x, cexec (logs, x) li idx d
                = (fun x' => (<[li := l']> logs, x')) <$> creplay x (drop t hist))
    /\ clog_inv l' hist /\ clog_frame idx l l' /\ at_tail l' idx (log_tail l)
    /\ log_head l' = log_head l /\ log_tail l' = log_tail l
    /\ (t = log_tail l -> l' = l) /\ (t < log_tail l -> log_ctail l' = log_tail l).
Proof.
  intros Hl Hinv Hat. pose proof Hinv as []. pose proof Hat as [Hidx Hk].
  pose proof (ci_ltails0 _ _ Hk) as Ht. pose proof (at_tail_ltails _ _ _ Hat) as Hlt.
  destruct (decide (t = log_tail l)) as [->|Hne].
  - exists l. split_and!; try done; [|lia].
    intros x. unfold cexec, get_log. cbn [fst]. rewrite (vget_lookup _ _ _ Hl). mon.
    rewrite usub_le by lia. mon. rewrite (vget_lookup _ _ _ Hlt). mon.
    rewrite Nat.eqb_refl, ci_tail0, drop_all. cbn. by rewrite list_insert_id.
  - destruct (cexec_loop_spec (log_tail l - t) li logs l hist idx t Hl Hinv Hat)
      as (l1 & E & Hinv1 & Hf & Hat1 & Hh & Hc & Ht1); [lia|].
    replace (t + (log_tail l - t)) with (log_tail l) in Hat1 by lia.
    pose proof (at_tail_ltails _ _ _ Hat1) as Hlt1.
    exists (set_ctail l1 (log_tail l)). split_and!; try done; cbn; try lia.
    + intros x. unfold cexec, get_log. cbn [fst]. rewrite (vget_lookup _ _ _ Hl). mon.
      rewrite usub_le by lia. mon. rewrite (vget_lookup _ _ _ Hlt). mon.
      destruct (Nat.eqb_spec t (log_tail l)); [done|].
      destruct (Nat.ltb_spec (log_tail l) t); [lia|]. destruct (Nat.ltb_spec t (log_head l)); [lia|].
      cbn [orb]. rewrite E, take_ge by (rewrite length_drop; lia).
      destruct (creplay x (drop t hist)) as [x'| |]; mon; try done. cbn [fst].
      rewrite (vget_lookup _ _ l1) by (apply list_lookup_insert_eq; by eapply lookup_lt_Some). mon.
      rewrite vset_lt by (by eapply lookup_lt_Some). mon. unfold put_log. cbn [fst snd].
      rewrite list_insert_insert_eq. do 3 f_equal.
      rewrite (list_insert_id _ _ _ Hlt1), Nat.max_r by lia. by destruct l1.
    + destruct Hinv1. split; cbn; try done. lia.
    + destruct Hf. by split.
Qed.
End Exec.

(** ** Garbage collection *)

Section Gc.
Context {G T X : Type} (g : X -> ccall T -> res X).
Abbreviation CLog := (Log T (LogMetaData G) EntryMetaData).
Implicit Types (l : CLog) (hist : list (T * nat * nat)) (logs : list CLog) (x : X).
Variable d : list CLog * X -> ccall T -> res (list CLog * X * bool).
Hypothesis Hd : forall logs x c, cc_is_scan c = false ->
  d (logs, x) c = (fun x' => (logs, x', true)) <$> g x c.

Lemma cmeta_inv l hist m : clog_inv l hist -> meta_ok m -> clog_inv (set_meta l m) hist.
Proof. intros [] Hm. by split. Qed.

Lemma chead_inv l hist m : clog_inv l hist -> log_head l <= m -> m <= log_tail l ->
  (forall k t, registered_ltails l !! k = Some t -> m <= t) ->
  clog_inv (set_notify (set_head l m) true) hist.
Proof.
  intros [] Hm Hmt Hmin. split; cbn; try done; try lia.
  - intros k t Hk. pose proof (Hmin k t Hk). pose proof (ci_ltails0 k t Hk). lia.
  - intros i x Hi. apply ci_slots0. lia.
Qed.

(** A replica that has replayed the whole log has said so. *)
Definition cdone l : Prop := forall k, registered_ltails l !! k = Some (log_tail l) -> log_ctail l = log_tail l.

(** No other replica is so far behind that the head cannot move enough. *)
Definition others_near l (idx : LogToken) : Prop := forall k t, k <> idx - 1 ->
  registered_ltails l !! k = Some t -> log_tail l < t + length (slog l) - GC_FROM_HEAD.

Lemma clog_size_gc l hist : clog_inv l hist -> 0 < GC_FROM_HEAD /\ GC_FROM_HEAD < length (slog l).
Proof. intros []. rewrite gc_from_head_val in *. lia. Qed.

Lemma cframe_registered idx l l' k t : clog_frame idx l l' -> k <> idx - 1 ->
  registered_ltails l' !! k = Some t <-> registered_ltails l !! k = Some t.
Proof. intros [? Hn Hl _ _] Hk. rewrite !registered_lookup, Hn, Hl by done. done. Qed.

(** What a call that may replay entries on the way leaves: replica [idx] went from
    [t] to [t'], and either replayed nothing or everything. *)
Record cprogress (idx : LogToken) l l' (hist : list (T * nat * nat)) (t t' : nat) : Prop := {
  cp_inv : clog_inv l' hist;
  cp_frame : clog_frame idx l l';
  cp_at : at_tail l' idx t';
  cp_le : t <= t';
  cp_tail : log_tail l' = log_tail l;
  cp_done : (t' = t /\ log_ctail l' = log_ctail l) \/ (t' = log_tail l /\ log_ctail l' = log_tail l);
}.

Lemma cprogress_refl idx l hist t : clog_inv l hist -> at_tail l idx t -> cprogress idx l l hist t t.
Proof. intros. split; try done. by left. Qed.

Lemma cprogress_trans idx l l1 l2 hist t t1 t2 :
  cprogress idx l l1 hist t t1 -> cprogress idx l1 l2 hist t1 t2 -> cprogress idx l l2 hist t t2.
Proof.
  intros [H1 F1 A1 L1 T1 D1] [H2 F2 A2 L2 T2 D2]. split; try done; [by eapply clog_frame_trans|lia|congruence|].
  rewrite T1 in D2. destruct D1 as [[-> C1]|[-> C1]], D2 as [[-> C2]|[-> C2]]; rewrite ?C2, ?C1; auto.
Qed.

(** The first pass: it makes enough room, or replays everything. *)
Lemma cadvance_first li logs l hist idx t :
  logs !! li = Some l -> clog_inv l hist -> at_tail l idx t ->
  log_head l + length (slog l) - GC_FROM_HEAD <= log_tail l ->
  exists l', ((forall x, cadvance_body li idx d (logs, x) = Ret (inr (<[li := l']> logs, x)))
      /\ cprogress idx l l' hist t t
      /\ log_tail l < log_head l' + length (slog l) - GC_FROM_HEAD
      /\ exists k, registered_ltails l !! k = Some (log_head l'))
    \/ ((forall x, cadvance_body li idx d (logs, x)
                   = x' ← creplay g x (drop t hist); Ret (inl (<[li := l']> logs, x')))
      /\ cprogress idx l l' hist t (log_tail l)
      /\ log_head l' + length (slog l) - GC_FROM_HEAD <= log_tail l
      /\ exists k, registered_ltails l !! k = Some (log_head l')).
Proof.
  intros Hl Hinv Hat Hfull. pose proof Hinv as []. pose proof Hat as [Hidx Hk].
  pose proof (proj1 (registered_lookup _ _ _) Hk) as [Hn _].
  pose proof (ci_ltails0 _ _ Hk) as Htl.
  destruct (find_min_tail_first l) as (mi & m & Hfind & Hmi & Hmin & _); [done|lia|].
  pose proof (ci_ltails0 _ _ Hmi) as Hmr.
  assert (Hinvm : clog_inv (set_notify (set_head l m) true) hist) by (apply chead_inv; [done|lia|lia|done]).
  assert (Hstep : forall l0, clog_inv l0 hist -> cprogress idx l l0 hist t t -> log_head l0 = m ->
    exists l1, (forall x, cexec (<[li := l0]> logs, x) li idx d
                   = (fun x' => (<[li := l1]> logs, x')) <$> creplay g x (drop t hist))
      /\ cprogress idx l l1 hist t (log_tail l) /\ log_head l1 = m).
  { intros l0 Hinv0 Hp0 Hh0.
    destruct (cexec_spec g d Hd li (<[li := l0]> logs) l0 hist idx t)
      as (l1 & E1 & Hinv1 & Hf1 & Hat1 & Hh1 & Ht1 & Hsame & Hct); [|done|apply Hp0|].
    { apply list_lookup_insert_eq. by eapply lookup_lt_Some. }
    rewrite (cp_tail _ _ _ _ _ _ Hp0) in *. exists l1. split_and!; [|split|congruence]; try done; try lia.
    - intros x. by rewrite E1, list_insert_insert_eq.
    - eapply clog_frame_trans; [apply Hp0|done].
    - destruct (decide (t = log_tail l)) as [Et|]; [|right; split; [done|apply Hct; lia]].
      rewrite (Hsame Et). destruct (cp_done _ _ _ _ _ _ Hp0) as [[_ ?]|[? ?]]; auto. }
  destruct (decide (m = log_head l)) as [->|Hne].
  - destruct (Hstep l) as (l1 & E1 & Hp1 & Hh1); [done|by apply cprogress_refl|done|].
    exists l1. right. split_and!; [|done|by rewrite Hh1|by rewrite Hh1; eauto]. intros x.
    unfold cadvance_body, get_log. cbn [fst]. rewrite (vget_lookup _ _ _ Hl). mon. rewrite Hfind. mon.
    rewrite Nat.eqb_refl. rewrite <- (list_insert_id logs li l) at 1 by done. rewrite E1.
    by destruct (creplay g x (drop t hist)).
  - set (l0 := set_notify (set_head l m) true) in *.
    assert (Hp0 : cprogress idx l l0 hist t t) by (split; try done; by left).
    destruct (decide (log_tail l < m + length (slog l) - GC_FROM_HEAD)) as [Hlt|Hge].
    + exists l0. left. split_and!; [|done|done|by exists mi]. intros x.
      unfold cadvance_body, get_log. cbn [fst]. rewrite (vget_lookup _ _ _ Hl). mon. rewrite Hfind. mon.
      rewrite (proj2 (Nat.eqb_neq _ _) Hne), (proj2 (Nat.ltb_lt _ _) Hlt). done.
    + destruct (Hstep l0) as (l1 & E1 & Hp1 & Hh1); [done|done|done|].
      exists l1. right. split_and!; [|done|rewrite Hh1; lia|by rewrite Hh1; eauto]. intros x.
      unfold cadvance_body, get_log. cbn [fst]. rewrite (vget_lookup _ _ _ Hl). mon. rewrite Hfind. mon.
      rewrite (proj2 (Nat.eqb_neq _ _) Hne), (proj2 (Nat.ltb_ge _ _)) by lia.
      unfold put_log. cbn [fst snd]. fold l0. rewrite E1. by destruct (creplay g x (drop t hist)).
Qed.

(** [advance_head] after an append that has used up the reserve: if no replica is
    too far behind, it makes enough room within two passes. *)
Lemma cadvance_head_spec li logs l hist idx t :
  logs !! li = Some l -> clog_inv l hist -> at_tail l idx t -> others_near l idx ->
  log_head l + length (slog l) - GC_FROM_HEAD <= log_tail l ->
  exists l' t', (forall x, cadvance_head (logs, x) li idx d
                  = (fun x' => (<[li := l']> logs, x')) <$> creplay g x (take (t' - t) (drop t hist)))
    /\ cprogress idx l l' hist t t'
    /\ log_tail l < log_head l' + length (slog l) - GC_FROM_HEAD.
Proof.
  intros Hl Hinv Hat Hnear Hfull. unfold cadvance_head. setoid_rewrite rloop_loopN.
  change (Pos.to_nat cnr_passes) with (S (S 62)).
  destruct (cadvance_first li logs l hist idx t Hl Hinv Hat Hfull)
    as (l1 & [(E1 & Hp1 & Hroom & _)|(E1 & Hp1 & Hfull1 & _)]).
  - exists l1, t. split_and!; try done. intros x. by rewrite loopN_S, E1, Nat.sub_diag.
  - pose proof Hp1 as [Hinv1 Hf1 Hat1 Hle1 Ht1 _]. pose proof (cf_len _ _ _ Hf1) as Hlen1.
    assert (Hl1 : <[li := l1]> logs !! li = Some l1) by (apply list_lookup_insert_eq; by eapply lookup_lt_Some).
    destruct (cadvance_first li (<[li := l1]> logs) l1 hist idx (log_tail l) Hl1 Hinv1 Hat1)
      as (l2 & [(E2 & Hp2 & Hroom & _)|(E2 & _ & Hfull2 & k & Hk)]); [by rewrite Hlen1, Ht1| |].
    + exists l2, (log_tail l). split_and!; [|by eapply cprogress_trans|by rewrite <- Ht1, <- Hlen1].
      intros x. rewrite loopN_S, E1, take_ge by (rewrite length_drop, (ci_tail _ _ Hinv); lia).
      destruct (creplay g x (drop t hist)) as [x'| |]; mon; try done.
      rewrite loopN_S, E2. mon. by rewrite list_insert_insert_eq.
    + exfalso. rewrite Hlen1, Ht1 in Hfull2. pose proof (clog_size_gc _ _ Hinv) as [Hg1 Hg2].
      destruct (decide (k = idx - 1)) as [->|Hne].
      * destruct Hat1 as [_ Hk1]. rewrite Hk in Hk1. injection Hk1 as E. lia.
      * apply (cframe_registered idx l l1) in Hk; [|done|done]. specialize (Hnear k _ Hne Hk). lia.
Qed.

Lemma cadvance_stuck li logs l hist idx j x :
  logs !! li = Some l -> clog_inv l hist -> at_tail l idx (log_tail l) ->
  registered_ltails l !! j = Some (log_head l) -> cadvance_body li idx d (logs, x) = Ret (inl (logs, x)).
Proof.
  intros Hl Hinv Hat Hj. pose proof Hinv as []. pose proof Hat as [Hidx Hk].
  pose proof (proj1 (registered_lookup _ _ _) Hk) as [Hn _].
  destruct (find_min_tail_first l) as (mi & m & Hfind & Hmi & Hmin & _); [done|lia|].
  pose proof (ci_ltails0 _ _ Hmi). specialize (Hmin _ _ Hj).
  destruct (cexec_spec g d Hd li logs l hist idx _ Hl Hinv Hat) as (l1 & E1 & _ & _ & _ & _ & _ & Hsame & _).
  rewrite (Hsame eq_refl) in E1.
  unfold cadvance_body, get_log. cbn [fst]. rewrite (vget_lookup _ _ _ Hl). mon. rewrite Hfind. mon.
  replace m with (log_head l) by lia. rewrite Nat.eqb_refl, E1, ci_tail0, drop_all. cbn.
  by rewrite list_insert_id.
Qed.

(** A replica that lags so far behind that the head cannot move enough blocks
    [advance_head] forever. *)
Lemma cadvance_head_blocks li logs l hist idx t k u :
  logs !! li = Some l -> clog_inv l hist -> at_tail l idx t ->
  k <> idx - 1 -> registered_ltails l !! k = Some u ->
  u + length (slog l) - GC_FROM_HEAD <= log_tail l ->
  forall x x', creplay g x (drop t hist) = Ret x' -> cadvance_head (logs, x) li idx d = Spin.
Proof.
  intros Hl Hinv Hat Hne Hu Hlag x x' Hx. unfold cadvance_head. rewrite rloop_loopN.
  change (Pos.to_nat cnr_passes) with (S (S 62)). pose proof (clog_size_gc _ _ Hinv) as [Hg1 Hg2].
  pose proof (ci_ltails _ _ Hinv _ _ Hu) as Hur.
  destruct (cadvance_first li logs l hist idx t Hl Hinv Hat)
    as (l1 & [(E1 & Hp1 & Hroom & _)|(E1 & Hp1 & Hfull1 & _)]); [lia| |].
  { apply (cframe_registered idx l l1) in Hu; [|apply Hp1|done].
    pose proof (ci_ltails _ _ (cp_inv _ _ _ _ _ _ Hp1) _ _ Hu). lia. }
  rewrite loopN_S, E1, Hx. mon. pose proof Hp1 as [Hinv1 Hf1 Hat1 Hle1 Ht1 _].
  pose proof (cf_len _ _ _ Hf1) as Hlen1.
  assert (Hu1 : registered_ltails l1 !! k = Some u) by (by apply (cframe_registered idx l l1)).
  assert (Hl1 : <[li := l1]> logs !! li = Some l1) by (apply list_lookup_insert_eq; by eapply lookup_lt_Some).
  assert (Hend : drop (log_tail l) hist = []) by (rewrite (ci_tail _ _ Hinv); apply drop_all).
  destruct (cadvance_first li (<[li := l1]> logs) l1 hist idx (log_tail l) Hl1 Hinv1 Hat1)
    as (l2 & [(_ & Hp2 & Hroom & _)|(E2 & Hp2 & Hfull2 & j & Hj)]); [by rewrite Hlen1, Ht1| |].
  { apply (cframe_registered idx l1 l2) in Hu1; [|apply Hp2|done].
    pose proof (ci_ltails _ _ (cp_inv _ _ _ _ _ _ Hp2) _ _ Hu1). lia. }
  rewrite loopN_S, E2, Hend. cbn [creplay foldM]. mon. rewrite list_insert_insert_eq.
  apply loopN_stuck. pose proof Hp2 as [Hinv2 Hf2 Hat2 _ Ht2 _].
  apply (cadvance_stuck li _ l2 hist idx j); [|done|by rewrite Ht2|].
  - apply list_lookup_insert_eq. by eapply lookup_lt_Some.
  - destruct (decide (j = idx - 1)) as [->|Hj']; [|by apply (cframe_registered idx l1 l2)].
    destruct Hat1 as [_ Hk1]. rewrite Hk1 in Hj. injection Hj as <-. rewrite Ht1 in Hat2. apply Hat2.
Qed.
End Gc.

(** Replaying waits for an entry that is reserved but not filled. *)
Section Unfilled.
Context {G T X : Type}.
Abbreviation CLog := (Log T (LogMetaData G) EntryMetaData).
Variable d : list CLog * X -> ccall T -> res (list CLog * X * bool).

Lemma clog_next_unfilled (l : CLog) hist idx e m :
  clog_inv l hist -> at_tail l idx (log_tail l) ->
  slog l !! (log_tail l mod length (slog l)) = Some e -> log_lmasks l !! (idx - 1) = Some m ->
  alivef e = negb m.
Proof.
  intros Hinv [_ Hk] He Hm. pose proof (clog_len_pos _ _ Hinv) as Hlen.
  rewrite (ci_masks _ _ Hinv _ _ _ Hk Hm), (ci_alive _ _ Hinv _ _ He), <- (ci_tail _ _ Hinv), Nat.negb_even. f_equal.
  pose proof (laps_current (length (slog l)) (log_tail l) (log_tail l + 1) Hlen) as E.
  rewrite laps_snoc, decide_True in E by (done || by apply Nat.mod_upper_bound; lia). lia.
Qed.

Lemma cadvance_unfilled li logs x (l : CLog) hist idx k :
  logs !! li = Some l -> clog_inv l hist -> at_tail l idx (log_tail l) ->
  registered_ltails l !! k = Some (log_head l) ->
  cadvance_body li idx d (<[li := set_tail l (log_tail l + 1)]> logs, x) = Spin.
Proof.
  intros Hl Hinv Hat Hk. pose proof Hinv as []. pose proof (at_tail_ltails _ _ _ Hat) as Hlt.
  pose proof Hat as [Hidx Hown]. pose proof (proj1 (registered_lookup _ _ _) Hown) as [Hn _].
  destruct (find_min_tail_first (set_tail l (log_tail l + 1))) as (mi & m & Hfind & Hmi & Hmin & _); [done|cbn; lia|].
  pose proof (ci_ltails0 _ _ Hmi) as Hm. specialize (Hmin _ _ Hk). assert (m = log_head l) as -> by (cbn in Hm; lia).
  assert (Hl1 : <[li := set_tail l (log_tail l + 1)]> logs !! li = Some (set_tail l (log_tail l + 1)))
    by (apply list_lookup_insert_eq; by eapply lookup_lt_Some).
  destruct (lookup_lt_is_Some_2 (slog l) (log_tail l mod length (slog l))) as [e He]; [by eapply clog_slot_lt|].
  destruct (lookup_lt_is_Some_2 (log_lmasks l) (idx - 1)) as [b Hb]; [apply lookup_lt_Some in Hlt; lia|].
  unfold cadvance_body, get_log. cbn [fst]. rewrite (vget_lookup _ _ _ Hl1). mon. rewrite Hfind. mon.
  cbn [log_head set_tail]. rewrite Nat.eqb_refl. unfold cexec, get_log. cbn [fst].
  rewrite (vget_lookup _ _ _ Hl1). mon. rewrite usub_le by lia. mon. cbn [log_ltails set_tail].
  rewrite (vget_lookup _ _ _ Hlt). mon. cbn [log_tail log_head set_tail].
  destruct (Nat.eqb_spec (log_tail l) (log_tail l + 1)); [lia|].
  destruct (Nat.ltb_spec (log_tail l + 1) (log_tail l)); [lia|].
  destruct (Nat.ltb_spec (log_tail l) (log_head l)); [lia|]. cbn [orb].
  replace (log_tail l + 1 - log_tail l) with 1 by lia. cbn [seq cexec_loop]. unfold cexec_entry, get_log. cbn [fst].
  rewrite (vget_lookup _ _ _ Hl1). mon. change (log_index (set_tail l (log_tail l + 1))) with (log_index l).
  rewrite (clog_index _ _ _ Hinv). cbn [slog log_lmasks set_tail]. rewrite (vget_lookup _ _ _ He). mon.
  rewrite usub_le by lia. mon. rewrite (vget_lookup _ _ _ Hb). mon.
  rewrite (clog_next_unfilled l hist idx e b) by done. by destruct b.
Qed.
End Unfilled.

(** ** Appending *)

Section Append.
Context {G T X : Type} (g : X -> ccall T -> res X).
Abbreviation CLog := (Log T (LogMetaData G) EntryMetaData).
Implicit Types (l : CLog) (hist : list (T * nat * nat)) (logs : list CLog) (x : X).
Variable d : list CLog * X -> ccall T -> res (list CLog * X * bool).
Hypothesis Hd : forall logs x c, cc_is_scan c = false ->
  d (logs, x) c = (fun x' => (logs, x', true)) <$> g x c.

(** Looking for dormant replicas and calling the application only touches the
    metadata. *)
Definition meta_kept (m m' : LogMetaData G) : Prop :=
  meta_ok m' /\ lm_idx m' = lm_idx m /\ lm_scanlock m' = lm_scanlock m.

Lemma mark_dormant_spec l m c th b ks :
  meta_ok m -> length (log_ltails l) = MAX_REPLICAS_PER_LOG ->
  (forall k, k ∈ ks -> 1 <= k <= MAX_REPLICAS_PER_LOG) ->
  exists m' b', foldM (mark_dormant c th) (set_meta l m, b) ks = Ret (set_meta l m', b')
    /\ meta_kept m m'.
Proof.
  intros Hm Hlen. revert m b Hm. induction ks as [|k ks IH]; intros m b Hm Hks.
  - exists m, b. done.
  - assert (Hk : 1 <= k <= MAX_REPLICAS_PER_LOG) by (apply Hks; left).
    destruct (lookup_lt_is_Some_2 (log_ltails l) (k - 1)) as [lt Hlt]; [lia|].
    cbn [foldM]. unfold mark_dormant at 2. rewrite usub_le by lia. mon.
    cbn [log_ltails set_meta]. rewrite (vget_lookup _ _ _ Hlt). mon.
    destruct (_ && _).
    + cbn [log_meta set_meta]. rewrite vset_lt by (destruct Hm; lia). mon.
      match goal with |- context [foldM _ (?l', _) _] => change l' with
        (set_meta l (mkLMeta (lm_idx m) (lm_scanlock m) (lm_gc m) (lm_gc_state m) (lm_notify m)
                       (<[k - 1 := true]> (lm_dormant m)))) end.
      destruct (IH (mkLMeta (lm_idx m) (lm_scanlock m) (lm_gc m) (lm_gc_state m) (lm_notify m)
                       (<[k - 1 := true]> (lm_dormant m))) true) as (m' & b' & E & Hm'); [| |by eauto].
      * destruct Hm. split; cbn; [by rewrite length_insert|done].
      * intros j Hj. apply Hks. by right.
    + apply IH; [done|]. intros j Hj. apply Hks. by right.
Qed.

Lemma notify_dormant_spec l hist idx t : clog_inv l hist -> at_tail l idx t ->
  exists m', notify_dormant l idx = Ret (set_meta l m') /\ meta_kept (log_meta l) m'.
Proof.
  intros [] Hat. unfold notify_dormant. rewrite (usub_le (log_tail l)) by lia. mon.
  destruct (_ <? _); [|exists (log_meta l); split; [by destruct l|done]].
  pose proof (at_tail_ltails _ _ _ Hat) as Hlt. destruct Hat as [Hidx Hk].
  rewrite usub_le by lia. mon. rewrite (vget_lookup _ _ _ Hlt). mon.
  destruct (mark_dormant_spec l (log_meta l) t (length (slog l) / 3) false (seq 1 (log_next l - 1)))
    as (m' & b' & E & Hm'); [done|done|intros k Hk'; apply elem_of_seq in Hk'; lia|].
  replace (set_meta l (log_meta l)) with l in E by (by destruct l). rewrite E. mon.
  destruct (_ && _); [|by exists m'].
  destruct (lm_gc m' (lm_gc_state m') (lm_dormant m') (lm_idx m')) as [g' dr] eqn:Eg.
  unfold run_gc. cbn [set_notify log_meta set_meta lm_gc lm_gc_state lm_dormant lm_idx]. rewrite Eg.
  eexists. split; [done|]. destruct Hm' as ((Hd1 & Hd2) & ? & ?). split_and!; try done.
  split; [|done]. cbn. specialize (Hd2 (lm_gc_state m') (lm_dormant m') (lm_idx m') Hd1). by rewrite Eg in Hd2.
Qed.

(** Writing the entry behind the last one. *)
Lemma update_entry_push l hist idx o tid N :
  clog_inv l hist -> 1 <= idx <= MAX_REPLICAS_PER_LOG -> length hist < log_head l + length (slog l) ->
  exists es, update_entry (set_tail l N) (length hist) (o, tid, false) idx false None
             = Ret (set_slog (set_tail l N) es)
    /\ length es = length (slog l)
    /\ clog_inv (set_tail (set_slog l es) (length hist + 1)) (hist ++ [(o, idx, tid)]).
Proof.
  intros Hinv Hidx Hroom. pose proof Hinv as []. pose proof (clog_len_pos _ _ Hinv) as Hlen.
  destruct (lookup_lt_is_Some_2 (slog l) (length hist mod length (slog l))) as [e He];
    [by eapply clog_slot_lt|].
  destruct (lookup_lt_is_Some_2 (log_lmasks l) (idx - 1)) as [m Hm]; [lia|].
  set (e' := mkEntry (Some o) idx (negb (alivef e)) (mkEMeta false tid false None (N.of_nat (log_next l - 1)))).
  exists (<[length hist mod length (slog l) := e']> (slog l)).
  split; [|split; [apply length_insert|]].
  - unfold update_entry. cbn [log_next set_tail log_lmasks slog]. rewrite usub_le by lia. mon.
    change (log_index (set_tail l N)) with (log_index l).
    rewrite (clog_index _ _ _ Hinv), (vget_lookup _ _ _ He). mon. rewrite usub_le by lia. mon.
    rewrite (vget_lookup _ _ _ Hm). mon. rewrite vset_lt by (by eapply lookup_lt_Some). mon.
    by rewrite alive_flip.
  - assert (Hw : waiting l (length hist) = log_next l - 1).
    { unfold waiting. rewrite count_all.
      - unfold registered_ltails. rewrite length_take. lia.
      - intros i t Ht. apply Nat.leb_le. pose proof (ci_ltails0 _ _ Ht). lia. }
    split; cbn; rewrite ?length_insert, ?length_app; cbn [length]; try done; try lia.
    + intros k t Ht. pose proof (ci_ltails0 k t Ht). lia.
    + intros j y Hj. apply list_lookup_insert_Some in Hj as [(<- & <- & _)|[Hne Hj]].
      * rewrite laps_snoc, decide_True by (done || by eapply clog_slot_lt). cbn.
        rewrite (ci_alive0 _ _ He), Nat.add_1_r, Nat.odd_succ. by rewrite <- Nat.negb_odd.
      * rewrite laps_snoc, decide_False by (done || by eapply lookup_lt_Some).
        rewrite Nat.add_0_r. by apply ci_alive0.
    + intros i y Hi [Hold | [-> <-]]%lookup_snoc_Some.
      * destruct (ci_slots0 i y Hi Hold) as (e0 & He0 & Hok). exists e0. split; [|done].
        pose proof (lookup_lt_Some _ _ _ Hold). rewrite list_lookup_insert_ne; [done|]. apply mod_near_ne; lia.
      * exists e'. rewrite list_lookup_insert_eq by (by eapply lookup_lt_Some). split; [done|].
        split; try done. cbn. change (waiting (set_tail _ _) ?p) with (waiting l p). by rewrite Hw.
Qed.

(** The entries for operations of replica [idx], with the threads that issued them. *)
Definition ents (idx : LogToken) (ps : list (T * nat)) : list (T * nat * nat) :=
  map (fun p => (p.1, idx, p.2)) ps.
Definition writes (ps : list (T * nat)) : list (T * nat * bool) := map (fun p => (p, false)) ps.

Lemma cwrite_spec idx tail0 N ps l hist k :
  clog_inv l hist -> 1 <= idx <= MAX_REPLICAS_PER_LOG -> tail0 + k = length hist ->
  length hist + length ps <= log_head l + length (slog l) ->
  exists es, foldM (fun l iop => update_entry l (tail0 + iop.1) iop.2 idx false None) (set_tail l N)
               (zip (seq k (length ps)) (writes ps)) = Ret (set_slog (set_tail l N) es)
    /\ length es = length (slog l)
    /\ clog_inv (set_tail (set_slog l es) (length hist + length ps)) (hist ++ ents idx ps).
Proof.
  revert l hist k. induction ps as [|[o tid] ps IH]; intros l hist k Hinv Hidx Hk Hroom.
  - exists (slog l). cbn. rewrite app_nil_r, Nat.add_0_r. split_and!; [by destruct l|done|].
    replace (set_tail _ _) with l; [done|]. rewrite <- (ci_tail _ _ Hinv). by destruct l.
  - cbn [length] in Hroom. destruct (update_entry_push l hist idx o tid N) as (es1 & E1 & Hl1 & Hinv1); try done; [lia|].
    destruct (IH (set_tail (set_slog l es1) (length hist + 1)) (hist ++ [(o, idx, tid)]) (S k))
      as (es & E & Hl & Hinv');
      [done|done|rewrite length_app; cbn; lia|rewrite length_app; cbn; rewrite Hl1; lia|].
    exists es. cbn [length seq writes map zip zip_with foldM fst snd]. rewrite Hk. cbn beta iota. rewrite E1. mon.
    split_and!; [exact E|by rewrite Hl|].
    cbn in Hinv'. rewrite length_app in Hinv'. cbn [length] in Hinv'.
    rewrite <- app_assoc in Hinv'. cbn [app] in Hinv'.
    by replace (length hist + S (length ps)) with (length hist + 1 + length ps) by lia.
Qed.

(** No other replica would be too far behind after [n] more entries. *)
Definition room_for l (idx : LogToken) (n : nat) : Prop := forall k t, k <> idx - 1 ->
  registered_ltails l !! k = Some t -> log_tail l + n < t + length (slog l) - GC_FROM_HEAD.

(** The first pass of [append] on a log with free entries: the operations are in
    the log, and the head still has to move if they are among the last free ones. *)
Lemma cappend_first li logs l hist idx t ps :
  logs !! li = Some l -> clog_inv l hist -> at_tail l idx t ->
  log_tail l <= log_head l + length (slog l) - GC_FROM_HEAD -> length ps <= GC_FROM_HEAD ->
  exists l1, (forall x, cappend_body li (writes ps) idx d (logs, x)
      = if log_head l + length (slog l) - GC_FROM_HEAD <? log_tail l + length ps
        then w2 ← cadvance_head (<[li := l1]> logs, x) li idx d; Ret (inr w2)
        else Ret (inr (<[li := l1]> logs, x)))
    /\ clog_inv l1 (hist ++ ents idx ps) /\ clog_frame idx l l1 /\ log_ltails l1 = log_ltails l
    /\ log_tail l1 = log_tail l + length ps /\ log_head l1 = log_head l /\ log_ctail l1 = log_ctail l.
Proof.
  intros Hl Hinv Hat Hfit Hps. pose proof Hinv as []. pose proof Hat as [Hidx Hk].
  pose proof (clog_size_gc _ _ Hinv) as [Hg1 Hg2]. pose proof (ci_ltails0 _ _ Hk) as Htl.
  pose proof (proj1 (registered_lookup _ _ _) Hk) as [Hn _].
  destruct (notify_dormant_spec l hist idx t Hinv Hat) as (m' & Enot & Hm' & Hmi & Hms).
  set (l0 := set_meta l m'). assert (Hinv0 : clog_inv l0 hist) by (by apply cmeta_inv).
  destruct (cwrite_spec idx (log_tail l) (log_tail l + length ps) ps l0 hist 0)
    as (es & Ew & Hles & Hinv1); [done|lia|lia|cbn; lia|].
  exists (set_slog (set_tail l0 (log_tail l + length ps)) es).
  split_and!; try done; [|by rewrite <- ci_tail0 in Hinv1].
  intros x. unfold cappend_body, get_log, put_log. cbn [fst snd]. rewrite (vget_lookup _ _ _ Hl). mon.
  rewrite Enot. mon. fold l0. change (length (slog l0)) with (length (slog l)).
  destruct (Nat.ltb_spec (log_head l + length (slog l) - GC_FROM_HEAD) (log_tail l)); [lia|].
  unfold cwrite_entries. replace (length (writes ps)) with (length ps) by (symmetry; apply length_map).
  rewrite Ew. mon. by rewrite list_insert_insert_eq.
Qed.

(** [append]: the history grows by exactly the operations. *)
Lemma cappend_spec li logs l hist idx t ps :
  logs !! li = Some l -> clog_inv l hist -> at_tail l idx t -> cdone l ->
  log_tail l <= log_head l + length (slog l) - GC_FROM_HEAD -> length ps <= GC_FROM_HEAD ->
  (log_head l + length (slog l) - GC_FROM_HEAD < log_tail l + length ps -> room_for l idx (length ps)) ->
  exists l' t', (forall x, cappend (logs, x) li (writes ps) idx d
      = (fun x' => (<[li := l']> logs, x'))
        <$> creplay g x (take (t' - t) (drop t (hist ++ ents idx ps))))
    /\ clog_inv l' (hist ++ ents idx ps) /\ clog_frame idx l l' /\ at_tail l' idx t' /\ t <= t'
    /\ log_tail l' = log_tail l + length ps
    /\ log_tail l' <= log_head l' + length (slog l) - GC_FROM_HEAD
    /\ (t' = log_tail l' -> log_ctail l' = log_tail l').
Proof.
  intros Hl Hinv Hat Hdone Hfit Hps Hroom. pose proof Hinv as []. pose proof Hat as [Hidx Hk].
  pose proof (clog_size_gc _ _ Hinv) as [Hg1 Hg2]. pose proof (ci_ltails0 _ _ Hk) as Htl.
  destruct (cappend_first li logs l hist idx t ps) as (l1 & Hbody & Hinv1 & Hf1 & Elt & Et1 & Eh1 & Ec1); try done.
  pose proof (cf_len _ _ _ Hf1) as Hlen1.
  assert (Ereg : registered_ltails l1 = registered_ltails l).
  { unfold registered_ltails. by rewrite Elt, (cf_next _ _ _ Hf1). }
  assert (Hat1 : at_tail l1 idx t) by (split; [done|by rewrite Ereg]).
  unfold cappend. setoid_rewrite rloop_loopN. change (Pos.to_nat cnr_passes) with (S 63).
  destruct (Nat.ltb_spec (log_head l + length (slog l) - GC_FROM_HEAD) (log_tail l + length ps)) as [Hadv|Hadv].
  - destruct (cadvance_head_spec g d Hd li (<[li := l1]> logs) l1 (hist ++ ents idx ps) idx t)
      as (l' & t' & E & [Hinv2 Hf2 Hat2 Hle2 Ht2 Hd2] & Hr2); try done.
    { apply list_lookup_insert_eq. by eapply lookup_lt_Some. }
    { intros k u Hk' Hu. rewrite Ereg in Hu. rewrite Hlen1, Et1. exact (Hroom Hadv k u Hk' Hu). }
    { rewrite Hlen1, Eh1, Et1. lia. }
    rewrite Et1, Hlen1 in *. exists l', t'. split_and!; try done; try lia.
    + intros x. rewrite loopN_S, Hbody, E.
      destruct (creplay g x _) as [x'| |]; mon; try done. by rewrite list_insert_insert_eq.
    + by eapply clog_frame_trans.
  - exists l1, t. split_and!; try done; try lia.
    + intros x. by rewrite loopN_S, Hbody, Nat.sub_diag.
    + rewrite Et1, Ec1. intros ->. replace (log_tail l + length ps) with (log_tail l) in Hk |- * by lia.
      exact (Hdone _ Hk).
Qed.

(** [append] never returns if a replica would be too far behind and the operations
    are among the last free entries. *)
Lemma cappend_blocks_spec li logs l hist idx t ps k u :
  logs !! li = Some l -> clog_inv l hist -> at_tail l idx t ->
  log_tail l <= log_head l + length (slog l) - GC_FROM_HEAD -> length ps <= GC_FROM_HEAD ->
  log_head l + length (slog l) - GC_FROM_HEAD < log_tail l + length ps ->
  k <> idx - 1 -> registered_ltails l !! k = Some u ->
  u + length (slog l) - GC_FROM_HEAD <= log_tail l + length ps ->
  forall x x', creplay g x (drop t (hist ++ ents idx ps)) = Ret x' ->
    cappend (logs, x) li (writes ps) idx d = Spin.
Proof.
  intros Hl Hinv Hat Hfit Hps Hadv Hne Hu Hlag x x' Hx.
  destruct (cappend_first li logs l hist idx t ps) as (l1 & Hbody & Hinv1 & Hf1 & Elt & Et1 & Eh1 & Ec1); try done.
  assert (Ereg : registered_ltails l1 = registered_ltails l).
  { unfold registered_ltails. by rewrite Elt, (cf_next _ _ _ Hf1). }
  unfold cappend. rewrite rloop_loopN. change (Pos.to_nat cnr_passes) with (S 63). rewrite loopN_S, Hbody.
  rewrite (proj2 (Nat.ltb_lt _ _) Hadv).
  rewrite (cadvance_head_blocks g d Hd li (<[li := l1]> logs) l1 (hist ++ ents idx ps) idx t k u) with (x' := x'); try done.
  - apply list_lookup_insert_eq. by eapply lookup_lt_Some.
  - destruct Hat. split; [done|]. by rewrite Ereg.
  - by rewrite Ereg.
  - by rewrite (cf_len _ _ _ Hf1), Et1.
Qed.

(** One round of appending and replaying, as [combine] does it. *)
Lemma append_exec_spec li logs l hist idx t ps :
  logs !! li = Some l -> clog_inv l hist -> at_tail l idx t -> cdone l ->
  log_tail l <= log_head l + length (slog l) - GC_FROM_HEAD -> length ps <= GC_FROM_HEAD ->
  (log_head l + length (slog l) - GC_FROM_HEAD < log_tail l + length ps -> room_for l idx (length ps)) ->
  exists l', (forall x, (w ← cappend (logs, x) li (writes ps) idx d; cexec w li idx d)
      = (fun x' => (<[li := l']> logs, x')) <$> creplay g x (drop t (hist ++ ents idx ps)))
    /\ clog_inv l' (hist ++ ents idx ps) /\ clog_frame idx l l'
    /\ at_tail l' idx (log_tail l') /\ log_tail l' = log_tail l + length ps
    /\ log_tail l' <= log_head l' + length (slog l) - GC_FROM_HEAD
    /\ log_ctail l' = log_tail l'.
Proof.
  intros Hl Hinv Hat Hdone Hfit Hps Hroom.
  destruct (cappend_spec li logs l hist idx t ps Hl Hinv Hat Hdone Hfit Hps Hroom)
    as (l1 & t1 & E1 & Hinv1 & Hf1 & Hat1 & Hle1 & Ht1 & Hfit1 & Hd1).
  destruct (cexec_spec g d Hd li (<[li := l1]> logs) l1 (hist ++ ents idx ps) idx t1) as (l2 & E2 & Hinv2 & Hf2 & Hat2 & Hh2 & Ht2 & Hs2 & Hc2);
    [by apply list_lookup_insert_eq, lookup_lt_Some with l|done|done|].
  exists l2. split_and!; try done; try congruence.
  - intros x. rewrite E1. set (h := hist ++ ents idx ps).
    assert (Es : drop t h = take (t1 - t) (drop t h) ++ drop t1 h).
    { rewrite <- (take_drop (t1 - t) (drop t h)) at 1. by rewrite drop_drop, Nat.add_comm, Nat.sub_add. }
    rewrite Es at 2. rewrite creplay_app.
    destruct (creplay g x (take (t1 - t) (drop t h))) as [x1| |]; mon; try done.
    rewrite E2. by rewrite list_insert_insert_eq.
  - by eapply clog_frame_trans.
  - rewrite Ht2. destruct (decide (t1 = log_tail l1)) as [Et|Et].
    + rewrite (Hs2 Et). by apply Hd1.
    + apply Hc2. destruct Hat1 as [_ Hk1]. pose proof (ci_ltails _ _ Hinv1 _ _ Hk1). lia.
Qed.
End Append.
