(* ===== verification/CnrCommute.v ===== *)
(** * Partitioned histories

    CNR asks the application to map conflicting operations to the same log (trait
    [LogMapper]): operations of different logs commute.  A replica that has
    replayed some prefix of every log has therefore executed, up to reordering, a
    part of the one history of all operations.  [restrict] is that part, and the
    lemmas say what replaying one more entry, a new operation and a read do to
    it. *)

From S2P Require Import Prelude Context Log NrLog CnrLog CnrReplica.

(** What the documentation of [LogMapper] asks of an implementation, for [n] logs. *)
Class LogMapperLaws {D RO WO R} `{!CDispatch D RO WO R} (n : nat) := {
  lm_commute d o1 o2 h1 h2 d1 r1 d12 r2 :
    w_hash o1 n = [h1] -> w_hash o2 n = [h2] -> h1 <> h2 ->
    c_dispatch_mut d o1 = Ret (d1, r1) -> c_dispatch_mut d1 o2 = Ret (d12, r2) ->
    exists d2, c_dispatch_mut d o2 = Ret (d2, r2) /\ c_dispatch_mut d2 o1 = Ret (d12, r1);
  lm_read d o ro h hr d1 r1 :
    w_hash o n = [h] -> r_hash ro n = [hr] -> h <> hr ->
    c_dispatch_mut d o = Ret (d1, r1) -> c_dispatch d ro = c_dispatch d1 ro;
}.

Section Commute.
Context {D RO WO R : Type} `{!CDispatch D RO WO R} {n : nat} `{!LogMapperLaws n}.

(** An executed operation: its log, the operation, the issuing replica and thread. *)
Abbreviation hent := (nat * (WO * nat * nat))%type.
Implicit Types (x : hent) (H M : list hent) (v : nat -> nat) (d : D).

Definition h_op x : WO := x.2.1.1.
Definition mapped x : Prop := w_hash (h_op x) n = [x.1].

(** The entries of one log. *)
Definition lhist (h : nat) H : list (WO * nat * nat) := map snd (filter (fun x => x.1 = h) H).

Definition crun d H : res D := foldM (fun d x => fst <$> c_dispatch_mut d (h_op x)) d H.

Definition dec v (h : nat) : nat -> nat := fun j => if decide (j = h) then v h - 1 else v j.
Definition bump v (h : nat) : nat -> nat := fun j => if decide (j = h) then v h + 1 else v j.

(** The first [v h] entries of every log [h], in the order of [H]; and the others. *)
Fixpoint restrict v H : list hent :=
  match H with
  | [] => []
  | x :: H' => if decide (0 < v x.1) then x :: restrict (dec v x.1) H' else restrict v H'
  end.
Fixpoint missing v H : list hent :=
  match H with
  | [] => []
  | x :: H' => if decide (0 < v x.1) then missing (dec v x.1) H' else x :: missing v H'
  end.

(** ** Restriction *)

Lemma restrict_ext v v' H : (forall h, v h = v' h) -> restrict v H = restrict v' H.
Proof.
  revert v v'. induction H as [|x H IH]; intros v v' E; [done|]. cbn. rewrite E.
  case_decide; [f_equal|]; apply IH; [|done]. intros h. unfold dec. case_decide; by rewrite ?E.
Qed.

Lemma lhist_cons h x H : lhist h (x :: H) = (if decide (x.1 = h) then [x.2] else []) ++ lhist h H.
Proof. unfold lhist. rewrite filter_cons. by case_decide. Qed.

Lemma lhist_app h H H' : lhist h (H ++ H') = lhist h H ++ lhist h H'.
Proof. unfold lhist. by rewrite list.filter_app, map_app. Qed.

Lemma bump_eq v h : bump v h h = v h + 1.
Proof. unfold bump. by rewrite decide_True. Qed.
Lemma bump_ne v h j : j <> h -> bump v h j = v j.
Proof. intros. unfold bump. by rewrite decide_False. Qed.
Lemma dec_eq v h : dec v h h = v h - 1.
Proof. unfold dec. by rewrite decide_True. Qed.
Lemma dec_ne v h j : j <> h -> dec v h j = v j.
Proof. intros. unfold dec. by rewrite decide_False. Qed.

Lemma dec_bump v h j : dec (bump v h) h j = v j.
Proof. unfold dec, bump. repeat case_decide; subst; try done; lia. Qed.

Lemma dec_bump_ne v h h' j : h <> h' -> dec (bump v h) h' j = bump (dec v h') h j.
Proof. intros Hne. unfold dec, bump. repeat case_decide; subst; try done; congruence. Qed.

Lemma dec_bump_pos v h j : 0 < v h -> dec (bump v h) h j = bump (dec v h) h j.
Proof. intros Hv. unfold dec, bump. repeat case_decide; subst; try done; lia. Qed.

Lemma restrict_forall (P : hent -> Prop) v H : Forall P H -> Forall P (restrict v H) /\ Forall P (missing v H).
Proof.
  intros HP. revert v. induction HP as [|x H Hx _ IH]; intros v; [done|]. cbn.
  case_decide; split; try constructor; try done; apply IH.
Qed.

Lemma restrict_none v H h : v h = 0 -> Forall (fun x => x.1 <> h) (restrict v H).
Proof.
  revert v. induction H as [|x H IH]; intros v Hv; [by constructor|]. cbn. destruct (decide (0 < v x.1)) as [Hp|Hp]; [|by apply IH].
  constructor; [intros E; rewrite E in Hp; lia|]. apply IH. unfold dec. case_decide; [subst; lia|done].
Qed.

Lemma missing_none v H h : length (lhist h H) <= v h -> Forall (fun x => x.1 <> h) (missing v H).
Proof.
  revert v. induction H as [|x H IH]; intros v Hv; [by constructor|]. rewrite lhist_cons, length_app in Hv.
  cbn. destruct (decide (0 < v x.1)) as [Hp|Hp].
  - apply IH. unfold dec. repeat case_decide; subst; cbn in *; lia.
  - constructor; [|apply IH; lia]. intros E. rewrite E in *. rewrite decide_True in Hv by done. cbn in Hv. lia.
Qed.

Lemma missing_all v H : (forall h, length (lhist h H) <= v h) -> missing v H = [].
Proof.
  intros Hv. destruct (missing v H) as [|y M] eqn:E; [done|]. pose proof (missing_none v H y.1 (Hv y.1)) as Hn.
  rewrite E in Hn. by apply Forall_cons_iff in Hn as [? _].
Qed.

Lemma lhist_none h H : Forall (fun x => x.1 <> h) H -> lhist h H = [].
Proof. induction 1 as [|x H Hx _ IH]; [done|]. by rewrite lhist_cons, decide_False, IH by done. Qed.

Lemma restrict_full v H h : length (lhist h H) <= v h -> restrict (bump v h) H = restrict v H.
Proof.
  revert v. induction H as [|x H IH]; intros v Hv; [done|]. rewrite lhist_cons, length_app in Hv. cbn.
  destruct (decide (x.1 = h)) as [Ex|Ex].
  - rewrite Ex in *. cbn in Hv. rewrite !decide_True by (rewrite ?bump_eq; lia). f_equal.
    rewrite <- (IH (dec v h)); [|rewrite dec_eq; lia].
    apply restrict_ext. intros j. apply dec_bump_pos. lia.
  - rewrite bump_ne by done. cbn in Hv. destruct (decide (0 < v x.1)) as [Hp|Hp]; [f_equal|by apply IH].
    rewrite <- (IH (dec v x.1)); [|by rewrite dec_ne by congruence].
    apply restrict_ext. intros j. by apply dec_bump_ne.
Qed.

Lemma restrict_snoc v H x :
  restrict v (H ++ [x]) = restrict v H ++ (if decide (length (lhist x.1 H) < v x.1) then [x] else []).
Proof.
  revert v. induction H as [|y H IH]; intros v; cbn [app restrict].
  - cbn. repeat case_decide; done || lia.
  - rewrite lhist_cons, length_app. destruct (decide (0 < v y.1)) as [Hp|Hp]; rewrite IH.
    + destruct (decide (y.1 = x.1)) as [E|E].
      * rewrite E in *. rewrite dec_eq. cbn. f_equal. f_equal. repeat case_decide; done || lia.
      * rewrite dec_ne by congruence. done.
    + destruct (decide (y.1 = x.1)) as [E|E]; cbn; [|done]. rewrite E in Hp.
      f_equal. repeat case_decide; done || lia.
Qed.

Lemma restrict_app_none v H M : (forall x, x ∈ M -> v x.1 <= length (lhist x.1 H)) ->
  restrict v (H ++ M) = restrict v H.
Proof.
  induction M as [|x M IH] using rev_ind; intros HM; [by rewrite app_nil_r|].
  assert (Hx : v x.1 <= length (lhist x.1 H)) by (apply HM, elem_of_app; right; by left).
  rewrite app_assoc, restrict_snoc, IH by (intros y Hy; apply HM, elem_of_app; by left).
  rewrite lhist_app, length_app, decide_False by lia. by rewrite app_nil_r.
Qed.

(** ** Reordering *)

(** An operation moves behind operations of other logs. *)
Lemma swap_run d x dx r M d1 :
  mapped x -> Forall mapped M -> Forall (fun y => y.1 <> x.1) M ->
  c_dispatch_mut d (h_op x) = Ret (dx, r) -> crun dx M = Ret d1 ->
  exists e, crun d M = Ret e /\ c_dispatch_mut e (h_op x) = Ret (d1, r).
Proof.
  intros Hx HM Hne. revert d dx. induction M as [|y M IH]; intros d dx E1 E2.
  - injection E2 as <-. by exists d.
  - apply Forall_cons_iff in HM as [Hy HM]. apply Forall_cons_iff in Hne as [Hyx Hne].
    cbn in E2. destruct (c_dispatch_mut dx (h_op y)) as [[dy ry]| |] eqn:Ey; try done. cbn in E2.
    destruct (lm_commute d (h_op x) (h_op y) x.1 y.1 dx r dy ry) as (d2 & Ed2 & Ed2'); try done.
    destruct (IH HM Hne d2 dy Ed2' E2) as (e & He & Hex).
    exists e. split; [|done]. cbn. by rewrite Ed2.
Qed.

(** An operation moves before operations of other logs. *)
Lemma swap_back d M d1 x d2 r :
  mapped x -> Forall mapped M -> Forall (fun y => y.1 <> x.1) M ->
  crun d M = Ret d1 -> c_dispatch_mut d1 (h_op x) = Ret (d2, r) ->
  exists e, c_dispatch_mut d (h_op x) = Ret (e, r) /\ crun e M = Ret d2.
Proof.
  intros Hx HM Hne. revert d. induction M as [|y M IH]; intros d E1 E2.
  - injection E1 as ->. by exists d2.
  - apply Forall_cons_iff in HM as [Hy HM]. apply Forall_cons_iff in Hne as [Hyx Hne].
    cbn in E1. destruct (c_dispatch_mut d (h_op y)) as [[dy ry]| |] eqn:Ey; try done. cbn in E1.
    destruct (IH HM Hne dy E1 E2) as (e & He & HeM).
    destruct (lm_commute d (h_op y) (h_op x) y.1 x.1 dy ry e r) as (e' & He' & He''); try done.
    exists e'. split; [done|]. cbn. by rewrite He''.
Qed.

(** The history is its restriction followed by the rest. *)
Lemma run_split v H d d' : Forall mapped H -> crun d H = Ret d' ->
  exists d1, crun d (restrict v H) = Ret d1 /\ crun d1 (missing v H) = Ret d'.
Proof.
  intros HH. revert v d. induction HH as [|x H Hx HH IH]; intros v d E; [by exists d|].
  cbn in E. destruct (c_dispatch_mut d (h_op x)) as [[dx r]| |] eqn:Ex; try done. cbn in E. cbn [restrict missing].
  destruct (decide (0 < v x.1)) as [Hp|Hp].
  - destruct (IH (dec v x.1) dx E) as (d1 & E1 & E2). exists d1. split; [|done]. cbn. by rewrite Ex.
  - destruct (IH v dx E) as (d1 & E1 & E2).
    destruct (swap_run d x dx r (restrict v H) d1) as (e & He & Hex); try done.
    + by apply restrict_forall.
    + apply restrict_none. lia.
    + exists e. split; [done|]. cbn. by rewrite Hex.
Qed.

(** Replaying the next entry of log [h]. *)
Lemma restrict_step v H h y d d2 : Forall mapped H -> lhist h H !! v h = Some y ->
  crun d (restrict (bump v h) H) = Ret d2 ->
  exists d1 r, crun d (restrict v H) = Ret d1 /\ c_dispatch_mut d1 y.1.1 = Ret (d2, r).
Proof.
  intros HH. revert v d. induction HH as [|x H Hx HH IH]; intros v d Hy E; [done|].
  rewrite lhist_cons in Hy. cbn [restrict] in E |- *.
  destruct (decide (x.1 = h)) as [Exh|Exh].
  - rewrite Exh in *. rewrite decide_True in E by (rewrite bump_eq; lia). cbn in E.
    destruct (c_dispatch_mut d (h_op x)) as [[dx r]| |] eqn:Ex; try done. cbn in E.
    destruct (decide (0 < v h)) as [Hp|Hp].
    + cbn. rewrite Ex. cbn. apply IH.
      * rewrite dec_eq. destruct (v h) as [|j]; [lia|].
        cbn in Hy. by rewrite Nat.sub_succ, Nat.sub_0_r.
      * rewrite <- E. f_equal. apply restrict_ext. intros j. symmetry. by apply dec_bump_pos.
    + assert (Hv : v h = 0) by lia. rewrite Hv in Hy. injection Hy as <-.
      rewrite (restrict_ext _ v) in E by apply dec_bump.
      destruct (swap_run d x dx r (restrict v H) d2) as (e & He & Hex); try done; [by apply restrict_forall| |by eauto].
      rewrite Exh. by apply restrict_none.
  - rewrite bump_ne in E by done. cbn in Hy. destruct (decide (0 < v x.1)) as [Hp|Hp]; [|by apply IH].
    cbn in E |- *. destruct (c_dispatch_mut d (h_op x)) as [[dx r]| |] eqn:Ex; try done. cbn in E |- *.
    apply IH; [by rewrite dec_ne by congruence|].
    rewrite <- E. f_equal. apply restrict_ext. intros j. symmetry. by apply dec_bump_ne.
Qed.

(** Operations of other logs do not change what a read of log [hr] returns. *)
Lemma run_read d M d1 ro hr : Forall mapped M -> r_hash ro n = [hr] -> Forall (fun x => x.1 <> hr) M ->
  crun d M = Ret d1 -> c_dispatch d ro = c_dispatch d1 ro.
Proof.
  intros HM Hro. revert d. induction HM as [|x M Hx HM IH]; intros d Hne E; [by injection E as ->|].
  apply Forall_cons_iff in Hne as [Hxr Hne]. cbn in E.
  destruct (c_dispatch_mut d (h_op x)) as [[dx r]| |] eqn:Ex; try done. cbn in E.
  rewrite (lm_read d (h_op x) ro x.1 hr dx r) by done. by apply IH.
Qed.

(** ** What a replica does *)

Definition setv v (h k : nat) : nat -> nat := fun j => if decide (j = h) then k else v j.

(** Replaying all remaining entries of log [h]. *)
Lemma restrict_catch_up v H h d0 dH d : Forall mapped H -> crun d0 H = Ret dH ->
  v h <= length (lhist h H) -> crun d0 (restrict v H) = Ret d ->
  exists d2, foldM (fun d (y : WO * nat * nat) => fst <$> c_dispatch_mut d y.1.1) d
               (drop (v h) (lhist h H)) = Ret d2
    /\ crun d0 (restrict (setv v h (length (lhist h H))) H) = Ret d2.
Proof.
  intros HH EH. remember (length (lhist h H) - v h) as k eqn:Ek. revert v d Ek.
  induction k as [|k IH]; intros v d Ek Hv E.
  - exists d. rewrite drop_ge by lia. split; [done|]. rewrite <- E. f_equal. apply restrict_ext.
    intros j. unfold setv. case_decide; [subst; lia|done].
  - destruct (lookup_lt_is_Some_2 (lhist h H) (v h)) as [y Hy]; [lia|].
    destruct (run_split (bump v h) H d0 dH HH EH) as (d2 & E2 & _).
    destruct (restrict_step v H h y d0 d2 HH Hy E2) as (d1 & r & E1 & Ey).
    rewrite E in E1. injection E1 as <-.
    destruct (IH (bump v h) d2) as (d3 & E3 & E4); [rewrite bump_eq; lia|rewrite bump_eq; lia|done|].
    exists d3. rewrite (drop_S _ _ _ Hy). cbn. rewrite Ey. cbn. rewrite bump_eq, Nat.add_1_r in E3.
    split; [done|]. rewrite <- E4. f_equal. apply restrict_ext. intros j. unfold setv, bump. by case_decide.
Qed.

(** A new operation on a replica that has replayed all of its log. *)
Lemma restrict_new v H x d0 dH dH' y d : Forall mapped H -> mapped x -> crun d0 H = Ret dH ->
  c_dispatch_mut dH (h_op x) = Ret (dH', y) -> v x.1 = length (lhist x.1 H) ->
  crun d0 (restrict v H) = Ret d ->
  exists e, c_dispatch_mut d (h_op x) = Ret (e, y)
    /\ crun d0 (restrict (bump v x.1) (H ++ [x])) = Ret e.
Proof.
  intros HH Hx EH Ex Hv E. destruct (run_split v H d0 dH HH EH) as (d1 & E1 & E2).
  rewrite E in E1. injection E1 as <-.
  destruct (swap_back d (missing v H) dH x dH' y) as (e & He & _); try done.
  { by apply restrict_forall. }
  { apply missing_none. lia. }
  exists e. split; [done|]. rewrite restrict_snoc, bump_eq, decide_True by lia.
  rewrite restrict_full by lia. unfold crun in *. rewrite foldM_app, E. cbn. by rewrite He.
Qed.
End Commute.
