(* ===== verification/CnrSpec.v ===== *)
(** * CNR without scans refines the sequential object

    [cw_inv]: between calls, every log represents the part of the history mapped
    to it, and the data of a replica is the result of the part of the history
    that it has replayed. *)

From S2P Require Import Prelude Context Log NrLog CnrLog CnrReplica CnrLogSpec CnrCommute.

Section Spec.
Context {G D RO WO R : Type} `{!CDispatch D RO WO R} (n : nat) `{!LogMapperLaws n}.
Abbreviation CLog := (Log WO (LogMetaData G) EntryMetaData).
Abbreviation CRep := (CReplica D WO R).
Abbreviation cstore := (list CLog * list CRep)%type.
Abbreviation hent := (nat * (WO * nat * nat))%type.
Implicit Types (w : cstore) (x : CRep) (r h : nat) (H : list hent) (l : CLog).

(** ** Invariant *)

(** What replica [r] has at log [h]. *)
Definition ls_quiet r h (s : LogState WO) : Prop :=
  ls_slog s = h /\ ls_idx s = S r /\ ls_combiner s = 0
  /\ ls_pending s = replicate MAX_THREADS_PER_REPLICA false.

Record crep_ok r x : Prop := {
  co_logs : length (cr_logstate x) = n;
  co_ls : forall h s, cr_logstate x !! h = Some s -> ls_quiet r h s;
  co_ncontexts : length (cr_contexts x) = MAX_THREADS_PER_REPLICA;
  co_contexts : forall t c, cr_contexts x !! t = Some c -> ctx_rep c [] [];
  co_nhash : length (cr_hash x) = MAX_THREADS_PER_REPLICA;
  co_next : 1 <= cr_next x <= S MAX_THREADS_PER_REPLICA;
}.

(** How much of log [h] replica [r] has replayed. *)
Definition seen w r h : nat :=
  match w.1 !! h with Some l => default 0 (log_ltails l !! r) | None => 0 end.

Record clog_ok (nreps h : nat) H l : Prop := {
  lo_inv : clog_inv l (lhist h H);
  lo_next : log_next l = S nreps;
  lo_ctail : log_ctail l = log_tail l;
  lo_fit : log_tail l <= log_head l + length (slog l) - GC_FROM_HEAD;
  lo_own : forall r t i y, r < nreps -> log_ltails l !! r = Some t -> t <= i ->
    lhist h H !! i = Some y -> y.1.2 <> S r;
}.

Record cw_inv (d0 : D) w H : Prop := {
  cw_nlogs : length w.1 = n;
  cw_nreps : length w.2 <= MAX_REPLICAS_PER_LOG;
  cw_logs : forall h l, w.1 !! h = Some l -> clog_ok (length w.2) h H l;
  cw_reps : forall r x, w.2 !! r = Some x -> crep_ok r x;
  cw_data : forall r x, w.2 !! r = Some x -> crun d0 (restrict (seen w r) H) = Ret (cr_data x);
  cw_mapped : Forall (mapped (n := n)) H;
  cw_range : Forall (fun y => y.1 < n) H;
}.

Lemma clog_at nreps h H l r : clog_ok nreps h H l -> r < nreps -> nreps <= MAX_REPLICAS_PER_LOG ->
  exists t, at_tail l (S r) t /\ log_ltails l !! r = Some t /\ t <= length (lhist h H).
Proof.
  intros [[] Hn _ _ _] Hr Hm. destruct (lookup_lt_is_Some_2 (log_ltails l) r) as [t Ht]; [lia|].
  assert (Hreg : registered_ltails l !! r = Some t) by (apply registered_lookup; split; [lia|done]).
  exists t. split_and!; [split; [lia|]; by rewrite Nat.sub_succ, Nat.sub_0_r|done|].
  pose proof (ci_ltails _ _ Hreg). lia.
Qed.

Lemma clog_done nreps h H l : clog_ok nreps h H l -> cdone l.
Proof. intros [_ _ Hc _ _] k _. exact Hc. Qed.

(** ** The closure of [combine] *)

(** Its effect on the replicas. *)
Definition capply r h (xs : list CRep) (c : ccall WO) : res (list CRep) :=
  snd <$> apply_op (G := G) ([], xs) r h (cc_op c) (cc_rid c) (cc_tid c).

Lemma closure_plain tc r tid h (logs : list CLog) xs c : cc_is_scan c = false ->
  ccombine_closure tc r tid h (logs, xs) c = (fun xs' => (logs, xs', true)) <$> capply r h xs c.
Proof.
  intros Hs. unfold ccombine_closure, capply. rewrite Hs.
  unfold apply_op, respond, get_ls, get_rep, put_rep. cbn [fst snd].
  destruct (vget xs r) as [x| |]; mon; try done.
  destruct (c_dispatch_mut (cr_data x) (cc_op c)) as [[d' y]| |]; mon; try done. cbn [fst snd].
  destruct (vget (<[r:=cr_set_data x d']> xs) r) as [x1| |]; mon; try done.
  destruct (vget (cr_logstate x1) h) as [s| |]; mon; try done.
  destruct (cc_rid c =? ls_idx s); mon; try done. cbn [fst snd].
  destruct (usub (cc_tid c) 1) as [t| |]; mon; try done.
  destruct (vget (cr_contexts x1) t) as [c0| |]; mon; try done.
  destruct (enqueue_resp c0 y) as [c1| |]; mon; try done.
  destruct (vset (cr_contexts x1) t c1) as [cs| |]; mon; done.
Qed.

(** Operations of other replicas only change the data. *)
Lemma capply_foreign xs r h x s y d' v :
  xs !! r = Some x -> cr_logstate x !! h = Some s -> y.1.2 <> ls_idx s ->
  c_dispatch_mut (cr_data x) y.1.1 = Ret (d', v) ->
  capply r h xs (call_of y) = Ret (<[r := cr_set_data x d']> xs).
Proof.
  intros Hx Hs Hne E. unfold capply, apply_op, get_ls, get_rep, put_rep. cbn [fst snd call_of cc_op cc_rid cc_tid].
  rewrite (vget_lookup _ _ _ Hx). mon. rewrite E. mon. cbn [fst snd].
  rewrite (vget_lookup _ _ (cr_set_data x d')) by (apply list_lookup_insert_eq; by eapply lookup_lt_Some).
  mon. cbn [cr_logstate cr_set_data]. rewrite (vget_lookup _ _ _ Hs). mon.
  by rewrite (proj2 (Nat.eqb_neq _ _) Hne).
Qed.

(** An operation of ours also answers its thread. *)
Lemma capply_own xs r h x s y d' v t c c' :
  xs !! r = Some x -> cr_logstate x !! h = Some s -> y.1.2 = ls_idx s -> y.2 = S t ->
  c_dispatch_mut (cr_data x) y.1.1 = Ret (d', v) ->
  cr_contexts x !! t = Some c -> enqueue_resp c v = Ret c' ->
  capply r h xs (call_of y)
  = Ret (<[r := cr_set_contexts (cr_set_data x d') (<[t := c']> (cr_contexts x))]> xs).
Proof.
  intros Hx Hs Heq Ht E Hc Ec. unfold capply, apply_op, respond, get_ls, get_rep, put_rep.
  cbn [fst snd call_of cc_op cc_rid cc_tid].
  assert (Hx1 : <[r := cr_set_data x d']> xs !! r = Some (cr_set_data x d'))
    by (apply list_lookup_insert_eq; by eapply lookup_lt_Some).
  rewrite (vget_lookup _ _ _ Hx). mon. rewrite E. mon. cbn [fst snd].
  rewrite (vget_lookup _ _ _ Hx1). mon. cbn [cr_logstate cr_set_data]. rewrite (vget_lookup _ _ _ Hs). mon.
  rewrite Heq, Nat.eqb_refl, Ht. cbn [fst snd].
  rewrite usub_le by lia. mon. rewrite Nat.sub_succ, Nat.sub_0_r. cbn [cr_contexts cr_set_data].
  rewrite (vget_lookup _ _ _ Hc). mon. rewrite Ec. mon.
  rewrite vset_lt by (by eapply lookup_lt_Some). mon. by rewrite list_insert_insert_eq.
Qed.

Lemma creplay_foreign xs r h x s ys d' :
  xs !! r = Some x -> cr_logstate x !! h = Some s -> Forall (fun y => y.1.2 <> ls_idx s) ys ->
  foldM (fun d (y : WO * nat * nat) => fst <$> c_dispatch_mut d y.1.1) (cr_data x) ys = Ret d' ->
  creplay (capply r h) xs ys = Ret (<[r := cr_set_data x d']> xs).
Proof.
  revert xs x. induction ys as [|y ys IH]; intros xs x Hx Hs Hne E.
  - injection E as <-. cbn. rewrite list_insert_id; [done|]. rewrite Hx. by destruct x.
  - apply Forall_cons_iff in Hne as [Hy Hne]. cbn in E.
    destruct (c_dispatch_mut (cr_data x) y.1.1) as [[d1 v]| |] eqn:E1; try done. cbn in E.
    unfold creplay. cbn [foldM]. rewrite (capply_foreign xs r h x s y d1 v) by done. mon.
    fold (creplay (capply r h) (<[r := cr_set_data x d1]> xs) ys).
    rewrite (IH _ (cr_set_data x d1)); try done.
    + by rewrite list_insert_insert_eq.
    + apply list_lookup_insert_eq. by eapply lookup_lt_Some.
Qed.

(** ** Combining *)

(** The state of the log a round of combining works with. *)
Record log_ready w r h (l : CLog) (hist : list (WO * nat * nat)) (t k : nat) : Prop := {
  lr_log : w.1 !! h = Some l;
  lr_inv : clog_inv l hist;
  lr_at : at_tail l (S r) t;
  lr_done : cdone l;
  lr_fit : log_tail l <= log_head l + length (slog l) - GC_FROM_HEAD;
  lr_few : k <= GC_FROM_HEAD;
  lr_room : log_head l + length (slog l) - GC_FROM_HEAD < log_tail l + k -> room_for l (S r) k;
}.

(** What it leaves. *)
Record log_left r (l l' : CLog) (hist' : list (WO * nat * nat)) (k : nat) : Prop := {
  ll_inv : clog_inv l' hist';
  ll_frame : clog_frame (S r) l l';
  ll_at : at_tail l' (S r) (log_tail l');
  ll_tail : log_tail l' = log_tail l + k;
  ll_fit : log_tail l' <= log_head l' + length (slog l') - GC_FROM_HEAD;
  ll_ctail : log_ctail l' = log_tail l';
}.

Lemma try_combine_run tc w r tid x h s l hist t ps x1 s1 x3 xs' :
  w.2 !! r = Some x -> cr_logstate x !! h = Some s -> ls_combiner s = 0 ->
  foldM (ccollect h) (cr_set_logstate x (<[h := ls_set_combiner s tid]> (cr_logstate x)), [], [])
    (seq 1 (cr_next x - 1)) = Ret (x1, writes ps, []) ->
  cr_logstate x1 !! h = Some s1 -> ls_slog s1 = h -> ls_idx s1 = S r ->
  log_ready w r h l hist t (length ps) ->
  creplay (capply r h)
    (<[r := cr_set_logstate x1 (<[h := ls_set_buffers s1 (writes ps) []]> (cr_logstate x1))]> w.2)
    (drop t (hist ++ ents (S r) ps)) = Ret xs' ->
  xs' !! r = Some x3 -> cr_logstate x3 = <[h := ls_set_buffers s1 (writes ps) []]> (cr_logstate x1) ->
  exists l', try_combine_with tc w r tid h
      = Ret (<[h := l']> w.1,
             <[r := cr_set_logstate x3 (<[h := ls_set_combiner (ls_set_buffers s1 (writes ps) []) 0]>
                                          (cr_logstate x1))]> xs')
    /\ log_left r l l' (hist ++ ents (S r) ps) (length ps).
Proof.
  intros Hx Hs Hc Hcol Hs1 Hslog Hidx [Hl Hinv Hat Hdone Hfit Hfew Hroom] Hrep Hx3 Hls3.
  pose proof (lookup_lt_Some _ _ _ Hx) as Hr. pose proof (lookup_lt_Some _ _ _ Hs) as Hh.
  pose proof (lookup_lt_Some _ _ _ Hs1) as Hh1.
  destruct (append_exec_spec (capply r h) (ccombine_closure tc r tid h) (closure_plain tc r tid h)
              h w.1 l hist (S r) t ps) as (l' & E & Hinv' & Hf' & Hat' & Ht' & Hfit' & Hc'); try done.
  exists l'. split; [|split; try done; by rewrite (cf_len _ _ _ Hf')].
  unfold try_combine_with, get_ls, put_ls, get_rep, put_rep.
  rewrite (vget_lookup _ _ _ Hx). mon. rewrite (vget_lookup _ _ _ Hs). mon. rewrite Hc. cbn [Nat.eqb negb].
  rewrite vset_lt by done. mon. unfold ccombine, get_rep, put_rep. cbn [fst snd].
  rewrite (vget_lookup (<[r := _]> w.2) r _ (list_lookup_insert_eq _ _ _ Hr)). mon.
  cbn [cr_next cr_set_logstate] in *. rewrite Hcol. mon. rewrite (vget_lookup _ _ _ Hs1). mon.
  rewrite vset_lt by done. mon. rewrite list_insert_insert_eq, Hslog, Hidx.
  cbn [foldM] in E |- *. specialize (E (<[r := cr_set_logstate x1 (<[h := ls_set_buffers s1 (writes ps) []]>
    (cr_logstate x1))]> w.2)). rewrite Hrep in E. cbn [fmap res_fmap] in E.
  destruct (cappend _ h (writes ps) (S r) _) as [w2| |]; try done. mon. cbn [mbind res_bind] in E.
  rewrite E. mon. cbn [fst snd]. rewrite (vget_lookup _ _ _ Hx3). mon. rewrite Hls3.
  rewrite (vget_lookup _ _ _ (list_lookup_insert_eq _ _ _ Hh1)). mon.
  rewrite vset_lt by (by rewrite length_insert). mon. by rewrite list_insert_insert_eq.
Qed.

(** Nobody has a pending operation. *)
Lemma collect_idle h (x : CRep) s b sb ks :
  cr_logstate x !! h = Some s -> ls_pending s = replicate MAX_THREADS_PER_REPLICA false ->
  (forall k, k ∈ ks -> 1 <= k <= MAX_THREADS_PER_REPLICA) ->
  foldM (ccollect h) (x, b, sb) ks = Ret (x, b, sb).
Proof.
  intros Hs Hp. induction ks as [|k ks IH]; intros Hks; [done|].
  assert (Hk : 1 <= k <= MAX_THREADS_PER_REPLICA) by (apply Hks; left).
  cbn [foldM]. unfold ccollect at 2. rewrite (vget_lookup _ _ _ Hs). mon. rewrite usub_le by lia. mon.
  rewrite Hp, (vget_lookup _ _ false) by (apply lookup_replicate; split; [done|lia]). mon.
  apply IH. intros j Hj. apply Hks. by right.
Qed.

(** One thread has one pending operation for this log. *)
Lemma collect_one h (x : CRep) s c o m t k :
  cr_logstate x !! h = Some s -> cr_contexts x !! t = Some c ->
  ls_pending s = <[t := true]> (replicate MAX_THREADS_PER_REPLICA false) ->
  ctx_rep c [(o, (h, false, false))] [] -> t < k <= MAX_THREADS_PER_REPLICA ->
  m = replicate MAX_THREADS_PER_REPLICA false ->
  foldM (ccollect h) (x, [], []) (seq 1 k)
  = Ret (cr_set_logstate x (<[h := ls_set_pending s m]> (cr_logstate x)), [(o, S t, false)], []).
Proof.
  intros Hs Hc Hp Hrep Ht ->. pose proof (lookup_lt_Some _ _ _ Hs) as Hh.
  assert (Epre : forall ks acc, (forall j, j ∈ ks -> 1 <= j <= MAX_THREADS_PER_REPLICA /\ j <> S t) ->
    acc = (x, [], []) -> foldM (ccollect h) acc ks = Ret (x, [], [])).
  { induction ks as [|j ks IH]; intros acc Hks ->; [done|].
    destruct (Hks j) as [Hj Hne]; [left|]. cbn [foldM]. unfold ccollect at 2.
    rewrite (vget_lookup _ _ _ Hs). mon. rewrite usub_le by lia. mon.
    rewrite Hp, (vget_lookup _ _ false).
    2: { rewrite list_lookup_insert_ne by lia. apply lookup_replicate. split; [done|lia]. }
    mon. apply IH; [|done]. intros i Hi. apply Hks. by right. }
  replace (seq 1 k) with (seq 1 t ++ S t :: seq (S (S t)) (k - t - 1)).
  2: { replace k with (t + S (k - t - 1)) at 2 by lia. by rewrite seq_app. }
  rewrite foldM_app, Epre by (done || intros j Hj; apply elem_of_seq in Hj; lia). mon. cbn [foldM].
  unfold ccollect at 2. rewrite (vget_lookup _ _ _ Hs). mon. rewrite usub_le by lia. mon.
  rewrite Nat.sub_succ, Nat.sub_0_r.
  rewrite Hp, (vget_lookup _ _ true) by (apply list_lookup_insert_eq; rewrite length_replicate; lia). mon.
  rewrite vset_lt by done. mon. rewrite (vget_lookup _ _ _ Hc). mon.
  rewrite (ctx_collect_pending c _ _ Hrep). mon.
  rewrite list_insert_insert_eq, (list_insert_id (replicate _ false)) by (apply lookup_replicate; split; [done|lia]).
  erewrite (collect_idle h _ (ls_set_pending s (replicate MAX_THREADS_PER_REPLICA false))).
  - cbn. by rewrite !decide_True by done.
  - cbn. by apply list_lookup_insert_eq.
  - done.
  - intros j Hj. apply elem_of_seq in Hj. lia.
Qed.

(** ** Keeping the invariant *)

(** The new part of the history. *)
Definition issued r h (ps : list (WO * nat)) : list hent := map (fun p => (h, (p.1, S r, p.2))) ps.

Lemma lhist_issued r h ps h' : lhist h' (issued r h ps) = if decide (h' = h) then ents (S r) ps else [].
Proof.
  induction ps as [|p ps IH]; [by case_decide|]. cbn [issued map]. rewrite lhist_cons. cbn [fst snd].
  fold (issued r h ps). rewrite IH. destruct (decide (h' = h)) as [->|Hne].
  - by rewrite decide_True.
  - by rewrite decide_False by congruence.
Qed.

(** A round of combining of replica [r] on log [h], with the operations [ps]. *)
Record cround r h (ps : list (WO * nat)) w w' : Prop := {
  rd_seen : forall r' h', (r', h') <> (r, h) -> seen w' r' h' = seen w r' h';
  rd_seen_own : forall l, w.1 !! h = Some l -> seen w' r h = log_tail l + length ps;
  rd_tail : forall h' l, w.1 !! h' = Some l -> exists l', w'.1 !! h' = Some l'
    /\ log_tail l' = log_tail l + (if decide (h' = h) then length ps else 0)
    /\ length (slog l') = length (slog l);
  rd_len : length w'.1 = length w.1 /\ length w'.2 = length w.2;
  rd_next : forall r' x, w.2 !! r' = Some x -> exists x', w'.2 !! r' = Some x' /\ cr_next x' = cr_next x;
}.

Lemma clog_ok_other nreps r h h' ps H l : h' <> h -> clog_ok nreps h' H l -> clog_ok nreps h' (H ++ issued r h ps) l.
Proof.
  intros Hne [].
  assert (E : lhist h' (H ++ issued r h ps) = lhist h' H).
  { by rewrite lhist_app, lhist_issued, decide_False, app_nil_r by done. }
  split; try done; by rewrite E.
Qed.

Lemma clog_ok_own nreps r h ps H l l' : r < nreps -> clog_ok nreps h H l ->
  log_left r l l' (lhist h H ++ ents (S r) ps) (length ps) -> clog_ok nreps h (H ++ issued r h ps) l'.
Proof.
  intros Hr [Hinv Hn Hc Hf Ho] [Hinv' Hfr Hat' Ht' Hf' Hc'].
  assert (E : lhist h (H ++ issued r h ps) = lhist h H ++ ents (S r) ps).
  { by rewrite lhist_app, lhist_issued, decide_True by done. }
  split; rewrite ?E; try done; [by rewrite (cf_next _ _ _ Hfr)|].
  intros r' t i y Hr' Hlt Hti Hy. destruct (decide (r' = r)) as [->|Hne].
  - apply at_tail_ltails in Hat'. rewrite Nat.sub_succ, Nat.sub_0_r, Hlt in Hat'. injection Hat' as ->.
    apply lookup_lt_Some in Hy. rewrite <- (ci_tail _ _ Hinv') in Hy. lia.
  - rewrite (cf_ltails _ _ _ Hfr) in Hlt by lia. apply lookup_app_Some in Hy as [Hy|[_ Hy]]; [by eapply Ho|].
    apply list_lookup_fmap_Some in Hy as (p & -> & _). cbn. congruence.
Qed.

Lemma cw_round d0 w H r x h l l' ps x' d' :
  cw_inv d0 w H -> w.2 !! r = Some x -> w.1 !! h = Some l -> h < n ->
  log_left r l l' (lhist h H ++ ents (S r) ps) (length ps) ->
  Forall (mapped (n := n)) (issued r h ps) ->
  crep_ok r x' -> cr_next x' = cr_next x -> cr_data x' = d' ->
  crun d0 (restrict (setv (seen w r) h (length (lhist h H) + length ps)) (H ++ issued r h ps)) = Ret d' ->
  cw_inv d0 (<[h := l']> w.1, <[r := x']> w.2) (H ++ issued r h ps)
  /\ cround r h ps w (<[h := l']> w.1, <[r := x']> w.2).
Proof.
  intros [Hn1 Hn2 Hlogs Hreps Hdata Hmap Hrng] Hx Hl Hh Hleft Hiss Hok' Hnx Hd' Hrun.
  pose proof (lookup_lt_Some _ _ _ Hx) as Hr. pose proof (lookup_lt_Some _ _ _ Hl) as Hlt.
  pose proof Hleft as [Hinv' Hfr Hat' Ht' _ _]. pose proof (lo_inv _ _ _ _ (Hlogs h l Hl)) as Hinv.
  assert (Htl : log_tail l = length (lhist h H)) by (apply Hinv).
  assert (Hseen : forall r' h', (r', h') <> (r, h) ->
    seen (<[h := l']> w.1, <[r := x']> w.2) r' h' = seen w r' h').
  { intros r' h' Hne. unfold seen. cbn [fst]. destruct (decide (h' = h)) as [->|Hneh].
    - rewrite list_lookup_insert_eq, Hl by done. rewrite (cf_ltails _ _ _ Hfr); [done|]. intros E. apply Hne. f_equal. lia.
    - by rewrite list_lookup_insert_ne by done. }
  assert (Hown : seen (<[h := l']> w.1, <[r := x']> w.2) r h = log_tail l + length ps).
  { unfold seen. cbn [fst]. rewrite list_lookup_insert_eq by done.
    apply at_tail_ltails in Hat'. rewrite Nat.sub_succ, Nat.sub_0_r in Hat'. rewrite Hat'. cbn. lia. }
  split; split; cbn [fst snd]; rewrite ?length_insert; try done.
  - intros h' l0 Hl0. apply list_lookup_insert_Some in Hl0 as [(<- & <- & _)|[Hne Hl0]].
    + apply (clog_ok_own _ r h ps H l); [done|by apply Hlogs|done].
    + apply clog_ok_other; [done|by apply Hlogs].
  - intros r' x0 Hx0. apply list_lookup_insert_Some in Hx0 as [(<- & <- & _)|[Hne Hx0]]; [done|by apply Hreps].
  - intros r' x0 Hx0. apply list_lookup_insert_Some in Hx0 as [(<- & <- & _)|[Hne Hx0]].
    + rewrite Hd', <- Hrun. f_equal. apply restrict_ext. intros j. unfold setv. case_decide as Hj.
      * subst j. rewrite Hown. lia.
      * apply Hseen. congruence.
    + rewrite <- (Hdata r' x0 Hx0). f_equal. rewrite restrict_app_none.
      * apply restrict_ext. intros j. apply Hseen. congruence.
      * intros y Hy. apply list_elem_of_fmap in Hy as (p & -> & _). cbn [fst].
        rewrite Hseen by congruence. unfold seen. rewrite Hl.
        destruct (clog_at _ _ _ _ r' (Hlogs h l Hl)) as (t & _ & -> & Ht); [by eapply lookup_lt_Some|done|done].
  - apply Forall_app. by split.
  - apply Forall_app. split; [done|]. apply Forall_fmap, Forall_true. intros p. exact Hh.
  - intros l0 Hl0. rewrite Hl in Hl0. injection Hl0 as <-. exact Hown.
  - intros h' l0 Hl0. destruct (decide (h' = h)) as [->|Hne].
    + rewrite Hl in Hl0. injection Hl0 as <-. exists l'. rewrite list_lookup_insert_eq by done.
      split_and!; [done|lia|apply (cf_len _ _ _ Hfr)].
    + exists l0. rewrite list_lookup_insert_ne by done. split_and!; [done|lia|done].
  - intros r' x0 Hx0. destruct (decide (r' = r)) as [->|Hne].
    + rewrite Hx in Hx0. injection Hx0 as <-. exists x'. by rewrite list_lookup_insert_eq.
    + exists x0. by rewrite list_lookup_insert_ne.
Qed.

(** ** Rounds *)

(** The parts of the invariant that a round on log [h] of replica [r] uses. *)
Lemma round_start d0 w H r x h : cw_inv d0 w H -> w.2 !! r = Some x -> h < n ->
  exists s l t, cr_logstate x !! h = Some s /\ ls_quiet r h s /\ w.1 !! h = Some l
    /\ clog_ok (length w.2) h H l /\ at_tail l (S r) t /\ seen w r h = t /\ t <= length (lhist h H)
    /\ Forall (fun y => y.1.2 <> S r) (drop t (lhist h H)).
Proof.
  intros [Hn1 Hn2 Hlogs Hreps _ _ _] Hx Hh. pose proof (Hreps r x Hx) as Hok.
  destruct (lookup_lt_is_Some_2 (cr_logstate x) h) as [s Hs]; [by rewrite (co_logs _ _ Hok)|].
  destruct (lookup_lt_is_Some_2 w.1 h) as [l Hl]; [lia|]. pose proof (Hlogs h l Hl) as Hlo.
  pose proof (lookup_lt_Some _ _ _ Hx) as Hr.
  destruct (clog_at _ _ _ _ r Hlo Hr Hn2) as (t & Hat & Hlt & Ht).
  exists s, l, t. split_and!; try done.
  - by apply (co_ls _ _ Hok).
  - unfold seen. by rewrite Hl, Hlt.
  - apply list.Forall_lookup. intros i y Hy. rewrite lookup_drop in Hy.
    apply (lo_own _ _ _ _ Hlo r t (t + i)); [done|done|lia|done].
Qed.

(** The replica after a round. *)
Lemma crep_ok_round r x x' h s :
  crep_ok r x -> cr_logstate x' = <[h := s]> (cr_logstate x) -> ls_quiet r h s ->
  length (cr_contexts x') = length (cr_contexts x) ->
  (forall t c, cr_contexts x' !! t = Some c -> ctx_rep c [] []) ->
  length (cr_hash x') = length (cr_hash x) -> cr_next x' = cr_next x -> crep_ok r x'.
Proof.
  intros [] Els Hq Hlen Hctx Hhash Hnext. split; try congruence.
  - by rewrite Els, length_insert.
  - intros h' s'. rewrite Els. intros [(<- & <- & _)|[_ ?]]%list_lookup_insert_Some; [done|by apply co_ls0].
  - exact Hctx.
Qed.

(** A round without operations of our own: the replica catches up with the log. *)
Lemma combine_sync k d0 w H dH r x tid h :
  cw_inv d0 w H -> crun d0 H = Ret dH -> w.2 !! r = Some x -> h < n ->
  exists w', nested_combine (S k) w r tid h = Ret w' /\ cw_inv d0 w' H /\ cround r h [] w w'.
Proof.
  intros Hinv HdH Hx Hh. pose proof (cw_reps _ _ _ Hinv r x Hx) as Hok.
  destruct (round_start d0 w H r x h Hinv Hx Hh) as (s & l & t & Hs & (Q1 & Q2 & Q3 & Q4) & Hl & Hlo & Hat & Hsn & Ht & Hfor).
  pose proof (lookup_lt_Some _ _ _ Hx) as Hr. pose proof (lookup_lt_Some _ _ _ Hs) as Hhs.
  destruct (restrict_catch_up (seen w r) H h d0 dH (cr_data x)) as (d2 & E2 & Er);
    [apply Hinv|done|by rewrite Hsn|by apply Hinv|].
  rewrite Hsn in E2.
  set (s1 := ls_set_combiner s tid). set (x1 := cr_set_logstate x (<[h := s1]> (cr_logstate x))).
  set (s2 := ls_set_buffers s1 (writes []) []). set (x2 := cr_set_logstate x1 (<[h := s2]> (cr_logstate x1))).
  assert (Hs1 : cr_logstate x1 !! h = Some s1) by (by apply list_lookup_insert_eq).
  assert (Hx2 : <[r := x2]> w.2 !! r = Some x2) by (by apply list_lookup_insert_eq).
  pose proof (creplay_foreign (<[r := x2]> w.2) r h x2 s2 (drop t (lhist h H)) d2 Hx2) as Hrep.
  destruct (try_combine_run (fun w => nested_combine k w r) w r tid x h s l (lhist h H) t [] x1 s1
              (cr_set_data x2 d2) (<[r := cr_set_data x2 d2]> w.2)) as (l' & E & Hleft);
    try done; [| | | |].
  - apply (collect_idle h x1 s1); [done|done|]. intros j Hj. apply elem_of_seq in Hj.
    pose proof (co_next _ _ Hok). lia.
  - split; try done; try apply Hlo; [by eapply clog_done|cbn; lia|]. pose proof (lo_fit _ _ _ _ Hlo). cbn. lia.
  - cbn [ents map]. rewrite app_nil_r. rewrite list_insert_insert_eq in Hrep. apply Hrep; try done.
    + cbn. by rewrite list_insert_insert_eq, list_lookup_insert_eq.
    + cbn. by rewrite Q2.
  - by rewrite list_lookup_insert_eq.
  - rewrite list_insert_insert_eq in E. exists (<[h := l']> w.1, <[r := cr_set_logstate (cr_set_data x2 d2)
      (<[h := ls_set_combiner s2 0]> (cr_logstate x1))]> w.2).
    split; [exact E|]. rewrite <- (app_nil_r H). apply (cw_round d0 w H r x h l l' [] _ d2); try done.
    + apply (crep_ok_round r x _ h (ls_set_combiner s2 0)); try done; cbn; [by rewrite list_insert_insert_eq|].
      apply Hok.
    + cbn [length issued map]. by rewrite app_nil_r, Nat.add_0_r.
Qed.

(** ** A write *)

Lemma cmake_pending_run w r x t o h c s :
  w.2 !! r = Some x -> cr_logstate x !! h = Some s -> cr_contexts x !! t = Some c -> ctx_rep c [] [] ->
  ls_pending s = replicate MAX_THREADS_PER_REPLICA false -> t < MAX_THREADS_PER_REPLICA ->
  exists c1, cmake_pending w r o (S t) h false false
      = Ret (put_rep w r (cr_set_logstate (cr_set_contexts x (<[t := c1]> (cr_contexts x)))
                            (<[h := ls_set_pending s (<[t := true]> (ls_pending s))]> (cr_logstate x))))
    /\ ctx_rep c1 [(o, (h, false, false))] [].
Proof.
  intros Hx Hs Hc Hrep Hp Ht. pose proof (lookup_lt_Some _ _ _ Hx) as Hr.
  destruct (enqueue_rep c [] [] o (h, false, false) Hrep) as (c1 & E & Hrep1); [unfold MAX_PENDING_OPS; cbn; lia|].
  exists c1. split; [|done]. unfold cmake_pending, put_ls, get_rep, put_rep. cbn [fst snd].
  rewrite (vget_lookup _ _ _ Hx). mon. rewrite usub_le by lia. mon. rewrite Nat.sub_succ, Nat.sub_0_r.
  rewrite (vget_lookup _ _ _ Hc). mon. rewrite E. mon. rewrite vset_lt by (by eapply lookup_lt_Some). mon.
  rewrite (vget_lookup _ _ _ Hs). mon. rewrite Hp, vset_lt by (by rewrite length_replicate). mon.
  rewrite (vget_lookup _ _ _ (list_lookup_insert_eq _ _ _ Hr)). mon. cbn [cr_logstate cr_set_contexts].
  rewrite vset_lt by (by eapply lookup_lt_Some). mon. by rewrite list_insert_insert_eq.
Qed.

Lemma cget_response_run w r x t c y h :
  w.2 !! r = Some x -> cr_contexts x !! t = Some c -> ctx_rep c [] [y] ->
  exists c', cget_response w r (S t) h
      = Ret (put_rep w r (cr_set_contexts x (<[t := c']> (cr_contexts x))), y)
    /\ ctx_rep c' [] [].
Proof.
  intros Hx Hc Hrep. destruct (ctx_res_some_rep c [] y [] Hrep) as (c' & E & Hrep').
  exists c'. split; [|done]. unfold cget_response. apply rloop_first. unfold get_rep.
  rewrite (vget_lookup _ _ _ Hx). mon. rewrite usub_le by lia. mon. rewrite Nat.sub_succ, Nat.sub_0_r.
  rewrite (vget_lookup _ _ _ Hc). mon. by rewrite E.
Qed.

(** The replica while thread [S t] waits for the response to [o] on log [h]. *)
Record cwaiting (x xp : CRep) t o h : Prop := {
  wt_next : cr_next xp = cr_next x;
  wt_data : cr_data xp = cr_data x;
  wt_contexts : exists c, cr_contexts xp = <[t := c]> (cr_contexts x) /\ ctx_rep c [(o, (h, false, false))] [];
  wt_hash : length (cr_hash xp) = length (cr_hash x);
  wt_ls : exists s, cr_logstate x !! h = Some s
    /\ cr_logstate xp = <[h := ls_set_pending s (<[t := true]> (ls_pending s))]> (cr_logstate x);
}.

(** The same replica once the response is there. *)
Record canswered r (x x' : CRep) t h (e : D) (y : R) : Prop := {
  an_next : cr_next x' = cr_next x;
  an_data : cr_data x' = e;
  an_contexts : exists c, cr_contexts x' = <[t := c]> (cr_contexts x) /\ ctx_rep c [] [y];
  an_hash : length (cr_hash x') = length (cr_hash x);
  an_ls : exists s, cr_logstate x' = <[h := s]> (cr_logstate x) /\ ls_quiet r h s;
}.

Lemma combine_own k w r x xp t o h l hist d1 e y :
  w.2 !! r = Some x -> crep_ok r x -> h < n -> S t < cr_next x -> cwaiting x xp t o h ->
  (exists t0, log_ready w r h l hist t0 1 /\ Forall (fun y => y.1.2 <> S r) (drop t0 hist)
    /\ t0 <= length hist
    /\ foldM (fun d (y : WO * nat * nat) => fst <$> c_dispatch_mut d y.1.1) (cr_data x) (drop t0 hist) = Ret d1) ->
  c_dispatch_mut d1 o = Ret (e, y) ->
  exists l' x', nested_combine (S k) (put_rep w r xp) r (S t) h = Ret (<[h := l']> w.1, <[r := x']> w.2)
    /\ log_left r l l' (hist ++ ents (S r) [(o, S t)]) 1 /\ canswered r x x' t h e y.
Proof.
  intros Hx Hok Hh Ht [Wn Wd (c & Wc & Hrep) Wh (s & Hs & Wl)] (t0 & Hready & Hfor & Ht0 & Ed1) Ee.
  pose proof (lookup_lt_Some _ _ _ Hx) as Hr. pose proof (lookup_lt_Some _ _ _ Hs) as Hhs.
  destruct (co_ls _ _ Hok h s Hs) as (Q1 & Q2 & Q3 & Q4). pose proof (co_next _ _ Hok) as Hnx.
  set (s0 := ls_set_pending s (<[t := true]> (ls_pending s))) in *.
  set (s0' := ls_set_combiner s0 (S t)).
  set (s1 := ls_set_pending s0' (replicate MAX_THREADS_PER_REPLICA false)).
  set (xc := cr_set_logstate xp (<[h := s0']> (cr_logstate xp))).
  set (x1 := cr_set_logstate xc (<[h := s1]> (cr_logstate xc))).
  set (s2 := ls_set_buffers s1 (writes [(o, S t)]) []).
  set (x2 := cr_set_logstate x1 (<[h := s2]> (cr_logstate x1))).
  destruct (enqueue_resp_rep c (o, (h, false, false)) [] [] y Hrep) as (c2 & Ec2 & Hrep2).
  set (x3 := cr_set_contexts (cr_set_data x2 e) (<[t := c2]> (cr_contexts x2))).
  assert (Htc : t < length (cr_contexts x)) by (rewrite (co_ncontexts _ _ Hok); lia).
  assert (Hlsp : length (cr_logstate xp) = length (cr_logstate x)) by (by rewrite Wl, length_insert).
  assert (Hs2 : cr_logstate x2 !! h = Some s2).
  { cbn. rewrite !list_insert_insert_eq. apply list_lookup_insert_eq. lia. }
  destruct (try_combine_run (fun w => nested_combine k w r) (put_rep w r xp) r (S t) xp h s0 l hist t0 [(o, S t)]
              x1 s1 x3 (<[r := x3]> w.2)) as (l' & E & Hleft); try done.
  - cbn. by apply list_lookup_insert_eq.
  - rewrite Wl. by apply list_lookup_insert_eq.
  - rewrite (collect_one h xc s0' c o (replicate MAX_THREADS_PER_REPLICA false) t); try done.
    + cbn. apply list_lookup_insert_eq. lia.
    + cbn. rewrite Wc. by apply list_lookup_insert_eq.
    + cbn. by rewrite Q4.
    + lia.
  - cbn. rewrite list_insert_insert_eq. apply list_lookup_insert_eq. lia.
  - destruct Hready. by split.
  - rewrite drop_app_le by done. rewrite creplay_app. unfold put_rep. cbn [fst snd].
    rewrite list_insert_insert_eq.
    rewrite (creplay_foreign _ r h x2 s2 _ d1); try done.
    + mon. rewrite list_insert_insert_eq. unfold creplay. cbn [ents map foldM].
      rewrite (capply_own _ r h (cr_set_data x2 d1) s2 _ e y t c c2); try done.
      * mon. by rewrite list_insert_insert_eq.
      * by apply list_lookup_insert_eq.
      * cbn. rewrite Wc. by apply list_lookup_insert_eq.
    + by apply list_lookup_insert_eq.
    + cbn. by rewrite Q2.
    + cbn. by rewrite Wd.
  - by apply list_lookup_insert_eq.
  - exists l'. eexists. split; [rewrite list_insert_insert_eq in E; exact E|]. split; [exact Hleft|].
    split; try done; cbn.
    + exists c2. split; [|done]. by rewrite Wc, list_insert_insert_eq.
    + eexists. split; [rewrite !list_insert_insert_eq, Wl, list_insert_insert_eq; reflexivity|].
      by split_and!.
Qed.

Lemma one_log_run w r x t hs h : w.2 !! r = Some x -> t < length (cr_hash x) -> hs = [h] ->
  one_log w r (S t) hs = Ret (put_rep w r (cr_set_hash x (<[t := hs]> (cr_hash x))), h).
Proof.
  intros Hx Ht ->. unfold one_log, get_rep. rewrite (vget_lookup _ _ _ Hx). mon. rewrite usub_le by lia. mon.
  rewrite Nat.sub_succ, Nat.sub_0_r, vset_lt by done. mon. by cbn.
Qed.

(** [execute_mut] takes effect at once, unless a replica is too far behind. *)
Lemma cexecute_mut_run d0 w H dH dH' y r x t o h :
  cw_inv d0 w H -> crun d0 H = Ret dH -> c_dispatch_mut dH o = Ret (dH', y) ->
  w.2 !! r = Some x -> S t < cr_next x -> w_hash o n = [h] -> h < n ->
  (forall l, w.1 !! h = Some l -> room_for l (S r) 1) ->
  exists w', cexecute_mut w r o (S t) = Ret (w', y)
    /\ cw_inv d0 w' (H ++ issued r h [(o, S t)]) /\ cround r h [(o, S t)] w w'.
Proof.
  intros Hinv HdH Ey Hx Ht Hh1 Hh Hroom. pose proof (cw_reps _ _ _ Hinv r x Hx) as Hok.
  pose proof (co_next _ _ Hok) as Hnx. pose proof (lookup_lt_Some _ _ _ Hx) as Hr.
  destruct (round_start d0 w H r x h Hinv Hx Hh) as (s & l & t0 & Hs & Hq & Hl & Hlo & Hat & Hsn & Ht0 & Hfor).
  destruct (restrict_catch_up (seen w r) H h d0 dH (cr_data x)) as (d1 & E1 & Er);
    [apply Hinv|done|by rewrite Hsn|by apply Hinv|]. rewrite Hsn in E1.
  destruct (restrict_new (setv (seen w r) h (length (lhist h H))) H (h, (o, S r, S t)) d0 dH dH' y d1)
    as (e & Ee & Er'); try done; [apply Hinv|cbn; unfold setv; by rewrite decide_True|].
  destruct (lookup_lt_is_Some_2 (cr_contexts x) t) as [c Hc]; [rewrite (co_ncontexts _ _ Hok); lia|].
  unfold cexecute_mut, get_rep. rewrite (vget_lookup _ _ _ Hx). mon.
  rewrite (one_log_run w r x t _ h); [|done|rewrite (co_nhash _ _ Hok); lia|by rewrite (co_logs _ _ Hok)]. mon.
  set (xh := cr_set_hash x _).
  destruct (cmake_pending_run (put_rep w r xh) r xh t o h c s) as (c1 & E & Hc1); try done.
  { by apply list_lookup_insert_eq. } { by apply (co_contexts _ _ Hok t). } { apply Hq. } { lia. }
  rewrite E. mon. unfold put_rep at 2. cbn [fst snd put_rep]. unfold put_rep. cbn [fst snd].
  rewrite list_insert_insert_eq. set (xp := cr_set_logstate _ _).
  assert (Hw : cwaiting x xp t o h).
  { split; try done; [by exists c1|by cbn; rewrite length_insert|by exists s]. }
  destruct (combine_own (length (cr_logstate xp)) w r x xp t o h l (lhist h H) d1 e y) as (l' & x' & Ec & Hleft & Hans);
    try done.
  { exists t0. split_and!; try done. split; try done; [apply Hlo|by eapply clog_done|apply Hlo|
      apply Nat.leb_le; by vm_compute|]. intros _. by apply Hroom. }
  unfold ctry_combine, get_rep, nest_of. cbn [snd].
  rewrite (vget_lookup _ _ _ (list_lookup_insert_eq _ _ _ Hr)). mon.
  unfold put_rep in Ec. rewrite Ec. mon. destruct Hans as [An Ad (c2 & Ac & Hc2) Ah (s4 & Als & Hq4)].
  destruct (cget_response_run (<[h := l']> w.1, <[r := x']> w.2) r x' t c2 y h) as (c3 & Eg & Hc3); [| |done|].
  { by apply list_lookup_insert_eq. } { rewrite Ac. apply list_lookup_insert_eq. by eapply lookup_lt_Some. }
  eexists. split; [exact Eg|]. unfold put_rep. cbn [fst snd]. rewrite list_insert_insert_eq.
  apply (cw_round d0 w H r x h l l' [(o, S t)] _ e); try done.
  - by constructor.
  - apply (crep_ok_round r x _ h s4); try done; cbn; rewrite ?Ac, ?list_insert_insert_eq, ?length_insert; try done.
    intros t' c'. intros [(<- & <- & _)|[_ ?]]%list_lookup_insert_Some; [done|by apply (co_contexts _ _ Hok t')].
  - cbn [issued map length fst snd]. rewrite <- Er'. f_equal. apply restrict_ext. intros j.
    unfold setv, bump. by repeat case_decide; subst.
Qed.
End Spec.
