(* ===== verification/CnrRefine.v ===== *)
(** * The calls of CNR against a sequential object

    The specification is [CSeq], one copy of the data and the tokens handed out.  Whether
    a call has to wait for other replicas is a matter of [CLag], how much of every log
    every replica has seen, which does not depend on the data: [lags_ok] says that no
    call of a program does.  All calls but the scans of such a program simulate the
    specification; the simulation relates the program to both together, [CSpec]. *)

From S2P Require Import Prelude Context Log NrLog CnrLog CnrReplica CnrLogSpec CnrCommute.
From S2P Require Import CnrSpec.

(** ** Calls and specification *)

Inductive ccmd (RO WO : Type) :=
  | QRegister (r : nat)
  | QWrite (r tid : nat) (o : WO)
  | QRead (r tid : nat) (o : RO)
  | QSync (r tid : nat)
  | QSyncLog (r tid log_id : nat)
  | QVerify (r : nat).
Arguments QRegister {RO WO} _.
Arguments QWrite {RO WO} _ _ _.
Arguments QRead {RO WO} _ _ _.
Arguments QSync {RO WO} _ _.
Arguments QSyncLog {RO WO} _ _ _.
Arguments QVerify {RO WO} _.

Inductive cout (D R : Type) :=
  | AToken (t : option nat)
  | AResp (y : R)
  | ADone
  | AData (d : D).
Arguments AToken {D R} _.
Arguments AResp {D R} _.
Arguments ADone {D R}.
Arguments AData {D R} _.

(** One copy of the data; [sq_next] has the next token of every replica. *)
Record CSeq (D : Type) := mkCSeq { sq_data : D; sq_next : list nat }.
Arguments mkCSeq {D} _ _.
Arguments sq_data {D} _.
Arguments sq_next {D} _.

(** The replicas, and for every log its tail, by how much a replica may lag behind, and
    how much of it each replica has seen. *)
Record CLag := mkLag { lg_reps : nat; lg_tail : nat -> nat; lg_cap : nat -> nat; lg_seen : nat -> nat -> nat }.

(** Both together.
    [sp_next r] is the next token of replica [r], [sp_seen r h] the operations of
    log [h] that replica [r] has seen, of [sp_tail h]; a replica may be less than
    [sp_cap h] operations behind. *)
Record CSpec (D : Type) := mkCSpec {
  sp_data : D;
  sp_next : list nat;
  sp_tail : nat -> nat;
  sp_cap : nat -> nat;
  sp_seen : nat -> nat -> nat;
}.
Arguments mkCSpec {D} _ _ _ _ _.
Arguments sp_data {D} _.
Arguments sp_next {D} _.
Arguments sp_tail {D} _ _.
Arguments sp_cap {D} _ _.
Arguments sp_seen {D} _ _ _.

Section Refine.
Context {G D RO WO R : Type} `{!CDispatch D RO WO R} (n : nat) `{!LogMapperLaws n}.
Abbreviation CLog := (Log WO (LogMetaData G) EntryMetaData).
Abbreviation CRep := (CReplica D WO R).
Abbreviation cstore := (list CLog * list CRep)%type.
Abbreviation hent := (nat * (WO * nat * nat))%type.
Implicit Types (w : cstore) (x : CRep) (r h : nat) (H : list hent) (l : CLog).

(** ** Reads and synchronisation *)

(** Changes of a replica that leave its data and its place in the logs alone. *)
Lemma cw_put d0 w H r x x' :
  cw_inv n d0 w H -> w.2 !! r = Some x -> crep_ok n r x' -> cr_data x' = cr_data x ->
  cw_inv n d0 (put_rep w r x') H.
Proof.
  intros [H1 H2 H3 H4 H5 H6 H7] Hx Hok Hd. split; unfold put_rep; cbn [fst snd]; rewrite ?length_insert; try done.
  - intros r' x0 [(<- & <- & _)|[_ Hx0]]%list_lookup_insert_Some; [done|by apply H4].
  - intros r' x0 [(<- & <- & _)|[_ Hx0]]%list_lookup_insert_Some; [rewrite Hd|]; by apply H5.
Qed.

(** A replica that has seen all of log [h]. *)
Lemma cround_refl w r h l : w.1 !! h = Some l -> seen w r h = log_tail l -> cround r h [] w w.
Proof.
  intros Hl Hs. split; try done.
  - intros l0 Hl0. rewrite Hl in Hl0. injection Hl0 as <-. cbn. lia.
  - intros h' l' Hl'. exists l'. split_and!; [done|cbn; case_decide; lia|done].
  - intros r' x Hx. by exists x.
Qed.

Lemma synced_upto_run d0 w H r x h : cw_inv n d0 w H -> w.2 !! r = Some x -> h < n ->
  exists s l, get_ls w r h = Ret s /\ get_log w (ls_slog s) = Ret l /\ w.1 !! h = Some l
    /\ log_ctail l = log_tail l /\ forall t, synced_upto w r h t = Ret (t <=? seen w r h).
Proof.
  intros Hinv Hx Hh.
  destruct (round_start n d0 w H r x h Hinv Hx Hh) as (s & l & t & Hs & (Q1 & Q2 & _) & Hl & Hlo & Hat & Hsn & _).
  exists s, l. unfold synced_upto, get_ls, get_rep, get_log, is_replica_synced_for_reads.
  rewrite (vget_lookup _ _ _ Hx). mon. rewrite (vget_lookup _ _ _ Hs). mon. rewrite Q1, (vget_lookup _ _ _ Hl).
  split_and!; try done; [apply Hlo|]. intros u. mon. rewrite Q2, usub_le by lia. mon.
  apply at_tail_ltails in Hat. by rewrite (vget_lookup _ _ _ Hat), Hsn.
Qed.

Lemma ctry_combine_sync d0 w H dH r x tid h :
  cw_inv n d0 w H -> crun d0 H = Ret dH -> w.2 !! r = Some x -> h < n ->
  exists w', ctry_combine w r tid h = Ret w' /\ cw_inv n d0 w' H /\ cround r h [] w w'.
Proof.
  intros Hinv HdH Hx Hh. unfold ctry_combine, get_rep, nest_of. rewrite (vget_lookup _ _ _ Hx). mon.
  by apply (combine_sync n _ d0 w H dH r x).
Qed.

Lemma sync_hash_run d0 w H dH r x tid h :
  cw_inv n d0 w H -> crun d0 H = Ret dH -> w.2 !! r = Some x -> h < n ->
  exists w', sync_hash w r tid h = Ret w' /\ cw_inv n d0 w' H /\ cround r h [] w w'.
Proof.
  intros Hinv HdH Hx Hh.
  destruct (synced_upto_run d0 w H r x h Hinv Hx Hh) as (s & l & Es & El & Hl & Hc & Hsync).
  unfold sync_hash. rewrite Es. mon. rewrite El. mon. unfold get_ctail. rewrite Hc. unfold sync_upto.
  destruct (Nat.leb_spec (log_tail l) (seen w r h)) as [Hle|Hlt].
  - exists w. split_and!; [|done|].
    + apply rloop_first. rewrite Hsync. mon. by rewrite (proj2 (Nat.leb_le _ _) Hle).
    + apply (cround_refl w r h l Hl). pose proof (lo_inv _ _ _ _ (cw_logs _ _ _ _ Hinv h l Hl)) as Hi.
      destruct (round_start n d0 w H r x h Hinv Hx Hh) as (? & ? & t & _ & _ & _ & _ & _ & Hsn & Ht & _).
      rewrite <- (ci_tail _ _ Hi) in Ht. lia.
  - destruct (ctry_combine_sync d0 w H dH r x tid h) as (w' & E & Hinv' & Hrd); try done.
    exists w'. split_and!; try done.
    apply (rloop_second _ _ w w'); [done| |].
    + rewrite Hsync. mon. rewrite (proj2 (Nat.leb_gt _ _) Hlt). mon. by rewrite E.
    + destruct (rd_next _ _ _ _ _ Hrd r x Hx) as (x' & Hx' & _).
      destruct (synced_upto_run d0 w' H r x' h Hinv' Hx' Hh) as (_ & _ & _ & _ & _ & _ & Hsync').
      rewrite Hsync', (rd_seen_own _ _ _ _ _ Hrd l Hl). mon. cbn [length].
      by rewrite (proj2 (Nat.leb_le _ _)) by lia.
Qed.

(** [execute] answers from the whole history. *)
Lemma cexecute_run d0 w H dH r x t ro h :
  cw_inv n d0 w H -> crun d0 H = Ret dH -> w.2 !! r = Some x -> t < MAX_THREADS_PER_REPLICA ->
  r_hash ro n = [h] -> h < n ->
  exists w' w1, cexecute w r ro (S t) = (y ← c_dispatch dH ro; Ret (w', y))
    /\ cw_inv n d0 w' H /\ cround r h [] w1 w' /\ cw_inv n d0 w1 H /\ w1.1 = w.1
    /\ cr_next <$> w1.2 = cr_next <$> w.2.
Proof.
  intros Hinv HdH Hx Ht Hh1 Hh. pose proof (cw_reps _ _ _ _ Hinv r x Hx) as Hok.
  pose proof (lookup_lt_Some _ _ _ Hx) as Hr.
  set (xh := cr_set_hash x (<[t := [h]]> (cr_hash x))).
  assert (Hinv1 : cw_inv n d0 (put_rep w r xh) H).
  { apply (cw_put d0 w H r x); try done. destruct Hok. split; try done. cbn. by rewrite length_insert. }
  assert (Hx1 : (put_rep w r xh).2 !! r = Some xh) by (by apply list_lookup_insert_eq).
  destruct (sync_hash_run d0 _ H dH r xh (S t) h Hinv1 HdH Hx1 Hh) as (w' & E & Hinv' & Hrd).
  exists w', (put_rep w r xh). unfold cexecute, get_rep. rewrite (vget_lookup _ _ _ Hx). mon.
  rewrite (co_logs _ _ _ Hok), Hh1, (one_log_run w r x t _ h); [|done|by rewrite (co_nhash _ _ _ Hok)|done].
  mon. fold xh. rewrite E. mon. destruct (rd_next _ _ _ _ _ Hrd r xh Hx1) as (x' & Hx' & _).
  rewrite (vget_lookup _ _ _ Hx'). mon. split_and!; try done.
  - destruct (run_split (seen w' r) H d0 dH) as (d1 & E1 & E2); [apply Hinv|done|].
    rewrite (cw_data _ _ _ _ Hinv' r x' Hx') in E1. injection E1 as <-.
    rewrite (run_read _ (missing (seen w' r) H) dH ro h); try done; [apply restrict_forall, Hinv|].
    apply missing_none. destruct (lookup_lt_is_Some_2 w.1 h) as [l Hl]; [by rewrite (cw_nlogs _ _ _ _ Hinv)|].
    rewrite (rd_seen_own _ _ _ _ _ Hrd l Hl). pose proof (lo_inv _ _ _ _ (cw_logs _ _ _ _ Hinv h l Hl)) as Hi.
    rewrite <- (ci_tail _ _ Hi). lia.
  - unfold put_rep. cbn. rewrite list_fmap_insert, list_insert_id; [done|]. by rewrite list_lookup_fmap, Hx.
Qed.

(** What [exec] alone leaves. *)
Lemma exec_left (g : list CRep -> ccall WO -> res (list CRep)) d nreps h H l (logs : list CLog) r t :
  (forall (logs : list CLog) xs c, cc_is_scan c = false ->
     d (logs, xs) c = (fun xs' => (logs, xs', true)) <$> g xs c) ->
  clog_ok nreps h H l -> logs !! h = Some l -> at_tail l (S r) t -> t <= length (lhist h H) ->
  exists l', (forall xs, cexec (logs, xs) h (S r) d
      = (fun xs' => (<[h := l']> logs, xs')) <$> creplay g xs (drop t (lhist h H)))
    /\ log_left r l l' (lhist h H ++ ents (S r) []) 0.
Proof.
  intros Hd [Hi Hn Hc Hfit _] Hl Hat Ht.
  destruct (cexec_spec g d Hd h logs l (lhist h H) (S r) t Hl Hi Hat)
    as (l' & E & Hinv' & Hf & Hat' & Hh' & Ht' & Hid & Hc').
  exists l'. split; [done|]. split; cbn; rewrite ?app_nil_r; try done; try lia.
  - by rewrite Ht'.
  - by rewrite Ht', Hh', (cf_len _ _ _ Hf).
  - destruct (decide (t = log_tail l)) as [Et|Et]; [by rewrite (Hid Et)|].
    rewrite Hc', Ht'; [done|]. rewrite (ci_tail _ _ Hi) in *. lia.
Qed.

(** The closure of [verify]. *)
Definition verify_apply r (xs : list CRep) (c : ccall WO) : res (list CRep) :=
  x ← vget xs r; '(d', _) ← c_dispatch_mut (cr_data x) (cc_op c); Ret (<[r := cr_set_data x d']> xs).

Lemma verify_replay r ys xs x d' : xs !! r = Some x ->
  foldM (fun d (y : WO * nat * nat) => fst <$> c_dispatch_mut d y.1.1) (cr_data x) ys = Ret d' ->
  creplay (verify_apply r) xs ys = Ret (<[r := cr_set_data x d']> xs).
Proof.
  revert xs x. induction ys as [|y ys IH]; intros xs x Hx E; cbn in E.
  - injection E as <-. cbn. rewrite list_insert_id; [done|]. rewrite Hx. by destruct x.
  - destruct (c_dispatch_mut (cr_data x) y.1.1) as [[d1 v]| |] eqn:Ey; try done. cbn in E.
    unfold creplay. cbn [foldM]. unfold verify_apply at 2. rewrite (vget_lookup _ _ _ Hx). mon.
    cbn [call_of cc_op]. rewrite Ey. mon. fold (creplay (verify_apply r) (<[r := cr_set_data x d1]> xs) ys).
    rewrite (IH _ (cr_set_data x d1)); try done; [by rewrite list_insert_insert_eq|].
    apply list_lookup_insert_eq. by eapply lookup_lt_Some.
Qed.

(** [verify] replays the first log and shows the data. *)
Lemma cverify_run d0 w H dH r x : cw_inv n d0 w H -> crun d0 H = Ret dH -> w.2 !! r = Some x -> 0 < n ->
  exists w' d', cverify w r = Ret (w', d')
    /\ crun d0 (restrict (setv (seen w r) 0 (length (lhist 0 H))) H) = Ret d'
    /\ cw_inv n d0 w' H /\ cround r 0 [] w w'.
Proof.
  intros Hinv HdH Hx Hh. pose proof (cw_reps _ _ _ _ Hinv r x Hx) as Hok.
  destruct (round_start n d0 w H r x 0 Hinv Hx Hh) as (s & l & t & Hs & (Q1 & Q2 & Q3 & Q4) & Hl & Hlo & Hat & Hsn & Ht & _).
  pose proof (lookup_lt_Some _ _ _ Hx) as Hr. pose proof (lookup_lt_Some _ _ _ Hs) as Hhs.
  destruct (restrict_catch_up (seen w r) H 0 d0 dH (cr_data x)) as (d2 & E2 & Er);
    [apply Hinv|done|by rewrite Hsn|by apply Hinv|]. rewrite Hsn in E2.
  set (s1 := ls_set_combiner s (MAX_THREADS_PER_REPLICA + 2)).
  set (x1 := cr_set_logstate x (<[0 := s1]> (cr_logstate x))).
  destruct (exec_left (verify_apply r) (cverify_closure r) (length w.2) 0 H l w.1 r t) as (l' & E & Hleft); try done.
  { intros logs xs c _. unfold verify_apply, cverify_closure, get_rep, put_rep. cbn [fst snd].
    destruct (vget xs r) as [x0| |]; mon; try done.
    by destruct (c_dispatch_mut (cr_data x0) (cc_op c)) as [[d' v]| |]. }
  specialize (E (<[r := x1]> w.2)). rewrite (verify_replay r _ _ x1 d2) in E by (done || by apply list_lookup_insert_eq).
  cbn [fmap res_fmap] in E. rewrite list_insert_insert_eq in E.
  unfold cverify, put_ls, get_ls, get_rep. rewrite (vget_lookup _ _ _ Hx). mon. rewrite (vget_lookup _ _ _ Hs). mon.
  rewrite Q3. cbn [Nat.eqb negb]. rewrite vset_lt by done. mon. rewrite Q1, Q2. unfold put_rep.
  fold s1 x1. rewrite E. mon. cbn [fst snd].
  rewrite (vget_lookup _ _ _ (list_lookup_insert_eq _ _ _ Hr)). mon. cbn [cr_logstate cr_set_data x1 cr_set_logstate].
  rewrite (vget_lookup _ _ _ (list_lookup_insert_eq _ _ _ Hhs)). mon.
  rewrite vset_lt by (by rewrite length_insert). mon. cbn [fst snd]. rewrite !list_insert_insert_eq.
  eexists _, d2. split; [reflexivity|]. split; [done|].
  rewrite <- (app_nil_r H) at 1. apply (cw_round n d0 w H r x 0 l l' [] _ d2); try done.
  - apply (crep_ok_round n r x _ 0 (ls_set_combiner s1 0)); try done. apply Hok.
  - cbn [length issued map]. by rewrite app_nil_r, Nat.add_0_r.
Qed.

(** ** The specification *)

Implicit Types (sp : CSpec D).

Definition set2 (f : nat -> nat -> nat) r h (k : nat) : nat -> nat -> nat :=
  fun r' h' => if decide ((r', h') = (r, h)) then k else f r' h'.

(** Replica [r] sees all of log [h]. *)
Definition sp_mark sp r h : CSpec D :=
  mkCSpec (sp_data sp) (sp_next sp) (sp_tail sp) (sp_cap sp) (set2 (sp_seen sp) r h (sp_tail sp h)).

(** One more operation in log [h], of replica [r]. *)
Definition sp_push sp r h (d : D) : CSpec D :=
  mkCSpec d (sp_next sp) (setv (sp_tail sp) h (sp_tail sp h + 1)) (sp_cap sp)
    (set2 (sp_seen sp) r h (sp_tail sp h + 1)).

Definition sp_token sp r (tid : nat) : bool :=
  match sp_next sp !! r with Some k => (1 <=? tid) && (tid <? k) | None => false end.

(** No replica other than [r] keeps log [h] from growing. *)
Definition sp_room sp r h : bool :=
  forallb (fun r' => (r' =? r) || (sp_tail sp h + 1 <? sp_seen sp r' h + sp_cap sp h))
    (seq 0 (length (sp_next sp))).

Definition sp_log (hs : list nat) : option nat :=
  match hs with [h] => if h <? n then Some h else None | _ => None end.

(** Calls outside the contract have no result here. *)
Definition cspec_step sp (c : ccmd RO WO) : res (CSpec D * cout D R) :=
  match c with
  | QRegister r =>
      k ← vget (sp_next sp) r;
      if MAX_THREADS_PER_REPLICA <? k then Ret (sp, AToken None)
      else Ret (mkCSpec (sp_data sp) (<[r := k + 1]> (sp_next sp)) (sp_tail sp) (sp_cap sp) (sp_seen sp),
                AToken (Some k))
  | QWrite r tid o =>
      match sp_log (w_hash o n) with
      | Some h => if sp_token sp r tid && sp_room sp r h then
                    '(d', y) ← c_dispatch_mut (sp_data sp) o;
                    Ret (sp_push sp r h d', AResp y)
                  else Spin
      | None => Spin
      end
  | QRead r tid o =>
      match sp_log (r_hash o n) with
      | Some h => if sp_token sp r tid then
                    y ← c_dispatch (sp_data sp) o; Ret (sp_mark sp r h, AResp y)
                  else Spin
      | None => Spin
      end
  | QSync r tid =>
      if sp_token sp r tid then Ret (fold_left (fun sp h => sp_mark sp r h) (seq 0 n) sp, ADone) else Spin
  | QSyncLog r tid log_id =>
      if sp_token sp r tid && (1 <=? log_id) && (log_id <=? n)
      then Ret (sp_mark sp r (log_id - 1), ADone) else Spin
  | QVerify r =>
      if (r <? length (sp_next sp)) && (0 <? n)
         && forallb (fun h => sp_tail sp h =? sp_seen sp r h) (seq 1 (n - 1))
      then Ret (sp_mark sp r 0, AData (sp_data sp)) else Spin
  end.

(** The calls on the specification; calls with a token that was not handed out, and
    operations that are not mapped to one log, are outside the contract. *)
Definition sq_token (q : CSeq D) r (tid : nat) : bool :=
  match sq_next q !! r with Some k => (1 <=? tid) && (tid <? k) | None => false end.

Definition cseq_step (q : CSeq D) (c : ccmd RO WO) : res (CSeq D * cout D R) :=
  match c with
  | QRegister r =>
      k ← vget (sq_next q) r;
      if MAX_THREADS_PER_REPLICA <? k then Ret (q, AToken None)
      else Ret (mkCSeq (sq_data q) (<[r := k + 1]> (sq_next q)), AToken (Some k))
  | QWrite r tid o =>
      _ ← rassert (sq_token q r tid && bool_decide (is_Some (sp_log (w_hash o n)))) "outside the contract";
      '(d', y) ← c_dispatch_mut (sq_data q) o;
      Ret (mkCSeq d' (sq_next q), AResp y)
  | QRead r tid o =>
      _ ← rassert (sq_token q r tid && bool_decide (is_Some (sp_log (r_hash o n)))) "outside the contract";
      y ← c_dispatch (sq_data q) o; Ret (q, AResp y)
  | QSync r tid => _ ← rassert (sq_token q r tid) "outside the contract"; Ret (q, ADone)
  | QSyncLog r tid log_id =>
      _ ← rassert (sq_token q r tid && (1 <=? log_id) && (log_id <=? n)) "outside the contract"; Ret (q, ADone)
  | QVerify r => _ ← rassert ((r <? length (sq_next q)) && (0 <? n)) "outside the contract"; Ret (q, AData (sq_data q))
  end.

(** What the calls do to the progress of the replicas. *)
Definition lag_mark (g : CLag) r h : CLag :=
  mkLag (lg_reps g) (lg_tail g) (lg_cap g) (set2 (lg_seen g) r h (lg_tail g h)).
Definition lag_push (g : CLag) r h : CLag :=
  mkLag (lg_reps g) (setv (lg_tail g) h (lg_tail g h + 1)) (lg_cap g) (set2 (lg_seen g) r h (lg_tail g h + 1)).
Definition lag_step (g : CLag) (c : ccmd RO WO) : CLag :=
  match c with
  | QRegister _ => g
  | QWrite r _ o => match sp_log (w_hash o n) with Some h => lag_push g r h | None => g end
  | QRead r _ o => match sp_log (r_hash o n) with Some h => lag_mark g r h | None => g end
  | QSync r _ => fold_left (fun g h => lag_mark g r h) (seq 0 n) g
  | QSyncLog r _ log_id => lag_mark g r (log_id - 1)
  | QVerify r => lag_mark g r 0
  end.

(** No call has to wait: when an operation is appended to a log, every other replica is
    less than [lg_cap] operations behind; [verify], which replays the first log only, is
    called on a replica that has seen the others. *)
Definition lag_ok (g : CLag) (c : ccmd RO WO) : bool :=
  match c with
  | QWrite r _ o =>
      match sp_log (w_hash o n) with
      | Some h => forallb (fun r' => (r' =? r) || (lg_tail g h + 1 <? lg_seen g r' h + lg_cap g h)) (seq 0 (lg_reps g))
      | None => true
      end
  | QVerify r => forallb (fun h => lg_tail g h =? lg_seen g r h) (seq 1 (n - 1))
  | _ => true
  end.
Fixpoint lags_ok (g : CLag) (cs : list (ccmd RO WO)) : bool :=
  match cs with [] => true | c :: cs' => lag_ok g c && lags_ok (lag_step g c) cs' end.

(** The same calls of the program. *)
Definition ccall_step w (c : ccmd RO WO) : res (cstore * cout D R) :=
  match c with
  | QRegister r => '(w', t) ← crep_register w r; Ret (w', AToken t)
  | QWrite r tid o => '(w', y) ← cexecute_mut w r o tid; Ret (w', AResp y)
  | QRead r tid o => '(w', y) ← cexecute w r o tid; Ret (w', AResp y)
  | QSync r tid => w' ← csync w r tid; Ret (w', ADone)
  | QSyncLog r tid log_id => w' ← csync_log w r tid log_id; Ret (w', ADone)
  | QVerify r => '(w', d) ← cverify w r; Ret (w', AData d)
  end.

(** ** Simulation *)

Record csim_at (d0 : D) H w sp : Prop := {
  cs_inv : cw_inv n d0 w H;
  cs_run : crun d0 H = Ret (sp_data sp);
  cs_next : sp_next sp = cr_next <$> w.2;
  cs_logs : forall h l, w.1 !! h = Some l ->
    sp_tail sp h = log_tail l /\ sp_cap sp h = length (slog l) - GC_FROM_HEAD;
  cs_seen : forall r h, r < length w.2 -> h < n -> sp_seen sp r h = seen w r h;
}.
Definition csim d0 w sp : Prop := exists H, csim_at d0 H w sp.

Lemma cround_next r h ps w w' : cround r h ps w w' -> cr_next <$> w'.2 = cr_next <$> w.2.
Proof.
  intros [_ _ _ [_ Hlen] Hn]. apply list_eq. intros i. rewrite !list_lookup_fmap.
  destruct (w.2 !! i) as [x|] eqn:Ex.
  - destruct (Hn i x Ex) as (x' & -> & E). cbn. by rewrite E.
  - apply lookup_ge_None in Ex. rewrite (proj2 (lookup_ge_None _ _)); [done|lia].
Qed.

Lemma csim_round d0 H H' w w' sp r h ps d' : csim_at d0 H w sp -> cround r h ps w w' ->
  cw_inv n d0 w' H' -> crun d0 H' = Ret d' -> h < n ->
  csim_at d0 H' w' (mkCSpec d' (sp_next sp) (setv (sp_tail sp) h (sp_tail sp h + length ps)) (sp_cap sp)
                      (set2 (sp_seen sp) r h (sp_tail sp h + length ps))).
Proof.
  intros [Hinv Hrun Hnx Hlogs Hseen] Hrd Hinv' Hrun' Hh. split; cbn; try done.
  - rewrite (cround_next _ _ _ _ _ Hrd). done.
  - intros h' l' Hl'. destruct (lookup_lt_is_Some_2 w.1 h') as [l Hl].
    { rewrite <- (proj1 (rd_len _ _ _ _ _ Hrd)). by eapply lookup_lt_Some. }
    destruct (rd_tail _ _ _ _ _ Hrd h' l Hl) as (l0 & Hl0 & Et & El). rewrite Hl' in Hl0. injection Hl0 as <-.
    destruct (Hlogs h' l Hl) as [E1 E2]. rewrite Et, El, E2. split; [|done]. unfold setv.
    case_decide; subst; lia.
  - intros r' h' Hr' Hh'. unfold set2. case_decide as E.
    + injection E as -> ->. destruct (lookup_lt_is_Some_2 w.1 h) as [l Hl]; [by rewrite (cw_nlogs _ _ _ _ Hinv)|].
      rewrite (rd_seen_own _ _ _ _ _ Hrd l Hl). by rewrite (proj1 (Hlogs h l Hl)).
    + rewrite (rd_seen _ _ _ _ _ Hrd) by done. apply Hseen; [|done]. by rewrite <- (proj2 (rd_len _ _ _ _ _ Hrd)).
Qed.

Lemma csim_mark d0 H w w' sp r h : csim_at d0 H w sp -> cround r h [] w w' -> cw_inv n d0 w' H -> h < n ->
  csim_at d0 H w' (sp_mark sp r h).
Proof.
  intros Hs Hrd Hinv' Hh.
  destruct (csim_round d0 H H w w' sp r h [] (sp_data sp) Hs Hrd Hinv' (cs_run _ _ _ _ Hs) Hh) as [H1 H2 H3 H4 H5].
  split; try done; cbn in *.
  - intros h' l' Hl'. destruct (H4 h' l' Hl') as [<- E]. split; [|done]. unfold setv. case_decide; subst; lia.
  - intros r' h' Hr' Hh'. rewrite <- (H5 r' h' Hr' Hh'). unfold set2. by rewrite Nat.add_0_r.
Qed.

Lemma csim_token d0 H w sp r tid : csim_at d0 H w sp -> sp_token sp r tid = true ->
  exists x t, w.2 !! r = Some x /\ tid = S t /\ S t < cr_next x /\ t < MAX_THREADS_PER_REPLICA.
Proof.
  intros Hs. unfold sp_token. rewrite (cs_next _ _ _ _ Hs), list_lookup_fmap.
  destruct (w.2 !! r) as [x|] eqn:Hx; [|done]. cbn [fmap option_fmap option_map]. intros [H1 H2]%andb_prop.
  apply Nat.leb_le in H1. apply Nat.ltb_lt in H2. exists x, (tid - 1).
  pose proof (co_next _ _ _ (cw_reps _ _ _ _ (cs_inv _ _ _ _ Hs) r x Hx)). split_and!; try done; lia.
Qed.

Lemma csim_room d0 H w sp r h l : csim_at d0 H w sp -> w.1 !! h = Some l -> h < n ->
  sp_room sp r h = true -> room_for l (S r) 1.
Proof.
  intros Hs Hl Hh Hroom k t Hk Hreg. apply registered_lookup in Hreg as [Hlt Ht].
  pose proof (cs_inv _ _ _ _ Hs) as Hinv. pose proof (cw_logs _ _ _ _ Hinv h l Hl) as Hlo.
  rewrite (lo_next _ _ _ _ Hlo) in Hlt. destruct (cs_logs _ _ _ _ Hs h l Hl) as [Et Ec].
  unfold sp_room in Hroom. rewrite forallb_forall in Hroom. specialize (Hroom k).
  assert (Hin : In k (seq 0 (length (sp_next sp)))).
  { apply in_seq. rewrite (cs_next _ _ _ _ Hs), length_fmap. lia. }
  apply Hroom, orb_prop in Hin as [E|E].
  - apply Nat.eqb_eq in E. lia.
  - apply Nat.ltb_lt in E. rewrite (cs_seen _ _ _ _ Hs), Et, Ec in E by (done || lia). unfold seen in E.
    rewrite Hl, Ht in E. cbn in E. pose proof (clog_size_gc _ _ (lo_inv _ _ _ _ Hlo)). lia.
Qed.

Lemma sp_log_some hs h : sp_log hs = Some h -> hs = [h] /\ h < n.
Proof.
  unfold sp_log. destruct hs as [|h0 [|]]; try done. destruct (Nat.ltb_spec h0 n); [|done]. by intros [= ->].
Qed.

(** The replicas after a change of [cr_next] or of scratch space. *)
Lemma csim_same d0 H w w' sp k : csim_at d0 H w sp -> cw_inv n d0 w' H -> w'.1 = w.1 ->
  length w'.2 = length w.2 -> k = cr_next <$> w'.2 ->
  csim_at d0 H w' (mkCSpec (sp_data sp) k (sp_tail sp) (sp_cap sp) (sp_seen sp)).
Proof.
  intros [Hinv Hrun Hnx Hlogs Hseen] Hinv' E1 E2 ->. split; try done; cbn.
  - intros h l. rewrite E1. apply Hlogs.
  - intros r h. rewrite E2. unfold seen. rewrite E1. apply Hseen.
Qed.

(** ** The calls one by one *)

Lemma sim_register d0 w sp r sp' y : csim d0 w sp -> cspec_step sp (QRegister r) = Ret (sp', y) ->
  exists w', ccall_step w (QRegister r) = Ret (w', y) /\ csim d0 w' sp'.
Proof.
  intros [H Hs]. pose proof (cs_inv _ _ _ _ Hs) as Hinv. cbn. destruct (vget (sp_next sp) r) as [k| |] eqn:Ek; try done.
  apply vget_ret in Ek. rewrite (cs_next _ _ _ _ Hs) in Ek. apply list_lookup_fmap_Some in Ek as (x & -> & Hx).
  cbn. unfold crep_register, get_rep. rewrite (vget_lookup _ _ _ Hx). mon.
  destruct (Nat.ltb_spec MAX_THREADS_PER_REPLICA (cr_next x)) as [Hlt|Hge]; intros [= <- <-].
  - exists w. split; [done|]. by exists H.
  - eexists. split; [done|]. exists H. apply (csim_same d0 H w); try done.
    + apply (cw_put d0 w H r x); try done. destruct (cw_reps _ _ _ _ Hinv r x Hx). split; try done. cbn. lia.
    + unfold put_rep. cbn. by rewrite length_insert.
    + unfold put_rep. cbn. by rewrite (cs_next _ _ _ _ Hs), list_fmap_insert.
Qed.

Lemma sim_write d0 w sp r tid o sp' y : csim d0 w sp -> cspec_step sp (QWrite r tid o) = Ret (sp', y) ->
  exists w', ccall_step w (QWrite r tid o) = Ret (w', y) /\ csim d0 w' sp'.
Proof.
  intros [H Hs]. pose proof (cs_inv _ _ _ _ Hs) as Hinv. cbn.
  destruct (sp_log (w_hash o n)) as [h|] eqn:Eh; [|done]. apply sp_log_some in Eh as [Eh Hh].
  destruct (sp_token sp r tid) eqn:Etok; [|done]. destruct (sp_room sp r h) eqn:Eroom; [|done]. cbn.
  destruct (c_dispatch_mut (sp_data sp) o) as [[d' v]| |] eqn:Ed; try done. intros [= <- <-].
  destruct (csim_token d0 H w sp r tid Hs Etok) as (x & t & Hx & -> & Ht & _).
  destruct (cexecute_mut_run n d0 w H (sp_data sp) d' v r x t o h) as (w' & E & Hinv' & Hrd); try done;
    [apply Hs|intros l Hl; by apply (csim_room d0 H w sp r h)|].
  exists w'. rewrite E. split; [done|]. eexists. apply (csim_round d0 H _ w w' sp r h [(o, S t)]); try done.
  unfold crun. rewrite foldM_app. fold (crun d0 H). rewrite (cs_run _ _ _ _ Hs). cbn. by rewrite Ed.
Qed.

Lemma sim_read d0 w sp r tid o sp' y : csim d0 w sp -> cspec_step sp (QRead r tid o) = Ret (sp', y) ->
  exists w', ccall_step w (QRead r tid o) = Ret (w', y) /\ csim d0 w' sp'.
Proof.
  intros [H Hs]. pose proof (cs_inv _ _ _ _ Hs) as Hinv. cbn.
  destruct (sp_log (r_hash o n)) as [h|] eqn:Eh; [|done]. apply sp_log_some in Eh as [Eh Hh].
  destruct (sp_token sp r tid) eqn:Etok; [|done].
  destruct (c_dispatch (sp_data sp) o) as [v| |] eqn:Ed; try done. intros [= <- <-].
  destruct (csim_token d0 H w sp r tid Hs Etok) as (x & t & Hx & -> & _ & Ht).
  destruct (cexecute_run d0 w H (sp_data sp) r x t o h) as (w' & w1 & E & Hinv' & Hrd & Hinv1 & E1 & E2); try done; [apply Hs|].
  exists w'. rewrite E, Ed. split; [done|]. exists H.
  apply (csim_mark d0 H w1); try done. destruct sp. apply (csim_same d0 H w _ _ _ Hs); try done.
  - by rewrite <- (length_fmap cr_next), E2, length_fmap.
  - rewrite E2. apply Hs.
Qed.

Lemma sim_sync_hash d0 H w sp r x tid h : csim_at d0 H w sp -> w.2 !! r = Some x -> h < n ->
  exists w' x', sync_hash w r tid h = Ret w' /\ csim_at d0 H w' (sp_mark sp r h) /\ w'.2 !! r = Some x'.
Proof.
  intros Hs Hx Hh. destruct (sync_hash_run d0 w H (sp_data sp) r x tid h) as (w' & E & Hinv' & Hrd); try done; try apply Hs.
  destruct (rd_next _ _ _ _ _ Hrd r x Hx) as (x' & Hx' & _).
  exists w', x'. split_and!; try done. by apply (csim_mark d0 H w).
Qed.

Lemma sim_sync d0 w sp r tid sp' y : csim d0 w sp -> cspec_step sp (QSync r tid) = Ret (sp', y) ->
  exists w', ccall_step w (QSync r tid) = Ret (w', y) /\ csim d0 w' sp'.
Proof.
  intros [H Hs]. pose proof (cs_inv _ _ _ _ Hs) as Hinv. cbn. destruct (sp_token sp r tid) eqn:Etok; [|done].
  intros [= <- <-]. destruct (csim_token d0 H w sp r tid Hs Etok) as (x & t & Hx & -> & _ & _).
  unfold csync, get_rep. rewrite (vget_lookup _ _ _ Hx). mon.
  rewrite (co_logs _ _ _ (cw_reps _ _ _ _ Hinv r x Hx)).
  assert (Hks : Forall (fun h => h < n) (seq 0 n)) by (apply Forall_seq; lia).
  cut (exists w', foldM (fun w i => sync_hash w r (S t) i) w (seq 0 n) = Ret w'
         /\ csim_at d0 H w' (fold_left (fun sp h => sp_mark sp r h) (seq 0 n) sp)).
  { intros (w' & -> & Hw'). exists w'. split; [done|]. by exists H. }
  clear Hinv Etok. revert w x sp Hs Hx. induction Hks as [|h ks Hh _ IH]; intros w x sp Hs Hx; [by exists w|].
  destruct (sim_sync_hash d0 H w sp r x (S t) h Hs Hx Hh) as (w1 & x1 & E & Hs1 & Hx1).
  cbn [foldM fold_left]. rewrite E. mon. by apply (IH w1 x1).
Qed.

Lemma sim_sync_log d0 w sp r tid k sp' y : csim d0 w sp -> cspec_step sp (QSyncLog r tid k) = Ret (sp', y) ->
  exists w', ccall_step w (QSyncLog r tid k) = Ret (w', y) /\ csim d0 w' sp'.
Proof.
  intros [H Hs]. pose proof (cs_inv _ _ _ _ Hs) as Hinv. cbn -[Nat.leb].
  destruct (sp_token sp r tid) eqn:Etok; [|done]. destruct (Nat.leb_spec 1 k); [|done].
  destruct (Nat.leb_spec k n); [|done]. intros [= <- <-].
  destruct (csim_token d0 H w sp r tid Hs Etok) as (x & t & Hx & -> & _ & _).
  assert (Hh : k - 1 < n) by lia.
  destruct (synced_upto_run d0 w H r x (k - 1) Hinv Hx Hh) as (s & l & Es & El & Hl & Hc & Hsync).
  unfold csync_log. rewrite usub_le by done. mon. rewrite Es. mon. rewrite El. mon. rewrite Hsync. mon.
  unfold get_ctail. rewrite Hc. destruct (Nat.leb_spec (log_tail l) (seen w r (k - 1))) as [Hle|_].
  - exists w. split; [done|]. exists H. apply (csim_mark d0 H w); try done. apply (cround_refl w r _ l Hl).
    destruct (round_start n d0 w H r x (k - 1) Hinv Hx Hh) as (_ & l0 & t0 & _ & _ & Hl0 & Hlo & _ & Hsn & Ht & _).
    rewrite Hl in Hl0. injection Hl0 as <-. rewrite <- (ci_tail _ _ (lo_inv _ _ _ _ Hlo)) in Ht. lia.
  - destruct (ctry_combine_sync d0 w H (sp_data sp) r x (S t) (k - 1)) as (w' & E & Hinv' & Hrd); try done; [apply Hs|].
    exists w'. rewrite E. split; [done|]. exists H. by apply (csim_mark d0 H w).
Qed.

Lemma sim_verify d0 w sp r sp' y : csim d0 w sp -> cspec_step sp (QVerify r) = Ret (sp', y) ->
  exists w', ccall_step w (QVerify r) = Ret (w', y) /\ csim d0 w' sp'.
Proof.
  intros [H Hs]. pose proof (cs_inv _ _ _ _ Hs) as Hinv. cbn -[Nat.ltb].
  destruct (Nat.ltb_spec r (length (sp_next sp))) as [Hr|]; [|done]. destruct (Nat.ltb_spec 0 n) as [Hn|]; [|done].
  destruct (forallb _ _) eqn:Hall; [|done]. intros [= <- <-]. rewrite forallb_forall in Hall.
  rewrite (cs_next _ _ _ _ Hs), length_fmap in Hr. destruct (lookup_lt_is_Some_2 w.2 r Hr) as [x Hx].
  destruct (cverify_run d0 w H (sp_data sp) r x Hinv (cs_run _ _ _ _ Hs) Hx Hn) as (w' & d' & E & Ed & Hinv' & Hrd).
  exists w'. assert (d' = sp_data sp) as ->.
  { destruct (run_split (setv (seen w r) 0 (length (lhist 0 H))) H d0 (sp_data sp)) as (d1 & E1 & E2);
      [apply Hinv|apply Hs|]. rewrite Ed in E1. injection E1 as <-.
    rewrite missing_all in E2; [by injection E2|]. intros h.
    unfold setv. destruct (decide (h = 0)) as [->|Hne]; [done|].
    destruct (w.1 !! h) as [l|] eqn:Hl.
    - rewrite <- (ci_tail _ _ (lo_inv _ _ _ _ (cw_logs _ _ _ _ Hinv h l Hl))).
      rewrite <- (proj1 (cs_logs _ _ _ _ Hs h l Hl)).
      pose proof (lookup_lt_Some _ _ _ Hl) as Hlt. rewrite (cw_nlogs _ _ _ _ Hinv) in Hlt.
      assert (Hin : In h (seq 1 (n - 1))) by (apply in_seq; lia). apply Hall, Nat.eqb_eq in Hin. rewrite Hin.
      by rewrite (cs_seen _ _ _ _ Hs).
    - apply lookup_ge_None in Hl. rewrite (cw_nlogs _ _ _ _ Hinv) in Hl.
      rewrite lhist_none; [cbn; lia|]. eapply Forall_impl; [|exact (cw_range _ _ _ _ Hinv)].
      intros y Hy Ey. cbn in Hy. lia. }
  rewrite E. split; [done|]. exists H. by apply (csim_mark d0 H w).
Qed.

(** Every call of the specification is simulated. *)
Lemma csim_step d0 w sp c sp' y : csim d0 w sp -> cspec_step sp c = Ret (sp', y) ->
  exists w', ccall_step w c = Ret (w', y) /\ csim d0 w' sp'.
Proof.
  destruct c; [apply sim_register|apply sim_write|apply sim_read|apply sim_sync|apply sim_sync_log|apply sim_verify].
Qed.

(** ** Construction *)

(** New logs, of the given sizes and metadata. *)
Definition logs_at (k : nat) (ms : list (N * LogMetaData G)) : list CLog :=
  (fun p => set_next (new_with_entries emeta_default p.1 p.2) (S k)) <$> ms.

(** [k] replicas, before anything else happens. *)
Definition creplicas (dd : D) (k : nat) w : res cstore := foldM (fun w _ => crep_new dd w) w (seq 0 k).

Definition rep_fresh (dd : D) (nlogs r : nat) : CRep :=
  mkCR 1 dd ((fun idx => context_new pending_meta_default (idx + 1)) <$> seq 0 MAX_THREADS_PER_REPLICA)
    (replicate MAX_THREADS_PER_REPLICA []) (replicate MAX_THREADS_PER_REPLICA [])
    ((fun li => mkLS li (S r) 0 (replicate MAX_THREADS_PER_REPLICA false) [] []) <$> seq 0 nlogs).

Lemma logstates_new_at k ms pre : S k <= MAX_REPLICAS_PER_LOG ->
  logstates_new (pre ++ logs_at k ms) (seq (length pre) (length ms))
  = Ret ((fun li => mkLS li (S k) 0 (replicate MAX_THREADS_PER_REPLICA false) [] []) <$> seq (length pre) (length ms),
         pre ++ logs_at (S k) ms).
Proof.
  intros Hk. revert pre. induction ms as [|m ms IH]; intros pre; [done|]. cbn [length seq logstates_new fmap list_fmap logs_at].
  rewrite (vget_lookup _ _ (set_next (new_with_entries emeta_default m.1 m.2) (S k)))
    by (by rewrite lookup_app_r, Nat.sub_diag by done).
  mon. unfold logstate_new, log_register. cbn [log_next set_next].
  rewrite (proj2 (Nat.ltb_ge _ _) Hk). cbn [unwrap]. mon. rewrite vset_lt by (rewrite length_app; cbn; lia). mon.
  rewrite insert_app_r_alt, Nat.sub_diag by done. cbn [list_insert insert].
  specialize (IH (pre ++ [set_next (new_with_entries emeta_default m.1 m.2) (S (S k))])).
  rewrite length_app, Nat.add_1_r, <- !app_assoc in IH. cbn [app] in IH. rewrite Nat.add_1_r.
  change (set_next (set_next (new_with_entries emeta_default m.1 m.2) (S k)) (S (S k)))
    with (set_next (new_with_entries emeta_default m.1 m.2 : CLog) (S (S k))).
  unfold logs_at in IH. rewrite IH. by mon.
Qed.

Lemma creplicas_run dd k ms : k <= MAX_REPLICAS_PER_LOG ->
  creplicas dd k (logs_at 0 ms, []) = Ret (logs_at k ms, rep_fresh dd (length ms) <$> seq 0 k).
Proof.
  unfold creplicas. induction k as [|k IH]; intros Hk; [done|].
  rewrite seq_S, foldM_app, IH by lia. mon. cbn [foldM Nat.add]. unfold crep_new, crep_with_data. cbn [fst snd].
  replace (length (logs_at k ms)) with (length ms) by (unfold logs_at; by rewrite length_fmap).
  pose proof (logstates_new_at k ms [] Hk) as E. cbn [app length] in E. rewrite E. mon.
  by rewrite fmap_app.
Qed.

Lemma logs_at_ok k h (p : N * LogMetaData G) : meta_ok p.2 -> k <= MAX_REPLICAS_PER_LOG ->
  clog_ok (WO := WO) k h [] (set_next (new_with_entries emeta_default p.1 p.2) (S k)).
Proof.
  intros Hm Hk. destruct (new_with_entries_len (T := WO) emeta_default p.1 p.2) as (Hp & Hs & _).
  set (l := set_next (new_with_entries emeta_default p.1 p.2) (S k) : CLog).
  change (is_pow2 (length (slog l))) in Hp. change (2 * GC_FROM_HEAD <= length (slog l)) in Hs.
  assert (Hlt : forall j t, registered_ltails l !! j = Some t -> t = 0).
  { intros j t [_ Ht]%registered_lookup. by apply lookup_replicate in Ht as [-> _]. }
  split; try done.
  - split; try done; cbn [length lhist filter map]; try (cbn; lia).
    + intros j t Ht. rewrite (Hlt j t Ht). cbn. lia.
    + intros j t m Ht Hj. rewrite (Hlt j t Ht). apply lookup_replicate in Hj as [-> _].
      by rewrite Nat.Div0.div_0_l.
    + intros j e He. pose proof (lookup_lt_Some _ _ _ He). apply lookup_replicate in He as [-> _]. unfold laps.
      change (length (lhist h [])) with 0. by rewrite Nat.div_small by lia.
  - cbn [log_tail log_head l set_next new_with_entries]. lia.
Qed.

(** The specification starts with [k] replicas that have seen everything. *)
Definition cspec_init (dd : D) (k : nat) (ms : list (N * LogMetaData G)) : CSpec D :=
  mkCSpec dd (replicate k 1) (fun _ => 0)
    (fun h => match ms !! h with
              | Some p => N.to_nat (entries_to_log_entries p.1) - GC_FROM_HEAD | None => 0 end)
    (fun _ _ => 0).

Lemma csim_init dd k ms : length ms = n -> Forall (fun p => meta_ok p.2) ms -> k <= MAX_REPLICAS_PER_LOG ->
  csim dd (logs_at k ms, rep_fresh dd (length ms) <$> seq 0 k) (cspec_init dd k ms).
Proof.
  intros Hn Hms Hk. exists [].
  assert (Hseen : forall xs r h, seen (D := D) (R := R) (logs_at k ms, xs) r h = 0).
  { intros xs r h. unfold seen, logs_at. cbn [fst]. rewrite list_lookup_fmap. destruct (ms !! h) as [p|]; [|done].
    cbn -[replicate]. destruct (replicate _ 0 !! r) as [t|] eqn:Et; [|done]. by apply lookup_replicate in Et as [-> _]. }
  split; cbn [sp_data sp_next sp_tail sp_cap sp_seen cspec_init]; try done.
  - split; cbn [fst snd]; rewrite ?length_fmap, ?length_seq; try done.
    + unfold logs_at. by rewrite length_fmap.
    + intros h l Hl. apply list_lookup_fmap_Some in Hl as (p & -> & Hp). apply logs_at_ok; [|done].
      exact (proj1 (list.Forall_lookup _ _) Hms h p Hp).
    + intros r x Hx. apply list_lookup_fmap_Some in Hx as (j & -> & [-> Hj]%lookup_seq). split; cbn [rep_fresh cr_logstate cr_contexts cr_hash cr_next].
      * by rewrite length_fmap, length_seq.
      * intros h s Hs. by apply list_lookup_fmap_Some in Hs as (i & -> & [-> Hi]%lookup_seq).
      * by rewrite length_fmap, length_seq.
      * intros t c Hc. apply list_lookup_fmap_Some in Hc as (i & -> & _). apply context_new_rep.
      * by rewrite length_replicate.
      * lia.
    + intros r x Hx. by apply list_lookup_fmap_Some in Hx as (j & -> & _).
  - cbn [snd]. rewrite <- list_fmap_compose. clear. generalize 0 at 2. induction k as [|k IH]; intros i; [done|].
    cbn. by rewrite (IH (S i)).
  - intros h l Hl. cbn [fst] in Hl. apply list_lookup_fmap_Some in Hl as (p & -> & Hp).
    rewrite Hp. cbn. by rewrite length_replicate.
Qed.

(** ** The specification and the progress together *)

Definition join (q : CSeq D) (g : CLag) : CSpec D := mkCSpec (sq_data q) (sq_next q) (lg_tail g) (lg_cap g) (lg_seen g).

Lemma join_sync q g r hs : fold_left (fun sp h => sp_mark sp r h) hs (join q g) = join q (fold_left (fun g h => lag_mark g r h) hs g).
Proof. revert g. induction hs as [|h hs IH]; intros g; [done|]. apply (IH (lag_mark g r h)). Qed.

Lemma lag_step_reps g c : lg_reps (lag_step g c) = lg_reps g.
Proof.
  destruct c as [r|r t o|r t o|r t|r t k|r]; cbn -[seq]; try done; try by destruct (sp_log _).
  clear. generalize (seq 0 n). intros hs. revert g. induction hs as [|h hs IH]; intros g; [done|]. cbn [fold_left]. by rewrite IH.
Qed.

Lemma join_step q g c q' y : lg_reps g = length (sq_next q) -> cseq_step q c = Ret (q', y) -> lag_ok g c = true ->
  cspec_step (join q g) c = Ret (join q' (lag_step g c), y) /\ length (sq_next q') = length (sq_next q).
Proof.
  intros Hk E Hok. destruct c as [r|r t o|r t o|r t|r t k|r]; cbn -[seq Nat.leb Nat.ltb] in *.
  - destruct (vget (sq_next q) r) as [k| |]; [|done|done]. cbn in *. destruct (_ <? k); injection E as <- <-; [done|]. split; [done|]. cbn. apply length_insert.
  - unfold sp_token, sp_room. cbn [sp_next sp_tail sp_seen sp_cap join]. fold (sq_token q r t). rewrite <- Hk.
    destruct (sq_token q r t); [|done]. destruct (sp_log (w_hash o n)) as [h|]; [|done]. rewrite Hok. cbn in E |- *.
    destruct (c_dispatch_mut (sq_data q) o) as [[d' v]| |]; [|done|done]. cbn in E. by injection E as <- <-.
  - unfold sp_token. cbn [sp_next join]. fold (sq_token q r t).
    destruct (sq_token q r t); [|done]. destruct (sp_log (r_hash o n)) as [h|]; [|done]. cbn in E |- *.
    destruct (c_dispatch (sq_data q) o) as [v| |]; [|done|done]. cbn in E. by injection E as <- <-.
  - unfold sp_token. cbn [sp_next join]. fold (sq_token q r t). destruct (sq_token q r t); [|done]. cbn in E. injection E as <- <-. by rewrite join_sync.
  - unfold sp_token. cbn [sp_next join]. fold (sq_token q r t). destruct (sq_token q r t && (1 <=? k) && (k <=? n)); [|done]. cbn in E. by injection E as <- <-.
  - destruct ((r <? length (sq_next q)) && (0 <? n)); [|done]. rewrite Hok. cbn in E. by injection E as <- <-.
Qed.

(** A program that never waits. *)
Lemma join_prog cs q g q' ys : lg_reps g = length (sq_next q) -> run_prog cseq_step q cs = Ret (q', ys) -> lags_ok g cs = true ->
  exists g', run_prog cspec_step (join q g) cs = Ret (join q' g', ys).
Proof.
  revert q g ys. induction cs as [|c cs IH]; intros q g ys Hk; cbn [run_prog lags_ok].
  - intros [= <- <-] _. by exists g.
  - destruct (cseq_step q c) as [[q1 y]| |] eqn:E; [|done|done]. mon. destruct (run_prog cseq_step q1 cs) as [[q2 ys']| |] eqn:E2; [|done|done]. mon.
    intros [= <- <-] [Hc Hcs]%andb_prop. destruct (join_step q g c q1 y Hk E Hc) as [-> Hl]. mon.
    destruct (IH q1 (lag_step g c) ys') as [g' ->]; [by rewrite lag_step_reps, Hl|done|done|]. mon. by exists g'.
Qed.

Definition cseq_init (dd : D) (k : nat) : CSeq D := mkCSeq dd (replicate k 1).
Definition lag_init (k : nat) (ms : list (N * LogMetaData G)) : CLag :=
  mkLag k (fun _ => 0)
    (fun h => match ms !! h with
              | Some p => N.to_nat (entries_to_log_entries p.1) - GC_FROM_HEAD | None => 0 end)
    (fun _ _ => 0).

(** On new logs and replicas such a program returns with the outputs of the specification. *)
Lemma cseq_refines dd ms k cs q ys :
  length ms = n -> Forall (fun p => meta_ok p.2) ms -> k <= MAX_REPLICAS_PER_LOG ->
  run_prog cseq_step (cseq_init dd k) cs = Ret (q, ys) -> lags_ok (lag_init k ms) cs = true ->
  exists w g, (w0 ← creplicas dd k (logs_at 0 ms, []); run_prog ccall_step w0 cs) = Ret (w, ys) /\ csim dd w (join q g).
Proof.
  intros Hn Hms Hk Hrun Hlag.
  destruct (join_prog cs (cseq_init dd k) (lag_init k ms) q ys) as [g Hrun']; [symmetry; apply length_replicate|done|done|].
  rewrite creplicas_run by done. mon.
  destruct (run_prog_sim (csim dd) ccall_step cspec_step (csim_step dd) cs _ _ _ _ (csim_init dd k ms Hn Hms Hk) Hrun') as (w & E & Hs).
  by exists w, g.
Qed.
End Refine.
