(* ===== verification/CnrTheorems.v ===== *)
(** * Properties of concurrent node replication

    The theorems about cnr/, from the lemmas of CnrLogSpec.v, CnrSpec.v and
    CnrRefine.v.  The instance [Pair] is a structure with two cells: operations on
    different cells commute, and [Clear] touches both. *)

From S2P Require Import Prelude Context Log NrLog CnrLog CnrReplica CnrLogSpec CnrCommute.
From S2P Require Import CnrSpec CnrRefine Replica NodeReplicated NodeReplicatedSpec NrTheorems.

(** ** An instance *)

Inductive pair_op := Put (k : bool) (v : nat) | Clear.

#[export] Instance Pair : CDispatch (nat * nat) bool pair_op nat := {|
  c_dispatch (d : nat * nat) (k : bool) := Ret (if k then d.2 else d.1);
  c_dispatch_mut (d : nat * nat) (o : pair_op) := match o with
    | Put false v => Ret ((v, d.2), d.1)
    | Put true v => Ret ((d.1, v), d.2)
    | Clear => Ret ((0, 0), d.1 + d.2)
    end;
  r_hash (k : bool) n := [Nat.b2n k mod n];
  w_hash (o : pair_op) n := match o with Put k _ => [Nat.b2n k mod n] | Clear => seq 0 n end;
|}.

#[export] Instance Pair_laws : LogMapperLaws (CDispatch0 := Pair) 2.
Proof.
  split.
  - intros d [[] v1|] [[] v2|] h1 h2 d1 r1 d12 r2; cbn; try done; intros [= <-] [= <-] Hne;
      intros [= <- <-] [= <- <-]; try done; by eexists.
  - intros d [[] v|] [] h hr d1 r1; cbn; try done; intros [= <-] [= <-] Hne; by intros [= <- <-].
Qed.

Definition pair_logs : list (N * LogMetaData unit) := [(0%N, lmeta_new tt 1); (0%N, lmeta_new tt 2)].
Abbreviation new_logs ms :=
  ((fun p => new_with_entries (T := pair_op) emeta_default p.1 p.2) <$> ms).

Lemma pair_logs_ok : Forall (fun p => meta_ok p.2) pair_logs.
Proof. repeat constructor; cbn; done. Qed.

(** ** Refinement *)

(** C5: a program of calls (registrations, writes, reads, synchronisations with all
    logs or one log, and [verify]; no scans) on new logs and replicas returns, and its
    outputs are those of one sequential copy of the data: every write and read sees all
    earlier writes.  It is assumed that operations mapped to different logs commute, as
    [LogMapper] asks, and that no call has to wait ([lags_ok], on the progress of the
    replicas alone): at a write no other replica is about a log's length behind in its
    log (otherwise the code may spin, [cnr_append_correct]), and [verify] is called on a
    replica that has caught up with all logs but the first, which it replays itself. *)
Theorem cnr_refines {G D RO WO R} `{!CDispatch D RO WO R} n `{!LogMapperLaws n} (dd : D)
    (ms : list (N * LogMetaData G)) k cs q ys :
  length ms = n -> Forall (fun p => meta_ok p.2) ms -> k <= MAX_REPLICAS_PER_LOG ->
  run_prog (cseq_step (R := R) n) (cseq_init dd k) cs = Ret (q, ys) ->
  lags_ok n (lag_init k ms) cs = true ->
  exists w g, (w0 ← creplicas dd k ((fun p => new_with_entries emeta_default p.1 p.2) <$> ms, []);
             run_prog ccall_step w0 cs) = Ret (w, ys) /\ csim n dd w (join q g).
Proof. exact (cseq_refines n dd ms k cs q ys). Qed.

Definition pair_calls : list (ccmd bool pair_op) :=
  [QRegister 0; QRegister 1; QWrite 0 1 (Put true 5); QWrite 1 1 (Put false 3); QRead 0 1 false;
   QRead 1 1 true; QWrite 1 1 (Put true 6); QSyncLog 0 1 2; QSync 1 1; QVerify 0].

Lemma cnr_refines_witness :
  exists w g, (w0 ← creplicas (0, 0) 2 (new_logs pair_logs, []); run_prog ccall_step w0 pair_calls)
      = Ret (w, [AToken (Some 1); AToken (Some 1); AResp 0; AResp 0; AResp 3; AResp 5; AResp 5; ADone; ADone;
                 AData (3, 6)])
    /\ csim 2 (0, 0) w (join (mkCSeq (3, 6) [2; 2]) g).
Proof.
  exact (cnr_refines 2 (0, 0) pair_logs 2 pair_calls (mkCSeq (3, 6) [2; 2]) [AToken (Some 1); AToken (Some 1); AResp 0; AResp 0;
    AResp 3; AResp 5; AResp 5; ADone; ADone; AData (3, 6)] eq_refl pair_logs_ok
    ltac:(unfold MAX_REPLICAS_PER_LOG; lia) eq_refl eq_refl).
Defined.

(** ** The log *)

(** [append] of CNR, run alone on a log with free entries, either puts exactly
    the given operations into the log and returns with the entries it replayed on
    the way applied, or it never returns; it never returns exactly if the operations
    are among the last free entries and some other replica would be a log's length
    behind, because [advance_head] waits for that replica without giving up. *)
Theorem cnr_append_correct {G T X} (g : X -> ccall T -> res X)
    (d : list (Log T (LogMetaData G) EntryMetaData) * X -> ccall T
         -> res (list (Log T (LogMetaData G) EntryMetaData) * X * bool)) li logs l hist idx t ps x x' :
  (forall logs x c, cc_is_scan c = false -> d (logs, x) c = (fun x' => (logs, x', true)) <$> g x c) ->
  logs !! li = Some l -> clog_inv l hist -> at_tail l idx t -> cdone l ->
  log_tail l <= log_head l + length (slog l) - GC_FROM_HEAD -> length ps <= GC_FROM_HEAD ->
  creplay g x (drop t (hist ++ ents idx ps)) = Ret x' ->
  let full := log_head l + length (slog l) - GC_FROM_HEAD < log_tail l + length ps in
  ((full -> room_for l idx (length ps)) ->
     exists l' t' x1, cappend (logs, x) li (writes ps) idx d = Ret (<[li := l']> logs, x1)
       /\ clog_inv l' (hist ++ ents idx ps) /\ clog_frame idx l l' /\ at_tail l' idx t' /\ t <= t'
       /\ creplay g x (take (t' - t) (drop t (hist ++ ents idx ps))) = Ret x1)
  /\ (full -> (exists k u, k <> idx - 1 /\ registered_ltails l !! k = Some u
                 /\ u + length (slog l) - GC_FROM_HEAD <= log_tail l + length ps) ->
      cappend (logs, x) li (writes ps) idx d = Spin).
Proof.
  intros Hd Hl Hinv Hat Hdone Hfit Hps Hx. cbn zeta. split.
  - intros Hroom. destruct (cappend_spec g d Hd li logs l hist idx t ps) as (l' & t' & E & Hinv' & Hf & Hat' & Hle & _); try done.
    rewrite <- (take_drop (t' - t) (drop t (hist ++ ents idx ps))), creplay_app in Hx.
    specialize (E x). destruct (creplay g x (take _ _)) as [x1| |] eqn:E1; try done.
    exists l', t', x1. split_and!; done.
  - intros Hfull (k & u & Hne & Hu & Hlag).
    by apply (cappend_blocks_spec g d Hd li logs l hist idx t ps k u) with (x' := x').
Qed.

(** A log of the smallest size, and two replicas that have seen nothing. *)
Definition new_log : Log pair_op (LogMetaData unit) EntryMetaData :=
  set_next (new_with_entries emeta_default 0 (lmeta_new tt 1)) 3.

Lemma new_log_ok : clog_ok 2 0 [] new_log.
Proof. apply (logs_at_ok (G := unit) 2 0 (0%N, lmeta_new tt 1)); [by split|unfold MAX_REPLICAS_PER_LOG; lia]. Qed.

Lemma new_log_at idx : 1 <= idx <= 2 -> at_tail new_log idx 0.
Proof.
  intros Hidx. split; [lia|]. apply registered_lookup. split; [cbn; lia|].
  apply lookup_replicate. unfold MAX_REPLICAS_PER_LOG. lia.
Qed.

Definition pair_g (x : nat * nat) (c : ccall pair_op) : res (nat * nat) := fst <$> c_dispatch_mut x (cc_op c).

Lemma cnr_append_correct_witness :
  exists l' t' x1, cappend ([new_log], (0, 0)) 0 (writes [(Put true 5, 1)]) 1
      (fun w c => (fun x' => (w.1, x', true)) <$> pair_g w.2 c) = Ret ([l'], x1)
    /\ clog_inv l' [(Put true 5, 1, 1)] /\ clog_frame 1 new_log l' /\ at_tail l' 1 t' /\ 0 <= t'
    /\ creplay pair_g (0, 0) (take (t' - 0) [(Put true 5, 1, 1)]) = Ret x1.
Proof.
  destruct (cnr_append_correct pair_g (fun w c => (fun x' => (w.1, x', true)) <$> pair_g w.2 c) 0 [new_log] new_log
              [] 1 0 [(Put true 5, 1)] (0, 0) (0, 5)) as [H _].
  - done.
  - reflexivity.
  - apply new_log_ok.
  - apply new_log_at. lia.
  - apply (clog_done _ _ _ _ new_log_ok).
  - apply new_log_ok.
  - rewrite gc_from_head_val. cbn. lia.
  - reflexivity.
  - apply H. intros Hfull. exfalso. revert Hfull. apply Nat.le_ngt.
    pose proof (clog_size_gc _ _ (lo_inv _ _ _ _ new_log_ok)). cbn [log_head log_tail new_log set_next new_with_entries length]. lia.
Defined.

(** C36: a scan deadlocks in its root log (the log with index 1).  [try_append_scan]
    reserves the entry there without filling it, which [fix_scan_entry] does later;
    if the entry is the last one before the reserve, and a replica is still at
    the head, garbage collection replays the log and waits for the entry that
    this very thread has yet to fill. *)
Theorem cnr_scan_root_deadlock {G T X} d li (logs : list (Log T (LogMetaData G) EntryMetaData)) (x : X)
    l hist idx op offsets k :
  logs !! li = Some l -> clog_inv l hist -> lm_idx (log_meta l) = 1 ->
  at_tail l idx (log_tail l) -> registered_ltails l !! k = Some (log_head l) ->
  log_tail l = log_head l + length (slog l) - GC_FROM_HEAD ->
  try_append_scan (logs, x) li op idx offsets d = Spin.
Proof.
  intros Hl Hinv Hroot Hat Hk Htail. unfold try_append_scan, get_log, put_log. cbn [fst snd].
  rewrite (vget_lookup _ _ _ Hl). mon. rewrite Htail, Nat.ltb_irrefl. cbn [set_tail log_meta].
  rewrite Hroot. cbn [Nat.eqb negb]. mon. rewrite (proj2 (Nat.ltb_lt _ _)) by lia. rewrite <- Htail.
  enough (E : cadvance_head (<[li := set_tail l (log_tail l + 1)]> logs, x) li idx d = Spin) by (by rewrite E).
  unfold cadvance_head. rewrite rloop_loopN. change (Pos.to_nat cnr_passes) with (S 63). rewrite loopN_S.
  enough (E : cadvance_body li idx d (<[li := set_tail l (log_tail l + 1)]> logs, x) = Spin) by (by rewrite E).
  by apply (cadvance_unfilled d li logs x l hist idx k).
Qed.

Lemma new_log_len : length (slog new_log) = 2048.
Proof. by vm_compute. Qed.

(** Replica 1 has filled the log up to the
    reserve, replica 2 has seen nothing. *)
Lemma filled_log : exists l hist, clog_inv l hist /\ clog_frame 1 new_log l /\ at_tail l 1 (log_tail l)
  /\ registered_ltails l !! 1 = Some (log_head l) /\ log_tail l = log_head l + length (slog l) - GC_FROM_HEAD.
Proof.
  set (ps := replicate 1024 (Put true 5, 1)).
  assert (Hlen : length ps = 1024) by apply length_replicate.
  destruct (append_exec_spec (G := unit) pair_g (fun w c => (fun x' => (w.1, x', true)) <$> pair_g w.2 c)
              ltac:(done) 0 [new_log] new_log [] 1 0 ps eq_refl (lo_inv _ _ _ _ new_log_ok) (new_log_at 1 ltac:(lia))
              (clog_done _ _ _ _ new_log_ok) (lo_fit _ _ _ _ new_log_ok)) as (l & _ & Hinv & Hf & Hat & Ht & Hfit & _).
  { by rewrite Hlen, gc_from_head_val. }
  { rewrite Hlen, new_log_len, gc_from_head_val. cbn [log_head log_tail new_log set_next new_with_entries]. lia. }
  rewrite Hlen in Ht. exists l, (ents 1 ps). pose proof (new_log_at 2 ltac:(lia)) as [_ H2]. change (2 - 1) with 1 in H2.
  apply (cframe_registered 1 new_log l) in H2; [|done|done]. pose proof (ci_ltails _ _ Hinv _ _ H2) as H2'.
  rewrite (cf_len _ _ _ Hf), new_log_len, gc_from_head_val in *. change (log_tail new_log) with 0 in Ht.
  split_and!; try done; [|lia]. rewrite H2. f_equal. lia.
Qed.

Lemma cnr_scan_root_deadlock_witness :
  exists l : Log pair_op (LogMetaData unit) EntryMetaData, try_append_scan ([l], (0, 0)) 0 (Clear, 1, false) 1 []
    (fun w c => (fun x' => (w.1, x', true)) <$> pair_g w.2 c) = Spin.
Proof.
  destruct filled_log as (l & hist & Hinv & Hf & Hat & Hk & Ht). exists l.
  apply (cnr_scan_root_deadlock _ 0 [l] (0, 0) l hist 1 (Clear, 1, false) [] 1).
  - reflexivity.
  - exact Hinv.
  - rewrite (cf_idx _ _ _ Hf). reflexivity.
  - exact Hat.
  - exact Hk.
  - exact Ht.
Defined.

(** ** Where scans and late replicas go wrong *)

(** The logs and the replicas; the data of the replicas, and how far the logs and the
    replicas in them are. *)
Abbreviation store D WO R := (list (Log WO (LogMetaData unit) EntryMetaData) * list (CReplica D WO R))%type.
Definition store_view {D WO R} (w : store D WO R) : list D * list (nat * list nat) :=
  (cr_data <$> w.2, (fun l => (log_tail l, registered_ltails l)) <$> w.1).

Section ScanOrder.
Context {D R : Type} (scan write : D -> D) (scan_resp write_resp look : D -> R).

(** A data structure with a scan, which touches all logs, and a write and a read that
    are mapped to the second of two logs. *)
#[local] Instance ScanWrite : CDispatch D unit bool R := {|
  c_dispatch (d : D) (_ : unit) := Ret (look d);
  c_dispatch_mut (d : D) (is_scan : bool) := if is_scan then Ret (scan d, scan_resp d) else Ret (write d, write_resp d);
  r_hash (_ : unit) n := [1 mod n];
  w_hash (is_scan : bool) n := if is_scan then seq 0 n else [1 mod n];
|}.

(** It keeps the contract of [LogMapper]. *)
Lemma ScanWrite_laws : LogMapperLaws (CDispatch0 := ScanWrite) 2.
Proof. split; [intros d [] [] h1 h2|intros d [] o h h2]; cbn; try done; by intros ???? [= <-] [= <-] || intros ?? [= <-] [= <-]. Qed.

(** Replica 0 scans and then writes; replica 1 reads; then both replicas synchronise
    with all logs. *)
Definition scan_program (d : D) : res (store D bool R * list R) :=
  w0 ← creplicas d 2 ((fun p => new_with_entries emeta_default p.1 p.2) <$> pair_logs, []);
  '(w1, _) ← crep_register w0 0;
  '(w2, _) ← crep_register w1 1;
  '(w3, y1) ← cexecute_mut_scan w2 0 true 1;
  '(w4, y2) ← cexecute_mut w3 0 false 1;
  '(w5, y3) ← cexecute w4 1 tt 1;
  w6 ← csync w5 0 1;
  w7 ← csync w6 1 1;
  Ret (w7, [y1; y2; y3]).

(** C35: scans can make replicas diverge, whatever the data and the operations are.  A
    leaf entry of a scan only waits until the replica has replayed the root log up to the
    scan, not past it, so a replica can apply later operations of the leaf log before
    the scan.  In this program, replica 0 scans and then writes to the leaf log, and the
    read of replica 1 applies the write without the scan, which replica 1 applies when it
    synchronises.  In the end both replicas have caught up with all logs; replica 0 holds
    the data after the scan and the write, replica 1 the data after the write and the
    scan, which differs if they do not commute, and the read has answered from the data
    without the scan. *)
Theorem cnr_scan_diverges d :
  (fun p => (store_view p.1, p.2)) <$> scan_program d
  = Ret ([write (scan d); scan (write d)], [(1, [1; 1]); (2, [2; 2])], [scan_resp d; write_resp (scan d); look (write d)]).
Proof. by vm_compute. Qed.
End ScanOrder.

(** One replica writes; then a second replica is made, and reads. *)
Definition late_program : res (store (nat * nat) pair_op nat * nat) :=
  w0 ← creplicas (0, 0) 1 (new_logs pair_logs, []);
  '(w1, _) ← crep_register w0 0;
  '(w2, _) ← cexecute_mut w1 0 (Put true 5) 1;
  w3 ← crep_new (0, 0) w2;
  '(w4, _) ← crep_register w3 1;
  cexecute w4 1 true 1.

(** A replica made after the first write cannot catch up.  Entries count the
    replicas registered when they are appended, and the last of these drops the
    operation; a replica that registers later still starts at the first entry and
    panics on the missing operation. *)
Theorem cnr_late_replica_panics :
  late_program = Panic "called `Option::unwrap()` on a `None` value".
Proof. by vm_compute. Qed.

(** ** CNR with one log is node replication *)

Section OneLog.
Context {D RO WO R : Type} `{!Dispatch D RO WO R}.

(** The same data structure, with everything mapped to the only log. *)
#[local] Instance one_log_dispatch : CDispatch D RO WO R := {|
  c_dispatch := dispatch;
  c_dispatch_mut := dispatch_mut;
  r_hash _ _ := [0];
  w_hash _ _ := [0];
|}.

#[local] Instance one_log_laws : LogMapperLaws 1.
Proof. split; cbn; congruence. Qed.

Definition cnr_call (c : call RO WO) : ccmd RO WO :=
  match c with
  | CRegister k => QRegister k
  | CWrite tkn o => QWrite (rid tkn) (rtkn tkn) o
  | CRead tkn o | CReadAnchor tkn o => QRead (rid tkn) (rtkn tkn) o
  | CSync tkn => QSync (rid tkn) (rtkn tkn)
  end.

Definition cnr_output (y : output R) : cout D R :=
  match y with
  | OTkn t => AToken (rtkn <$> t)
  | OResp r => AResp r
  | OUnit => ADone
  end.

Definition specs_agree (s : spec D) (q : CSeq D) : Prop := sq_data q = sp_data s /\ sq_next q = sp_regs s.

Lemma token_agree s q tkn : specs_agree s q -> sq_token q (rid tkn) (rtkn tkn) = sp_registered s tkn.
Proof. intros [_ E]. unfold sq_token, sp_registered. by rewrite E. Qed.

Lemma specs_step s q c q' y : specs_agree s q -> cseq_step 1 q (cnr_call c) = Ret (q', y) ->
  exists s' x, spec_call s c = Ret (s', x) /\ cnr_output x = y /\ specs_agree s' q'.
Proof.
  intros Ha. pose proof Ha as [Ed En].
  destruct c as [k|tkn o|tkn o|tkn o|tkn]; cbn; rewrite ?(token_agree s q) by done;
    try (destruct (sp_registered s tkn); [|done]); cbn.
  - rewrite En. unfold vget. destruct (sp_regs s !! k) as [m|]; [|done]. cbn.
    destruct (MAX_THREADS_PER_REPLICA <? m); intros [= <- <-]; eexists _, _; (split_and!; [done|done|]); by split; cbn.
  - rewrite Ed. destruct (dispatch_mut (sp_data s) o) as [[d' r]| |]; try done. intros [= <- <-]. eexists _, _.
    split_and!; [done|done|]. by split; cbn.
  - rewrite Ed. destruct (dispatch (sp_data s) o) as [r| |]; try done. intros [= <- <-].
    eexists _, _. split_and!; done.
  - rewrite Ed. destruct (dispatch (sp_data s) o) as [r| |]; try done. intros [= <- <-].
    eexists _, _. split_and!; done.
  - intros [= <- <-]. eexists _, _. split_and!; done.
Qed.

Lemma specs_prog cs s q q' ys : specs_agree s q ->
  run_prog (cseq_step 1) q (cnr_call <$> cs) = Ret (q', ys) ->
  exists s' xs, run_prog spec_call s cs = Ret (s', xs) /\ cnr_output <$> xs = ys.
Proof.
  revert s q ys. induction cs as [|c cs IH]; intros s q ys Ha; cbn [fmap list_fmap run_prog].
  - intros [= <- <-]. by eexists _, _.
  - destruct (cseq_step 1 q (cnr_call c)) as [[q1 y]| |] eqn:E; try done. mon.
    destruct (run_prog _ q1 _) as [[q2 ys']| |] eqn:E2; try done. mon. intros [= <- <-].
    destruct (specs_step s q c q1 y Ha E) as (s1 & x & -> & <- & Ha1). mon.
    destruct (IH s1 q1 ys' Ha1 E2) as (s2 & xs & -> & <-). mon. by eexists _, _.
Qed.

(** C20: CNR with a single log and node replication are interchangeable: the same
    program of registrations with existing replicas, writes, reads and synchronisations
    on a replicated object built by [NodeReplicated] and on the same number of CNR
    replicas of one log returns, and the outputs are the same, those of the sequential
    object.  At a write no CNR replica may be about a log's length behind ([lags_ok]);
    node replication has no such limit. *)
Theorem cnr_one_log_is_nr {A G} f (d0 : D) numa num (af : A -> AffinityChange -> res (A * N)) esize size mk mem a
    (g : G) entries cs q ys :
  makes mk d0 -> num < MAX_REPLICAS_PER_LOG -> num + 3 <= mem -> aff_safe numa (mkAff af) num a ->
  run_prog (cseq_step 1) (cseq_init d0 num) (cnr_call <$> cs) = Ret (q, ys) ->
  lags_ok 1 (lag_init num [(entries, lmeta_new g 1)]) (cnr_call <$> cs) = true ->
  exists nr a' nr' xs w, build numa num af esize size mk mem a = Ret (Ok nr, a')
    /\ run_prog (nr_call f) nr cs = Ret (nr', xs) /\ cnr_output <$> xs = ys
    /\ (w0 ← creplicas d0 num ([new_with_entries emeta_default entries (lmeta_new g 1)], []);
        run_prog ccall_step w0 (cnr_call <$> cs)) = Ret (w, ys).
Proof.
  intros Hmk Hnum Hmem Haff Hrun Hlag.
  destruct (build_run f d0 numa num af esize size mk mem a Hmk Hnum Haff) as (r & a' & E & _ & Hr).
  rewrite decide_True in Hr by done. destruct Hr as (nr & -> & Hinv & Hregs).
  destruct (specs_prog cs (mkSpec d0 (replicate num 1)) (cseq_init d0 num) q ys) as (s' & xs & Es & Hys); [done|done|].
  destruct (sim_calls f d0 cs nr (mkSpec d0 (replicate num 1)) s' xs) as (nr' & E' & _); [|done|].
  { exists [], []. by split_and!. }
  destruct (cseq_refines 1 d0 [(entries, lmeta_new g 1)] num (cnr_call <$> cs) q ys) as (w & _ & Ew & _);
    [done| |lia|done|done|].
  { constructor; [by split|constructor]. }
  by exists nr, a', nr', xs, w.
Qed.
End OneLog.

Lemma cnr_one_log_is_nr_witness :
  exists nr a' nr' xs w,
    build false 2 example_af 192 0 (fun t => replica_new t 0) 5 7%N = Ret (Ok nr, a')
    /\ run_prog (nr_call Scr) nr example_calls = Ret (nr', xs)
    /\ cnr_output (D := nat) <$> xs = [AToken (Some 1); AToken (Some 1); AResp 5; AResp 5; AResp 8; AResp 8; ADone]
    /\ (w0 ← creplicas 0 2 ([new_with_entries emeta_default 0 (lmeta_new tt 1)], []);
        run_prog (ccall_step (CDispatch0 := one_log_dispatch)) w0 (cnr_call <$> example_calls))
       = Ret (w, [AToken (Some 1); AToken (Some 1); AResp 5; AResp 5; AResp 8; AResp 8; ADone]).
Proof.
  eapply (cnr_one_log_is_nr Scr 0 false 2 example_af 192 0 (fun t => replica_new t 0) 5 7%N tt 0%N example_calls
    _ [AToken (Some 1); AToken (Some 1); AResp 5; AResp 5; AResp 8; AResp 8; ADone]).
  - exists 0%Z, 0%Z. reflexivity.
  - unfold MAX_REPLICAS_PER_LOG. lia.
  - lia.
  - apply example_af_safe.
  - reflexivity.
  - reflexivity.
Defined.
