(* ===== verification/CnrBench.v ===== *)
(** * The benchmark harness of cnr (bench_utils/src/cnr_mkbench.rs)

    The copy of the harness for replicas with several logs: strategies, the logs and
    replicas of a benchmark, the callback that names lagging replicas, the loop of a
    thread and the summary of a run.  The theorems: when a benchmark starts, that the
    callback names the same log whichever log is stuck, and which operations a thread
    executes.

    As in BenchRun, [Instant::now], the order in which a [HashMap] is iterated and the
    order that [shuffle] gives the operations are arguments. *)

From Stdlib Require Import Sorting.Permutation Sorting.Sorted.
From stdpp Require Import gmap pretty sorting.
From S2P Require Import Prelude Context Log Replica CnrLog CnrReplica CnrLogSpec CnrCommute.
From S2P Require Import CnrRefine CnrTheorems Topology Bench BenchRun BenchBuild.

(** ** Strategies *)

(** [ReplicaStrategy] of this file, with its [Display] and [Debug] forms. *)
Module CRS.
Inductive CReplicaStrategy := One | L1 | L2 | L3 | Socket | PerThread.
End CRS.
Definition crs_display (rs : CRS.CReplicaStrategy) : string :=
  match rs with
  | CRS.One => "System" | CRS.L1 => "L1" | CRS.L2 => "L2" | CRS.L3 => "L3"
  | CRS.Socket => "Socket" | CRS.PerThread => "PerThread"
  end.
Definition crs_debug (rs : CRS.CReplicaStrategy) : string := "RS=" +:+ crs_display rs.
(** [LogStrategy] is the same as in mkbench.rs, without [Display]. *)
Definition cls_debug (ls : LS.LogStrategy) : string :=
  match ls with
  | LS.One => "LS=System" | LS.PerThread => "LS=PerThread" | LS.Custom v => "LS=Custom(" +:+ pretty v +:+ ")"
  end.

Definition cnr_replica_core_allocation (interleave : list CpuInfo -> list CpuInfo -> list CpuInfo)
    (topology : MachineTopology) (rs : CRS.CReplicaStrategy) (tm : ThreadMapping) (ts : nat) : res rmap :=
  let cpus := allocate interleave topology tm ts true in
  match rs with
  | CRS.One => Ret {[ 0%N := map cpu cpus ]}
  | CRS.Socket => group Ret socket cpus
  | CRS.L1 =>
      match tm with
      | TMNone => Ret ∅
      | Sequential => group Ret l1 cpus
      | Interleave | NUMA => group (fun s => unwrap ((number_caches cpus).1 !! s)) l1 cpus
      end
  | CRS.L2 => group Ret l2 cpus
  | CRS.L3 => group Ret l3 cpus
  | CRS.PerThread =>
      Ret (foldl (fun (rm : rmap) '(idx, c) => <[idx := [cpu c]]> rm) ∅ (imap (fun i c => (N.of_nat i, c)) cpus))
  end.

(** The strategy of mkbench.rs with the same name. *)
Definition as_rs (rs : CRS.CReplicaStrategy) : RS.ReplicaStrategy :=
  match rs with
  | CRS.One => RS.One | CRS.L1 => RS.L1 | CRS.L2 => RS.L2 | CRS.L3 => RS.L3
  | CRS.Socket => RS.Socket | CRS.PerThread => RS.PerThread
  end.

(** The CPUs are divided as by mkbench.rs, and also for [L1] with the mapping [NUMA]. *)
Lemma cnr_allocation_divides interleave topo rs tm ts : exists rm, cnr_replica_core_allocation interleave topo rs tm ts = Ret rm
  /\ allocated (as_rs rs) tm (allocate interleave topo tm ts true) rm.
Proof.
  assert (H : (rs = CRS.L1 /\ tm = NUMA) \/ ~ (as_rs rs = RS.L1 /\ tm = NUMA)) by (destruct rs, tm; cbn; (by left) || (right; by intros [? ?])).
  destruct H as [[-> ->]|Hne].
  - cbn. destruct (interleave_ids (allocate interleave topo NUMA ts true)) as (rm & E & Hc & Hd). exists rm. split; [done|by apply dense_allocated].
  - destruct (allocation_divides interleave topo (as_rs rs) tm ts Hne) as (rm & E & Ha & _).
    exists rm. split; [|done]. rewrite <- E. destruct rs, tm; try done. by destruct Hne.
Qed.

(** ** Logs and replicas *)

Definition num_logs (ls : LS.LogStrategy) (ts : nat) : nat :=
  match ls with LS.One => 1 | LS.PerThread => ts | LS.Custom v => N.to_nat v end.

Section Cnr.
Context {D RO WO R : Type} `{!CDispatch D RO WO R}.

(** What [stuck] holds: for each replica the log that waits for it, or 0. *)
Abbreviation stuck_logs := (list nat).
Abbreviation CLog := (Log WO (LogMetaData stuck_logs) EntryMetaData).
Abbreviation CRep := (CReplica D WO R).
Abbreviation cstore := (list CLog * list CRep)%type.

(** The logs that [configure] makes. *)
Definition bench_logs (ls : LS.LogStrategy) (ts : nat) (esize log_size : N) : list CLog :=
  replicate (num_logs ls ts) (new_with_bytes emeta_default esize log_size (lmeta_default (replicate MAX_REPLICAS_PER_LOG 0))).

(** The callback that [startup] gives to each log, on the array [stuck] that they share; a
    weak compare-exchange succeeds. *)
Definition stuck_callback (stuck : stuck_logs) (rid : list bool) (idx : nat) : stuck_logs * list bool :=
  foldl (fun '(stuck, rid) replica =>
    match rid !! replica with
    | Some true =>
        (match stuck !! replica with Some 0 => <[replica := idx]> stuck | _ => stuck end, <[replica := false]> rid)
    | _ => (stuck, rid)
    end) (stuck, rid) (seq 0 MAX_REPLICAS_PER_LOG).

(** One array [stuck] for the callbacks of all logs; it is returned beside them.  What a
    log holds as the state of its callback is the array as the log has last seen it. *)
Definition set_callbacks (logs : list CLog) : stuck_logs * list CLog :=
  let stuck := replicate MAX_REPLICAS_PER_LOG 0 in
  (stuck, map (fun l => update_closure l stuck_callback stuck) logs).

(** Log [h] calls its callback, on the array that all logs share. *)
Definition shared_gc (s : stuck_logs * list CLog) (h : nat) : res (stuck_logs * list CLog) :=
  let '(stuck, logs) := s in
  l ← vget logs h;
  let l' := run_gc (update_closure l (lm_gc (log_meta l)) stuck) in
  Ret (lm_gc_state (log_meta l'), <[h := l']> logs).

(** A thread of replica [rid] looks at the array after a batch, and takes the log that it
    has to synchronise, or 0. *)
Definition stuck_check (stuck : stuck_logs) (rid : nat) : res (nat * stuck_logs) :=
  log_id ← vget stuck rid;
  if log_id =? 0 then Ret (log_id, stuck)
  else stuck' ← vset stuck rid 0; Ret (log_id, stuck').

Variable into_iter : rmap -> list (N * list N).

(** [alloc_replicas]: the replicas in the order of their numbers, as positions in the
    store; [dd] is [D::default()]. *)
Definition alloc_replica (dd : D) (s : cstore * list (N * nat)) (p : N * list N) : res (cstore * list (N * nat)) :=
  let '(w, handles) := s in
  let '(rid, cores) := p in
  _core0 ← vget cores 0;
  w' ← crep_new dd w;
  Ret (w', handles ++ [(rid, length w.2)]).
Definition alloc_replicas (dd : D) (rm : rmap) (w : cstore) : res (cstore * list nat) :=
  '(w, handles) ← foldM (alloc_replica dd) (w, []) (into_iter rm);
  Ret (w, map snd (sort_by (fun a b => (a.1 <=? b.1)%N) handles)).

(** A thread: its replica, as number and as position, and its CPU. *)
Record cworker := mkCWorker { cw_tid : nat; cw_rid : N; cw_core : N; cw_replica : nat }.

(** [startup]: the replicas, the array [stuck], the number of threads that the barrier
    waits for, and the threads. *)
Definition cnr_startup (dd : D) (rm : rmap) (logs : list CLog) : res (cstore * stuck_logs * nat * list cworker) :=
  let '(stuck, logs) := set_callbacks logs in
  '(w, replicas) ← alloc_replicas dd rm (logs, []);
  ws ← foldM (fun ws '(rid, cores) =>
         foldM (fun ws core_id =>
           replica ← vget replicas (N.to_nat rid);
           Ret (ws ++ [mkCWorker (length ws) rid core_id replica])) ws cores) [] (into_iter rm);
  Ret (w, stuck, rm_threads rm, ws).

Definition cworker_register (w : cstore) (replica : nat) : res (nat * cstore) :=
  '(w', t) ← crep_register w replica;
  match t with Some tkn => Ret (tkn, w') | None => Panic "Can't register replica, out of slots?" end.
Definition register_cworkers (w : cstore) (ws : list cworker) : res (cstore * list nat) :=
  foldM (fun '(w, tkns) c => '(tkn, w') ← cworker_register w (cw_replica c); Ret (w', tkns ++ [tkn])) (w, []) ws.

(** *** Replicas *)

Section Start.
Context (ls : LS.LogStrategy) (ts : nat) (esize log_size : N) (dd : D).
Abbreviation metas := (replicate (num_logs ls ts)
  (bytes_to_log_entries esize log_size,
   mkLMeta 1 0 stuck_callback (replicate MAX_REPLICAS_PER_LOG 0) true (replicate MAX_REPLICAS_PER_LOG false))).
Abbreviation store_at k := ((logs_at k metas : list CLog, rep_fresh dd (num_logs ls ts) <$> seq 0 k) : cstore).

Lemma bench_logs_at : set_callbacks (bench_logs ls ts esize log_size) = (replicate MAX_REPLICAS_PER_LOG 0, logs_at 0 metas).
Proof. unfold set_callbacks, bench_logs, logs_at. cbv zeta. f_equal. induction (num_logs ls ts) as [|n IH]; [done|]. cbn in *. by rewrite IH. Qed.

Lemma crep_new_at k : S k <= MAX_REPLICAS_PER_LOG -> crep_new dd (store_at k) = Ret (store_at (S k)).
Proof.
  intros Hk. pose proof (creplicas_run (WO := WO) (R := R) dd (S k) metas Hk) as E. unfold creplicas in E. rewrite seq_S, foldM_app in E.
  fold (creplicas (R := R) (WO := WO) dd k (logs_at 0 metas, [])) in E. rewrite creplicas_run in E by lia.
  rewrite length_replicate in E. cbn [mbind res_bind foldM] in E. rewrite <- (seq_S k 0) in E.
  destruct (crep_new dd _) eqn:En; cbn [mbind res_bind] in E; [congruence|done|done].
Qed.

Lemma alloc_fold l : forall k handles, k + length l <= MAX_REPLICAS_PER_LOG -> Forall (fun p => p.2 <> []) l ->
  foldM (alloc_replica dd) (store_at k, handles) l
  = Ret (store_at (k + length l), handles ++ zip (map fst l) (seq k (length l))).
Proof.
  induction l as [|[rid cores] l IH]; intros k handles Hk Hl; [cbn; by rewrite Nat.add_0_r, app_nil_r|].
  apply list.Forall_cons in Hl as [Hc Hl]. cbn in Hk. cbn [foldM alloc_replica]. destruct cores as [|c cores]; [done|].
  rewrite (vget_lookup _ 0 c) by done. cbn [mbind res_bind]. rewrite crep_new_at by lia. cbn [mbind res_bind].
  rewrite IH by (lia || done). cbn [snd length map fst seq zip zip_with]. rewrite length_fmap, length_seq, <- app_assoc.
  by replace (S k + length l) with (k + S (length l)) by lia.
Qed.
End Start.

(** Sorting the handles puts the replica of the number [r] at the position [r]. *)
Lemma sorted_positions (hs : list (N * nat)) r i : NoDup (map fst hs) -> Forall (fun h => (h.1 < N.of_nat (length hs))%N) hs ->
  (r, i) ∈ hs -> map snd (sort_by (fun a b => (a.1 <=? b.1)%N) hs) !! N.to_nat r = Some i.
Proof.
  intros Hnd Hlt Hin. set (so := sort_by _ hs).
  assert (Hp : so ≡ₚ hs) by apply sort_by_perm.
  assert (Hs : StronglySorted N.le (map fst so)).
  { assert (H : StronglySorted (fun a b => (a.1 <= b.1)%N) so).
    { apply sort_by_sorted; [intros x y z; lia|intros x y ?%N.leb_le; done|intros x y ?%N.leb_gt; lia]. }
    clear -H. induction H as [|x l Hl IH Hx]; cbn; constructor; [done|]. apply list.Forall_fmap. done. }
  assert (Heq : map fst so = map N.of_nat (seq 0 (length hs))).
  { apply (StronglySorted_unique N.le); [done| |].
    - clear. assert (H : forall n k, StronglySorted N.le (map N.of_nat (seq k n))); [|apply H]. induction n as [|n IH]; intros k; cbn; constructor; [done|].
      apply list.Forall_forall. intros x (y & -> & Hy%elem_of_seq)%list_elem_of_fmap. lia.
    - apply submseteq_length_Permutation; [|by rewrite !length_map, length_seq, (Permutation_length Hp)].
      apply NoDup_submseteq; [by rewrite Hp|]. intros x Hx. rewrite Hp in Hx. apply list_elem_of_fmap in Hx as (h & -> & Hh).
      rewrite list.Forall_forall in Hlt. specialize (Hlt h Hh). apply list_elem_of_fmap. exists (N.to_nat h.1). rewrite elem_of_seq. lia. }
  assert (Hso : (r, i) ∈ so) by (by rewrite Hp). apply list_elem_of_lookup in Hso as (j & Hj).
  assert (Hr : map fst so !! j = Some r) by (rewrite list_lookup_fmap, Hj; done).
  rewrite Heq, list_lookup_fmap in Hr. destruct (seq 0 (length hs) !! j) as [j'|] eqn:Ej; [|done]. apply lookup_seq in Ej as [-> _].
  injection Hr as <-. rewrite Nat2N.id. cbn. by rewrite list_lookup_fmap, Hj.
Qed.

(** *** Threads *)

Lemma spawn_cnr (replicas : list nat) (pos : N -> nat) l : (forall r cores, (r, cores) ∈ l -> replicas !! N.to_nat r = Some (pos r)) ->
  exists ws, foldM (fun ws '(rid, cores) => foldM (fun ws core_id => replica ← vget replicas (N.to_nat rid);
      Ret (ws ++ [mkCWorker (length ws) rid core_id replica])) ws cores) [] l = Ret ws
    /\ map (fun c => (cw_rid c, cw_core c)) ws = places l /\ Forall (fun c => cw_replica c = pos (cw_rid c)) ws.
Proof.
  intros Hpos.
  assert (Hcores : forall r cores ws, replicas !! N.to_nat r = Some (pos r) ->
    exists ws', foldM (fun ws core_id => replica ← vget replicas (N.to_nat r); Ret (ws ++ [mkCWorker (length ws) r core_id replica])) ws cores = Ret (ws ++ ws')
      /\ map (fun c => (cw_rid c, cw_core c)) ws' = map (pair r) cores /\ Forall (fun c => cw_replica c = pos (cw_rid c)) ws').
  { clear. intros r cores ws Hr. rewrite (vget_lookup _ _ _ Hr). cbn [mbind res_bind]. revert ws.
    induction cores as [|c cores IH]; intros ws; [exists []; by rewrite app_nil_r|]. cbn [foldM mbind res_bind].
    destruct (IH (ws ++ [mkCWorker (length ws) r c (pos r)])) as (ws' & E & Hm & Hf).
    exists (mkCWorker (length ws) r c (pos r) :: ws'). rewrite E, <- app_assoc. cbn. by rewrite Hm, list.Forall_cons. }
  assert (Hall : forall ws, exists ws', foldM (fun ws '(rid, cores) => foldM (fun ws core_id => replica ← vget replicas (N.to_nat rid);
      Ret (ws ++ [mkCWorker (length ws) rid core_id replica])) ws cores) ws l = Ret (ws ++ ws')
    /\ map (fun c => (cw_rid c, cw_core c)) ws' = places l /\ Forall (fun c => cw_replica c = pos (cw_rid c)) ws').
  { induction l as [|[r cores] l IH]; intros ws; [exists []; by rewrite app_nil_r|]. cbn [foldM].
    destruct (Hcores r cores ws) as (w1 & E1 & Hm1 & Hf1); [eapply Hpos; by left|]. rewrite E1. cbn [mbind res_bind].
    destruct (IH (fun r' cores' H => Hpos r' cores' (list_elem_of_further _ _ _ H)) (ws ++ w1)) as (w2 & E2 & Hm2 & Hf2). rewrite E2, <- app_assoc.
    exists (w1 ++ w2). unfold places in *. cbn. by rewrite map_app, Hm1, Hm2, list.Forall_app. }
  destruct (Hall []) as (ws & E & H). by exists ws.
Qed.

Lemma cworker_registers w l k n : cr_next <$> w.2 = l -> l !! k = Some n -> n <= MAX_THREADS_PER_REPLICA ->
  exists w', cworker_register w k = Ret (n, w') /\ cr_next <$> w'.2 = <[k := n + 1]> l.
Proof.
  intros <- Hk Hn. apply list_lookup_fmap_Some in Hk as (x & -> & Hx). unfold cworker_register, crep_register, get_rep.
  rewrite (vget_lookup _ _ _ Hx). cbn [mbind res_bind]. destruct (Nat.ltb_spec MAX_THREADS_PER_REPLICA (cr_next x)); [lia|].
  cbn [mbind res_bind]. eexists. split; [done|]. cbn. by rewrite list_fmap_insert.
Qed.

(** Where the replica of a number is, after [alloc_replicas]. *)
Definition positions (l : list (N * list N)) : list nat :=
  map snd (sort_by (fun a b => (a.1 <=? b.1)%N) (zip (map fst l) (seq 0 (length l)))).
Definition pos (l : list (N * list N)) (r : N) : nat := default 0 (positions l !! N.to_nat r).

Lemma positions_at (l : list (N * list N)) : NoDup (map fst l) -> Forall (fun p => (p.1 < N.of_nat (length l))%N) l ->
  forall j r, map fst l !! j = Some r -> positions l !! N.to_nat r = Some j.
Proof.
  intros Hnd Hf j r Hj. set (hs := zip (map fst l) (seq 0 (length l))).
  assert (Hhs : map fst hs = map fst l) by (unfold hs; apply fst_zip; by rewrite length_map, length_seq).
  assert (Hlh : length hs = length l) by (by rewrite <- (length_map fst hs), Hhs, length_map).
  apply sorted_positions; fold hs.
  - by rewrite Hhs.
  - rewrite Hlh. apply list.Forall_forall. intros h Hh. assert (Hr : h.1 ∈ map fst l) by (rewrite <- Hhs; by apply list_elem_of_fmap_2).
    apply list_elem_of_fmap in Hr as (p & -> & Hp). rewrite list.Forall_forall in Hf. by apply Hf.
  - apply list_elem_of_lookup. exists j. unfold hs. apply lookup_zip_Some. split; [done|]. apply lookup_seq. split; [done|].
    apply lookup_lt_Some in Hj. by rewrite length_map in Hj.
Qed.

Lemma positions_inj l : NoDup (map fst l) -> Forall (fun p => (p.1 < N.of_nat (length l))%N) l ->
  (forall r, r ∈ map fst l -> positions l !! N.to_nat r = Some (pos l r) /\ pos l r < length l)
  /\ forall r r', r ∈ map fst l -> r' ∈ map fst l -> pos l r = pos l r' -> r = r'.
Proof.
  intros Hnd Hf. pose proof (positions_at l Hnd Hf) as Hat.
  assert (H : forall r, r ∈ map fst l -> positions l !! N.to_nat r = Some (pos l r) /\ map fst l !! pos l r = Some r).
  { intros r (j & Hj)%list_elem_of_lookup. specialize (Hat j r Hj). unfold pos. by rewrite Hat. }
  split.
  - intros r Hr. destruct (H r Hr) as [H1 H2]. split; [done|]. apply lookup_lt_Some in H2. by rewrite length_map in H2.
  - intros r r' Hr Hr' E. destruct (H r Hr) as [_ H1], (H r' Hr') as [_ H2]. congruence.
Qed.

Lemma fresh_regs (f : nat -> CRep) n : (forall k, cr_next (f k) = 1) -> cr_next <$> (f <$> seq 0 n) = replicate n 1.
Proof.
  intros Hf. rewrite <- list_fmap_compose. assert (H : forall k, cr_next ∘ f <$> seq k n = replicate n 1); [|apply H].
  induction n as [|n IH]; intros k; [done|]. cbn. f_equal; [apply Hf|apply IH].
Qed.

(** Threads whose replicas are at the positions of their numbers. *)
Lemma register_positions l w ws : NoDup (map fst l) -> Forall (fun p => length p.2 <= MAX_THREADS_PER_REPLICA /\ (p.1 < N.of_nat (length l))%N) l ->
  cr_next <$> w.2 = replicate (length l) 1 -> map (fun c => (cw_rid c, cw_core c)) ws ≡ₚ places l ->
  Forall (fun c => cw_replica c = pos l (cw_rid c)) ws ->
  exists w' tkns, register_cworkers w ws = Ret (w', tkns) /\ NoDup (zip (map cw_replica ws) tkns).
Proof.
  intros Hnd Hf Hw Hm Hpos. destruct (positions_inj l Hnd) as [Hlt Hinj]; [eapply list.Forall_impl; [exact Hf|]; by intros [? ?] (? & ?)|].
  set (g := fun k => pos l (N.of_nat k)). set (ks := map cw_replica ws).
  assert (Hks : ks ≡ₚ map g (thread_rids l)).
  { rewrite <- places_rids, <- Hm, !map_map. unfold ks, g. erewrite (map_ext_in cw_replica); [done|]. intros c Hc%list_elem_of_In.
    rewrite list.Forall_forall in Hpos. rewrite (Hpos c Hc). cbn. by rewrite N2Nat.id. }
  assert (Hrids : forall k, k ∈ thread_rids l -> N.of_nat k ∈ map fst l).
  { intros k Hk. unfold thread_rids in Hk. apply list_elem_of_In, in_concat in Hk as (x & Hx%list_elem_of_In & Hk%list_elem_of_In).
    apply list_elem_of_fmap in Hx as ([r cores] & -> & Hx). apply elem_of_replicate in Hk as [-> _]. rewrite N2Nat.id. by apply (list_elem_of_fmap_2 fst) in Hx. }
  destruct (register_each cworker_register (fun w l => cr_next <$> w.2 = l) (fun _ n => n) MAX_THREADS_PER_REPLICA cworker_registers ks w (replicate (length l) 1) [])
    as (w' & ns & E & Hlen & Hz & _); [done|..].
  - intros p n [-> _]%lookup_replicate. rewrite (occ_perm _ _ _ Hks). destruct (decide (p ∈ map g (thread_rids l))) as [Hp|Hp].
    + apply list_elem_of_fmap in Hp as (k & -> & Hk). rewrite occ_map, Nat.add_comm.
      * apply Nat.add_le_mono_r, occ_rids; [done|]. eapply list.Forall_impl; [exact Hf|]. by intros [? ?] (? & ?).
      * intros k' Hk' Eg. apply Nat2N.inj, Hinj; auto.
    + unfold occ. rewrite (proj1 (count_occ_not_In Nat.eq_dec _ _)); [lia|]. by rewrite <- list_elem_of_In.
  - apply list.Forall_forall. intros p Hp. rewrite length_replicate. rewrite Hks in Hp. apply list_elem_of_fmap in Hp as (k & -> & Hk). by apply Hlt, Hrids.
  - assert (Hns : zip_with (fun _ n => n) ks ns = ns).
    { clear -Hlen. revert ns Hlen. induction ks as [|k ks IH]; intros [|n ns] H; cbn; try done. f_equal. apply IH. cbn in H. lia. }
    exists w', ns. split; [|done]. rewrite Hns in E. etransitivity; [|exact E]. unfold ks. rewrite <- foldM_map. apply foldM_ext. by intros [].
Qed.

(** A benchmark of cnr starts.  If the replicas are numbered without gaps, each has a
    CPU and not more than it has slots, and they are not too many for a log, then
    [startup] builds a replica for each number and spawns one thread for every CPU, as
    many as the barrier waits for; threads of the same number share a replica, threads
    of different numbers do not, and in whatever order they register each gets a token
    of its own. *)
Theorem cnr_benchmark_starts ls ts esize log_size dd rm :
  (forall m, into_iter m ≡ₚ map_to_list m) -> registrable rm -> rm_replicas rm <= MAX_REPLICAS_PER_LOG ->
  (forall r cores, rm !! r = Some cores -> cores <> [] /\ length cores <= MAX_THREADS_PER_REPLICA) ->
  exists w ws, cnr_startup dd rm (bench_logs ls ts esize log_size) = Ret (w, replicate MAX_REPLICAS_PER_LOG 0, length ws, ws)
    /\ map (fun c => (cw_rid c, cw_core c)) ws ≡ₚ places (map_to_list rm)
    /\ (forall c c', c ∈ ws -> c' ∈ ws -> (cw_replica c = cw_replica c' <-> cw_rid c = cw_rid c'))
    /\ forall ws', ws' ≡ₚ ws -> exists w' tkns, register_cworkers w ws' = Ret (w', tkns) /\ NoDup (zip (map cw_replica ws') tkns).
Proof.
  intros Hiter Hreg Hmax Hcores. set (l := into_iter rm). pose proof (Hiter rm) as Hl. fold l in Hl.
  assert (Hnd : NoDup (map fst l)) by (rewrite Hl; apply NoDup_fst_map_to_list).
  assert (Hlen : length l = rm_replicas rm) by (rewrite Hl; apply length_map_to_list).
  assert (Hf : Forall (fun p => p.2 <> [] /\ length p.2 <= MAX_THREADS_PER_REPLICA /\ (p.1 < N.of_nat (length l))%N) l).
  { apply list.Forall_forall. intros [r cores] Hin. rewrite Hl in Hin. apply elem_of_map_to_list in Hin. destruct (Hcores _ _ Hin).
    split_and!; [done|done|]. cbn. rewrite Hlen. apply Hreg. by eexists. }
  assert (Hf3 : Forall (fun p => (p.1 < N.of_nat (length l))%N) l) by (eapply list.Forall_impl; [exact Hf|]; by intros [? ?] (? & ? & ?)).
  destruct (positions_inj l Hnd Hf3) as [Hpos Hinj].
  unfold cnr_startup, alloc_replicas. fold l. rewrite bench_logs_at.
  pose proof (alloc_fold ls ts esize log_size dd l 0 []) as Ea. cbn [seq fmap list_fmap Nat.add app] in Ea. rewrite Ea; clear Ea; [|lia|eapply list.Forall_impl; [exact Hf|]; by intros [? ?] (? & ? & ?)].
  cbn [mbind res_bind]. fold (positions l). destruct (spawn_cnr (positions l) (pos l) l) as (ws & Es & Hm & Hw).
  { intros r cores Hin. apply Hpos. by apply (list_elem_of_fmap_2 fst) in Hin. }
  rewrite Es. cbn [mbind res_bind]. eexists _, ws.
  assert (Hrid : forall c, c ∈ ws -> cw_rid c ∈ map fst l).
  { intros c Hc. assert (Hp : (cw_rid c, cw_core c) ∈ places l) by (rewrite <- Hm; by apply (list_elem_of_fmap_2 (fun c => (cw_rid c, cw_core c)))).
    unfold places in Hp. apply list_elem_of_In, in_concat in Hp as (x & Hx%list_elem_of_In & Hp%list_elem_of_In).
    apply list_elem_of_fmap in Hx as ([r cores] & -> & Hx). apply list_elem_of_fmap in Hp as (c0 & [= -> _] & _).
    by apply (list_elem_of_fmap_2 fst) in Hx. }
  rewrite list.Forall_forall in Hw. split_and!.
  - do 3 f_equal. rewrite rm_threads_cpus. unfold rm_cpus. rewrite <- Hl, <- places_cores, <- Hm, !length_map. done.
  - rewrite Hm. unfold places. by rewrite Hl.
  - intros c c' Hc Hc'. rewrite (Hw c Hc), (Hw c' Hc'). split; [|congruence]. apply Hinj; by apply Hrid.
  - intros ws' Hp. apply (register_positions l); [done| | |by rewrite Hp, Hm|].
    + eapply list.Forall_impl; [exact Hf|]. by intros [? ?] (? & ? & ?).
    + by apply fresh_regs.
    + apply list.Forall_forall. intros c Hc. rewrite Hp in Hc. auto.
Qed.
End Cnr.

(** ** Lagging replicas *)

Lemma stuck_callback_at stuck dr idx r v : stuck !! r = Some v -> dr !! r = Some true -> r < MAX_REPLICAS_PER_LOG ->
  (stuck_callback stuck dr idx).1 !! r = Some (if v =? 0 then idx else v).
Proof.
  intros Hs Hd Hr. unfold stuck_callback.
  set (step := fun '(stuck, rid) replica => _).
  assert (H : forall n, let '(s, d) := foldl step (stuck, dr) (seq 0 n) in
    if r <? n then s !! r = Some (if v =? 0 then idx else v) else s !! r = Some v /\ d !! r = Some true).
  { induction n as [|n IH]; [done|]. rewrite seq_S, foldl_app. cbn [foldl Nat.add]. destruct (foldl step (stuck, dr) (seq 0 n)) as [s d]. cbn [step].
    destruct (decide (n = r)) as [->|Hne].
    - rewrite Nat.ltb_irrefl in IH. destruct IH as [H1 H2]. rewrite H1, H2. rewrite (proj2 (Nat.ltb_lt r (S r))) by lia.
      destruct v; cbn; [|done]. apply list_lookup_insert_eq. by eapply lookup_lt_Some.
    - replace (r <? S n) with (r <? n) by (destruct (Nat.ltb_spec r n), (Nat.ltb_spec r (S n)); lia || done).
      destruct (d !! n) as [[]|]; [|done|done]. destruct (s !! n) as [[]|]; rewrite ?list_lookup_insert_ne by done; done. }
  specialize (H MAX_REPLICAS_PER_LOG). destruct (foldl step (stuck, dr) (seq 0 MAX_REPLICAS_PER_LOG)) as [s d]. cbn [fst].
  by rewrite (proj2 (Nat.ltb_lt _ _) Hr) in H.
Qed.

(** The callback stores nothing but the index. *)
Lemma stuck_callback_all (P : nat -> Prop) stuck dr idx : P idx -> Forall P stuck ->
  Forall P (stuck_callback stuck dr idx).1 /\ length (stuck_callback stuck dr idx).1 = length stuck.
Proof.
  intros Hi. unfold stuck_callback. generalize (seq 0 MAX_REPLICAS_PER_LOG). intros rs. revert stuck dr.
  induction rs as [|r rs IH]; intros stuck dr Hs; [done|]. cbn [foldl]. destruct (dr !! r) as [[]|]; [|by apply IH|by apply IH].
  destruct (stuck !! r) as [[|n]|]; [|by apply IH|by apply IH].
  destruct (IH (<[r := idx]> stuck) (<[r := false]> dr)) as [H1 H2]; [by apply list.Forall_insert|]. by rewrite length_insert in H2.
Qed.

Section Stuck.
Context {WO : Type}.
Abbreviation StuckLog := (Log WO (LogMetaData (list nat)) EntryMetaData).

(** What happens to the shared array and the logs: a log calls back, a thread looks at
    the array, and a log changes in any other way (its entries, its tails, the flags of
    the lagging replicas), which keeps its index and its callback. *)
Inductive stuck_step (s : list nat * list StuckLog) : list nat * list StuckLog -> Prop :=
| stuck_by_log h s' : shared_gc s h = Ret s' -> stuck_step s s'
| stuck_by_thread rid log_id stuck' : stuck_check s.1 rid = Ret (log_id, stuck') -> stuck_step s (stuck', s.2)
| stuck_by_other h l l' : s.2 !! h = Some l -> lm_idx (log_meta l') = lm_idx (log_meta l) -> lm_gc (log_meta l') = lm_gc (log_meta l) ->
    stuck_step s (s.1, <[h := l']> s.2).

Definition first_or_none (n : nat) : Prop := n = 0 \/ n = 1.
Definition stuck_inv (s : list nat * list StuckLog) : Prop :=
  Forall first_or_none s.1 /\ length s.1 = MAX_REPLICAS_PER_LOG
  /\ Forall (fun l => lm_idx (log_meta l) = 1 /\ lm_gc (log_meta l) = stuck_callback) s.2.

Lemma shared_gc_run (stuck : list nat) (logs : list StuckLog) h l : logs !! h = Some l -> lm_idx (log_meta l) = 1 -> lm_gc (log_meta l) = stuck_callback ->
  exists l', shared_gc (stuck, logs) h = Ret ((stuck_callback stuck (lm_dormant (log_meta l)) 1).1, <[h := l']> logs)
    /\ lm_idx (log_meta l') = 1 /\ lm_gc (log_meta l') = stuck_callback.
Proof.
  intros Hl Hidx Hgc. unfold shared_gc. rewrite (vget_lookup _ _ _ Hl). cbn [mbind res_bind]. unfold run_gc, update_closure. cbn [log_meta set_meta lm_gc lm_gc_state lm_dormant lm_idx].
  rewrite Hidx, Hgc. destruct (stuck_callback stuck (lm_dormant (log_meta l)) 1) as [g dr] eqn:E. eexists. split_and!; cbn; done.
Qed.

Lemma stuck_inv_step s s' : stuck_inv s -> stuck_step s s' -> stuck_inv s'.
Proof.
  destruct s as [stuck logs]. intros (Hs & Hlen & Hl) Hstep. cbn [fst snd] in *. destruct Hstep as [h s' E|rid log_id stuck' E|h l l' E Hi Hg]; cbn [fst snd] in *.
  - unfold shared_gc in E. destruct (vget logs h) as [l| |] eqn:El; [|done|done]. apply vget_ret in El.
    destruct (proj1 (list.Forall_lookup _ _) Hl h l El) as [Hidx Hgc]. destruct (shared_gc_run stuck logs h l El Hidx Hgc) as (l' & E' & Hl').
    unfold shared_gc in E'. rewrite (vget_lookup _ _ _ El) in E'. rewrite E' in E. injection E as <-.
    destruct (stuck_callback_all first_or_none stuck (lm_dormant (log_meta l)) 1) as [H1 H2]; [by right|done|].
    split_and!; [done|exact (eq_trans H2 Hlen)|]. by apply list.Forall_insert.
  - unfold stuck_check, vset in E. destruct (vget stuck rid) as [n| |]; [|done|done]. cbn in E. destruct (n =? 0); [by injection E as <- <-|].
    destruct (decide _); [|done]. injection E as <- <-. split_and!; [apply list.Forall_insert; [done|by left]|exact (eq_trans (length_insert _ _ _) Hlen)|done].
  - split_and!; [done|done|]. apply list.Forall_insert; [done|]. rewrite Hi, Hg. by apply (proj1 (list.Forall_lookup _ _) Hl h l).
Qed.

Lemma stuck_inv_init ls ts esize log_size : stuck_inv (set_callbacks (bench_logs ls ts esize log_size)).
Proof.
  unfold stuck_inv, set_callbacks, bench_logs. cbv zeta. cbn [fst snd]. split_and!.
  - apply list.Forall_replicate. by left.
  - apply length_replicate.
  - apply list.Forall_forall. intros l (l0 & -> & Hl)%list_elem_of_fmap. by apply elem_of_replicate in Hl as [-> _].
Qed.

(** C33: The callbacks name the first log, whichever log is stuck.  [configure] builds all
    logs with [LogMetaData::default], which has the index 1.  In whatever order the logs
    call back, the threads look at the array that the callbacks share and the logs go
    on, the array holds only 0 and 1, so that a thread is only ever told to synchronise
    log 1; and when any log calls back, every replica [r] that it has marked as lagging is
    told so. *)
Theorem stuck_log_is_first ls ts esize log_size s :
  rtc stuck_step (set_callbacks (bench_logs ls ts esize log_size)) s ->
  (forall rid log_id stuck', stuck_check s.1 rid = Ret (log_id, stuck') -> log_id = 0 \/ log_id = 1)
  /\ forall h l r, s.2 !! h = Some l -> lm_dormant (log_meta l) !! r = Some true -> r < MAX_REPLICAS_PER_LOG ->
     exists s', shared_gc s h = Ret s' /\ s'.1 !! r = Some 1.
Proof.
  intros Hr. assert (Hinv : stuck_inv s).
  { revert Hr. generalize (set_callbacks (bench_logs (WO := WO) ls ts esize log_size)) as s0, (stuck_inv_init ls ts esize log_size).
    intros s0 Hs0. induction 1 as [|a b c Hab _ IH]; [done|]. apply IH. by eapply stuck_inv_step. }
  destruct s as [stuck logs], Hinv as (Hs & Hlen & Hl). cbn [fst snd] in *. split.
  - intros rid log_id stuck'. unfold stuck_check. destruct (vget stuck rid) as [n| |] eqn:E; [|done|done]. apply vget_ret in E. cbn.
    destruct (proj1 (list.Forall_lookup _ _) Hs rid n E) as [->| ->]; cbn; [intros [= <- <-]; by left|]. destruct (vset _ _ _); [|done|done]. intros [= <- <-]. by right.
  - intros h l r El Hd Hmax. destruct (proj1 (list.Forall_lookup _ _) Hl h l El) as [Hidx Hgc].
    destruct (shared_gc_run stuck logs h l El Hidx Hgc) as (l' & -> & _). eexists. split; [done|]. cbn [fst].
    destruct (lookup_lt_is_Some_2 stuck r) as [v Hv]; [lia|]. rewrite (stuck_callback_at _ _ _ _ v) by done.
    by destruct (proj1 (list.Forall_lookup _ _) Hs r v Hv) as [->| ->].
Qed.
End Stuck.

(** ** The loop of a thread *)

(** The local variables of the loop, the starting points of the batches executed so far
    and the logs synchronised. *)
Record cmeter := mkCMeter {
  cm_iter : nat; cm_completed : nat; cm_per_second : list nat; cm_next_log : N; cm_calls : list nat; cm_synced : list nat;
}.

(** A round: a batch from [iter] on, the statistics, and the log that waits for this
    replica, if any; [log_id] is the value read from [stuck]. *)
Definition cnr_round (nop batch_size : nat) (now : N) (log_id : nat) (m : cmeter) : res cmeter :=
  if nop =? 0 then Panic "attempt to calculate the remainder with a divisor of zero"
  else
    let iter := cm_iter m + (cm_iter m + batch_size) mod nop in
    let completed := cm_completed m + batch_size in
    let synced := if log_id =? 0 then cm_synced m else cm_synced m ++ [log_id] in
    Ret (if (cm_next_log m <=? now)%N then
           mkCMeter iter 0 (cm_per_second m ++ [completed]) (cm_next_log m + LOG_PERIOD)%N (cm_calls m ++ [cm_iter m]) synced
         else mkCMeter iter completed (cm_per_second m) (cm_next_log m) (cm_calls m ++ [cm_iter m]) synced).

(** The loop; [c] counts the readings of [clock], and [stuck] gives the log read after
    them. *)
Fixpoint cnr_measure (fuel : nat) (clock : nat -> N) (stuck : nat -> nat) (c : nat) (end_experiment : N) (nop batch_size : nat) (m : cmeter)
  : res cmeter :=
  match fuel with
  | 0 => Spin
  | S fuel' =>
      if (clock c <? end_experiment)%N then
        m' ← cnr_round nop batch_size (clock (c + 1)%nat) (stuck (c + 1)) m;
        cnr_measure fuel' clock stuck (c + 2) end_experiment nop batch_size m'
      else Ret m
  end.

(** What a thread does for one [duration]: it executes its first operation
    [batch_size] times, and then measures; the last second is removed. *)
Definition cnr_run_worker {O} (fuel : nat) (clock : nat -> N) (stuck : nat -> nat) (duration : N) (operations : list O) (batch_size : nat)
  : res (list O * cmeter) :=
  warm ← foldM (fun warm _ => op ← vget operations 0; Ret (warm ++ [op])) [] (seq 0 batch_size);
  let start := clock 0 in
  m ← cnr_measure fuel clock stuck 1 (start + duration)%N (length operations) batch_size
        (mkCMeter 0 0 [] (start + LOG_PERIOD)%N [] []);
  Ret (warm, if (N.of_nat (length (cm_per_second m)) =? duration / 1000000000)%N then
               mkCMeter (cm_iter m) (cm_completed m) (removelast (cm_per_second m)) (cm_next_log m) (cm_calls m) (cm_synced m)
             else m).

(** The batches start where [iter] was: at [batch_size * (2 ^ k - 1)] in round [k]. *)
Record cnr_trace (nop batch_size : nat) (m : cmeter) : Prop := {
  ct_iter : cm_iter m mod nop = (batch_size * (2 ^ length (cm_calls m) - 1)) mod nop;
  ct_calls : forall k x, cm_calls m !! k = Some x -> x mod nop = (batch_size * (2 ^ k - 1)) mod nop;
}.

Lemma next_iter nop b i k : 0 < nop -> i mod nop = (b * (2 ^ k - 1)) mod nop ->
  (i + (i + b) mod nop) mod nop = (b * (2 ^ S k - 1)) mod nop.
Proof.
  intros Hn Hi. rewrite Nat.Div0.add_mod_idemp_r. replace (i + (i + b)) with (2 * i + b) by lia.
  rewrite <- Nat.Div0.add_mod_idemp_l, <- Nat.Div0.mul_mod_idemp_r, Hi, Nat.Div0.mul_mod_idemp_r, Nat.Div0.add_mod_idemp_l. f_equal. cbn [Nat.pow].
  assert (1 <= 2 ^ k) by (apply Nat.neq_0_lt_0, Nat.pow_nonzero; lia). nia.
Qed.

Lemma cnr_round_trace nop b now log_id m : 0 < nop -> cnr_trace nop b m ->
  exists m', cnr_round nop b now log_id m = Ret m' /\ cnr_trace nop b m' /\ length (cm_calls m') = S (length (cm_calls m)).
Proof.
  intros Hn [Hi Hc]. unfold cnr_round. destruct (Nat.eqb_spec nop 0); [lia|]. eexists. split; [done|].
  assert (H : cnr_trace nop b (mkCMeter (cm_iter m + (cm_iter m + b) mod nop) 0 [] 0 (cm_calls m ++ [cm_iter m]) [])).
  { split; cbn [cm_iter cm_calls].
    - rewrite length_app. cbn [length]. rewrite Nat.add_1_r. by apply next_iter.
    - intros k x [Hk|[Hle Hk]]%lookup_app_Some; [by apply Hc|]. apply list_lookup_singleton_Some in Hk as [Hz <-].
      by replace k with (length (cm_calls m)) by lia. }
  destruct H as [H1 H2]. destruct (_ <=? _)%N; cbn in *; rewrite length_app; cbn; (split; [by split|lia]).
Qed.

Lemma cnr_measure_trace nop b (clock : nat -> N) stuck e : 0 < nop -> forall k (c : nat) m, cnr_trace nop b m -> (e <= clock (c + 2 * k)%nat)%N ->
  exists m', cnr_measure (S k) clock stuck c e nop b m = Ret m' /\ cnr_trace nop b m'.
Proof.
  intros Hn. induction k as [|k IH]; intros c m Hm He.
  - cbn [cnr_measure]. rewrite Nat.add_0_r in He. destruct (N.ltb_spec (clock c) e); [lia|]. by eexists.
  - change (cnr_measure (S (S k)) clock stuck c e nop b m) with
      (if (clock c <? e)%N then m' ← cnr_round nop b (clock (c + 1)%nat) (stuck (c + 1)) m; cnr_measure (S k) clock stuck (c + 2) e nop b m' else Ret m).
    destruct (clock c <? e)%N; [|by eexists]. destruct (cnr_round_trace nop b (clock (c + 1)%nat) (stuck (c + 1)) m Hn Hm) as (m1 & E1 & H1 & _).
    rewrite E1. cbn [mbind res_bind]. apply IH; [done|]. by replace (c + 2 + 2 * k) with (c + 2 * S k) by lia.
Qed.

(** C34: A thread of a cnr benchmark does not go through its operations in turn.  The loop
    ends when the time is over, but [iter += (iter + batch_size) % nop] doubles the
    index: the batch of round [k] starts at [batch_size * (2 ^ k - 1)] modulo the number
    of operations.  With [2 ^ j] operations every batch from round [j] on is the same,
    the last [batch_size] operations of the vector. *)
Theorem cnr_batches_repeat {O} (clock : nat -> N) stuck duration (operations : list O) batch_size (n : nat) :
  0 < length operations -> (clock 0%nat + duration <= clock (1 + 2 * n)%nat)%N ->
  exists warm m, cnr_run_worker (S n) clock stuck duration operations batch_size = Ret (warm, m)
    /\ (forall k x, cm_calls m !! k = Some x -> x mod length operations = (batch_size * (2 ^ k - 1)) mod length operations)
    /\ forall j k x, length operations = 2 ^ j -> j <= k -> cm_calls m !! k = Some x -> (x + batch_size) mod length operations = 0.
Proof.
  intros Hops He. unfold cnr_run_worker.
  assert (Hw : exists warm, foldM (fun warm _ => op ← vget operations 0; Ret (warm ++ [op])) [] (seq 0 batch_size) = Ret warm).
  { destruct operations as [|o ops]; [cbn in Hops; lia|]. generalize (seq 0 batch_size). intros l.
    assert (H : forall acc, exists warm, foldM (fun warm (_ : nat) => op ← vget (o :: ops) 0; Ret (warm ++ [op])) acc l = Ret warm); [|apply H].
    induction l as [|i l IH]; intros acc; [by eexists|]. cbn. apply IH. }
  destruct Hw as [warm Ew]. rewrite Ew. cbn [mbind res_bind].
  destruct (cnr_measure_trace (length operations) batch_size clock stuck (clock 0%nat + duration)%N Hops n 1
    (mkCMeter 0 0 [] (clock 0%nat + LOG_PERIOD)%N [] [])) as (m & E & [_ Hc]); [|done|].
  { split; cbn; [by rewrite Nat.mul_0_r|done]. }
  rewrite E. cbn [mbind res_bind]. eexists _, _. split; [done|].
  assert (H2 : forall j k x, length operations = 2 ^ j -> j <= k -> cm_calls m !! k = Some x -> (x + batch_size) mod length operations = 0).
  { intros j k x Hj Hjk Hx. rewrite <- Nat.Div0.add_mod_idemp_l, (Hc k x Hx), Nat.Div0.add_mod_idemp_l.
    assert (1 <= 2 ^ k) by (apply Nat.neq_0_lt_0, Nat.pow_nonzero; lia).
    replace (batch_size * (2 ^ k - 1) + batch_size) with (batch_size * 2 ^ (k - j) * 2 ^ j).
    - rewrite <- Hj. apply Nat.Div0.mod_mul.
    - rewrite <- Nat.mul_assoc, <- Nat.pow_add_r. replace (k - j + j) with k by lia. nia. }
  destruct (_ =? _)%N; (split; [exact Hc|exact H2]).
Qed.

(** ** A run *)

(** What [execute_mut] prints of the results of the threads: the total, the least and the
    greatest throughput, in operations per second. *)
Definition cnr_summary (core_iterations : list (N * list nat)) : res (nat * nat * nat) :=
  let intervals := foldl (fun i (r : N * list nat) => if i <? length r.2 then length r.2 else i) 0 core_iterations in
  let tputs := map (fun r : N * list nat => sum_list r.2) core_iterations in
  if intervals =? 0 then Panic "attempt to divide by zero"
  else Ret (sum_list tputs / intervals, foldr Nat.min (default 1 (head tputs)) tputs / intervals, foldr Nat.max (default 1 (head tputs)) tputs / intervals).

(** The intervals are the most any thread has. *)
Lemma intervals_max (rs : list (N * list nat)) i : let n := foldl (fun i (r : N * list nat) => if i <? length r.2 then length r.2 else i) i rs in
  i <= n /\ (forall r, r ∈ rs -> length r.2 <= n) /\ (n = i \/ exists r, r ∈ rs /\ n = length r.2).
Proof.
  cbn zeta. revert i. induction rs as [|r rs IH]; intros i; cbn [foldl]; [split_and!; [done|by intros ? ?%not_elem_of_nil|by left]|].
  destruct (IH (if i <? length r.2 then length r.2 else i)) as (H1 & H2 & H3). destruct (Nat.ltb_spec i (length r.2)).
  - split_and!; [lia| |].
    + intros r' [->|Hr']%elem_of_cons; [lia|by apply H2].
    + right. destruct H3 as [->|(r' & Hr' & ->)]; [exists r; split; [by left|done]|exists r'; split; [by right|done]].
  - split_and!; [lia| |].
    + intros r' [->|Hr']%elem_of_cons; [lia|by apply H2].
    + destruct H3 as [->|(r' & Hr' & ->)]; [by left|right; exists r'; split; [by right|done]].
Qed.

(** A summary needs one second of one thread. *)
Lemma cnr_summary_needs_second rs : (exists x, cnr_summary rs = Ret x) <-> exists r, r ∈ rs /\ r.2 <> [].
Proof.
  unfold cnr_summary. destruct (intervals_max rs 0) as (_ & H2 & H3). set (n := foldl _ 0 rs) in *. destruct (Nat.eqb_spec n 0) as [Hz|Hnz].
  - split; [by intros [? ?]|]. intros (r & Hr & Hne). specialize (H2 r Hr). destruct r as [c [|]]; [done|]. cbn in H2. lia.
  - split; [|by eexists]. intros _. destruct H3 as [->|(r & Hr & Hn)]; [done|]. exists r. split; [done|]. intros E. rewrite E in Hn. done.
Qed.

(** [execute_mut]: the logs after a reset, if asked for, and the results kept for the
    duration.  It returns 0. *)
Definition cnr_execute_mut {WO} (reset_log : bool) (logs : list (Log WO (LogMetaData (list nat)) EntryMetaData)) (duration : N)
    (results : gmap N (list (N * list nat))) (core_iterations : list (N * list nat))
  : res (list (Log WO (LogMetaData (list nat)) EntryMetaData) * gmap N (list (N * list nat)) * nat) :=
  let logs := if reset_log then map log_reset logs else logs in
  _ ← cnr_summary core_iterations;
  Ret (logs, <[duration := core_iterations]> results, 0).

(** The rows that [terminate] writes. *)
Record CnrRecord := mkCnrRecord {
  cr_name : string; cr_rs : CRS.CReplicaStrategy; cr_tm : ThreadMapping; cr_batch_size : nat; cr_threads : nat; cr_duration : f64;
  cr_thread_id : nat; cr_core_id : N; cr_exp_time_in_sec : nat; cr_iterations : nat;
}.
Definition cnr_records (name : string) (rs : CRS.CReplicaStrategy) (tm : ThreadMapping) (batch_size ts : nat)
    (results : list (N * list (N * list nat))) : list CnrRecord :=
  concat (map (fun '(duration, thread_results) =>
    concat (imap (fun tid '(cid, ops_per_sec) =>
      imap (fun idx ops => mkCnrRecord name rs tm batch_size ts (as_secs_f64 duration) tid cid (idx + 1) ops) ops_per_sec) thread_results)) results).

(** [ScaleBenchmark], without its channels and handles. *)
Record CnrBenchmark (RO WO : Type) := mkCnrBench {
  cb_name : string; cb_rs : CRS.CReplicaStrategy; cb_tm : ThreadMapping; cb_ts : nat; cb_ls : LS.LogStrategy; cb_rm : rmap;
  cb_operations : list (Operation RO WO); cb_log : list (Log WO (LogMetaData (list nat)) EntryMetaData);
  cb_results : gmap N (list (N * list nat)); cb_batch_size : nat; cb_sync : bool;
}.
Arguments mkCnrBench {RO WO} _ _ _ _ _ _ _ _ _ _ _.
Arguments cb_name {RO WO} _.
Arguments cb_rs {RO WO} _.
Arguments cb_tm {RO WO} _.
Arguments cb_ts {RO WO} _.
Arguments cb_ls {RO WO} _.
Arguments cb_rm {RO WO} _.
Arguments cb_operations {RO WO} _.
Arguments cb_log {RO WO} _.
Arguments cb_results {RO WO} _.
Arguments cb_batch_size {RO WO} _.
Arguments cb_sync {RO WO} _.

Definition cnr_bench_new {RO WO} interleave (name : string) (topology : MachineTopology) rs ls tm ts (operations : list (Operation RO WO))
    (batch_size : nat) (sync : bool) log : res (CnrBenchmark RO WO) :=
  rm ← cnr_replica_core_allocation interleave topology rs tm ts;
  Ret (mkCnrBench name rs tm ts ls rm operations log ∅ batch_size sync).

(** ** The builder *)

Section CnrBuilder.
Context {D RO WO R : Type} `{!CDispatch D RO WO R}.
Abbreviation O := (Operation RO WO).

Record CnrBuilder := mkCnrBuilder {
  nb_replica_strategies : list CRS.CReplicaStrategy; nb_log_strategies : list LS.LogStrategy;
  nb_thread_mappings : list ThreadMapping; nb_threads : list nat; nb_batches : list nat;
  nb_sync : bool; nb_log_size : N; nb_reset_log : bool; nb_operations : list O;
}.
Implicit Types (b : CnrBuilder).

Definition cnr_builder_new (ops : list O) : CnrBuilder := mkCnrBuilder [] [] [] [] [1] true (1024 * 1024 * 2) false ops.

Definition cnr_add_batch b (n : nat) : CnrBuilder :=
  mkCnrBuilder (nb_replica_strategies b) (nb_log_strategies b) (nb_thread_mappings b) (nb_threads b) (nb_batches b ++ [n])
    (nb_sync b) (nb_log_size b) (nb_reset_log b) (nb_operations b).
Definition cnr_update_batch b (n : nat) : CnrBuilder :=
  mkCnrBuilder (nb_replica_strategies b) (nb_log_strategies b) (nb_thread_mappings b) (nb_threads b) [n]
    (nb_sync b) (nb_log_size b) (nb_reset_log b) (nb_operations b).
Definition set_nb_threads b (l : list nat) : CnrBuilder :=
  mkCnrBuilder (nb_replica_strategies b) (nb_log_strategies b) (nb_thread_mappings b) l (nb_batches b)
    (nb_sync b) (nb_log_size b) (nb_reset_log b) (nb_operations b).
Definition cnr_threads b (t : nat) : CnrBuilder := set_nb_threads b (nb_threads b ++ [t]).
Definition cnr_thread_mapping b (tm : ThreadMapping) : CnrBuilder :=
  mkCnrBuilder (nb_replica_strategies b) (nb_log_strategies b) (nb_thread_mappings b ++ [tm]) (nb_threads b) (nb_batches b)
    (nb_sync b) (nb_log_size b) (nb_reset_log b) (nb_operations b).
Definition cnr_replica_strategy b (rs : CRS.CReplicaStrategy) : CnrBuilder :=
  mkCnrBuilder (nb_replica_strategies b ++ [rs]) (nb_log_strategies b) (nb_thread_mappings b) (nb_threads b) (nb_batches b)
    (nb_sync b) (nb_log_size b) (nb_reset_log b) (nb_operations b).
Definition cnr_log_strategy b (ls : LS.LogStrategy) : CnrBuilder :=
  mkCnrBuilder (nb_replica_strategies b) (nb_log_strategies b ++ [ls]) (nb_thread_mappings b) (nb_threads b) (nb_batches b)
    (nb_sync b) (nb_log_size b) (nb_reset_log b) (nb_operations b).
Definition cnr_log_size b (ls : N) : CnrBuilder :=
  mkCnrBuilder (nb_replica_strategies b) (nb_log_strategies b) (nb_thread_mappings b) (nb_threads b) (nb_batches b)
    (nb_sync b) ls (nb_reset_log b) (nb_operations b).
Definition cnr_reset_log b : CnrBuilder :=
  mkCnrBuilder (nb_replica_strategies b) (nb_log_strategies b) (nb_thread_mappings b) (nb_threads b) (nb_batches b)
    (nb_sync b) (nb_log_size b) true (nb_operations b).
Definition cnr_disable_sync b : CnrBuilder :=
  mkCnrBuilder (nb_replica_strategies b) (nb_log_strategies b) (nb_thread_mappings b) (nb_threads b) (nb_batches b)
    false (nb_log_size b) (nb_reset_log b) (nb_operations b).

Definition cnr_thread_defaults (topology : MachineTopology) b : res CnrBuilder :=
  s0 ← vget (sockets topology) 0;
  let step_size := length (cpus_on_socket topology s0) / 4 in
  ts ← step_by (cores topology + 1) step_size;
  let b := foldl (fun b t => if t =? 0 then cnr_threads b (t + 1) else cnr_threads b t) b ts in
  Ret (set_nb_threads b (sort_by Nat.leb (nb_threads b))).

(** [machine_defaults], without the feature [exhaustive]. *)
Definition cnr_machine_defaults (topology : MachineTopology) b : res CnrBuilder :=
  cnr_thread_defaults topology (cnr_replica_strategy (cnr_thread_mapping b Sequential) CRS.Socket).

Section Configure.
Variable interleave : list CpuInfo -> list CpuInfo -> list CpuInfo.
Variable into_iter : rmap -> list (N * list N).
(** What the threads of a benchmark send back. *)
Variable received : CnrBenchmark RO WO -> list cworker -> list (N * list nat).
Variable opened : bool.
Context (dd : D) (esize : N) (topology : MachineTopology).

Definition cnr_run_one (name : string) (duration : N) b rs ls tm ts n : res (CnrBenchmark RO WO * list CnrRecord) :=
  runner ← cnr_bench_new interleave name topology rs ls tm ts (nb_operations b) n (nb_sync b) (bench_logs ls ts esize (nb_log_size b));
  '(w, _, _, ws) ← cnr_startup (R := R) into_iter dd (cb_rm runner) (cb_log runner);
  '(_, results, _) ← cnr_execute_mut (nb_reset_log b) w.1 duration (cb_results runner) (received runner ws);
  if opened then Ret (runner, cnr_records name rs tm n ts (map_to_list results))
  else Panic "Couldn't terminate the experiment".

Definition cnr_configure (c : TestHarness) (name : string) b : res (list (CnrBenchmark RO WO * list CnrRecord)) :=
  configure_loops (cnr_run_one name (th_duration c) b)
    (nb_replica_strategies b) (nb_log_strategies b) (nb_thread_mappings b) (nb_threads b) (nb_batches b).

(** Every combination is run, and each writes a row for every second of every thread. *)
Theorem cnr_configure_runs_all c name b runs : cnr_configure c name b = Ret runs ->
  map (fun r => (cb_rs r.1, cb_ls r.1, cb_tm r.1, cb_ts r.1, cb_batch_size r.1)) runs
    = configs (nb_replica_strategies b) (nb_log_strategies b) (nb_thread_mappings b) (nb_threads b) (nb_batches b).
Proof.
  apply configure_loops_all. intros rs ls tm ts n r. unfold cnr_run_one, cnr_bench_new. clear runs.
  destruct (cnr_replica_core_allocation _ _ _ _ _) as [rm| |]; [|done|done]. cbn [mbind res_bind].
  destruct (cnr_startup _ _ _ _) as [[[[w stuck] k] ws]| |]; [|done|done]. cbn [mbind res_bind].
  destruct (cnr_execute_mut _ _ _ _ _) as [[[lg rs'] z]| |]; [|done|done]. cbn [mbind res_bind]. destruct opened; [|done]. by intros [= <-].
Qed.
End Configure.
End CnrBuilder.

(** ** The baseline comparison *)

Section CnrBaseline.
Context {D RO WO R : Type} `{!CDispatch D RO WO R} (dd : D) (esize : N).
Abbreviation bstore := (list (Log WO (LogMetaData unit) EntryMetaData) * list (CReplica D WO R))%type.

(** The operations of the structure itself, for the loop of BenchRun; the last two fields
    belong to node replication and the loop does not use them. *)
#[local] Instance direct : Dispatch D RO WO R :=
  {| dispatch := c_dispatch; dispatch_mut := c_dispatch_mut; cn_idx _ := 0%Z; resp_eqb _ _ := false |}.

(** One replica of one log, with one thread. *)
Definition cnr_baseline_log (log_size : N) : res (bstore * nat) :=
  w ← crep_new dd ([new_with_bytes emeta_default esize log_size (lmeta_default tt)], []);
  '(w, t) ← crep_register w 0;
  match t with Some ridx => Ret (w, ridx) | None => Panic "Failed to register with Replica." end.

Definition cnr_exec (ridx : nat) (w : bstore) (op : Operation RO WO) : res (R * bstore) :=
  match op with
  | ReadOperation o => '(w', r) ← cexecute w 0 o ridx; Ret (r, w')
  | WriteOperation o => '(w', r) ← cexecute_mut w 0 o ridx; Ret (r, w')
  end.

Definition cnr_baseline_comparison (fuel : nat) (clock1 clock2 : nat -> N) (opened : bool) (c : TestHarness) (name : string)
    (ops : list (Operation RO WO)) (log_size : N) : res (bline (R := R) D * bline (R := R) bstore * list BaselineRecord) :=
  let duration := th_duration c in
  s1 ← baseline_bench fuel exec_direct clock1 duration ops dd;
  rows1 ← expect_results (write_results opened (name +:+ "-baseline") duration (bl_per_second s1));
  '(r, ridx) ← cnr_baseline_log log_size;
  s2 ← baseline_bench fuel (cnr_exec ridx) clock2 duration ops r;
  rows2 ← expect_results (write_results opened (name +:+ "-log") duration (bl_per_second s2));
  Ret (s1, s2, rows1 ++ rows2).

(** Every operation belongs to the only log. *)
Hypothesis Hw : forall o, w_hash o 1 = [0].
Hypothesis Hr : forall o, r_hash o 1 = [0].
#[local] Instance only_log : LogMapperLaws 1.
Proof. split; intros *; rewrite ?Hw, ?Hr; congruence. Qed.

Definition bstore_holds (w : bstore) (d : D) : Prop := exists sp, csim 1 dd w sp /\ CnrRefine.sp_data sp = d /\ sp_next sp = [2].

Lemma cnr_log_builds log_size : exists w, cnr_baseline_log log_size = Ret (w, 1) /\ bstore_holds w dd.
Proof.
  unfold cnr_baseline_log. set (ms := [(bytes_to_log_entries esize log_size, lmeta_default tt)]).
  pose proof (creplicas_run (WO := WO) (R := R) dd 1 ms) as E. unfold creplicas in E. cbn [foldM seq] in E.
  change (logs_at 0 ms) with [new_with_bytes (T := WO) emeta_default esize log_size (lmeta_default tt)] in E.
  destruct (crep_new dd _) as [w| |] eqn:En; cbn [mbind res_bind] in E |- *; [|specialize (E ltac:(unfold MAX_REPLICAS_PER_LOG; lia)); done..].
  specialize (E ltac:(unfold MAX_REPLICAS_PER_LOG; lia)). injection E as ->.
  assert (Hs : csim 1 dd (logs_at 1 ms, rep_fresh dd (length ms) <$> seq 0 1) (cspec_init dd 1 ms)).
  { apply csim_init; [done| |unfold MAX_REPLICAS_PER_LOG; lia]. constructor; [by split|constructor]. }
  destruct (csim_step 1 dd _ _ (QRegister 0) _ _ Hs eq_refl) as (w' & Ew & Hs'). cbn [ccall_step] in Ew.
  destruct (crep_register _ 0) as [[w1 t]| |]; [|done|done]. cbn [mbind res_bind] in *. injection Ew as -> ->.
  exists w'. split; [done|]. by eexists.
Qed.

Lemma cnr_exec_sim w d op r d' : bstore_holds w d -> exec_direct d op = Ret (r, d') -> exists w', cnr_exec 1 w op = Ret (r, w') /\ bstore_holds w' d'.
Proof.
  intros (sp & Hs & <- & Hn) E. destruct op as [o|o]; cbn [exec_direct dispatch dispatch_mut direct] in E; ret_inv E; cbn [cnr_exec].
  - destruct (csim_step 1 dd w sp (QRead 0 1 o) (sp_mark sp 0 0) (AResp r) Hs) as (w' & Ew & Hs').
    { cbn [cspec_step]. rewrite Hr. unfold sp_token. rewrite Hn. cbn. match goal with H : _ = Ret _ |- _ => by rewrite H end. }
    cbn [ccall_step] in Ew. ret_inv Ew. eexists. split; [done|]. by eexists.
  - destruct (csim_step 1 dd w sp (QWrite 0 1 o) (sp_push sp 0 0 d') (AResp r) Hs) as (w' & Ew & Hs').
    { cbn [cspec_step]. rewrite Hw. unfold sp_token, sp_room. rewrite Hn. cbn. match goal with H : _ = Ret _ |- _ => by rewrite H end. }
    cbn [ccall_step] in Ew. ret_inv Ew. eexists. split; [done|]. by eexists.
Qed.

(** The log of cnr does not change what a benchmark computes.  [baseline_comparison]
    executes its operations in turn, first on the structure itself and then on a replica
    with one log, each until its time is over.  Both loops end, the responses of the
    shorter one are the first responses of the longer one, and a row is written for every
    second kept of either. *)
Theorem cnr_baseline_agrees (k : nat) (clock1 clock2 : nat -> N) c name ops log_size :
  let duration := th_duration c in
  0 < length ops ->
  (forall d o, exists r, c_dispatch d o = Ret r) -> (forall d o, exists d' r, c_dispatch_mut d o = Ret (d', r)) ->
  (clock1 0%nat + duration <= clock1 (1 + 2 * k)%nat)%N -> (clock2 0%nat + duration <= clock2 (1 + 2 * k)%nat)%N ->
  exists s1 s2 rows, cnr_baseline_comparison (S k) clock1 clock2 true c name ops log_size = Ret (s1, s2, rows)
    /\ length rows = length (bl_per_second s1) + length (bl_per_second s2)
    /\ if bl_iter s1 <=? bl_iter s2 then bl_out s1 `prefix_of` bl_out s2 else bl_out s2 `prefix_of` bl_out s1.
Proof.
  cbn zeta. set (duration := th_duration c). intros Hops Hro Hwo H1 H2. unfold cnr_baseline_comparison. fold duration.
  assert (Htot : forall d op, exists r d', exec_direct (R := R) d op = Ret (r, d')).
  { intros d [o|o]; cbn; [destruct (Hro d o) as [r ->]|destruct (Hwo d o) as (d' & r & ->)]; by eexists _, _. }
  destruct (baseline_bench_spec exec_direct eq ops Hops ltac:(by intros ? ? ? ? ? ->; eauto) Htot dd k clock1 duration dd eq_refl H1)
    as (s1 & d1 & E1 & _ & Hd1). rewrite E1. cbn [mbind res_bind write_results expect_results].
  destruct (cnr_log_builds log_size) as (w & Ew & Hs). rewrite Ew. cbn [mbind res_bind].
  destruct (baseline_bench_spec (cnr_exec 1) bstore_holds ops Hops cnr_exec_sim Htot dd k clock2 duration w Hs H2) as (s2 & d2 & E2 & _ & Hd2).
  eexists s1, s2, _. rewrite E2. split_and!; [done|by rewrite length_app, !length_imap|].
  destruct (Nat.leb_spec (bl_iter s1) (bl_iter s2)); [by eapply direct_run_prefix|eapply direct_run_prefix; [|exact Hd2|exact Hd1]; lia].
Qed.
End CnrBaseline.

(** ** Examples *)

(** A structure whose operations always belong to the first log. *)
#[local] Instance sum_cdispatch : CDispatch nat unit nat nat := {|
  c_dispatch d _ := Ret d; c_dispatch_mut d n := Ret (d + n, d); r_hash _ _ := [0]; w_hash _ _ := [0];
|}.

Lemma cnr_baseline_agrees_witness :
  exists s1 s2 rows, cnr_baseline_comparison 0 192 4 (fun n => 300000000 * N.of_nat n)%N bench_clock true (mkHarness 2000000000) "counter" bench_ops 2048
      = Ret (s1, s2, rows)
    /\ length rows = length (bl_per_second s1) + length (bl_per_second s2)
    /\ if bl_iter s1 <=? bl_iter s2 then bl_out s1 `prefix_of` bl_out s2 else bl_out s2 `prefix_of` bl_out s1.
Proof.
  apply (cnr_baseline_agrees (CDispatch0 := sum_cdispatch) 0 192 (fun _ => eq_refl) (fun _ => eq_refl) 3); [cbn; lia|intros; by eexists|intros; by eexists _, _|vm_compute; discriminate..].
Defined.

Lemma cnr_benchmark_starts_witness :
  let rm := {[ 0%N := [0; 1; 4; 5]%N; 1%N := [2; 3]%N ]} : rmap in
  exists w ws, cnr_startup map_to_list 0 rm (bench_logs (WO := nat) (LS.Custom 2) 6 192 2048) = Ret (w, replicate MAX_REPLICAS_PER_LOG 0, length ws, ws)
    /\ map (fun c => (cw_rid c, cw_core c)) ws ≡ₚ places (map_to_list rm)
    /\ (forall c c', c ∈ ws -> c' ∈ ws -> (cw_replica c = cw_replica c' <-> cw_rid c = cw_rid c'))
    /\ forall ws', ws' ≡ₚ ws -> exists w' tkns, register_cworkers (R := nat) w ws' = Ret (w', tkns) /\ NoDup (zip (map cw_replica ws') tkns).
Proof.
  apply (cnr_benchmark_starts map_to_list (LS.Custom 2) 6 192 2048 0 {[ 0%N := [0; 1; 4; 5]%N; 1%N := [2; 3]%N ]}); [done| |vm_compute; lia|].
  - intros r Hr. destruct (decide (r = 0%N)) as [->|]; [done|]. destruct (decide (r = 1%N)) as [->|]; [done|].
    rewrite lookup_insert_ne, lookup_singleton_ne in Hr by done. by apply is_Some_None in Hr.
  - intros r cores [[<- <-]|[_ [<- <-]%lookup_singleton_Some]]%lookup_insert_Some; (split; [done|cbv; lia]).
Defined.

(** Three logs.  The third one marks replica 1 and calls back; then the second one marks
    replicas 0 and 1, and calls back. *)
Definition mark_log (h : nat) (dr : list bool) (s : list nat * list (Log nat (LogMetaData (list nat)) EntryMetaData)) :=
  (s.1, alter (fun l => set_dormant l dr) h s.2).
Definition stuck_logs_3 := set_callbacks (bench_logs (WO := nat) (LS.Custom 3) 6 192 2048).
Definition stuck_called : list nat * list (Log nat (LogMetaData (list nat)) EntryMetaData) :=
  match shared_gc (mark_log 2 (<[1 := true]> (replicate MAX_REPLICAS_PER_LOG false)) stuck_logs_3) 2 with Ret s => s | _ => stuck_logs_3 end.

Lemma mark_log_step h dr s : is_Some (s.2 !! h) -> stuck_step s (mark_log h dr s).
Proof.
  intros [l Hl]. unfold mark_log. assert (E : alter (fun l => set_dormant l dr) h s.2 = <[h := set_dormant l dr]> s.2).
  { apply list_eq. intros i. destruct (decide (h = i)) as [<-|Hne]; [|by rewrite list_lookup_alter_ne, list_lookup_insert_ne].
    rewrite list_lookup_alter, Hl, decide_True by done. symmetry. apply list_lookup_insert_eq. by eapply lookup_lt_Some. }
  rewrite E. by apply (stuck_by_other s h l).
Qed.

Lemma stuck_log_is_first_witness : exists s s',
  s = mark_log 1 (<[0 := true]> (<[1 := true]> (replicate MAX_REPLICAS_PER_LOG false))) stuck_called
  /\ shared_gc s 1 = Ret s' /\ s'.1 !! 0 = Some 1.
Proof.
  eexists. set (s := mark_log 1 _ stuck_called).
  assert (Hr : rtc stuck_step stuck_logs_3 s).
  { eapply rtc_l; [apply (mark_log_step 2); eexists; reflexivity|]. eapply rtc_l; [apply (stuck_by_log _ 2 stuck_called); reflexivity|].
    apply rtc_once, mark_log_step. eexists. reflexivity. }
  destruct (proj2 (stuck_log_is_first (LS.Custom 3) 6 192 2048 s Hr) 1 _ 0 ltac:(reflexivity) ltac:(reflexivity) ltac:(unfold MAX_REPLICAS_PER_LOG; lia)) as (s' & E & H).
  exists s'. split; [reflexivity|]. split; [exact E|exact H].
Defined.

(** Four operations, one in each batch: from the third round on it is the last one. *)
Lemma cnr_batches_repeat_witness :
  exists warm m, cnr_run_worker 6 (fun n => 100000000 * N.of_nat n)%N (fun _ => 0) 1000000000 ["a"; "b"; "c"; "d"]%string 1 = Ret (warm, m)
    /\ (forall k x, cm_calls m !! k = Some x -> x mod 4 = (1 * (2 ^ k - 1)) mod 4)
    /\ (forall j k x, 4 = 2 ^ j -> j <= k -> cm_calls m !! k = Some x -> (x + 1) mod 4 = 0)
    /\ map (fun x => x mod 4) (cm_calls m) = [0; 1; 3; 3; 3].
Proof.
  destruct (cnr_batches_repeat (fun n => 100000000 * N.of_nat n)%N (fun _ => 0) 1000000000 ["a"; "b"; "c"; "d"]%string 1 5) as (warm & m & E & H1 & H2);
    [cbn; lia|vm_compute; discriminate|].
  exists warm, m. split_and!; [exact E|exact H1|exact H2|]. vm_compute in E. by injection E as <- <-.
Defined.
