(* ===== verification/CnrSync.v ===== *)
(** * How the threads of a cnr benchmark finish together (bench_utils/src/cnr_mkbench.rs)

    The commands that [ScaleBenchmark] sends to its threads, the barrier, what a thread
    does for a command, and the phase after a measurement in which one thread of each
    replica keeps its logs moving until all replicas are done.  The threads take their
    steps in any order.

    The calls that a thread makes on its replica ([exec], [exec_ro] and [log_sync]) may
    wait: a thread is in the call until a step in which it returns, which need not come.
    What the calls do to the logs, and when they panic or never return, is the subject of
    CnrReplica.v to CnrTheorems.v; the measured numbers and the array [stuck] are in
    CnrBench.v.

    The theorems: with [sync], a replica that is done has a thread that synchronises its
    logs as long as another thread measures; the benchmark's own code does not panic; if
    the calls return, the threads can always go on until all have returned, and a call
    that waits for a replica whose threads are at the barrier never returns, which
    happens without [sync]. *)

From stdpp Require Import gmap relations.
From S2P Require Import Prelude Log Topology Bench.

(** ** Threads *)

(** Where a thread is: waiting for a command, before or in the warm-up call [k], at the
    barrier before a measurement, before the test of the clock, before or in call [k] of
    a batch, in [log_sync] for a lagging log, done with the measurement, in the loop that
    waits for the other replicas, with the replicas that it has still to look at and
    those it has found done, in [log_sync] for log [j] there, at the barrier after it,
    past that barrier, or at its end. *)
Inductive wpc :=
| WRecv | WWarm (k : nat) (call : bool) | WStart
| WRun (iter : nat) | WBatch (iter k : nat) (call : bool) | WStuck (iter : nat) | WFinished
| WSyncing (todo : list (N * nat)) (done : nat) | WLogs (j : nat) | WEnd | WReset | WReturned.

(** [wt_num] is the number of threads of its replica, [wt_round] counts its commands. *)
Record wthread := mkWT { wt_rid : N; wt_num : nat; wt_round : nat; wt_pc : wpc }.

(** [complete], the commands sent so far, and the threads. *)
Record wstate := mkWS { ws_com : list nat; ws_sent : nat; ws_ths : list wthread }.

(** What a step does not decide itself: whether the call returns, whether the clock is
    before [end_experiment], and the value of [stuck[rid]]. *)
Record wenv := mkEnv { e_ret : bool; e_time : bool; e_stuck : nat }.

Definition at_pc (t : wthread) (p : wpc) : wthread := mkWT (wt_rid t) (wt_num t) (wt_round t) p.

(** The operator [%]. *)
Definition urem (a b : nat) : res nat :=
  if b =? 0 then Panic "attempt to calculate the remainder with a divisor of zero" else Ret (a mod b).

Section Sync.
(** The replicas and how many threads each has, as [rm] lists them; the commands, in
    nanoseconds. *)
Context {O : Type} (reps : list (N * nat)) (do_sync : bool) (operations : list O) (batch_size nlogs : nat) (cmds : list N).
Implicit Types (s : wstate) (t : wthread) (e : wenv).

Definition put_thread s i (com : list nat) t : wstate := mkWS com (ws_sent s) (<[i := t]> (ws_ths s)).

(** One step of a thread; [None] if it has to wait.  The batches are those of the
    function that the benchmarks pass to [configure]. *)
Definition wstep s (i : nat) e : res (option wstate) :=
  t ← vget (ws_ths s) i;
  let go p := Ret (Some (put_thread s i (ws_com s) (at_pc t p))) in
  let call p := if e_ret e then go p else Ret None in
  match wt_pc t with
  | WRecv =>
      if wt_round t <? ws_sent s then
        duration ← vget cmds (wt_round t);
        go (if (duration =? 0)%N then WReturned else WWarm 0 false)
      else Ret None
  | WWarm k false => if k <? batch_size then _op ← vget operations 0; go (WWarm k true) else go WStart
  | WWarm k true => call (WWarm (k + 1) false)
  | WRun iter => go (if e_time e then WBatch iter 0 false else WFinished)
  | WBatch iter k false =>
      if k <? batch_size then
        j ← urem (iter + k) (length operations);
        _op ← vget operations j;
        go (WBatch iter k true)
      else
        d ← urem (iter + batch_size) (length operations);
        go (if e_stuck e =? 0 then WRun (iter + d) else WStuck (iter + d))
  | WBatch iter k true => call (WBatch iter (k + 1) false)
  | WStuck iter => call (WRun iter)
  | WFinished =>
      if do_sync then
        n ← vget (ws_com s) (N.to_nat (wt_rid t));
        Ret (Some (put_thread s i (<[N.to_nat (wt_rid t) := n + 1]> (ws_com s))
                     (at_pc t (if n =? wt_num t - 1 then WSyncing reps 0 else WEnd))))
      else go WEnd
  | WSyncing ((r, c) :: todo) done =>
      n ← vget (ws_com s) (N.to_nat r);
      go (WSyncing todo (if n =? c then done + 1 else done))
  | WSyncing [] done =>
      go (if done =? length reps then WEnd else if 1 <=? nlogs then WLogs 1 else WSyncing reps 0)
  | WLogs j => call (if j <? nlogs then WLogs (j + 1) else WSyncing reps 0)
  | WReset =>
      com ← vset (ws_com s) (N.to_nat (wt_rid t)) 0;
      Ret (Some (put_thread s i com (at_pc t WRecv)))
  | WStart | WEnd | WReturned => Ret None
  end.

(** The barrier lets all threads go when all of them wait. *)
Definition at_barrier t : bool := match wt_pc t with WStart | WEnd => true | _ => false end.
Definition release t : wthread :=
  match wt_pc t with
  | WStart => at_pc t (WRun 0)
  | WEnd => mkWT (wt_rid t) (wt_num t) (wt_round t + 1) (if do_sync then WReset else WRecv)
  | _ => t
  end.
Definition barrier_step s : option wstate :=
  if forallb at_barrier (ws_ths s) then Some (mkWS (ws_com s) (ws_sent s) (map release (ws_ths s))) else None.

(** The results that a thread has sent; the next command is sent when all threads have
    sent theirs for the commands before it. *)
Definition results_of t : nat :=
  wt_round t + match wt_pc t with WFinished | WSyncing _ _ | WLogs _ | WEnd => 1 | _ => 0 end.
Definition main_step s : option wstate :=
  if (ws_sent s <? length cmds) && forallb (fun t => ws_sent s <=? results_of t) (ws_ths s)
  then Some (mkWS (ws_com s) (ws_sent s + 1) (ws_ths s)) else None.

(** The steps of the threads; [may s i] says when the call of thread [i] can return. *)
Inductive wsync_step (may : wstate -> nat -> Prop) s : wstate -> Prop :=
| step_of_thread i e s' : (e_ret e = true -> may s i) -> wstep s i e = Ret (Some s') -> wsync_step may s s'
| step_of_barrier s' : barrier_step s = Some s' -> wsync_step may s s'
| step_of_main s' : main_step s = Some s' -> wsync_step may s s'.

Definition sync_init : wstate :=
  mkWS (replicate 128 0) 0 (concat (map (fun '(r, c) => replicate c (mkWT r c 0 WRecv)) reps)).

(** ** Invariant *)

(** In a call on its replica; measuring; past the barrier before the measurement and not
    past the one after it; in the loop that waits for the other replicas;
    past the increment of [complete]. *)
Definition in_call t : bool :=
  match wt_pc t with WWarm _ true | WBatch _ _ true | WStuck _ | WLogs _ => true | _ => false end.
Definition measuring t : bool := match wt_pc t with WRun _ | WBatch _ _ _ | WStuck _ => true | _ => false end.
Definition started t : bool :=
  match wt_pc t with WRun _ | WBatch _ _ _ | WStuck _ | WFinished | WSyncing _ _ | WLogs _ | WEnd => true | _ => false end.
Definition syncing t : bool := match wt_pc t with WSyncing _ _ | WLogs _ => true | _ => false end.
Definition past t : bool := match wt_pc t with WSyncing _ _ | WLogs _ | WEnd => true | _ => false end.
Definition count_of (P : wthread -> bool) (r : N) (ths : list wthread) : nat :=
  count (fun t => P t && (wt_rid t =? r)%N) ths.

Definition complete_at s (r : N) (n : nat) : Prop := ws_com s !! N.to_nat r = Some n.
Definition all_complete s : Prop := forall r c, (r, c) ∈ reps -> complete_at s r c.

(** Between the rounds: nobody measures. *)
Definition between_pc (k : nat) (p : wpc) : Prop :=
  match p with
  | WRecv => True | WReset => do_sync = true
  | WWarm _ _ | WStart => exists d, cmds !! k = Some d /\ d <> 0%N
  | WReturned => cmds !! k = Some 0%N
  | _ => False
  end.
Record between (k : nat) s : Prop := {
  bt_pcs : Forall (fun t => wt_round t = k /\ between_pc k (wt_pc t)) (ws_ths s);
  bt_lt : k < length cmds;
  bt_sent : k <= ws_sent s <= S k;
  bt_sent_now : Exists (fun t => wt_pc t <> WRecv /\ wt_pc t <> WReset) (ws_ths s) -> ws_sent s = S k;
  bt_com : forall r c, (r, c) ∈ reps -> complete_at s r 0 \/ Exists (fun t => wt_rid t = r /\ wt_pc t = WReset) (ws_ths s);
}.

(** What a thread in the loop has found out. *)
Definition found s (todo : list (N * nat)) (done : nat) : Prop :=
  exists pre, reps = pre ++ todo /\ done <= length pre /\ (done = length pre -> forall r c, (r, c) ∈ pre -> complete_at s r c).

(** In a round. *)
Definition round_pc s t : Prop :=
  match wt_pc t with
  | WRun _ | WBatch _ _ _ | WStuck _ | WFinished | WEnd => True
  | WSyncing todo done => do_sync = true /\ complete_at s (wt_rid t) (wt_num t) /\ found s todo done
  | WLogs _ => do_sync = true /\ complete_at s (wt_rid t) (wt_num t)
  | _ => False
  end.
Record in_round (k : nat) s : Prop := {
  ir_pcs : Forall (fun t => wt_round t = k /\ round_pc s t) (ws_ths s);
  ir_sent : S k <= ws_sent s <= S (S k);
  ir_cmd : exists d, cmds !! k = Some d /\ d <> 0%N;
  ir_com : forall r c, (r, c) ∈ reps -> complete_at s r (if do_sync then count_of past r (ws_ths s) else 0);
  ir_sync : do_sync = true -> forall r c, (r, c) ∈ reps -> complete_at s r c ->
    count_of syncing r (ws_ths s) = 1 \/ (count_of syncing r (ws_ths s) = 0 /\ all_complete s);
}.

(** What no step changes. *)
Record static s : Prop := {
  sc_com : length (ws_com s) = 128;
  sc_sent : ws_sent s <= length cmds;
  sc_ths : map (fun t => (wt_rid t, wt_num t)) (ws_ths s) = concat (map (fun '(r, c) => replicate c (r, c)) reps);
}.

Lemma sum_insert {A} (f : A -> nat) l i x y : l !! i = Some x ->
  sum_list_with f (<[i := y]> l) + f x = sum_list_with f l + f y.
Proof.
  revert i. induction l as [|z l IH]; intros i Hi; [done|]. destruct i as [|i]; cbn in Hi.
  - injection Hi as ->. cbn. lia.
  - specialize (IH i Hi). change (<[S i := y]> (z :: l)) with (z :: <[i := y]> l). cbn [sum_list_with]. lia.
Qed.

Lemma count_of_insert P r ths i t t' : ths !! i = Some t -> wt_rid t' = wt_rid t ->
  count_of P r (<[i := t']> ths) + (if P t && (wt_rid t =? r)%N then 1 else 0) = count_of P r ths + (if P t' && (wt_rid t =? r)%N then 1 else 0).
Proof. intros Hi Hr. pose proof (count_insert (fun t => P t && (wt_rid t =? r)%N) ths i t t' Hi) as E. cbn beta in E. by rewrite Hr in E. Qed.

Lemma count_of_same P r ths i t t' : ths !! i = Some t -> wt_rid t' = wt_rid t -> P t' = P t -> count_of P r (<[i := t']> ths) = count_of P r ths.
Proof. intros Hi Hr HP. pose proof (count_of_insert P r ths i t t' Hi Hr) as E. rewrite HP in E. lia. Qed.

Lemma count_of_le P Q r ths : (forall t, P t = true -> Q t = true) -> count_of P r ths <= count_of Q r ths.
Proof.
  intros HPQ. unfold count_of, count. induction ths as [|t ths IH]; [done|]. cbn. destruct (P t) eqn:E; [rewrite (HPQ t E)|]; cbn; [|lia].
  destruct (wt_rid t =? r)%N; lia.
Qed.

Lemma count_of_pos P r ths : 0 < count_of P r ths <-> exists i t, ths !! i = Some t /\ P t = true /\ wt_rid t = r.
Proof.
  split.
  - unfold count_of. induction ths as [|t ths IH]; [cbv; lia|]. rewrite count_cons. destruct (P t) eqn:HP; cbn [andb]; [destruct (N.eqb_spec (wt_rid t) r)|].
    1: intros _; by exists 0, t.
    all: intros (i & t' & H)%IH; by exists (S i), t'.
  - intros (i & t & Hi & HP & Hr). apply (count_pos _ _ i t Hi). by rewrite HP, Hr, N.eqb_refl.
Qed.

(** The hypotheses on a benchmark: its replicas have threads, and numbers that [complete]
    has room for; the last command is 0. *)
Hypothesis Hnd : NoDup (map fst reps).
Hypothesis Hreps : forall r c, (r, c) ∈ reps -> (r < 128)%N /\ 0 < c.
Hypothesis Hne : reps <> [].
Context (ds : list N).
Hypothesis Hcmds : cmds = ds ++ [0%N].

Lemma reps_unique r c c' : (r, c) ∈ reps -> (r, c') ∈ reps -> c = c'.
Proof.
  intros (i & Hi)%list_elem_of_lookup (j & Hj)%list_elem_of_lookup.
  assert (i = j) as ->; [|congruence]. apply (NoDup_lookup (map fst reps) i j r); [done|rewrite list_lookup_fmap, Hi; done|rewrite list_lookup_fmap, Hj; done].
Qed.

Lemma static_thread s t : static s -> t ∈ ws_ths s -> (wt_rid t, wt_num t) ∈ reps.
Proof.
  intros [_ _ Hs] Ht. apply (list_elem_of_fmap_2 (fun t => (wt_rid t, wt_num t))) in Ht. change (list_fmap _ _ ?f ?l) with (map f l) in Ht.
  assert (H : (wt_rid t, wt_num t) ∈ concat (map (fun '(r, c) => replicate c (r, c)) reps)) by (rewrite <- Hs; exact Ht).
  apply list_elem_of_In, in_concat in H as (x & Hx%list_elem_of_In & Hp%list_elem_of_In).
  apply list_elem_of_fmap in Hx as ([r c] & -> & Hx). by apply elem_of_replicate in Hp as [-> _].
Qed.

Lemma static_count s r c : static s -> (r, c) ∈ reps -> count_of (fun _ => true) r (ws_ths s) = c.
Proof.
  intros [_ _ Hs] Hin. set (f := fun p : N * nat => if (p.1 =? r)%N then 1 else 0).
  assert (E : count_of (fun _ => true) r (ws_ths s) = sum_list_with f (map (fun t => (wt_rid t, wt_num t)) (ws_ths s))).
  { clear Hs. unfold count_of, count. induction (ws_ths s) as [|t l IH]; [done|]. cbn [sum_list_with map]. f_equal. exact IH. }
  rewrite E, Hs. clear E Hs.
  assert (Hrep : forall r0 c0 : _, sum_list_with f (replicate c0 (r0, c0)) = if (r0 =? r)%N then c0 else 0).
  { intros r0 c0. generalize c0 at 2. intros c1. unfold f. induction c0 as [|c0 IH]; cbn; [by destruct (_ =? _)%N|]. rewrite IH. by destruct (_ =? _)%N. }
  assert (H0 : forall l, r ∉ map fst l -> sum_list_with f (concat (map (fun '(r, c) => replicate c (r, c)) l)) = 0).
  { clear -Hrep. induction l as [|[r0 c0] l IH]; [done|]. cbn [map concat fst]. intros [Hr Hl]%not_elem_of_cons. rewrite sum_list_with_app, Hrep, (IH Hl).
    by destruct (N.eqb_spec r0 r) as [->|]. }
  clear Hreps Hne. revert Hin Hnd. induction reps as [|[r0 c0] l IH]; intros Hin Hnd0; [by apply not_elem_of_nil in Hin|].
  cbn [map fst] in Hnd0. apply list.NoDup_cons in Hnd0 as [Hni Hnd']. cbn [map concat]. rewrite sum_list_with_app, Hrep.
  apply elem_of_cons in Hin as [[= <- <-]|Hin].
  - rewrite N.eqb_refl, H0 by done. lia.
  - rewrite IH by done. destruct (N.eqb_spec r0 r) as [->|]; [|done]. destruct Hni. by apply (list_elem_of_fmap_2 fst) in Hin.
Qed.

Lemma static_put s i t com p : static s -> ws_ths s !! i = Some t -> length com = 128 -> static (put_thread s i com (at_pc t p)).
Proof.
  intros [H1 H3 H2] Ht Hc. split; [done|done|]. cbn [put_thread ws_ths]. change (map ?f ?l) with (f <$> l) in *. rewrite list_fmap_insert.
  rewrite list_insert_id; [exact H2|]. by rewrite list_lookup_fmap, Ht.
Qed.

(** The call that a step waits for returns, or the step goes on; panics are left out. *)
Ltac step_cases := repeat match goal with
  | |- context [mbind _ ?m] => destruct m eqn:?; cbn [mbind res_bind]; [|by intros [=]|by intros [=]]
  | |- (if ?b then _ else _) = _ -> _ => destruct b eqn:?; [|try by intros [=]]
  | |- Ret None = _ -> _ => by intros [=]
  end.
Ltac start_step Et := unfold wstep;
  match goal with |- context [vget (ws_ths ?s) ?i] => destruct (vget (ws_ths s) i) as [t| |] eqn:Et; [|by intros [=]|by intros [=]] end;
  apply vget_ret in Et; cbn [mbind res_bind]; cbv zeta.

(** A step of a thread changes its place and perhaps [complete]. *)
Lemma wstep_put s i e s' : wstep s i e = Ret (Some s') ->
  exists t p com, ws_ths s !! i = Some t /\ s' = put_thread s i com (at_pc t p) /\ length com = length (ws_com s).
Proof.
  start_step Et. destruct (wt_pc t) as [|k []| |iter|iter k []|iter| |[|[r c] todo] dn|j| | |]; step_cases; intros [= <-]; eexists _, _, _;
    (split_and!; [done|done|]); rewrite ?length_insert; try done.
  match goal with H : vset _ _ _ = Ret _ |- _ => unfold vset in H; destruct (decide _); [|done]; injection H as <- end. by rewrite length_insert.
Qed.

Lemma static_step may s s' : static s -> wsync_step may s s' -> static s'.
Proof.
  intros Hs [i e s1 _ E|s1 E|s1 E].
  - destruct (wstep_put _ _ _ _ E) as (t & p & com & Ht & -> & Hl). apply static_put; [done|done|]. rewrite Hl. apply Hs.
  - unfold barrier_step in E. destruct (forallb _ _); [|done]. injection E as <-. destruct Hs as [H1 H3 H2]. split; [done|done|]. cbn.
    rewrite <- H2, map_map. apply map_ext. intros t. unfold release. by destruct (wt_pc t).
  - unfold main_step in E. destruct (Nat.ltb_spec (ws_sent s) (length cmds)); [|done]. destruct (forallb _ _); [|done]. injection E as <-.
    destruct Hs as [H1 H3 H2]. split; [done| |done]. cbn. lia.
Qed.

(** *** Between the rounds *)

Lemma Exists_insert_other {A} (P : A -> Prop) l i x y : l !! i = Some x -> ~ P x -> Exists P l -> Exists P (<[i := y]> l).
Proof.
  intros Hi Hx (z & Hz & HP)%list.Exists_exists. apply list_elem_of_lookup in Hz as (j & Hj).
  apply list.Exists_exists. exists z. split; [|done]. apply list_elem_of_lookup. exists j. rewrite list_lookup_insert_ne; [done|]. intros ->. congruence.
Qed.

Lemma Exists_insert_inv {A} (P : A -> Prop) l i y : Exists P (<[i := y]> l) -> P y \/ Exists P l.
Proof.
  intros (z & (j & Hj)%list_elem_of_lookup & HP)%list.Exists_exists. apply list_lookup_insert_Some in Hj as [(_ & <- & _)|[_ Hj]]; [by left|].
  right. apply list.Exists_exists. exists z. split; [by apply list_elem_of_lookup_2 in Hj|done].
Qed.

Lemma between_at k s i t : between k s -> ws_ths s !! i = Some t -> wt_round t = k /\ between_pc k (wt_pc t).
Proof. intros Hb Hi. exact (proj1 (list.Forall_lookup _ _) (bt_pcs _ _ Hb) i t Hi). Qed.

(** A thread goes on after its command. *)
Lemma between_put k s i t p : between k s -> ws_ths s !! i = Some t -> wt_pc t <> WReset -> ws_sent s = S k -> between_pc k p ->
  between k (put_thread s i (ws_com s) (at_pc t p)).
Proof.
  intros Hb Et Hne' Hs Hp. pose proof (between_at k s i t Hb Et) as [Hk _]. destruct Hb as [Hpcs Hlen Hs' Hnow Hcom].
  split; cbn [put_thread ws_ths ws_sent]; [by apply list.Forall_insert|done|done|done|].
  intros r c Hr. destruct (Hcom r c Hr) as [H0|H1]; [by left|right]. eapply Exists_insert_other; [exact Et| |done]. by intros [_ ?].
Qed.

Lemma between_reset k s i t com : between k s -> ws_ths s !! i = Some t -> wt_pc t = WReset ->
  vset (ws_com s) (N.to_nat (wt_rid t)) 0 = Ret com -> between k (put_thread s i com (at_pc t WRecv)).
Proof.
  intros Hb Et Ep E. pose proof (between_at k s i t Hb Et) as [Hk _]. destruct Hb as [Hpcs Hlen Hs Hnow Hcom].
  unfold vset in E. destruct (decide _) as [Hlt|]; [|done]. injection E as <-. split; cbn [put_thread ws_ths ws_sent]; [by apply list.Forall_insert|done|done| |].
  - intros [[? _]|H1]%Exists_insert_inv; [done|by apply Hnow].
  - intros r c Hr. unfold complete_at. cbn [put_thread ws_com]. destruct (decide (r = wt_rid t)) as [->|Hne']; [left; by apply list_lookup_insert_eq|].
    rewrite list_lookup_insert_ne by (intros ?%N2Nat.inj; done).
    destruct (Hcom r c Hr) as [H0|H1]; [by left|right]. eapply Exists_insert_other; [exact Et| |done]. by intros [? _].
Qed.

Lemma between_thread k s i e s' : between k s -> wstep s i e = Ret (Some s') -> between k s'.
Proof.
  intros Hb. start_step Et. pose proof (between_at k s i t Hb Et) as [Hk Hpc].
  assert (Hsent : wt_pc t <> WRecv -> wt_pc t <> WReset -> ws_sent s = S k).
  { intros H1 H2. apply (bt_sent_now _ _ Hb), list.Exists_exists. exists t. split; [by eapply list_elem_of_lookup_2|done]. }
  destruct (wt_pc t) as [|n []| |iter|iter n []|iter| |todo dn|j| | |] eqn:Ep; try done; step_cases; intros [= <-];
    try (apply between_put; [done|done|by rewrite Ep|by apply Hsent|done]).
  - pose proof (bt_sent _ _ Hb). bool_to_prop. match goal with H : vget cmds _ = Ret ?x |- _ => apply vget_ret in H; rename x into d end. rewrite Hk in *.
    apply between_put; [done|done|by rewrite Ep|lia|]. destruct (N.eqb_spec d 0) as [->|]; [done|]. by exists d.
  - by apply between_reset.
Qed.

(** *** In a round *)

Lemma in_round_at k s i t : in_round k s -> ws_ths s !! i = Some t -> wt_round t = k /\ round_pc s t.
Proof. intros Hb Hi. exact (proj1 (list.Forall_lookup _ _) (ir_pcs _ _ Hb) i t Hi). Qed.

Lemma in_round_same k s i t p : in_round k s -> ws_ths s !! i = Some t -> past (at_pc t p) = past t -> syncing (at_pc t p) = syncing t ->
  round_pc s (at_pc t p) -> in_round k (put_thread s i (ws_com s) (at_pc t p)).
Proof.
  intros Hb Ht Hp Hy Hok. pose proof (in_round_at k s i t Hb Ht) as [Hk Hpc]. destruct Hb as [Hpcs Hs Hcmd Hcom Hsync].
  split; cbn [put_thread ws_ths ws_sent]; [|done|done| |].
  - by apply list.Forall_insert.
  - intros r c Hr. rewrite (count_of_same past r _ i t) by done. exact (Hcom r c Hr).
  - intros Hd r c Hr Hc. rewrite (count_of_same syncing r _ i t) by done. exact (Hsync Hd r c Hr Hc).
Qed.

(** A thread that has not been counted: its replica is not complete. *)
Lemma not_complete k s i t n : static s -> in_round k s -> do_sync = true -> ws_ths s !! i = Some t -> past t = false ->
  complete_at s (wt_rid t) n -> n < wt_num t /\ n = count_of past (wt_rid t) (ws_ths s).
Proof.
  intros Hs Hb Hd Ht Hp Hn. assert (Hr : (wt_rid t, wt_num t) ∈ reps) by (eapply static_thread; [done|by eapply list_elem_of_lookup_2]).
  pose proof (ir_com _ _ Hb _ _ Hr) as Hc. rewrite Hd in Hc. unfold complete_at in *. assert (n = count_of past (wt_rid t) (ws_ths s)) as -> by congruence.
  split; [|done]. pose proof (count_of_insert past (wt_rid t) _ i t (at_pc t WEnd) Ht eq_refl) as E1. rewrite Hp, N.eqb_refl in E1. cbn [andb past wt_pc at_pc] in E1.
  pose proof (count_of_le past (fun _ => true) (wt_rid t) (<[i := at_pc t WEnd]> (ws_ths s)) (fun _ _ => eq_refl)) as E2.
  rewrite (count_of_same (fun _ => true) _ _ i t), (static_count s _ _ Hs Hr) in E2 by done. lia.
Qed.

Lemma found_keep s s' todo dn : (forall r c, (r, c) ∈ reps -> complete_at s r c -> complete_at s' r c) -> found s todo dn -> found s' todo dn.
Proof.
  intros Hkeep (pre & Epre & Hle & Hf). exists pre. split_and!; [done|done|]. intros Hl r c Hin. apply Hkeep; [|by apply Hf].
  rewrite Epre. apply elem_of_app. by left.
Qed.

Lemma found_start s : found s reps 0.
Proof. exists []. split_and!; [done|done|]. by intros _ r c ?%not_elem_of_nil. Qed.

(** A thread in the loop belongs to a replica that is done; what it has found stays. *)
Lemma round_syncing s t : syncing t = true -> round_pc s t -> do_sync = true /\ complete_at s (wt_rid t) (wt_num t).
Proof. unfold syncing, round_pc. destruct (wt_pc t); try done. by intros _ (? & ? & _). Qed.

Lemma round_keep s s' t : (forall r c, (r, c) ∈ reps -> complete_at s r c -> complete_at s' r c) -> (wt_rid t, wt_num t) ∈ reps ->
  round_pc s t -> round_pc s' t.
Proof.
  intros Hkeep Hr. unfold round_pc. destruct (wt_pc t); try done; [intros (? & ? & ?)|intros (? & ?)]; split_and!; auto. by apply (found_keep s).
Qed.

(** A thread is counted. *)
Lemma in_round_finish k s i t n : static s -> in_round k s -> do_sync = true -> ws_ths s !! i = Some t -> wt_pc t = WFinished ->
  complete_at s (wt_rid t) n ->
  in_round k (put_thread s i (<[N.to_nat (wt_rid t) := n + 1]> (ws_com s)) (at_pc t (if n =? wt_num t - 1 then WSyncing reps 0 else WEnd))).
Proof.
  intros Hs Hb Hd Ht Ep Hn. set (p := if n =? wt_num t - 1 then WSyncing reps 0 else WEnd). set (s' := put_thread _ _ _ _).
  assert (Hr : (wt_rid t, wt_num t) ∈ reps) by (eapply static_thread; [done|by eapply list_elem_of_lookup_2]).
  destruct (not_complete k s i t n Hs Hb Hd Ht ltac:(unfold past; by rewrite Ep) Hn) as [Hlt Hcnt].
  assert (Hself : complete_at s' (wt_rid t) (n + 1)) by (apply list_lookup_insert_eq; by eapply lookup_lt_Some).
  assert (Hother : forall r m, r <> wt_rid t -> complete_at s' r m <-> complete_at s r m).
  { intros r m Hne'. unfold complete_at, s'. cbn [put_thread ws_com]. rewrite list_lookup_insert_ne; [done|]. by intros ?%N2Nat.inj. }
  assert (Hkeep : forall r c, (r, c) ∈ reps -> complete_at s r c -> complete_at s' r c).
  { intros r c Hin Hc. destruct (decide (r = wt_rid t)) as [->|]; [|by apply Hother]. rewrite (reps_unique _ _ _ Hr Hin) in Hlt. unfold complete_at in *. replace c with n in Hlt by congruence. lia. }
  assert (Hzero : count_of syncing (wt_rid t) (ws_ths s) = 0).
  { destruct (decide (0 < count_of syncing (wt_rid t) (ws_ths s))) as [(j & t' & Hj & Hy & Hrid)%count_of_pos|]; [|lia].
    destruct (in_round_at k s j t' Hb Hj) as [_ Hpc]. pose proof (round_syncing s t' Hy Hpc) as [_ Hc].
    assert (Hr' : (wt_rid t', wt_num t') ∈ reps) by (eapply static_thread; [done|by eapply list_elem_of_lookup_2]).
    rewrite Hrid in *. pose proof (reps_unique _ _ _ Hr Hr'). unfold complete_at in *. assert (n = wt_num t') by congruence. lia. }
  destruct Hb as [Hpcs Hsent Hcmd Hcom Hsync]. split; cbn [s' put_thread ws_ths ws_sent]; [|done|done| |].
  - apply list.Forall_insert.
    + eapply list.Forall_impl; [apply (proj2 (list.Forall_forall _ _)); intros x Hx; exact (conj Hx (proj1 (list.Forall_forall _ _) Hpcs x Hx))|].
      intros x (Hx & Hrd & Hpc). split; [done|]. apply (round_keep s); [done|by eapply static_thread|done].
    + split; [by apply (proj1 (list.Forall_lookup _ _) Hpcs i t Ht)|]. unfold round_pc. cbn [wt_pc at_pc]. unfold p. destruct (Nat.eqb_spec n (wt_num t - 1)); [|done].
      split_and!; [done| |apply found_start]. change (complete_at s' (wt_rid t) (wt_num t)). assert (wt_num t = n + 1) as -> by lia. done.
  - intros r c Hin. rewrite Hd. pose proof (count_of_insert past r _ i t (at_pc t p) Ht eq_refl) as E.
    assert (Ep1 : past t = false) by (unfold past; by rewrite Ep). assert (Ep2 : past (at_pc t p) = true) by (unfold p, past; by destruct (_ =? _)).
    rewrite Ep1, Ep2 in E. cbn [andb] in E. destruct (N.eqb_spec (wt_rid t) r) as [<-|Hne'].
    + replace (count_of past _ _) with (n + 1) by lia. done.
    + apply Hother; [done|]. replace (count_of past r (<[i:=at_pc t p]> (ws_ths s))) with (count_of past r (ws_ths s)) by lia. pose proof (Hcom r c Hin) as H. by rewrite Hd in H.
  - intros _ r c Hin Hc. pose proof (count_of_insert syncing r _ i t (at_pc t p) Ht eq_refl) as E.
    assert (Ey1 : syncing t = false) by (unfold syncing; by rewrite Ep). rewrite Ey1 in E. cbn [andb] in E. destruct (N.eqb_spec (wt_rid t) r) as [<-|Hne'].
    + left. rewrite (reps_unique _ _ _ Hin Hr) in Hc. unfold complete_at in *. assert (n + 1 = wt_num t) by congruence.
      assert (Ey2 : syncing (at_pc t p) = true) by (unfold p, syncing; destruct (Nat.eqb_spec n (wt_num t - 1)); [done|lia]). rewrite Ey2, Hzero in E. cbn in E. lia.
    + rewrite andb_false_r in E. apply Hother in Hc; [|done]. destruct (Hsync Hd r c Hin Hc) as [H1|[H0 Ha]]; [left; lia|right; split; [lia|]].
      intros r' c' Hin'. apply Hkeep; [done|by apply Ha].
Qed.

Lemma found_all s dn : found s [] dn -> dn = length reps -> all_complete s.
Proof. intros (pre & Epre & _ & Hf) Hl r c Hin. rewrite app_nil_r in Epre. subst pre. by apply Hf. Qed.

Lemma found_next s r c todo dn n : found s ((r, c) :: todo) dn -> complete_at s r n -> found s todo (if n =? c then dn + 1 else dn).
Proof.
  intros (pre & Epre & Hle & Hf) Hn. exists (pre ++ [(r, c)]). rewrite <- app_assoc, length_app. cbn. split_and!; [done|destruct (_ =? _); lia|].
  intros Hl r' c' Hin. destruct (Nat.eqb_spec n c) as [->|]; [|lia]. apply elem_of_app in Hin as [Hin|[= -> ->]%list_elem_of_singleton]; [|done].
  apply Hf; [lia|done].
Qed.

(** A thread has found all replicas done. *)
Lemma in_round_leave k s i t dn : in_round k s -> ws_ths s !! i = Some t -> wt_pc t = WSyncing [] dn -> dn = length reps ->
  in_round k (put_thread s i (ws_com s) (at_pc t WEnd)).
Proof.
  intros Hb Ht Ep Hdn. destruct (in_round_at k s i t Hb Ht) as [Hk Hpc]. unfold round_pc in Hpc. rewrite Ep in Hpc. destruct Hpc as (Hd & Hc & Hf).
  pose proof (found_all s dn Hf Hdn) as Hall. destruct Hb as [Hpcs Hs Hcmd Hcom Hsync].
  split; cbn [put_thread ws_ths ws_sent]; [by apply list.Forall_insert|done|done| |].
  - intros r c Hr. rewrite (count_of_same past r _ i t); [exact (Hcom r c Hr)|done|done|]. unfold past. by rewrite Ep.
  - intros _ r c Hr Hrc. pose proof (count_of_insert syncing r _ i t (at_pc t WEnd) Ht eq_refl) as E. cbn [syncing wt_pc at_pc andb] in E.
    destruct (Hsync Hd r c Hr Hrc) as [H1|[H0 _]]; [|right; split; [lia|done]].
    destruct (count_of syncing r (<[i:=at_pc t WEnd]> (ws_ths s))) as [|[|n]] eqn:En; [by right|by left|]. lia.
Qed.

Lemma in_round_thread k s i e s' : static s -> in_round k s -> wstep s i e = Ret (Some s') -> in_round k s'.
Proof.
  intros Hs Hb. start_step Et. pose proof (in_round_at k s i t Hb Et) as [Hk Hpc]. unfold round_pc in Hpc.
  destruct (wt_pc t) as [|n []| |iter|iter n []|iter| |[|[r c] todo] dn|j| | |] eqn:Ep; try done; try (by intros [=]).
  1-4: step_cases; intros [= <-]; apply in_round_same; try done; unfold past, syncing, round_pc; rewrite ?Ep; cbn; by repeat case_match.
  - destruct do_sync eqn:Hd; step_cases; intros [= <-].
    + apply in_round_finish; try done. by apply vget_ret.
    + destruct Hb as [Hpcs Hsent Hcmd Hcom Hsync]. split; cbn [put_thread ws_ths ws_sent]; [|done|done| |by rewrite Hd].
      * by apply list.Forall_insert.
      * intros r c Hr. specialize (Hcom r c Hr). rewrite Hd in *. exact Hcom.
  - destruct Hpc as (Hd & Hc & Hf). destruct (Nat.eqb_spec dn (length reps)) as [E|E]; [intros [= <-]; by eapply in_round_leave|].
    destruct (1 <=? nlogs); intros [= <-]; apply in_round_same; try done; unfold past, syncing, round_pc; rewrite ?Ep; try done.
    split_and!; try done. apply found_start.
  - destruct Hpc as (Hd & Hc & Hf). step_cases. intros [= <-].
    apply in_round_same; try done; unfold past, syncing, round_pc; rewrite ?Ep; cbn; try done. split_and!; try done. eapply found_next; [done|by apply vget_ret].
  - destruct Hpc as (Hd & Hc). step_cases. intros [= <-].
    apply in_round_same; try done; unfold past, syncing, round_pc; rewrite ?Ep; cbn; destruct (j <? nlogs); try done. split_and!; try done. apply found_start.
Qed.

(** *** Barrier and commands *)

Lemma some_thread s r c : static s -> (r, c) ∈ reps -> exists t, t ∈ ws_ths s /\ wt_rid t = r.
Proof.
  intros Hs Hr. destruct (Hreps r c Hr) as [_ Hc]. rewrite <- (static_count s r c Hs Hr) in Hc.
  apply count_of_pos in Hc as (i & t & Hi & _ & Hrid). exists t. split; [by eapply list_elem_of_lookup_2|done].
Qed.

Lemma any_thread s : static s -> exists t, t ∈ ws_ths s.
Proof.
  intros Hs. assert (H : exists p, p ∈ reps) by (destruct reps as [|p l]; [done|exists p; by left]). destruct H as [[r c] Hr].
  destruct (some_thread s r c Hs Hr) as (t & Ht & _). by exists t.
Qed.

Lemma at_barrier_all s : forallb at_barrier (ws_ths s) = true <-> forall t, t ∈ ws_ths s -> at_barrier t = true.
Proof. rewrite forallb_forall. split; intros H t Ht; apply H; by apply list_elem_of_In. Qed.

Lemma count_of_none P r ths : (forall t, t ∈ ths -> P t = false) -> count_of P r ths = 0.
Proof.
  intros H. destruct (decide (0 < count_of P r ths)) as [(i & t & Hi & HP & _)%count_of_pos|]; [|lia]. apply list_elem_of_lookup_2, H in Hi. congruence.
Qed.

Lemma between_barrier k s s' : static s -> between k s -> barrier_step s = Some s' -> in_round k s'.
Proof.
  intros Hs [Hpcs Hlen Hsent Hnow Hcom]. unfold barrier_step. destruct (forallb at_barrier (ws_ths s)) eqn:E; [|done]. rewrite at_barrier_all in E. intros [= <-].
  rewrite list.Forall_forall in Hpcs.
  assert (Hst : forall t, t ∈ ws_ths s -> wt_round t = k /\ wt_pc t = WStart /\ exists d, cmds !! k = Some d /\ d <> 0%N).
  { intros t Ht. destruct (Hpcs t Ht) as [Hk Hpc]. specialize (E t Ht). unfold at_barrier in E. unfold between_pc in Hpc. by destruct (wt_pc t). }
  destruct (any_thread s Hs) as [t0 Ht0]. destruct (Hst t0 Ht0) as (_ & Hp0 & Hcmd).
  assert (Hrun : forall t, t ∈ map release (ws_ths s) -> wt_round t = k /\ wt_pc t = WRun 0).
  { intros t (x & -> & Hx)%list_elem_of_fmap. destruct (Hst x Hx) as (Hk & Hp & _). unfold release. by rewrite Hp. }
  assert (Hz : forall r c, (r, c) ∈ reps -> complete_at s r 0).
  { intros r c Hr. destruct (Hcom r c Hr) as [H0|(x & Hx & _ & Hp)%list.Exists_exists]; [done|]. destruct (Hst x Hx) as (_ & Hp' & _). congruence. }
  assert (Hs1 : ws_sent s = S k) by (apply Hnow, list.Exists_exists; exists t0; split; [done|by rewrite Hp0]).
  split; cbn [ws_ths ws_sent]; [|lia|done| |].
  - apply list.Forall_forall. intros t Ht. destruct (Hrun t Ht) as [Hk Hp]. unfold round_pc. by rewrite Hp.
  - intros r c Hr. rewrite count_of_none; [destruct do_sync; by apply (Hz r c)|]. intros t Ht. destruct (Hrun t Ht) as [_ Hp]. unfold past. by rewrite Hp.
  - intros _ r c Hr Hc. pose proof (Hz r c Hr) as H0. destruct (Hreps r c Hr). unfold complete_at in *. cbn [ws_com] in Hc. assert (c = 0) by congruence. lia.
Qed.

Lemma in_round_barrier k s s' : static s -> in_round k s -> barrier_step s = Some s' -> between (S k) s'.
Proof.
  intros Hs [Hpcs Hsent Hcmd Hcom Hsync]. unfold barrier_step. destruct (forallb at_barrier (ws_ths s)) eqn:E; [|done]. rewrite at_barrier_all in E. intros [= <-].
  rewrite list.Forall_forall in Hpcs.
  assert (Hst : forall t, t ∈ ws_ths s -> wt_round t = k /\ wt_pc t = WEnd).
  { intros t Ht. destruct (Hpcs t Ht) as [Hk Hpc]. specialize (E t Ht). unfold at_barrier in E. unfold round_pc in Hpc. by destruct (wt_pc t). }
  assert (Hrel : forall t, t ∈ map release (ws_ths s) -> wt_round t = S k /\ wt_pc t = if do_sync then WReset else WRecv).
  { intros t (x & -> & Hx)%list_elem_of_fmap. destruct (Hst x Hx) as (Hk & Hp). unfold release. rewrite Hp. cbn. split; [lia|done]. }
  split; cbn [ws_ths ws_sent]; [| |done| |].
  2: { destruct Hcmd as (d & Hd & Hnz). apply lookup_lt_Some in Hd as Hlt. rewrite Hcmds in Hd, Hlt |- *. rewrite length_app in *. cbn in *.
       destruct (decide (k = length ds)) as [->|]; [|lia]. by rewrite lookup_app_r, Nat.sub_diag in Hd; [injection Hd as <-|]. }
  - apply list.Forall_forall. intros t Ht. destruct (Hrel t Ht) as [Hk ->]. unfold between_pc. by destruct do_sync.
  - intros (t & Ht & Hp)%list.Exists_exists. destruct (Hrel t Ht) as [_ Hp']. rewrite Hp' in Hp. destruct do_sync, Hp; done.
  - intros r c Hr. destruct do_sync eqn:Hd; [right|left; by apply (Hcom r c)].
    destruct (some_thread s r c Hs Hr) as (t & Ht & Hrid). apply list.Exists_exists. exists (release t).
    assert (Hin : release t ∈ map release (ws_ths s)) by (by apply (list_elem_of_fmap_2 release)).
    split; [done|]. split; [|by apply Hrel]. unfold release. destruct (Hst t Ht) as [_ ->]. done.
Qed.

Lemma phase_main s s' : static s -> main_step s = Some s' -> (forall k, between k s -> between k s') /\ (forall k, in_round k s -> in_round k s').
Proof.
  intros Hs. unfold main_step. destruct (_ <? _) eqn:El; [|done]. destruct (forallb _ _) eqn:E; [|done]. cbn [andb]. intros [= <-]. rewrite forallb_forall in E.
  destruct (any_thread s Hs) as [t Ht]. specialize (E t (proj1 (list_elem_of_In _ _) Ht)). apply Nat.leb_le in E. unfold results_of in E.
  split; intros k.
  - intros [Hpcs Hlen Hsent]. rewrite list.Forall_forall in Hpcs. destruct (Hpcs t Ht) as [Hk Hpc]. rewrite <- list.Forall_forall in Hpcs.
    split; cbn [ws_ths ws_sent]; [done|done| | |done]; destruct (wt_pc t); try done; lia.
  - intros [Hpcs Hsent]. rewrite list.Forall_forall in Hpcs. destruct (Hpcs t Ht) as [Hk Hpc]. rewrite <- list.Forall_forall in Hpcs.
    split; cbn [ws_ths ws_sent]; [done| |done|done|done]. destruct (wt_pc t); try done; lia.
Qed.

(** *** The invariant *)

Definition sync_inv s : Prop := static s /\ exists k, between k s \/ in_round k s.

Lemma sync_inv_init : sync_inv sync_init.
Proof.
  split; [split; [done|cbn; lia|]|exists 0; left; split].
  - cbn [sync_init ws_ths]. clear. induction reps as [|[r c] l IH]; [done|]. cbn [map concat]. rewrite map_app, IH. f_equal.
    generalize c at 2 4. intros n. induction c as [|c IHc]; [done|]. cbn. by rewrite IHc.
  - apply list.Forall_forall. cbn [sync_init ws_ths]. intros t Ht. apply list_elem_of_In, in_concat in Ht as (x & Hx%list_elem_of_In & Ht%list_elem_of_In).
    apply list_elem_of_fmap in Hx as ([r c] & -> & _). by apply elem_of_replicate in Ht as [-> _].
  - rewrite Hcmds, length_app. cbn. lia.
  - cbn. lia.
  - intros (t & Ht & Hp)%list.Exists_exists. cbn [sync_init ws_ths] in Ht. apply list_elem_of_In, in_concat in Ht as (x & Hx%list_elem_of_In & Ht%list_elem_of_In).
    apply list_elem_of_fmap in Hx as ([r c] & -> & _). apply elem_of_replicate in Ht as [-> _]. by destruct Hp.
  - intros r c Hr. left. destruct (Hreps r c Hr) as [Hlt _]. apply lookup_replicate. split; [done|]. lia.
Qed.

Lemma sync_inv_step may s s' : sync_inv s -> wsync_step may s s' -> sync_inv s'.
Proof.
  intros [Hs (k & Hk)] Hst. split; [by eapply static_step|]. destruct Hst as [i e s1 _ E|s1 E|s1 E].
  - exists k. destruct Hk as [Hk|Hk]; [left; by eapply between_thread|right; by eapply in_round_thread].
  - destruct Hk as [Hk|Hk]; [exists k; right; by eapply between_barrier|exists (S k); left; by eapply in_round_barrier].
  - destruct (phase_main s s1 Hs E) as [H1 H2]. exists k. destruct Hk; auto.
Qed.

Lemma sync_inv_reachable may s : rtc (wsync_step may) sync_init s -> sync_inv s.
Proof.
  assert (H : forall a, rtc (wsync_step may) a s -> sync_inv a -> sync_inv s).
  { intros a. induction 1 as [|a b c Hab _ IH]; [done|]. intros Ha. apply IH. by eapply sync_inv_step. }
  intros Hr. apply (H _ Hr), sync_inv_init.
Qed.

(** ** No step panics *)

Hypothesis Hops : operations <> [].

Lemma found_in s r c todo dn : found s ((r, c) :: todo) dn -> (r, c) ∈ reps.
Proof. intros (pre & -> & _). apply elem_of_app. right. by left. Qed.

Lemma urem_ops n : exists j, urem n (length operations) = Ret j /\ exists o, vget operations j = Ret o.
Proof.
  unfold urem. destruct operations as [|o ops] eqn:E; [done|]. rewrite <- E in *. exists (n mod length operations). split; [by rewrite E|].
  destruct (lookup_lt_is_Some_2 operations (n mod length operations)) as [x Hx]; [apply Nat.mod_upper_bound; by rewrite E|]. exists x. by apply vget_lookup.
Qed.

Lemma wstep_runs s i t e : sync_inv s -> ws_ths s !! i = Some t -> exists o, wstep s i e = Ret o.
Proof.
  intros [Hs (k & Hk)] Ht. assert (Hr : (wt_rid t, wt_num t) ∈ reps) by (eapply static_thread; [done|by eapply list_elem_of_lookup_2]).
  assert (Hcom : forall r c, (r, c) ∈ reps -> N.to_nat r < length (ws_com s)) by (intros r c Hrc; rewrite (sc_com _ Hs); destruct (Hreps r c Hrc); lia).
  unfold wstep. rewrite (vget_lookup _ _ _ Ht). cbn [mbind res_bind]. cbv zeta.
  destruct (wt_pc t) as [|n []| |iter|iter n []|iter| |[|[r c] todo] dn|j| | |] eqn:Ep; try (by eexists); try (by destruct (e_ret e); eexists).
  - destruct (Nat.ltb_spec (wt_round t) (ws_sent s)) as [Hlt|]; [|by eexists]. pose proof (sc_sent _ Hs).
    destruct (lookup_lt_is_Some_2 cmds (wt_round t)) as [d Hd]; [lia|]. rewrite (vget_lookup _ _ _ Hd). by eexists.
  - destruct (n <? batch_size); [|by eexists]. destruct operations; [done|]. by eexists.
  - destruct (n <? batch_size).
    + destruct (urem_ops (iter + n)) as (j & -> & o & Ho). cbn [mbind res_bind]. rewrite Ho. by eexists.
    + destruct (urem_ops (iter + batch_size)) as (j & -> & _). by eexists.
  - destruct do_sync; [|by eexists]. destruct (lookup_lt_is_Some_2 (ws_com s) (N.to_nat (wt_rid t))) as [n Hn]; [by eapply Hcom|].
    rewrite (vget_lookup _ _ _ Hn). by eexists.
  - destruct Hk as [Hk|Hk]; [destruct (between_at k s i t Hk Ht) as [_ Hpc]|destruct (in_round_at k s i t Hk Ht) as [_ Hpc]]; unfold between_pc, round_pc in Hpc; rewrite Ep in Hpc; [done|].
    destruct Hpc as (_ & _ & Hf). destruct (lookup_lt_is_Some_2 (ws_com s) (N.to_nat r)) as [n Hn]; [eapply Hcom, found_in, Hf|].
    rewrite (vget_lookup _ _ _ Hn). by eexists.
  - rewrite vset_lt by (by eapply Hcom). by eexists.
Qed.

(** ** Progress, if the calls return *)

Abbreviation step_ret := (wsync_step (fun _ _ => True)).

(** The call returns, the time is over, and no log is stuck. *)
Definition env_over : wenv := mkEnv true false 0.

(** What a thread has left to do before it is at the barrier or returns, if all replicas
    are done. *)
Definition calls_left (k : nat) (call : bool) : nat :=
  if call then Nat.max 2 (3 * (batch_size - k)) else 3 * (batch_size - k) + 1.
Definition work t : nat :=
  match wt_pc t with
  | WReset => 3 * batch_size + 3 | WRecv => 3 * batch_size + 2 | WWarm k call => calls_left k call
  | WStart | WEnd | WReturned => 0
  | WBatch _ k call => length reps + 3 + calls_left k call
  | WStuck _ => length reps + 4 | WRun _ => length reps + 3 | WFinished => length reps + 2
  | WSyncing todo dn => length todo + 1 + if dn =? length reps - length todo then 0 else nlogs + length reps + 2
  | WLogs j => nlogs - j + length reps + 2
  end.
Definition all_work s : nat := sum_list_with work (ws_ths s).

Lemma work_less s i t com p : ws_ths s !! i = Some t -> work (at_pc t p) < work t -> all_work (put_thread s i com (at_pc t p)) < all_work s.
Proof. intros Ht Hw. unfold all_work. cbn [put_thread ws_ths]. pose proof (sum_insert work _ i t (at_pc t p) Ht). lia. Qed.

(** A thread that is not in the loop, at a barrier or at its end goes on. *)
Lemma free_step s i t : sync_inv s -> ws_ths s !! i = Some t -> syncing t = false -> 0 < work t -> (wt_pc t = WRecv -> wt_round t < ws_sent s) ->
  exists s', wstep s i env_over = Ret (Some s') /\ all_work s' < all_work s.
Proof.
  intros Hinv Ht Hy Hw Hc. destruct (wstep_runs s i t env_over Hinv Ht) as [o Eo]. revert Eo. unfold wstep, syncing, work in *.
  rewrite (vget_lookup _ _ _ Ht). cbn [mbind res_bind]. cbv zeta.
  destruct (wt_pc t) as [|n []| |iter|iter n []|iter| |todo dn|j| | |] eqn:Ep; try done; try lia; cbn [env_over e_ret e_time e_stuck Nat.eqb];
    try (rewrite (proj2 (Nat.ltb_lt _ _) (Hc eq_refl))); step_cases; intros _; bool_to_prop; (eexists; split; [done|]); apply work_less; try done;
    unfold work, calls_left; rewrite ?Ep;
    repeat match goal with |- context [if ?b then _ else _] => destruct b eqn:? end; cbn in *; rewrite ?Nat.sub_diag in *; try done; lia.
Qed.

Lemma work_find s : (forall t, t ∈ ws_ths s -> work t = 0) \/ exists i t, ws_ths s !! i = Some t /\ 0 < work t.
Proof.
  destruct (decide (Forall (fun t => work t = 0) (ws_ths s))) as [H|H]; [left; by apply list.Forall_forall|right].
  apply not_Forall_Exists in H; [|intros t; apply Nat.eq_dec]. apply list.Exists_exists in H as (t & (i & Hi)%list_elem_of_lookup & Hw). exists i, t. split; [done|]. cbn in Hw. lia.
Qed.

Lemma drive (P : wstate -> Prop) : (forall s, P s -> (forall t, t ∈ ws_ths s -> work t = 0) \/ exists s', step_ret s s' /\ P s' /\ all_work s' < all_work s) ->
  forall s, P s -> exists s', rtc step_ret s s' /\ P s' /\ forall t, t ∈ ws_ths s' -> work t = 0.
Proof.
  intros Hstep s. remember (all_work s) as n eqn:En. revert s En. induction n as [n IH] using lt_wf_ind. intros s -> HP.
  destruct (Hstep s HP) as [Hz|(s1 & H1 & HP1 & Hlt)]; [exists s; split_and!; [done|done|done]|].
  destruct (IH _ Hlt s1 eq_refl HP1) as (s2 & H2 & HP2 & Hz). exists s2. split_and!; [by eapply rtc_l|done|done].
Qed.

(** Between rounds, the threads get to the barrier or return. *)
Lemma between_drive k s : static s /\ between k s /\ ws_sent s = S k ->
  (forall t, t ∈ ws_ths s -> work t = 0) \/ exists s', step_ret s s' /\ (static s' /\ between k s' /\ ws_sent s' = S k) /\ all_work s' < all_work s.
Proof.
  intros (Hs & Hb & Hsent). destruct (work_find s) as [Hz|(i & t & Ht & Hw)]; [by left|right].
  destruct (between_at k s i t Hb Ht) as [Hk Hpc].
  destruct (free_step s i t (conj Hs (ex_intro _ k (or_introl Hb))) Ht) as (s' & E & Hlt); [|done|lia|].
  { unfold syncing. unfold between_pc in Hpc. by destruct (wt_pc t). }
  assert (Hst : step_ret s s') by (by eapply step_of_thread). exists s'.
  split_and!; [done|by eapply static_step|by eapply between_thread| |done]. destruct (wstep_put _ _ _ _ E) as (? & ? & ? & _ & -> & _). done.
Qed.

(** If nobody measures, all replicas are done. *)
Lemma all_past_complete k s : static s -> in_round k s -> do_sync = true -> (forall t, t ∈ ws_ths s -> past t = true) -> all_complete s.
Proof.
  intros Hs Hb Hd Hp r c Hr. pose proof (ir_com _ _ Hb r c Hr) as Hc. rewrite Hd in Hc.
  assert (E : count_of past r (ws_ths s) = c); [|by rewrite E in Hc]. rewrite <- (static_count s r c Hs Hr). unfold count_of, count. clear Hc Hb Hs Hr.
  induction (ws_ths s) as [|t l IH]; [done|]. cbn [sum_list_with]. rewrite (Hp t) by (by left). f_equal. apply IH. intros x Hx. apply Hp. by right.
Qed.

Lemma sync_work_less s i t : ws_ths s !! i = Some t -> syncing t = true -> round_pc s t -> all_complete s ->
  exists s', wstep s i env_over = Ret (Some s') /\ all_work s' < all_work s.
Proof.
  intros Ht Hy Hpc Hall. unfold wstep, syncing, round_pc in *. rewrite (vget_lookup _ _ _ Ht). cbn [mbind res_bind]. cbv zeta.
  destruct (wt_pc t) as [| | | | | | |[|[r c] todo] dn|j| | |] eqn:Ep; try done; cbn [env_over e_ret].
  - eexists. split; [done|]. apply work_less; [done|]. unfold work. rewrite Ep. cbn [at_pc wt_pc length]. rewrite Nat.sub_0_r.
    destruct (Nat.eqb_spec dn (length reps)); [cbn; lia|]. destruct (1 <=? nlogs) eqn:E; bool_to_prop; cbn [wt_pc]; rewrite ?Nat.sub_diag; cbn; lia.
  - destruct Hpc as (_ & _ & Hf). pose proof (found_in _ _ _ _ _ Hf) as Hin. specialize (Hall r c Hin). unfold complete_at in Hall. rewrite (vget_lookup _ _ _ Hall). cbn [mbind res_bind].
    eexists. split; [done|]. apply work_less; [done|]. unfold work. rewrite Ep, Nat.eqb_refl. cbn [at_pc wt_pc length].
    destruct Hf as (pre & Epre & Hle & _). assert (Hl : length reps = length pre + S (length todo)) by (rewrite Epre, length_app; done).
    destruct (Nat.eqb_spec (dn + 1) (length reps - length todo)), (Nat.eqb_spec dn (length reps - S (length todo))); lia.
  - eexists. split; [done|]. apply work_less; [done|]. unfold work. rewrite Ep. cbn [at_pc wt_pc].
    destruct (j <? nlogs) eqn:E; bool_to_prop; rewrite ?Nat.sub_diag; cbn; lia.
Qed.

Lemma in_round_drive k s : static s /\ in_round k s ->
  (forall t, t ∈ ws_ths s -> work t = 0) \/ exists s', step_ret s s' /\ (static s' /\ in_round k s') /\ all_work s' < all_work s.
Proof.
  intros (Hs & Hb). destruct (work_find s) as [Hz|(i & t & Ht & Hw)]; [by left|right].
  assert (H : exists i s', wstep s i env_over = Ret (Some s') /\ all_work s' < all_work s).
  { destruct (decide (Forall (fun t => past t = true) (ws_ths s))) as [Hp|Hp].
    - exists i. destruct (in_round_at k s i t Hb Ht) as [_ Hpc]. pose proof (proj1 (list.Forall_lookup _ _) Hp i t Ht) as Hpt.
      assert (Hy : syncing t = true) by (unfold past, work, syncing in *; destruct (wt_pc t); done || lia).
      eapply sync_work_less; [done|done|done|]. destruct (round_syncing s t Hy Hpc) as [Hd _]. eapply all_past_complete; [done|done|done|by apply list.Forall_forall].
    - apply not_Forall_Exists in Hp; [|intros x; apply bool_eq_dec]. apply list.Exists_exists in Hp as (x & (j & Hj)%list_elem_of_lookup & Hx). exists j.
      destruct (in_round_at k s j x Hb Hj) as [_ Hpc]. change (past x <> true) in Hx.
      apply (free_step s j x (conj Hs (ex_intro _ k (or_intror Hb))) Hj); unfold past, syncing, work, round_pc in *; destruct (wt_pc x); done || lia. }
  destruct H as (j & s' & E & Hlt). assert (Hst : step_ret s s') by (by eapply step_of_thread). exists s'.
  split_and!; [done|by eapply static_step|by eapply in_round_thread|done].
Qed.

Lemma forallb_waits s : (forall t, t ∈ ws_ths s -> at_barrier t = true) -> exists s', barrier_step s = Some s' /\ step_ret s s'.
Proof. intros H. assert (E : barrier_step s = Some (mkWS (ws_com s) (ws_sent s) (map release (ws_ths s)))) by (unfold barrier_step; by rewrite (proj2 (at_barrier_all s) H)). eexists. split; [exact E|by apply step_of_barrier]. Qed.

(** No work: at the barrier or at the end. *)
Lemma work_zero t : work t = 0 -> wt_pc t = WStart \/ wt_pc t = WEnd \/ wt_pc t = WReturned.
Proof. unfold work, calls_left. destruct (wt_pc t) as [|k []| |iter|iter k []|iter| |todo dn|j| | |]; auto; lia. Qed.

(** A round ends. *)
Lemma in_round_ends k s : static s -> in_round k s -> exists s', rtc step_ret s s' /\ static s' /\ between (S k) s'.
Proof.
  intros Hs Hb. destruct (drive (fun s => static s /\ in_round k s) (in_round_drive k) s) as (s1 & H1 & [Hs1 Hb1] & Hz); [done|].
  destruct (forallb_waits s1) as (s2 & E & Hst).
  { intros t Ht. pose proof Ht as (i & Hi)%list_elem_of_lookup. destruct (in_round_at k s1 i t Hb1 Hi) as [_ Hpc]. unfold at_barrier, round_pc in *.
    destruct (work_zero t (Hz t Ht)) as [Ep|[Ep|Ep]]; by rewrite Ep in *. }
  exists s2. split_and!; [by eapply rtc_r|by eapply static_step|by eapply in_round_barrier].
Qed.

(** The next round begins, or all threads return. *)
Lemma between_sent k s : static s -> between k s -> exists s', rtc step_ret s s' /\ static s' /\ between k s' /\ ws_sent s' = S k.
Proof.
  intros Hs Hb. destruct (decide (ws_sent s = S k)) as [E|E]; [exists s; done|]. destruct (bt_sent _ _ Hb) as [H1 H2]. assert (Hk : ws_sent s = k) by lia.
  assert (Em : main_step s = Some (mkWS (ws_com s) (ws_sent s + 1) (ws_ths s))).
  { unfold main_step. pose proof (bt_lt _ _ Hb). destruct (Nat.ltb_spec (ws_sent s) (length cmds)); [|lia]. cbn [andb].
    rewrite (proj2 (forallb_forall _ _)); [done|]. intros t Ht%list_elem_of_In. apply Nat.leb_le. unfold results_of.
    pose proof (proj1 (list.Forall_forall _ _) (bt_pcs _ _ Hb) t Ht) as [Hr _]. lia. }
  destruct (phase_main s _ Hs Em) as [Hbt _]. assert (Hst : step_ret s (mkWS (ws_com s) (ws_sent s + 1) (ws_ths s))) by (by apply step_of_main).
  eexists. split_and!; [apply rtc_once, Hst|by eapply static_step|by apply Hbt|cbn; lia].
Qed.

Lemma between_ends k s : static s -> between k s ->
  exists s', rtc step_ret s s' /\ static s' /\ (in_round k s' \/ Forall (fun t => wt_pc t = WReturned) (ws_ths s')).
Proof.
  intros Hs Hb. destruct (between_sent k s Hs Hb) as (s1 & H1 & Hs1 & Hb1 & Hsent).
  destruct (drive (fun s => static s /\ between k s /\ ws_sent s = S k) (between_drive k) s1) as (s2 & H2 & (Hs2 & Hb2 & _) & Hz); [done|].
  assert (Hpc : forall t, t ∈ ws_ths s2 -> (wt_pc t = WStart /\ exists d, cmds !! k = Some d /\ d <> 0%N) \/ (wt_pc t = WReturned /\ cmds !! k = Some 0%N)).
  { intros t Ht. pose proof (proj1 (list.Forall_forall _ _) (bt_pcs _ _ Hb2) t Ht) as [_ Hpc].
    destruct (work_zero t (Hz t Ht)) as [Ep|[Ep|Ep]]; rewrite Ep in *; [by left|done|by right]. }
  destruct (decide (cmds !! k = Some 0%N)) as [E0|E0].
  - exists s2. split_and!; [by etransitivity|done|right]. apply list.Forall_forall. intros t Ht. destruct (Hpc t Ht) as [[_ (d & Hd & Hnz)]|[H _]]; [congruence|done].
  - destruct (forallb_waits s2) as (s3 & E & Hst); [intros t Ht; unfold at_barrier; by destruct (Hpc t Ht) as [[-> _]|[_ ?]]|].
    exists s3. split_and!; [eapply rtc_r; [by etransitivity|done]|by eapply static_step|left; by eapply between_barrier].
Qed.

Lemma all_return n k s : static s -> between k s -> length cmds - k <= n ->
  exists s', rtc step_ret s s' /\ Forall (fun t => wt_pc t = WReturned) (ws_ths s').
Proof.
  revert k s. induction n as [|n IH]; intros k s Hs Hb Hn; [pose proof (bt_lt _ _ Hb); lia|].
  destruct (between_ends k s Hs Hb) as (s1 & H1 & Hs1 & [Hb1|Hf]); [|by exists s1].
  destruct (in_round_ends k s1 Hs1 Hb1) as (s2 & H2 & Hs2 & Hb2). destruct (IH (S k) s2 Hs2 Hb2) as (s3 & H3 & Hf); [lia|].
  exists s3. split; [|done]. etransitivity; [exact H1|]. by etransitivity.
Qed.

Lemma inv_finishes s : sync_inv s -> exists s', rtc step_ret s s' /\ Forall (fun t => wt_pc t = WReturned) (ws_ths s').
Proof.
  intros [Hs (k & [Hk|Hk])]; [by eapply all_return|]. destruct (in_round_ends k s Hs Hk) as (s1 & E1 & Hs1 & Hk1).
  destruct (all_return _ _ _ Hs1 Hk1 (le_n _)) as (s2 & E2 & Hf). exists s2. split; [by etransitivity|done].
Qed.

(** ** Waiting for a replica at the barrier *)

(** Thread [i] is in a call, and all threads of replica [r] are at the barrier after the
    measurement. *)
Definition waiting s (i : nat) t (r : N) : Prop :=
  ws_ths s !! i = Some t /\ in_call t = true /\ forall t', t' ∈ ws_ths s -> wt_rid t' = r -> wt_pc t' = WEnd.

(** The call returns only while a thread of the replica is in a call, too. *)
Definition needs (i : nat) (r : N) s (j : nat) : Prop :=
  j = i -> exists t', t' ∈ ws_ths s /\ wt_rid t' = r /\ in_call t' = true.

Lemma call_waits s i t e : ws_ths s !! i = Some t -> in_call t = true -> e_ret e = false -> wstep s i e = Ret None.
Proof.
  intros Ht Hc He. unfold wstep, in_call in *. rewrite (vget_lookup _ _ _ Ht). cbn [mbind res_bind]. cbv zeta. rewrite He.
  by destruct (wt_pc t) as [|k []| |iter|iter k []|iter| |todo dn|j| | |].
Qed.

Lemma barrier_waiting_step s s' i t r : waiting s i t r -> wsync_step (needs i r) s s' ->
  waiting s' i t r /\ forall j t', wt_rid t' = r -> ws_ths s !! j = Some t' -> ws_ths s' !! j = Some t'.
Proof.
  intros (Hi & Hc & Hr) [j e s1 Hmay E|s1 E|s1 E].
  - assert (Hne' : j <> i).
    { intros ->. destruct (e_ret e) eqn:He; [|by rewrite (call_waits s i t e Hi Hc He) in E].
      destruct (Hmay eq_refl eq_refl) as (t' & Ht' & Hrid & Hc'). unfold in_call in Hc'. by rewrite (Hr t' Ht' Hrid) in Hc'. }
    destruct (wstep_put _ _ _ _ E) as (x & p & com & Hx & -> & _).
    assert (Hrx : wt_rid x <> r).
    { intros Hrid. pose proof (Hr x (list_elem_of_lookup_2 _ _ _ Hx) Hrid) as Ep. revert E. unfold wstep. rewrite (vget_lookup _ _ _ Hx). cbn [mbind res_bind]. by rewrite Ep. }
    split; [split_and!; [|done|]|].
    + cbn [put_thread ws_ths]. by rewrite list_lookup_insert_ne.
    + cbn [put_thread ws_ths]. intros t' (k & Hk)%list_elem_of_lookup Hrid. apply list_lookup_insert_Some in Hk as [(_ & <- & _)|[_ Hk]]; [done|].
      apply Hr; [by eapply list_elem_of_lookup_2|done].
    + intros k t' Hrid Hk. cbn [put_thread ws_ths]. rewrite list_lookup_insert_ne; [done|]. intros ->. congruence.
  - unfold barrier_step in E. destruct (forallb at_barrier (ws_ths s)) eqn:Eb; [|done]. rewrite at_barrier_all in Eb.
    specialize (Eb t (list_elem_of_lookup_2 _ _ _ Hi)). unfold at_barrier, in_call in *. by destruct (wt_pc t).
  - unfold main_step in E. destruct (_ && _); [|done]. injection E as <-. by split.
Qed.

Lemma waiting_forever s s' i t r : waiting s i t r -> rtc (wsync_step (needs i r)) s s' ->
  waiting s' i t r /\ forall j t', wt_rid t' = r -> ws_ths s !! j = Some t' -> ws_ths s' !! j = Some t'.
Proof.
  intros Hw Hr. induction Hr as [s|s s1 s2 H1 _ IH]; [by split|]. destruct (barrier_waiting_step s s1 i t r Hw H1) as [Hw1 Hsame].
  destruct (IH Hw1) as [Hw2 Hsame2]. split; [done|]. intros j t' Hrid Hj. by apply Hsame2, Hsame.
Qed.

(** ** Keeping the replicas moving *)

(** As long as a thread measures, a replica whose threads are all done has exactly one
    thread in the loop, and nobody is in another round. *)
Lemma inv_covers s : sync_inv s -> do_sync = true -> forall t', t' ∈ ws_ths s -> measuring t' = true ->
  (forall t, t ∈ ws_ths s -> wt_round t = wt_round t' /\ started t = true)
  /\ forall r c, (r, c) ∈ reps -> (forall t, t ∈ ws_ths s -> wt_rid t = r -> past t = true) -> count_of syncing r (ws_ths s) = 1.
Proof.
  intros [Hs (k & Hk)] Hd t' Ht' Em. pose proof Ht' as (j & Hj)%list_elem_of_lookup.
  destruct Hk as [Hk|Hk]; [destruct (between_at k s j t' Hk Hj) as [_ Hpc]; unfold measuring, between_pc in *; by destruct (wt_pc t')|].
  destruct (in_round_at k s j t' Hk Hj) as [Hkt _]. split.
  - intros t (i & Hi)%list_elem_of_lookup. destruct (in_round_at k s i t Hk Hi) as [-> Hpc]. split; [done|]. unfold started, round_pc in *. by destruct (wt_pc t).
  - intros r c Hr Hall. pose proof (ir_com _ _ Hk r c Hr) as Hc. rewrite Hd in Hc.
    assert (E : count_of past r (ws_ths s) = c).
    { rewrite <- (static_count s r c Hs Hr). unfold count_of, count. clear -Hall. induction (ws_ths s) as [|t l IH]; [done|]. cbn [sum_list_with]. f_equal.
      - destruct (N.eqb_spec (wt_rid t) r) as [E|]; [rewrite (Hall t) by (done || by left); done|by rewrite !andb_false_r].
      - apply IH. intros x Hx. apply Hall. by right. }
    rewrite E in Hc. destruct (ir_sync _ _ Hk Hd r c Hr Hc) as [H1|[_ Ha]]; [done|].
    assert (Hr' : (wt_rid t', wt_num t') ∈ reps) by (by eapply static_thread).
    destruct (not_complete k s j t' (wt_num t') Hs Hk Hd Hj) as [? _]; [unfold past, measuring in *; by destruct (wt_pc t')|by apply Ha|lia].
Qed.
End Sync.

(** ** The threads of a benchmark *)

(** How many threads each replica has. *)
Definition rep_counts (l : list (N * list N)) : list (N * nat) := map (fun '(r, cores) => (r, length cores)) l.

Section Benchmark.
Context {O : Type} (into_iter : rmap -> list (N * list N)) (rm : rmap) (do_sync : bool) (operations : list O) (batch_size nlogs : nat) (ds : list N).
Hypothesis Hiter : into_iter rm ≡ₚ map_to_list rm.
Hypothesis Hrm : rm <> ∅.
Hypothesis Hreg : registrable rm.
Hypothesis Hmax : rm_replicas rm <= MAX_REPLICAS_PER_LOG.
Hypothesis Hcores : forall r cores, rm !! r = Some cores -> cores <> [].
Hypothesis Hops : operations <> [].
Abbreviation reps := (rep_counts (into_iter rm)).
Abbreviation cmds := (ds ++ [0%N]).
Abbreviation steps := (wsync_step reps do_sync operations batch_size nlogs cmds).

Lemma reps_elem r c : (r, c) ∈ reps -> exists cores, rm !! r = Some cores /\ c = length cores.
Proof.
  intros ([r' cores] & [= -> ->] & Hin)%list_elem_of_fmap. exists cores. split; [|done]. rewrite Hiter in Hin. by apply elem_of_map_to_list in Hin.
Qed.

Lemma reps_ok : NoDup (map fst reps) /\ (forall r c, (r, c) ∈ reps -> (r < 128)%N /\ 0 < c) /\ reps <> [].
Proof.
  assert (Hfst : map fst reps = map fst (into_iter rm)) by (unfold rep_counts; rewrite map_map; apply map_ext; by intros []).
  split_and!.
  - rewrite Hfst, Hiter. apply NoDup_fst_map_to_list.
  - intros r c (cores & Hr & ->)%reps_elem. pose proof (Hreg r (mk_is_Some _ _ Hr)). unfold MAX_REPLICAS_PER_LOG in Hmax. split; [lia|].
    specialize (Hcores r cores Hr). destruct cores; [done|cbn; lia].
  - intros E. apply Hrm, map_to_list_empty_iff, Permutation_nil. rewrite <- Hiter. apply (f_equal length) in E. unfold rep_counts in E. rewrite length_map in E.
    by destruct (into_iter rm).
Qed.

Lemma elem_reps r cores : rm !! r = Some cores -> (r, length cores) ∈ reps.
Proof. intros Hr. apply list_elem_of_fmap. exists (r, cores). split; [done|]. rewrite Hiter. by apply elem_of_map_to_list. Qed.

Lemma reached_inv s : rtc (steps (fun _ _ => True)) (sync_init reps) s -> sync_inv reps do_sync cmds s.
Proof. destruct reps_ok as (H1 & H2 & H3). by eapply sync_inv_reachable. Qed.


End Benchmark.

(** ** Examples *)

(** A given order of steps. *)
Inductive choice := ByThread (i : nat) (e : wenv) | ByBarrier | ByMain.
Section Choices.
Context {O : Type} (reps : list (N * nat)) (do_sync : bool) (operations : list O) (batch_size nlogs : nat) (cmds : list N).

Definition choose (s : wstate) (c : choice) : option wstate :=
  match c with
  | ByThread i e => match wstep reps do_sync operations batch_size nlogs cmds s i e with Ret o => o | _ => None end
  | ByBarrier => barrier_step do_sync s
  | ByMain => main_step cmds s
  end.
Fixpoint choose_all (s : wstate) (cs : list choice) : option wstate :=
  match cs with
  | [] => Some s
  | c :: cs => match choose s c with Some s' => choose_all s' cs | None => None end
  end.

Lemma choose_all_rtc cs s s' : choose_all s cs = Some s' -> rtc (wsync_step reps do_sync operations batch_size nlogs cmds (fun _ _ => True)) s s'.
Proof.
  revert s. induction cs as [|c cs IH]; intros s; cbn; [by intros [= ->]|]. destruct (choose s c) as [s1|] eqn:E; [|done]. intros Hs.
  eapply rtc_l; [|by apply IH]. destruct c as [i e| |]; cbn in E; [|by apply step_of_barrier|by apply step_of_main].
  destruct (wstep _ _ _ _ _ _ s i e) as [o| |] eqn:Et; [|done|done]. subst o. by eapply step_of_thread.
Qed.
End Choices.

(** Two replicas, with two threads and one, batches of two of three operations, and two
    logs.  The threads warm up and start; thread 0 (of the second replica) is in a call of
    its second batch, the others have finished. *)
Definition sync_rm : rmap := {[ 0%N := [0; 1]%N; 1%N := [2]%N ]}.
Definition sync_reps : list (N * nat) := rep_counts (map_to_list sync_rm).
Definition env_time : wenv := mkEnv true true 0.
Definition sync_order : list choice :=
  ByMain :: concat (map (fun i => replicate 6 (ByThread i env_over)) [0; 1; 2]) ++ ByBarrier ::
  replicate 8 (ByThread 0 env_time) ++ replicate 2 (ByThread 1 env_over) ++ replicate 5 (ByThread 2 env_over).
Definition sync_example (do_sync : bool) : wstate :=
  default (sync_init []) (choose_all sync_reps do_sync [1; 2; 3] 2 2 [5%N; 0%N] (sync_init sync_reps)
    (if do_sync then sync_order else take 32 sync_order)).

Lemma sync_rm_ok : sync_rm <> ∅ /\ registrable sync_rm /\ rm_replicas sync_rm <= MAX_REPLICAS_PER_LOG
  /\ forall r cores, sync_rm !! r = Some cores -> cores <> [].
Proof.
  split_and!.
  - intros E%(f_equal (lookup 0%N)). done.
  - intros r Hr. destruct (decide (r = 0%N)) as [->|]; [done|]. destruct (decide (r = 1%N)) as [->|]; [done|].
    unfold sync_rm in Hr. rewrite lookup_insert_ne, lookup_singleton_ne in Hr by done. by apply is_Some_None in Hr.
  - vm_compute. lia.
  - unfold sync_rm. by intros r cores [[<- <-]|[_ [<- <-]%lookup_singleton_Some]]%lookup_insert_Some.
Qed.


Lemma sync_example_reached do_sync :
  rtc (wsync_step sync_reps do_sync [1; 2; 3] 2 2 [5%N; 0%N] (fun _ _ => True)) (sync_init sync_reps) (sync_example do_sync).
Proof. apply (choose_all_rtc _ _ _ _ _ _ (if do_sync then sync_order else take 32 sync_order)). destruct do_sync; vm_compute; reflexivity. Qed.


