(* ===== verification/VSpace.v ===== *)
(** * A replicated address space (node-replication/benches/vspace.rs)

    The benchmark of node replication on a four-level page table.  [VSpace] owns the
    root table; the other tables live in memory obtained from the allocator, here the
    field [vs_mem], a map from page addresses to tables of 512 words.

    The layout of entries and the functions that take virtual addresses apart are
    those of the crate x86, the addresses of new pages those of the allocator: both
    are parameters ([X86], [PageAlloc]), with what the code relies on in [X86Laws]
    and [PageAllocLaws]. *)

From stdpp Require Import gmap.
From S2P Require Import Prelude Bench.
Open Scope N_scope.

(** ** The crate x86 and the allocator *)

(** The flags of page-table entries; a value of one of the flag types is a set of
    them. *)
Inductive pflag := FP | FRW | FUS | FPS | FXD.
Abbreviation pflags := (list pflag).
#[export] Instance pflag_eq_dec : EqDecision pflag.
Proof. solve_decision. Defined.

(** One of the types [PML4Entry], [PDPTEntry], [PDEntry], [PTEntry], all of them
    64-bit words. *)
Record entry_ops := mkOps {
  e_new : N -> pflags -> res N;
  e_address : N -> N;
  e_present : N -> bool;
}.

Class X86 := {
  pml4e : entry_ops;
  pdpte : entry_ops;
  pde : entry_ops;
  pte : entry_ops;
  pdpt_is_page : N -> bool;
  pd_is_page : N -> bool;
  pml4_index : N -> nat;
  pdpt_index : N -> nat;
  pd_index : N -> nat;
  pt_index : N -> nat;
  huge_page_offset : N -> N;
  large_page_offset : N -> N;
  base_page_offset : N -> N;
  BASE_PAGE_SIZE : N;
  LARGE_PAGE_SIZE : N;
  HUGE_PAGE_SIZE : N;
  PML4_SLOT_SIZE : N;
  PAGE_SIZE_ENTRIES : nat;
}.

Abbreviation memory := (gmap N (list N)).

(** The address of the next page that [alloc] returns. *)
Class PageAlloc := { alloc_addr : memory -> N }.

(** What the documentation of the crate says, for addresses of 48 and physical
    addresses of 52 bits. *)
Definition entry_laws (o : entry_ops) : Prop :=
  e_present o 0 = false /\
  forall pa fl, pa mod 4096 = 0 -> pa < 2 ^ 52 ->
    exists e, e_new o pa fl = Ret e /\ e_address o e = pa /\ e_present o e = bool_decide (FP ∈ fl).

Class X86Laws `{!X86} := {
  x_pml4e : entry_laws pml4e;
  x_pdpte : entry_laws pdpte;
  x_pde : entry_laws pde;
  x_pte : entry_laws pte;
  x_pdpt_is_page pa fl e : e_new pdpte pa fl = Ret e -> pa mod 4096 = 0 -> pdpt_is_page e = bool_decide (FPS ∈ fl);
  x_pd_is_page pa fl e : e_new pde pa fl = Ret e -> pa mod 4096 = 0 -> pd_is_page e = bool_decide (FPS ∈ fl);
  x_pml4_index v : pml4_index v = N.to_nat (v / 2 ^ 39 mod 512);
  x_pdpt_index v : pdpt_index v = N.to_nat (v / 2 ^ 30 mod 512);
  x_pd_index v : pd_index v = N.to_nat (v / 2 ^ 21 mod 512);
  x_pt_index v : pt_index v = N.to_nat (v / 2 ^ 12 mod 512);
  x_huge v : huge_page_offset v = v mod 2 ^ 30;
  x_large v : large_page_offset v = v mod 2 ^ 21;
  x_base v : base_page_offset v = v mod 2 ^ 12;
  x_base_size : BASE_PAGE_SIZE = 2 ^ 12;
  x_large_size : LARGE_PAGE_SIZE = 2 ^ 21;
  x_huge_size : HUGE_PAGE_SIZE = 2 ^ 30;
  x_slot_size : PML4_SLOT_SIZE = 2 ^ 39;
  x_entries : PAGE_SIZE_ENTRIES = 512%nat;
}.

(** [alloc] returns memory that is not in use, aligned as asked for, or null; there
    is enough for [al_pages] pages. *)
Class PageAllocLaws `{!PageAlloc} (al_pages : nat) := {
  al_fresh m : alloc_addr m <> 0 -> m !! alloc_addr m = None;
  al_aligned m : alloc_addr m mod 4096 = 0;
  al_bound m : alloc_addr m < 2 ^ 52;
  al_some m : (size m < al_pages)%nat -> alloc_addr m <> 0;
}.

(** ** Rights *)

Inductive ResourceType := Binary | Memory | PageTable.

Inductive MapAction :=
  | MNone | ReadUser | ReadKernel | ReadWriteUser | ReadWriteKernel
  | ReadExecuteUser | ReadExecuteKernel | ReadWriteExecuteUser | ReadWriteExecuteKernel.
#[export] Instance MapAction_eq_dec : EqDecision MapAction.
Proof. solve_decision. Defined.

Definition to_pdpt_rights (a : MapAction) : pflags :=
  match a with
  | MNone => []
  | ReadUser => [FXD]
  | ReadKernel => [FUS; FXD]
  | ReadWriteUser => [FRW; FXD]
  | ReadWriteKernel => [FRW; FUS; FXD]
  | ReadExecuteUser => []
  | ReadExecuteKernel => [FUS]
  | ReadWriteExecuteUser => [FRW]
  | ReadWriteExecuteKernel => [FRW; FUS]
  end.

Definition to_pd_rights (a : MapAction) : pflags :=
  match a with
  | MNone => []
  | ReadUser => [FXD]
  | ReadKernel => [FUS; FXD]
  | ReadWriteUser => [FRW; FXD]
  | ReadWriteKernel => [FRW; FUS; FXD]
  | ReadExecuteUser => []
  | ReadExecuteKernel => [FUS]
  | ReadWriteExecuteUser => [FRW]
  | ReadWriteExecuteKernel => [FRW; FUS]
  end.

Definition to_pt_rights (a : MapAction) : pflags :=
  match a with
  | MNone => []
  | ReadUser => [FXD]
  | ReadKernel => [FUS; FXD]
  | ReadWriteUser => [FRW; FXD]
  | ReadWriteKernel => [FRW; FUS; FXD]
  | ReadExecuteUser => []
  | ReadExecuteKernel => [FUS]
  | ReadWriteExecuteUser => [FRW]
  | ReadWriteExecuteKernel => [FRW; FUS]
  end.

(** [fmt] of [MapAction]. *)
Definition map_action_fmt (a : MapAction) : string :=
  match a with
  | MNone => " ---"
  | ReadUser => "uR--"
  | ReadKernel => "kR--"
  | ReadWriteUser => "uRW-"
  | ReadWriteKernel => "kRW-"
  | ReadExecuteUser => "uR-X"
  | ReadExecuteKernel => "kR-X"
  | ReadWriteExecuteUser => "uRWX"
  | ReadWriteExecuteKernel => "kRWX"
  end.

(** ** Address spaces *)

Record VSpace := mkVS {
  vs_pml4 : list N;
  vs_allocs : list (N * N);
  vs_mem : memory;
}.

Definition kernel_vaddr_to_paddr (v : N) : N := v - 0.
Definition paddr_to_kernel_vaddr (p : N) : N := p + 0.

Section VSpaceOps.
Context `{!X86, !PageAlloc}.
Implicit Types (s : VSpace) (a e v : N) (i : nat).

Definition vspace_default (mem : memory) : res VSpace :=
  e ← e_new pml4e 0 [];
  Ret (mkVS (replicate PAGE_SIZE_ENTRIES e) [] mem).

(** [derive(Clone)]: the root table and the list of allocations are copied, the tables
    that the entries point to are shared. *)
Definition vspace_clone s : VSpace := mkVS (vs_pml4 s) (vs_allocs s) (vs_mem s).

(** [Drop]: the pages go back to the allocator, the last one first. *)
Definition vspace_drop s : memory :=
  fold_left (fun m (p : N * N) => delete p.1 m) (rev (vs_allocs s)) (vs_mem s).

(** [allocate_pages]; the page is zeroed. *)
Definition allocate_pages s (how_many : nat) (_typ : ResourceType) : res (N * VSpace) :=
  let new_region := alloc_addr (vs_mem s) in
  _ ← rassert (negb (new_region =? 0)) "assertion failed: !new_region.is_null()";
  Ret (kernel_vaddr_to_paddr new_region,
       mkVS (vs_pml4 s) (vs_allocs s ++ [(new_region, N.of_nat how_many * BASE_PAGE_SIZE)])
         (<[new_region := replicate (how_many * 512) 0]> (vs_mem s))).

Definition allocate_one_page s : res (N * VSpace) := allocate_pages s 1 PageTable.

Definition new_pt s : res (N * VSpace) :=
  '(paddr, s1) ← allocate_one_page s; e ← e_new pde paddr [FP; FRW; FUS]; Ret (e, s1).
Definition new_pd s : res (N * VSpace) :=
  '(paddr, s1) ← allocate_one_page s; e ← e_new pdpte paddr [FP; FRW; FUS]; Ret (e, s1).
Definition new_pdpt s : res (N * VSpace) :=
  '(paddr, s1) ← allocate_one_page s; e ← e_new pml4e paddr [FP; FRW; FUS]; Ret (e, s1).

(** The tables that entries point to, by address. *)
Definition get_pt e : N := paddr_to_kernel_vaddr (e_address pde e).
Definition get_pd e : N := paddr_to_kernel_vaddr (e_address pdpte e).
Definition get_pdpt e : N := paddr_to_kernel_vaddr (e_address pml4e e).

(** Reading and writing [table[i]] through such a pointer. *)
Definition table s a : res (list N) :=
  match vs_mem s !! a with Some t => Ret t | None => Panic "dangling page table" end.
Definition tab_get s a i : res N := t ← table s a; vget t i.
Definition tab_set s a i e : res VSpace :=
  t ← table s a; t' ← vset t i e; Ret (mkVS (vs_pml4 s) (vs_allocs s) (<[a := t']> (vs_mem s))).
Definition root_set s i e : res VSpace :=
  t' ← vset (vs_pml4 s) i e; Ret (mkVS t' (vs_allocs s) (vs_mem s)).

(** [resolve_addr]. *)
Definition resolve_addr s (addr : N) : res (option N) :=
  e4 ← vget (vs_pml4 s) (pml4_index addr);
  if negb (e_present pml4e e4) then Ret None else
  e3 ← tab_get s (get_pdpt e4) (pdpt_index addr);
  if negb (e_present pdpte e3) then Ret None else
  if pdpt_is_page e3 then Ret (Some (e_address pdpte e3 + huge_page_offset addr)) else
  e2 ← tab_get s (get_pd e3) (pd_index addr);
  if negb (e_present pde e2) then Ret None else
  if pd_is_page e2 then Ret (Some (e_address pde e2 + large_page_offset addr)) else
  e1 ← tab_get s (get_pt e2) (pt_index addr);
  if negb (e_present pte e1) then Ret None else
  Ret (Some (e_address pte e1 + base_page_offset addr)).

(** ** Mapping *)

(** The loop of [map_generic] over 1 GiB pages; it ends at the end of the table,
    after at most [k = 512 - pdpt_idx] passes. *)
Fixpoint huge_loop (k : nat) s a i (pbase psize : N) (rights : MapAction) (mapped : N) : res (VSpace * N) :=
  match k with
  | O => Ret (s, mapped)
  | S k' =>
      if (mapped <? psize) && (HUGE_PAGE_SIZE <=? psize - mapped) then
        e0 ← tab_get s a i;
        _ ← rassert (negb (e_present pdpte e0)) "assertion failed: !pdpt[pdpt_idx].is_present()";
        e ← e_new pdpte (pbase + mapped) ([FP; FPS] ++ to_pdpt_rights rights);
        s1 ← tab_set s a i e;
        huge_loop k' s1 a (i + 1) pbase psize rights (mapped + HUGE_PAGE_SIZE)
      else Ret (s, mapped)
  end.

(** The loop over 2 MiB pages. *)
Fixpoint large_loop (k : nat) s a i (pbase psize : N) (rights : MapAction) (mapped : N)
  : res (VSpace * result N unit) :=
  match k with
  | O => Ret (s, Ok mapped)
  | S k' =>
      if (mapped <? psize) && (LARGE_PAGE_SIZE <=? psize - mapped) then
        e0 ← tab_get s a i;
        if e_present pde e0 then Ret (s, Err tt)
        else
          e ← e_new pde (pbase + mapped) ([FP; FPS] ++ to_pd_rights rights);
          s1 ← tab_set s a i e;
          large_loop k' s1 a (i + 1) pbase psize rights (mapped + LARGE_PAGE_SIZE)
      else Ret (s, Ok mapped)
  end.

(** The loop over 4 KiB pages. *)
Fixpoint base_loop (k : nat) s a i (pbase psize : N) (rights : MapAction) (mapped : N)
  : res (VSpace * result N unit) :=
  match k with
  | O => Ret (s, Ok mapped)
  | S k' =>
      if mapped <? psize then
        e0 ← tab_get s a i;
        if negb (e_present pte e0) then
          e ← e_new pte (pbase + mapped) ([FP] ++ to_pt_rights rights);
          s1 ← tab_set s a i e;
          base_loop k' s1 a (i + 1) pbase psize rights (mapped + BASE_PAGE_SIZE)
        else Ret (s, Err tt)
      else Ret (s, Ok mapped)
  end.

(** An error carries the address [at]. *)
Abbreviation VResult := (result unit N).

Section Rec.
(** The recursive call of [map_generic]. *)
Variable rec : VSpace -> N -> N -> N -> MapAction -> res (VSpace * VResult).

(** [map_generic], after one of the loops: the rest of the region. *)
Definition map_rest s (vbase pbase psize : N) (rights : MapAction) (mapped : N) : res (VSpace * VResult) :=
  if mapped <? psize then rec s (vbase + mapped) (pbase + mapped) (psize - mapped) rights
  else Ret (s, Ok tt).

(** [map_generic], from the page table on. *)
Definition map_pt s (vbase pbase psize : N) (rights : MapAction) (e2 : N) : res (VSpace * VResult) :=
  _ ← rassert (e_present pde e2) "The PD entry we're relying on is not allocated?";
  if pd_is_page e2 then Ret (s, Err vbase)
  else
    let pt := get_pt e2 in
    let pt_idx := pt_index vbase in
    '(s1, r) ← base_loop (512 - pt_idx) s pt pt_idx pbase psize rights 0;
    match r with
    | Err _ => Ret (s1, Err vbase)
    | Ok mapped => map_rest s1 vbase pbase psize rights mapped
    end.

(** [map_generic], from the page directory on. *)
Definition map_pd s (pml4_idx pdpt_idx : nat) (vbase pbase psize : N) (rights : MapAction) (e3 : N)
  : res (VSpace * VResult) :=
  _ ← rassert (e_present pdpte e3) "The PDPT entry we're relying on is not allocated?";
  if pdpt_is_page e3 then Ret (s, Err vbase)
  else
    let pd := get_pd e3 in
    let pd_idx := pd_index vbase in
    e2 ← tab_get s pd pd_idx;
    if negb (e_present pde e2) then
      let vaddr_pos := PML4_SLOT_SIZE * N.of_nat pml4_idx + HUGE_PAGE_SIZE * N.of_nat pdpt_idx
                       + LARGE_PAGE_SIZE * N.of_nat pd_idx in
      if (vbase =? vaddr_pos) && (pbase mod LARGE_PAGE_SIZE =? 0) && (LARGE_PAGE_SIZE <=? psize) then
        '(s1, r) ← large_loop (512 - pd_idx) s pd pd_idx pbase psize rights 0;
        match r with
        | Err _ => Ret (s1, Err vbase)
        | Ok mapped => map_rest s1 vbase pbase psize rights mapped
        end
      else
        '(e, s1) ← new_pt s;
        s2 ← tab_set s1 pd pd_idx e;
        map_pt s2 vbase pbase psize rights e
    else map_pt s vbase pbase psize rights e2.

(** [map_generic], from the page-directory pointer table on. *)
Definition map_pdpt s (pml4_idx : nat) (vbase pbase psize : N) (rights : MapAction) (e4 : N)
  : res (VSpace * VResult) :=
  _ ← rassert (e_present pml4e e4) "The PML4 slot we need was not allocated?";
  let pdpt := get_pdpt e4 in
  let pdpt_idx := pdpt_index vbase in
  e3 ← tab_get s pdpt pdpt_idx;
  if negb (e_present pdpte e3) then
    let vaddr_pos := PML4_SLOT_SIZE * N.of_nat pml4_idx + HUGE_PAGE_SIZE * N.of_nat pdpt_idx in
    if (vbase =? vaddr_pos) && (pbase mod HUGE_PAGE_SIZE =? 0) && (HUGE_PAGE_SIZE <=? psize) then
      '(s1, mapped) ← huge_loop (512 - pdpt_idx) s pdpt pdpt_idx pbase psize rights 0;
      map_rest s1 vbase pbase psize rights mapped
    else
      '(e, s1) ← new_pd s;
      s2 ← tab_set s1 pdpt pdpt_idx e;
      map_pd s2 pml4_idx pdpt_idx vbase pbase psize rights e
  else map_pd s pml4_idx pdpt_idx vbase pbase psize rights e3.

Definition map_body s (vbase pbase psize : N) (rights : MapAction) : res (VSpace * VResult) :=
  _ ← rassert (pbase mod BASE_PAGE_SIZE =? 0) "assertion `left == right` failed";
  _ ← rassert (psize mod BASE_PAGE_SIZE =? 0) "assertion `left == right` failed";
  _ ← rassert (vbase mod BASE_PAGE_SIZE =? 0) "assertion `left == right` failed";
  _ ← rassert (bool_decide (rights <> MNone)) "assertion `left != right` failed";
  let pml4_idx := pml4_index vbase in
  e4 ← vget (vs_pml4 s) pml4_idx;
  if negb (e_present pml4e e4) then
    '(e, s1) ← new_pdpt s;
    s2 ← root_set s1 pml4_idx e;
    map_pdpt s2 pml4_idx vbase pbase psize rights e
  else map_pdpt s pml4_idx vbase pbase psize rights e4.
End Rec.

(** [map_generic]: every call maps at least one page before it calls itself. *)
Fixpoint map_upto (fuel : nat) s (vbase pbase psize : N) (rights : MapAction) : res (VSpace * VResult) :=
  match fuel with
  | O => Spin
  | S fuel' => map_body (map_upto fuel') s vbase pbase psize rights
  end.
Definition map_generic s (vbase pbase psize : N) (rights : MapAction) : res (VSpace * VResult) :=
  map_upto (S (N.to_nat (psize / BASE_PAGE_SIZE))) s vbase pbase psize rights.

(** [map_new]. *)
Definition map_new s (base size : N) (rights : MapAction) (paddr : N) : res (VSpace * result (N * N) N) :=
  _ ← rassert (base mod BASE_PAGE_SIZE =? 0) "base is not page-aligned";
  _ ← rassert (size mod BASE_PAGE_SIZE =? 0) "size is not page-aligned";
  '(s1, r) ← map_generic s base paddr size rights;
  match r with
  | Ok _ => Ret (s1, Ok (paddr, size))
  | Err at_ => Ret (s1, Err at_)
  end.

(** ** The replicated operations *)

Inductive OpcodeWr := Map (vbase length : N) (rights : MapAction) (pbase : N) | MapDevice (base paddr bound : N).
Inductive OpcodeRd := Identify (base : N).

Definition vspace_dispatch s (op : OpcodeRd) : res (result (N * N) N) :=
  match op with
  | Identify base => paddr ← resolve_addr s base; Ret (Ok (default 0 paddr, 0))
  end.

Definition vspace_dispatch_mut s (op : OpcodeWr) : res (VSpace * result (N * N) N) :=
  match op with
  | Map vbase length rights pbase =>
      '(s1, r) ← map_new s vbase length rights pbase;
      match r with
      | Ok (retaddr, len) => Ret (s1, Ok (retaddr, len))
      | Err at_ => Ret (s1, Err at_)
      end
  | MapDevice base paddr bound =>
      '(s1, r) ← map_generic s base paddr bound ReadWriteUser;
      match r with
      | Ok _ => Ret (s1, Ok (0, 0))
      | Err at_ => Ret (s1, Err at_)
      end
  end.
End VSpaceOps.

(** ** The operations of the benchmark *)

Definition PAGE_RANGE_MASK : N := N.lnot 0xffff000000000fff 64.
Definition MAP_SIZE_MASK : N := N.lnot 0xfffffffff0000fff 64.

Section Generate.
(** The numbers that [rng.gen()] returns, one after the other. *)
Variable gen : nat -> N.

(** [generate_operations]; [k] numbers have been drawn. *)
Fixpoint generate_from (nop k : nat) : list (Operation OpcodeRd OpcodeWr) :=
  match nop with
  | O => []
  | S n =>
      match gen k mod 3 with
      | 0 => ReadOperation (Identify (gen (k + 1)%nat)) :: generate_from n (k + 2)
      | 1 =>
          WriteOperation (Map (N.land (gen (k + 1)%nat) PAGE_RANGE_MASK) (N.land (gen (k + 2)%nat) MAP_SIZE_MASK)
                            ReadWriteUser (N.land (gen (k + 3)%nat) PAGE_RANGE_MASK))
          :: generate_from n (k + 4)
      | _ =>
          WriteOperation (MapDevice (N.land (gen (k + 1)%nat) PAGE_RANGE_MASK)
                            (N.land (gen (k + 2)%nat) PAGE_RANGE_MASK) (N.land (gen (k + 3)%nat) MAP_SIZE_MASK))
          :: generate_from n (k + 4)
      end
  end.
Definition generate_operations (nop : nat) : list (Operation OpcodeRd OpcodeWr) := generate_from nop 0.
End Generate.
