(* ===== verification/VSpaceSpec.v ===== *)
(** * What mapping does to the translation

    [tab s rp] is the table at the path [rp] (innermost index first).  [vs_wf]: the
    tables form a tree of full-size tables in memory, every table has a present entry,
    and pages are aligned to their size.  All writes of [map_generic] fill an empty entry, with a page or with a
    new table ([put_page], [put_table]). *)

From stdpp Require Import gmap.
From S2P Require Import Prelude VSpace.
Open Scope N_scope.

(** ** Paths *)

(** The size of what an entry of level [n] covers. *)
Definition sz (n : nat) : N := 2 ^ (48 - 9 * N.of_nat n).

(** The indices of [v] up to level [n]. *)
Definition vidx (n : nat) (v : N) : nat := N.to_nat (v / sz n mod 512).
Fixpoint vpath (n : nat) (v : N) : list nat :=
  match n with O => [] | S n' => vidx n v :: vpath n' v end.

(** The number of the entry at a path among all entries of its level. *)
Fixpoint pnum (rp : list nat) : N :=
  match rp with [] => 0 | i :: rp' => pnum rp' * 512 + N.of_nat i end.

Abbreviation in512 := (Forall (fun i => (i < 512)%nat)).

Lemma sz_S n : (n <= 4)%nat -> sz n = 512 * sz (S n).
Proof.
  intros Hn. unfold sz. change 512 with (2 ^ 9). rewrite <- N.pow_add_r. f_equal. lia.
Qed.

Lemma sz_pos n : 0 < sz n.
Proof. unfold sz. apply N.neq_0_lt_0, N.pow_nonzero. lia. Qed.

Lemma vidx_lt n v : (vidx n v < 512)%nat.
Proof. unfold vidx. pose proof (N.mod_lt (v / sz n) 512). lia. Qed.

Lemma vpath_in512 n v : in512 (vpath n v).
Proof. induction n; constructor; [apply vidx_lt|done]. Qed.

Lemma vpath_length n v : length (vpath n v) = n.
Proof. induction n; cbn; congruence. Qed.

Lemma pnum_vpath n v : (n <= 4)%nat -> v < 2 ^ 48 -> pnum (vpath n v) = v / sz n.
Proof.
  intros Hn Hv. induction n as [|n IH]; cbn [vpath pnum].
  - change (sz 0) with (2 ^ 48). by rewrite N.div_small.
  - rewrite IH by lia. unfold vidx. rewrite N2Nat.id, (sz_S n) by lia. pose proof (sz_pos (S n)).
    rewrite (N.mul_comm 512), <- N.Div0.div_div. pose proof (N.div_mod (v / sz (S n)) 512). lia.
Qed.

Lemma pnum_inj rp rp' : in512 rp -> in512 rp' -> length rp = length rp' -> pnum rp = pnum rp' -> rp = rp'.
Proof.
  intros H. revert rp'. induction H as [|i rp Hi _ IH]; intros [|i' rp'] H' Hlen E; try done.
  apply Forall_cons_iff in H' as [Hi' H']. cbn in E, Hlen.
  assert (pnum rp = pnum rp' /\ i = i') as [E1 ->] by lia. f_equal. apply IH; [done|lia|done].
Qed.

Lemma vpath_iff rp v : in512 rp -> (length rp <= 4)%nat -> v < 2 ^ 48 ->
  vpath (length rp) v = rp <-> pnum rp * sz (length rp) <= v < (pnum rp + 1) * sz (length rp).
Proof.
  intros Hrp Hlen Hv. pose proof (pnum_vpath (length rp) v Hlen Hv) as E. pose proof (sz_pos (length rp)) as Hp.
  pose proof (N.div_mod v (sz (length rp)) ltac:(lia)) as Hd.
  pose proof (N.mod_lt v (sz (length rp)) ltac:(lia)) as Hm. split; intros H.
  - rewrite H in E. rewrite E. clear H E. generalize dependent (v / sz (length rp)).
    generalize dependent (v mod sz (length rp)). intros. nia.
  - apply pnum_inj; [apply vpath_in512|done|apply vpath_length|]. rewrite E.
    symmetry. apply (N.div_unique _ _ _ (v - pnum rp * sz (length rp))); nia.
Qed.

Lemma vpath_prefix n m v : (n <= m)%nat -> exists q, vpath m v = q ++ vpath n v.
Proof.
  intros H. induction H as [|m H [q IH]]; [by exists []|]. exists (vidx (S m) v :: q). cbn. by rewrite IH.
Qed.

Section Spec.
Context {X : X86} {XL : X86Laws} {PA : PageAlloc} {pages : nat} {PL : PageAllocLaws pages}.
Implicit Types (s : VSpace) (rp q : list nat) (e a v : N) (i : nat).

(** ** Tables *)

(** The entries of level [n], and whether they are pages. *)
Definition lv (n : nat) : entry_ops :=
  match n with 1%nat => pml4e | 2%nat => pdpte | 3%nat => pde | _ => pte end.
Definition leaf (n : nat) e : bool :=
  match n with 1%nat => false | 2%nat => pdpt_is_page e | 3%nat => pd_is_page e | _ => true end.
Definition pres (n : nat) e : bool := e_present (lv n) e.
Definition child (n : nat) e : bool := pres n e && negb (leaf n e).

Fixpoint tab s rp : option (list N) :=
  match rp with
  | [] => Some (vs_pml4 s)
  | i :: rp' =>
      t ← tab s rp';
      e ← t !! i;
      if child (length rp) e then vs_mem s !! e_address (lv (length rp)) e else None
  end.
Definition slot s rp : option N :=
  match rp with [] => None | i :: rp' => t ← tab s rp'; t !! i end.

Lemma tab_cons s i rp :
  tab s (i :: rp) = e ← slot s (i :: rp);
    if child (S (length rp)) e then vs_mem s !! e_address (lv (S (length rp))) e else None.
Proof. cbn. by destruct (tab s rp). Qed.

Lemma tab_slot s i rp t : tab s (i :: rp) = Some t ->
  exists e, slot s (i :: rp) = Some e /\ child (S (length rp)) e = true
    /\ vs_mem s !! e_address (lv (S (length rp))) e = Some t.
Proof.
  rewrite tab_cons. destruct (slot s (i :: rp)) as [e|]; [|done]. cbn [mbind option_bind].
  destruct (child _ e) eqn:Ec; [|done]. by exists e.
Qed.

Lemma tab_depth s rp t : tab s rp = Some t -> (length rp <= 3)%nat.
Proof.
  destruct rp as [|i rp]; cbn [length]; [lia|]. intros (e & _ & Hc & _)%tab_slot.
  destruct (length rp) as [|[|[|n]]]; [lia|lia|lia|]. unfold child in Hc. cbn in Hc. by rewrite andb_false_r in Hc.
Qed.

Lemma tab_below s rp q : tab s rp = None -> tab s (q ++ rp) = None.
Proof. intros Hn. induction q as [|j q IH]; [done|]. cbn. by rewrite IH. Qed.

Record vs_wf (o : option (list nat)) s : Prop := {
  w_len : forall rp t, tab s rp = Some t -> length t = 512%nat;
  w_mem : forall rp e, slot s rp = Some e -> child (length rp) e = true -> is_Some (tab s rp);
  w_inj : forall rp rp' e e', slot s rp = Some e -> child (length rp) e = true ->
    slot s rp' = Some e' -> child (length rp') e' = true ->
    e_address (lv (length rp)) e = e_address (lv (length rp')) e' -> rp = rp';
  w_full : forall rp e, slot s rp = Some e -> child (length rp) e = true -> o <> Some rp ->
    exists i e', slot s (i :: rp) = Some e' /\ pres (S (length rp)) e' = true;
  w_align : forall rp e, slot s rp = Some e -> pres (length rp) e = true -> leaf (length rp) e = true ->
    e_address (lv (length rp)) e mod sz (length rp) = 0;
}.

Lemma slot_in512 o s rp e : vs_wf o s -> slot s rp = Some e -> in512 rp.
Proof.
  intros Hw. revert e. induction rp as [|i rp IH]; intros e He; [done|]. cbn in He.
  destruct (tab s rp) as [t|] eqn:Et; [|done]. cbn in He.
  constructor; [apply lookup_lt_Some in He; by rewrite (w_len _ _ Hw _ _ Et) in He|].
  destruct rp as [|j rp]; [done|]. apply tab_slot in Et as (e' & He' & _). by eapply IH.
Qed.

Lemma slot_length s rp e : slot s rp = Some e -> (1 <= length rp <= 4)%nat.
Proof.
  destruct rp as [|i rp]; [done|]. cbn. destruct (tab s rp) as [t|] eqn:Et; [|done]. apply tab_depth in Et. lia.
Qed.

(** ** Filling an entry *)

(** The writes of the code. *)
Definition entry_write s rp i e : res VSpace :=
  match rp with
  | [] => root_set s i e
  | _ => match slot s rp with
         | Some er => tab_set s (e_address (lv (length rp)) er) i e
         | None => Spin
         end
  end.

(** The state after writing into the table [t] at [rp]. *)
Definition written s rp i e (t : list N) s' : Prop :=
  vs_allocs s' = vs_allocs s
  /\ vs_pml4 s' = (match rp with [] => <[i := e]> t | _ => vs_pml4 s end)
  /\ match rp with
     | [] => vs_mem s' = vs_mem s
     | _ => exists er, slot s rp = Some er /\ child (length rp) er = true
              /\ vs_mem s !! e_address (lv (length rp)) er = Some t
              /\ vs_mem s' = <[e_address (lv (length rp)) er := <[i := e]> t]> (vs_mem s)
     end.

Lemma write_run s rp i e t e0 : tab s rp = Some t -> t !! i = Some e0 ->
  exists s', entry_write s rp i e = Ret s' /\ written s rp i e t s'.
Proof.
  intros Et Ht. pose proof (lookup_lt_Some _ _ _ Ht) as Hi. destruct rp as [|j rp]; cbn [entry_write].
  - injection Et as <-. unfold root_set. rewrite vset_lt by done. mon. by eexists.
  - apply tab_slot in Et as (er & Hs & Hc & Hm). rewrite Hs. unfold tab_set, table. cbn [length]. rewrite Hm. mon.
    rewrite vset_lt by done. mon. eexists. split; [done|]. split_and!; [done|done|]. by exists er.
Qed.

Lemma written_dom s rp i e t s' : written s rp i e t s' -> dom (vs_mem s') = dom (vs_mem s).
Proof.
  intros (_ & _ & Em). destruct rp as [|j rp]; [by rewrite Em|]. destruct Em as (er & Hs & Hc & Hm & ->).
  apply dom_insert_lookup_L. by eexists.
Qed.

(** What other tables entries point to. *)
Lemma written_mem o s rp i e t s' q e' : vs_wf o s -> written s rp i e t s' ->
  slot s q = Some e' -> child (length q) e' = true ->
  vs_mem s' !! e_address (lv (length q)) e'
  = if decide (q = rp) then Some (<[i := e]> t) else vs_mem s !! e_address (lv (length q)) e'.
Proof.
  intros Hw (_ & _ & Em) Hsl Hc'. destruct rp as [|k rp].
  - rewrite Em, decide_False; [done|]. by intros ->.
  - destruct Em as (er & Hs & Hc & Hm & ->). destruct (decide (q = k :: rp)) as [->|Hne].
    + rewrite Hsl in Hs. injection Hs as <-. apply lookup_insert_eq.
    + apply lookup_insert_ne. intros E. apply Hne. symmetry. by eapply w_inj.
Qed.

Lemma written_tabs o s rp i e t s' q : vs_wf o s -> tab s rp = Some t -> written s rp i e t s' ->
  (forall p, q <> p ++ i :: rp) ->
  tab s' q = if decide (q = rp) then Some (<[i := e]> t) else tab s q.
Proof.
  intros Hw Et Hwr. induction q as [|j q IH]; intros Hq.
  - destruct Hwr as (_ & Ep & _). cbn. rewrite Ep. destruct rp; [done|]. by rewrite decide_False by done.
  - rewrite !tab_cons. assert (Esl : slot s' (j :: q) = slot s (j :: q)).
    { cbn. rewrite IH by (intros p E; apply (Hq (j :: p)); cbn; congruence).
      destruct (decide (q = rp)) as [->|Hne]; [|done]. rewrite Et. cbn.
      apply list_lookup_insert_ne. intros ->. by apply (Hq []). }
    rewrite Esl. destruct (slot s (j :: q)) as [e'|] eqn:Hsl; cbn [mbind option_bind].
    + destruct (child (S (length q)) e') eqn:Hc.
      * by apply (written_mem o s rp i e t s' (j :: q)).
      * rewrite decide_False; [done|]. intros <-. apply tab_slot in Et as (e1 & Hs1 & Hc1 & _). congruence.
    + rewrite decide_False; [done|]. intros <-. apply tab_slot in Et as (e1 & Hs1 & _). congruence.
Qed.

Lemma not_pres_child n e : pres n e = false -> child n e = false.
Proof. unfold child. by intros ->. Qed.

Lemma decide_path (P : list nat -> Prop) rp : (forall q, (forall p, q <> p ++ rp) -> P q) -> (forall p, P (p ++ rp)) -> forall q, P q.
Proof.
  intros H1 H2 q. destruct (decide (suffix rp q)) as [[p ->]|Hn]; [apply H2|]. apply H1. intros p ->. apply Hn. by exists p.
Qed.

Lemma slot_none s rp i t e0 : tab s rp = Some t -> t !! i = Some e0 -> pres (S (length rp)) e0 = false ->
  tab s (i :: rp) = None.
Proof. intros Et Ht Hp. rewrite tab_cons. cbn. rewrite Et. cbn. rewrite Ht. cbn. by rewrite not_pres_child. Qed.

(** Filling an empty entry with a page. *)
Lemma put_page o s rp i e t e0 :
  vs_wf o s -> o = None \/ o = Some rp -> tab s rp = Some t -> t !! i = Some e0 ->
  pres (S (length rp)) e0 = false -> pres (S (length rp)) e = true -> leaf (S (length rp)) e = true ->
  e_address (lv (S (length rp))) e mod sz (S (length rp)) = 0 ->
  exists s', entry_write s rp i e = Ret s' /\ vs_wf None s' /\ dom (vs_mem s') = dom (vs_mem s)
    /\ (forall q, tab s' q = if decide (q = rp) then Some (<[i := e]> t) else tab s q)
    /\ forall q, slot s' q = if decide (q = i :: rp) then Some e else slot s q.
Proof.
  intros Hw Ho Et Ht Hp0 Hp Hlf Hal. destruct (write_run s rp i e t e0 Et Ht) as (s' & E & Hwr). exists s'.
  pose proof (lookup_lt_Some _ _ _ Ht) as Hi. pose proof (slot_none s rp i t e0 Et Ht Hp0) as Hn.
  assert (Hch : child (S (length rp)) e = false) by (unfold child; by rewrite Hlf, andb_false_r).
  assert (Etr : tab s' rp = Some (<[i := e]> t)).
  { rewrite (written_tabs o s rp i e t) by (done || intros p Ep; apply (f_equal length) in Ep; rewrite length_app in Ep; cbn in Ep; lia).
    by rewrite decide_True. }
  assert (Hn' : tab s' (i :: rp) = None).
  { rewrite tab_cons. cbn. rewrite Etr. cbn. rewrite list_lookup_insert_eq by done. cbn. by rewrite Hch. }
  assert (Etab : forall q, tab s' q = if decide (q = rp) then Some (<[i := e]> t) else tab s q).
  { apply (decide_path _ (i :: rp)).
    - intros q Hq. by apply (written_tabs o).
    - intros p. rewrite !tab_below by done. rewrite decide_False; [done|].
      intros Ep. apply (f_equal length) in Ep. rewrite length_app in Ep. cbn in Ep. lia. }
  assert (Esl : forall q, slot s' q = if decide (q = i :: rp) then Some e else slot s q).
  { intros [|j q]; [by rewrite decide_False|]. cbn [slot]. rewrite Etab. destruct (decide (q = rp)) as [->|Hne].
    - rewrite Et. cbn. destruct (decide (j = i)) as [->|Hj].
      + by rewrite list_lookup_insert_eq, decide_True.
      + by rewrite list_lookup_insert_ne, decide_False by congruence.
    - by rewrite decide_False by congruence. }
  split_and!; [done| |by eapply written_dom|done|done].
  split.
  - intros q t'. rewrite Etab. case_decide; [|by apply (w_len _ _ Hw)].
    intros [= <-]. rewrite length_insert. by apply (w_len _ _ Hw rp).
  - intros q e'. rewrite Esl, Etab. case_decide; [intros [= <-]; subst q; cbn; by rewrite Hch|].
    intros Hs Hc. case_decide; [done|]. by apply (w_mem _ _ Hw q e').
  - intros q q' e1 e2. rewrite !Esl. case_decide; [intros [= <-]; subst q; cbn; by rewrite Hch|].
    case_decide; [intros _ _ [= <-]; subst q'; cbn; by rewrite Hch|]. apply (w_inj _ _ Hw).
  - intros q e'. rewrite Esl. case_decide; [intros [= <-]; subst q; cbn; by rewrite Hch|]. intros Hs Hc _.
    destruct (decide (q = rp)) as [->|Hne]; [exists i, e; by rewrite Esl, decide_True|].
    destruct (w_full _ _ Hw q e' Hs Hc) as (k & e2 & Hk & Hpk); [destruct Ho; congruence|].
    exists k, e2. rewrite Esl, decide_False by congruence. done.
  - intros q e'. rewrite Esl. case_decide; [intros [= <-]; by subst q|]. apply (w_align _ _ Hw).
Qed.

Lemma slot_ext s s' q : (forall q, tab s' q = tab s q) -> slot s' q = slot s q.
Proof. intros E. destruct q; [done|]. cbn. by rewrite E. Qed.

Lemma wf_ext o s s' : (forall q, tab s' q = tab s q) -> vs_wf o s -> vs_wf o s'.
Proof.
  intros E [W1 W2 W3 W4 W5]. split; intros; repeat match goal with
    | Hx : context [slot s' ?q] |- _ => rewrite (slot_ext s s' q E) in Hx
    | Hx : context [tab s' ?q] |- _ => rewrite (E q) in Hx
    end; rewrite ?E; eauto.
  destruct (W4 rp e) as (i & e' & ?); try done. exists i, e'. by rewrite (slot_ext s s' _ E).
Qed.

(** A new page changes nothing until it is entered. *)
Lemma alloc_run o s : vs_wf o s -> (size (vs_mem s) < pages)%nat ->
  exists a0 s1, allocate_one_page s = Ret (a0, s1) /\ a0 mod 4096 = 0 /\ a0 < 2 ^ 52
    /\ vs_mem s !! a0 = None /\ vs_mem s1 = <[a0 := replicate 512 0]> (vs_mem s)
    /\ (forall q, tab s1 q = tab s q).
Proof.
  intros Hw Hsz. pose proof (al_some _ Hsz) as Hnz. pose proof (al_fresh _ Hnz) as Hfr.
  exists (alloc_addr (vs_mem s)). eexists. unfold allocate_one_page, allocate_pages, kernel_vaddr_to_paddr.
  rewrite (proj2 (N.eqb_neq _ _) Hnz). cbn [negb rassert]. mon. rewrite N.sub_0_r.
  split_and!; [done|apply al_aligned|apply al_bound|done|done|].
  induction q as [|i q IH]; [done|]. rewrite !tab_cons. cbn [slot]. rewrite IH.
  destruct (tab s q) as [t|] eqn:Et; [|done]. cbn [mbind option_bind].
  destruct (t !! i) as [e|] eqn:Ee; [|done]. cbn [mbind option_bind]. destruct (child _ e) eqn:Hc; [|done].
  apply lookup_insert_ne. intros E.
  assert (Hsl : slot s (i :: q) = Some e) by (cbn; by rewrite Et). destruct (w_mem _ _ Hw _ _ Hsl Hc) as [t' Ht'].
  rewrite tab_cons, Hsl in Ht'. cbn [mbind option_bind length] in Ht', Hc. rewrite Hc, <- E in Ht'. congruence.
Qed.

Lemma app_cons_ne (p : list nat) j q : p ++ j :: q <> q.
Proof. intros Ep. apply (f_equal length) in Ep. rewrite length_app in Ep. cbn in Ep. lia. Qed.

(** Table entries point to memory in use. *)
Lemma child_used o s q e a : vs_wf o s -> slot s q = Some e -> child (length q) e = true -> vs_mem s !! a = None ->
  e_address (lv (length q)) e <> a.
Proof.
  intros Hw Hs Hc Ha Eq. destruct (w_mem _ _ Hw _ _ Hs Hc) as [t' Ht']. destruct q as [|k q]; [done|].
  rewrite tab_cons, Hs in Ht'. cbn [mbind option_bind length] in Ht', Hc, Eq. rewrite Hc, Eq in Ht'. congruence.
Qed.

Lemma zero_absent n : (n <= 4)%nat -> pres n 0 = false.
Proof. intros Hn. destruct n as [|[|[|[|]]]]; [apply x_pte|apply x_pml4e|apply x_pdpte|apply x_pde|apply x_pte]. Qed.

Abbreviation new_table := (replicate 512 0).

(** Filling an empty entry with a new table: the tables, *)
Lemma put_table_tabs o s s1 rp i e t e0 a0 :
  vs_wf o s -> tab s rp = Some t -> t !! i = Some e0 -> pres (S (length rp)) e0 = false -> (length rp <= 2)%nat ->
  vs_mem s !! a0 = None -> vs_mem s1 = <[a0 := new_table]> (vs_mem s) -> (forall q, tab s1 q = tab s q) ->
  e_address (lv (S (length rp))) e = a0 -> child (S (length rp)) e = true ->
  exists s', entry_write s1 rp i e = Ret s' /\ dom (vs_mem s') = dom (vs_mem s1)
    /\ forall q, tab s' q = if decide (q = rp) then Some (<[i := e]> t)
                           else if decide (q = i :: rp) then Some new_table else tab s q.
Proof.
  intros Hw Et Ht Hp0 Hdep Hfr Em Etabs Ea Hch. pose proof (wf_ext o s s1 Etabs Hw) as Hw1.
  assert (Et1 : tab s1 rp = Some t) by (by rewrite Etabs).
  destruct (write_run s1 rp i e t e0 Et1 Ht) as (s' & E & Hwr). exists s'.
  pose proof (lookup_lt_Some _ _ _ Ht) as Hi. pose proof (slot_none s rp i t e0 Et Ht Hp0) as Hn.
  assert (Etr : tab s' rp = Some (<[i := e]> t)).
  { rewrite (written_tabs o s1 rp i e t) by (done || by intros p ?%symmetry%app_cons_ne). by rewrite decide_True. }
  assert (Hnew : tab s' (i :: rp) = Some new_table).
  { rewrite tab_cons. cbn [slot]. rewrite Etr. cbn [mbind option_bind]. rewrite list_lookup_insert_eq by done.
    cbn [mbind option_bind]. rewrite Hch, Ea. destruct Hwr as (_ & _ & Em').
    destruct rp as [|k rp]; [by rewrite Em', Em, lookup_insert_eq|].
    destruct Em' as (er & Hs & Hc & _ & ->). rewrite (slot_ext s s1 _ Etabs) in Hs.
    rewrite lookup_insert_ne, Em, lookup_insert_eq; [done|]. by apply (child_used o s (k :: rp)). }
  assert (Hz : forall j, tab s' (j :: i :: rp) = None).
  { intros j. destruct (decide (j < 512)%nat) as [Hj|Hj].
    - apply (slot_none s' (i :: rp) j new_table 0); [done|by apply lookup_replicate|]. apply zero_absent. cbn. lia.
    - rewrite tab_cons. cbn [slot]. rewrite Hnew. cbn [mbind option_bind].
      by rewrite lookup_ge_None_2 by (rewrite length_replicate; lia). }
  split_and!; [done|by eapply written_dom|]. apply (decide_path _ (i :: rp)).
  - intros q Hq. rewrite (written_tabs o s1 rp i e t s' q) by done. destruct (decide (q = rp)); [done|].
    rewrite Etabs, decide_False; [done|]. exact (Hq []).
  - intros p. rewrite decide_False by apply app_cons_ne. destruct p as [|j p _] using rev_ind.
    + by rewrite decide_True.
    + rewrite decide_False by (rewrite <- app_assoc; apply app_cons_ne). rewrite (tab_below s (i :: rp)) by done.
      rewrite <- app_assoc. apply (tab_below s' (j :: i :: rp)), Hz.
Qed.

(** ... and the entries. *)
Lemma put_table_slots s s' rp i e t e0 : tab s rp = Some t -> t !! i = Some e0 -> pres (S (length rp)) e0 = false ->
  (length rp <= 2)%nat ->
  (forall q, tab s' q = if decide (q = rp) then Some (<[i := e]> t)
                        else if decide (q = i :: rp) then Some new_table else tab s q) ->
  (forall q e', slot s' q = Some e' ->
     q = i :: rp /\ e' = e \/ e' = 0 /\ (length q <= 4)%nat \/ q <> i :: rp /\ slot s q = Some e')
  /\ forall q e', slot s q = Some e' -> q <> i :: rp -> slot s' q = Some e'.
Proof.
  intros Et Ht Hp0 Hdep Etab. split.
  - intros [|j q] e'; [done|]. cbn [slot]. rewrite Etab. destruct (decide (q = rp)) as [->|Hne].
    + rewrite Et. cbn [mbind option_bind]. intros [(<- & <- & _)|[Hne ?]]%list_lookup_insert_Some; [by left|].
      right. right. split; [congruence|done].
    + destruct (decide (q = i :: rp)) as [->|Hne']; cbn [mbind option_bind].
      * intros [-> _]%lookup_replicate. right. left. cbn. split; [done|lia].
      * right. right. split; [congruence|done].
  - intros [|k q] e' Hs Hne; [done|]. cbn [slot] in Hs |- *. rewrite Etab. destruct (decide (q = rp)) as [->|Hq].
    + rewrite Et in Hs. cbn [mbind option_bind] in *. by rewrite list_lookup_insert_ne by congruence.
    + destruct (decide (q = i :: rp)) as [->|]; [|done]. by rewrite (slot_none s rp i t e0) in Hs by done.
Qed.

Lemma put_table o s s1 rp i e t e0 a0 :
  vs_wf o s -> o = None \/ o = Some rp -> tab s rp = Some t -> t !! i = Some e0 ->
  pres (S (length rp)) e0 = false -> (length rp <= 2)%nat ->
  vs_mem s !! a0 = None -> vs_mem s1 = <[a0 := new_table]> (vs_mem s) -> (forall q, tab s1 q = tab s q) ->
  e_address (lv (S (length rp))) e = a0 -> child (S (length rp)) e = true ->
  exists s', entry_write s1 rp i e = Ret s' /\ vs_wf (Some (i :: rp)) s' /\ dom (vs_mem s') = dom (vs_mem s1)
    /\ tab s' (i :: rp) = Some new_table
    /\ (forall q e', slot s' q = Some e' -> q = i :: rp /\ e' = e \/ e' = 0 /\ (length q <= 4)%nat \/ slot s q = Some e')
    /\ forall q e', slot s q = Some e' -> q <> i :: rp -> slot s' q = Some e'.
Proof.
  intros Hw Ho Et Ht Hp0 Hdep Hfr Em Etabs Ea Hch.
  destruct (put_table_tabs o s s1 rp i e t e0 a0) as (s' & E & Hdom & Etab); try done. exists s'.
  pose proof (lookup_lt_Some _ _ _ Ht) as Hi.
  destruct (put_table_slots s s' rp i e t e0) as [Esl Hkeep]; try done.
  assert (Hold : forall q e', slot s' q = Some e' -> child (length q) e' = true ->
    q = i :: rp /\ e' = e \/ q <> i :: rp /\ slot s q = Some e').
  { intros q e' Hs Hc. destruct (Esl q e' Hs) as [?|[[-> Hl]|?]]; [by left| |by right].
    by rewrite not_pres_child in Hc by (by apply zero_absent). }
  split_and!; [done| |done|rewrite Etab, decide_False, decide_True by (done || apply (app_cons_ne [])); done| |done].
  2: { intros q e' Hs. destruct (Esl q e' Hs) as [?|[?|[_ ?]]]; tauto. }
  split.
  - intros q t'. rewrite Etab. repeat case_decide; [| |by apply (w_len _ _ Hw)]; intros [= <-].
    + rewrite length_insert. by apply (w_len _ _ Hw rp).
    + done.
  - intros q e' Hs Hc. rewrite Etab. case_decide; [done|]. case_decide; [done|].
    destruct (Hold q e' Hs Hc) as [[??]|[_ ?]]; [done|]. by apply (w_mem _ _ Hw q e').
  - intros q q' e1 e2 Hs1 Hc1 Hs2 Hc2 Eq.
    destruct (Hold q e1 Hs1 Hc1) as [[-> ->]|[_ Ho1]], (Hold q' e2 Hs2 Hc2) as [[-> ->]|[_ Ho2]].
    + done.
    + exfalso. apply (child_used o s q' e2 a0); try done. rewrite <- Eq. exact Ea.
    + exfalso. apply (child_used o s q e1 a0); try done. rewrite Eq. exact Ea.
    + by apply (w_inj _ _ Hw q q' e1 e2).
  - intros q e' Hs Hc Hne. destruct (Hold q e' Hs Hc) as [[??]|[_ Hs']]; [congruence|].
    destruct (decide (q = rp)) as [->|Hq].
    + exists i, e. cbn [slot]. rewrite Etab, decide_True by done. cbn [mbind option_bind].
      rewrite list_lookup_insert_eq by done. split; [done|]. by apply andb_prop in Hch as [? _].
    + destruct (w_full _ _ Hw q e' Hs' Hc) as (k & e2 & Hk & Hpk); [destruct Ho; congruence|].
      exists k, e2. split; [|done]. apply Hkeep; congruence.
  - intros q e' Hs Hp Hl. destruct (Esl q e' Hs) as [[-> ->]|[[-> Hlq]|[_ Hs']]].
    + unfold child in Hch. cbn [length] in Hl. by rewrite Hl, andb_false_r in Hch.
    + by rewrite zero_absent in Hp.
    + by apply (w_align _ _ Hw).
Qed.

(** ** Translation *)

(** [v] is translated by a page of level [n]. *)
Definition maps s v (pa : N) : Prop :=
  exists n e, slot s (vpath n v) = Some e /\ pres n e = true /\ leaf n e = true
    /\ pa = e_address (lv n) e + v mod sz n.

Lemma slot_anc s q rp e : slot s (q ++ rp) = Some e -> q <> [] -> rp <> [] ->
  exists er, slot s rp = Some er /\ child (length rp) er = true.
Proof.
  intros He Hq Hrp. destruct q as [|j q]; [done|]. cbn in He.
  destruct (tab s rp) as [t|] eqn:Et; [|by rewrite tab_below in He].
  destruct rp as [|i rp]; [done|]. apply tab_slot in Et as (er & ? & ? & _). by exists er.
Qed.

Lemma slot_path_anc s v n m e : slot s (vpath n v) = Some e -> (1 <= m < n)%nat ->
  exists er, slot s (vpath m v) = Some er /\ child m er = true.
Proof.
  intros He Hm. destruct (vpath_prefix m n v) as [q Eq]; [lia|]. rewrite Eq in He.
  destruct (slot_anc s q (vpath m v) e He) as (er & Hs & Hc).
  - intros ->. apply (f_equal length) in Eq. rewrite length_app, !vpath_length in Eq. cbn in Eq. lia.
  - destruct m; [lia|done].
  - exists er. by rewrite vpath_length in Hc.
Qed.

(** The translation ends at an entry that is no table. *)
Lemma maps_stop s v n e pa : slot s (vpath n v) = Some e -> child n e = false ->
  maps s v pa <-> pres n e = true /\ leaf n e = true /\ pa = e_address (lv n) e + v mod sz n.
Proof.
  intros He Hc. split.
  - intros (m & e' & He' & Hp & Hl & ->). destruct (Nat.lt_trichotomy n m) as [Hlt|[->|Hlt]].
    + pose proof (slot_length _ _ _ He) as Hn. rewrite vpath_length in Hn.
      destruct (slot_path_anc s v m n e' He') as (er & Her & Hcr); [lia|]. congruence.
    + rewrite He in He'. by injection He' as <-.
    + pose proof (slot_length _ _ _ He') as Hn. rewrite vpath_length in Hn.
      destruct (slot_path_anc s v n m e He) as (er & Her & Hcr); [lia|].
      rewrite He' in Her. injection Her as <-. unfold child in Hcr. by rewrite Hl, andb_false_r in Hcr.
  - intros (Hp & Hl & ->). by exists n, e.
Qed.

Lemma tab_read s rp er t i : slot s rp = Some er -> child (length rp) er = true -> tab s rp = Some t ->
  tab_get s (paddr_to_kernel_vaddr (e_address (lv (length rp)) er)) i = vget t i.
Proof.
  intros Hs Hc Ht. unfold tab_get, table, paddr_to_kernel_vaddr. rewrite N.add_0_r.
  destruct rp as [|j rp]; [done|]. rewrite tab_cons, Hs in Ht. cbn [mbind option_bind length] in *. rewrite Hc in Ht.
  by rewrite Ht.
Qed.

(** The next entry on the way to [v]. *)
Lemma walk_next o s v n e : vs_wf o s -> slot s (vpath n v) = Some e -> child n e = true ->
  exists e', tab_get s (paddr_to_kernel_vaddr (e_address (lv n) e)) (vidx (S n) v) = Ret e'
    /\ slot s (vpath (S n) v) = Some e'.
Proof.
  intros Hw He Hc. destruct (w_mem _ _ Hw _ _ He) as [t Ht]; [by rewrite vpath_length|].
  destruct (lookup_lt_is_Some_2 t (vidx (S n) v)) as [e' He']; [rewrite (w_len _ _ Hw _ _ Ht); apply vidx_lt|].
  exists e'. pose proof (tab_read s (vpath n v) e t (vidx (S n) v) He) as Hr. rewrite !vpath_length in Hr.
  rewrite Hr by done. split; [by apply vget_lookup|]. cbn [vpath slot]. by rewrite Ht.
Qed.

Lemma walk_root o s v : vs_wf o s -> exists e, vget (vs_pml4 s) (vidx 1 v) = Ret e /\ slot s (vpath 1 v) = Some e.
Proof.
  intros Hw. pose proof (w_len _ _ Hw [] _ eq_refl) as Hlen.
  destruct (lookup_lt_is_Some_2 (vs_pml4 s) (vidx 1 v)) as [e He]; [rewrite Hlen; apply vidx_lt|].
  exists e. split; [by apply vget_lookup|done].
Qed.

(** [resolve_addr] finds exactly the translation. *)
Lemma resolve_run o s v : vs_wf o s ->
  exists r, resolve_addr s v = Ret r /\ forall pa, r = Some pa <-> maps s v pa.
Proof.
  intros Hw. unfold resolve_addr, get_pdpt, get_pd, get_pt.
  rewrite x_pml4_index, x_pdpt_index, x_pd_index, x_pt_index, x_huge, x_large, x_base.
  change (N.to_nat (v / 2 ^ 39 mod 512)) with (vidx 1 v). change (N.to_nat (v / 2 ^ 30 mod 512)) with (vidx 2 v).
  change (N.to_nat (v / 2 ^ 21 mod 512)) with (vidx 3 v). change (N.to_nat (v / 2 ^ 12 mod 512)) with (vidx 4 v).
  assert (Hstop : forall n e, slot s (vpath n v) = Some e -> pres n e = false ->
    exists r, Ret (A := option N) None = Ret r /\ forall pa, r = Some pa <-> maps s v pa).
  { intros n e He Hp. exists None. split; [done|]. intros pa.
    rewrite (maps_stop s v n e) by (done || by apply not_pres_child). rewrite Hp. naive_solver. }
  assert (Hpage : forall n e off, slot s (vpath n v) = Some e -> pres n e = true -> leaf n e = true -> off = v mod sz n ->
    exists r, Ret (Some (e_address (lv n) e + off)) = Ret r /\ forall pa, r = Some pa <-> maps s v pa).
  { intros n e off He Hp Hl ->. eexists. split; [done|]. intros pa.
    rewrite (maps_stop s v n e) by (done || unfold child; by rewrite Hl, andb_false_r). naive_solver. }
  destruct (walk_root o s v Hw) as (e4 & E4 & S4). rewrite E4. mon.
  destruct (e_present pml4e e4) eqn:P4; cbn [negb]; [|by apply (Hstop 1%nat e4)].
  destruct (walk_next o s v 1 e4 Hw S4) as (e3 & E3 & S3); [unfold child, pres; cbn; by rewrite P4|].
  cbn [lv] in E3. rewrite E3. mon.
  destruct (e_present pdpte e3) eqn:P3; cbn [negb]; [|by apply (Hstop 2%nat e3)].
  destruct (pdpt_is_page e3) eqn:L3; [by apply (Hpage 2%nat e3)|].
  destruct (walk_next o s v 2 e3 Hw S3) as (e2 & E2 & S2); [unfold child, pres; cbn; by rewrite P3, L3|].
  cbn [lv] in E2. rewrite E2. mon.
  destruct (e_present pde e2) eqn:P2; cbn [negb]; [|by apply (Hstop 3%nat e2)].
  destruct (pd_is_page e2) eqn:L2; [by apply (Hpage 3%nat e2)|].
  destruct (walk_next o s v 3 e2 Hw S2) as (e1 & E1 & S1); [unfold child, pres; cbn; by rewrite P2, L2|].
  cbn [lv] in E1. rewrite E1. mon.
  destruct (e_present pte e1) eqn:P1; cbn [negb]; [by apply (Hpage 4%nat e1)|by apply (Hstop 4%nat e1)].
Qed.

(** ** The effect on the translation *)

Definition within (x vb m : N) : Prop := vb <= x < vb + m.

(** [m] bytes from [vb] on are translated to [pb] on, the rest as before. *)
Definition mapped_by s s' (vb pb m : N) : Prop := forall x pa, x < 2 ^ 48 ->
  maps s' x pa <-> within x vb m /\ pa = pb + (x - vb) \/ ~ within x vb m /\ maps s x pa.
Definition unmapped s (vb m : N) : Prop := forall x pa, x < 2 ^ 48 -> within x vb m -> ~ maps s x pa.
Definition taken s (vb m : N) : Prop := exists x pa, x < 2 ^ 48 /\ within x vb m /\ maps s x pa.

Lemma mapped_nil s vb pb : mapped_by s s vb pb 0.
Proof. intros x pa Hx. unfold within. split; [intros Hm; right; split; [lia|done]|intros [[? _]|[_ ?]]; [lia|done]]. Qed.

Lemma mapped_app s s1 s2 vb pb m m' : mapped_by s s1 vb pb m -> mapped_by s1 s2 (vb + m) (pb + m) m' ->
  mapped_by s s2 vb pb (m + m').
Proof.
  intros H1 H2 x pa Hx. rewrite (H2 x pa Hx), (H1 x pa Hx). unfold within.
  destruct (decide (vb <= x < vb + m)), (decide (vb + m <= x < vb + m + m')); naive_solver lia.
Qed.

Lemma unmapped_app s s1 vb pb m m' : unmapped s vb m -> mapped_by s s1 vb pb m -> unmapped s1 (vb + m) m' ->
  unmapped s vb (m + m').
Proof.
  intros H1 H2 H3 x pa Hx Hin Hm. destruct (decide (within x vb m)) as [Hw|Hw]; [by eapply H1|].
  apply (H3 x pa Hx); [unfold within in *; lia|]. apply H2; [done|]. right. done.
Qed.

Lemma taken_rest s s1 vb pb m m' : mapped_by s s1 vb pb m -> taken s1 (vb + m) m' -> taken s vb (m + m').
Proof.
  intros H1 (x & pa & Hx & Hin & Hm). exists x, pa. unfold within in *. split_and!; [done|lia|lia|].
  apply H1 in Hm as [[? _]|[_ ?]]; [unfold within in *; lia|done|done].
Qed.

Lemma taken_le s vb m m' : taken s vb m -> m <= m' -> taken s vb m'.
Proof. intros (x & pa & Hx & Hin & Hm) Hle. exists x, pa. unfold within in *. split_and!; try done; lia. Qed.

Lemma region_bound rp : in512 rp -> (length rp <= 4)%nat -> (pnum rp + 1) * sz (length rp) <= 2 ^ 48.
Proof.
  induction 1 as [|i rp Hi _ IH]; intros Hlen; [done|]. cbn [length pnum] in *. specialize (IH ltac:(lia)).
  rewrite (sz_S (length rp)) in IH by lia. pose proof (sz_pos (S (length rp))). nia.
Qed.

(** The region of an entry filled with a page. *)
Lemma page_maps o s s' rp e0 e : vs_wf o s -> slot s rp = Some e0 -> pres (length rp) e0 = false ->
  pres (length rp) e = true -> leaf (length rp) e = true ->
  (forall q, slot s' q = if decide (q = rp) then Some e else slot s q) ->
  mapped_by s s' (pnum rp * sz (length rp)) (e_address (lv (length rp)) e) (sz (length rp))
  /\ unmapped s (pnum rp * sz (length rp)) (sz (length rp)).
Proof.
  intros Hw Hs Hp0 Hp Hl Esl. pose proof (slot_length _ _ _ Hs) as Hlen. pose proof (slot_in512 _ _ _ _ Hw Hs) as H5.
  assert (Hin : forall x, x < 2 ^ 48 -> vpath (length rp) x = rp <-> within x (pnum rp * sz (length rp)) (sz (length rp))).
  { intros x Hx. rewrite vpath_iff by (done || lia). unfold within. nia. }
  split.
  - intros x pa Hx. rewrite <- Hin by done. destruct (decide (vpath (length rp) x = rp)) as [E|Hne].
    + rewrite (maps_stop s' x (length rp) e).
      2: { rewrite Esl, E. by rewrite decide_True. }
      2: { unfold child. by rewrite Hl, andb_false_r. }
      assert (Em : x mod sz (length rp) = x - pnum rp * sz (length rp)).
      { apply Hin in E; [|done]. unfold within in E. symmetry. apply (N.mod_unique _ _ (pnum rp)); nia. }
      rewrite Em. naive_solver.
    + assert (Eq : forall m, slot s' (vpath m x) = slot s (vpath m x)).
      { intros m. rewrite Esl, decide_False; [done|]. intros E. apply Hne. rewrite <- E at 1. rewrite vpath_length. done. }
      unfold maps. setoid_rewrite Eq. naive_solver.
  - intros x pa Hx Hx'. apply Hin in Hx'; [|done]. rewrite (maps_stop s x (length rp) e0).
    + rewrite Hp0. naive_solver.
    + by rewrite Hx'.
    + by apply not_pres_child.
Qed.

(** A new table changes nothing. *)
Definition same_maps s s' : Prop := forall x pa, maps s' x pa <-> maps s x pa.

Lemma table_maps s s' rp e e0 : slot s rp = Some e0 -> pres (length rp) e0 = false -> child (length rp) e = true ->
  (forall q e', slot s' q = Some e' -> q = rp /\ e' = e \/ e' = 0 /\ (length q <= 4)%nat \/ slot s q = Some e') ->
  (forall q e', slot s q = Some e' -> q <> rp -> slot s' q = Some e') -> same_maps s s'.
Proof.
  intros Hs Hp Hc Hnew Hold x pa. split; intros (n & e' & Hs' & Hp' & Hl & ->).
  - destruct (Hnew _ _ Hs') as [[Eq ->]|[[-> Hlen]|?]]; [| |by exists n, e'].
    + apply (f_equal length) in Eq. rewrite vpath_length in Eq. subst n. unfold child in Hc.
      by rewrite Hl, andb_false_r in Hc.
    + rewrite vpath_length in Hlen. by rewrite zero_absent in Hp'.
  - exists n, e'. split_and!; try done. apply Hold; [done|]. intros Eq. rewrite Eq in Hs'. rewrite Hs in Hs'.
    injection Hs' as <-. apply (f_equal length) in Eq. rewrite vpath_length in Eq. subst n. congruence.
Qed.

Lemma page_taken o s rp e : vs_wf o s -> slot s rp = Some e -> pres (length rp) e = true -> leaf (length rp) e = true ->
  taken s (pnum rp * sz (length rp)) (sz (length rp)).
Proof.
  intros Hw Hs Hp Hl. pose proof (slot_length _ _ _ Hs) as Hlen. pose proof (slot_in512 _ _ _ _ Hw Hs) as H5.
  pose proof (region_bound rp H5 ltac:(lia)) as Hb. pose proof (sz_pos (length rp)) as Hz.
  assert (Hx : pnum rp * sz (length rp) < 2 ^ 48) by nia.
  exists (pnum rp * sz (length rp)). eexists. split; [done|]. split; [unfold within; lia|].
  exists (length rp), e. split_and!; try done.
  by rewrite (proj2 (vpath_iff rp _ H5 ltac:(lia) Hx)) by nia.
Qed.

(** There is a translation below every present entry. *)
Lemma present_taken s rp e : vs_wf None s -> slot s rp = Some e -> pres (length rp) e = true ->
  taken s (pnum rp * sz (length rp)) (sz (length rp)).
Proof.
  intros Hw. remember (4 - length rp)%nat as k eqn:Ek. revert rp e Ek. induction k as [|k IH]; intros rp e Ek Hs Hp;
    pose proof (slot_length _ _ _ Hs) as Hlen; destruct (leaf (length rp) e) eqn:Hl; try by eapply page_taken.
  - by replace (length rp) with 4%nat in Hl by lia.
  - assert (Hc : child (length rp) e = true) by (unfold child; by rewrite Hp, Hl).
    destruct (w_full _ _ Hw rp e Hs Hc) as (i & e' & Hs' & Hp'); [done|].
    destruct (IH (i :: rp) e') as (x & pa & Hx & Hin & Hm); [cbn; lia|done|done|].
    exists x, pa. split; [done|]. split; [|done]. unfold within in *. cbn [length pnum] in Hin.
    pose proof (slot_in512 _ _ _ _ Hw Hs') as H5'. apply Forall_cons_iff in H5' as [Hi _].
    rewrite (sz_S (length rp)) by lia. pose proof (sz_pos (S (length rp))). nia.
Qed.
End Spec.
