(* ===== verification/VSpaceMap.v ===== *)
(** * [map_generic] and the translation

    The three loops of [map_generic] are instances of [page_loop]; a call fills part
    of the region with pages of one size and calls itself for the rest. *)

From stdpp Require Import gmap.
From S2P Require Import Prelude VSpace VSpaceSpec.
Open Scope N_scope.

Section Map.
Context {X : X86} {XL : X86Laws} {PA : PageAlloc} {pages : nat} {PL : PageAllocLaws pages}.
Implicit Types (s : VSpace) (rp q : list nat) (e a v vb pb ps : N) (i : nat).

(** ** One page *)

Lemma lv_new n pa fl : (1 <= n <= 4)%nat -> pa mod 4096 = 0 -> pa < 2 ^ 52 ->
  exists e, e_new (lv n) pa fl = Ret e /\ e_address (lv n) e = pa /\ pres n e = bool_decide (FP ∈ fl)
    /\ leaf n e = match n with 1%nat => false | 4%nat => true | _ => bool_decide (FPS ∈ fl) end.
Proof.
  intros Hn Ha Hb. assert (Hl : entry_laws (lv n)).
  { destruct n as [|[|[|[|[|]]]]]; cbn; [lia|apply x_pml4e|apply x_pdpte|apply x_pde|apply x_pte|lia]. }
  destruct Hl as [_ Hl]. destruct (Hl pa fl Ha Hb) as (e & E & Ea & Ep). exists e. split_and!; try done.
  destruct n as [|[|[|[|[|]]]]]; cbn; [lia|done|by eapply x_pdpt_is_page|by eapply x_pd_is_page|done|lia].
Qed.

Lemma page_step o s rp er i : vs_wf o s -> o = None \/ o = Some rp -> slot s rp = Some er ->
  child (length rp) er = true -> (i < 512)%nat ->
  let n := S (length rp) in
  let a := paddr_to_kernel_vaddr (e_address (lv (length rp)) er) in
  exists e0, tab_get s a i = Ret e0 /\ slot s (i :: rp) = Some e0
    /\ forall pb fl, pres n e0 = false -> pb mod 4096 = 0 -> pb mod sz n = 0 -> pb < 2 ^ 52 -> FP ∈ fl -> n = 4%nat \/ FPS ∈ fl ->
       exists e s', e_new (lv n) pb fl = Ret e /\ tab_set s a i e = Ret s' /\ vs_wf None s' /\ slot s' rp = Some er
         /\ dom (vs_mem s') = dom (vs_mem s)
         /\ (forall j, j <> i -> slot s' (j :: rp) = slot s (j :: rp))
         /\ mapped_by s s' (pnum (i :: rp) * sz n) pb (sz n) /\ unmapped s (pnum (i :: rp) * sz n) (sz n).
Proof.
  intros Hw Ho Hs Hc Hi n a. destruct (w_mem _ _ Hw _ _ Hs Hc) as [t Ht]. pose proof (slot_length _ _ _ Hs) as Hlen.
  pose proof (tab_depth _ _ _ Ht) as Hdep.
  destruct (lookup_lt_is_Some_2 t i) as [e0 He0]; [by rewrite (w_len _ _ Hw _ _ Ht)|].
  exists e0. assert (Hs0 : slot s (i :: rp) = Some e0) by (cbn; by rewrite Ht).
  split_and!; [unfold a; rewrite (tab_read s rp er t) by done; by apply vget_lookup|done|].
  intros pb fl Hp0 Hal Hal' Hb HP HPS.
  destruct (lv_new n pb fl) as (e & Ee & Ea & Ep & El); [unfold n; lia|done|done|].
  rewrite bool_decide_true in Ep by done.
  assert (Hleaf : leaf n e = true).
  { rewrite El. unfold n in *. destruct (length rp) as [|[|[|[|]]]]; try done; try lia;
      apply bool_decide_true; destruct HPS; [lia|done|lia|done]. }
  destruct (put_page o s rp i e t e0) as (s' & Ew & Hw' & Hdom & Etab & Esl); try done; [by fold n; rewrite Ea|].
  exists e, s'. split_and!; try done.
  - unfold a, paddr_to_kernel_vaddr. rewrite N.add_0_r. destruct rp as [|k rp]; [done|]. unfold entry_write in Ew.
    by rewrite Hs in Ew.
  - rewrite Esl, decide_False; [done|]. intros Eq. by apply (app_cons_ne [] i rp).
  - intros j Hj. rewrite Esl, decide_False by congruence. done.
  - rewrite <- Ea. by apply (page_maps o s s' (i :: rp) e0).
  - by apply (page_maps o s s' (i :: rp) e0 e).
Qed.

(** ** The loops *)

Fixpoint page_loop (n k : nat) s a i pb ps (fl : pflags) (mapped : N) : res (VSpace * result N unit) :=
  match k with
  | O => Ret (s, Ok mapped)
  | S k' =>
      if (mapped <? ps) && (sz n <=? ps - mapped) then
        e0 ← tab_get s a i;
        if pres n e0 then Ret (s, Err tt)
        else
          e ← e_new (lv n) (pb + mapped) fl;
          s1 ← tab_set s a i e;
          page_loop n k' s1 a (i + 1) pb ps fl (mapped + sz n)
      else Ret (s, Ok mapped)
  end.

Definition huge_panic : string := "assertion failed: !pdpt[pdpt_idx].is_present()".

Lemma huge_loop_eq k s a i pb ps rights m :
  huge_loop k s a i pb ps rights m
  = '(s', r) ← page_loop 2 k s a i pb ps ([FP; FPS] ++ to_pdpt_rights rights) m;
    match r with Ok m' => Ret (s', m') | Err _ => Panic huge_panic end.
Proof.
  revert s i m. induction k as [|k IH]; intros s i m; [done|]. cbn [huge_loop page_loop]. rewrite x_huge_size.
  change (2 ^ 30) with (sz 2). destruct (_ && _); [|done]. destruct (tab_get s a i) as [e0| |]; [|done|done]. mon.
  unfold pres. cbn [lv]. destruct (e_present pdpte e0); [done|]. cbn [negb rassert]. mon.
  destruct (e_new pdpte (pb + m) _) as [e| |]; [|done|done]. mon.
  destruct (tab_set s a i e) as [s1| |]; [|done|done]. mon. apply IH.
Qed.

Lemma large_loop_eq k s a i pb ps rights m :
  large_loop k s a i pb ps rights m = page_loop 3 k s a i pb ps ([FP; FPS] ++ to_pd_rights rights) m.
Proof.
  revert s i m. induction k as [|k IH]; intros s i m; [done|]. cbn [large_loop page_loop]. rewrite x_large_size.
  change (2 ^ 21) with (sz 3). destruct (_ && _); [|done]. destruct (tab_get s a i) as [e0| |]; [|done|done]. mon.
  unfold pres. cbn [lv]. destruct (e_present pde e0); [done|].
  destruct (e_new pde (pb + m) _) as [e| |]; [|done|done]. mon.
  destruct (tab_set s a i e) as [s1| |]; [|done|done]. mon. apply IH.
Qed.

Lemma base_loop_eq k s a i pb ps rights m : ps mod sz 4 = 0 -> m mod sz 4 = 0 ->
  base_loop k s a i pb ps rights m = page_loop 4 k s a i pb ps ([FP] ++ to_pt_rights rights) m.
Proof.
  intros Hps. revert s i m. induction k as [|k IH]; intros s i m Hm; [done|]. cbn [base_loop page_loop].
  rewrite x_base_size. change (2 ^ 12) with (sz 4).
  assert (Hg : (m <? ps) = (m <? ps) && (sz 4 <=? ps - m)).
  { destruct (N.ltb_spec m ps) as [Hlt|]; [|done]. cbn [andb]. symmetry. apply N.leb_le.
    apply N.Div0.div_exact in Hps, Hm. pose proof (sz_pos 4). generalize dependent (ps / sz 4).
    generalize dependent (m / sz 4). intros q Hq p Hp. assert (q < p) by nia. nia. }
  rewrite <- Hg. destruct (m <? ps); [|done]. destruct (tab_get s a i) as [e0| |]; [|done|done]. mon.
  unfold pres. cbn [lv]. destruct (e_present pte e0); [done|]. cbn [negb].
  destruct (e_new pte (pb + m) _) as [e| |]; [|done|done]. mon.
  destruct (tab_set s a i e) as [s1| |]; [|done|done]. mon. apply IH.
  rewrite N.Div0.add_mod, Hm, N.Div0.mod_same. done.
Qed.

(** What a loop does from its [m]-th byte on. *)
Definition loop_out n k s vb pb ps m (r : res (VSpace * result N unit)) : Prop :=
  exists s' r', r = Ret (s', r')
    /\ vs_wf None s' /\ dom (vs_mem s') = dom (vs_mem s)
    /\ exists m', m <= m' <= ps /\ mapped_by s s' (vb + m) (pb + m) (m' - m) /\ unmapped s (vb + m) (m' - m)
       /\ (m' - m) mod sz n = 0
       /\ match r' with
          | Ok m1 => m1 = m' /\ ((0 < k)%nat -> m < ps -> sz n <= ps - m -> m < m')
          | Err _ => m' < ps /\ sz n <= ps - m' /\ taken s' (vb + m') (sz n)
          end.

(** The loop ends before its first page. *)
Lemma loop_stop n k s vb pb ps m r' : vs_wf None s -> m <= ps ->
  match r' with
  | Ok m1 => m1 = m /\ ~ ((0 < k)%nat /\ m < ps /\ sz n <= ps - m)
  | Err _ => m < ps /\ sz n <= ps - m /\ taken s (vb + m) (sz n)
  end -> loop_out n k s vb pb ps m (Ret (s, r')).
Proof.
  intros Hw Hm Hr. exists s, r'. split_and!; try done. exists m. rewrite N.sub_diag.
  split_and!; try lia; [apply mapped_nil|intros x pa _ ?; unfold within in *; lia|done|].
  destruct r'; [|done]. destruct Hr as [-> Hr]. split; [done|]. intros. exfalso. by apply Hr.
Qed.

Lemma page_loop_run o s rp er k i vb pb ps fl m :
  let n := S (length rp) in
  vs_wf o s -> slot s rp = Some er -> child (length rp) er = true -> (i + k = 512)%nat ->
  o = None \/ o = Some rp /\ (0 < k)%nat /\ m < ps /\ sz n <= ps - m
              /\ (forall e0, slot s (i :: rp) = Some e0 -> pres n e0 = false) ->
  vb + m = (pnum rp * 512 + N.of_nat i) * sz n -> m <= ps ->
  (pb + m) mod 4096 = 0 -> (pb + m) mod sz n = 0 -> sz n mod 4096 = 0 -> pb + ps <= 2 ^ 52 -> FP ∈ fl -> n = 4%nat \/ FPS ∈ fl ->
  loop_out n k s vb pb ps m (page_loop n k s (paddr_to_kernel_vaddr (e_address (lv (length rp)) er)) i pb ps fl m).
Proof.
  intros n. revert o s i m. induction k as [|k IH]; intros o s i m Hw Hs Hc Hik Ho Evb Hm Hal Hal' Hsz Hpb HP HPS.
  - destruct Ho as [->|(_ & ? & _)]; [|lia]. apply loop_stop; [done|done|]. split; [done|lia].
  - cbn [page_loop]. destruct (N.ltb_spec m ps) as [Hlt|Hge].
    2: { destruct Ho as [->|(_ & _ & ? & _)]; [|lia]. apply loop_stop; [done|done|]. split; [done|lia]. }
    destruct (N.leb_spec (sz n) (ps - m)) as [Hfit|Hno]; cbn [andb].
    2: { destruct Ho as [->|(_ & _ & _ & ? & _)]; [|lia]. apply loop_stop; [done|done|]. split; [done|lia]. }
    destruct (page_step o s rp er i Hw) as (e0 & E0 & Hs0 & Hstep); [destruct Ho as [?|[? _]]; auto|done|done|lia|].
    cbn [pnum] in Hstep. rewrite E0. mon. destruct (pres n e0) eqn:Hp0.
    + destruct Ho as [->|(_ & _ & _ & _ & Habs)]; [|by rewrite (Habs e0 Hs0) in Hp0].
      apply loop_stop; [done|done|]. split_and!; [done|done|].
      rewrite Evb. by apply (present_taken s (i :: rp) e0).
    + destruct (Hstep (pb + m) fl) as (e & s1 & Ee & Es & Hw1 & Hs1 & Hd1 & _ & Hmap & Hun); try done; [pose proof (sz_pos n); lia|].
      fold n in Ee, Hmap, Hun. rewrite Ee. mon. rewrite Es. mon. rewrite <- Evb in Hmap, Hun.
      destruct (IH None s1 (i + 1)%nat (m + sz n)) as (s2 & r & E2 & Hw2 & Hd2 & m' & Hm' & Hmap2 & Hun2 & Hmod & Hr);
        try done; try lia; [by left|..].
      { rewrite N.add_assoc, N.Div0.add_mod, Hal, Hsz. done. }
      { rewrite N.add_assoc, N.Div0.add_mod, Hal', N.Div0.mod_same. done. }
      exists s2, r. split_and!; [done|done|congruence|]. exists m'.
      rewrite (N.add_assoc vb) in Hmap2, Hun2. rewrite (N.add_assoc pb) in Hmap2. replace (m' - m) with (sz n + (m' - (m + sz n))) by lia.
      split_and!; try lia.
      * by eapply mapped_app.
      * by eapply unmapped_app.
      * rewrite N.Div0.add_mod, N.Div0.mod_same, Hmod. by rewrite N.Div0.mod_0_l.
      * destruct r as [m1|]; [destruct Hr as [-> _]|done]. split; [done|]. pose proof (sz_pos n). lia.
Qed.

(** ** New tables *)

Lemma install_table o s rp i t e0 : vs_wf o s -> o = None \/ o = Some rp -> tab s rp = Some t -> t !! i = Some e0 ->
  pres (S (length rp)) e0 = false -> (length rp <= 2)%nat -> (size (vs_mem s) < pages)%nat ->
  exists e s1 s2,
    ('(paddr, s1) ← allocate_one_page s; e ← e_new (lv (S (length rp))) paddr [FP; FRW; FUS]; Ret (e, s1)) = Ret (e, s1)
    /\ (rp = [] -> root_set s1 i e = Ret s2)
    /\ (forall er, slot s rp = Some er ->
          tab_set s1 (paddr_to_kernel_vaddr (e_address (lv (length rp)) er)) i e = Ret s2)
    /\ vs_wf (Some (i :: rp)) s2 /\ size (vs_mem s2) = S (size (vs_mem s)) /\ tab s2 (i :: rp) = Some (replicate 512 0)
    /\ slot s2 (i :: rp) = Some e /\ child (S (length rp)) e = true /\ same_maps s s2.
Proof.
  intros Hw Ho Ht He0 Hp0 Hlen Hsz. destruct (alloc_run o s Hw Hsz) as (a0 & s1 & Ea & Hal & Hb & Hfr & Em & Etab).
  destruct (lv_new (S (length rp)) a0 [FP; FRW; FUS]) as (e & Ee & Eadr & Ep & El); [lia|done|done|].
  rewrite bool_decide_true in Ep by set_solver.
  assert (Hc : child (S (length rp)) e = true).
  { unfold child. rewrite Ep, El. destruct (length rp) as [|[|[|]]]; [done| | |lia]; by rewrite bool_decide_false by set_solver. }
  destruct (put_table o s s1 rp i e t e0 a0) as (s2 & Ew & Hw2 & Hdom & Ht2 & Hnew & Hold); try done.
  exists e, s1, s2. rewrite Ea. mon. rewrite Ee. mon.
  assert (Hsl : slot s2 (i :: rp) = Some e).
  { rewrite tab_cons in Ht2. destruct (slot s2 (i :: rp)) as [e2|] eqn:E2; [|done].
    destruct (Hnew _ _ E2) as [[_ ->]|[[-> _]|E3]]; [done| |].
    - cbn [mbind option_bind] in Ht2. by rewrite not_pres_child in Ht2 by (apply zero_absent; lia).
    - cbn in E3. rewrite Ht in E3. cbn in E3. rewrite He0 in E3. injection E3 as <-.
      cbn [mbind option_bind] in Ht2. by rewrite not_pres_child in Ht2. }
  split_and!; try done.
  - intros ->. exact Ew.
  - intros er Her. unfold paddr_to_kernel_vaddr. rewrite N.add_0_r. destruct rp as [|k rp]; [done|]. unfold entry_write in Ew.
    by rewrite (slot_ext s s1 _ Etab), Her in Ew.
  - rewrite <- !size_dom, Hdom, Em, dom_insert_L, size_union, size_singleton; [done|].
    apply disjoint_singleton_l. by apply not_elem_of_dom.
  - apply (table_maps s s2 (i :: rp) e e0); try done. cbn. by rewrite Ht.
Qed.

(** ** What a call returns *)

(** The memory that calls may use. *)
Section Cap.
Variable cap : nat.
Hypothesis Hcap : (cap <= pages)%nat.

Definition outcome s vb pb ps (r : res (VSpace * result unit N)) : Prop :=
  (exists s', r = Ret (s', Ok tt) /\ vs_wf None s' /\ (size (vs_mem s') <= cap)%nat /\ unmapped s vb ps /\ mapped_by s s' vb pb ps)
  \/ (exists s' at_ m, r = Ret (s', Err at_) /\ vs_wf None s' /\ (size (vs_mem s') <= cap)%nat /\ within at_ vb ps /\ m < ps
        /\ unmapped s vb m /\ mapped_by s s' vb pb m
        /\ taken s vb ps)
  \/ (r = Panic huge_panic /\ sz 2 <= ps /\ taken s vb ps).

Lemma out_same s s1 vb pb ps r : same_maps s s1 -> outcome s1 vb pb ps r -> outcome s vb pb ps r.
Proof.
  intros Hs. assert (Hu : forall m, unmapped s1 vb m -> unmapped s vb m).
  { intros m H x pa Hx Hin Hm. apply (H x pa Hx Hin). by apply Hs. }
  assert (Hm : forall s' m, mapped_by s1 s' vb pb m -> mapped_by s s' vb pb m).
  { intros s' m H x pa Hx. rewrite (H x pa Hx), (Hs x pa). done. }
  assert (Ht : taken s1 vb ps -> taken s vb ps).
  { intros (x & pa & ? & ? & ?%Hs). by exists x, pa. }
  intros [(s' & -> & ? & ? & ? & ?)|[(s' & at_ & m & -> & ? & ? & ? & ? & ? & ? & ?)|(-> & ? & ?)]].
  - left. exists s'. split_and!; auto.
  - right. left. exists s', at_, m. split_and!; auto.
  - right. right. auto.
Qed.

Lemma out_rest s s1 vb pb ps m r : unmapped s vb m -> mapped_by s s1 vb pb m -> m <= ps ->
  outcome s1 (vb + m) (pb + m) (ps - m) r -> outcome s vb pb ps r.
Proof.
  intros Hu Hm Hle. assert (Ht : taken s1 (vb + m) (ps - m) -> taken s vb ps).
  { intros H. eapply taken_le; [by eapply taken_rest|lia]. }
  intros [(s' & -> & ? & ? & ? & ?)|[(s' & at_ & m' & -> & ? & ? & ? & ? & ? & ? & ?)|(-> & ? & ?)]].
  - left. exists s'. replace ps with (m + (ps - m)) by lia. split_and!; [done|done|done|by eapply unmapped_app|by eapply mapped_app].
  - right. left. exists s', at_, (m + m'). split_and!; [done|done|done|unfold within in *; lia|lia|by eapply unmapped_app|by eapply mapped_app|auto].
  - right. right. split_and!; [done|lia|auto].
Qed.

(** ** The body *)

Record geo vb pb ps : Prop := {
  g_vb : vb mod 4096 = 0;
  g_pb : pb mod 4096 = 0;
  g_ps : ps mod 4096 = 0;
  g_pos : 0 < ps;
  g_vmax : vb + ps <= 2 ^ 48;
  g_pmax : pb + ps <= 2 ^ 52;
}.

(** Enough memory for three tables per call, of which [k] are made. *)
Definition budget s ps (k : nat) : Prop := (size (vs_mem s) + 3 * N.to_nat (ps / 4096) <= cap + k)%nat.

Lemma budget_alloc s vb pb ps k : geo vb pb ps -> budget s ps k -> (k <= 2)%nat -> (size (vs_mem s) < pages)%nat.
Proof.
  intros [] Hb Hk. unfold budget in Hb. apply N.Div0.div_exact in g_ps0. assert (1 <= ps / 4096) by lia. lia.
Qed.

Lemma budget_size s vb pb ps : geo vb pb ps -> budget s ps 3 -> (size (vs_mem s) <= cap)%nat.
Proof. intros [] Hb. unfold budget in Hb. apply N.Div0.div_exact in g_ps0. assert (1 <= ps / 4096) by lia. lia. Qed.

Lemma aligned_path n vb : (n <= 4)%nat -> vb < 2 ^ 48 -> vb mod sz n = 0 -> pnum (vpath n vb) * sz n = vb.
Proof. intros Hn Hv Hm. rewrite pnum_vpath by done. apply N.Div0.div_exact in Hm. lia. Qed.

Lemma sz_aligned n x : (n <= 4)%nat -> x mod sz n = 0 -> x mod 4096 = 0.
Proof.
  intros Hn Hx. assert (Hs : sz n mod 4096 = 0) by (destruct n as [|[|[|[|[|]]]]]; [done..|lia]).
  apply N.Div0.div_exact in Hx, Hs. rewrite Hx, Hs, <- N.mul_assoc, N.mul_comm. apply N.Div0.mod_mul.
Qed.

Lemma page_add x y : x mod 4096 = 0 -> y mod 4096 = 0 -> (x + y) mod 4096 = 0.
Proof. intros Hx Hy. by rewrite N.Div0.add_mod, Hx, Hy. Qed.

Lemma page_sub x y : x mod 4096 = 0 -> y mod 4096 = 0 -> 0 < y <= x ->
  (x - y) mod 4096 = 0 /\ (x - y) / 4096 + 1 <= x / 4096.
Proof.
  intros Hx Hy Hle. apply N.Div0.div_exact in Hx, Hy. generalize dependent (y / 4096). generalize dependent (x / 4096).
  intros p -> q ->. replace (4096 * p - 4096 * q) with ((p - q) * 4096) by lia.
  rewrite N.Div0.mod_mul, N.div_mul by done. lia.
Qed.

Lemma page_sub_mod x y : x mod 4096 = 0 -> y mod 4096 = 0 -> y <= x -> (x - y) mod 4096 = 0.
Proof.
  intros Hx Hy Hle. destruct (decide (y = 0)) as [->|Hne]; [by rewrite N.sub_0_r|]. apply page_sub; [done|done|lia].
Qed.

Lemma taken_here s n vb pb ps e : geo vb pb ps -> slot s (vpath n vb) = Some e -> pres n e = true -> leaf n e = true ->
  taken s vb ps.
Proof.
  intros [] Hs Hp Hl. exists vb. eexists. split; [lia|]. split; [unfold within; lia|]. by exists n, e.
Qed.

(** A loop, from its start. *)
Lemma chunk n o s er vb pb ps fl : let i := vidx (S n) vb in
  geo vb pb ps -> vs_wf o s -> slot s (vpath n vb) = Some er -> child n er = true -> (1 <= n <= 3)%nat ->
  o = None \/ o = Some (vpath n vb) /\ (forall e0, slot s (vpath (S n) vb) = Some e0 -> pres (S n) e0 = false) ->
  vb mod sz (S n) = 0 -> pb mod sz (S n) = 0 -> sz (S n) <= ps -> FP ∈ fl -> S n = 4%nat \/ FPS ∈ fl ->
  exists s' r, page_loop (S n) (512 - i) s (paddr_to_kernel_vaddr (e_address (lv n) er)) i pb ps fl 0 = Ret (s', r)
    /\ vs_wf None s' /\ dom (vs_mem s') = dom (vs_mem s)
    /\ match r with
       | Ok m => 0 < m <= ps /\ m mod 4096 = 0 /\ mapped_by s s' vb pb m /\ unmapped s vb m
       | Err _ => taken s vb ps /\ exists m, m < ps /\ mapped_by s s' vb pb m /\ unmapped s vb m
       end.
Proof.
  intros i [] Hw Hs Hc Hn Ho Hvb Hpb Hps HP HPS. pose proof (vidx_lt (S n) vb) as Hi. fold i in Hi.
  destruct (page_loop_run o s (vpath n vb) er (512 - i) i vb pb ps fl 0)
    as (s' & r & E & Hw' & Hd & m & Hm & Hmap & Hun & Hmod & Hr);
    rewrite ?vpath_length, ?N.add_0_r, ?N.sub_0_r in *; try done; try lia.
  - destruct Ho as [->|[-> Habs]]; [by left|]. right. split_and!; try done; lia.
  - rewrite <- (aligned_path (S n) vb) at 1 by (lia || done). done.
  - apply (sz_aligned (S n)); [lia|]. apply N.Div0.mod_same.
  - exists s', r. split_and!; try done. destruct r as [m1|[]].
    + destruct Hr as [-> Hpos]. split_and!; try done; [lia..|]. apply (sz_aligned (S n)); [lia|done].
    + destruct Hr as (Hlt & Hfit & Htk). split; [|by exists m].
      eapply taken_le; [by eapply taken_rest|]. lia.
Qed.

Section Body.
Variable rec : VSpace -> N -> N -> N -> MapAction -> res (VSpace * result unit N).
Variable rights : MapAction.
Variables vb pb ps : N.
Hypothesis Hgeo : geo vb pb ps.
Hypothesis Hrec : forall s vb pb ps', ps' < ps -> geo vb pb ps' -> vs_wf None s -> budget s ps' 0 ->
  outcome s vb pb ps' (rec s vb pb ps' rights).

Lemma after_chunk s0 s s' (r : result N unit) : same_maps s0 s -> vs_wf None s' -> dom (vs_mem s') = dom (vs_mem s) -> budget s ps 3 ->
  match r with
  | Ok m => 0 < m <= ps /\ m mod 4096 = 0 /\ mapped_by s s' vb pb m /\ unmapped s vb m
  | Err _ => taken s vb ps /\ exists m, m < ps /\ mapped_by s s' vb pb m /\ unmapped s vb m
  end ->
  outcome s0 vb pb ps match r with Err _ => Ret (s', Err vb) | Ok m => map_rest rec s' vb pb ps rights m end.
Proof.
  intros Hsame Hw' Hd Hb Hr. pose proof (budget_size s vb pb ps Hgeo Hb) as Hle.
  assert (Hsz : size (vs_mem s') = size (vs_mem s)) by (by rewrite <- !size_dom, Hd). rewrite <- Hsz in Hle. apply (out_same s0 s); [done|]. destruct r as [m|[]].
  - destruct Hr as (Hm & Hmod & Hmap & Hun). unfold map_rest. destruct (N.ltb_spec m ps) as [Hlt|Hge].
    + apply (out_rest s s' vb pb ps m); try done; [lia|]. pose proof Hgeo as [].
      destruct (page_sub ps m) as [Hsub Hdiv]; [done|done|lia|]. apply Hrec; [lia| |done|].
      * split; try done; try lia; by apply page_add.
      * unfold budget in *. lia.
    + assert (m = ps) as -> by lia. left. exists s'. done.
  - destruct Hr as (Ht & m & Hm & Hmap & Hun). right. left. exists s', vb, m. pose proof (g_pos _ _ _ Hgeo).
    split_and!; try done; unfold within; lia.
Qed.

(** The table at [rp] is in use or new. *)
Definition entered (o : option (list nat)) rp s : Prop := o = None \/ o = Some rp /\ tab s rp = Some (replicate 512 0).

Lemma new_absent o n s e0 : (n <= 3)%nat -> entered o (vpath n vb) s -> slot s (vpath (S n) vb) = Some e0 ->
  o = None \/ o = Some (vpath n vb) /\ pres (S n) e0 = false.
Proof.
  intros Hn [->|[-> Ht]] Hs; [by left|]. right. split; [done|]. cbn [vpath slot] in Hs. rewrite Ht in Hs. cbn [mbind option_bind] in Hs.
  apply lookup_replicate in Hs as [-> _]. apply zero_absent. lia.
Qed.

(** A page in the way. *)
Lemma page_out s0 s o n e : same_maps s0 s -> vs_wf o s -> budget s ps 3 -> entered o (vpath n vb) s -> slot s (vpath n vb) = Some e ->
  (1 <= n)%nat -> pres n e = true -> leaf n e = true -> outcome s0 vb pb ps (Ret (s, Err vb)).
Proof.
  intros Hsame Hw Hb Ho Hs Hn Hp Hl. apply (out_same s0 s); [done|]. right. left. exists s, vb, 0. pose proof (g_pos _ _ _ Hgeo).
  split_and!; try done.
  - destruct Ho as [->|[-> Ht]]; [done|]. destruct n as [|n]; [lia|]. cbn [vpath] in *. rewrite tab_cons, Hs in Ht.
    cbn [mbind option_bind] in Ht. rewrite vpath_length in Ht. unfold child in Ht. by rewrite Hl, andb_false_r in Ht.
  - by apply (budget_size s vb pb ps).
  - unfold within. lia.
  - intros x pa _ ?. unfold within in *. lia.
  - apply mapped_nil.
  - by eapply taken_here.
Qed.

Lemma map_pt_out s0 s o e2 : same_maps s0 s -> vs_wf o s -> budget s ps 3 -> slot s (vpath 3 vb) = Some e2 ->
  pres 3 e2 = true -> entered o (vpath 3 vb) s -> outcome s0 vb pb ps (map_pt rec s vb pb ps rights e2).
Proof.
  intros Hsame Hw Hb Hs Hp Ho. unfold map_pt. change (e_present pde e2) with (pres 3 e2). rewrite Hp. cbn [rassert]. mon.
  destruct (pd_is_page e2) eqn:Hl; [apply (page_out s0 s o 3 e2); try done; lia|]. pose proof Hgeo as [].
  rewrite x_pt_index. change (N.to_nat (vb / 2 ^ 12 mod 512)) with (vidx 4 vb).
  rewrite base_loop_eq by done. unfold get_pt. change pde with (lv 3) at 1.
  assert (Hc : child 3 e2 = true) by (unfold child; rewrite Hp; cbn; by rewrite Hl).
  destruct (walk_next o s vb 3 e2 Hw Hs Hc) as (e1 & _ & Hs1).
  destruct (chunk 3 o s e2 vb pb ps ([FP] ++ to_pt_rights rights)) as (s' & r & E & Hw' & Hd & Hr); try done; try lia.
  - destruct (new_absent o 3 s e1) as [->|[-> Habs]]; [lia|done|done|by left|right].
    split; [done|]. intros e0 He0. by rewrite Hs1 in He0; injection He0 as <-.
  - apply N.Div0.div_exact in g_ps0. change (sz 4) with 4096. lia.
  - set_solver.
  - rewrite E. mon. by apply (after_chunk s0 s).
Qed.

Lemma map_pd_out s0 s o e3 : same_maps s0 s -> vs_wf o s -> budget s ps 2 -> slot s (vpath 2 vb) = Some e3 ->
  pres 2 e3 = true -> entered o (vpath 2 vb) s ->
  outcome s0 vb pb ps (map_pd rec s (vidx 1 vb) (vidx 2 vb) vb pb ps rights e3).
Proof.
  intros Hsame Hw Hb Hs Hp Ho. unfold map_pd. change (e_present pdpte e3) with (pres 2 e3). rewrite Hp. cbn [rassert]. mon.
  assert (Hb3 : budget s ps 3) by (unfold budget in *; lia).
  destruct (pdpt_is_page e3) eqn:Hl; [apply (page_out s0 s o 2 e3); try done; lia|]. pose proof Hgeo as [].
  assert (Hc : child 2 e3 = true) by (unfold child; rewrite Hp; cbn; by rewrite Hl).
  rewrite x_pd_index. change (N.to_nat (vb / 2 ^ 21 mod 512)) with (vidx 3 vb).
  destruct (walk_next o s vb 2 e3 Hw Hs Hc) as (e2 & E2 & Hs2). unfold get_pd. cbn [lv] in E2. rewrite E2. mon.
  pose proof (new_absent o 2 s e2 ltac:(lia) Ho Hs2) as Habs. change (e_present pde e2) with (pres 3 e2).
  destruct (pres 3 e2) eqn:Hp2; cbn [negb].
  { destruct Habs as [->|[_ ?]]; [|done]. apply (map_pt_out s0 s None); try done. by left. }
  rewrite x_slot_size, x_huge_size, x_large_size.
  destruct (_ && _) eqn:Hcond.
  - apply andb_prop in Hcond as [[Hv Hpb]%andb_prop Hps]. apply N.eqb_eq in Hv, Hpb. apply N.leb_le in Hps.
    rewrite large_loop_eq.
    destruct (chunk 2 o s e3 vb pb ps ([FP; FPS] ++ to_pd_rights rights)) as (s' & r & E & Hw' & Hd & Hr); try done; try lia.
    + destruct Habs as [->|[-> _]]; [by left|right]. split; [done|]. intros e0 He0. by rewrite Hs2 in He0; injection He0 as <-.
    + rewrite Hv. change (sz 3) with (2 ^ 21). apply N.Div0.div_exact. 
      replace (2 ^ 39 * N.of_nat (vidx 1 vb) + 2 ^ 30 * N.of_nat (vidx 2 vb) + 2 ^ 21 * N.of_nat (vidx 3 vb))
        with ((2 ^ 18 * N.of_nat (vidx 1 vb) + 2 ^ 9 * N.of_nat (vidx 2 vb) + N.of_nat (vidx 3 vb)) * 2 ^ 21) by lia.
      rewrite N.div_mul by done. lia.
    + set_solver.
    + right. set_solver.
    + cbn [lv] in E. rewrite E. mon. by apply (after_chunk s0 s).
  - destruct (w_mem _ _ Hw _ _ Hs) as [t Ht]; [done|].
    assert (He : t !! vidx 3 vb = Some e2) by (cbn [vpath slot] in Hs2; cbn [vpath] in Ht; by rewrite Ht in Hs2).
    destruct (install_table o s (vpath 2 vb) (vidx 3 vb) t e2) as (e & s1 & s2 & Ea & _ & Eset & Hw2 & Hsz & Ht2 & Hs3 & Hc2 & Hsm);
      try done; [destruct Ho as [?|[? _]]; auto|by apply (budget_alloc s vb pb ps 2)|].
    unfold new_pt. cbn [vpath length lv] in Ea, Eset. rewrite Ea. mon. rewrite (Eset e3 Hs). mon.
    apply (map_pt_out s0 s2 (Some (vpath 3 vb))); try done.
    + intros x pa. by rewrite (Hsm x pa), (Hsame x pa).
    + unfold budget in *. lia.
    + by apply andb_prop in Hc2 as [? _].
    + right. done.
Qed.

Lemma map_pdpt_out s0 s o e4 : same_maps s0 s -> vs_wf o s -> budget s ps 1 -> slot s (vpath 1 vb) = Some e4 ->
  pres 1 e4 = true -> entered o (vpath 1 vb) s ->
  outcome s0 vb pb ps (map_pdpt rec s (vidx 1 vb) vb pb ps rights e4).
Proof.
  intros Hsame Hw Hb Hs Hp Ho. unfold map_pdpt. change (e_present pml4e e4) with (pres 1 e4). rewrite Hp. cbn [rassert]. mon.
  pose proof Hgeo as []. assert (Hc : child 1 e4 = true) by (unfold child; by rewrite Hp).
  rewrite x_pdpt_index. change (N.to_nat (vb / 2 ^ 30 mod 512)) with (vidx 2 vb).
  destruct (walk_next o s vb 1 e4 Hw Hs Hc) as (e3 & E3 & Hs3). unfold get_pdpt. cbn [lv] in E3. rewrite E3. mon.
  assert (Hb3 : budget s ps 3) by (unfold budget in *; lia). assert (Hb2 : budget s ps 2) by (unfold budget in *; lia).
  pose proof (new_absent o 1 s e3 ltac:(lia) Ho Hs3) as Habs. change (e_present pdpte e3) with (pres 2 e3).
  destruct (pres 2 e3) eqn:Hp3; cbn [negb].
  { destruct Habs as [->|[_ ?]]; [|done]. apply (map_pd_out s0 s None); try done. by left. }
  rewrite x_slot_size, x_huge_size. destruct (_ && _) eqn:Hcond.
  - apply andb_prop in Hcond as [[Hv Hpb]%andb_prop Hps]. apply N.eqb_eq in Hv, Hpb. apply N.leb_le in Hps.
    rewrite huge_loop_eq.
    destruct (chunk 1 o s e4 vb pb ps ([FP; FPS] ++ to_pdpt_rights rights)) as (s' & r & E & Hw' & Hd & Hr); try done; try lia.
    + destruct Habs as [->|[-> _]]; [by left|right]. split; [done|]. intros e0 He0. by rewrite Hs3 in He0; injection He0 as <-.
    + rewrite Hv. change (sz 2) with (2 ^ 30). apply N.Div0.div_exact.
      replace (2 ^ 39 * N.of_nat (vidx 1 vb) + 2 ^ 30 * N.of_nat (vidx 2 vb))
        with ((2 ^ 9 * N.of_nat (vidx 1 vb) + N.of_nat (vidx 2 vb)) * 2 ^ 30) by lia.
      rewrite N.div_mul by done. lia.
    + set_solver.
    + right. set_solver.
    + cbn [lv] in E. rewrite E. mon. destruct r as [m|[]]; mon.
      * by apply (after_chunk s0 s s' (Ok m)).
      * apply (out_same s0 s); [done|]. right. right. split_and!; [done|done|]. apply Hr.
  - destruct (w_mem _ _ Hw _ _ Hs) as [t Ht]; [done|].
    assert (He : t !! vidx 2 vb = Some e3) by (cbn [vpath slot] in Hs3; cbn [vpath] in Ht; by rewrite Ht in Hs3).
    destruct (install_table o s (vpath 1 vb) (vidx 2 vb) t e3) as (e & s1 & s2 & Ea & _ & Eset & Hw2 & Hsz & Ht2 & Hs2 & Hc2 & Hsm);
      try done; [destruct Ho as [?|[? _]]; auto|cbn; lia|by apply (budget_alloc s vb pb ps 1); try done; lia|].
    unfold new_pd. cbn [vpath length lv] in Ea, Eset. rewrite Ea. mon. rewrite (Eset e4 Hs). mon.
    apply (map_pd_out s0 s2 (Some (vpath 2 vb))); try done.
    + intros x pa. by rewrite (Hsm x pa), (Hsame x pa).
    + unfold budget in *. lia.
    + by apply andb_prop in Hc2 as [? _].
    + right. done.
Qed.

Lemma map_body_out s : rights <> MNone -> vs_wf None s -> budget s ps 0 ->
  outcome s vb pb ps (map_body rec s vb pb ps rights).
Proof.
  intros Hr Hw Hb. pose proof Hgeo as []. unfold map_body. rewrite x_base_size. change (2 ^ 12) with 4096.
  rewrite g_pb0, g_ps0, g_vb0, bool_decide_true by done. cbn [N.eqb rassert]. mon.
  rewrite x_pml4_index. change (N.to_nat (vb / 2 ^ 39 mod 512)) with (vidx 1 vb).
  destruct (walk_root None s vb Hw) as (e4 & E4 & Hs4). rewrite E4. mon.
  assert (Hb1 : budget s ps 1) by (unfold budget in *; lia). change (e_present pml4e e4) with (pres 1 e4).
  destruct (pres 1 e4) eqn:Hp4; cbn [negb].
  { apply (map_pdpt_out s s None); try done. by left. }
  destruct (install_table None s [] (vidx 1 vb) (vs_pml4 s) e4) as (e & s1 & s2 & Ea & Eset & _ & Hw2 & Hsz & Ht2 & Hs2 & Hc2 & Hsm);
    try done; [by left|cbn; lia|by apply (budget_alloc s vb pb ps 0); try done; lia|].
  unfold new_pdpt. cbn [length lv] in Ea. rewrite Ea. mon. rewrite (Eset eq_refl). mon.
  apply (map_pdpt_out s s2 (Some (vpath 1 vb))); try done.
  - unfold budget in *. lia.
  - by apply andb_prop in Hc2 as [? _].
  - right. done.
Qed.
End Body.

(** [map_generic] terminates, and does exactly what it should. *)
Lemma map_upto_out rights fuel s vb pb ps : rights <> MNone -> (N.to_nat (ps / 4096) < fuel)%nat -> geo vb pb ps ->
  vs_wf None s -> budget s ps 0 -> outcome s vb pb ps (map_upto fuel s vb pb ps rights).
Proof.
  intros Hr. revert s vb pb ps. induction fuel as [|fuel IH]; intros s vb pb ps Hf Hg Hw Hb; [by apply Nat.nlt_0_r in Hf|].
  cbn [map_upto]. apply map_body_out; try done. intros s' vb' pb' ps' Hlt Hg' Hw' Hb'. apply IH; try done.
  pose proof (page_sub ps (ps - ps')) as Hs. destruct Hg, Hg'.
  destruct Hs as [_ Hs]; [done| |lia|]; [by apply page_sub_mod; [| |lia]|].
  replace (ps - (ps - ps')) with ps' in Hs by lia. lia.
Qed.
End Cap.
End Map.
