(* ===== verification/VSpaceRefine.v ===== *)
(** * Address spaces as partial functions

    The abstract address space is a partial function from virtual to physical
    addresses.  [map_generic] extends it by the region when the region is free, and by
    a part of the region when it is not; the programs of operations on an address
    space refine those on the function. *)

From stdpp Require Import gmap.
From S2P Require Import Prelude Bench VSpace VSpaceSpec VSpaceMap.
Open Scope N_scope.

(** ** The specification *)

Abbreviation trans := (N -> option N).
Definition covers (vb m x : N) : bool := (vb <=? x) && (x <? vb + m).
Definition extend (t : trans) (vb pb m : N) : trans := fun x => if covers vb m x then Some (pb + (x - vb)) else t x.
Definition free (t : trans) (vb m : N) : Prop := forall x, covers vb m x = true -> t x = None.

(** A region is mapped when it is free; otherwise a part in front of the first
    obstacle may be, and the error names an address of the region. *)
Inductive spec_map (t : trans) (vb pb len : N) : result unit N -> trans -> Prop :=
  | sm_ok : free t vb len -> spec_map t vb pb len (Ok tt) (extend t vb pb len)
  | sm_err m at_ : m < len -> free t vb m -> ~ free t vb len -> covers vb len at_ = true ->
      spec_map t vb pb len (Err at_) (extend t vb pb m).

Definition spec_resp (v : N * N) (r : result unit N) : result (N * N) N :=
  match r with Ok _ => Ok v | Err at_ => Err at_ end.

(** Addresses count modulo 2^48. *)
Inductive spec_op (t : trans) : Operation OpcodeRd OpcodeWr -> result (N * N) N -> trans -> Prop :=
  | so_identify v : spec_op t (ReadOperation (Identify v)) (Ok (default 0 (t (v mod 2 ^ 48)), 0)) t
  | so_map vb len rights pb r t' : spec_map t vb pb len r t' ->
      spec_op t (WriteOperation (Map vb len rights pb)) (spec_resp (pb, len) r) t'
  | so_device vb pb len r t' : spec_map t vb pb len r t' ->
      spec_op t (WriteOperation (MapDevice vb pb len)) (spec_resp (0, 0) r) t'.

Inductive spec_run (t : trans) : list (Operation OpcodeRd OpcodeWr) -> list (result (N * N) N) -> trans -> Prop :=
  | sr_nil : spec_run t [] [] t
  | sr_cons op ops r rs t1 t2 : spec_op t op r t1 -> spec_run t1 ops rs t2 -> spec_run t (op :: ops) (r :: rs) t2.

(** The tables that an operation may need, three for every page. *)
Definition op_len (op : Operation OpcodeRd OpcodeWr) : N :=
  match op with
  | ReadOperation _ => 0
  | WriteOperation (Map _ len _ _) => len
  | WriteOperation (MapDevice _ _ len) => len
  end.
Definition op_tables (op : Operation OpcodeRd OpcodeWr) : nat := 3 * N.to_nat (op_len op / 4096).
Definition all_tables (ops : list (Operation OpcodeRd OpcodeWr)) : nat := sum_list_with op_tables ops.

(** Operations on proper regions of less than 1 GiB. *)
Definition op_ok (op : Operation OpcodeRd OpcodeWr) : Prop :=
  match op with
  | ReadOperation _ => True
  | WriteOperation (Map vb len rights pb) => geo vb pb len /\ len < 2 ^ 30 /\ rights <> MNone
  | WriteOperation (MapDevice vb pb len) => geo vb pb len /\ len < 2 ^ 30
  end.

Lemma covers_true vb m x : covers vb m x = true <-> within x vb m.
Proof. unfold covers, within. rewrite andb_true_iff, N.leb_le, N.ltb_lt. done. Qed.

Lemma covers_false vb m x : covers vb m x = false <-> ~ within x vb m.
Proof. rewrite <- covers_true. by destruct (covers vb m x). Qed.

(** ** One call *)

Section Refine.
Context {X : X86} {XL : X86Laws} {PA : PageAlloc} {pages : nat} {PL : PageAllocLaws pages}.
Implicit Types (s : VSpace) (t : trans) (vb pb ps x : N).

Definition absr s t : Prop := vs_wf None s /\ forall x, x < 2 ^ 48 -> resolve_addr s x = Ret (t x).

Lemma absr_maps s t x pa : absr s t -> x < 2 ^ 48 -> t x = Some pa <-> maps s x pa.
Proof.
  intros [Hw Hr] Hx. destruct (resolve_run None s x Hw) as (r & E & Hm). rewrite Hr in E by done.
  injection E as ->. apply Hm.
Qed.

Lemma absr_free s t vb m : absr s t -> vb + m <= 2 ^ 48 -> unmapped s vb m <-> free t vb m.
Proof.
  intros Ha Hm. split.
  - intros Hu x Hx%covers_true. destruct (t x) as [pa|] eqn:E; [|done]. exfalso.
    assert (x < 2 ^ 48) by (unfold within in *; lia). apply (Hu x pa); [done|done|]. by apply (absr_maps s t).
  - intros Hf x pa Hx Hin Hmaps. apply (absr_maps s t) in Hmaps; [|done|done].
    rewrite (Hf x) in Hmaps; [done|]. by apply covers_true.
Qed.

Lemma absr_taken s t vb m : absr s t -> taken s vb m -> ~ free t vb m.
Proof.
  intros Ha (x & pa & Hx & Hin & Hm) Hf. apply (absr_maps s t) in Hm; [|done|done].
  rewrite (Hf x) in Hm; [done|]. by apply covers_true.
Qed.

Lemma absr_extend s s' t vb pb m : absr s t -> vs_wf None s' -> mapped_by s s' vb pb m ->
  absr s' (extend t vb pb m).
Proof.
  intros Ha Hw Hm. split; [done|]. intros x Hx. destruct (resolve_run None s' x Hw) as (r & E & Hr).
  rewrite E. f_equal. apply option_eq. intros pa. rewrite Hr, (Hm x pa Hx). unfold extend.
  destruct (covers vb m x) eqn:Hc.
  - apply covers_true in Hc. naive_solver.
  - apply covers_false in Hc. rewrite (absr_maps s t) by done. naive_solver.
Qed.

Lemma map_refines s t vb pb ps rights : absr s t -> geo vb pb ps -> rights <> MNone ->
  (size (vs_mem s) + 3 * N.to_nat (ps / 4096) <= pages)%nat ->
  (exists s' r t', map_generic s vb pb ps rights = Ret (s', r) /\ spec_map t vb pb ps r t' /\ absr s' t'
     /\ (size (vs_mem s') <= size (vs_mem s) + 3 * N.to_nat (ps / 4096))%nat)
  \/ map_generic s vb pb ps rights = Panic huge_panic /\ 2 ^ 30 <= ps /\ ~ free t vb ps.
Proof.
  intros Ha Hg Hr Hmem. unfold map_generic. rewrite x_base_size. change (2 ^ 12) with 4096.
  set (fuel := S (N.to_nat (ps / 4096))). pose proof (g_vmax _ _ _ Hg) as Hv.
  destruct (map_upto_out (size (vs_mem s) + 3 * N.to_nat (ps / 4096)) Hmem rights fuel s vb pb ps)
    as [(s' & -> & Hw & Hsz & Hu & Hm)|[(s' & at_ & m & -> & Hw & Hsz & Hat & Hlt & Hu & Hm & Ht)|(-> & Hps & Ht)]];
    try done; [lia|apply Ha|unfold budget; lia| | |].
  - left. exists s', (Ok tt). eexists. split; [done|]. split; [constructor; by apply (absr_free s t)|].
    split; [by apply (absr_extend s)|done].
  - left. exists s', (Err at_). eexists. split; [done|]. split; [apply (sm_err _ _ _ _ m); [done| | |]|].
    + apply (absr_free s t); [done|lia|done].
    + by apply (absr_taken s t).
    + by apply covers_true.
    + split; [by apply (absr_extend s)|done].
  - right. split; [done|]. split; [done|by apply (absr_taken s t)].
Qed.

(** ** Operations *)

Definition vspace_op s (op : Operation OpcodeRd OpcodeWr) : res (VSpace * result (N * N) N) :=
  match op with
  | ReadOperation rd => r ← vspace_dispatch s rd; Ret (s, r)
  | WriteOperation wr => vspace_dispatch_mut s wr
  end.

Lemma idx_mod k v : k + 9 <= 48 -> v mod 2 ^ 48 / 2 ^ k mod 512 = v / 2 ^ k mod 512.
Proof.
  intros Hk. change 512 with (2 ^ 9). rewrite <- !N.shiftr_div_pow2, <- !N.land_ones. apply N.bits_inj. intros i.
  rewrite !N.land_spec, !N.shiftr_spec', N.land_spec. destruct (decide (i < 9)) as [Hi|Hi].
  - rewrite (N.ones_spec_low 48) by lia. by rewrite andb_true_r.
  - rewrite (N.ones_spec_high 9) by lia. by rewrite !andb_false_r.
Qed.

Lemma off_mod k v : k <= 48 -> v mod 2 ^ 48 mod 2 ^ k = v mod 2 ^ k.
Proof.
  intros Hk. replace (2 ^ 48) with (2 ^ k * 2 ^ (48 - k)) by (rewrite <- N.pow_add_r; f_equal; lia).
  rewrite N.Div0.mod_mul_r, N.mul_comm, N.Div0.mod_add, N.Div0.mod_mod. done.
Qed.

Lemma resolve_mod s v : resolve_addr s v = resolve_addr s (v mod 2 ^ 48).
Proof.
  unfold resolve_addr. rewrite !x_pml4_index, !x_pdpt_index, !x_pd_index, !x_pt_index, !x_huge, !x_large, !x_base.
  by rewrite !idx_mod, !off_mod by done.
Qed.

Lemma op_refines s t op : absr s t -> op_ok op -> (size (vs_mem s) + op_tables op <= pages)%nat ->
  exists s' r t', vspace_op s op = Ret (s', r) /\ spec_op t op r t' /\ absr s' t'
    /\ (size (vs_mem s') <= size (vs_mem s) + op_tables op)%nat.
Proof.
  intros Ha Hok Hmem. destruct op as [[v]|[vb len rights pb|vb pb len]]; cbn [vspace_op].
  - exists s. do 2 eexists. cbn [vspace_dispatch]. rewrite resolve_mod. destruct Ha as [Hw Hr].
    rewrite Hr by (by apply N.mod_lt). mon. split_and!; [done|constructor|by split|lia].
  - destruct Hok as (Hg & Hlen & Hr). cbn [vspace_dispatch_mut]. unfold map_new. rewrite x_base_size.
    change (2 ^ 12) with 4096. rewrite (g_vb _ _ _ Hg), (g_ps _ _ _ Hg). cbn [N.eqb rassert]. mon.
    destruct (map_refines s t vb pb len rights) as [(s' & r & t' & -> & Hsp & Ha' & Hsz)|(_ & ? & _)]; try done; [|lia].
    mon. exists s', (spec_resp (pb, len) r), t'. split; [by destruct r|]. split; [by constructor|done].
  - destruct Hok as (Hg & Hlen). cbn [vspace_dispatch_mut].
    destruct (map_refines s t vb pb len ReadWriteUser) as [(s' & r & t' & -> & Hsp & Ha' & Hsz)|(_ & ? & _)]; try done; [|lia].
    mon. exists s', (spec_resp (0, 0) r), t'. split; [by destruct r|]. split; [by constructor|done].
Qed.

Lemma run_refines ops s t : absr s t -> Forall op_ok ops -> (size (vs_mem s) + all_tables ops <= pages)%nat ->
  exists s' rs t', run_prog vspace_op s ops = Ret (s', rs) /\ spec_run t ops rs t' /\ absr s' t'.
Proof.
  revert s t. induction ops as [|op ops IH]; intros s t Ha Hok Hmem.
  - exists s, [], t. split_and!; [done|constructor|done].
  - inversion_clear Hok as [|? ? H1 H2]. change (all_tables (op :: ops)) with (op_tables op + all_tables ops)%nat in Hmem.
    destruct (op_refines s t op Ha H1) as (s1 & r & t1 & E & Hsp & Ha1 & Hsz); [lia|].
    destruct (IH s1 t1 Ha1 H2) as (s' & rs & t' & E' & Hsp' & Ha'); [lia|].
    exists s', (r :: rs), t'. cbn [run_prog]. rewrite E. mon. rewrite E'. mon.
    split_and!; [done|by econstructor|done].
Qed.
End Refine.
