(* ===== verification/VSpaceTheorems.v ===== *)
(** * Theorems on address spaces

    Ownership of page tables, the operations of the benchmark, an instance of the
    parameters with the entry format of the processor, and the main theorems on
    [VSpace]. *)

From stdpp Require Import gmap.
From S2P Require Import Prelude Bench VSpace VSpaceSpec VSpaceMap VSpaceRefine.
Open Scope N_scope.

(** ** The initial address space *)

Section Default.
Context {X : X86} {XL : X86Laws} {PA : PageAlloc}.

Lemma default_tab s e i rp : vs_pml4 s = replicate 512 e -> pres 1 e = false -> tab s (i :: rp) = None.
Proof.
  intros Hp He. revert i. induction rp as [|j rp IH]; intros i.
  - rewrite tab_cons. cbn [slot tab length]. rewrite Hp. cbn [mbind option_bind].
    destruct (replicate 512 e !! i) as [e'|] eqn:E; [|done]. apply lookup_replicate in E as [-> _].
    cbn [mbind option_bind]. by rewrite not_pres_child.
  - rewrite tab_cons. cbn [slot]. by rewrite IH.
Qed.

Lemma default_absr mem : exists s, vspace_default mem = Ret s /\ vs_mem s = mem /\ vs_allocs s = []
  /\ absr s (fun _ => None).
Proof.
  unfold vspace_default. destruct x_pml4e as [_ Hl]. destruct (Hl 0 []) as (e & E & _ & Hp); [done|done|].
  rewrite E. mon. rewrite x_entries. eexists. split; [done|]. split; [done|]. split; [done|].
  set (s := mkVS _ _ _). assert (Ht : forall i rp, tab s (i :: rp) = None) by (intros; by apply (default_tab s e)).
  assert (Hs : forall rp e', slot s rp = Some e' -> exists i, rp = [i] /\ e' = e).
  { intros [|i [|j rp]] e' H; [done| |]; cbn [slot] in H; [|by rewrite Ht in H].
    cbn [tab] in H. cbn [mbind option_bind] in H. apply lookup_replicate in H as [-> _]. by exists i. }
  assert (Hc : forall rp e', slot s rp = Some e' -> pres (length rp) e' = false).
  { intros rp e' (i & -> & ->)%Hs. done. }
  assert (Hw : vs_wf None s).
  { split.
    - intros [|i rp] t H; [|by rewrite Ht in H]. change (Some (vs_pml4 s) = Some t) in H.
      assert (t = vs_pml4 s) as -> by congruence. apply (length_replicate 512 e).
    - intros rp e' H%Hc Hch. by rewrite not_pres_child in Hch.
    - intros rp rp' e1 e2 H%Hc Hch. by rewrite not_pres_child in Hch.
    - intros rp e' H%Hc Hch. by rewrite not_pres_child in Hch.
    - intros rp e' H%Hc Hch. congruence. }
  split; [done|]. intros x Hx. destruct (resolve_run None s x Hw) as (r & -> & Hr). f_equal.
  destruct r as [pa|]; [|done]. destruct (proj1 (Hr pa) eq_refl) as (n & e' & H & Hp' & _).
  apply Hc in H. rewrite vpath_length in H. congruence.
Qed.
End Default.

(** ** Ownership of tables *)

Section Owned.
Context {X : X86} {PA : PageAlloc} {pages : nat} {PL : PageAllocLaws pages}.
Variable m0 : memory.
Implicit Types (s : VSpace).

(** The memory in use beyond [m0] is what [allocs] lists, each page once. *)
Definition owned s : Prop :=
  dom (vs_mem s) = dom m0 ∪ list_to_set (vs_allocs s).*1
  /\ NoDup (vs_allocs s).*1 /\ forall a, a ∈ (vs_allocs s).*1 -> a ∉ dom m0.

Definition keeps {A} (f : VSpace -> res (VSpace * A)) : Prop :=
  forall s s' (a : A), f s = Ret (s', a) -> owned s -> owned s'.

Lemma tab_set_owned s a i e s' : tab_set s a i e = Ret s' -> owned s -> owned s'.
Proof.
  intros H (Hd & Hn & Hf). unfold tab_set, table in H. ret_inv H. split; [|done]. cbn [vs_mem vs_allocs].
  rewrite <- Hd. apply dom_insert_lookup_L. by destruct (vs_mem s !! a).
Qed.

Lemma root_set_owned s i e s' : root_set s i e = Ret s' -> owned s -> owned s'.
Proof. intros H Ho. unfold root_set in H. ret_inv H. done. Qed.

Lemma allocate_owned s n ty a s' : allocate_pages s n ty = Ret (a, s') -> owned s -> owned s'.
Proof.
  intros H (Hd & Hn & Hf). unfold allocate_pages, rassert in H. ret_inv H.
  assert (Hnew : alloc_addr (vs_mem s) <> 0) by (apply N.eqb_neq; by destruct (_ =? 0)).
  apply al_fresh, not_elem_of_dom in Hnew. rewrite Hd in Hnew. unfold owned. cbn [vs_mem vs_allocs].
  rewrite fmap_app. cbn [fmap list_fmap fst]. split; [|split].
  - rewrite dom_insert_L, Hd, list_to_set_app_L. set_solver.
  - apply list.NoDup_app. split; [done|]. split; [|by apply NoDup_singleton]. set_solver.
  - set_solver.
Qed.

Lemma new_entry_owned o s e s' :
  ('(paddr, s1) ← allocate_one_page s; e ← e_new o paddr [FP; FRW; FUS]; Ret (e, s1)) = Ret (e, s') ->
  owned s -> owned s'.
Proof. intros H Ho. ret_inv H. by eapply (allocate_owned s 1 PageTable). Qed.

Lemma huge_loop_owned k a i pb ps rights m : keeps (fun s => huge_loop k s a i pb ps rights m).
Proof.
  revert i m. induction k as [|k IH]; intros i m s s' r H Ho; cbn [huge_loop] in H; ret_inv H; try done.
  eapply IH; [done|]. by eapply tab_set_owned.
Qed.

Lemma large_loop_owned k a i pb ps rights m : keeps (fun s => large_loop k s a i pb ps rights m).
Proof.
  revert i m. induction k as [|k IH]; intros i m s s' r H Ho; cbn [large_loop] in H; ret_inv H; try done.
  eapply IH; [done|]. by eapply tab_set_owned.
Qed.

Lemma base_loop_owned k a i pb ps rights m : keeps (fun s => base_loop k s a i pb ps rights m).
Proof.
  revert i m. induction k as [|k IH]; intros i m s s' r H Ho; cbn [base_loop] in H; ret_inv H; try done.
  eapply IH; [done|]. by eapply tab_set_owned.
Qed.

(** Every call keeps the books. *)
Section Rec.
Variable rec : VSpace -> N -> N -> N -> MapAction -> res (VSpace * result unit N).
Hypothesis Hrec : forall vb pb ps rights, keeps (fun s => rec s vb pb ps rights).

Lemma map_rest_owned vb pb ps rights m : keeps (fun s => map_rest rec s vb pb ps rights m).
Proof. intros s s' r H Ho. unfold map_rest in H. destruct (m <? ps); [by eapply Hrec|]. by ret_inv H. Qed.

Lemma map_pt_owned vb pb ps rights e : keeps (fun s => map_pt rec s vb pb ps rights e).
Proof.
  intros s s' r H Ho. unfold map_pt in H. res_inv H. destruct (pd_is_page e); [by ret_inv H|]. res_inv H. destruct v0 as [s1 [m|[]]].
  - eapply map_rest_owned; [done|]. by eapply base_loop_owned.
  - ret_inv H. by eapply base_loop_owned.
Qed.

Lemma map_pd_owned i j vb pb ps rights e : keeps (fun s => map_pd rec s i j vb pb ps rights e).
Proof.
  intros s s' r H Ho. unfold map_pd in H. res_inv H. destruct (pdpt_is_page e); [by ret_inv H|]. res_inv H.
  destruct (negb _); [|by eapply map_pt_owned]. destruct (_ && _); res_inv H.
  - destruct v1 as [s1 [m|[]]].
    + eapply map_rest_owned; [done|]. by eapply large_loop_owned.
    + ret_inv H. by eapply large_loop_owned.
  - destruct v1 as [e' s1]. res_inv H. eapply map_pt_owned; [done|]. eapply tab_set_owned; [done|].
    by eapply new_entry_owned.
Qed.

Lemma map_pdpt_owned i vb pb ps rights e : keeps (fun s => map_pdpt rec s i vb pb ps rights e).
Proof.
  intros s s' r H Ho. unfold map_pdpt in H. do 2 res_inv H.
  destruct (negb _); [|by eapply map_pd_owned]. destruct (_ && _); res_inv H.
  - destruct v1 as [s1 m]. eapply map_rest_owned; [done|]. by eapply huge_loop_owned.
  - destruct v1 as [e' s1]. res_inv H. eapply map_pd_owned; [done|]. eapply tab_set_owned; [done|].
    by eapply new_entry_owned.
Qed.

Lemma map_body_owned vb pb ps rights : keeps (fun s => map_body rec s vb pb ps rights).
Proof.
  intros s s' r H Ho. unfold map_body in H. do 5 res_inv H.
  destruct (negb _); [|by eapply map_pdpt_owned]. res_inv H. destruct v4 as [e' s1]. res_inv H.
  eapply map_pdpt_owned; [done|]. eapply root_set_owned; [done|]. by eapply new_entry_owned.
Qed.
End Rec.

Lemma map_generic_owned vb pb ps rights : keeps (fun s => map_generic s vb pb ps rights).
Proof.
  unfold map_generic. generalize (S (N.to_nat (ps / BASE_PAGE_SIZE))) as fuel. intros fuel. revert vb pb ps rights.
  induction fuel as [|fuel IH]; intros vb pb ps rights; [by intros s s' r|]. by apply map_body_owned.
Qed.

Lemma op_owned op : keeps (fun s => vspace_op s op).
Proof.
  intros s s' r H Ho. destruct op as [[v]|[vb len rights pb|vb pb len]]; cbn [vspace_op vspace_dispatch_mut] in H.
  - by ret_inv H.
  - res_inv H. unfold map_new in E. do 3 res_inv E. destruct v2 as [s1 r1]. assert (owned s1) by (by eapply map_generic_owned).
    destruct r1; ret_inv E; ret_inv H; done.
  - res_inv H. destruct v as [s1 r1]. assert (owned s1) by (by eapply map_generic_owned). destruct r1; ret_inv H; done.
Qed.

Lemma run_owned ops : keeps (fun s => run_prog vspace_op s ops).
Proof.
  induction ops as [|op ops IH]; intros s s' rs H Ho; cbn [run_prog] in H; [by ret_inv H|].
  res_inv H. destruct v as [s1 r]. res_inv H. destruct v as [s2 rs']. ret_inv H. eapply IH; [done|].
  by eapply op_owned.
Qed.

Lemma drop_dom s : dom (vspace_drop s) = dom (vs_mem s) ∖ list_to_set (vs_allocs s).*1.
Proof.
  unfold vspace_drop. rewrite <- (rev_involutive (vs_allocs s)) at 2. generalize (rev (vs_allocs s)) as l. intros l.
  generalize (vs_mem s) as m. induction l as [|p l IH]; intros m; cbn [fold_left rev].
  - set_solver.
  - rewrite IH, dom_delete_L, fmap_app, list_to_set_app_L. set_solver.
Qed.

Lemma default_owned ops s0 s' rs : vspace_default m0 = Ret s0 -> run_prog vspace_op s0 ops = Ret (s', rs) -> owned s'.
Proof.
  intros E0 E. eapply run_owned; [exact E|]. unfold vspace_default in E0. ret_inv E0. unfold owned.
  cbn [vs_mem vs_allocs fmap list_fmap]. split; [set_solver|]. split; [constructor|set_solver].
Qed.

Lemma owned_drop s : owned s -> dom (vspace_drop s) = dom m0.
Proof. intros (Hd & _ & Hf). rewrite drop_dom, Hd. set_solver. Qed.
End Owned.

(** ** The operations of the benchmark *)

Lemma land_lt x m k : m < 2 ^ k -> N.land x m < 2 ^ k.
Proof.
  intros Hm. rewrite <- (N.mod_small m (2 ^ k)) by done. rewrite <- N.land_ones, N.land_assoc, N.land_ones.
  apply N.mod_lt, N.pow_nonzero. done.
Qed.

Lemma land_aligned x m : N.land m (N.ones 12) = 0 -> N.land x m mod 4096 = 0.
Proof. intros Hm. change 4096 with (2 ^ 12). by rewrite <- N.land_ones, <- N.land_assoc, Hm, N.land_0_r. Qed.

(** Regions that are empty or run past the last address. *)
Definition op_edge (op : Operation OpcodeRd OpcodeWr) : Prop :=
  match op with
  | ReadOperation _ => False
  | WriteOperation (Map vb len _ _) | WriteOperation (MapDevice vb _ len) => len = 0 \/ 2 ^ 48 < vb + len
  end.

Lemma drawn_geo v l p : let vb := N.land v PAGE_RANGE_MASK in let len := N.land l MAP_SIZE_MASK in
  geo vb (N.land p PAGE_RANGE_MASK) len /\ len < 2 ^ 30 \/ (len = 0 \/ 2 ^ 48 < vb + len).
Proof.
  intros vb len. assert (Hl : len < 2 ^ 28) by (by apply land_lt).
  assert (Hp : N.land p PAGE_RANGE_MASK < 2 ^ 48) by (by apply land_lt).
  destruct (decide (len = 0)) as [|Hne]; [by right; left|].
  destruct (decide (2 ^ 48 < vb + len)) as [|Hle]; [by right; right|]. left.
  split; [|lia]. split; try (by apply land_aligned); lia.
Qed.

(** What [generate_operations] draws are operations on regions of less than 1 GiB,
    up to the two edge cases. *)
Lemma generated_ok gen nop : Forall (fun op => op_ok op \/ op_edge op) (generate_operations gen nop).
Proof.
  unfold generate_operations. generalize 0%nat as k. induction nop as [|nop IH]; intros k; [constructor|].
  cbn [generate_from]. destruct (gen k mod 3) as [|[]]; constructor; try apply IH; [by left|..].
  1,2: destruct (drawn_geo (gen (k + 1)%nat) (gen (k + 3)%nat) (gen (k + 2)%nat)) as [[? ?]|?]; [by left|by right].
  destruct (drawn_geo (gen (k + 1)%nat) (gen (k + 2)%nat) (gen (k + 3)%nat)) as [[? ?]|?]; [by left|by right].
Qed.

(** ** The processor's page tables *)

Module Amd64.
(** Bits 0, 1, 2, 7 and 63 of an entry are flags, bits 12 to 51 the address. *)
Definition has (f : pflag) (fl : pflags) : N := if bool_decide (f ∈ fl) then 1 else 0.
Definition low (fl : pflags) : N := has FP fl + 2 * has FRW fl + 4 * has FUS fl + 128 * has FPS fl.

Definition ent : entry_ops := mkOps
  (fun pa fl =>
     _ ← rassert ((pa <? 2 ^ 52) && (pa mod 4096 =? 0)) "assertion failed";
     Ret (pa + low fl + 2 ^ 63 * has FXD fl))
  (fun e => e mod 2 ^ 52 / 4096 * 4096)
  (fun e => e mod 2 =? 1).
Definition is_page (e : N) : bool := e / 128 mod 2 =? 1.

Lemma has_le f fl : has f fl <= 1.
Proof. unfold has. by case_bool_decide. Qed.

Lemma has_eq f fl : (has f fl =? 1) = bool_decide (f ∈ fl).
Proof. unfold has. by case_bool_decide. Qed.

Lemma new_run pa fl e : e_new ent pa fl = Ret e ->
  pa < 2 ^ 52 /\ exists q, pa = 4096 * q /\ e = 4096 * q + low fl + 2 ^ 63 * has FXD fl.
Proof.
  intros H. cbn [ent e_new] in H. unfold rassert in H. ret_inv H.
  destruct (_ && _) eqn:Hc in E; [|done]. apply andb_prop in Hc as [Hb%N.ltb_lt Ha%N.eqb_eq].
  apply N.Div0.div_exact in Ha. split; [done|]. exists (pa / 4096). split; [done|]. by rewrite <- Ha.
Qed.

Lemma low_le fl : low fl <= 135.
Proof.
  unfold low. pose proof (has_le FP fl). pose proof (has_le FRW fl). pose proof (has_le FUS fl). pose proof (has_le FPS fl). lia.
Qed.

Lemma ent_laws : entry_laws ent.
Proof.
  split; [done|]. intros pa fl Ha Hb. cbn [ent e_new]. rewrite Ha, (proj2 (N.ltb_lt _ _) Hb). cbn [andb N.eqb rassert]. mon.
  eexists. split; [done|]. apply N.Div0.div_exact in Ha. set (q := pa / 4096) in *. pose proof (low_le fl) as Hl.
  cbn [ent e_address e_present]. split.
  - assert ((pa + low fl + 2 ^ 63 * has FXD fl) mod 2 ^ 52 = pa + low fl) as ->.
    { symmetry. apply (N.mod_unique _ _ (2 ^ 11 * has FXD fl)); lia. }
    assert ((pa + low fl) / 4096 = q) as -> by (symmetry; apply (N.div_unique _ _ _ (low fl)); lia). lia.
  - rewrite <- has_eq. f_equal. pose proof (has_le FP fl). symmetry.
    apply (N.mod_unique _ _ (2048 * q + has FRW fl + 2 * has FUS fl + 64 * has FPS fl + 2 ^ 62 * has FXD fl)); [lia|].
    unfold low. lia.
Qed.

Lemma page_flag pa fl e : e_new ent pa fl = Ret e -> is_page e = bool_decide (FPS ∈ fl).
Proof.
  intros (Hb & q & -> & ->)%new_run. unfold is_page. rewrite <- has_eq. f_equal.
  pose proof (has_le FP fl). pose proof (has_le FRW fl). pose proof (has_le FUS fl). pose proof (has_le FPS fl).
  assert ((4096 * q + low fl + 2 ^ 63 * has FXD fl) / 128 = 32 * q + has FPS fl + 2 ^ 56 * has FXD fl) as ->.
  { symmetry. apply (N.div_unique _ _ _ (has FP fl + 2 * has FRW fl + 4 * has FUS fl)); unfold low; lia. }
  symmetry. apply (N.mod_unique _ _ (16 * q + 2 ^ 55 * has FXD fl)); lia.
Qed.

#[export] Instance amd64 : X86 := {|
  pml4e := ent; pdpte := ent; pde := ent; pte := ent;
  pdpt_is_page := is_page; pd_is_page := is_page;
  pml4_index v := N.to_nat (v / 2 ^ 39 mod 512);
  pdpt_index v := N.to_nat (v / 2 ^ 30 mod 512);
  pd_index v := N.to_nat (v / 2 ^ 21 mod 512);
  pt_index v := N.to_nat (v / 2 ^ 12 mod 512);
  huge_page_offset v := v mod 2 ^ 30;
  large_page_offset v := v mod 2 ^ 21;
  base_page_offset v := v mod 2 ^ 12;
  BASE_PAGE_SIZE := 2 ^ 12;
  LARGE_PAGE_SIZE := 2 ^ 21;
  HUGE_PAGE_SIZE := 2 ^ 30;
  PML4_SLOT_SIZE := 2 ^ 39;
  PAGE_SIZE_ENTRIES := 512;
|}.

#[export] Instance amd64_laws : X86Laws.
Proof.
  split; try done; try apply ent_laws; intros pa fl e H _; by apply (page_flag pa).
Qed.

(** An allocator of [4096] pages that takes the first free one. *)
Fixpoint first_free (k : nat) (m : memory) (a : N) : N :=
  match k with
  | O => 0
  | S k' => match m !! (4096 * a) with None => 4096 * a | Some _ => first_free k' m (a + 1) end
  end.

Lemma first_free_spec k m a : 0 < a -> first_free k m a <> 0 /\ (first_free k m a < 4096 * (a + N.of_nat k) /\
    m !! first_free k m a = None /\ first_free k m a mod 4096 = 0)
  \/ first_free k m a = 0 /\ forall i, (i < k)%nat -> 4096 * (a + N.of_nat i) ∈ dom m.
Proof.
  revert a. induction k as [|k IH]; intros a Ha; cbn [first_free]; [right; split; [done|lia]|].
  destruct (m !! (4096 * a)) as [t|] eqn:E.
  - destruct (IH (a + 1)) as [(? & ? & ? & ?)|[H0 Hd]]; [lia|left; split_and!; [done|lia|done|done]|right].
    split; [done|]. intros [|i] Hi; [apply elem_of_dom; rewrite N.add_0_r; by eexists|].
    replace (a + N.of_nat (S i)) with (a + 1 + N.of_nat i) by lia. apply Hd. lia.
  - left. split_and!; [lia|lia|done|]. rewrite N.mul_comm. apply N.Div0.mod_mul.
Qed.

#[export] Instance first_fit : PageAlloc := {| alloc_addr m := first_free 4096 m 1 |}.

#[export] Instance first_fit_laws : PageAllocLaws 4096.
Proof.
  split; intros m; cbn [alloc_addr first_fit]; destruct (first_free_spec 4096 m 1 eq_refl) as [(H1 & H2 & H3 & H4)|[H0 Hd]];
    try done; try (by rewrite H0).
  - change (2 ^ 52) with 4503599627370496. lia.
  - intros Hsz. exfalso.
    set (l := (fun i => 4096 * (1 + N.of_nat i)) <$> seq 0 4096).
    assert (Hsub : (list_to_set l : gset N) ⊆ dom m).
    { intros a Ha%elem_of_list_to_set. apply list_elem_of_fmap in Ha as (i & -> & Hi%elem_of_seq). apply Hd. lia. }
    apply subseteq_size in Hsub. rewrite size_list_to_set, size_dom in Hsub.
    + unfold l in Hsub. rewrite length_fmap, length_seq in Hsub. lia.
    + apply NoDup_fmap; [intros i j Hij; lia|apply NoDup_seq].
Qed.
End Amd64.
Import Amd64.

(** ** Theorems *)

Section Theorems.
Context {X : X86} {XL : X86Laws} {PA : PageAlloc} {pages : nat} {PL : PageAllocLaws pages}.

Lemma wf_absr s : vs_wf None s -> absr s (fun x => match resolve_addr s x with Ret r => r | _ => None end).
Proof. intros Hw. split; [done|]. intros x _. by destruct (resolve_run None s x Hw) as (r & -> & _). Qed.

Lemma wf_extend s s' vb pb m : vs_wf None s ->
  absr s' (extend (fun x => match resolve_addr s x with Ret r => r | _ => None end) vb pb m) ->
  forall x, x < 2 ^ 48 -> resolve_addr s' x = if covers vb m x then Ret (Some (pb + (x - vb))) else resolve_addr s x.
Proof.
  intros Hw [_ Hr] x Hx. rewrite Hr by done. unfold extend. destruct (covers vb m x); [done|].
  by destruct (resolve_run None s x Hw) as (r & -> & _).
Qed.

(** A table below a new one. *)
Definition fresh_at s vb n e : Prop :=
  vs_wf (Some (vpath n vb)) s /\ tab s (vpath n vb) = Some (replicate 512 0) /\ slot s (vpath n vb) = Some e
  /\ child n e = true.

Lemma fresh_next s vb n e : fresh_at s vb n e -> (1 <= n <= 2)%nat -> (size (vs_mem s) < pages)%nat ->
  let a := paddr_to_kernel_vaddr (e_address (lv n) e) in
  tab_get s a (vidx (S n) vb) = Ret 0 /\ exists e' s1 s2,
    ('(paddr, s1) ← allocate_one_page s; e ← e_new (lv (S n)) paddr [FP; FRW; FUS]; Ret (e, s1)) = Ret (e', s1)
    /\ tab_set s1 a (vidx (S n) vb) e' = Ret s2 /\ fresh_at s2 vb (S n) e'
    /\ size (vs_mem s2) = S (size (vs_mem s)) /\ same_maps s s2.
Proof.
  intros (Hw & Ht & Hs & Hc) Hn Hsz a. assert (Hi : replicate 512 0 !! vidx (S n) vb = Some 0).
  { apply lookup_replicate. split; [done|]. apply vidx_lt. }
  destruct (walk_next _ s vb n e Hw Hs Hc) as (e0 & E0 & Hs0). cbn [vpath slot] in Hs0. rewrite Ht in Hs0.
  cbn [mbind option_bind] in Hs0. rewrite Hi in Hs0. injection Hs0 as <-. split; [done|].
  destruct (install_table _ s (vpath n vb) (vidx (S n) vb) _ 0 Hw (or_intror eq_refl) Ht Hi)
    as (e' & s1 & s2 & Ea & _ & Es & Hw2 & Hsz2 & Ht2 & Hs2 & Hc2 & Hm); [apply zero_absent|..];
    rewrite ?vpath_length in *; try done; try lia.
  exists e', s1, s2. split_and!; try done. by apply Es.
Qed.

(** A call for an empty region in a part of the address space without tables makes
    three of them and maps nothing. *)
Lemma map_empty s vb pb rights e4 : vs_wf None s -> slot s (vpath 1 vb) = Some e4 -> pres 1 e4 = false ->
  vb mod 4096 = 0 -> pb mod 4096 = 0 -> rights <> MNone -> (size (vs_mem s) + 3 <= pages)%nat ->
  exists s' o, map_generic s vb pb 0 rights = Ret (s', Ok tt) /\ vs_wf o s' /\ same_maps s s'.
Proof.
  intros Hw Hs4 Hp4 Hv Hp Hr Hsz. unfold map_generic. cbn [map_upto]. unfold map_body. rewrite x_base_size.
  change (2 ^ 12) with 4096. rewrite Hv, Hp, bool_decide_true, N.Div0.mod_0_l by done. cbn [N.eqb rassert]. mon.
  rewrite x_pml4_index. change (N.to_nat (vb / 2 ^ 39 mod 512)) with (vidx 1 vb). change (vs_pml4 s !! vidx 1 vb = Some e4) in Hs4.
  rewrite (vget_lookup _ _ _ Hs4). mon. change (e_present pml4e e4) with (pres 1 e4). rewrite Hp4. cbn [negb].
  destruct (install_table None s [] (vidx 1 vb) (vs_pml4 s) e4) as (e & s1 & s2 & Ea & Eset & _ & Hw2 & Hz2 & Ht2 & Hs2 & Hc2 & Hm2);
    try done; [by left|cbn; lia|lia|].
  unfold new_pdpt. cbn [length lv] in Ea. rewrite Ea. mon. rewrite (Eset eq_refl). mon.
  assert (F1 : fresh_at s2 vb 1 e) by done.
  destruct (fresh_next s2 vb 1 e F1) as (Eg & e3 & s3 & s4 & Ea3 & Es3 & F2 & Hz4 & Hm4); [lia|lia|].
  destruct (fresh_next s4 vb 2 e3 F2) as (Eg2 & e2 & s5 & s6 & Ea5 & Es5 & F3 & Hz6 & Hm6); [lia|lia|].
  pose proof F2 as (_ & _ & _ & Hc3). pose proof F3 as (Hw6 & _ & _ & Hc6).
  apply andb_prop in Hc2 as [Hpr2 _]. apply andb_prop in Hc3 as [Hpr3 Hl3%negb_true_iff]. apply andb_prop in Hc6 as [Hpr6 Hl6%negb_true_iff].
  unfold pres in Hpr2, Hpr3, Hpr6. cbn [lv leaf length] in *.
  unfold map_pdpt. rewrite Hpr2. cbn [rassert]. mon. rewrite x_pdpt_index. change (N.to_nat (vb / 2 ^ 30 mod 512)) with (vidx 2 vb).
  unfold get_pdpt. rewrite Eg. mon. rewrite (proj1 x_pdpte), x_huge_size, andb_false_r. cbn [negb].
  unfold new_pd. rewrite Ea3. mon. rewrite Es3. mon.
  unfold map_pd. rewrite Hpr3, Hl3. cbn [rassert]. mon. rewrite x_pd_index. change (N.to_nat (vb / 2 ^ 21 mod 512)) with (vidx 3 vb).
  unfold get_pd. rewrite Eg2. mon. rewrite (proj1 x_pde), x_large_size, andb_false_r. cbn [negb].
  unfold new_pt. rewrite Ea5. mon. rewrite Es5. mon.
  unfold map_pt. rewrite Hpr6, Hl6. cbn [rassert]. mon. exists s6, (Some (vpath 3 vb)).
  assert (Hb : forall k a i, base_loop k s6 a i pb 0 rights 0 = Ret (s6, Ok 0)) by (by intros []).
  rewrite Hb. mon. split_and!; [done|done|]. intros x pa. by rewrite (Hm6 x pa), (Hm4 x pa), (Hm2 x pa).
Qed.

(** C27: Mapping a page-aligned region of which no address is mapped yet returns [Ok],
    whatever page sizes and tables it takes: afterwards [resolve_addr] translates
    exactly the addresses of the region to the given physical region, and all other
    addresses as before.  The page tables stay well-formed.  There must be three free
    pages of memory for every page of the region. *)
Theorem vspace_map_correct s vb pb ps rights : vs_wf None s -> geo vb pb ps -> rights <> MNone ->
  (size (vs_mem s) + 3 * N.to_nat (ps / 4096) <= pages)%nat ->
  (forall x, covers vb ps x = true -> resolve_addr s x = Ret None) ->
  exists s', map_generic s vb pb ps rights = Ret (s', Ok tt) /\ vs_wf None s'
    /\ forall x, x < 2 ^ 48 ->
         resolve_addr s' x = if covers vb ps x then Ret (Some (pb + (x - vb))) else resolve_addr s x.
Proof.
  intros Hw Hg Hr Hm Hf. pose proof (wf_absr s Hw) as Ha. set (t := fun x => _) in Ha.
  assert (Hfree : free t vb ps) by (intros x Hx; unfold t; by rewrite Hf).
  destruct (map_refines s t vb pb ps rights) as [(s' & r & t' & E & Hsp & Ha' & _)|(_ & _ & ?)]; try done.
  exists s'. inversion Hsp; subst; [|done]. split; [done|]. split; [apply Ha'|by apply wf_extend].
Qed.

(** C28: Mapping a region with an address [x0] that is already mapped fails: the call
    returns an error naming an address of the region, or, only for regions of at least
    1 GiB, panics.  On an error every address that was mapped still has its translation,
    and what the call has mapped in vain is a part at the front of the region, before
    [x0], with the translation asked for. *)
Theorem vspace_map_overlap s vb pb ps rights x0 pa0 : vs_wf None s -> geo vb pb ps -> rights <> MNone ->
  (size (vs_mem s) + 3 * N.to_nat (ps / 4096) <= pages)%nat ->
  covers vb ps x0 = true -> resolve_addr s x0 = Ret (Some pa0) ->
  (exists s' at_ m, map_generic s vb pb ps rights = Ret (s', Err at_) /\ vs_wf None s'
     /\ covers vb ps at_ = true /\ vb + m <= x0
     /\ (forall x pa, x < 2 ^ 48 -> resolve_addr s x = Ret (Some pa) -> resolve_addr s' x = Ret (Some pa))
     /\ forall x, x < 2 ^ 48 ->
          resolve_addr s' x = if covers vb m x then Ret (Some (pb + (x - vb))) else resolve_addr s x)
  \/ map_generic s vb pb ps rights = Panic huge_panic /\ 2 ^ 30 <= ps.
Proof.
  intros Hw Hg Hr Hm Hc Hx0. pose proof (wf_absr s Hw) as Ha. set (t := fun x => _) in Ha.
  assert (Hnot : ~ free t vb ps).
  { intros H. specialize (H x0 Hc). unfold t in H. by rewrite Hx0 in H. }
  destruct (map_refines s t vb pb ps rights) as [(s' & r & t' & E & Hsp & Ha' & _)|(E & ? & _)]; try done; [|by right].
  left. inversion Hsp as [?|m at_ Hlt Hfm _ Hat]; subst; [done|]. exists s', at_, m.
  pose proof (wf_extend s s' vb pb m Hw Ha') as Hres. apply covers_true in Hc. unfold within in Hc.
  split_and!; [done|apply Ha'|done| | |done].
  - destruct (N.le_gt_cases (vb + m) x0) as [|Hin]; [done|]. specialize (Hfm x0).
    unfold t in Hfm. rewrite Hx0 in Hfm. discriminate Hfm. apply covers_true. unfold within. lia.
  - intros x pa Hx Hpa. rewrite Hres by done. destruct (covers vb m x) eqn:Hcx; [|done]. specialize (Hfm x Hcx).
    unfold t in Hfm. by rewrite Hpa in Hfm.
Qed.

(** C13: A program of operations of the benchmark on a new address space, on regions of
    less than 1 GiB, returns the responses that the operations on the abstract address
    space return, a partial function from virtual to physical addresses: it never
    panics, and afterwards [resolve_addr] computes that function. *)
Theorem vspace_refines mem ops : Forall op_ok ops -> (size mem + all_tables ops <= pages)%nat ->
  exists s0 s' rs t', vspace_default mem = Ret s0 /\ run_prog vspace_op s0 ops = Ret (s', rs)
    /\ spec_run (fun _ => None) ops rs t' /\ forall x, x < 2 ^ 48 -> resolve_addr s' x = Ret (t' x).
Proof.
  intros Hok Hm. destruct (default_absr mem) as (s0 & E0 & <- & _ & Ha).
  destruct (run_refines ops s0 (fun _ => None) Ha Hok Hm) as (s' & rs & t' & E & Hsp & Ha').
  exists s0, s', rs, t'. split_and!; try done. apply Ha'.
Qed.

(** C29: After any program of operations on a new address space, whatever their
    arguments, the tables it has allocated are distinct pages that were not in use
    before, and dropping it gives back exactly these: the pages in use are those of
    before its creation. *)
Theorem vspace_drop_frees mem ops s0 s' rs : vspace_default mem = Ret s0 -> run_prog vspace_op s0 ops = Ret (s', rs) ->
  NoDup (vs_allocs s').*1 /\ (forall a, a ∈ (vs_allocs s').*1 -> mem !! a = None)
  /\ dom (vspace_drop s') = dom mem.
Proof.
  intros E0 E. assert (Ho : owned mem s') by (by eapply default_owned).
  split_and!; [apply Ho| |by apply owned_drop]. intros a Ha. apply not_elem_of_dom. by apply Ho.
Qed.

(** C38: A copy of an address space made by [clone] shares the page tables of the original
    and frees them when it is dropped: afterwards looking up any address that the
    original had mapped reads a table that has been freed. *)
Theorem vspace_clone_dangles ops s0 s rs x pa : vspace_default ∅ = Ret s0 -> run_prog vspace_op s0 ops = Ret (s, rs) ->
  resolve_addr s x = Ret (Some pa) ->
  let mem := vspace_drop (vspace_clone s) in
  resolve_addr (mkVS (vs_pml4 s) (vs_allocs s) mem) x = Panic "dangling page table".
Proof.
  intros E0 E Hx mem. assert (Ho : owned ∅ s) by (by eapply default_owned).
  assert (Hm : mem = ∅) by (apply dom_empty_inv_L; unfold mem; rewrite (owned_drop ∅ (vspace_clone s)); set_solver).
  rewrite Hm. unfold resolve_addr in Hx |- *. cbn [vs_pml4]. res_inv Hx. mon. destruct (e_present pml4e v); [|done].
  cbn [negb]. unfold tab_get, table. cbn [vs_mem]. by rewrite lookup_empty.
Qed.
End Theorems.

(** ** Empty regions and copies *)

Abbreviation empty_space := (mkVS (replicate 512 0) [] ∅).

Lemma empty_default : vspace_default ∅ = Ret empty_space.
Proof. by vm_compute. Qed.

Lemma empty_absr : absr empty_space (fun _ => None).
Proof.
  destruct (default_absr ∅) as (s & E & _ & _ & Ha). rewrite empty_default in E. by injection E as <-.
Qed.

(** An empty region in the empty address space. *)
Lemma empty_maps vb : vb mod 4096 = 0 ->
  exists s, map_generic empty_space vb 0 0 ReadWriteUser = Ret (s, Ok tt) /\ forall x, x < 2 ^ 48 -> resolve_addr s x = Ret None.
Proof.
  intros Hv. destruct (map_empty empty_space vb 0 ReadWriteUser 0) as (s & o & E & Hw & Hm);
    [apply empty_absr|apply lookup_replicate; split; [done|apply vidx_lt]|done..|cbn [vs_mem]; rewrite map_size_empty; lia|].
  exists s. split; [done|]. intros x Hx. destruct (resolve_run o s x Hw) as (r & -> & Hr). f_equal.
  destruct r as [pa|]; [|done]. exfalso. pose proof (proj1 (Hr pa) eq_refl) as H. apply Hm in H.
  by apply (absr_maps _ _ x pa empty_absr) in H.
Qed.

(** Mapping an empty region, which the benchmark's generator can ask for, leaves empty
    page tables behind.  No address is mapped by it, but later calls take the tables for
    mappings: a region of 4 MiB that is free is refused with an error, and for a free
    region of 2 GiB the call panics. *)
Theorem vspace_empty_map_blocks :
  (exists s1 s2, map_generic empty_space 0x200000 0 0 ReadWriteUser = Ret (s1, Ok tt)
     /\ (forall x, x < 2 ^ 48 -> resolve_addr s1 x = Ret None)
     /\ map_generic s1 0 0 0x400000 ReadWriteUser = Ret (s2, Err 0))
  /\ exists s1, map_generic empty_space 0x40000000 0 0 ReadWriteUser = Ret (s1, Ok tt)
     /\ (forall x, x < 2 ^ 48 -> resolve_addr s1 x = Ret None)
     /\ map_generic s1 0 0 0x80000000 ReadWriteUser = Panic huge_panic.
Proof.
  split.
  - destruct (empty_maps 0x200000 eq_refl) as (s1 & E & Hr).
    assert (H : ('(s, _) ← map_generic empty_space 0x200000 0 0 ReadWriteUser; '(_, r) ← map_generic s 0 0 0x400000 ReadWriteUser; Ret r)
      = Ret (Err 0)) by (by vm_compute).
    rewrite E in H. cbn [mbind res_bind] in H. res_inv H. destruct v as [s2 r]. injection H as ->. exists s1, s2. exact (conj E (conj Hr E0)).
  - destruct (empty_maps 0x40000000 eq_refl) as (s1 & E & Hr). exists s1. split; [exact E|]. split; [exact Hr|].
    assert (H : ('(s, _) ← map_generic empty_space 0x40000000 0 0 ReadWriteUser; map_generic s 0 0 0x80000000 ReadWriteUser)
      = Panic huge_panic) by (by vm_compute).
    rewrite E in H. exact H.
Qed.

(** ** Instances *)

Lemma demo_geo : geo 0x1ff000 0x5000 0x3000.
Proof. by split. Qed.

Lemma demo_start : exists s, vspace_default ∅ = Ret s /\ (size (vs_mem s) = 0)%nat /\ absr s (fun _ => None).
Proof. destruct (default_absr ∅) as (s & E & Em & _ & Ha). exists s. rewrite Em. split; [done|]. split; [apply map_size_empty|done]. Qed.

Lemma demo_free s : absr s (fun _ => None) -> free (fun _ => None) 0x1ff000 0x3000
  /\ forall x, covers 0x1ff000 0x3000 x = true -> resolve_addr s x = Ret None.
Proof. intros [_ Hr]. split; [done|]. intros x Hx%covers_true. unfold within in Hx. apply Hr. lia. Qed.

(** A state with a mapping across two page tables. *)
Abbreviation demo_op := (WriteOperation (Map 0x1ff000 0x3000 ReadUser 0x5000)).
Lemma demo_mapped : exists s0 s, vspace_default ∅ = Ret s0 /\ run_prog vspace_op s0 [demo_op] = Ret (s, [Ok (0x5000, 0x3000)])
  /\ vs_wf None s /\ (size (vs_mem s) <= 9)%nat /\ resolve_addr s 0x201007 = Ret (Some 0x7007).
Proof.
  destruct demo_start as (s0 & E0 & Hsz0 & Ha0). destruct (demo_free s0 Ha0) as [Hfree _].
  destruct (op_refines s0 (fun _ => None) demo_op Ha0) as (s & r & t & E & Hsp & Ha & Hsz);
    [by split; [apply demo_geo|split]|rewrite Hsz0; change (op_tables demo_op) with 9%nat; lia|].
  change (op_tables demo_op) with 9%nat in Hsz.
  inversion Hsp as [|vb len rights pb r' t' Hm|]; subst. inversion Hm as [Hf Er Et|m at_ ? ? Hf]; subst; [|by destruct Hf].
  exists s0, s. split; [done|]. cbn [run_prog]. rewrite E. mon. split; [done|]. split; [apply Ha|]. split; [lia|by apply Ha].
Qed.

Lemma vspace_map_correct_witness : exists s0 s, vspace_default ∅ = Ret s0
  /\ map_generic s0 0x1ff000 0x5000 0x3000 ReadUser = Ret (s, Ok tt)
  /\ resolve_addr s 0x201007 = Ret (Some 0x7007) /\ resolve_addr s 0x202000 = Ret None.
Proof.
  destruct demo_start as (s0 & E0 & Hsz0 & Ha0). destruct (demo_free s0 Ha0) as [_ Hfree].
  destruct (vspace_map_correct s0 0x1ff000 0x5000 0x3000 ReadUser) as (s & E & _ & Hr);
    [apply Ha0|apply demo_geo|done|rewrite Hsz0; change (N.to_nat (0x3000 / 4096)) with 3%nat; lia|done|].
  exists s0, s. split_and!; [done|done|by rewrite Hr|]. rewrite Hr by done. by apply Ha0.
Defined.

Lemma vspace_map_overlap_witness : exists s s' at_, resolve_addr s 0x201007 = Ret (Some 0x7007)
  /\ map_generic s 0x200000 0x90000 0x4000 ReadUser = Ret (s', Err at_) /\ resolve_addr s' 0x201007 = Ret (Some 0x7007).
Proof.
  destruct demo_mapped as (s0 & s & _ & _ & Hw & Hsz & Hx).
  destruct (vspace_map_overlap s 0x200000 0x90000 0x4000 ReadUser 0x201007 0x7007) as [(s' & at_ & m & E & _ & _ & _ & Hr & _)|[_ ?]];
    [done|by split|done|change (N.to_nat (0x4000 / 4096)) with 4%nat; lia|done|done| |done].
  exists s, s', at_. split_and!; [done|done|by apply Hr].
Defined.

Abbreviation demo_ops := [demo_op; WriteOperation (MapDevice 0x200000 0x90000 0x4000); ReadOperation (Identify 0x201007)].
Lemma vspace_refines_witness : exists s0 s rs t, vspace_default ∅ = Ret s0
  /\ run_prog vspace_op s0 demo_ops = Ret (s, rs) /\ spec_run (fun _ => None) demo_ops rs t.
Proof.
  destruct (vspace_refines ∅ demo_ops) as (s0 & s & rs & t & E0 & E & Hsp & _).
  - constructor; [split; [apply demo_geo|by split]|]. constructor; [by split|]. by constructor.
  - rewrite map_size_empty. change (all_tables demo_ops) with 21%nat. lia.
  - by exists s0, s, rs, t.
Defined.

Lemma vspace_drop_frees_witness : exists s, resolve_addr s 0x201007 = Ret (Some 0x7007) /\ dom (vspace_drop s) = ∅.
Proof.
  destruct demo_mapped as (s0 & s & E0 & E & _ & _ & Hx). exists s. split; [done|].
  destruct (vspace_drop_frees ∅ _ s0 s _ E0 E) as (_ & _ & ->). apply dom_empty_L.
Defined.

Lemma vspace_clone_dangles_witness : exists s, resolve_addr s 0x201007 = Ret (Some 0x7007)
  /\ resolve_addr (mkVS (vs_pml4 s) (vs_allocs s) (vspace_drop (vspace_clone s))) 0x201007 = Panic "dangling page table".
Proof.
  destruct demo_mapped as (s0 & s & E0 & E & _ & _ & Hx). exists s. split; [done|].
  apply (vspace_clone_dangles _ s0 s _ 0x201007 0x7007 E0 E Hx).
Defined.
